(* ===== verification/_CoqProject ===== *)
-Q . S2P
Prelude.v
Io.v
Text.v
Net.v
AddrParse.v
AddrPrint.v
Config.v
AddrRoundtrip.v
AcmePaths.v
AcmeIssue.v
AcmeSafety.v
AcmeOrder.v
Tls.v
Socks5Codec.v
Socks5Inbound.v
Socks5Outbound.v
Socks5Associate.v
Router.v
TuicSettings.v
TuicCodec.v
TuicFragment.v
TuicLayout.v
TuicInbound.v
TuicAuth.v
TuicStreams.v
TuicRelay.v
TuicOutbound.v
TuicClient.v
TuicEndToEnd.v
TuicServer.v
TuicReply.v
TuicDownload.v
AnytlsCodec.v
AnytlsFrames.v
AnytlsWriter.v
AnytlsClient.v
AnytlsClientStreams.v
AnytlsPool.v
AnytlsUot.v
AnytlsClientUdp.v
AnytlsInbound.v
AnytlsSession.v
AnytlsStreams.v
AnytlsEndToEnd.v
AnytlsLayout.v
AnytlsClientLayout.v
Startup.v
Policy.v
Chain.v
