(* ===== verification/Prelude.v ===== *)
(** * rtunnel: a verification development

    rtunnel is a proxy: inbounds (SOCKS5, AnyTLS, TUIC) accept sessions, a router
    chooses an outbound for each (direct, SOCKS5, AnyTLS, TUIC), and the bytes or
    datagrams of the session are relayed. AnyTLS multiplexes streams over TLS with
    traffic shaping, TUIC runs over QUIC, and certificates may come from ACME. The
    sources are under src/src; paths below are relative to it.

    ** How the code is modelled

    A method on [&mut self] that may fail is a function in [SE S A := S → Result A * S]:
    the state survives an error, as it does in Rust. A task of tokio is a step
    function on the state it shares with the others, and concurrency is the list
    of the steps taken (theorems quantify over it). What the outside decides, a
    [select!] branch, the outcome of a read or a send, the time, a random draw, the
    iteration order of a hash map, is an argument or an event. Integers are [Z] with
    their widths and wrap-arounds written out, strings and buffers are lists of
    bytes, maps are [gmap]; shared objects (sessions of a pool, channels, relays)
    live in a store and are named by their index. Libraries are classes with named
    laws ([TuicCore], [QuicConn], [QuicEnds], [AnytlsCore], [CopyLaws], [Pki],
    [AcmeCa], [TlsLib]), and every class has an instance on which the witnesses
    evaluate. [CopyLaws] is what tokio documents of [copy_bidirectional]: it moves
    bytes and loses none, and between streams that end and have room it finishes
    with both directions copied.

    ** The files

    Foundations
    - Prelude: results, the state-and-error monad, integers, lists, [keeps] (what a
      computation preserves) with its hint database and tactic.
    - Io: cursors and streams; the class [ByteReader] the parsers are proved
      against, [talks], a conversation over a stream, and [Copier], the copy between
      two streams.
    - Text, Net, AddrParse, AddrPrint: the standard library's strings, addresses,
      and how addresses are parsed and printed; session.rs.

    Configuration and startup
    - Config: config.rs, records, validation, durations, servers. AddrRoundtrip:
      printed servers parse back.
    - AcmePaths, AcmeIssue, AcmeSafety, AcmeOrder: acme.rs on a disk of which any
      operation may fail, before, half way or after the effect.
    - Tls: tls.rs, loading, presenting and reloading certificates, what the client's
      connectors ask of BoringSSL.
    - Startup: main.rs and the set-up of the inbounds and outbounds. Policy: every
      inbound against the router. Chain: two programs, one behind the other.

    SOCKS5 and routing
    - Socks5Codec, Socks5Inbound, Socks5Outbound: protocol/socks5. Socks5Associate:
      both ends of a UDP association. Router: router.rs, protocol.rs,
      protocol/direct.

    TUIC (protocol/tuic)
    - TuicSettings: what is set of the QUIC settings (protocol/tuic.rs).
    - TuicCodec, TuicFragment: packets, fragmentation, reassembly (codec.rs).
      TuicLayout: the header layout as an instance of [TuicCore].
    - TuicInbound: the state machine of a server connection (inbound.rs). TuicAuth,
      TuicStreams: what it keeps. TuicRelay: its relay and UDP tasks.
    - TuicOutbound: both client applications (outbound.rs). TuicClient: what they
      write. TuicEndToEnd, TuicReply: client against server, datagrams both ways.
      TuicServer: a server connection with the relay of a stream as a system that
      takes turns, and a client against it. TuicDownload: the way back.

    AnyTLS (protocol/anytls)
    - AnytlsCodec, AnytlsFrames: frames, hello, settings, padding (codec.rs).
    - AnytlsWriter, AnytlsClient, AnytlsClientStreams, AnytlsPool, AnytlsClientUdp:
      the shaping writer, a client session and its tasks, the session pool, UDP
      sessions (outbound.rs).
    - AnytlsUot, AnytlsInbound, AnytlsSession, AnytlsStreams: UDP over TCP, a server
      connection with its tasks, what every interleaving keeps (inbound.rs).
    - AnytlsEndToEnd: client against server. AnytlsLayout, AnytlsClientLayout: an
      instance of [AnytlsCore] and the witnesses on it.

    ** What the theorems show

    - Authentication: nothing is dialed, opened or relayed for a peer that has not
      presented the credentials of a configured user, in any run of a TUIC
      connection, any interleaving of an AnyTLS session, any SOCKS5 conversation;
      what is held back before is bounded, and a deadline that only the establishment
      of the connection sets ends it
      (no_service_before_authentication, deadline_enforced, service_gate,
      handshake_authenticates, assoc_single_client). A client that fails the AnyTLS
      hello is copied to and from the fallback server (fallback_transparent).
    - Transport: the two ends composed. What an application writes is what the far
      side is given, in order, whatever the cutting, queueing and interleaving, for
      TCP and UDP through SOCKS5, AnyTLS and TUIC, and back. For TUIC's streams the
      server's callbacks, its relay and their bounded channels take turns in any
      order in which no channel overflows, and once all is taken the bytes and both
      ends have arrived (connect_interop,
      associate_end_to_end, anytls_tcp_end_to_end, uot_client_server,
      tuic_tcp_end_to_end, relay_end_to_end, tuic_download_end_to_end,
      tuic_udp_end_to_end, tuic_udp_reply, streams_in_order,
      client_streams_in_order, uot_end_to_end). And two programs composed: from a
      SOCKS5 application through the near router, an AnyTLS outbound, the far
      inbound and the far router, with the near copy (chain_end_to_end). The AnyTLS
      theorems about a whole session start at a new session; they ask ([plan_ok])
      that a padding size drawn fits the two bytes of a frame's length, since the
      code fails with an error otherwise, and writer_sends_frames says what is sent
      also when it does not.
    - Codecs: fragments fit their datagrams and reassemble in any order, nothing
      else is ever assembled, shaping adds only waste frames, a packet is accepted
      exactly when its payload has the announced size (reassembly, fragments_fit, assembler_sound, shaping_transparent,
      writer_sends_frames, parse_packet_valid, server_roundtrip).
    - Resources: stream counts are exact and pool limits hold, streams are
      acknowledged once, retries do not duplicate datagrams (client_bookkeeping,
      open_stream_limits, acked_once, udp_send_retries).
    - Configuration: validation accepts exactly the valid configurations, every
      session of one reaches its outbound, and one that loads starts when its
      addresses can be bound and its certificates made, and only then serves (config_validate_ok, router_total, start_serves); with the router an inbound
      behaves exactly as with the one outbound configured for it (wired_inbound).
    - Certificates: cached files are never torn, preparing leaves every inbound a
      usable pair, orders are validated, a handshake that succeeds presents what is on
      the disk at that moment, and on a disk that does not fail a renewed certificate
      is presented without a restart (issue_certificate_atomic, acme_prepare_usable,
      http01_validates, configure_targets_ok, certificates_rotate).

    Behaviours that differ from what the code or its documentation says are proved
    too: AcmeOrder.renewal_loses_certificate, TuicStreams.full_channel_fails,
    TuicStreams.ended_session_renewed, Router.direct_send_to_domain,
    AddrRoundtrip.signed_port_is_domain.

    ** Bounds

    Recursion follows the data where the code's does. Elsewhere fuel bounds it, and
    more fuel is proved to change nothing: the TUIC write loops get one round and
    256 more for each queued write, since a datagram is cut at most once into at
    most 255 fragments (writes_terminate, udp_writes_terminate); nested TUIC
    commands three levels, since an authentication drains what it starts
    (TuicAuth); the loop that merges underscores the length of the name
    (stable_slug_safe); trimming and cutting into chunks the length of the list;
    printing a number 64 digits, more than a 64-bit integer has; opening an AnyTLS
    stream one round for each pooled session and one more (open_stream_limits).

    ** Not modelled

    TLS, QUIC, HTTP, TOML, PEM, hashes, the ACME protocol, DNS and sockets are
    libraries and appear as parameters; the accept loops only hand connections to
    library code; what serde derives
    to deserialise the configuration is generated code. Logging, argument parsing
    and the allocator have no effect on the behaviour described here. Closings
    are the only steps of other tasks between the two locks of opening an AnyTLS
    stream. The rate of traffic, the waiting of back-pressure and fairness between tasks are
    not described: a step that waits is a step not taken. *)

From Corelib Require Export ssreflect.
From stdpp Require Export base list gmap strings.
From Stdlib Require Export ZArith Lia.

#[export] Set Warnings "-clear-no-such-hyp".
#[global] Open Scope general_if_scope.
#[global] Open Scope Z_scope.

(** ** Errors and results

    [anyhow::Error] is kept as far as the code distinguishes errors: an I/O
    error with its kind (the TUIC prefix parser tests for [UnexpectedEof]),
    or a message. *)
Inductive io_kind := UnexpectedEof | BrokenPipe.

Inductive error :=
  | EIo (k : io_kind)
  | EUtf8
  | EUnmarshal (k : option io_kind)
  | EMsg (msg : string).

Inductive Result (A : Type) :=
  | Ok (a : A)
  | Err (e : error).
Arguments Ok {A} a.
Arguments Err {A} e.

#[global] Instance Result_ret : MRet Result := λ A a, Ok a.
#[global] Instance Result_bind : MBind Result := λ A B f m,
  match m with Ok a => f a | Err e => Err e end.

Definition is_ok {A} (r : Result A) : bool :=
  match r with Ok _ => true | Err _ => false end.

Definition ok {A} (r : Result A) : option A :=
  match r with Ok a => Some a | Err _ => None end.

(** [anyhow::ensure!] and [Option::context]. *)
Definition ensure (b : bool) (msg : string) : Result () :=
  if b then Ok () else Err (EMsg msg).

Definition context {A} (o : option A) (msg : string) : Result A :=
  match o with Some a => Ok a | None => Err (EMsg msg) end.

(** ** State and errors: [&mut self] methods that return a [Result]

    The state survives an error, as the receiver of a Rust method does. *)
Definition SE (S A : Type) : Type := S → Result A * S.

#[global] Instance SE_ret S : MRet (SE S) := λ A a s, (Ok a, s).
#[global] Instance SE_bind S : MBind (SE S) := λ A B f m s,
  match m s with
  | (Ok a, s') => f a s'
  | (Err e, s') => (Err e, s')
  end.

Definition throw {S A} (e : error) : SE S A := λ s, (Err e, s).
Definition lift {S A} (r : Result A) : SE S A := λ s, (r, s).
Definition gets {S A} (f : S → A) : SE S A := λ s, (Ok (f s), s).
Definition modify {S} (f : S → S) : SE S () := λ s, (Ok (), f s).
Definition when {S} (b : bool) (m : SE S ()) : SE S () :=
  if b then m else mret ().

(** The outcome of [m] as a value. *)
Definition attempt {S A} (m : SE S A) : SE S (Result A) := λ s, let '(r, s') := m s in (Ok r, s').

(** [for x in l { f(x)? }] *)
Fixpoint for_each {S A} (f : A → SE S ()) (l : list A) : SE S () :=
  match l with
  | [] => mret ()
  | x :: l => f x ;; for_each f l
  end.

Lemma SE_bind_ok {S A B} (m : SE S A) (f : A → SE S B) s a s' :
  m s = (Ok a, s') → (m ≫= f) s = f a s'.
Proof. rw /mbind /SE_bind. by intros ->. Qed.

Lemma SE_bind_err {S A B} (m : SE S A) (f : A → SE S B) s e s' :
  m s = (Err e, s') → (m ≫= f) s = (Err e, s').
Proof. rw /mbind /SE_bind. by intros ->. Qed.

Lemma SE_bind_inv {S A B} (m : SE S A) (f : A → SE S B) s b s' :
  (m ≫= f) s = (Ok b, s') → ∃ a s1, m s = (Ok a, s1) ∧ f a s1 = (Ok b, s').
Proof.
  rw /mbind /SE_bind. destruct (m s) as [[a|e] s1]; [eauto | done].
Qed.

Lemma lookup_snoc_last {A} (l : list A) x : (l ++ [x]) !! length l = Some x.
Proof. by apply list_lookup_middle. Qed.
Lemma insert_snoc_last {A} (l : list A) x y : <[length l := y]> (l ++ [x]) = l ++ [y].
Proof. by rw -{1}(Nat.add_0_r (length l)) insert_app_r. Qed.
Lemma Forall_snoc {A} (P : A → Prop) l x : Forall P l → P x → Forall P (l ++ [x]).
Proof. intros Hl Hx. apply Forall_app. split; [done|]. by constructor. Qed.

Lemma for_each_app {S A} (f : A → SE S ()) l k s s' :
  for_each f l s = (Ok (), s') → for_each f (l ++ k) s = for_each f k s'.
Proof.
  revert s. induction l as [|x l IH]; intros s; simpl; [by intros [= ->]|].
  intros (u & s1 & H1 & H2)%SE_bind_inv. rw (SE_bind_ok _ _ _ _ _ H1). by apply IH.
Qed.
Lemma for_each_app_inv {S A} (f : A → SE S ()) l k s s' :
  for_each f (l ++ k) s = (Ok (), s') → ∃ s1, for_each f l s = (Ok (), s1) ∧ for_each f k s1 = (Ok (), s').
Proof.
  revert s. induction l as [|x l IH]; intros s; simpl; [by exists s|].
  intros ([] & s1 & H1 & (s2 & H2 & H3)%IH)%SE_bind_inv. exists s2. by rw (SE_bind_ok _ _ _ _ _ H1).
Qed.

Lemma Result_bind_inv {A B} (m : Result A) (f : A → Result B) b :
  m ≫= f = Ok b → ∃ a, m = Ok a ∧ f a = Ok b.
Proof. destruct m; [by eauto | done]. Qed.

Lemma ensure_ok b msg u : ensure b msg = Ok u → b = true.
Proof. by destruct b. Qed.

Lemma ensure_true b msg : b = true → ensure b msg = Ok ().
Proof. by intros ->. Qed.

(** ** Machine integers

    A [u8], [u16], [u32], [u64] or [usize] is a [Z] in its range; [as_u8] and
    the like are Rust's [as] casts, and [wrapping_*] its wrapping operations. *)
Definition is_u8 (z : Z) : Prop := 0 ≤ z < 2 ^ 8.
Definition is_u16 (z : Z) : Prop := 0 ≤ z < 2 ^ 16.
Definition is_u32 (z : Z) : Prop := 0 ≤ z < 2 ^ 32.
Definition is_u64 (z : Z) : Prop := 0 ≤ z < 2 ^ 64.
Definition U16_MAX : Z := 2 ^ 16 - 1.
Definition U8_MAX : Z := 2 ^ 8 - 1.
Definition as_u8 (z : Z) : Z := z mod 2 ^ 8.
Definition as_u16 (z : Z) : Z := z mod 2 ^ 16.
Definition wrapping_add_u16 (a b : Z) : Z := (a + b) mod 2 ^ 16.
Definition wrapping_add_u32 (a b : Z) : Z := (a + b) mod 2 ^ 32.
Definition saturating_sub (a b : Z) : Z := Z.max 0 (a - b).
(** A [usize] subtraction in the release profile, which wraps. *)
Definition sub_usize (a b : Z) : Z := (a - b) mod 2 ^ 64.

Abbreviation bytes := (list Z).
Definition wf_bytes (l : bytes) : Prop := Forall is_u8 l.

#[global] Instance is_u8_dec z : Decision (is_u8 z).
Proof. unfold is_u8; apply _. Defined.
#[global] Instance is_u16_dec z : Decision (is_u16 z).
Proof. unfold is_u16; apply _. Defined.
#[global] Instance is_u32_dec z : Decision (is_u32 z).
Proof. unfold is_u32; apply _. Defined.
#[global] Instance wf_bytes_dec l : Decision (wf_bytes l).
Proof. unfold wf_bytes; apply _. Defined.

(** [Vec::len] *)
Definition len {A} (l : list A) : Z := Z.of_nat (length l).

Lemma len_app {A} (l k : list A) : len (l ++ k) = len l + len k.
Proof. rw /len length_app. lia. Qed.
Lemma len_nonneg {A} (l : list A) : 0 ≤ len l.
Proof. rw /len. lia. Qed.
Lemma len_cons {A} (x : A) l : len (x :: l) = 1 + len l.
Proof. rw /len /=. lia. Qed.
Lemma len_nil {A} : len (@nil A) = 0.
Proof. done. Qed.

(** ** Big-endian bytes: [to_be_bytes] and [from_be_bytes] *)
Fixpoint be_bytes (n : nat) (z : Z) : bytes :=
  match n with
  | O => []
  | S n => (z / 256 ^ Z.of_nat n) mod 256 :: be_bytes n z
  end.

Definition be_val (l : bytes) : Z := fold_left (λ acc b, acc * 256 + b) l 0.

Lemma be_bytes_length n z : length (be_bytes n z) = n.
Proof. induction n; simpl; congruence. Qed.

Lemma be_bytes_wf n z : wf_bytes (be_bytes n z).
Proof.
  induction n; simpl; constructor; [|done].
  apply Z.mod_pos_bound. lia.
Qed.

Lemma be_val_acc l a : fold_left (λ acc b, acc * 256 + b) l a = a * 256 ^ len l + be_val l.
Proof.
  rw /be_val. revert a. induction l as [|b l IH]; intros a; simpl.
  - rw len_nil. lia.
  - rw (IH (a * 256 + b)) (IH (0 * 256 + b)) len_cons Z.pow_add_r; [lia | apply len_nonneg |].
    change (256 ^ 1) with 256. ring.
Qed.

Lemma be_val_bytes n z : be_val (be_bytes n z) = z mod 256 ^ Z.of_nat n.
Proof.
  induction n as [|n IH]; [by rw Z.mod_1_r|].
  rw /be_val /= be_val_acc IH /len be_bytes_length.
  rw Nat2Z.inj_succ Z.pow_succ_r; [lia|].
  rw (Z.mul_comm 256) Z.rem_mul_r; [lia..|]. ring.
Qed.

Lemma be_val_bytes_u16 z : is_u16 z → be_val (be_bytes 2 z) = z.
Proof. intros H. rw be_val_bytes. apply Z.mod_small, H. Qed.
Lemma be_val_bytes_u32 z : is_u32 z → be_val (be_bytes 4 z) = z.
Proof. intros H. rw be_val_bytes. apply Z.mod_small, H. Qed.

Lemma be_val_bound l : wf_bytes l → 0 ≤ be_val l < 256 ^ len l.
Proof.
  induction 1 as [|b l Hb Hl IH]; [done|].
  rw /be_val /= be_val_acc len_cons Z.pow_add_r; [lia|apply len_nonneg|].
  rw /is_u8 in Hb. change (256 ^ 1) with 256. nia.
Qed.

Lemma be_bytes_add n m z k :
  (n ≤ m)%nat → be_bytes n (z + k * 256 ^ Z.of_nat m) = be_bytes n z.
Proof.
  intros Hle. induction n as [|n IH]; [done|]. simpl. f_equal; [|apply IH; lia].
  replace (Z.of_nat m) with (Z.of_nat (m - S n) + 1 + Z.of_nat n) by lia.
  rw !Z.pow_add_r; [lia..|]. rw !Z.mul_assoc Z.div_add; [lia|].
  change (256 ^ 1) with 256. by rw Z.mul_1_r Z_mod_plus_full.
Qed.

Lemma be_bytes_val l : wf_bytes l → be_bytes (length l) (be_val l) = l.
Proof.
  induction 1 as [|b l Hb Hl IH]; [done|]. simpl.
  pose proof (be_val_bound l Hl) as Hv. rw /len in Hv.
  assert (be_val (b :: l) = be_val l + b * 256 ^ Z.of_nat (length l)) as ->.
  { rw /be_val /= be_val_acc /len /be_val. ring. }
  rw be_bytes_add; [done|]. rw IH. f_equal.
  rw Z.div_add; [lia|]. rw Z.div_small; [done|]. rw Z.mod_small; [|done].
  exact Hb.
Qed.

Lemma be_val_u16 l : wf_bytes l → length l = 2%nat → is_u16 (be_val l).
Proof. intros Hl Hn. pose proof (be_val_bound l Hl). rw /len Hn in H. exact H. Qed.

Lemma be_bytes_val_2 l : wf_bytes l → length l = 2%nat → be_bytes 2 (be_val l) = l.
Proof. intros Hl <-. by apply be_bytes_val. Qed.

Lemma wf_bytes_app l k : wf_bytes (l ++ k) ↔ wf_bytes l ∧ wf_bytes k.
Proof. apply Forall_app. Qed.

(** ** Tactics *)

(** Case analysis on the outcome of every call a goal or hypothesis waits for. *)
Ltac case_result :=
  match goal with
  | |- context [match ?x with Ok _ => _ | Err _ => _ end] => destruct x eqn:?
  | H : context [match ?x with Ok _ => _ | Err _ => _ end] |- _ => destruct x eqn:?
  end.

Ltac simp_bool :=
  repeat match goal with
  | H : _ && _ = true |- _ => apply andb_prop in H as [? ?]
  | H : negb _ = true |- _ => apply negb_true_iff in H
  | H : bool_decide _ = true |- _ => apply bool_decide_eq_true in H
  | H : bool_decide _ = false |- _ => apply bool_decide_eq_false in H
  | H : (_ =? _) = true |- _ => apply Z.eqb_eq in H
  | H : (_ =? _) = false |- _ => apply Z.eqb_neq in H
  | H : (_ <=? _) = true |- _ => apply Z.leb_le in H
  | H : (_ <=? _) = false |- _ => apply Z.leb_gt in H
  | H : (_ <? _) = true |- _ => apply Z.ltb_lt in H
  | H : (_ <? _) = false |- _ => apply Z.ltb_ge in H
  end.

(** Decides a closed proposition by evaluating its decision procedure. *)
Ltac by_decide := refine (bool_decide_unpack _ _); vm_compute; exact I.

Lemma ensure_then {B} b msg (k : () → Result B) : b = true → (ensure b msg ≫= k) = k ().
Proof. by intros ->. Qed.

(** [for x in l { f(x)?; }] without state. *)
Fixpoint for_result {A} (f : A → Result ()) (l : list A) : Result () :=
  match l with
  | [] => Ok ()
  | x :: l => f x ;; for_result f l
  end.

Lemma for_result_ok {A} (f : A → Result ()) l :
  for_result f l = Ok () ↔ Forall (λ x, f x = Ok ()) l.
Proof.
  induction l as [|x l IH]; simpl; [by split; [constructor|]|].
  rw Forall_cons -IH. destruct (f x) as [[]|]; cbn; naive_solver.
Qed.

Lemma bind_ok_iff (m : Result ()) (k : Result ()) :
  (m ;; k) = Ok () ↔ m = Ok () ∧ k = Ok ().
Proof. destruct m as [[]|]; cbn; naive_solver. Qed.

Lemma ensure_ok_iff b msg : ensure b msg = Ok () ↔ b = true.
Proof. by destruct b. Qed.

(** ** Durations and instants, in nanoseconds *)
Definition from_secs (s : Z) : Z := s * 1000000000.
Definition from_millis (ms : Z) : Z := ms * 1000000.
(** [now.saturating_duration_since(earlier)] *)
Definition saturating_duration_since (now earlier : Z) : Z := Z.max 0 (now - earlier).

(** ** Triples for the state and error monad

    From a state that satisfies [P], [m] ends in [Q] of its value and the new
    state, or with an error in a state that satisfies [E]. *)
Definition triple {S A} (P : S → Prop) (m : SE S A) (Q : A → S → Prop) (E : S → Prop) : Prop :=
  ∀ s, P s → match m s with (Ok a, s') => Q a s' | (Err _, s') => E s' end.

Section triples.
Context {S : Type}.
Implicit Types (P E : S → Prop).

Lemma triple_conseq {A} P P' (m : SE S A) Q Q' E E' :
  (∀ s, P' s → P s) → triple P m Q E → (∀ a s, Q a s → Q' a s) → (∀ s, E s → E' s) →
  triple P' m Q' E'.
Proof.
  intros HP Hm HQ HE s Hs. specialize (Hm s (HP s Hs)). destruct (m s) as [[a|e] s']; auto.
Qed.

Lemma triple_bind {A B} P (m : SE S A) (f : A → SE S B) Q R E :
  triple P m Q E → (∀ a, triple (Q a) (f a) R E) → triple P (m ≫= f) R E.
Proof.
  intros Hm Hf s Hs. specialize (Hm s Hs). rw /mbind /SE_bind.
  destruct (m s) as [[a|e] s']; [|done]. by apply Hf.
Qed.

Lemma triple_ret {A} (a : A) P Q E : (∀ s, P s → Q a s) → triple P (mret a) Q E.
Proof. intros H s Hs. by apply H. Qed.
Lemma triple_throw {A} e P (Q : A → S → Prop) E : (∀ s, P s → E s) → triple P (throw e) Q E.
Proof. intros H s Hs. by apply H. Qed.
Lemma triple_lift {A} (r : Result A) P Q E :
  (∀ a s, r = Ok a → P s → Q a s) → (∀ s, P s → E s) → triple P (lift r) Q E.
Proof. intros H1 H2 s Hs. rw /lift. destruct r; [by apply H1|by apply H2]. Qed.
Lemma triple_gets {A} (f : S → A) P Q E : (∀ s, P s → Q (f s) s) → triple P (gets f) Q E.
Proof. intros H s Hs. by apply H. Qed.
Lemma triple_modify (f : S → S) P Q E : (∀ s, P s → Q () (f s)) → triple P (modify f) Q E.
Proof. intros H s Hs. by apply H. Qed.
Lemma triple_when (b : bool) (m : SE S ()) P Q E :
  (b = true → triple P m Q E) → (b = false → ∀ s, P s → Q () s) → triple P (when b m) Q E.
Proof. destruct b; intros H1 H2; [by apply H1|]. apply triple_ret, H2, eq_refl. Qed.
Lemma triple_for_each {A} (f : A → SE S ()) l P E :
  (∀ x, x ∈ l → triple P (f x) (λ _, P) E) → triple P (for_each f l) (λ _, P) E.
Proof.
  induction l as [|x l IH]; intros Hf; simpl; [by apply triple_ret|].
  eapply triple_bind; [apply Hf; by left|]. intros []. apply IH. intros y Hy. apply Hf. by right.
Qed.
(** A case distinction on the state. *)
Lemma triple_or {A} P1 P2 (m : SE S A) Q E :
  triple P1 m Q E → triple P2 m Q E → triple (λ s, P1 s ∨ P2 s) m Q E.
Proof. intros H1 H2 s [Hs|Hs]; [by apply H1|by apply H2]. Qed.
(** A fact of the precondition that does not depend on the state. *)
Lemma triple_pure {A} (φ : Prop) P (m : SE S A) Q E :
  (φ → triple P m Q E) → triple (λ s, φ ∧ P s) m Q E.
Proof. intros H s [Hφ Hs]. by apply H. Qed.
Lemma triple_ex {A X} (P : X → S → Prop) (m : SE S A) Q E :
  (∀ x, triple (P x) m Q E) → triple (λ s, ∃ x, P x s) m Q E.
Proof. intros H s [x Hs]. by apply (H x). Qed.
End triples.

(** An assertion a computation keeps, whether it succeeds or fails. *)
Definition keeps {S A} (I : S → Prop) (m : SE S A) : Prop := triple I m (λ _, I) I.

Section keeping.
Context {S : Type} (I : S → Prop).

Lemma keeps_bind {A B} (m : SE S A) (f : A → SE S B) :
  keeps I m → (∀ a, keeps I (f a)) → keeps I (m ≫= f).
Proof. intros Hm Hf. by eapply triple_bind. Qed.
Lemma keeps_ret {A} (a : A) : keeps I (mret a).
Proof. by apply triple_ret. Qed.
Lemma keeps_throw {A} e : keeps I (throw e : SE S A).
Proof. by apply triple_throw. Qed.
Lemma keeps_lift {A} (r : Result A) : keeps I (lift r).
Proof. by apply triple_lift. Qed.
Lemma keeps_gets {A} (f : S → A) : keeps I (gets f).
Proof. by apply triple_gets. Qed.
(** What is known of the value read. *)
Lemma keeps_gets_bind {A B} (g : S → A) (f : A → SE S B) :
  (∀ s, I s → keeps I (f (g s))) → keeps I (gets g ≫= f).
Proof. intros Hf s Hs. by apply (Hf s). Qed.
Lemma keeps_when b (m : SE S ()) : keeps I m → keeps I (when b m).
Proof. intros Hm. apply triple_when; [by intros _|by intros _ s]. Qed.
Lemma keeps_for_each {A} (f : A → SE S ()) l : (∀ x, keeps I (f x)) → keeps I (for_each f l).
Proof. intros Hf. apply triple_for_each. intros x _. apply Hf. Qed.
Lemma keeps_attempt {A} (m : SE S A) : keeps I m → keeps I (attempt m).
Proof. intros Hm s Hs. specialize (Hm s Hs). rw /attempt. by destruct (m s) as [[a|e] s']. Qed.
Lemma keeps_weaken {A} (J : S → Prop) (m : SE S A) :
  (∀ s, I s → J s) → keeps I m → triple I m (λ _, J) J.
Proof. intros HJ Hm. by eapply triple_conseq; [|exact Hm| |]; [|intros; apply HJ..]. Qed.
Lemma keeps_weaken_err {A} (E : S → Prop) (m : SE S A) :
  keeps I m → (∀ s, I s → E s) → triple I m (λ _, I) E.
Proof. intros Hm HE. by eapply triple_conseq; [|exact Hm| |]. Qed.
End keeping.

Create HintDb keeping.
#[export] Hint Resolve keeps_ret keeps_throw keeps_lift keeps_gets : keeping.

(** Walks through a computation made of steps the database knows to keep the
    assertion. *)
Ltac keep_walk :=
  repeat first
    [ progress intros
    | solve [eauto with keeping nocore]
    | apply keeps_bind
    | apply keeps_when
    | apply keeps_attempt
    | apply keeps_for_each
    | case_match ].

(** ** Sums over maps *)
Definition msum {K V} `{Countable K} (f : V → Z) (m : gmap K V) : Z :=
  map_fold (λ _ v acc, f v + acc) 0 m.
Definition at_key {V} (f : V → Z) (o : option V) : Z := match o with Some v => f v | None => 0 end.

Section msum.
Context {K V : Type} `{Countable K} (f : V → Z).

Lemma msum_empty : msum f (∅ : gmap K V) = 0.
Proof. apply map_fold_empty. Qed.
Lemma msum_insert_fresh (m : gmap K V) k v : m !! k = None → msum f (<[k := v]> m) = f v + msum f m.
Proof. intros Hk. rw /msum map_fold_insert_L; [intros; lia|done|done]. Qed.
Lemma msum_delete (m : gmap K V) k : msum f (delete k m) = msum f m - at_key f (m !! k).
Proof.
  destruct (m !! k) as [v|] eqn:Hk; simpl.
  - rw -{2}(insert_delete_id m k v Hk) msum_insert_fresh; [by rw lookup_delete_eq|lia].
  - rw delete_id; [done|lia].
Qed.
Lemma msum_insert (m : gmap K V) k v :
  msum f (<[k := v]> m) = msum f m - at_key f (m !! k) + f v.
Proof.
  rw -insert_delete_eq msum_insert_fresh; [by rw lookup_delete_eq|]. rw msum_delete. lia.
Qed.
Lemma msum_nonneg (m : gmap K V) : (∀ v, 0 ≤ f v) → 0 ≤ msum f m.
Proof.
  intros Hf. induction m as [|k v m Hk IH] using map_ind; [by rw msum_empty|].
  rw msum_insert_fresh; [done|]. specialize (Hf v). lia.
Qed.
End msum.

(** The number of entries, as a sum. *)
Lemma msum_size {K V} `{Countable K} (m : gmap K V) : msum (λ _, 1) m = Z.of_nat (size m).
Proof.
  induction m as [|k v m Hk IH] using map_ind; [done|].
  rw msum_insert_fresh; [done|]. rw map_size_insert_None; [done|]. lia.
Qed.
