(* ===== verification/Io.v ===== *)
(** * Byte sources and sinks

    [std::io::Read] on a [Cursor], tokio's [AsyncRead]/[AsyncWrite] on a
    stream, and the contract the parsers of the program rely on: the class
    [ByteReader], against which the address, frame and packet parsers are
    proved, and which the cursor, the stream and (in AnytlsInbound) the
    chunked reader of UDP-over-TCP implement. *)
From S2P Require Import Prelude.

(** ** The reader interface *)
Class ByteReader (S : Type) := {
  read_exact : nat → SE S bytes;
  (** the bytes the reader has yet to deliver *)
  pending : S → bytes;
  (** the representation invariant *)
  reader_ok : S → Prop;
  (** the part of the state a read leaves alone *)
  reader_frame : Type;
  frame_of : S → reader_frame;
  (** the error of a read past the end *)
  starve_error : error;
  read_exact_enough s l r n :
    reader_ok s → pending s = l ++ r → length l = n →
    ∃ s', read_exact n s = (Ok l, s') ∧ pending s' = r ∧ reader_ok s' ∧ frame_of s' = frame_of s;
  read_exact_short s n :
    reader_ok s → (length (pending s) < n)%nat →
    ∃ s', read_exact n s = (Err starve_error, s');
}.

Section reading.
Context {S : Type} `{!ByteReader S}.

Definition read_u8 : SE S Z :=
  buf ← read_exact 1; mret (buf !!! 0%nat).

Definition read_u16 : SE S Z :=
  buf ← read_exact 2; mret (be_val buf).

(** [m] turns the bytes [l] into [a], leaving the rest unread. *)
Definition reads {A} (m : SE S A) (l : bytes) (a : A) : Prop :=
  ∀ s r, reader_ok s → pending s = l ++ r →
  ∃ s', m s = (Ok a, s') ∧ pending s' = r ∧ reader_ok s' ∧ frame_of s' = frame_of s.

(** [m] runs into the end of the input on every strict prefix of [l]. *)
Definition needs_all {A} (m : SE S A) (l : bytes) : Prop :=
  ∀ s t, reader_ok s → l = pending s ++ t → t ≠ [] →
  ∃ s', m s = (Err starve_error, s').

Definition parses {A} (m : SE S A) (l : bytes) (a : A) : Prop :=
  reads m l a ∧ needs_all m l.

(** [m] rejects the bytes [l], whatever follows. *)
Definition rejects {A} (m : SE S A) (l : bytes) (e : error) : Prop :=
  ∀ s r, reader_ok s → pending s = l ++ r → ∃ s', m s = (Err e, s').

Lemma parses_ret {A} (a : A) : parses (mret a) [] a.
Proof.
  split.
  - intros s r Hok Hp. by exists s.
  - intros s t _ Heq Ht. symmetry in Heq. by apply app_nil in Heq as [_ ->].
Qed.

Lemma parses_exact l n : length l = n → parses (read_exact n) l l.
Proof.
  intros Hn. split.
  - intros s r Hok Hp. by eapply read_exact_enough.
  - intros s t Hok Heq Ht. apply read_exact_short; [done|].
    rw -Hn Heq length_app. destruct t; [done|]. simpl. lia.
Qed.

Lemma parses_bind {A B} (m : SE S A) (f : A → SE S B) l1 l2 a b :
  parses m l1 a → parses (f a) l2 b → parses (m ≫= f) (l1 ++ l2) b.
Proof.
  intros [Hm Hm'] [Hf Hf']. split.
  - intros s r Hok Hp. rw -app_assoc in Hp.
    destruct (Hm s _ Hok Hp) as (s1 & Hs1 & Hp1 & Hok1 & Hfr1).
    destruct (Hf s1 r Hok1 Hp1) as (s2 & Hs2 & Hp2 & Hok2 & Hfr2).
    exists s2. rw (SE_bind_ok _ _ _ _ _ Hs1). by rw Hfr2.
  - intros s t Hok Heq Ht.
    destruct (app_eq_inv _ _ _ _ Heq) as [(k & Hk1 & Hk2)|(k & Hk1 & Hk2)].
    + destruct k as [|x k].
      * destruct (Hm s [] Hok) as (s1 & Hs1 & Hp1 & Hok1 & Hfr1); [by rw Hk1 !app_nil_r|].
        rw app_nil_r in Hk1. simpl in Hk2. subst t.
        destruct (Hf' s1 l2 Hok1) as (s2 & Hs2); [by rw Hp1|done|].
        exists s2. by rw (SE_bind_ok _ _ _ _ _ Hs1).
      * destruct (Hm' s (x :: k) Hok Hk1) as (s1 & Hs1); [done|].
        exists s1. by apply SE_bind_err.
    + destruct (Hm s k Hok) as (s1 & Hs1 & Hp1 & Hok1 & Hfr1); [done|].
      destruct (Hf' s1 t Hok1) as (s2 & Hs2); [by rw Hp1|done|].
      exists s2. by rw (SE_bind_ok _ _ _ _ _ Hs1).
Qed.

Lemma parses_bind_ret {A B} (m : SE S A) (f : A → SE S B) l a b :
  parses m l a → f a = mret b → parses (m ≫= f) l b.
Proof.
  intros Hm Hf. rw -(app_nil_r l). eapply parses_bind; [done|].
  rw Hf. apply parses_ret.
Qed.

Lemma parses_u8 b : parses read_u8 [b] b.
Proof. by eapply parses_bind_ret; [apply parses_exact|]. Qed.

Lemma parses_u16 z : is_u16 z → parses read_u16 (be_bytes 2 z) z.
Proof.
  intros Hz. eapply parses_bind_ret; [by apply parses_exact|].
  by rw be_val_bytes_u16.
Qed.

Lemma rejects_bind {A B} (m : SE S A) (f : A → SE S B) l1 l2 a e :
  reads m l1 a → rejects (f a) l2 e → rejects (m ≫= f) (l1 ++ l2) e.
Proof.
  intros Hm Hf s r Hok Hp. rw -app_assoc in Hp.
  destruct (Hm s _ Hok Hp) as (s1 & Hs1 & Hp1 & Hok1 & _).
  destruct (Hf s1 r Hok1 Hp1) as [s2 Hs2].
  exists s2. by rw (SE_bind_ok _ _ _ _ _ Hs1).
Qed.

Lemma rejects_throw {A} e : rejects (throw e : SE S A) [] e.
Proof. intros s r _ _. by exists s. Qed.
End reading.

Create HintDb parsing.
#[export] Hint Resolve parses_ret parses_u8 parses_u16 : parsing.

(** ** [std::io::Cursor<&[u8]>] *)
Record Cursor := MkCursor { cdata : bytes; cpos : nat }.

Definition cursor_new (data : bytes) : Cursor := MkCursor data 0.

Definition cursor_read_exact (n : nat) : SE Cursor bytes := λ c,
  if decide (cpos c + n ≤ length (cdata c))%nat
  then (Ok (take n (drop (cpos c) (cdata c))), MkCursor (cdata c) (cpos c + n))
  else (Err (EIo UnexpectedEof), MkCursor (cdata c) (length (cdata c))).

#[global] Program Instance Cursor_reader : ByteReader Cursor := {|
  read_exact := cursor_read_exact;
  pending := λ c, drop (cpos c) (cdata c);
  reader_ok := λ c, (cpos c ≤ length (cdata c))%nat;
  frame_of := cdata;
  starve_error := EIo UnexpectedEof;
|}.
Next Obligation.
  intros c l r n Hok Hp Hn. simpl in *.
  assert (Hlen : length (cdata c) = (cpos c + n + length r)%nat).
  { apply (f_equal length) in Hp. rw length_drop length_app Hn in Hp. lia. }
  rw /cursor_read_exact decide_True; [lia|].
  eexists; split_and!; [by rw Hp take_app_length'| | |done]; simpl.
  - by rw -drop_drop Hp drop_app_length'.
  - lia.
Qed.
Next Obligation.
  intros c n Hok Hlt. simpl in *. rw length_drop in Hlt.
  rw /cursor_read_exact decide_False; [lia|]. eauto.
Qed.

(** Running a cursor parser from the start of [data]: the value and
    [cursor.position()]. *)
Definition run_cursor {A} (m : SE Cursor A) (data : bytes) : Result (A * nat) :=
  match m (cursor_new data) with
  | (Ok a, c) => Ok (a, cpos c)
  | (Err e, _) => Err e
  end.

Lemma run_cursor_ok {A} (m : SE Cursor A) l r a :
  reads m l a → run_cursor m (l ++ r) = Ok (a, length l).
Proof.
  intros Hm. rw /run_cursor.
  destruct (Hm (cursor_new (l ++ r)) r) as (c & -> & Hp & Hok & Hfr); [simpl; lia|done|].
  simpl in *. rw Hfr in Hp. rw Hfr length_app in Hok.
  apply (f_equal length) in Hp. rw length_drop length_app in Hp.
  do 2 f_equal. lia.
Qed.

Lemma run_cursor_prefix {A} (m : SE Cursor A) l k :
  needs_all m (l ++ k) → k ≠ [] → run_cursor m l = Err (EIo UnexpectedEof).
Proof.
  intros Hm Hk. rw /run_cursor.
  destruct (Hm (cursor_new l) k) as (c & ->); [simpl; lia|done..].
Qed.

(** ** A bidirectional byte stream

    [rx] is what the peer sends before closing, [tx] what was written so far,
    and [room] the number of bytes the connection still accepts: a write past
    it fails, as on a connection reset. *)
Record Stream := MkStream { rx : bytes; tx : bytes; room : nat }.

Definition stream_read_exact (n : nat) : SE Stream bytes := λ s,
  if decide (n ≤ length (rx s))%nat
  then (Ok (take n (rx s)), MkStream (drop n (rx s)) (tx s) (room s))
  else (Err (EIo UnexpectedEof), MkStream [] (tx s) (room s)).

Definition write_all (l : bytes) : SE Stream () := λ s,
  if decide (length l ≤ room s)%nat
  then (Ok (), MkStream (rx s) (tx s ++ l) (room s - length l))
  else (Err (EIo BrokenPipe), MkStream (rx s) (tx s ++ take (room s) l) 0).

#[global] Program Instance Stream_reader : ByteReader Stream := {|
  read_exact := stream_read_exact;
  pending := rx;
  reader_ok := λ _, True;
  frame_of := λ s, (tx s, room s);
  starve_error := EIo UnexpectedEof;
|}.
Next Obligation.
  intros s l r n _ Hp Hn. simpl in *.
  rw /stream_read_exact decide_True; [rw Hp length_app; lia|].
  eexists; split_and!; [by rw Hp take_app_length'| |done..]; simpl.
  by rw drop_app_length'.
Qed.
Next Obligation.
  intros s n _ Hlt. simpl in *. rw /stream_read_exact decide_False; [lia|]. eauto.
Qed.

(** A stream parser consumes its bytes and touches nothing else. *)
Lemma stream_parse {A} (m : SE Stream A) l r t k a :
  reads m l a → m (MkStream (l ++ r) t k) = (Ok a, MkStream r t k).
Proof.
  intros Hm. destruct (Hm (MkStream (l ++ r) t k) r) as (s & -> & Hp & _ & Hfr); [done..|].
  destruct s; simpl in *. naive_solver.
Qed.

Lemma write_all_ok l r t k :
  (length l ≤ k)%nat →
  write_all l (MkStream r t k) = (Ok (), MkStream r (t ++ l) (k - length l)).
Proof. intros Hk. by rw /write_all decide_True. Qed.

(** What has been written never changes. *)
Lemma write_all_prefix l s res s' : write_all l s = (res, s') → tx s `prefix_of` tx s'.
Proof. rw /write_all. case_decide; intros [= <- <-]; simpl; by eexists. Qed.

(** ** What a successful read consumed *)
Section inversion.
Context {S : Type} `{!ByteReader S}.

Definition good (s : S) : Prop := reader_ok s ∧ wf_bytes (pending s).

(** Reading took the bytes [l] off the input and did nothing else. *)
Definition adv (s : S) (l : bytes) (s' : S) : Prop :=
  pending s = l ++ pending s' ∧ good s' ∧ frame_of s' = frame_of s.

Lemma adv_trans s l s1 k s2 : adv s l s1 → adv s1 k s2 → adv s (l ++ k) s2.
Proof.
  intros (Hp1 & _ & Hf1) (Hp2 & Hg2 & Hf2). repeat split; [|apply Hg2..|].
  - by rw Hp1 Hp2 app_assoc.
  - by rw Hf2.
Qed.

Lemma adv_exact n s a s' :
  good s → read_exact n s = (Ok a, s') → adv s a s' ∧ length a = n ∧ wf_bytes a.
Proof.
  intros [Hok Hwf] Hr. destruct (decide (n ≤ length (pending s))%nat) as [Hle|Hgt].
  - destruct (read_exact_enough s (take n (pending s)) (drop n (pending s)) n Hok)
      as (s1 & Hs1 & Hp1 & Hok1 & Hfr1); [by rw take_drop|rw length_take; lia|].
    rw Hr in Hs1. injection Hs1 as -> ->. rw -(take_drop n (pending s)) in Hwf.
    apply wf_bytes_app in Hwf as [Hwf1 Hwf2].
    split_and!; [|rw length_take; lia|done].
    repeat split; [by rw Hp1 take_drop|done|by rw Hp1|done].
  - destruct (read_exact_short s n Hok) as (s1 & Hs1); [lia|]. congruence.
Qed.

Lemma adv_u8 s b s' : good s → read_u8 s = (Ok b, s') → adv s [b] s' ∧ is_u8 b.
Proof.
  intros Hg Hr. apply SE_bind_inv in Hr as (l & s1 & H1 & H2).
  apply adv_exact in H1 as (Hadv & Hl & Hwf); [|done].
  injection H2 as <- <-. destruct l as [|x [|]]; try done.
  split; [done|]. by apply Forall_inv in Hwf.
Qed.

Lemma adv_u16 s z s' : good s → read_u16 s = (Ok z, s') → adv s (be_bytes 2 z) s' ∧ is_u16 z.
Proof.
  intros Hg Hr. apply SE_bind_inv in Hr as (l & s1 & H1 & H2).
  apply adv_exact in H1 as (Hadv & Hl & Hwf); [|done].
  injection H2 as <- <-. rw be_bytes_val_2; [done..|].
  split; [done|]. by apply be_val_u16.
Qed.
End inversion.

Lemma run_cursor_inv {A} (m : SE Cursor A) data a n :
  run_cursor m data = Ok (a, n) → ∃ c, m (cursor_new data) = (Ok a, c) ∧ cpos c = n.
Proof.
  rw /run_cursor. destruct (m (cursor_new data)) as [[a'|e] c]; [|done].
  intros [= -> <-]. eauto.
Qed.

(** ** Proof automation for parsers *)
Ltac parse_field :=
  first [ apply parses_u8 | apply parses_u16; done | apply parses_exact; first [done|lia] ].

(** Runs a parser goal [parses (x ← m; k x) (l1 ++ l2) b] one field at a time. *)
Ltac parse_step :=
  first
    [ eapply parses_bind_ret; [parse_field|]
    | eapply parses_bind; [parse_field|] ];
  cbv beta.

(** Inverts a successful run of a parser, one field at a time. *)
Ltac invert_bind H :=
  let x := fresh "x" in let s := fresh "s" in let H1 := fresh "Hrun" in
  apply SE_bind_inv in H as (x & s & H1 & H); cbv beta in H.

Ltac invert_field H :=
  let x := fresh "x" in let s := fresh "s" in let H1 := fresh "Hrun" in
  let Ha := fresh "Hadv" in let Hx := fresh "Hx" in
  apply SE_bind_inv in H as (x & s & H1 & H); cbv beta in H;
  first [ apply adv_u8 in H1 as [Ha Hx]; [|solve [eauto with reading]]
        | apply adv_u16 in H1 as [Ha Hx]; [|solve [eauto with reading]]
        | apply adv_exact in H1 as [Ha Hx]; [|solve [eauto with reading]] ].

Create HintDb reading.
Lemma adv_good {S} `{!ByteReader S} s l s' : adv s l s' → good s'.
Proof. by intros (_ & ? & _). Qed.
#[export] Hint Resolve adv_good adv_trans : reading.

(** ** Dialogues

    [talks m r res r' w]: on a connection on which [r] has arrived, [m] ends
    with [res] having written [w] and left [r'] unread. *)
Definition talks {A} (m : SE Stream A) (r : bytes) (res : Result A) (r' w : bytes) : Prop :=
  ∀ t k, (length w ≤ k)%nat → m (MkStream r t k) = (res, MkStream r' (t ++ w) (k - length w)).

Lemma talks_bind {A B} (m : SE Stream A) (f : A → SE Stream B) r a r1 w1 res r2 w2 :
  talks m r (Ok a) r1 w1 → talks (f a) r1 res r2 w2 → talks (m ≫= f) r res r2 (w1 ++ w2).
Proof.
  intros Hm Hf t k Hk. rw length_app in Hk.
  rw (SE_bind_ok _ _ _ _ _ (Hm t k ltac:(lia))) Hf; [lia|].
  rw -app_assoc length_app. do 2 f_equal. lia.
Qed.

(** A dialogue determines what is written. *)
Lemma talks_det {A} (m : SE Stream A) r res1 r1 w1 res2 r2 w2 :
  talks m r res1 r1 w1 → talks m r res2 r2 w2 → w1 = w2.
Proof.
  intros H1 H2. pose proof (H1 [] (length w1 + length w2)%nat ltac:(lia)) as E.
  rw H2 in E; [lia|]. by injection E.
Qed.

(** A call that writes nothing. *)
Lemma talks_bind_quiet {A B} (m : SE Stream A) (f : A → SE Stream B) r a r1 res r2 w :
  talks m r (Ok a) r1 [] → talks (f a) r1 res r2 w → talks (m ≫= f) r res r2 w.
Proof. apply (talks_bind _ _ _ _ _ []). Qed.

Lemma talks_bind_err {A B} (m : SE Stream A) (f : A → SE Stream B) r e r1 w :
  talks m r (Err e) r1 w → talks (m ≫= f) r (Err e) r1 w.
Proof. intros Hm t k Hk. by rw (SE_bind_err _ _ _ _ _ (Hm t k Hk)). Qed.

Lemma talks_quiet {A} (m : SE Stream A) r res r' :
  (∀ t k, m (MkStream r t k) = (res, MkStream r' t k)) → talks m r res r' [].
Proof. intros Hm t k Hk. rw Hm app_nil_r. do 2 f_equal. simpl. lia. Qed.

(** The last call that writes. *)
Lemma talks_bind_last {A B} (m : SE Stream A) (f : A → SE Stream B) r a r1 w res r2 :
  talks m r (Ok a) r1 w → talks (f a) r1 res r2 [] → talks (m ≫= f) r res r2 w.
Proof. intros Hm Hf. rw -(app_nil_r w). by eapply talks_bind. Qed.

Lemma talks_lift {A} (res : Result A) r : talks (lift res) r res r [].
Proof. by apply talks_quiet. Qed.
Lemma talks_ret {A} (a : A) r : talks (mret a) r (Ok a) r [].
Proof. by apply talks_quiet. Qed.
Lemma talks_throw {A} e r : talks (throw e : SE Stream A) r (Err e) r [].
Proof. by apply talks_quiet. Qed.
Lemma talks_write l r : talks (write_all l) r (Ok ()) r l.
Proof. intros t k Hk. by apply write_all_ok. Qed.
Lemma talks_read {A} (m : SE Stream A) l r a : reads m l a → talks m (l ++ r) (Ok a) r [].
Proof. intros Hm. apply talks_quiet. intros t k. by apply stream_parse. Qed.

Lemma talks_u8 b r : talks read_u8 (b :: r) (Ok b) r [].
Proof. apply (talks_read _ [b]), parses_u8. Qed.
Lemma talks_u8_eof : talks read_u8 [] (Err (EIo UnexpectedEof)) [] [].
Proof. by apply talks_quiet. Qed.
Lemma talks_exact l n r : length l = n → talks (read_exact n) (l ++ r) (Ok l) r [].
Proof. intros Hn. apply talks_read, parses_exact, Hn. Qed.
Lemma talks_exact_eof n : (0 < n)%nat → talks (read_exact n) [] (Err (EIo UnexpectedEof)) [] [].
Proof. intros Hn. apply talks_quiet. intros t k. simpl. rw /stream_read_exact decide_False; [simpl; lia|done]. Qed.

(** The next call of a dialogue: one that only reads, or one that writes. *)
Ltac talk_quiet :=
  eapply talks_bind_quiet;
    [first [ apply talks_lift | apply talks_u8 | apply talks_ret | apply talks_exact; done ]|];
  cbv beta.
Ltac talk_write := eapply talks_bind; [apply talks_write|]; cbv beta.

(** ** Copying in both directions

    tokio's [copy_bidirectional], which the SOCKS5 inbound and the AnyTLS
    fallback end with, is a parameter: what it does to the two streams. What is
    relied on is what it documents: it reads from both and writes what it reads
    to the other, and succeeds once both directions have come to their end. *)
Definition Copier : Type := SE (Stream * Stream) ().
Definition roomy (a b : Stream) : Prop := (length (rx a) ≤ room b)%nat ∧ (length (rx b) ≤ room a)%nat.

Class CopyLaws (copy : Copier) : Prop := {
  (** success means that both ends were reached *)
  copy_complete a b a' b' :
    copy (a, b) = (Ok (), (a', b')) → tx b' = tx b ++ rx a ∧ tx a' = tx a ++ rx b;
  (** streams that take what they are given do not fail *)
  copy_returns a b : roomy a b → is_ok (copy (a, b)).1 = true;
}.

Lemma copy_finishes copy `{!CopyLaws copy} a b :
  roomy a b → ∃ a' b', copy (a, b) = (Ok (), (a', b')) ∧ tx b' = tx b ++ rx a ∧ tx a' = tx a ++ rx b.
Proof.
  intros Hr. pose proof (copy_returns a b Hr) as Hok. destruct (copy (a, b)) as [[[]|e] [a' b']] eqn:E; [|done].
  exists a', b'. split; [done|]. by apply copy_complete.
Qed.

(** A copier that does it at once. *)
#[export] Instance roomy_dec a b : Decision (roomy a b).
Proof. apply _. Defined.
Definition copy_streams : Copier := λ '(a, b),
  if decide (roomy a b) then
    (Ok (), (MkStream [] (tx a ++ rx b) (room a - length (rx b)), MkStream [] (tx b ++ rx a) (room b - length (rx a))))
  else (Err (EMsg "broken pipe"), (a, b)).
#[export] Instance copy_streams_laws : CopyLaws copy_streams.
Proof.
  split; intros a b; rw /copy_streams.
  - intros a' b'. case_decide; [|done]. by intros [= <- <-].
  - intros Hr. by rw decide_True.
Qed.
