(* ===== verification/Text.v ===== *)
(** * Rust strings

    A [String] or [&str] is the list of its UTF-8 bytes. This file models the
    string functions of the standard library the program calls: UTF-8
    validation, splitting, trimming, [lines], integer parsing and printing,
    ASCII case. Splitting at an ASCII character and comparing are exact on the
    bytes; trimming matches the UTF-8 encodings of the Unicode white space. *)
From S2P Require Import Prelude.

(** A literal. *)
Definition str (s : string) : bytes :=
  map (λ a, Z.of_N (Ascii.N_of_ascii a)) (String.list_ascii_of_string s).

Definition in_range (lo hi b : Z) : bool := (lo <=? b) && (b <=? hi).

(** ** [String::from_utf8] *)
Definition is_cont (b : Z) : bool := in_range 0x80 0xBF b.

Fixpoint utf8_valid (l : bytes) : bool :=
  match l with
  | [] => true
  | b :: r =>
      if in_range 0 0x7F b then utf8_valid r
      else if in_range 0xC2 0xDF b then
        match r with c1 :: r => is_cont c1 && utf8_valid r | _ => false end
      else if in_range 0xE0 0xEF b then
        match r with
        | c1 :: c2 :: r =>
            in_range (if b =? 0xE0 then 0xA0 else 0x80) (if b =? 0xED then 0x9F else 0xBF) c1
            && is_cont c2 && utf8_valid r
        | _ => false
        end
      else if in_range 0xF0 0xF4 b then
        match r with
        | c1 :: c2 :: c3 :: r =>
            in_range (if b =? 0xF0 then 0x90 else 0x80) (if b =? 0xF4 then 0x8F else 0xBF) c1
            && is_cont c2 && is_cont c3 && utf8_valid r
        | _ => false
        end
      else false
  end.

Definition from_utf8 (l : bytes) : Result bytes :=
  if utf8_valid l then Ok l else Err EUtf8.

Definition is_ascii (b : Z) : bool := in_range 0 0x7F b.

Lemma utf8_valid_ascii l : forallb is_ascii l = true → utf8_valid l = true.
Proof.
  induction l as [|b l IH]; [done|]. cbn [forallb utf8_valid].
  rw /is_ascii. intros [-> ?]%andb_prop. by apply IH.
Qed.

Lemma from_utf8_ok l : utf8_valid l = true → from_utf8 l = Ok l.
Proof. rw /from_utf8. by intros ->. Qed.

(** ** Searching and splitting *)

(** [s.split_once(c)]: at the first occurrence. *)
Fixpoint split_once (c : Z) (l : bytes) : option (bytes * bytes) :=
  match l with
  | [] => None
  | b :: r =>
      if b =? c then Some ([], r)
      else match split_once c r with
           | Some (p, q) => Some (b :: p, q)
           | None => None
           end
  end.

(** [s.rsplit_once(c)]: at the last occurrence. *)
Definition rsplit_once (c : Z) (l : bytes) : option (bytes * bytes) :=
  match split_once c (rev l) with
  | Some (p, q) => Some (rev q, rev p)
  | None => None
  end.

(** [s.split(c)]: always at least one piece. *)
Fixpoint split (c : Z) (l : bytes) : list bytes :=
  match l with
  | [] => [[]]
  | b :: r =>
      if b =? c then [] :: split c r
      else match split c r with
           | p :: ps => (b :: p) :: ps
           | [] => [[b]]
           end
  end.

(** [lines.join(sep)] *)
Fixpoint join (sep : bytes) (ls : list bytes) : bytes :=
  match ls with
  | [] => []
  | [l] => l
  | l :: ls => l ++ sep ++ join sep ls
  end.

Definition contains (c : Z) (l : bytes) : bool := existsb (Z.eqb c) l.

Fixpoint starts_with (p l : bytes) : bool :=
  match p, l with
  | [], _ => true
  | a :: p, b :: l => (a =? b) && starts_with p l
  | _ :: _, [] => false
  end.

(** [s.strip_prefix(p)] *)
Definition strip_prefix (p l : bytes) : option bytes :=
  if starts_with p l then Some (drop (length p) l) else None.

Definition CR : Z := 13.
Definition LF : Z := 10.

Definition strip_cr (l : bytes) : bytes :=
  match rev l with
  | b :: r => if b =? CR then rev r else l
  | [] => l
  end.

(** [s.lines()]: a line ends at "\n" or "\r\n"; the part after the last
    line ending is a line only when it is not empty. *)
Definition lines (l : bytes) : list bytes :=
  let pieces := split LF l in
  let ended := map strip_cr (removelast pieces) in
  match last pieces with
  | Some [] | None => ended
  | Some p => ended ++ [p]
  end.

(** ** White space *)

(** The length of the white-space character [l] starts with, 0 if none
    (Unicode [White_Space], by its UTF-8 bytes). *)
Definition ws_head (l : bytes) : nat :=
  match l with
  | b0 :: r =>
      if in_range 9 13 b0 || (b0 =? 32) then 1%nat
      else match r with
      | b1 :: r =>
          if (b0 =? 0xC2) && ((b1 =? 0x85) || (b1 =? 0xA0)) then 2%nat
          else match r with
          | b2 :: _ =>
              if ((b0 =? 0xE1) && (b1 =? 0x9A) && (b2 =? 0x80))
                 || ((b0 =? 0xE2) && (b1 =? 0x80)
                     && (in_range 0x80 0x8A b2 || in_range 0xA8 0xA9 b2 || (b2 =? 0xAF)))
                 || ((b0 =? 0xE2) && (b1 =? 0x81) && (b2 =? 0x9F))
                 || ((b0 =? 0xE3) && (b1 =? 0x80) && (b2 =? 0x80))
              then 3%nat else 0%nat
          | [] => 0%nat
          end
      | [] => 0%nat
      end
  | [] => 0%nat
  end.

(** The same at the end, on the reversed bytes. *)
Definition ws_tail_rev (l : bytes) : nat :=
  if decide (ws_head (take 1 l) = 1%nat) then 1%nat
  else if decide (ws_head (rev (take 2 l)) = 2%nat) then 2%nat
  else if decide (ws_head (rev (take 3 l)) = 3%nat) then 3%nat
  else 0%nat.

(** Dropping white space while there is some; the list shrinks, so its length
    is fuel enough. *)
Fixpoint drop_ws (ws : bytes → nat) (fuel : nat) (l : bytes) : bytes :=
  match fuel with
  | O => l
  | S fuel =>
      match ws l with
      | O => l
      | n => drop_ws ws fuel (drop n l)
      end
  end.

Definition trim_start (l : bytes) : bytes := drop_ws ws_head (length l) l.
Definition trim_end (l : bytes) : bytes :=
  rev (drop_ws ws_tail_rev (length l) (rev l)).
(** [str::trim] *)
Definition trim (l : bytes) : bytes := trim_end (trim_start l).

(** [s.contains(char::is_whitespace)] *)
Fixpoint contains_ws (l : bytes) : bool :=
  match l with
  | [] => false
  | b :: r => negb (Nat.eqb (ws_head l) 0) || contains_ws r
  end.

(** ** Numbers *)
Definition is_digit (b : Z) : bool := in_range 48 57 b.

Fixpoint parse_digits (max acc : Z) (l : bytes) : option Z :=
  match l with
  | [] => Some acc
  | b :: r =>
      if is_digit b then
        let acc := acc * 10 + (b - 48) in
        if acc <=? max then parse_digits max acc r else None
      else None
  end.

(** [s.parse::<uN>()]: an optional ['+'], then digits, no overflow. *)
Definition parse_uint (max : Z) (l : bytes) : option Z :=
  match l with
  | [] => None
  | b :: r =>
      let digits := if b =? 43 then r else l in
      match digits with
      | [] => None
      | _ => parse_digits max 0 digits
      end
  end.

Definition parse_u8 : bytes → option Z := parse_uint (2 ^ 8 - 1).
Definition parse_u16 : bytes → option Z := parse_uint (2 ^ 16 - 1).
Definition parse_u32 : bytes → option Z := parse_uint (2 ^ 32 - 1).
Definition parse_u64 : bytes → option Z := parse_uint (2 ^ 64 - 1).

(** ** ASCII case *)
Definition ascii_lower (b : Z) : Z := if in_range 65 90 b then b + 32 else b.
Definition to_ascii_lowercase (l : bytes) : bytes := map ascii_lower l.
Definition is_ascii_alphanumeric (b : Z) : bool :=
  is_digit b || in_range 65 90 b || in_range 97 122 b.
Definition eq_ignore_ascii_case (a b : bytes) : bool :=
  bool_decide (to_ascii_lowercase a = to_ascii_lowercase b).

Definition str_eqb (a b : bytes) : bool := bool_decide (a = b).

Lemma str_eqb_eq a b : str_eqb a b = true ↔ a = b.
Proof. apply bool_decide_eq_true. Qed.

(** ** Lemmas *)
Lemma split_once_app c p q :
  c ∉ p → split_once c (p ++ c :: q) = Some (p, q).
Proof.
  induction p as [|b p IH]; intros Hc; simpl.
  - by rw Z.eqb_refl.
  - apply not_elem_of_cons in Hc as [Hb Hc].
    rw IH; [done|]. by destruct (Z.eqb_spec b c).
Qed.

Lemma split_once_None c l : split_once c l = None ↔ c ∉ l.
Proof.
  induction l as [|b l IH]; simpl.
  - split; [intros _; apply not_elem_of_nil | done].
  - rw not_elem_of_cons. destruct (Z.eqb_spec b c) as [->|Hb]; [by split; [|intros []]|].
    destruct (split_once c l) as [[p q]|].
    + split; [done|]. intros [_ H]. by apply IH in H.
    + split; [|done]. intros _. split; [done|]. by apply IH.
Qed.

Lemma split_once_Some c l p q : split_once c l = Some (p, q) → l = p ++ c :: q ∧ c ∉ p.
Proof.
  revert p q. induction l as [|b l IH]; intros p q; [done|]. simpl.
  destruct (Z.eqb_spec b c) as [->|Hb].
  - intros [= <- <-]. split; [done|apply not_elem_of_nil].
  - destruct (split_once c l) as [[p' q']|]; [|done]. intros [= <- <-].
    destruct (IH p' q') as [-> ?]; [done|]. split; [done|].
    apply not_elem_of_cons; by split.
Qed.

Lemma parse_digits_bound max acc l n :
  parse_digits max acc l = Some n → 0 ≤ acc ≤ max → 0 ≤ n ≤ max.
Proof.
  revert acc. induction l as [|b l IH]; intros acc; simpl.
  - by intros [= <-].
  - rw /is_digit /in_range. destruct (_ && _) eqn:Hd; [|done].
    destruct (Z.leb_spec (acc * 10 + (b - 48)) max); [|done].
    intros Hp Hacc. apply (IH _ Hp). lia.
Qed.

Lemma parse_uint_bound max l n : 0 ≤ max → parse_uint max l = Some n → 0 ≤ n ≤ max.
Proof.
  intros Hmax. destruct l as [|b r]; [done|]. rw /parse_uint.
  destruct (if b =? 43 then r else b :: r) as [|d ds]; [done|].
  intros Hp. eapply parse_digits_bound; [done|lia].
Qed.

Lemma elem_of_rev (x : Z) l : x ∈ rev l ↔ x ∈ l.
Proof. by rw !list_elem_of_In -in_rev. Qed.

Lemma rsplit_once_app c p q :
  c ∉ q → rsplit_once c (p ++ c :: q) = Some (p, q).
Proof.
  intros Hc. rw /rsplit_once rev_app_distr /= -app_assoc /= split_once_app.
  - by rw elem_of_rev.
  - by rw !rev_involutive.
Qed.

Lemma rsplit_once_Some c l p q : rsplit_once c l = Some (p, q) → l = p ++ c :: q ∧ c ∉ q.
Proof.
  rw /rsplit_once. destruct (split_once c (rev l)) as [[p' q']|] eqn:H; [|done].
  intros [= <- <-]. apply split_once_Some in H as [Hl Hc].
  split; [|by rw elem_of_rev].
  by rw -(rev_involutive l) Hl rev_app_distr /= -app_assoc.
Qed.

Lemma contains_false c l : contains c l = false ↔ c ∉ l.
Proof.
  rw /contains. induction l as [|b l IH]; simpl; [set_solver|].
  rw orb_false_iff Z.eqb_neq IH not_elem_of_cons. naive_solver.
Qed.

(** Text between visible ASCII characters is not trimmed. *)
Definition is_visible (b : Z) : bool := in_range 33 126 b.

Ltac ws_cases :=
  rw /ws_head /in_range; repeat (case_match; try done);
  repeat match goal with
  | H : _ || _ = true |- _ => apply orb_prop in H as [H|H]
  | H : _ && _ = true |- _ => apply andb_prop in H as [? ?]
  end; simp_bool; try lia.

Lemma ws_head_visible b l : is_visible b = true → ws_head (b :: l) = 0%nat.
Proof. rw /is_visible /in_range. intros H. simp_bool. ws_cases. Qed.

Lemma ws_head_visible_2 b c : is_visible b = true → ws_head [c; b] ≠ 2%nat.
Proof. rw /is_visible /in_range. intros H. simp_bool. ws_cases. Qed.

Lemma ws_head_visible_3 b c d : is_visible b = true → ws_head [d; c; b] ≠ 3%nat.
Proof. rw /is_visible /in_range. intros H. simp_bool. ws_cases. Qed.

Lemma ws_tail_visible b l : is_visible b = true → ws_tail_rev (b :: l) = 0%nat.
Proof.
  intros Hb. rw /ws_tail_rev. cbn [take].
  rw decide_False; [by rw ws_head_visible|].
  rw decide_False.
  { destruct l as [|c l]; cbn [take rev app]; [by rw ws_head_visible|by apply ws_head_visible_2]. }
  rw decide_False; [|done].
  destruct l as [|c [|d l]]; cbn [take rev app];
    [by rw ws_head_visible| |by apply ws_head_visible_3].
  rw /ws_head. repeat case_match; done.
Qed.

Lemma drop_ws_stop ws n l : ws l = 0%nat → drop_ws ws n l = l.
Proof. intros H. destruct n; simpl; [done|]. by rw H. Qed.

Lemma trim_visible b m e :
  is_visible b = true → is_visible e = true → trim (b :: m ++ [e]) = b :: m ++ [e].
Proof.
  intros Hb He. rw /trim /trim_start drop_ws_stop; [by apply ws_head_visible|].
  rw /trim_end drop_ws_stop.
  - rw /= rev_app_distr /=. by apply ws_tail_visible.
  - by rw rev_involutive.
Qed.

Lemma trim_visible_1 b : is_visible b = true → trim [b] = [b].
Proof.
  intros Hb. rw /trim /trim_start drop_ws_stop; [by apply ws_head_visible|].
  rw /trim_end drop_ws_stop; [by apply ws_tail_visible|done].
Qed.

Lemma trim_all_visible l : forallb is_visible l = true → trim l = l.
Proof.
  destruct l as [|b l]; [done|]. destruct l as [|e m _] using rev_ind; simpl.
  - intros [Hb _]%andb_prop. by apply trim_visible_1.
  - rw forallb_app. intros [Hb [_ [He _]%andb_prop]%andb_prop]%andb_prop. by apply trim_visible.
Qed.
