(* ===== verification/Net.v ===== *)
(** * Addresses and sessions

    [std::net]'s addresses as far as the program uses them, and
    src/session.rs: [TargetAddr], [Command], [Session]. *)
From S2P Require Import Prelude Text.

(** ** [std::net] *)
Inductive IpAddr :=
  | V4 (octets : bytes)
  | V6 (octets : bytes).

(** [SocketAddrV6] also carries a flow label and a scope id, which
    [SocketAddr::new] sets to zero and [==] compares. *)
Inductive SocketAddr :=
  | SockV4 (octets : bytes) (port : Z)
  | SockV6 (octets : bytes) (port : Z) (flowinfo scope_id : Z).

Definition socket_addr_new (ip : IpAddr) (port : Z) : SocketAddr :=
  match ip with
  | V4 o => SockV4 o port
  | V6 o => SockV6 o port 0 0
  end.

Definition sa_ip (a : SocketAddr) : IpAddr :=
  match a with SockV4 o _ => V4 o | SockV6 o _ _ _ => V6 o end.
Definition sa_port (a : SocketAddr) : Z :=
  match a with SockV4 _ p => p | SockV6 _ p _ _ => p end.
Definition is_ipv4 (a : SocketAddr) : bool :=
  match a with SockV4 _ _ => true | SockV6 _ _ _ _ => false end.
Definition is_ipv6 (a : SocketAddr) : bool := negb (is_ipv4 a).

(** [SocketAddr::set_ip]: within a family the other fields stay. *)
Definition set_ip (a : SocketAddr) (ip : IpAddr) : SocketAddr :=
  match a, ip with
  | SockV4 _ p, V4 o => SockV4 o p
  | SockV6 _ p f s, V6 o => SockV6 o p f s
  | _, _ => socket_addr_new ip (sa_port a)
  end.

Definition UNSPECIFIED_V4 : IpAddr := V4 (replicate 4 0).
Definition UNSPECIFIED_V6 : IpAddr := V6 (replicate 16 0).
Definition LOCALHOST_V4 : IpAddr := V4 [127; 0; 0; 1].

Definition ip_is_unspecified (ip : IpAddr) : bool :=
  match ip with
  | V4 o => bool_decide (o = replicate 4 0)
  | V6 o => bool_decide (o = replicate 16 0)
  end.

(** [IpAddr::to_canonical]: [::ffff:a.b.c.d] becomes [a.b.c.d]. *)
Definition to_canonical (ip : IpAddr) : IpAddr :=
  match ip with
  | V4 o => V4 o
  | V6 o =>
      if bool_decide (take 12 o = replicate 10 0 ++ [255; 255])
      then V4 (drop 12 o) else V6 o
  end.

(** ** src/session.rs *)
Inductive TargetAddr :=
  | Ip (addr : SocketAddr)
  | Domain (host : bytes) (port : Z).

Definition target_port (t : TargetAddr) : Z :=
  match t with Ip a => sa_port a | Domain _ p => p end.

(** [impl From<(IpAddr, u16)> for TargetAddr] *)
Definition target_from (ip : IpAddr) (port : Z) : TargetAddr :=
  Ip (socket_addr_new ip port).

Inductive Command := Connect | UdpAssociate.

Record Session := MkSession {
  session_inbound : bytes;
  session_command : Command;
  session_target : TargetAddr;
}.

(** ** Decidable equality, countability *)
#[global] Instance IpAddr_eq_dec : EqDecision IpAddr.
Proof. solve_decision. Defined.
#[global] Instance SocketAddr_eq_dec : EqDecision SocketAddr.
Proof. solve_decision. Defined.
#[global] Instance TargetAddr_eq_dec : EqDecision TargetAddr.
Proof. solve_decision. Defined.
#[global] Instance Command_eq_dec : EqDecision Command.
Proof. solve_decision. Defined.
#[global] Instance Session_eq_dec : EqDecision Session.
Proof. solve_decision. Defined.

Definition target_encode (t : TargetAddr) : (bytes * Z) + (bytes * Z * Z * Z) + (bytes * Z) :=
  match t with
  | Ip (SockV4 o p) => inl (inl (o, p))
  | Ip (SockV6 o p f s) => inl (inr (o, p, f, s))
  | Domain h p => inr (h, p)
  end.
Definition target_decode (x : (bytes * Z) + (bytes * Z * Z * Z) + (bytes * Z)) : TargetAddr :=
  match x with
  | inl (inl (o, p)) => Ip (SockV4 o p)
  | inl (inr (o, p, f, s)) => Ip (SockV6 o p f s)
  | inr (h, p) => Domain h p
  end.
#[global] Instance TargetAddr_countable : Countable TargetAddr.
Proof. apply (inj_countable' target_encode target_decode). by intros [[]|]. Defined.

(** ** Well-formedness: the ranges the Rust types guarantee *)
Definition wf_ip (ip : IpAddr) : Prop :=
  match ip with
  | V4 o => length o = 4%nat ∧ wf_bytes o
  | V6 o => length o = 16%nat ∧ wf_bytes o
  end.

Definition wf_socket (a : SocketAddr) : Prop :=
  wf_ip (sa_ip a) ∧ is_u16 (sa_port a) ∧
  match a with SockV4 _ _ => True | SockV6 _ _ f s => is_u32 f ∧ is_u32 s end.

(** A [String] is valid UTF-8. *)
Definition wf_target (t : TargetAddr) : Prop :=
  match t with
  | Ip a => wf_socket a
  | Domain h p => utf8_valid h = true ∧ is_u16 p
  end.

(** Domain names fit the one-byte length of the wire formats. *)
Definition fits_wire (t : TargetAddr) : bool :=
  match t with Ip _ => true | Domain h _ => len h <=? 255 end.

(** What survives a trip over the wire: the flow label and the scope id of an
    IPv6 address do not. *)
Definition wire_target (t : TargetAddr) : TargetAddr :=
  match t with
  | Ip a => Ip (socket_addr_new (sa_ip a) (sa_port a))
  | Domain h p => Domain h p
  end.

Lemma wf_wire_target t : wf_target t → wf_target (wire_target t).
Proof. destruct t as [[o p|o p f s]|h p]; [done| |done]. intros (H1 & H2 & _).
  split; [exact H1|split; [exact H2|split; rw /is_u32; lia]].
Qed.

Lemma wire_target_idem t : wire_target (wire_target t) = wire_target t.
Proof. by destruct t as [[]|]. Qed.

#[global] Instance wf_socket_dec a : Decision (wf_socket a).
Proof. rw /wf_socket /wf_ip. destruct a; simpl; apply _. Defined.
#[global] Instance wf_target_dec t : Decision (wf_target t).
Proof. rw /wf_target. destruct t; apply _. Defined.

Lemma utf8_valid_wf l : utf8_valid l = true → wf_bytes l.
Proof.
  remember (length l) as n eqn:Hn. assert (length l ≤ n)%nat as Hle by lia. clear Hn.
  revert l Hle. induction n as [|n IH]; intros l Hle.
  { destruct l; [constructor|simpl in Hle; lia]. }
  destruct l as [|b r]; [constructor|]. cbn [utf8_valid]. simpl in Hle.
  rw /is_cont /in_range /wf_bytes.
  repeat (case_match; try done);
    repeat (rw !andb_true_iff; simpl in Hle);
    intros; destruct_and?; repeat constructor; rw /is_u8; try lia;
    try (apply IH; [lia|done]).
Qed.
