(* ===== verification/AddrParse.v ===== *)
(** * [str::parse::<SocketAddr>()]

    The address parser of the standard library (core::net), which
    [ServerAddr::from_str] of src/config.rs tries first: a recursive-descent
    parser over the bytes, each step returning the value and the rest of the
    input or nothing. *)
From S2P Require Import Prelude Text Net.

Definition Parser (A : Type) : Type := bytes → option (A * bytes).

Definition read_given_char (c : Z) : Parser () := λ l,
  match l with
  | b :: r => if b =? c then Some ((), r) else None
  | [] => None
  end.

(** [char::to_digit] *)
Definition to_digit (radix b : Z) : option Z :=
  let d :=
    if in_range 48 57 b then b - 48
    else if in_range 97 102 b then b - 87
    else if in_range 65 70 b then b - 55
    else radix in
  if d <? radix then Some d else None.

(** The digits [l] starts with: their value, their number, the rest. *)
Fixpoint read_digits (radix acc : Z) (count : nat) (l : bytes) : Z * nat * bytes :=
  match l with
  | b :: r =>
      match to_digit radix b with
      | Some d => read_digits radix (acc * radix + d) (S count) r
      | None => (acc, count, l)
      end
  | [] => (acc, count, [])
  end.

(** [read_number(radix, max_digits, allow_zero_prefix)] into an integer type
    of maximum [max]. *)
Definition read_number (radix max : Z) (max_digits : option nat) (allow_zero_prefix : bool)
  : Parser Z := λ l,
  let '(v, count, r) := read_digits radix 0 0 l in
  let leading_zero := match l with b :: _ => b =? 48 | [] => false end in
  if match max_digits with Some m => Nat.ltb m count | None => false end then None
  else if Nat.eqb count 0 then None
  else if negb allow_zero_prefix && leading_zero && Nat.ltb 1 count then None
  else if v <=? max then Some (v, r) else None.

(** [read_separator(sep, index, inner)]: the separator comes before every item
    but the first. *)
Definition read_separator {A} (sep : Z) (index : nat) (inner : Parser A) : Parser A := λ l,
  match index with
  | O => inner l
  | S _ => match read_given_char sep l with Some (_, r) => inner r | None => None end
  end.

Definition DOT : Z := 46.
Definition COLON : Z := 58.

Fixpoint read_v4_octets (index todo : nat) : Parser bytes := λ l,
  match todo with
  | O => Some ([], l)
  | S todo =>
      match read_separator DOT index (read_number 10 255 (Some 3%nat) false) l with
      | Some (o, r) =>
          match read_v4_octets (S index) todo r with
          | Some (os, r) => Some (o :: os, r)
          | None => None
          end
      | None => None
      end
  end.

Definition read_ipv4_addr : Parser bytes := read_v4_octets 0 4.

(** [read_groups]: up to [limit] 16-bit groups from index [i], the last two
    possibly written as an IPv4 address (the flag). *)
Fixpoint read_groups (i todo : nat) : bytes → list Z * bool * bytes := λ l,
  match todo with
  | O => ([], false, l)
  | S todo' =>
      let ipv4 :=
        if Nat.leb 2 todo then read_separator COLON i read_ipv4_addr l else None in
      match ipv4 with
      | Some (o, r) => ([be_val (take 2 o); be_val (drop 2 o)], true, r)
      | None =>
          match read_separator COLON i (read_number 16 (2 ^ 16 - 1) (Some 4%nat) true) l with
          | Some (g, r) =>
              let '(gs, v4, r) := read_groups (S i) todo' r in (g :: gs, v4, r)
          | None => ([], false, l)
          end
      end
  end.

Definition groups_octets (gs : list Z) : bytes := concat (map (be_bytes 2) gs).

Definition read_ipv6_addr : Parser bytes := λ l,
  let '(head, head_ipv4, r) := read_groups 0 8 l in
  if Nat.eqb (length head) 8 then Some (groups_octets head, r)
  else if head_ipv4 then None
  else match read_given_char COLON r with
  | Some (_, r) =>
      match read_given_char COLON r with
      | Some (_, r) =>
          let '(tail, _, r) := read_groups 0 (8 - (length head + 1)) r in
          Some (groups_octets (head ++ replicate (8 - length head - length tail) 0 ++ tail), r)
      | None => None
      end
  | None => None
  end.

Definition read_port : Parser Z := λ l,
  match read_given_char COLON l with
  | Some (_, r) => read_number 10 (2 ^ 16 - 1) None true r
  | None => None
  end.

Definition read_scope_id : Parser Z := λ l,
  match read_given_char 37 l with
  | Some (_, r) => read_number 10 (2 ^ 32 - 1) None true r
  | None => None
  end.

Definition read_socket_addr_v4 : Parser SocketAddr := λ l,
  match read_ipv4_addr l with
  | Some (ip, r) =>
      match read_port r with
      | Some (port, r) => Some (SockV4 ip port, r)
      | None => None
      end
  | None => None
  end.

Definition read_socket_addr_v6 : Parser SocketAddr := λ l,
  match read_given_char 91 l with
  | Some (_, r) =>
      match read_ipv6_addr r with
      | Some (ip, r) =>
          let '(scope, r) := match read_scope_id r with Some sr => sr | None => (0, r) end in
          match read_given_char 93 r with
          | Some (_, r) =>
              match read_port r with
              | Some (port, r) => Some (SockV6 ip port 0 scope, r)
              | None => None
              end
          | None => None
          end
      | None => None
      end
  | None => None
  end.

(** [value.parse::<SocketAddr>()]: all of the input must be used. *)
Definition parse_socket_addr (l : bytes) : option SocketAddr :=
  match (match read_socket_addr_v4 l with Some x => Some x | None => read_socket_addr_v6 l end) with
  | Some (a, []) => Some a
  | _ => None
  end.

Example parse_v4_example :
  parse_socket_addr (str "127.0.0.1:8443") = Some (SockV4 [127; 0; 0; 1] 8443).
Proof. reflexivity. Qed.
Example parse_v6_example :
  parse_socket_addr (str "[::1]:443") = Some (SockV6 (replicate 15 0 ++ [1]) 443 0 0).
Proof. reflexivity. Qed.
Example parse_v6_mapped_example :
  parse_socket_addr (str "[::ffff:192.0.2.1]:40000")
  = Some (SockV6 (replicate 10 0 ++ [255; 255; 192; 0; 2; 1]) 40000 0 0).
Proof. reflexivity. Qed.
Example parse_domain_example : parse_socket_addr (str "proxy.example.com:443") = None.
Proof. reflexivity. Qed.
