(* ===== verification/AddrPrint.v ===== *)
(** * [Display] of addresses

    How the standard library (core::net) prints IP and socket addresses, and
    the [Display] of [TargetAddr] (src/session.rs). *)
From S2P Require Import Prelude Text Net AddrParse.

(** The digits of a number, most significant first, without leading zeros; an
    unsigned number below 2^64 has at most 64 digits in any radix. *)
Definition digit_char (d : Z) : Z := if d <? 10 then 48 + d else 87 + d.
Fixpoint print_digits (fuel : nat) (radix n : Z) (acc : bytes) : bytes :=
  match fuel with
  | O => acc
  | S fuel =>
      let acc := digit_char (n mod radix) :: acc in
      if n <? radix then acc else print_digits fuel radix (n / radix) acc
  end.
Definition print_uint (radix n : Z) : bytes := print_digits 64 radix n [].
Definition print_dec : Z → bytes := print_uint 10.
Definition print_hex : Z → bytes := print_uint 16.

Fixpoint join_with (sep : bytes) (l : list bytes) : bytes :=
  match l with
  | [] => []
  | [x] => x
  | x :: l => x ++ sep ++ join_with sep l
  end.

Definition print_ipv4 (octets : bytes) : bytes := join_with [DOT] (map print_dec octets).

Fixpoint segments (octets : bytes) : list Z :=
  match octets with
  | a :: b :: rest => be_val [a; b] :: segments rest
  | _ => []
  end.

(** The first longest run of zeros: [longest] and [current] are spans (start,
    length). *)
Fixpoint zero_run (i : nat) (segs : list Z) (longest current : nat * nat) : nat * nat :=
  match segs with
  | [] => longest
  | s :: segs =>
      if s =? 0 then
        let current := (if Nat.eqb current.2 0 then i else current.1, S current.2) in
        zero_run (S i) segs (if Nat.ltb longest.2 current.2 then current else longest) current
      else zero_run (S i) segs longest (0, 0)%nat
  end.

Definition print_groups (segs : list Z) : bytes := join_with [COLON] (map print_hex segs).
Definition print_ipv6 (octets : bytes) : bytes :=
  if bool_decide (take 12 octets = replicate 10 0 ++ [255; 255]) then str "::ffff:" ++ print_ipv4 (drop 12 octets)
  else
    let segs := segments octets in
    let '(start, n) := zero_run 0 segs (0, 0)%nat (0, 0)%nat in
    if Nat.ltb 1 n then print_groups (take start segs) ++ str "::" ++ print_groups (drop (start + n) segs)
    else print_groups segs.

Definition print_ip (ip : IpAddr) : bytes :=
  match ip with V4 o => print_ipv4 o | V6 o => print_ipv6 o end.

Definition print_socket_addr (a : SocketAddr) : bytes :=
  match a with
  | SockV4 o p => print_ipv4 o ++ [COLON] ++ print_dec p
  | SockV6 o p _ scope =>
      str "[" ++ print_ipv6 o ++ (if scope =? 0 then [] else str "%" ++ print_dec scope) ++ str "]:" ++ print_dec p
  end.

(** [impl Display for TargetAddr] *)
Definition target_to_string (t : TargetAddr) : bytes :=
  match t with
  | Ip a => print_socket_addr a
  | Domain host port => host ++ [COLON] ++ print_dec port
  end.

Example print_v4_example : print_socket_addr (SockV4 [127; 0; 0; 1] 8443) = str "127.0.0.1:8443".
Proof. reflexivity. Qed.
Example print_v6_example : print_socket_addr (SockV6 (replicate 15 0 ++ [1]) 443 0 0) = str "[::1]:443".
Proof. reflexivity. Qed.
Example print_v6_run_example :
  print_ip (V6 ([0x20; 1; 0xd; 0xb8; 0; 0; 0; 1] ++ replicate 6 0 ++ [0; 1])) = str "2001:db8:0:1::1".
Proof. reflexivity. Qed.
Example print_v6_mapped_example : print_ip (V6 (replicate 10 0 ++ [255; 255; 192; 0; 2; 1])) = str "::ffff:192.0.2.1".
Proof. reflexivity. Qed.
Example print_v6_scope_example : print_socket_addr (SockV6 (replicate 15 0 ++ [1]) 443 0 7) = str "[::1%7]:443".
Proof. reflexivity. Qed.
