(* ===== verification/Config.v ===== *)
(** * Configuration (src/config.rs)

    The configuration records, their validation, the tuning accessors, the
    duration syntax and server addresses. Reading the TOML file into the
    records is the toml crate's. *)
From S2P Require Import Prelude Text Net AddrParse AddrPrint.

(** ** Server addresses *)
Inductive ServerHost := HostIp (ip : IpAddr) | HostDomain (domain : bytes).

Record ServerAddr := MkServerAddr { server_host : ServerHost; server_port : Z }.

Definition server_domain (s : ServerAddr) : option bytes :=
  match server_host s with HostIp _ => None | HostDomain d => Some d end.

Definition server_host_string (s : ServerAddr) : bytes :=
  match server_host s with HostIp ip => print_ip ip | HostDomain d => d end.

(** [impl Display for ServerAddr] *)
Definition server_to_string (s : ServerAddr) : bytes :=
  match server_host s with
  | HostIp ip => print_socket_addr (socket_addr_new ip (server_port s))
  | HostDomain d => d ++ [COLON] ++ print_dec (server_port s)
  end.

(** [impl From<SocketAddr> for ServerAddr] *)
Definition server_from_socket (a : SocketAddr) : ServerAddr :=
  MkServerAddr (HostIp (sa_ip a)) (sa_port a).

(** [ServerAddr::resolve], given the answer of the resolver for a domain. *)
Definition server_resolve (lookup_host : bytes → Z → Result (list SocketAddr)) (s : ServerAddr)
  : Result SocketAddr :=
  match server_host s with
  | HostIp ip => Ok (socket_addr_new ip (server_port s))
  | HostDomain domain =>
      match lookup_host domain (server_port s) with
      | Ok addrs => context (head addrs) "server did not resolve to any address"
      | Err _ => Err (EMsg "failed to resolve server")
      end
  end.

(** [impl FromStr for ServerAddr] *)
Definition server_from_str (value : bytes) : Result ServerAddr :=
  ensure (negb (str_eqb value [])) "server must not be empty" ;;
  ensure (str_eqb (trim value) value) "server must not contain leading or trailing whitespace" ;;
  match parse_socket_addr value with
  | Some addr => Ok (server_from_socket addr)
  | None =>
      '(host, port) ← context (rsplit_once COLON value) "server must include a port";
      ensure (negb (str_eqb host [])) "server is missing a host" ;;
      ensure (negb (str_eqb port [])) "server is missing a port" ;;
      ensure (negb (contains COLON host)) "server contains ':' in the host" ;;
      ensure (negb (contains_ws host)) "server contains whitespace in the host" ;;
      port ← context (parse_u16 port) "server has an invalid port";
      Ok (MkServerAddr (HostDomain host) port)
  end.

(** [Deserialize for ServerAddr], after the string itself is deserialised. *)
Definition server_deserialize (value : Result bytes) : Result ServerAddr :=
  value ← value;
  server_from_str value.

(** ** The records *)
Inductive Protocol := Direct | Socks5 | Anytls | Tuic.

#[global] Instance Protocol_eq_dec : EqDecision Protocol.
Proof. solve_decision. Defined.

Record UserConfig := MkUser {
  username : bytes;
  uuid : option bytes;
  password : bytes;
}.

Record TlsAcmeConfig := MkTlsAcme { domains : list bytes }.

Record TlsServerConfig := MkTls {
  certificate : option bytes;
  private_key : option bytes;
  tls_acme : option TlsAcmeConfig;
}.

Record InboundConfig := MkInbound {
  in_tag : bytes;
  listen : SocketAddr;
  in_protocol : Protocol;
  users : option (list UserConfig);
  padding_scheme : list bytes;
  fallback : option ServerAddr;
  in_tls : option TlsServerConfig;
}.

Record OutboundConfig := MkOutbound {
  out_tag : bytes;
  out_protocol : Protocol;
  server : option ServerAddr;
  server_name : option bytes;
  insecure : bool;
  ca_certificate : option bytes;
  out_username : option bytes;
  out_password : option bytes;
  out_uuid : option bytes;
  max_streams : option Z;
  max_connections : option Z;
  connection_idle_timeout : option Z;
}.

Record RouteRule := MkRule { rule_inbound : option bytes; rule_outbound : bytes }.

Record RoutingConfig := MkRouting { routing_default : option bytes; rules : list RouteRule }.

Record AcmeConfig := MkAcme {
  directory : bytes;
  cache_dir : bytes;
  http_listen : SocketAddr;
  renew_before_days : Z;
  accept_terms : bool;
  contact : list bytes;
}.

(** [impl Default for AcmeConfig] *)
Definition default_acme_config : AcmeConfig := {|
  directory := str "letsencrypt-staging";
  cache_dir := str ".rtunnel/acme";
  http_listen := socket_addr_new UNSPECIFIED_V4 80;
  renew_before_days := 30;
  accept_terms := false;
  contact := [];
|}.

Record Config := MkConfig {
  log_level : option bytes;
  acme : option AcmeConfig;
  inbounds : list InboundConfig;
  outbounds : list OutboundConfig;
  routing : RoutingConfig;
}.

Definition acme_config (c : Config) : AcmeConfig :=
  match acme c with Some a => a | None => default_acme_config end.

(** ** Validation *)
Definition is_some {A} (o : option A) : bool := match o with Some _ => true | None => false end.

(** [TlsServerConfig::validate] *)
Definition tls_validate (t : TlsServerConfig) : Result () :=
  let has_certificate := is_some (certificate t) in
  let has_private_key := is_some (private_key t) in
  let has_static := has_certificate || has_private_key in
  let has_acme := is_some (tls_acme t) in
  (if has_static then
     ensure (has_certificate && has_private_key) "tls requires both certificate and private_key"
   else Ok ()) ;;
  ensure (xorb has_static has_acme)
    "tls must configure exactly one of certificate/private_key or acme" ;;
  match tls_acme t with
  | Some a =>
      ensure (negb (bool_decide (domains a = []))) "tls.acme.domains must not be empty" ;;
      for_result (λ domain,
        ensure (negb (starts_with (str "*.") domain)) "tls.acme.domains contains wildcard" ;;
        ensure (negb (str_eqb (trim domain) []) && negb (contains_ws domain))
          "tls.acme.domains contains invalid domain") (domains a)
  | None => Ok ()
  end.

Definition opt_is (o : option Z) (z : Z) : bool :=
  match o with Some x => x =? z | None => false end.

(** [OutboundConfig::validate] *)
Definition outbound_validate (o : OutboundConfig) : Result () :=
  if negb (bool_decide (out_protocol o = Anytls)) then Ok ()
  else
    ensure (negb (is_some (max_streams o) && is_some (max_connections o)))
      "anytls outbound cannot configure both max_streams and max_connections" ;;
    ensure (negb (opt_is (max_streams o) 0)) "max_streams must be greater than zero" ;;
    ensure (negb (opt_is (max_connections o) 0)) "max_connections must be greater than zero" ;;
    ensure (negb (opt_is (connection_idle_timeout o) 0))
      "connection_idle_timeout must be greater than zero" ;;
    Ok ().

(** [Config::validate] *)
Definition config_validate (c : Config) : Result () :=
  ensure (negb (Nat.eqb (length (inbounds c)) 0)) "at least one inbound is required" ;;
  ensure (negb (Nat.eqb (length (outbounds c)) 0)) "at least one outbound is required" ;;
  (match routing_default (routing c) with
   | Some d =>
       ensure (existsb (λ out, str_eqb (out_tag out) d) (outbounds c))
         "routing.default references unknown outbound tag"
   | None => Ok ()
   end) ;;
  for_result (λ inbound,
    match in_tls inbound with Some t => tls_validate t | None => Ok () end) (inbounds c) ;;
  for_result outbound_validate (outbounds c) ;;
  Ok ().

(** ** Accessors of [OutboundConfig] *)
Definition require_server (o : OutboundConfig) : Result ServerAddr :=
  context (server o) "outbound requires server".

Definition tls_server_name (o : OutboundConfig) : Result bytes :=
  context
    (match server_name o with
     | Some n => Some n
     | None => match server o with Some s => server_domain s | None => None end
     end) "outbound requires server_name".

Definition default_anytls_max_streams : Z := 1.
Definition default_anytls_connection_idle_timeout : Z := from_secs (2 * 60).

Definition anytls_connection_idle_timeout (o : OutboundConfig) : Z :=
  match connection_idle_timeout o with
  | Some d => d
  | None => default_anytls_connection_idle_timeout
  end.

Definition anytls_max_streams (o : OutboundConfig) : option Z :=
  if is_some (max_connections o) then None
  else Some (match max_streams o with Some m => m | None => default_anytls_max_streams end).

Definition certificate_path (t : TlsServerConfig) : Result bytes :=
  context (certificate t) "tls certificate path is not configured".
Definition private_key_path (t : TlsServerConfig) : Result bytes :=
  context (private_key t) "tls private key path is not configured".

(** ** Durations *)
Fixpoint span_digits (l : bytes) : bytes * bytes :=
  match l with
  | b :: r => if is_digit b then let '(d, u) := span_digits r in (b :: d, u) else ([], l)
  | [] => ([], [])
  end.

(** [u64::checked_mul] *)
Definition checked_mul_u64 (a b : Z) : option Z :=
  if a * b <? 2 ^ 64 then Some (a * b) else None.

Definition one_of (u : bytes) (names : list string) : bool :=
  existsb (λ n, str_eqb u (str n)) names.

Definition parse_duration_text (text : bytes) : Result Z :=
  let value := trim text in
  ensure (negb (str_eqb value [])) "duration must not be empty" ;;
  let '(digits, rest) := span_digits value in
  ensure (negb (str_eqb digits [])) "duration must start with a number" ;;
  amount ← context (parse_u64 digits) "duration has an invalid number";
  let unit := trim rest in
  if one_of unit [""; "s"; "sec"; "secs"; "second"; "seconds"]%string then Ok (from_secs amount)
  else if one_of unit ["ms"; "millisecond"; "milliseconds"]%string then Ok (from_millis amount)
  else
    seconds ←
      (if one_of unit ["m"; "min"; "mins"; "minute"; "minutes"]%string
       then Ok (checked_mul_u64 amount 60)
       else if one_of unit ["h"; "hr"; "hrs"; "hour"; "hours"]%string
       then Ok (checked_mul_u64 amount (60 * 60))
       else if one_of unit ["d"; "day"; "days"]%string
       then Ok (checked_mul_u64 amount (24 * 60 * 60))
       else Err (EMsg "duration has unsupported unit"));
    seconds ← context seconds "duration is too large";
    Ok (from_secs seconds).

Inductive DurationValue := Seconds (s : Z) | TextValue (t : bytes).

Definition parse_duration_value (v : DurationValue) : Result Z :=
  match v with
  | Seconds s => Ok (from_secs s)
  | TextValue t => parse_duration_text t
  end.

(** [deserialize_optional_duration], after the value itself is deserialised. *)
Definition deserialize_optional_duration (value : Result (option DurationValue)) : Result (option Z) :=
  value ← value;
  match value with
  | Some v => d ← parse_duration_value v; Ok (Some d)
  | None => Ok None
  end.

(** ** What validation guarantees *)
Definition valid_acme_domain (d : bytes) : Prop :=
  starts_with (str "*.") d = false ∧ trim d ≠ [] ∧ contains_ws d = false.

(** Exactly one certificate source, and a complete one. *)
Inductive valid_tls : TlsServerConfig → Prop :=
  | valid_tls_static c k : valid_tls (MkTls (Some c) (Some k) None)
  | valid_tls_acme ds :
      ds ≠ [] → Forall valid_acme_domain ds → valid_tls (MkTls None None (Some (MkTlsAcme ds))).

Definition valid_tuning (o : OutboundConfig) : Prop :=
  (max_streams o = None ∨ max_connections o = None) ∧
  max_streams o ≠ Some 0 ∧ max_connections o ≠ Some 0 ∧ connection_idle_timeout o ≠ Some 0.

Record valid_config (c : Config) : Prop := {
  has_inbound : inbounds c ≠ [];
  has_outbound : outbounds c ≠ [];
  default_known d :
    routing_default (routing c) = Some d → ∃ o, o ∈ outbounds c ∧ out_tag o = d;
  tls_valid i t : i ∈ inbounds c → in_tls i = Some t → valid_tls t;
  tuning_valid o : o ∈ outbounds c → out_protocol o = Anytls → valid_tuning o;
}.

Lemma acme_domain_ok d :
  (ensure (negb (starts_with (str "*.") d)) "tls.acme.domains contains wildcard" ;;
   ensure (negb (str_eqb (trim d) []) && negb (contains_ws d))
     "tls.acme.domains contains invalid domain") = Ok () ↔ valid_acme_domain d.
Proof.
  rw bind_ok_iff !ensure_ok_iff andb_true_iff !negb_true_iff /valid_acme_domain /str_eqb
    bool_decide_eq_false. naive_solver.
Qed.

Lemma tls_validate_ok t : tls_validate t = Ok () ↔ valid_tls t.
Proof.
  rw /tls_validate. destruct t as [[c|] [k|] [[ds]|]]; cbn;
    try (split; [done|by inversion 1]); try (split; [by constructor|done]).
  rw bind_ok_iff ensure_ok_iff negb_true_iff bool_decide_eq_false for_result_ok.
  assert (∀ l, Forall (λ x, _ = Ok ()) l ↔ Forall valid_acme_domain l) as ->.
  { intros l. rw !Forall_forall. split; intros H x Hx; apply acme_domain_ok, H, Hx. }
  split; [intros []; by constructor|by inversion 1].
Qed.

Lemma outbound_validate_ok o :
  outbound_validate o = Ok () ↔ (out_protocol o = Anytls → valid_tuning o).
Proof.
  rw /outbound_validate /valid_tuning. destruct (decide (out_protocol o = Anytls)) as [Hp|Hp].
  - rw bool_decide_true; [done|]. cbn [negb].
    rw !bind_ok_iff !ensure_ok_iff !negb_true_iff /opt_is.
    destruct (max_streams o) as [m|], (max_connections o) as [n|], (connection_idle_timeout o) as [d|];
      cbn; rw ?Z.eqb_neq; naive_solver.
  - rw bool_decide_false; [done|]. cbn. naive_solver.
Qed.

(** ** Properties *)

Lemma validate_iff c : config_validate c = Ok () ↔ valid_config c.
Proof.
  rw /config_validate !bind_ok_iff !ensure_ok_iff !negb_true_iff !for_result_ok !Forall_forall.
  rw !Nat.eqb_neq. split.
  - intros (Hin & Hout & Hd & Htls & Hob & _). split.
    + by destruct (inbounds c).
    + by destruct (outbounds c).
    + intros d Hd'. rw Hd' in Hd. apply ensure_ok, existsb_exists in Hd as (o & Ho & Heq).
      apply str_eqb_eq in Heq. exists o. by rw list_elem_of_In.
    + intros i t Hi Ht. specialize (Htls i Hi). rw Ht in Htls. by apply tls_validate_ok.
    + intros o Ho. by apply outbound_validate_ok, Hob.
  - intros [Hin Hout Hd Htls Hob]. split_and!; try done.
    + by destruct (inbounds c).
    + by destruct (outbounds c).
    + destruct (routing_default (routing c)) as [d|]; [|done].
      apply ensure_true, existsb_exists. destruct (Hd d) as (o & Ho & <-); [done|].
      exists o. rw -list_elem_of_In. split; [done|]. by apply str_eqb_eq.
    + intros i Hi. destruct (in_tls i) eqn:Ht; [|done]. apply tls_validate_ok. by eapply Htls.
    + intros o Ho. apply outbound_validate_ok. by apply Hob.
Qed.

(** C27: [Config::validate] accepts exactly the valid configurations: at least
    one inbound and one outbound, a default route to a known outbound tag,
    exactly one complete certificate source for every TLS block (with HTTP-01
    compatible domains for ACME), and for every AnyTLS outbound at most one of
    the two pool limits, none of the tuning values zero. *)
Theorem config_validate_ok c : config_validate c = Ok () ↔ valid_config c.
Proof. apply validate_iff. Qed.

(** The units of seconds, with their length. *)
Definition unit_table : list (string * Z) :=
  [("", 1); ("s", 1); ("sec", 1); ("secs", 1); ("second", 1); ("seconds", 1);
   ("m", 60); ("min", 60); ("mins", 60); ("minute", 60); ("minutes", 60);
   ("h", 3600); ("hr", 3600); ("hrs", 3600); ("hour", 3600); ("hours", 3600);
   ("d", 86400); ("day", 86400); ("days", 86400)]%string.

Lemma span_digits_app ds u :
  forallb is_digit ds = true → match u with b :: _ => is_digit b = false | [] => True end →
  span_digits (ds ++ u) = (ds, u).
Proof.
  intros Hds Hu. induction ds as [|d ds IH]; simpl in *.
  - destruct u as [|b u]; [done|]. simpl. by rw Hu.
  - apply andb_prop in Hds as [-> Hds]. by rw IH.
Qed.

Lemma digits_visible ds : forallb is_digit ds = true → forallb is_visible ds = true.
Proof.
  induction ds as [|d ds IH]; [done|]. cbn [forallb]. intros [Hd Hr]%andb_prop.
  rw IH; [done|]. rw /is_digit /in_range in Hd. rw /is_visible /in_range. lia.
Qed.

(** The text of an amount and a unit splits into the two. *)
Lemma parse_duration_split ds u n :
  ds ≠ [] → forallb is_digit ds = true → parse_u64 ds = Some n →
  forallb is_visible u = true → match u with b :: _ => is_digit b = false | [] => True end →
  trim (ds ++ u) = ds ++ u ∧ span_digits (ds ++ u) = (ds, u) ∧ trim u = u.
Proof.
  intros Hne Hds Hn Hu Hu0. split_and!.
  - apply trim_all_visible. rw forallb_app digits_visible; done.
  - by apply span_digits_app.
  - by apply trim_all_visible.
Qed.

(** Evaluates the unit tests on a literal unit. *)
Ltac eval_one_of :=
  repeat match goal with
  | |- context [one_of ?a ?b] =>
      let v := eval vm_compute in (one_of a b) in change (one_of a b) with v; cbv iota
  end.

(** A duration written as decimal digits and a unit of the table denotes
    the amount times the unit's seconds; when that exceeds 64 bits the text is
    rejected as too large, never wrapped around. *)
Lemma parse_duration_units ds u k n :
  ds ≠ [] → forallb is_digit ds = true → parse_u64 ds = Some n → (u, k) ∈ unit_table →
  parse_duration_text (ds ++ str u) =
    if n * k <? 2 ^ 64 then Ok (from_secs (n * k)) else Err (EMsg "duration is too large").
Proof.
  intros Hne Hds Hn Hu.
  assert (Hn64 : 0 ≤ n ≤ 2 ^ 64 - 1) by by eapply parse_uint_bound in Hn.
  assert (Hok : forallb is_visible (str u) = true ∧
    match str u with b :: _ => is_digit b = false | [] => True end).
  { rw /unit_table in Hu. by repeat (apply elem_of_cons in Hu as [[= -> ->]|Hu]; [done|]);
    apply elem_of_nil in Hu. }
  destruct Hok as [Hv Hd].
  destruct (parse_duration_split ds (str u) n) as (Ht & Hs & Htu); [done..|].
  rw /parse_duration_text Ht ensure_then.
  { apply negb_true_iff, bool_decide_eq_false. by destruct ds. }
  rw Hs ensure_then.
  { apply negb_true_iff, bool_decide_eq_false. done. }
  rw Hn Htu. cbn [context mbind Result_bind].
  change (60 * 60) with 3600. change (24 * 60 * 60) with 86400. rw /unit_table in Hu.
  repeat (apply elem_of_cons in Hu as [[= -> ->]|Hu];
    [eval_one_of; rw /checked_mul_u64 /= ?Z.mul_1_r;
     first [destruct (Z.ltb_spec n (2 ^ 64)); [done|lia]
           | by match goal with |- context [?a <? ?b] => destruct (a <? b) end]|]).
  by apply elem_of_nil in Hu.
Qed.

Lemma parse_duration_units_witness :
  parse_duration_text (str "90" ++ str "min") = Ok (from_secs (90 * 60)).
Proof.
  apply (parse_duration_units (str "90") "min" 60 90); [done|reflexivity|reflexivity|].
  by_decide.
Defined.

(** A server written as a domain endpoint is accepted exactly as written:
    what precedes the last colon is the host, which is not empty and has no
    colon or white space, and what follows is the port; a text that reads as an
    IP socket address keeps its IP and port. *)
Lemma server_from_str_sound value s :
  server_from_str value = Ok s →
  (∃ a, parse_socket_addr value = Some a ∧ s = MkServerAddr (HostIp (sa_ip a)) (sa_port a)) ∨
  (∃ host port, value = host ++ COLON :: port ∧ s = MkServerAddr (HostDomain host) (server_port s) ∧
     host ≠ [] ∧ (COLON ∉ host) ∧ (COLON ∉ port) ∧ contains_ws host = false ∧
     parse_u16 port = Some (server_port s) ∧ is_u16 (server_port s)).
Proof.
  rw /server_from_str. intros ([] & _ & H)%Result_bind_inv.
  apply Result_bind_inv in H as ([] & _ & H).
  destruct (parse_socket_addr value) as [a|]; [injection H as <-; left; eauto|right].
  apply Result_bind_inv in H as ([host port] & Hs & H).
  destruct (rsplit_once COLON value) as [[h p]|] eqn:Hsplit; [|done]. injection Hs as -> ->.
  apply rsplit_once_Some in Hsplit as [-> Hport].
  apply Result_bind_inv in H as ([] & Hne%ensure_ok & H).
  apply Result_bind_inv in H as ([] & _ & H).
  apply Result_bind_inv in H as ([] & Hc%ensure_ok & H).
  apply Result_bind_inv in H as ([] & Hws%ensure_ok & H).
  apply Result_bind_inv in H as (n & Hn & [= <-]).
  destruct (parse_u16 port) as [n'|] eqn:Hp; [|done]. injection Hn as ->.
  exists host, port. simp_bool. split_and!; try done.
  - by intros ->.
  - by apply contains_false.
  - apply parse_uint_bound in Hp; [|lia]. rw /is_u16 /=. lia.
Qed.

Lemma server_from_str_sound_witness :
  (∃ a, parse_socket_addr (str "proxy.example.com:443") = Some a ∧
        MkServerAddr (HostDomain (str "proxy.example.com")) 443 = MkServerAddr (HostIp (sa_ip a)) (sa_port a)) ∨
  (∃ host port, str "proxy.example.com:443" = host ++ COLON :: port ∧
     MkServerAddr (HostDomain (str "proxy.example.com")) 443 = MkServerAddr (HostDomain host) 443 ∧
     host ≠ [] ∧ (COLON ∉ host) ∧ (COLON ∉ port) ∧ contains_ws host = false ∧
     parse_u16 port = Some 443 ∧ is_u16 443).
Proof.
  apply (server_from_str_sound (str "proxy.example.com:443")
    (MkServerAddr (HostDomain (str "proxy.example.com")) 443)). vm_compute. reflexivity.
Defined.
