(* ===== verification/AddrRoundtrip.v ===== *)
(** * Printed addresses parse

    [Display] and [FromStr] of socket addresses (core::net) and of [ServerAddr]
    (src/config.rs) agree: every printed address parses back, IPv6 zero
    compression, IPv4-mapped addresses and scope ids included. *)
From S2P Require Import Prelude Text Net AddrParse AddrPrint Config.

(** ** Digits *)
Definition digits_val (radix acc : Z) (ds : list Z) : Z := fold_left (λ a d, a * radix + d) ds acc.

Lemma to_digit_char radix d : radix ≤ 16 → 0 ≤ d < radix → to_digit radix (digit_char d) = Some d.
Proof.
  intros Hr Hd. rw /to_digit /digit_char /in_range. destruct (Z.ltb_spec d 10).
  - rw (proj2 (Z.leb_le 48 (48 + d))); [lia|]. rw (proj2 (Z.leb_le (48 + d) 57)); [lia|]. cbn [andb].
    replace (48 + d - 48) with d by lia. by rw (proj2 (Z.ltb_lt d radix)); [lia|].
  - rw (proj2 (Z.leb_gt (87 + d) 57)); [lia|]. rw andb_false_r.
    rw (proj2 (Z.leb_le 97 (87 + d))); [lia|]. rw (proj2 (Z.leb_le (87 + d) 102)); [lia|]. cbn [andb].
    replace (87 + d - 87) with d by lia. by rw (proj2 (Z.ltb_lt d radix)); [lia|].
Qed.

(** What a printed number is made of. *)
Record digits_of (radix n : Z) (ds : list Z) : Prop := {
  dg_range : Forall (λ d, 0 ≤ d < radix) ds;
  dg_val : digits_val radix 0 ds = n;
  dg_lead : match ds with [] => False | d :: r => d = 0 → r = [] end;
  dg_len : ds = [0] ∨ radix ^ (Z.of_nat (length ds) - 1) ≤ n;
}.

Lemma digits_val_snoc radix acc ds d : digits_val radix acc (ds ++ [d]) = digits_val radix acc ds * radix + d.
Proof. by rw /digits_val fold_left_app. Qed.

Lemma print_digits_spec radix fuel n out :
  2 ≤ radix → 0 ≤ n < radix ^ Z.of_nat fuel → (0 < fuel)%nat →
  ∃ ds, digits_of radix n ds ∧ print_digits fuel radix n out = map digit_char ds ++ out.
Proof.
  intros Hr. revert n out. induction fuel as [|fuel IH]; intros n out Hn Hf; [lia|]. cbn [print_digits].
  destruct (Z.ltb_spec n radix) as [Hlt|Hge].
  { exists [n]. rw Z.mod_small; [lia|]. split; [|done]. split; [by constructor; [lia|constructor]|rw /digits_val /=; lia|done|]. simpl.
    destruct (decide (n = 0)) as [->|]; [by left|right; lia]. }
  assert (Hq : 0 < n / radix) by (apply Z.div_str_pos; lia).
  assert (Hfuel : (0 < fuel)%nat). { destruct fuel; [|lia]. simpl in Hn. lia. }
  destruct (IH (n / radix) (digit_char (n mod radix) :: out)) as (ds & Hds & ->); [|done|].
  { split; [lia|]. apply Z.div_lt_upper_bound; [lia|]. rw -Z.pow_succ_r; [lia|]. rw -Nat2Z.inj_succ. lia. }
  pose proof (Z.mod_pos_bound n radix ltac:(lia)) as Hm. pose proof (Z.div_mod n radix ltac:(lia)) as Hdm.
  exists (ds ++ [n mod radix]). split; [|by rw map_app -app_assoc]. destruct Hds as [H1 H2 H3 H4]. split.
  - apply Forall_snoc; [done|lia].
  - rw digits_val_snoc H2. lia.
  - destruct ds as [|d r]; [done|]. simpl. intros ->. specialize (H3 eq_refl). subst r. rw /digits_val /= in H2. lia.
  - right. rw length_app /=. destruct H4 as [->|H4]; [rw /digits_val /= in H2; lia|].
    replace (Z.of_nat (length ds + 1) - 1) with (Z.of_nat (length ds) - 1 + 1) by lia.
    rw Z.pow_add_r; [destruct ds; simpl; [done|lia]|lia|]. nia.
Qed.

Lemma digits_length radix n ds k :
  2 ≤ radix → digits_of radix n ds → n < radix ^ k → 1 ≤ k → Z.of_nat (length ds) ≤ k.
Proof.
  intros Hr [_ _ _ [->|Hl]] Hn Hk; [simpl; lia|].
  assert (Z.of_nat (length ds) - 1 < k); [|lia]. apply (Z.pow_lt_mono_r_iff radix); lia.
Qed.

(** A text that no digit of the radix starts. *)
Definition no_digit (radix : Z) (l : bytes) : Prop := match l with [] => True | b :: _ => to_digit radix b = None end.

Lemma read_digits_map radix ds acc c rest :
  radix ≤ 16 → Forall (λ d, 0 ≤ d < radix) ds → no_digit radix rest →
  read_digits radix acc c (map digit_char ds ++ rest) = (digits_val radix acc ds, (c + length ds)%nat, rest).
Proof.
  intros Hr Hds Hrest. revert acc c. induction Hds as [|d ds Hd _ IH]; intros acc c; simpl.
  - rw Nat.add_0_r. destruct rest as [|b rest]; [done|]. cbn [read_digits]. by rw Hrest.
  - rw to_digit_char; [lia|done|]. rw IH. by rw Nat.add_succ_r.
Qed.

(** A printed number is read back. *)
Lemma read_number_print radix max limit zero_ok n rest :
  2 ≤ radix ≤ 16 → 0 ≤ n ≤ max → n < radix ^ 64 → no_digit radix rest →
  (match limit with Some k => n < radix ^ Z.of_nat k ∧ (1 ≤ k)%nat | None => True end) →
  read_number radix max limit zero_ok (print_uint radix n ++ rest) = Some (n, rest).
Proof.
  intros Hr Hn H64 Hrest Hlim.
  destruct (print_digits_spec radix 64 n []) as (ds & Hds & E); [lia|split; [lia|done]|lia|]. rw app_nil_r in E.
  rw /print_uint E. rw /read_number read_digits_map; [lia|apply Hds|done|]. rw (dg_val _ _ _ Hds) Nat.add_0_l.
  assert (Hlen : length ds ≠ 0%nat) by (pose proof (dg_lead _ _ _ Hds); destruct ds; [done|simpl; lia]).
  assert ((match limit with Some m => Nat.ltb m (length ds) | None => false end) = false) as ->.
  { destruct limit as [k|]; [|done]. destruct Hlim as [Hk H1]. apply Nat.ltb_ge.
    pose proof (digits_length radix n ds (Z.of_nat k) ltac:(lia) Hds Hk ltac:(lia)). lia. }
  rw (proj2 (Nat.eqb_neq _ _) Hlen).
  assert (negb zero_ok && (match map digit_char ds ++ rest with b :: _ => b =? 48 | [] => false end) && Nat.ltb 1 (length ds) = false) as ->.
  { destruct ds as [|d [|d' r]]; [done|by rw andb_false_r|].
    assert ((digit_char d =? 48) = false) as E0; [|by rw /= E0 andb_false_r].
    pose proof (dg_lead _ _ _ Hds) as Hl. pose proof (dg_range _ _ _ Hds) as [Hd _]%Forall_cons. simpl in Hl.
    apply Z.eqb_neq. rw /digit_char. destruct (Z.ltb_spec d 10); [|lia]. intros E0. assert (d = 0) as H0 by lia. by specialize (Hl H0). }
  by rw (proj2 (Z.leb_le n max)); [lia|].
Qed.

(** ** IPv4 *)
Lemma read_octet o rest : is_u8 o → no_digit 10 rest → read_number 10 255 (Some 3%nat) false (print_dec o ++ rest) = Some (o, rest).
Proof.
  rw /is_u8. intros Ho Hr. apply read_number_print; [lia|lia| |done|].
  - apply (Z.lt_trans _ 256); [lia|reflexivity].
  - split; [apply (Z.lt_trans _ 256); [lia|reflexivity]|lia].
Qed.

Lemma read_ipv4_print o rest :
  length o = 4%nat → wf_bytes o → no_digit 10 rest → read_ipv4_addr (print_ipv4 o ++ rest) = Some (o, rest).
Proof.
  intros Hl Hw Hr. destruct o as [|a [|b [|c [|d [|]]]]]; try done.
  apply Forall_cons in Hw as [Ha [Hb [Hc [Hd _]%Forall_cons]%Forall_cons]%Forall_cons].
  rw /read_ipv4_addr /print_ipv4. cbn [map join_with]. rw -!app_assoc.
  cbn [read_v4_octets read_separator]. rw read_octet //. cbn [app read_given_char]. rw Z.eqb_refl. rw read_octet //.
  cbn [app read_given_char]. rw Z.eqb_refl. rw read_octet //. cbn [app read_given_char]. rw Z.eqb_refl. by rw read_octet.
Qed.

Lemma read_port_print p : is_u16 p → read_port ([COLON] ++ print_dec p) = Some (p, []).
Proof.
  rw /is_u16. intros Hp. rw /read_port. cbn [app read_given_char]. rw Z.eqb_refl. rw -{1}(app_nil_r (print_dec p)).
  apply read_number_print; [lia|lia| |done|done]. apply (Z.lt_trans _ (2 ^ 16)); [lia|reflexivity].
Qed.

(** ** IPv6: a group is not taken for an IPv4 address *)
Lemma digit_char_not_dot d : 0 ≤ d < 16 → digit_char d ≠ DOT.
Proof. rw /digit_char /DOT. destruct (Z.ltb_spec d 10); lia. Qed.

(** What may follow a printed group: not a hexadecimal digit, not a dot. *)
Definition ends_group (l : bytes) : Prop := no_digit 16 l ∧ head l ≠ Some DOT.

Lemma to_digit_10 b : to_digit 16 b = None → to_digit 10 b = None.
Proof.
  rw /to_digit /in_range. repeat match goal with |- context [?x <=? ?y] => destruct (Z.leb_spec x y) end; cbn [andb];
    repeat match goal with |- context [?x <? ?y] => destruct (Z.ltb_spec x y) end; (done || lia).
Qed.
Lemma no_digit_10 l : no_digit 16 l → no_digit 10 l.
Proof. destruct l; [done|]. apply to_digit_10. Qed.

Lemma read_digits_tail ds rest acc c :
  Forall (λ d, 0 ≤ d < 16) ds → ends_group rest → head (read_digits 10 acc c (map digit_char ds ++ rest)).2 ≠ Some DOT.
Proof.
  intros Hds [Hr Hdot]. revert acc c. induction Hds as [|d ds Hd _ IH]; intros acc c; cbn [map app read_digits].
  - destruct rest as [|b rest]; [done|]. cbn [read_digits]. by rw (no_digit_10 _ Hr).
  - destruct (to_digit 10 (digit_char d)); [apply IH|]. intros [= E]. by apply (digit_char_not_dot d).
Qed.

Lemma print_hex_digits g : is_u16 g → ∃ ds, digits_of 16 g ds ∧ print_hex g = map digit_char ds.
Proof.
  intros Hg. destruct (print_digits_spec 16 64 g []) as (ds & Hds & E); [lia| |lia|].
  { split; [apply Hg|]. apply (Z.lt_trans _ (2 ^ 16)); [apply Hg|reflexivity]. }
  exists ds. split; [done|]. by rw app_nil_r in E.
Qed.

Lemma read_number_rest radix max limit z l v r : read_number radix max limit z l = Some (v, r) → r = (read_digits radix 0 0 l).2.
Proof.
  rw /read_number. destruct (read_digits radix 0 0 l) as [[v' c] r']. destruct (match limit with Some _ => _ | None => _ end); [done|].
  destruct (Nat.eqb c 0); [done|]. destruct (_ && _ && _); [done|]. destruct (v' <=? max); [|done]. by intros [= _ <-].
Qed.
Lemma read_given_char_not c l : head l ≠ Some c → read_given_char c l = None.
Proof. destruct l as [|b l]; [done|]. simpl. intros Hb. destruct (Z.eqb_spec b c); [congruence|done]. Qed.

Lemma group_not_ipv4 g rest : is_u16 g → ends_group rest → read_ipv4_addr (print_hex g ++ rest) = None.
Proof.
  intros Hg Hr. destruct (print_hex_digits g Hg) as (ds & Hds & ->). rw /read_ipv4_addr.
  change (read_v4_octets 0 4 (map digit_char ds ++ rest)) with
    (match read_number 10 255 (Some 3%nat) false (map digit_char ds ++ rest) with
     | Some (o, r) => match read_v4_octets 1 3 r with Some (os, r) => Some (o :: os, r) | None => None end
     | None => None end).
  destruct (read_number 10 255 (Some 3%nat) false (map digit_char ds ++ rest)) as [[v r]|] eqn:E; [|done].
  apply read_number_rest in E. pose proof (read_digits_tail ds rest 0 0%nat (dg_range _ _ _ Hds) Hr) as Ht. rw -E in Ht.
  cbn [read_v4_octets read_separator]. by rw read_given_char_not.
Qed.
Lemma no_group radix max limit z l : no_digit radix l → read_number radix max limit z l = None.
Proof.
  intros Hl. rw /read_number. destruct l as [|b l]; [by destruct limit|]. cbn [read_digits]. rw Hl. by destruct limit.
Qed.
Lemma no_ipv4 l : no_digit 10 l → read_ipv4_addr l = None.
Proof. intros Hl. rw /read_ipv4_addr. cbn [read_v4_octets read_separator]. by rw no_group. Qed.

Lemma read_group g rest : is_u16 g → no_digit 16 rest →
  read_number 16 (2 ^ 16 - 1) (Some 4%nat) true (print_hex g ++ rest) = Some (g, rest).
Proof.
  rw /is_u16. intros Hg Hr. apply read_number_print; [lia|lia| |done|].
  - apply (Z.lt_trans _ (2 ^ 16)); [lia|reflexivity].
  - split; [change (16 ^ Z.of_nat 4) with (2 ^ 16); lia|lia].
Qed.

(** ** Groups

    The text of groups from index [i] on: a colon before each but the first. *)
Definition sep_at (i : nat) : bytes := match i with O => [] | S _ => [COLON] end.
Fixpoint groups_from (i : nat) (gs : list Z) : bytes :=
  match gs with
  | [] => []
  | g :: gs => sep_at i ++ print_hex g ++ groups_from (S i) gs
  end.
Lemma groups_from_S i j gs : groups_from (S i) gs = groups_from (S j) gs.
Proof. revert i j. induction gs as [|g gs IH]; intros i j; [done|]. cbn [groups_from sep_at]. by rw (IH (S i) (S j)). Qed.
Lemma print_groups_from gs : print_groups gs = groups_from 0 gs.
Proof.
  destruct gs as [|g gs]; [done|]. rw /print_groups. revert g. induction gs as [|h gs IH]; intros g; [by rw /= app_nil_r|].
  change (print_hex g ++ [COLON] ++ join_with [COLON] (map print_hex (h :: gs)) = groups_from 0 (g :: h :: gs)).
  rw IH. cbn [groups_from sep_at app]. by rw (groups_from_S 0 1).
Qed.

(** Nothing more can be read at [rest] as group [i]. *)
Definition stops (i : nat) (rest : bytes) : Prop :=
  match i with
  | O => no_digit 16 rest
  | S _ => match rest with b :: r => b = COLON → no_digit 16 r | [] => True end
  end.

Lemma stop_reads i rest :
  stops i rest → read_separator COLON i read_ipv4_addr rest = None ∧
  read_separator COLON i (read_number 16 (2 ^ 16 - 1) (Some 4%nat) true) rest = None.
Proof.
  destruct i as [|i]; cbn [stops read_separator].
  - intros H. split; [by apply no_ipv4, no_digit_10|by apply no_group].
  - destruct rest as [|b r]; [done|]. cbn [read_given_char]. destruct (Z.eqb_spec b COLON) as [->|]; [|done].
    intros H. specialize (H eq_refl). split; [by apply no_ipv4, no_digit_10|by apply no_group].
Qed.

Lemma read_sep_at {A} (inner : Parser A) i l : read_separator COLON i inner (sep_at i ++ l) = inner l.
Proof. destruct i; [done|]. cbn [read_separator sep_at app read_given_char]. by rw Z.eqb_refl. Qed.

Lemma groups_end i gs rest : (0 < i)%nat → ends_group rest → ends_group (groups_from i gs ++ rest).
Proof. intros Hi Hr. destruct gs as [|g gs]; [done|]. destruct i; [lia|]. split; [reflexivity|done]. Qed.

Lemma read_groups_print gs i todo rest :
  Forall is_u16 gs → (length gs ≤ todo)%nat → ends_group rest → ((length gs < todo)%nat → stops (i + length gs) rest) →
  read_groups i todo (groups_from i gs ++ rest) = (gs, false, rest).
Proof.
  intros Hgs. revert i todo. induction Hgs as [|g gs Hg Hgs IH]; intros i todo Hl Hr Hs.
  - destruct todo as [|todo]; [done|]. rw Nat.add_0_r in Hs. destruct (stop_reads i rest) as [E1 E2]; [apply Hs; simpl; lia|].
    cbn [groups_from app read_groups]. rw E1 E2. by destruct (Nat.leb 2 (S todo)).
  - destruct todo as [|todo]; [simpl in Hl; lia|]. cbn [groups_from]. rw -!app_assoc.
    assert (Hend : ends_group (groups_from (S i) gs ++ rest)) by (apply groups_end; [lia|done]).
    cbn [read_groups]. rw !read_sep_at group_not_ipv4 // read_group //; [apply Hend|].
    rw IH; [simpl in Hl; lia|done| |by destruct (Nat.leb 2 (S todo))].
    intros Hlt. rw Nat.add_succ_l -Nat.add_succ_r. apply Hs. simpl. lia.
Qed.

(** ** The run of zeros *)
Definition zero_span (l : list Z) (sp : nat * nat) : Prop :=
  (sp.1 + sp.2 ≤ length l)%nat ∧ take sp.2 (drop sp.1 l) = replicate sp.2 0.

Lemma zero_span_app l k sp : zero_span l sp → zero_span (l ++ k) sp.
Proof.
  destruct sp as [s n]. intros [H1 H2]. simpl in *. split; simpl; [rw length_app; lia|].
  rw drop_app_le; [lia|]. by rw take_app_le; [rw length_drop; lia|].
Qed.
Lemma zero_span_grow l s n : (s + n)%nat = length l → zero_span l (s, n) → zero_span (l ++ [0]) (s, S n).
Proof.
  intros Hl [_ H2]. simpl in *. split; simpl; [rw length_app /=; lia|]. rw drop_app_le; [lia|].
  assert (Hd : length (drop s l) = n) by (rw length_drop; lia). rw -{1}Hd firstn_all in H2.
  rw H2 take_ge; [rw length_app length_replicate /=; lia|]. by rw -replicate_S_end.
Qed.

Lemma zero_run_spec segs pre longest current :
  zero_span pre longest → (current.2 = 0%nat ∨ (current.1 + current.2)%nat = length pre ∧ zero_span pre current) →
  zero_span (pre ++ segs) (zero_run (length pre) segs longest current).
Proof.
  revert pre longest current. induction segs as [|s segs IH]; intros pre longest current Hl Hc; [by rw app_nil_r|].
  cbn [zero_run]. replace (S (length pre)) with (length (pre ++ [s])) by (rw length_app /=; lia).
  rw (cons_middle s pre segs) app_assoc. destruct (Z.eqb_spec s 0) as [->|]; [|apply IH; [by apply zero_span_app|by left]].
  set (cur := (if Nat.eqb current.2 0 then length pre else current.1, S current.2)).
  assert (Hcur : (cur.1 + cur.2)%nat = length (pre ++ [0]) ∧ zero_span (pre ++ [0]) cur).
  { rw /cur. destruct Hc as [E|[E1 E2]].
    - rw E /=. split; [rw length_app /=; lia|]. split; simpl; [rw length_app /=; lia|]. by rw drop_app_length.
    - destruct (Nat.eqb_spec current.2 0) as [E|E].
      + rw E /=. split; [rw length_app /=; lia|]. split; simpl; [rw length_app /=; lia|]. by rw drop_app_length.
      + split; [rw length_app /=; lia|]. apply zero_span_grow; [done|]. by destruct current. }
  apply IH; [|by right]. destruct (Nat.ltb longest.2 cur.2); [apply Hcur|by apply zero_span_app].
Qed.

(** ** IPv6 *)
Lemma pair_bytes a b : is_u8 a → is_u8 b → wf_bytes [a; b].
Proof. intros Ha Hb. constructor; [done|]. constructor; [done|constructor]. Qed.
Lemma pair_value a b : is_u8 a → is_u8 b → be_bytes 2 (be_val [a; b]) = [a; b].
Proof. intros Ha Hb. apply be_bytes_val_2; [by apply pair_bytes|done]. Qed.

Lemma segments_spec o : wf_bytes o → Nat.Even (length o) →
  Forall is_u16 (segments o) ∧ groups_octets (segments o) = o ∧ (2 * length (segments o))%nat = length o.
Proof.
  intros Hw [k Hk]. revert o Hw Hk. induction k as [|k IH]; intros o Hw Hk.
  { destruct o; [|simpl in Hk; lia]. split; [constructor|done]. }
  destruct o as [|a [|b o]]; [simpl in Hk; lia|simpl in Hk; lia|]. apply Forall_cons in Hw as [Ha [Hb Hw]%Forall_cons].
  destruct (IH o Hw) as (H1 & H2 & H3); [simpl in Hk; lia|]. cbn [segments]. split_and!.
  - constructor; [|done]. apply be_val_u16; [by apply pair_bytes|done].
  - change (be_bytes 2 (be_val [a; b]) ++ groups_octets (segments o) = a :: b :: o). by rw H2 pair_value.
  - simpl in *. lia.
Qed.

Definition ends_addr (rest : bytes) : Prop := ends_group rest ∧ head rest ≠ Some COLON.
Lemma ends_addr_stops i rest : ends_addr rest → stops i rest.
Proof. intros [[H1 _] H2]. destruct i; [done|]. destruct rest as [|b r]; [done|]. simpl. intros ->. by destruct H2. Qed.

(** What the parser makes of a compressed text. *)
Lemma read_compressed hd tl rest :
  Forall is_u16 hd → Forall is_u16 tl → (length hd + length tl + 2 ≤ 8)%nat → ends_addr rest →
  read_ipv6_addr (print_groups hd ++ str "::" ++ print_groups tl ++ rest) =
    Some (groups_octets (hd ++ replicate (8 - length hd - length tl) 0 ++ tl), rest).
Proof.
  intros Hh Ht Hl Hr. rw /read_ipv6_addr !print_groups_from. change (str "::") with [COLON; COLON].
  rw read_groups_print; [done|lia|split; [reflexivity|done]| |].
  { intros _. destruct (0 + length hd)%nat; [reflexivity|]. intros _. reflexivity. }
  rw (proj2 (Nat.eqb_neq (length hd) 8)); [lia|]. cbn [app read_given_char]. rw Z.eqb_refl. cbn [read_given_char]. rw Z.eqb_refl.
  rw read_groups_print; [done|lia|apply Hr|intros _; by apply ends_addr_stops|]. done.
Qed.

Lemma read_plain gs rest :
  Forall is_u16 gs → length gs = 8%nat → ends_addr rest → read_ipv6_addr (print_groups gs ++ rest) = Some (groups_octets gs, rest).
Proof.
  intros Hg Hl Hr. rw /read_ipv6_addr print_groups_from read_groups_print; [done|lia|apply Hr|lia|]. by rw Hl.
Qed.

Lemma mapped_octets x y :
  groups_octets ([] ++ replicate (8 - length (@nil Z) - length [65535; x; y]) 0 ++ [65535; x; y]) =
  replicate 10 0 ++ [255; 255] ++ be_bytes 2 x ++ be_bytes 2 y.
Proof.
  rw /groups_octets. cbn [length Nat.sub replicate app map concat]. change (be_bytes 2 0) with [0; 0].
  change (be_bytes 2 65535) with [255; 255]. by rw app_nil_r.
Qed.

(** An IPv4-mapped address. *)
Lemma read_mapped o rest :
  length o = 4%nat → wf_bytes o → ends_addr rest →
  read_ipv6_addr (str "::ffff:" ++ print_ipv4 o ++ rest) = Some (replicate 10 0 ++ [255; 255] ++ o, rest).
Proof.
  intros Hl Hw [[H1 H2] H3]. rw /read_ipv6_addr. change (str "::ffff:") with ([COLON; COLON] ++ print_hex 0xffff ++ [COLON]).
  rw -!app_assoc. rw (read_groups_print [] 0 8 ([COLON; COLON] ++ print_hex 65535 ++ [COLON] ++ print_ipv4 o ++ rest));
    [constructor|simpl; lia|by split|by intros _|].
  cbn [length Nat.eqb app read_given_char]. rw Z.eqb_refl. cbn [read_given_char]. rw Z.eqb_refl.
  assert (Hend : ends_group (COLON :: print_ipv4 o ++ rest)) by (split; [reflexivity|done]).
  set (txt := COLON :: print_ipv4 o ++ rest) in Hend |- *.
  assert (Hg : read_groups 0 7 (print_hex 65535 ++ txt) = ([65535; be_val (take 2 o); be_val (drop 2 o)], true, rest)).
  { cbn [read_groups Nat.leb]. rw /read_separator group_not_ipv4; [by split|done|]. rw read_group; [by split|apply Hend|].
    rw /txt. cbn [read_given_char]. rw Z.eqb_refl. by rw read_ipv4_print; [done|done|apply no_digit_10|]. }
  change (8 - (0 + 1))%nat with 7%nat. rw Hg. f_equal. f_equal. destruct o as [|a [|b [|c [|d [|]]]]]; try discriminate Hl.
  apply Forall_cons in Hw as [Ha [Hb [Hc [Hd _]%Forall_cons]%Forall_cons]%Forall_cons].
  rw mapped_octets. cbn [take drop]. by rw !pair_value.
Qed.

Lemma read_ipv6_print o rest :
  length o = 16%nat → wf_bytes o → ends_addr rest → read_ipv6_addr (print_ipv6 o ++ rest) = Some (o, rest).
Proof.
  intros Hl Hw Hr. rw /print_ipv6. case_bool_decide as Hm.
  { rw -app_assoc read_mapped; [rw length_drop Hl //|by apply Forall_drop|done|]. by rw app_assoc -Hm take_drop. }
  destruct (segments_spec o Hw) as (Hseg & Hoct & Hlen); [exists 8%nat; lia|].
  pose proof (zero_run_spec (segments o) [] (0, 0)%nat (0, 0)%nat ltac:(by split) ltac:(by left)) as Hz. cbn [length app] in Hz.
  destruct (zero_run 0 (segments o) (0, 0)%nat (0, 0)%nat) as [start n]. destruct Hz as [Hz1 Hz2]. simpl in Hz1, Hz2.
  destruct (Nat.ltb_spec 1 n) as [Hn|_]; [|rw read_plain; [done|lia|done|by rw Hoct]].
  rw -!app_assoc read_compressed; [by apply Forall_take|by apply Forall_drop| |done|].
  { rw length_take length_drop. lia. }
  f_equal. f_equal. rw -{5}Hoct. f_equal. rw length_take length_drop.
  replace (8 - start `min` length (segments o) - (length (segments o) - (start + n)))%nat with n by lia.
  by rw -Hz2 -drop_drop take_drop take_drop.
Qed.

(** A printed socket address parses to itself; a flow label is not printed. *)
Lemma parse_print_socket a : wf_socket a →
  parse_socket_addr (print_socket_addr a) = Some (match a with SockV4 _ _ => a | SockV6 o p _ s => SockV6 o p 0 s end).
Proof.
  intros (Hip & Hport & Hfs). rw /parse_socket_addr. destruct a as [o p|o p f sc]; simpl in Hip, Hport; destruct Hip as [Hl Hw].
  - rw /read_socket_addr_v4 /print_socket_addr read_ipv4_print //. by rw read_port_print.
  - assert (Hv4 : ∀ l, read_socket_addr_v4 (str "[" ++ l) = None).
    { intros l. rw /read_socket_addr_v4 no_ipv4; [reflexivity|done]. }
    rw /print_socket_addr Hv4. rw /read_socket_addr_v6. change (str "[") with [91]. cbn [app read_given_char]. rw Z.eqb_refl.
    set (scope := if sc =? 0 then [] else str "%" ++ print_dec sc).
    rw read_ipv6_print //.
    { rw /scope. destruct (sc =? 0); by split; [split|]. }
    assert (Hscope : read_scope_id (scope ++ str "]:" ++ print_dec p) =
      if sc =? 0 then None else Some (sc, str "]:" ++ print_dec p)).
    { rw /scope. destruct (sc =? 0); [done|]. rw -app_assoc /read_scope_id. change (str "%") with [37]. cbn [app read_given_char]. rw Z.eqb_refl.
      destruct Hfs as [_ Hs]. rw /is_u32 in Hs. apply read_number_print; [lia|lia| |reflexivity|done].
      apply (Z.lt_trans _ (2 ^ 32)); [lia|reflexivity]. }
    rw Hscope. assert (Hrest : read_given_char 93 (str "]:" ++ print_dec p) = Some ((), [COLON] ++ print_dec p)) by done.
    destruct (Z.eqb_spec sc 0) as [->|_].
    + rw /scope. cbn [Z.eqb]. rw Hrest. by rw read_port_print.
    + rw Hrest. by rw read_port_print.
Qed.

(** ** Servers *)
Definition visible (l : bytes) : Prop := forallb is_visible l = true.
Lemma visible_app l k : visible l → visible k → visible (l ++ k).
Proof. rw /visible forallb_app. by intros -> ->. Qed.
Lemma visible_uint radix n : 2 ≤ radix ≤ 16 → 0 ≤ n < radix ^ 64 → visible (print_uint radix n) ∧ print_uint radix n ≠ [].
Proof.
  intros Hr Hn. destruct (print_digits_spec radix 64 n []) as (ds & Hds & E); [lia|done|lia|].
  rw app_nil_r in E. rw /print_uint E. split.
  - clear E. destruct Hds as [H _ _ _]. induction H as [|d ds Hd _ IH]; [done|]. rw /visible in IH |- *. cbn [map forallb].
    rw IH andb_true_r /is_visible /in_range /digit_char. destruct (Z.ltb_spec d 10); apply andb_true_iff; split; apply Z.leb_le; lia.
  - pose proof (dg_lead _ _ _ Hds). by destruct ds.
Qed.
Lemma visible_dec n : is_u32 n → visible (print_dec n) ∧ print_dec n ≠ [].
Proof. intros Hn. apply visible_uint; [lia|]. split; [apply Hn|]. apply (Z.lt_trans _ (2 ^ 32)); [apply Hn|reflexivity]. Qed.
Lemma visible_join sep l : visible sep → Forall visible l → visible (join_with sep l).
Proof.
  intros Hs. induction 1 as [|x l Hx Hl IH]; [done|]. destruct l as [|y l]; [done|].
  cbn [join_with]. by repeat apply visible_app.
Qed.
Lemma visible_ipv4 o : wf_bytes o → visible (print_ipv4 o).
Proof.
  intros Hw. apply visible_join; [done|]. apply Forall_map. eapply Forall_impl; [exact Hw|]. intros b Hb.
  apply visible_dec. rw /is_u32. rw /is_u8 in Hb. lia.
Qed.
Lemma visible_groups gs : Forall is_u16 gs → visible (print_groups gs).
Proof.
  intros Hw. apply visible_join; [done|]. apply Forall_map. eapply Forall_impl; [exact Hw|]. intros g Hg.
  apply visible_uint; [lia|]. split; [apply Hg|]. apply (Z.lt_trans _ (2 ^ 16)); [apply Hg|reflexivity].
Qed.
Lemma visible_ipv6 o : length o = 16%nat → wf_bytes o → visible (print_ipv6 o).
Proof.
  intros Hl Hw. rw /print_ipv6. case_bool_decide; [apply visible_app; [done|]; by apply visible_ipv4, Forall_drop|].
  destruct (segments_spec o Hw) as (Hseg & _); [exists 8%nat; lia|]. destruct (zero_run _ _ _ _) as [st n].
  destruct (Nat.ltb 1 n); [|by apply visible_groups].
  repeat apply visible_app; [by apply visible_groups, Forall_take|done|by apply visible_groups, Forall_drop].
Qed.
Lemma u16_u32 p : is_u16 p → is_u32 p.
Proof. rw /is_u16 /is_u32. lia. Qed.
Lemma visible_socket ip p : wf_ip ip → is_u16 p → visible (print_socket_addr (socket_addr_new ip p)).
Proof.
  intros Hip Hp. destruct (visible_dec p (u16_u32 p Hp)) as [Hd _]. destruct ip as [o|o]; destruct Hip as [Hl Hw]; simpl.
  - apply visible_app; [by apply visible_ipv4|]. by apply (visible_app [COLON]).
  - apply (visible_app [91]); [done|]. apply visible_app; [by apply visible_ipv6|]. by apply (visible_app (str "]:")).
Qed.

Lemma digits_val_ge ds acc : Forall (λ d, 0 ≤ d < 10) ds → 0 ≤ acc → acc ≤ digits_val 10 acc ds.
Proof.
  intros Hds. revert acc. induction Hds as [|d ds Hd _ IH]; intros acc Ha; [done|]. change (digits_val 10 acc (d :: ds)) with (digits_val 10 (acc * 10 + d) ds).
  specialize (IH (acc * 10 + d)). lia.
Qed.
Lemma parse_digits_map max ds acc :
  Forall (λ d, 0 ≤ d < 10) ds → 0 ≤ acc → digits_val 10 acc ds ≤ max →
  parse_digits max acc (map digit_char ds) = Some (digits_val 10 acc ds).
Proof.
  intros Hds. revert acc. induction Hds as [|d ds Hd Hds IH]; intros acc Ha Hmax; [done|]. cbn [map parse_digits].
  assert (is_digit (digit_char d) = true ∧ digit_char d - 48 = d) as [-> ->].
  { rw /is_digit /in_range /digit_char. destruct (Z.ltb_spec d 10); [|lia]. split; [apply andb_true_iff; split; apply Z.leb_le; lia|lia]. }
  change (digits_val 10 acc (d :: ds)) with (digits_val 10 (acc * 10 + d) ds) in Hmax |- *.
  pose proof (digits_val_ge ds (acc * 10 + d) Hds ltac:(lia)). rw (proj2 (Z.leb_le _ max)); [lia|]. apply IH; lia.
Qed.
Lemma parse_u16_print p : is_u16 p → parse_u16 (print_dec p) = Some p.
Proof.
  intros Hp. destruct (print_digits_spec 10 64 p []) as (ds & Hds & E); [lia|split; [apply Hp|]|lia|].
  { apply (Z.lt_trans _ (2 ^ 16)); [apply Hp|reflexivity]. }
  rw app_nil_r in E. rw /print_dec /print_uint E. clear E. rw /is_u16 in Hp.
  pose proof (parse_digits_map (2 ^ 16 - 1) ds 0 (dg_range _ _ _ Hds) ltac:(lia)) as H. rw (dg_val _ _ _ Hds) in H. specialize (H ltac:(lia)).
  pose proof (dg_lead _ _ _ Hds) as Hl. pose proof (dg_range _ _ _ Hds) as Hr. destruct ds as [|d ds]; [done|]. apply Forall_cons in Hr as [Hd _].
  rw /parse_u16 /parse_uint. cbn [map] in H |- *. assert ((digit_char d =? 43) = false) as ->; [|done].
  apply Z.eqb_neq. rw /digit_char. destruct (Z.ltb_spec d 10); lia.
Qed.

(** A server as configured: an IP address, or a host name of visible characters
    whose text does not read as a socket address. *)
Definition valid_server (s : ServerAddr) : Prop :=
  is_u16 (server_port s) ∧
  match server_host s with
  | HostIp ip => wf_ip ip
  | HostDomain d => d ≠ [] ∧ visible d ∧ (COLON ∉ d) ∧ parse_socket_addr (server_to_string s) = None
  end.

Lemma visible_no_ws l : visible l → contains_ws l = false.
Proof.
  induction l as [|b l IH]; [done|]. rw /visible. cbn [forallb]. intros [Hb Hl]%andb_prop. cbn [contains_ws].
  rw ws_head_visible //. by apply IH.
Qed.

Lemma dec_no_colon p : is_u16 p → COLON ∉ print_dec p.
Proof.
  intros Hp. destruct (print_digits_spec 10 64 p []) as (ds & Hds & E); [lia|split; [apply Hp|]|lia|].
  { apply (Z.lt_trans _ (2 ^ 16)); [apply Hp|reflexivity]. }
  rw app_nil_r in E. rw /print_dec /print_uint E. intros (d & Hd & Hin)%list_elem_of_fmap.
  pose proof (proj1 (Forall_forall _ _) (dg_range _ _ _ Hds) d Hin). rw /digit_char /COLON in Hd. destruct (Z.ltb_spec d 10); lia.
Qed.
Lemma server_text_visible s : valid_server s → visible (server_to_string s) ∧ server_to_string s ≠ [].
Proof.
  destruct s as [host port]. intros [Hp Hh]. simpl in Hp, Hh. destruct (visible_dec port (u16_u32 port Hp)) as [Hd _].
  destruct host as [ip|d].
  - split; [by apply visible_socket|]. destruct ip as [o|o]; [|done]. simpl. intros E%app_eq_nil. by destruct E as [_ E].
  - destruct Hh as (Hne & Hv & _). split; [apply visible_app; [done|]; by apply (visible_app [COLON])|].
    intros E%app_eq_nil. by destruct E as [E _].
Qed.

(** C28: Server addresses round-trip: the text [Display] prints for a server, be
    it an IPv4 or IPv6 address, compressed, IPv4-mapped or not, or a host name,
    is read back by [FromStr] as the same server. *)
Theorem server_roundtrip s : valid_server s → server_from_str (server_to_string s) = Ok s.
Proof.
  intros Hs. destruct (server_text_visible s Hs) as [Hv Hne]. destruct s as [host port], Hs as [Hp Hh]. simpl in Hp, Hh.
  rw /server_from_str ensure_then; [by rw /str_eqb bool_decide_false|].
  rw ensure_then; [rw /str_eqb trim_all_visible // bool_decide_true //|]. destruct host as [ip|d].
  - rw /server_to_string /=. rw parse_print_socket; [|by destruct ip].
    by destruct ip; (split; [done|split; [done|]]).
  - destruct Hh as (Hd & Hvd & Hc & Hno). rw Hno. rw /server_to_string /=.
    destruct (visible_dec port (u16_u32 port Hp)) as [_ Hpe].
    rw rsplit_once_app; [by apply dec_no_colon|]. cbn [context mbind Result_bind].
    rw ensure_then; [by rw /str_eqb bool_decide_false|]. rw ensure_then; [by rw /str_eqb bool_decide_false|].
    rw ensure_then; [by rw (proj2 (contains_false _ _) Hc)|]. rw ensure_then; [by rw visible_no_ws|].
    by rw parse_u16_print.
Qed.

(** [[2001:db8::1]:443] and [proxy.example.com:443]. *)
Lemma server_roundtrip_witness :
  server_from_str (server_to_string (MkServerAddr (HostIp (V6 ([32; 1; 13; 184] ++ replicate 11 0 ++ [1]))) 443)) =
    Ok (MkServerAddr (HostIp (V6 ([32; 1; 13; 184] ++ replicate 11 0 ++ [1]))) 443) ∧
  server_from_str (server_to_string (MkServerAddr (HostDomain (str "proxy.example.com")) 443)) =
    Ok (MkServerAddr (HostDomain (str "proxy.example.com")) 443).
Proof.
  split; apply server_roundtrip; (split; [by_decide|]).
  - by_decide.
  - split; [done|]. split; [reflexivity|]. split; [by_decide|]. reflexivity.
Defined.

(** A port with a sign is refused by the socket-address parser and accepted by
    the host-name branch: the IP address becomes a name to resolve. *)
Example signed_port_is_domain :
  server_from_str (str "1.2.3.4:+443") = Ok (MkServerAddr (HostDomain (str "1.2.3.4")) 443).
Proof. reflexivity. Qed.
