(* ===== verification/AcmePaths.v ===== *)
(** * ACME: where certificates are kept (src/acme.rs)

    The names of the cache directories, the directory of a CA, the target of a
    list of domains and the rewriting of the configuration. SHA-256 and the URLs
    of Let's Encrypt come from libraries and are parameters. *)
From stdpp Require Import sorting.
From S2P Require Import Prelude Text Net Config.

Definition CERT_FILE : bytes := str "cert.pem".
Definition KEY_FILE : bytes := str "key.pem".
Definition UNDERSCORE : Z := 95.
Definition SLASH : Z := 47.
Definition DOT : Z := 46.

(** ** Slugs *)
Definition slug_char (ch : Z) : Z :=
  if is_ascii_alphanumeric ch || contains ch (str ".-_") then ascii_lower ch else UNDERSCORE.

(** [input.chars().map(..)]: a character of a string has exactly one byte that
    is not a continuation byte, its first. *)
Definition slug_chars (input : bytes) : bytes :=
  map slug_char (List.filter (λ b, negb (is_cont b)) input).

(** [slug.contains("__")] and [slug.replace("__", "_")] *)
Fixpoint has_double (l : bytes) : bool :=
  match l with
  | a :: ((b :: _) as t) => ((a =? UNDERSCORE) && (b =? UNDERSCORE)) || has_double t
  | _ => false
  end.
Fixpoint replace_double (l : bytes) : bytes :=
  match l with
  | a :: ((b :: r) as t) =>
      if (a =? UNDERSCORE) && (b =? UNDERSCORE) then UNDERSCORE :: replace_double r
      else a :: replace_double t
  | l => l
  end.

(** [while slug.contains("__") { slug = slug.replace("__", "_") }] *)
Fixpoint collapse (fuel : nat) (slug : bytes) : bytes :=
  match fuel with
  | O => slug
  | S fuel => if has_double slug then collapse fuel (replace_double slug) else slug
  end.

(** [slug.trim_matches('_')] *)
Fixpoint trim_start_matches (c : Z) (l : bytes) : bytes :=
  match l with
  | b :: r => if b =? c then trim_start_matches c r else l
  | [] => []
  end.
Definition trim_matches (c : Z) (l : bytes) : bytes :=
  rev (trim_start_matches c (rev (trim_start_matches c l))).

(** [hex::encode] *)
Definition hex_char (n : Z) : Z := if n <? 10 then 48 + n else 87 + n.
Definition hex_encode (l : bytes) : bytes := concat (map (λ b, [hex_char (b / 16); hex_char (b mod 16)]) l).

(** ** Paths: a [PathBuf] as its text *)
Definition path_join (base p : bytes) : bytes :=
  if starts_with [SLASH] p then p
  else match last base with
       | None => p
       | Some b => if b =? SLASH then base ++ p else base ++ [SLASH] ++ p
       end.

Record AcmeTarget := MkAcmeTarget {
  target_domains : list bytes;
  target_dir : bytes;
  cert_path : bytes;
  key_path : bytes;
}.

(** ** [Vec<String>::sort] and [dedup] *)
Fixpoint bytes_leb (a b : bytes) : bool :=
  match a, b with
  | [], _ => true
  | _ :: _, [] => false
  | x :: a, y :: b => (x <? y) || ((x =? y) && bytes_leb a b)
  end.
Definition bytes_le (a b : bytes) : Prop := bytes_leb a b = true.
#[global] Instance bytes_le_dec a b : Decision (bytes_le a b).
Proof. unfold bytes_le; apply _. Defined.
Definition sort_domains (l : list bytes) : list bytes := merge_sort bytes_le l.
Fixpoint dedup (l : list bytes) : list bytes :=
  match l with
  | a :: ((b :: _) as t) => if bool_decide (a = b) then dedup t else a :: dedup t
  | l => l
  end.

Section paths.
Variable sha256 : bytes → bytes.
Variables staging_url production_url : bytes.

Definition stable_slug (input : bytes) : bytes :=
  let slug := slug_chars input in
  let slug := collapse (length slug) slug in
  let slug := trim_matches UNDERSCORE slug in
  let slug := if bool_decide (slug = []) then str "default" else slug in
  if len slug <=? 120 then slug
  else take 96 slug ++ str "-" ++ hex_encode (take 8 (sha256 input)).

Definition domain_slug (domains : list bytes) : bytes := stable_slug (join (str "_") domains).

Definition is_staging (alias : bytes) : bool :=
  existsb (str_eqb alias) [str "letsencrypt-staging"; str "letsencrypt_staging"; str "staging"].
Definition is_production (alias : bytes) : bool :=
  existsb (str_eqb alias) [str "letsencrypt-production"; str "letsencrypt_production"; str "production"].

Definition directory_slug (directory : bytes) : bytes :=
  let alias := to_ascii_lowercase (trim directory) in
  if is_staging alias then str "letsencrypt-staging"
  else if is_production alias then str "letsencrypt-production"
  else stable_slug directory.

Definition directory_url (raw : bytes) : Result bytes :=
  let alias := to_ascii_lowercase (trim raw) in
  if is_staging alias then Ok staging_url
  else if is_production alias then Ok production_url
  else if starts_with (str "https://") raw || starts_with (str "http://") raw then Ok raw
  else Err (EMsg "unsupported ACME directory").

Definition target_for_domains (acme_cfg : AcmeConfig) (domains : list bytes) : Result AcmeTarget :=
  let slug := domain_slug domains in
  directory ← directory_url (directory acme_cfg);
  let namespace := hex_encode (sha256 directory) in
  let dir := path_join (path_join (path_join (cache_dir acme_cfg) (str "certificates")) namespace) slug in
  Ok (MkAcmeTarget domains dir (path_join dir CERT_FILE) (path_join dir KEY_FILE)).

(** ** Configuring the inbounds *)
Definition set_in_tls (t : TlsServerConfig) (i : InboundConfig) : InboundConfig :=
  MkInbound (in_tag i) (listen i) (in_protocol i) (users i) (padding_scheme i) (fallback i) (Some t).
Definition set_inbounds (ibs : list InboundConfig) (c : Config) : Config :=
  MkConfig (log_level c) (acme c) ibs (outbounds c) (routing c).

(** One round of the loop; the map is keyed by the sorted domains. *)
Definition configure_inbound (acme_cfg : AcmeConfig) (targets_by_domains : gmap (list bytes) AcmeTarget) (inbound : InboundConfig)
  : Result (gmap (list bytes) AcmeTarget * InboundConfig) :=
  match in_tls inbound with
  | None => Ok (targets_by_domains, inbound)
  | Some tls =>
      match tls_acme tls with
      | None => Ok (targets_by_domains, inbound)
      | Some acme =>
          let domains := dedup (sort_domains (domains acme)) in
          fresh ← target_for_domains acme_cfg domains;
          let target := default fresh (targets_by_domains !! domains) in
          Ok (<[domains := target]> targets_by_domains,
              set_in_tls (MkTls (Some (cert_path target)) (Some (key_path target)) (Some (MkTlsAcme domains))) inbound)
      end
  end.

Fixpoint configure_inbounds (acme_cfg : AcmeConfig) (m : gmap (list bytes) AcmeTarget) (ibs : list InboundConfig)
  : Result (gmap (list bytes) AcmeTarget * list InboundConfig) :=
  match ibs with
  | [] => Ok (m, [])
  | i :: ibs =>
      x ← configure_inbound acme_cfg m i;
      y ← configure_inbounds acme_cfg x.1 ibs;
      Ok (y.1, x.2 :: y.2)
  end.

(** [hash_values] is the order in which the hash map gives its values. *)
Definition configure_targets (hash_values : gmap (list bytes) AcmeTarget → list AcmeTarget)
    (config : Config) (acme_cfg : AcmeConfig) : Result (list AcmeTarget * Config) :=
  x ← configure_inbounds acme_cfg ∅ (inbounds config);
  Ok (hash_values x.1, set_inbounds x.2 config).
End paths.

(** ** Slugs are safe file names *)

(** Runs of the underscore as one: what the loop computes. *)
Fixpoint squeeze (l : bytes) : bytes :=
  match l with
  | a :: ((b :: _) as t) => if (a =? UNDERSCORE) && (b =? UNDERSCORE) then squeeze t else a :: squeeze t
  | l => l
  end.

Lemma two_step_ind (P : bytes → Prop) :
  P [] → (∀ a, P [a]) → (∀ a b r, P r → P (b :: r) → P (a :: b :: r)) → ∀ l, P l.
Proof.
  intros H0 H1 H2 l. enough (P l ∧ ∀ a, P (a :: l)) by tauto.
  induction l as [|b r [IH1 IH2]]; [done|]. split; [apply IH2|]. intros a. by apply H2.
Qed.

Lemma squeeze_double a b r :
  squeeze (a :: b :: r) = if (a =? UNDERSCORE) && (b =? UNDERSCORE) then squeeze (b :: r) else a :: squeeze (b :: r).
Proof. done. Qed.

Lemma replace_cons a b r :
  replace_double (a :: b :: r) =
  if (a =? UNDERSCORE) && (b =? UNDERSCORE) then UNDERSCORE :: replace_double r else a :: replace_double (b :: r).
Proof. done. Qed.
Lemma has_double_cons a b r :
  has_double (a :: b :: r) = ((a =? UNDERSCORE) && (b =? UNDERSCORE)) || has_double (b :: r).
Proof. done. Qed.

Lemma squeeze_cons a l k : squeeze l = squeeze k → head l = head k → squeeze (a :: l) = squeeze (a :: k).
Proof.
  destruct l as [|x l], k as [|y k]; simpl; [done..|]. intros H1 [= ->]. by rw H1.
Qed.
Lemma head_replace l : head (replace_double l) = head l.
Proof.
  destruct l as [|a [|b r]]; [done..|]. cbn [replace_double].
  destruct (a =? UNDERSCORE) eqn:Ha; [|done]. destruct (b =? UNDERSCORE); simpl; [|done]. by apply Z.eqb_eq in Ha as ->.
Qed.
Lemma squeeze_replace l : squeeze (replace_double l) = squeeze l.
Proof.
  induction l as [|a|a b r IHr IHb] using two_step_ind; [done..|]. rw replace_cons squeeze_double.
  destruct ((a =? UNDERSCORE) && (b =? UNDERSCORE)) eqn:E.
  - apply andb_prop in E as [Ha Hb]. apply Z.eqb_eq in Hb as ->. apply squeeze_cons; [done|apply head_replace].
  - trans (squeeze (a :: b :: r)); [apply squeeze_cons; [done|apply (head_replace (b :: r))]|]. by rw squeeze_double E.
Qed.
Lemma replace_shorter l : (length (replace_double l) ≤ length l)%nat ∧
  (has_double l = true → (length (replace_double l) < length l)%nat).
Proof.
  induction l as [|a|a b r [IHr _] [IHb1 IHb2]] using two_step_ind; [done..|]. rw replace_cons has_double_cons.
  destruct ((a =? UNDERSCORE) && (b =? UNDERSCORE)); cbn [orb].
  - cbn [length] in IHr |- *. lia.
  - cbn [length]. change (length (b :: r)) with (S (length r)) in IHb1, IHb2.
    split; [lia|]. intros H. specialize (IHb2 H). lia.
Qed.
Lemma squeeze_single l : has_double l = false → squeeze l = l.
Proof.
  induction l as [|a|a b r _ IHb] using two_step_ind; [done..|]. rw has_double_cons.
  intros [H1 H2]%orb_false_iff. by rw squeeze_double H1 IHb.
Qed.
Lemma collapse_squeeze fuel l : (length l ≤ fuel)%nat → collapse fuel l = squeeze l.
Proof.
  revert l. induction fuel as [|fuel IH]; intros l Hl; simpl.
  { by destruct l; simpl in Hl; [|lia]. }
  destruct (has_double l) eqn:E; [|by rw squeeze_single].
  destruct (replace_shorter l) as [_ H]. specialize (H E). rw IH; [lia|]. apply squeeze_replace.
Qed.

Definition slug_ok (b : Z) : bool := in_range 48 57 b || in_range 97 122 b || contains b (str ".-_").

Lemma slug_char_ok ch : is_u8 ch → slug_ok (slug_char ch) = true.
Proof.
  intros H. assert (Hall : Forall (λ b, slug_ok (slug_char b) = true) (seqZ 0 256)) by by_decide.
  apply (proj1 (Forall_forall _ _) Hall), elem_of_seqZ. rw /is_u8 in H. lia.
Qed.
Lemma hex_char_ok n : 0 ≤ n < 16 → slug_ok (hex_char n) = true.
Proof.
  intros H. assert (Hall : Forall (λ n, slug_ok (hex_char n) = true) (seqZ 0 16)) by by_decide.
  apply (proj1 (Forall_forall _ _) Hall), elem_of_seqZ. lia.
Qed.

Definition all_slug (l : bytes) : Prop := Forall (λ b, slug_ok b = true) l.

Lemma slug_chars_ok input : wf_bytes input → all_slug (slug_chars input).
Proof.
  intros H. rw /slug_chars /all_slug. apply Forall_map, Forall_forall. intros x Hx.
  apply list_elem_of_In, filter_In in Hx as [Hx _]. apply slug_char_ok. rw /wf_bytes Forall_forall in H.
  apply H. by apply list_elem_of_In.
Qed.
Lemma squeeze_ok l : all_slug l → all_slug (squeeze l).
Proof.
  induction l as [|a|a b r _ IHb] using two_step_ind; [done..|]. intros [Ha Hl]%Forall_cons. rw squeeze_double.
  case_match; [by apply IHb|]. constructor; [done|]. by apply IHb.
Qed.
Lemma trim_start_matches_ok c l : all_slug l → all_slug (trim_start_matches c l).
Proof. induction 1 as [|b r Hb Hr IH]; simpl; [by constructor|]. case_match; [done|]. by constructor. Qed.
Lemma trim_matches_ok c l : all_slug l → all_slug (trim_matches c l).
Proof. intros H. apply Forall_rev, trim_start_matches_ok, Forall_rev. by apply trim_start_matches_ok. Qed.
Lemma hex_encode_ok l : wf_bytes l → all_slug (hex_encode l).
Proof.
  induction 1 as [|b l Hb Hl IH]; [by constructor|]. rw /hex_encode /=. rw /is_u8 in Hb.
  constructor; [|constructor; [|exact IH]]; apply hex_char_ok.
  - split; [apply Z.div_pos; lia|apply Z.div_lt_upper_bound; lia].
  - apply Z.mod_pos_bound. lia.
Qed.
Lemma hex_encode_length l : length (hex_encode l) = (2 * length l)%nat.
Proof. induction l as [|b l IH]; [done|]. rw /hex_encode /= in IH |- *. rw IH. lia. Qed.

Lemma stable_slug_ok sha256 input :
  wf_bytes input → wf_bytes (sha256 input) → length (sha256 input) = 32%nat →
  all_slug (stable_slug sha256 input) ∧ 0 < len (stable_slug sha256 input) ≤ 120 ∧
  collapse (length (slug_chars input)) (slug_chars input) = squeeze (slug_chars input).
Proof.
  intros Hi Hd Hl. assert (Hc := collapse_squeeze _ (slug_chars input) (le_n _)).
  assert (Hok : all_slug (trim_matches UNDERSCORE (squeeze (slug_chars input))))
    by by apply trim_matches_ok, squeeze_ok, slug_chars_ok.
  split; [|split; [|done]]; rw /stable_slug Hc; set (s := if bool_decide (trim_matches _ _ = []) then _ else _);
    assert (Hs : all_slug s ∧ s ≠ []) by (rw /s; case_bool_decide; [split; [by_decide|done]|done]); destruct Hs as [Hs Hne].
  - case_match; [done|]. apply Forall_app. split; [by apply Forall_take|]. constructor; [done|].
    by apply hex_encode_ok, Forall_take.
  - case_match eqn:E.
    + simp_bool. split; [|done]. clearbody s. destruct s as [|b r]; [done|]. rw len_cons. pose proof (len_nonneg r). lia.
    + simp_bool. rw /len in E |- *. rw !length_app length_take hex_encode_length length_take Hl. change (length (str "-")) with 1%nat. lia.
Qed.

(** Cache names are safe file names: whatever domains or directory they are
    made of, they consist of lower-case letters, digits, dots, hyphens and
    underscores, are not empty and have at most 120 characters; the loop that
    replaces double underscores ends within the model's bound, and computes the
    text with every run of underscores as one. *)
Lemma stable_slug_safe sha256 input :
  wf_bytes input → wf_bytes (sha256 input) → length (sha256 input) = 32%nat →
  all_slug (stable_slug sha256 input) ∧ 0 < len (stable_slug sha256 input) ≤ 120 ∧
  collapse (length (slug_chars input)) (slug_chars input) = squeeze (slug_chars input).
Proof. apply stable_slug_ok. Qed.

Lemma stable_slug_safe_witness :
  let sha256 := λ _ : bytes, repeat 255 32 in
  all_slug (stable_slug sha256 (str "Proxy__Example.COM/")) ∧
  0 < len (stable_slug sha256 (str "Proxy__Example.COM/")) ≤ 120 ∧
  collapse (length (slug_chars (str "Proxy__Example.COM/"))) (slug_chars (str "Proxy__Example.COM/")) =
    squeeze (slug_chars (str "Proxy__Example.COM/")).
Proof. apply (stable_slug_safe (λ _, repeat 255 32)); by_decide. Defined.

(** ** Which targets the inbounds get *)
Lemma bytes_leb_refl a : bytes_leb a a = true.
Proof. induction a as [|x a IH]; simpl; [done|]. by rw Z.eqb_refl IH orb_true_r. Qed.
#[global] Instance bytes_le_total : Total bytes_le.
Proof.
  rw /bytes_le. intros a. induction a as [|x a IH]; intros [|y b]; simpl; [by left|by left|by right|].
  destruct (Z.ltb_spec x y), (Z.ltb_spec y x); simpl; [by left..|by right|].
  assert (x = y) as -> by lia. rw Z.eqb_refl /=. apply IH.
Qed.
#[global] Instance bytes_le_trans : Transitive bytes_le.
Proof.
  rw /bytes_le. intros a. induction a as [|x a IH]; intros [|y b] [|z c]; simpl; try done.
  intros [H1|[H1 H1']%andb_prop]%orb_prop [H2|[H2 H2']%andb_prop]%orb_prop; simp_bool; apply orb_true_iff.
  1-3: left; apply Z.ltb_lt; lia.
  right. apply andb_true_iff. split; [apply Z.eqb_eq; lia|]. by eapply IH.
Qed.
Lemma bytes_le_antisym a b : bytes_le a b → bytes_le b a → a = b.
Proof.
  rw /bytes_le. revert b. induction a as [|x a IH]; intros [|y b]; simpl; try done.
  intros [H1|[H1 H1']%andb_prop]%orb_prop [H2|[H2 H2']%andb_prop]%orb_prop; simp_bool; try lia.
  subst. f_equal. by apply IH.
Qed.

Lemma dedup_elem x l : x ∈ dedup l ↔ x ∈ l.
Proof.
  induction l as [|a [|b t] IH]; [done..|]. change (dedup (a :: b :: t)) with (if bool_decide (a = b) then dedup (b :: t) else a :: dedup (b :: t)).
  case_bool_decide as H; [subst; rw IH; set_solver|]. rw !elem_of_cons IH. set_solver.
Qed.
Lemma dedup_NoDup l : StronglySorted bytes_le l → NoDup (dedup l).
Proof.
  induction 1 as [|a l Hl IH Ha]; [constructor|]. destruct l as [|b t]; [by apply NoDup_singleton|].
  change (dedup (a :: b :: t)) with (if bool_decide (a = b) then dedup (b :: t) else a :: dedup (b :: t)).
  case_bool_decide as H; [done|]. constructor; [|done]. rw dedup_elem. intros Hin.
  apply Forall_cons in Ha as [Hab _]. apply StronglySorted_inv in Hl as [_ Hb].
  apply H. apply elem_of_cons in Hin as [?|Hin]; [done|].
  rw Forall_forall in Hb. apply bytes_le_antisym; [done|]. by apply Hb.
Qed.

Definition acme_of (i : InboundConfig) : option TlsAcmeConfig := tls ← in_tls i; tls_acme tls.
Definition canonical (ds : list bytes) : list bytes := dedup (sort_domains ds).

#[global] Instance bytes_le_anti : AntiSymm (=) bytes_le.
Proof. intros a b. apply bytes_le_antisym. Qed.
Lemma dedup_sorted l : StronglySorted bytes_le l → StronglySorted bytes_le (dedup l).
Proof.
  induction 1 as [|a l Hl IH Ha]; [constructor|]. destruct l as [|b t]; [by repeat constructor|].
  change (dedup (a :: b :: t)) with (if bool_decide (a = b) then dedup (b :: t) else a :: dedup (b :: t)).
  case_bool_decide as H; [done|]. constructor; [done|]. apply Forall_forall. intros x Hx. rw dedup_elem in Hx.
  rw Forall_forall in Ha. by apply Ha.
Qed.
Lemma canonical_elem d ds : d ∈ canonical ds ↔ d ∈ ds.
Proof. rw /canonical dedup_elem /sort_domains. by rw merge_sort_Permutation. Qed.
Lemma canonical_sorted ds : StronglySorted bytes_le (canonical ds) ∧ NoDup (canonical ds).
Proof. pose proof (StronglySorted_merge_sort bytes_le ds) as H. split; [by apply dedup_sorted|by apply dedup_NoDup]. Qed.
Lemma canonical_unique ds1 ds2 : (∀ d, d ∈ ds1 ↔ d ∈ ds2) → canonical ds1 = canonical ds2.
Proof.
  intros H. destruct (canonical_sorted ds1) as [S1 N1], (canonical_sorted ds2) as [S2 N2].
  apply (StronglySorted_unique bytes_le); [done..|]. apply NoDup_Permutation; [done..|].
  intros d. by rw !canonical_elem.
Qed.

Section targets.
Variable sha256 : bytes → bytes.
Variables staging_url production_url : bytes.
Variable cfg : AcmeConfig.
Local Abbreviation target_for := (target_for_domains sha256 staging_url production_url cfg).
Local Abbreviation configure := (configure_inbounds sha256 staging_url production_url cfg).
Implicit Type m : gmap (list bytes) AcmeTarget.

(** The map holds the target of its key, and its keys come from inbounds. *)
Definition keyed m : Prop := ∀ ds t, m !! ds = Some t → target_for ds = Ok t.
Definition sourced (l : list InboundConfig) m : Prop :=
  ∀ ds t, m !! ds = Some t → ∃ i a, i ∈ l ∧ acme_of i = Some a ∧ ds = canonical (domains a).
Definition tls_of (t : AcmeTarget) : TlsServerConfig :=
  MkTls (Some (cert_path t)) (Some (key_path t)) (Some (MkTlsAcme (target_domains t))).
Definition configured m (i i' : InboundConfig) : Prop :=
  match acme_of i with
  | None => i' = i
  | Some a => ∃ t, m !! canonical (domains a) = Some t ∧ i' = set_in_tls (tls_of t) i
  end.

Lemma target_for_domains_key ds t : target_for ds = Ok t → target_domains t = ds.
Proof. rw /target_for_domains. by intros (u & _ & [= <-])%Result_bind_inv. Qed.
Lemma configured_mono m m' i i' : m ⊆ m' → configured m i i' → configured m' i i'.
Proof.
  rw /configured. intros Hm. destruct (acme_of i) as [a|]; [|done]. intros (t & Ht & ->). exists t. split; [|done].
  by eapply lookup_weaken.
Qed.

Lemma configure_inbound_spec m i m' i' :
  keyed m → configure_inbound sha256 staging_url production_url cfg m i = Ok (m', i') →
  keyed m' ∧ m ⊆ m' ∧ configured m' i i' ∧
  (∀ ds t, m' !! ds = Some t → m !! ds = Some t ∨ ∃ a, acme_of i = Some a ∧ ds = canonical (domains a)).
Proof.
  intros Hk. rw /configure_inbound /configured /acme_of.
  destruct (in_tls i) as [tls|]; [|intros [= <- <-]; split_and!; [done..|by intros; left]].
  destruct (tls_acme tls) as [a|] eqn:Ha; [|intros [= <- <-]; simpl; rw Ha; split_and!; [done..|by intros; left]].
  simpl. rw Ha. fold (canonical (domains a)). set (ds := canonical (domains a)). intros (fresh & Hf & [= <- <-])%Result_bind_inv.
  set (t := default fresh (m !! ds)). assert (Ht : target_for ds = Ok t).
  { rw /t. destruct (m !! ds) eqn:E; simpl; [by apply Hk|done]. }
  assert (Hsub : m ⊆ <[ds := t]> m).
  { destruct (m !! ds) as [t'|] eqn:E; [|by apply insert_subseteq]. by rw /t /= insert_id. }
  split_and!; [|done| |].
  - intros ds' t' [[<- <-]|[_ H]]%lookup_insert_Some; [done|by apply Hk].
  - exists t. split; [apply lookup_insert_eq|]. by rw /tls_of (target_for_domains_key _ _ Ht).
  - intros ds' t' [[<- <-]|[_ H]]%lookup_insert_Some; [right; by exists a|by left].
Qed.

Lemma configure_inbounds_spec m l m' l' :
  keyed m → configure m l = Ok (m', l') →
  keyed m' ∧ m ⊆ m' ∧ Forall2 (configured m') l l' ∧
  (∀ ds t, m' !! ds = Some t → m !! ds = Some t ∨ ∃ i a, i ∈ l ∧ acme_of i = Some a ∧ ds = canonical (domains a)).
Proof.
  revert m l'. induction l as [|i l IH]; intros m l' Hk; simpl; [intros [= <- <-]; split_and!; [done|done|constructor|by intros; left]|].
  intros ([m1 i'] & H1 & ([m2 l2] & H2 & [= <- <-])%Result_bind_inv)%Result_bind_inv. simpl in *.
  destruct (configure_inbound_spec _ _ _ _ Hk H1) as (Hk1 & Hs1 & Hc1 & Hn1).
  destruct (IH _ _ Hk1 H2) as (Hk2 & Hs2 & Hc2 & Hn2).
  split_and!; [done|by etrans| |].
  - constructor; [|done]. by eapply configured_mono.
  - intros ds t [Hm|(j & a & Hj & Ha)]%Hn2; [|right; exists j, a; split; [by right|done]].
    apply Hn1 in Hm as [?|(a & Ha)]; [by left|]. right. exists i, a. split; [by left|done].
Qed.

Lemma configure_targets_spec hash_values c ts c' :
  (∀ m, hash_values m ≡ₚ (map_to_list m).*2) →
  configure_targets sha256 staging_url production_url hash_values c cfg = Ok (ts, c') →
  c' = set_inbounds (inbounds c') c ∧
  Forall2 (λ i i', match acme_of i with
    | None => i' = i
    | Some a => ∃ t, t ∈ ts ∧ (∀ d, d ∈ target_domains t ↔ d ∈ domains a) ∧ i' = set_in_tls (tls_of t) i
    end) (inbounds c) (inbounds c') ∧
  (∀ t, t ∈ ts → target_for (target_domains t) = Ok t ∧ NoDup (target_domains t) ∧
    ∃ i a, i ∈ inbounds c ∧ acme_of i = Some a ∧ ∀ d, d ∈ target_domains t ↔ d ∈ domains a) ∧
  NoDup ts ∧
  ∀ t1 t2, t1 ∈ ts → t2 ∈ ts → (∀ d, d ∈ target_domains t1 ↔ d ∈ target_domains t2) → t1 = t2.
Proof.
  intros Hhv ([m l'] & Hc & [= <- <-])%Result_bind_inv. simpl in *.
  assert (Hk0 : keyed ∅) by (intros ds t; by rw lookup_empty).
  destruct (configure_inbounds_spec _ _ _ _ Hk0 Hc) as (Hk & _ & Hl & Hn).
  assert (Hin : ∀ t, t ∈ hash_values m ↔ m !! target_domains t = Some t).
  { intros t. rw Hhv list_elem_of_fmap. split.
    - intros ([ds t'] & -> & Ht%elem_of_map_to_list). simpl. by rw (target_for_domains_key _ _ (Hk _ _ Ht)).
    - intros Ht. exists (target_domains t, t). split; [done|]. by apply elem_of_map_to_list. }
  assert (Hcan : ∀ t, t ∈ hash_values m → ∃ i a, i ∈ inbounds c ∧ acme_of i = Some a ∧ target_domains t = canonical (domains a)).
  { intros t Ht%Hin. destruct (Hn _ _ Ht) as [H|H]; [by rw lookup_empty in H|done]. }
  split_and!; [done| | |  |].
  - eapply Forall2_impl; [exact Hl|]. intros i i'. rw /configured. destruct (acme_of i) as [a|]; [|done].
    intros (t & Ht & ->). pose proof (target_for_domains_key _ _ (Hk _ _ Ht)) as Hd. exists t.
    split_and!; [by apply Hin; rw Hd| |done]. intros d. by rw Hd canonical_elem.
  - intros t Ht. destruct (Hcan t Ht) as (i & a & Hi & Ha & Hd).
    split; [by apply Hk, Hin|]. split; [rw Hd; apply canonical_sorted|]. exists i, a. split_and!; [done..|].
    intros d. by rw Hd canonical_elem.
  - rw Hhv. apply (NoDup_fmap_1 target_domains). rw -list_fmap_compose.
    rw (list_fmap_ext _ fst (map_to_list m)).
    { intros n [ds t] Hx. apply list_elem_of_lookup_2, elem_of_map_to_list in Hx. by apply target_for_domains_key, Hk. }
    apply NoDup_fst_map_to_list.
  - intros t1 t2 H1 H2 Heq. destruct (Hcan t1 H1) as (? & a1 & _ & _ & D1), (Hcan t2 H2) as (? & a2 & _ & _ & D2).
    apply Hin in H1, H2. assert (target_domains t1 = target_domains t2) as E; [|rw E H2 in H1; by injection H1].
    rw D1 D2. apply canonical_unique. intros d. rw -(canonical_elem d (domains a1)) -(canonical_elem d (domains a2)) -D1 -D2. apply Heq.
Qed.

(** C40: ACME targets cover the configuration. Every inbound that asks for ACME
    is given the certificate and key paths of a target for exactly its set of
    domains, all other inbounds and the rest of the configuration are kept, every
    target is asked for by an inbound, and two targets with the same domains are
    the same target: each certificate is obtained once. *)
Theorem configure_targets_ok hash_values c ts c' :
  (∀ m, hash_values m ≡ₚ (map_to_list m).*2) →
  configure_targets sha256 staging_url production_url hash_values c cfg = Ok (ts, c') →
  c' = set_inbounds (inbounds c') c ∧
  Forall2 (λ i i', match acme_of i with
    | None => i' = i
    | Some a => ∃ t, t ∈ ts ∧ (∀ d, d ∈ target_domains t ↔ d ∈ domains a) ∧ i' = set_in_tls (tls_of t) i
    end) (inbounds c) (inbounds c') ∧
  (∀ t, t ∈ ts → target_for (target_domains t) = Ok t ∧ NoDup (target_domains t) ∧
    ∃ i a, i ∈ inbounds c ∧ acme_of i = Some a ∧ ∀ d, d ∈ target_domains t ↔ d ∈ domains a) ∧
  NoDup ts ∧
  ∀ t1 t2, t1 ∈ ts → t2 ∈ ts → (∀ d, d ∈ target_domains t1 ↔ d ∈ target_domains t2) → t1 = t2.
Proof. apply configure_targets_spec. Qed.
End targets.

(** ** The cache keeps certificate authorities apart *)
Definition path_base (base : bytes) : bytes :=
  match last base with None => [] | Some b => if b =? SLASH then base else base ++ [SLASH] end.
Lemma path_join_relative base p : starts_with [SLASH] p = false → path_join base p = path_base base ++ p.
Proof.
  rw /path_join /path_base. intros ->. destruct (last base) as [b|]; [|done]. destruct (b =? SLASH); [done|]. by rw -app_assoc.
Qed.
Lemma slug_relative l : all_slug l → starts_with [SLASH] l = false.
Proof.
  destruct 1 as [|b l Hb _]; [done|]. rw /starts_with andb_true_r. apply Z.eqb_neq. intros <-. by vm_compute in Hb.
Qed.
Lemma path_base_slug base p : all_slug p → p ≠ [] → path_base (base ++ p) = base ++ p ++ [SLASH].
Proof.
  intros Hp Hne. destruct p as [|b p] using rev_ind; [done|]. apply Forall_app in Hp as [_ [Hb _]%Forall_cons].
  rw /path_base app_assoc last_snoc. destruct (Z.eqb_spec b SLASH) as [->|_]; [by vm_compute in Hb|]. by rw -!app_assoc.
Qed.
Lemma hex_char_inj a b : 0 ≤ a < 16 → 0 ≤ b < 16 → hex_char a = hex_char b → a = b.
Proof. rw /hex_char. destruct (Z.ltb_spec a 10), (Z.ltb_spec b 10); lia. Qed.
Lemma hex_encode_inj l k : wf_bytes l → wf_bytes k → hex_encode l = hex_encode k → l = k.
Proof.
  intros Hl. revert k. induction Hl as [|a l Ha _ IH]; intros k Hk; destruct Hk as [|b k Hb Hk]; rw /hex_encode //=.
  intros [= H1 H2 H3]. rw /is_u8 in Ha Hb. apply hex_char_inj in H1, H2.
  - rw (Z.div_mod a 16) // (Z.div_mod b 16) // H1 H2. f_equal. by apply IH.
  - apply Z.mod_pos_bound. lia.
  - apply Z.mod_pos_bound. lia.
  - split; [apply Z.div_pos; lia|apply Z.div_lt_upper_bound; lia].
  - split; [apply Z.div_pos; lia|apply Z.div_lt_upper_bound; lia].
Qed.

Section separation.
Variable sha256 : bytes → bytes.
Hypothesis sha256_digest : ∀ x, wf_bytes (sha256 x) ∧ length (sha256 x) = 32%nat.
Variables staging_url production_url : bytes.

Lemma target_dir_eq cfg ds u :
  wf_bytes (join (str "_") ds) → directory_url staging_url production_url (directory cfg) = Ok u →
  ∃ t base, target_for_domains sha256 staging_url production_url cfg ds = Ok t ∧
    base = path_base (path_join (cache_dir cfg) (str "certificates")) ∧
    target_dir t = base ++ hex_encode (sha256 u) ++ [SLASH] ++ domain_slug sha256 ds ∧
    cert_path t = target_dir t ++ [SLASH] ++ CERT_FILE ∧ key_path t = target_dir t ++ [SLASH] ++ KEY_FILE.
Proof.
  intros Hds Hu. rw /target_for_domains Hu /=. eexists _, _. split; [done|]. split; [done|]. cbn [target_dir cert_path key_path].
  destruct (sha256_digest u) as [Hw Hl]. destruct (sha256_digest (join (str "_") ds)) as [Hw' Hl'].
  pose proof (stable_slug_ok sha256 _ Hds Hw' Hl') as (Hslug & Hlen & _). fold (domain_slug sha256 ds) in Hslug, Hlen.
  assert (Hhex : all_slug (hex_encode (sha256 u))) by by apply hex_encode_ok.
  assert (hex_encode (sha256 u) ≠ []) by (intros E; apply (f_equal length) in E; rw hex_encode_length Hl in E; done).
  assert (domain_slug sha256 ds ≠ []) by (intros E; rw E len_nil in Hlen; lia).
  rw (path_join_relative (path_join _ _) (hex_encode _)); [by apply slug_relative|].
  rw (path_join_relative _ (domain_slug _ _)); [by apply slug_relative|].
  rw !(path_join_relative _ CERT_FILE) // !(path_join_relative _ KEY_FILE) //.
  rw !(path_base_slug _ (domain_slug _ _)) // !(path_base_slug _ (hex_encode _)) //. by rw -!app_assoc.
Qed.

(** The cache keeps certificate authorities apart: the directories of two
    targets, for any domains, are the same only when the digests of the URLs of
    the CAs are, and an alias shares the directory of its URL. *)
Theorem cache_separates cfg1 cfg2 ds1 ds2 u1 u2 t1 t2 :
  cache_dir cfg1 = cache_dir cfg2 → wf_bytes (join (str "_") ds1) → wf_bytes (join (str "_") ds2) →
  directory_url staging_url production_url (directory cfg1) = Ok u1 →
  directory_url staging_url production_url (directory cfg2) = Ok u2 →
  target_for_domains sha256 staging_url production_url cfg1 ds1 = Ok t1 →
  target_for_domains sha256 staging_url production_url cfg2 ds2 = Ok t2 →
  (target_dir t1 = target_dir t2 → sha256 u1 = sha256 u2) ∧
  (u1 = u2 → domain_slug sha256 ds1 = domain_slug sha256 ds2 → target_dir t1 = target_dir t2).
Proof.
  intros Hdir Hw1 Hw2 Hu1 Hu2 Ht1 Ht2.
  destruct (target_dir_eq _ _ _ Hw1 Hu1) as (t & b1 & E1 & -> & D1 & _). rw Ht1 in E1. injection E1 as <-.
  destruct (target_dir_eq _ _ _ Hw2 Hu2) as (t & b2 & E2 & -> & D2 & _). rw Ht2 in E2. injection E2 as <-.
  rw D1 D2 Hdir. split; [|by intros -> ->]. intros H%app_inv_head.
  destruct (sha256_digest u1) as [W1 L1], (sha256_digest u2) as [W2 L2].
  apply app_inj_1 in H as [H _]; [by apply hex_encode_inj|]. by rw !hex_encode_length L1 L2.
Qed.
End separation.

(** Two inbounds with the same domains in another order and repeated, one
    without ACME. *)
Definition acme_inbound (ds : list bytes) : InboundConfig :=
  MkInbound (str "in") (socket_addr_new UNSPECIFIED_V4 443) Anytls None [] None (Some (MkTls None None (Some (MkTlsAcme ds)))).
Definition acme_example : Config :=
  MkConfig None None
    [acme_inbound [str "b.org"; str "a.org"; str "b.org"];
     MkInbound (str "socks") (socket_addr_new UNSPECIFIED_V4 1080) Socks5 None [] None None;
     acme_inbound [str "a.org"; str "b.org"]] [] (MkRouting None []).
Definition example_targets : list AcmeTarget * Config :=
  match configure_targets (λ _, repeat 171 32) (str "https://s") (str "https://p") (λ m, (map_to_list m).*2) acme_example default_acme_config with
  | Ok x => x | Err _ => ([], acme_example) end.

Lemma example_targets_run :
  configure_targets (λ _, repeat 171 32) (str "https://s") (str "https://p") (λ m, (map_to_list m).*2) acme_example default_acme_config =
  Ok (example_targets.1, example_targets.2).
Proof. vm_compute. reflexivity. Qed.

Lemma configure_targets_ok_witness :
  length example_targets.1 = 1%nat ∧ NoDup example_targets.1 ∧
  ∀ t, t ∈ example_targets.1 → NoDup (target_domains t).
Proof.
  pose proof (configure_targets_ok _ _ _ _ _ _ _ _ (λ m, reflexivity _) example_targets_run) as (_ & _ & Ht & Hn & _).
  split; [by_decide|]. split; [done|]. intros t Hin. by apply Ht.
Defined.
