(* ===== verification/AcmeIssue.v ===== *)
(** * ACME: obtaining and keeping certificates (src/acme.rs)

    The disk with its failures, [atomic_write], the state of the cache, the
    HTTP-01 challenge responder, an order, issuing, preparing and renewing
    certificates, and the account. The CA, the certificate library and the
    listener are parameters. *)
From S2P Require Import Prelude Text Net Config AcmePaths.

(** ** The disk

    What happens to the next operations on the disk: nothing unusual, or a
    failure. A failing write may leave a prefix of its data; renaming is atomic.
    A process that stops during an operation leaves what a failure of the
    operation leaves, so the states after an error are also the states after a
    crash. *)
Inductive Fault := Refused | Torn (written : nat).
Record Disk := MkDisk { files : gmap bytes bytes; faults : list (option Fault) }.

Definition next_fault : SE Disk (option Fault) := λ d,
  (Ok (default None (head (faults d))), MkDisk (files d) (tail (faults d))).
Definition disk_error {A} : SE Disk A := throw (EMsg "disk operation failed").
Definition modify_files (f : gmap bytes bytes → gmap bytes bytes) : SE Disk () :=
  modify (λ d, MkDisk (f (files d)) (faults d)).

(** [fs::create_dir_all]: directories hold no data. *)
Definition create_dir_all (dir : bytes) : SE Disk () :=
  fault ← next_fault;
  match fault with None => mret () | Some _ => disk_error end.
(** [fs::write] *)
Definition fs_write (path data : bytes) : SE Disk () :=
  fault ← next_fault;
  match fault with
  | None => modify_files <[path := data]>
  | Some Refused => disk_error
  | Some (Torn n) => modify_files <[path := take n data]> ;; disk_error
  end.
(** [fs::rename] *)
Definition fs_rename (from to : bytes) : SE Disk () :=
  fault ← next_fault;
  src ← gets (λ d, files d !! from);
  match fault, src with
  | None, Some data => modify_files (λ m, <[to := data]> (delete from m))
  | _, _ => disk_error
  end.
(** [fs::read] *)
Definition fs_read (path : bytes) : SE Disk bytes :=
  fault ← next_fault;
  src ← gets (λ d, files d !! path);
  match fault, src with
  | None, Some data => mret data
  | _, _ => disk_error
  end.

(** ** [Path] accessors, for paths that end in a file name *)
Definition parent (path : bytes) : option bytes := fst <$> rsplit_once SLASH path.
Definition file_name (path : bytes) : bytes := match rsplit_once SLASH path with Some (_, f) => f | None => path end.
(** The stem and the extension: at the last dot that is not the first character. *)
Definition split_extension (name : bytes) : bytes * option bytes :=
  match rsplit_once DOT name with
  | Some ([], _) | None => (name, None)
  | Some (stem, ext) => (stem, Some ext)
  end.
Definition extension (path : bytes) : option bytes := (split_extension (file_name path)).2.
Definition with_extension (path ext : bytes) : bytes :=
  let name := file_name path in
  take (length path - length name) path ++ (split_extension name).1 ++ [DOT] ++ ext.

Definition tmp_path (path : bytes) : bytes :=
  with_extension path (default (str "pem") (extension path) ++ str ".tmp").

Definition atomic_write (path data : bytes) : SE Disk () :=
  match parent path with Some dir => create_dir_all dir | None => mret () end ;;
  fs_write (tmp_path path) data ;;
  fs_rename (tmp_path path) path.

(** ** Certificates *)
Inductive CacheStatus := CacheValid | RenewDue | MissingOrInvalid.

(** The certificate library: parsing, giving a pair to a fresh TLS context and
    checking that it belongs together, and times. *)
Class Pki := {
  X509 : Type;
  PKey : Type;
  Asn1Time : Type;
  stack_from_pem : bytes → Result (list X509);
  private_key_from_pem : bytes → Result PKey;
  new_context : Result ();
  set_certificate : X509 → Result ();
  set_private_key : X509 → PKey → Result ();
  check_private_key : X509 → PKey → Result ();
  days_from_now : Z → Result Asn1Time;
  compare_not_after : X509 → Asn1Time → Result comparison;
}.

(** The certificate authority and the local listener, with a state of their
    own. An order keeps the answers it will get; whether it is ready may depend
    on what the challenge responder answers. *)
Inductive AuthorizationStatus := Pending | AuthzValid | AuthzOther.
Inductive OrderStatus := Ready | OrderOther.
Record Challenge := MkChallenge { challenge_tok : bytes; key_authorization : bytes }.
Record Authorization := MkAuthz { authz_status : AuthorizationStatus; http01 : option Challenge }.

Inductive Method := GET | OtherMethod.
Record Request := MkRequest { method : Method; uri_path : bytes }.
Record Response := MkResponse { status : Z; body : bytes }.

Class AcmeCa := {
  Account : Type;
  Order : Type;
  Outside : Type;
  try_bind : SocketAddr → SE Outside ();
  new_order : Account → list bytes → SE Outside Order;
  authorizations : Order → list (Result Authorization);
  set_ready : Order → Challenge → Result ();
  poll_ready : Order → (Request → Response) → Result OrderStatus;
  finalize : Order → Result bytes;
  poll_certificate : Order → Result bytes;
  restore_account : bytes → SE Outside Account;
  create_account : list bytes → bytes → SE Outside (Account * bytes);
}.

(** ** Challenges *)
Abbreviation ChallengeStore := (gmap bytes bytes).
Definition challenge_insert (token key_authorization : bytes) (m : ChallengeStore) : ChallengeStore := <[token := key_authorization]> m.
Definition challenge_remove (token : bytes) (m : ChallengeStore) : ChallengeStore := delete token m.
Definition challenge_get (token : bytes) (m : ChallengeStore) : option bytes := m !! token.

Definition CHALLENGE_PREFIX : bytes := str "/.well-known/acme-challenge/".
Definition challenge_token (path : bytes) : option bytes :=
  token ← strip_prefix CHALLENGE_PREFIX path;
  if negb (bool_decide (token = [])) && negb (contains SLASH token) then Some token else None.

Definition handle_challenge_request (challenges : ChallengeStore) (request : Request) : Response :=
  let body := match method request, challenge_token (uri_path request) with
              | GET, Some token => challenge_get token challenges
              | _, _ => None
              end in
  match body with
  | Some body => MkResponse 200 body
  | None => MkResponse 404 (str "not found" ++ [LF])
  end.

Section manager.
Context `{!Pki, !AcmeCa}.

Definition validate_certificate_pair_bytes (cert_pem key_pem : bytes) : Result () :=
  certs ← stack_from_pem cert_pem;
  match certs with
  | [] => Err (EMsg "certificate chain is empty")
  | cert :: _ =>
      key ← private_key_from_pem key_pem;
      new_context ;;
      set_certificate cert ;;
      set_private_key cert key ;;
      check_private_key cert key
  end.

(** [x.is_ok_and(|ordering| ordering != Greater)] *)
Definition not_greater (r : Result comparison) : bool :=
  match r with Ok Gt => false | Ok _ => true | Err _ => false end.

Definition leaf_status (leaf : X509) (now renew_after : Asn1Time) : CacheStatus :=
  if not_greater (compare_not_after leaf now) then MissingOrInvalid
  else if not_greater (compare_not_after leaf renew_after) then RenewDue
  else CacheValid.

Definition pair_status (cert_pem key_pem : bytes) (renew_before_days : Z) : CacheStatus :=
  if negb (is_ok (validate_certificate_pair_bytes cert_pem key_pem)) then MissingOrInvalid
  else match stack_from_pem cert_pem, days_from_now 0, days_from_now renew_before_days with
       | Ok (leaf :: _), Ok now, Ok renew_after => leaf_status leaf now renew_after
       | _, _, _ => MissingOrInvalid
       end.

Definition certificate_cache_status (target : AcmeTarget) (renew_before_days : Z) : SE Disk CacheStatus :=
  cert_pem ← attempt (fs_read (cert_path target));
  match cert_pem with
  | Err _ => mret MissingOrInvalid
  | Ok cert_pem =>
      key_pem ← attempt (fs_read (key_path target));
      match key_pem with
      | Err _ => mret MissingOrInvalid
      | Ok key_pem => mret (pair_status cert_pem key_pem renew_before_days)
      end
  end.

(** ** An order *)
Record IssueState := MkIssue { outside : Outside; challenges : ChallengeStore; tokens : list bytes }.
Definition on_outside {A} (m : SE Outside A) : SE IssueState A := λ s,
  let '(r, o) := m (outside s) in (r, MkIssue o (challenges s) (tokens s)).

Definition answer_authorization (order : Order) (result : Result Authorization) : SE IssueState () :=
  authz ← lift result;
  match authz_status authz with
  | AuthzValid => mret ()
  | AuthzOther => throw (EMsg "unexpected ACME authorization status")
  | Pending =>
      challenge ← lift (context (http01 authz) "ACME authorization did not offer an HTTP-01 challenge");
      modify (λ s, MkIssue (outside s) (challenge_insert (challenge_tok challenge) (key_authorization challenge) (challenges s))
        (tokens s ++ [challenge_tok challenge])) ;;
      lift (set_ready order challenge)
  end.

Definition validate_order (account : Account) (target : AcmeTarget) : SE IssueState Order :=
  order ← on_outside (new_order account (target_domains target));
  for_each (answer_authorization order) (authorizations order) ;;
  store ← gets challenges;
  status ← lift (poll_ready order (handle_challenge_request store));
  lift (ensure (match status with Ready => true | OrderOther => false end) "ACME order was not ready after validation") ;;
  mret order.

(** ** The manager: its state is the disk and the world outside *)
Record AcmeManager := MkManager { mgr_cfg : AcmeConfig; mgr_account : Account; mgr_targets : list AcmeTarget }.
Record AcmeWorld := MkAcmeWorld { disk : Disk; world : Outside }.
Definition on_disk {A} (m : SE Disk A) : SE AcmeWorld A := λ w,
  let '(r, d) := m (disk w) in (r, MkAcmeWorld d (world w)).
Definition on_world {A} (m : SE Outside A) : SE AcmeWorld A := λ w,
  let '(r, o) := m (world w) in (r, MkAcmeWorld (disk w) o).

(** [for token in tokens { challenges.remove(&token) }] *)
Definition remove_tokens (toks : list bytes) (store : ChallengeStore) : ChallengeStore :=
  foldl (λ m token, challenge_remove token m) store toks.

(** A fresh store and token list; the tokens are removed whatever the outcome. *)
Definition with_challenges {A} (m : SE IssueState A) : SE Outside (Result A * ChallengeStore) := λ o,
  let '(result, s) := m (MkIssue o ∅ []) in
  (Ok (result, remove_tokens (tokens s) (challenges s)), outside s).

(** The challenges last from the start of the listener to its shutdown. *)
Definition validate_with_listener (m : AcmeManager) (target : AcmeTarget) : SE Outside (Result Order * ChallengeStore) :=
  try_bind (http_listen (mgr_cfg m)) ;;
  with_challenges (validate_order (mgr_account m) target).

Definition issue_certificate (m : AcmeManager) (target : AcmeTarget) : SE AcmeWorld () :=
  result ← on_world (validate_with_listener m target);
  order ← lift (result.1);
  private_key_pem ← lift (finalize order);
  cert_chain_pem ← lift (poll_certificate order);
  lift (validate_certificate_pair_bytes cert_chain_pem private_key_pem) ;;
  on_disk (atomic_write (key_path target) private_key_pem) ;;
  on_disk (atomic_write (cert_path target) cert_chain_pem).

Definition prepare_certificate (m : AcmeManager) (target : AcmeTarget) : SE AcmeWorld () :=
  on_disk (create_dir_all (target_dir target)) ;;
  status ← on_disk (certificate_cache_status target (renew_before_days (mgr_cfg m)));
  match status with
  | CacheValid => mret ()
  | RenewDue => attempt (issue_certificate m target) ;; mret ()
  | MissingOrInvalid => issue_certificate m target
  end.
Definition prepare_certificates (m : AcmeManager) : SE AcmeWorld () :=
  for_each (prepare_certificate m) (mgr_targets m).

Definition renew_if_due (m : AcmeManager) (target : AcmeTarget) : SE AcmeWorld () :=
  status ← on_disk (certificate_cache_status target (renew_before_days (mgr_cfg m)));
  match status with
  | CacheValid => mret ()
  | RenewDue | MissingOrInvalid => issue_certificate m target
  end.

(** One round of the renewal task; a failure is logged. *)
Definition renewal_round (m : AcmeManager) : SE AcmeWorld () :=
  for_each (λ target, attempt (renew_if_due m target) ;; mret ()) (mgr_targets m).

(** ** The account *)
Variable sha256 : bytes → bytes.
Variables staging_url production_url : bytes.

Definition account_path (cfg : AcmeConfig) : bytes :=
  path_join (path_join (cache_dir cfg) (str "accounts")) (directory_slug sha256 (directory cfg) ++ str ".json").

Definition load_account (cfg : AcmeConfig) : SE AcmeWorld Account :=
  on_disk (create_dir_all (path_join (cache_dir cfg) (str "accounts"))) ;;
  exists_ ← gets (λ w, bool_decide (is_Some (files (disk w) !! account_path cfg)));
  if (exists_ : bool) then
    raw ← on_disk (fs_read (account_path cfg));
    raw ← lift (from_utf8 raw);
    on_world (restore_account raw)
  else
    lift (ensure (accept_terms cfg) "ACME account creation requires acme.accept_terms = true") ;;
    url ← lift (directory_url staging_url production_url (directory cfg));
    created ← on_world (create_account (contact cfg) url);
    on_disk (atomic_write (account_path cfg) created.2) ;;
    mret created.1.

(** [AcmeManager::prepare] *)
Definition acme_prepare (hash_values : gmap (list bytes) AcmeTarget → list AcmeTarget) (config : Config)
  : SE AcmeWorld (option AcmeManager * Config) :=
  let cfg := acme_config config in
  configured ← lift (configure_targets sha256 staging_url production_url hash_values config cfg);
  match configured.1 with
  | [] => mret (None, configured.2)
  | targets =>
      account ← load_account cfg;
      let manager := MkManager cfg account targets in
      prepare_certificates manager ;;
      mret (Some manager, configured.2)
  end.
End manager.
