(* ===== verification/AcmeSafety.v ===== *)
(** * ACME: what survives failures (src/acme.rs)

    Atomic replacement of files, what issuing a certificate leaves on the disk
    whatever fails, that preparing leaves every target with a usable pair, that
    the challenges of an order are served, and that an account is created once. *)
From S2P Require Import Prelude Text Net Config AcmePaths AcmeIssue.

(** ** Replacing a file *)
Lemma next_fault_run d : next_fault d = (Ok (default None (head (faults d))), MkDisk (files d) (tail (faults d))).
Proof. done. Qed.

(** The files [P] are as in [m]. *)
Definition files_kept (P : bytes → Prop) (m : gmap bytes bytes) (d : Disk) : Prop :=
  ∀ p, P p → files d !! p = m !! p.

Lemma create_dir_all_files dir d r d' : create_dir_all dir d = (r, d') → files d' = files d.
Proof. rw /create_dir_all /mbind /SE_bind next_fault_run. by destruct (default None _); intros [= <- <-]. Qed.
Lemma fs_read_files path d r d' : fs_read path d = (r, d') → files d' = files d.
Proof.
  rw /fs_read /mbind /SE_bind next_fault_run /gets. simpl. by destruct (default None _), (files d !! path); intros [= <- <-].
Qed.
Lemma fs_write_files path data d r d' :
  fs_write path data d = (r, d') →
  files_kept (λ p, p ≠ path) (files d) d' ∧ (r = Ok () → files d' !! path = Some data).
Proof.
  rw /fs_write /mbind /SE_bind next_fault_run. destruct (default None _) as [[|n]|]; intros [= <- <-]; simpl.
  - done.
  - split; [|done]. intros p Hp. by rw /= lookup_insert_ne.
  - split; [intros p Hp; by rw /= lookup_insert_ne|]. intros _. apply lookup_insert_eq.
Qed.
Lemma fs_rename_files from to d r d' :
  fs_rename from to d = (r, d') →
  files_kept (λ p, p ≠ from ∧ p ≠ to) (files d) d' ∧
  match r with Ok _ => files d' !! to = files d !! from | Err _ => files d' = files d end.
Proof.
  rw /fs_rename /mbind /SE_bind next_fault_run /gets. simpl.
  destruct (default None _), (files d !! from) as [data|] eqn:E; intros [= <- <-]; simpl; try done.
  split; [|apply lookup_insert_eq]. intros p [H1 H2]. by rw /= lookup_insert_ne // lookup_delete_ne.
Qed.

(** Replacing a file is atomic: whatever fails, and wherever the process stops,
    the file is what it was or has all of the new contents, which it has when
    the call succeeds; no other file but the temporary one is touched. *)
Lemma atomic_write_cases path data d r d' :
  tmp_path path ≠ path → atomic_write path data d = (r, d') →
  files_kept (λ p, p ≠ path ∧ p ≠ tmp_path path) (files d) d' ∧
  files d' !! path = match r with Ok _ => Some data | Err _ => files d !! path end.
Proof.
  intros Ht. rw /atomic_write. set (mk := match parent path with Some dir => create_dir_all dir | None => mret () end).
  assert (Hmk : ∀ r d', mk d = (r, d') → files d' = files d).
  { rw /mk. intros r1 d1. destruct (parent path); [apply create_dir_all_files|by intros [= _ <-]]. }
  rw {1}/mbind {1}/SE_bind. destruct (mk d) as [[[]|] d1] eqn:E1; specialize (Hmk _ _ eq_refl); [|intros [= <- <-]; by rw /files_kept Hmk].
  rw {1}/mbind {1}/SE_bind. destruct (fs_write _ _ d1) as [r2 d2] eqn:E2. apply fs_write_files in E2 as [K2 O2].
  rw Hmk in K2. destruct r2 as [[]|e2]; [|intros [= <- <-]].
  - intros [K3 O3]%fs_rename_files. split.
    + intros p [H1 H2]. rw K3; [done|]. by apply K2.
    + destruct r as [u|e]; rw O3; [by apply O2|]. by apply K2.
  - split; [|by apply K2]. intros p [H1 H2]. by apply K2.
Qed.

Lemma create_dir_all_healthy dir d : faults d = [] → create_dir_all dir d = (Ok (), d).
Proof. destruct d as [m f]. simpl. by intros ->. Qed.
Lemma atomic_write_healthy path data d : faults d = [] →
  ∃ d', atomic_write path data d = (Ok (), d') ∧ faults d' = [].
Proof.
  intros Hf. rw /atomic_write. rw (SE_bind_ok _ _ _ () d); [by destruct (parent path); [apply create_dir_all_healthy|]|].
  destruct d as [m f]. simpl in Hf. subst f. rw /fs_write /fs_rename /mbind /SE_bind /next_fault /gets /modify_files /modify /=.
  rw lookup_insert_eq. by eexists.
Qed.

(** ** The four files of a target *)
Definition target_paths (t : AcmeTarget) : Prop :=
  cert_path t = path_base (target_dir t) ++ CERT_FILE ∧ key_path t = path_base (target_dir t) ++ KEY_FILE.

Lemma target_for_domains_paths sha256 su pu cfg ds t :
  target_for_domains sha256 su pu cfg ds = Ok t → target_paths t.
Proof.
  rw /target_for_domains. intros (u & _ & [= <-])%Result_bind_inv. rw /target_paths. cbn [cert_path key_path target_dir].
  by rw !(path_join_relative _ CERT_FILE) // !(path_join_relative _ KEY_FILE).
Qed.

Lemma file_name_base base name : SLASH ∉ name → file_name (path_base base ++ name) = name.
Proof.
  intros Hn. rw /file_name /path_base.
  assert (Hno : rsplit_once SLASH name = None).
  { rw /rsplit_once. assert (split_once SLASH (rev name) = None) as ->; [|done]. apply split_once_None. by rw elem_of_rev. }
  destruct (last base) as [b|] eqn:Hb; [|by rw app_nil_l Hno].
  assert (∀ p, file_name (p ++ SLASH :: name) = name) as Happ.
  { intros p. by rw /file_name rsplit_once_app. }
  rw /file_name in Happ. destruct (Z.eqb_spec b SLASH) as [->|_].
  - apply last_Some in Hb as [p ->]. rw -app_assoc. apply Happ.
  - rw -app_assoc. apply Happ.
Qed.
Lemma tmp_path_base base name stem ext :
  SLASH ∉ name → split_extension name = (stem, Some ext) →
  tmp_path (path_base base ++ name) = path_base base ++ stem ++ [DOT] ++ ext ++ str ".tmp".
Proof.
  intros Hn Hs. rw /tmp_path /with_extension /extension !file_name_base // Hs. cbn [fst snd default].
  by rw length_app Nat.add_sub take_app_length.
Qed.

Lemma cert_no_slash : SLASH ∉ CERT_FILE. Proof. by_decide. Qed.
Lemma key_no_slash : SLASH ∉ KEY_FILE. Proof. by_decide. Qed.

Section target_files.
Variable t : AcmeTarget.
Hypothesis Ht : target_paths t.

Lemma cert_tmp : tmp_path (cert_path t) = path_base (target_dir t) ++ str "cert.pem.tmp".
Proof. rw (proj1 Ht). by rw (tmp_path_base _ _ (str "cert") (str "pem") cert_no_slash). Qed.
Lemma key_tmp : tmp_path (key_path t) = path_base (target_dir t) ++ str "key.pem.tmp".
Proof. rw (proj2 Ht). by rw (tmp_path_base _ _ (str "key") (str "pem") key_no_slash). Qed.

Lemma target_file_names :
  file_name (cert_path t) = str "cert.pem" ∧ file_name (key_path t) = str "key.pem" ∧
  file_name (tmp_path (cert_path t)) = str "cert.pem.tmp" ∧ file_name (tmp_path (key_path t)) = str "key.pem.tmp".
Proof.
  rw cert_tmp key_tmp (proj1 Ht) (proj2 Ht). split_and!; apply file_name_base; by_decide.
Qed.
End target_files.

(** Files of two targets with different names are different. *)
Ltac other_file :=
  let H := fresh in intros H; apply (f_equal file_name) in H;
  repeat match goal with
  | Ht : target_paths ?t |- _ =>
      let H1 := fresh in let H2 := fresh in let H3 := fresh in let H4 := fresh in
      destruct (target_file_names t Ht) as (H1 & H2 & H3 & H4);
      rw ?H1 ?H2 ?H3 ?H4 in H; clear Ht
  end; vm_compute in H; congruence.

Section issue.
Context `{!Pki, !AcmeCa}.
Implicit Types (m : AcmeManager) (t : AcmeTarget) (w : AcmeWorld).

Definition on_file w p : option bytes := files (disk w) !! p.

Lemma on_disk_run {A} (f : SE Disk A) w : on_disk f w = ((f (disk w)).1, MkAcmeWorld (f (disk w)).2 (world w)).
Proof. rw /on_disk. by destruct (f (disk w)). Qed.

(** Everything before the two writes leaves the disk alone. *)
Lemma issue_split m t w :
  (∃ e w', issue_certificate m t w = (Err e, w') ∧ disk w' = disk w) ∨
  (∃ c k o, validate_certificate_pair_bytes c k = Ok () ∧
     issue_certificate m t w =
       (on_disk (atomic_write (key_path t) k) ;; on_disk (atomic_write (cert_path t) c)) (MkAcmeWorld (disk w) o)).
Proof.
  destruct (issue_certificate m t w) as [r w'] eqn:Hx. revert Hx.
  rw /issue_certificate /lift {1 2 3 4 5}/mbind {1 2 3 4 5}/SE_bind /on_world.
  destruct (validate_with_listener m t (world w)) as [[res|e] o]; [|intros [= <- <-]; left; by eexists _, _].
  destruct (res.1) as [order|e]; [|intros [= <- <-]; left; by eexists _, _].
  destruct (finalize order) as [k|e]; [|intros [= <- <-]; left; by eexists _, _].
  destruct (poll_certificate order) as [c|e]; [|intros [= <- <-]; left; by eexists _, _].
  destruct (validate_certificate_pair_bytes c k) as [[]|e] eqn:Ev; [|intros [= <- <-]; left; by eexists _, _].
  intros Hx. right. exists c, k, o. by rw Hx.
Qed.

(** What issuing leaves: nothing changed; only a new key; a new pair. *)
Lemma issue_cases m t w r w' :
  target_paths t → issue_certificate m t w = (r, w') →
  (∀ p, p ∉ [cert_path t; key_path t; tmp_path (cert_path t); tmp_path (key_path t)] → on_file w' p = on_file w p) ∧
  ((is_ok r = false ∧ on_file w' (cert_path t) = on_file w (cert_path t) ∧ on_file w' (key_path t) = on_file w (key_path t)) ∨
   ∃ c k, validate_certificate_pair_bytes c k = Ok () ∧ on_file w' (key_path t) = Some k ∧
     on_file w' (cert_path t) = if is_ok r then Some c else on_file w (cert_path t)).
Proof.
  intros Ht. destruct (issue_split m t w) as [(e & w1 & -> & Hd)|(c & k & o & Hv & ->)].
  { intros [= <- <-]. rw /on_file Hd. by split; [|left]. }
  rw /mbind /SE_bind !on_disk_run /=. destruct (atomic_write (key_path t) k (disk w)) as [r1 d1] eqn:E1.
  apply atomic_write_cases in E1 as [K1 O1]; [|other_file].
  destruct r1 as [[]|e]; simpl.
  2:{ intros [= <- <-]. rw /on_file /=. split; [|left; split_and!; [done| |done]].
      - intros p Hp. apply K1. set_solver.
      - apply K1. split; other_file. }
  destruct (atomic_write (cert_path t) c d1) as [r2 d2] eqn:E2.
  apply atomic_write_cases in E2 as [K2 O2]; [|other_file]. intros [= <- <-]. rw /on_file /=. split.
  - intros p Hp. rw K2; [set_solver|]. apply K1. set_solver.
  - right. exists c, k. split; [done|]. split; [rw K2 //; split; other_file|].
    rw O2. destruct r2; simpl; [done|]. apply K1. split; other_file.
Qed.

(** C24: Issuing a certificate is safe to interrupt. Whatever fails, at the CA or
    on the disk, and wherever the process stops, the certificate and key files
    of the target hold the old pair, a complete new key beside the old
    certificate, or a complete new pair that was checked to belong together; the
    call succeeds exactly in the last case, and no file but these two and their
    temporary files is touched. *)
Theorem issue_certificate_atomic m t w r w' :
  target_paths t → issue_certificate m t w = (r, w') →
  (∀ p, p ∉ [cert_path t; key_path t; tmp_path (cert_path t); tmp_path (key_path t)] → on_file w' p = on_file w p) ∧
  ((is_ok r = false ∧ on_file w' (cert_path t) = on_file w (cert_path t) ∧ on_file w' (key_path t) = on_file w (key_path t)) ∨
   ∃ c k, validate_certificate_pair_bytes c k = Ok () ∧ on_file w' (key_path t) = Some k ∧
     on_file w' (cert_path t) = if is_ok r then Some c else on_file w (cert_path t)).
Proof. apply issue_cases. Qed.

(** ** On a healthy disk every target ends with a usable pair *)
Definition usable w t : Prop :=
  ∃ c k, on_file w (cert_path t) = Some c ∧ on_file w (key_path t) = Some k ∧ validate_certificate_pair_bytes c k = Ok ().
Definition healthy w : Prop := faults (disk w) = [].

Lemma issue_healthy m t w r w' :
  healthy w → issue_certificate m t w = (r, w') →
  healthy w' ∧ (is_ok r = false → disk w' = disk w).
Proof.
  intros Hw. destruct (issue_split m t w) as [(e & w1 & -> & Hd)|(c & k & o & Hv & ->)].
  { intros [= <- <-]. by rw /healthy Hd. }
  destruct (atomic_write_healthy (key_path t) k (disk w) Hw) as (d1 & E1 & H1).
  destruct (atomic_write_healthy (cert_path t) c d1 H1) as (d2 & E2 & H2).
  rw /mbind /SE_bind !on_disk_run /= E1 /= E2. by intros [= <- <-].
Qed.

(** Issuing for one target keeps the pairs of all targets usable. *)
Lemma issue_keeps_usable m t t' w r w' :
  healthy w → target_paths t → target_paths t' → issue_certificate m t w = (r, w') → usable w t' → usable w' t'.
Proof.
  intros Hw Ht Ht' Hi Hu. destruct (issue_healthy _ _ _ _ _ Hw Hi) as [_ Herr].
  destruct r as [[]|e]; [|rw /usable /on_file Herr //; exact Hu].
  destruct (issue_cases _ _ _ _ _ Ht Hi) as [Hkept [[? _]|(c & k & Hv & Hk & Hc)]]; [done|].
  destruct (decide (path_base (target_dir t) = path_base (target_dir t'))) as [E|E].
  { exists c, k. rw (proj1 Ht') (proj2 Ht') -E -(proj1 Ht) -(proj2 Ht). done. }
  destruct Hu as (c' & k' & Hc' & Hk' & Hv'). exists c', k'. split_and!; [| |done]; rw Hkept //; rw !not_elem_of_cons;
    (split_and!; [| | | |apply not_elem_of_nil]); try other_file.
  - rw (proj1 Ht) (proj1 Ht'). by intros Hx%app_inv_tail.
  - rw (proj2 Ht) (proj2 Ht'). by intros Hx%app_inv_tail.
Qed.

Lemma fs_read_healthy path d : faults d = [] →
  fs_read path d = (match files d !! path with Some data => Ok data | None => Err (EMsg "disk operation failed") end, d).
Proof.
  destruct d as [f fa]. simpl. intros ->. rw /fs_read /mbind /SE_bind /next_fault /gets /=. by destruct (f !! path).
Qed.
Lemma cache_status_healthy t days w :
  healthy w → ∃ st, on_disk (certificate_cache_status t days) w = (Ok st, w) ∧ (st ≠ MissingOrInvalid → usable w t).
Proof.
  intros Hw. rw on_disk_run /certificate_cache_status /mbind /SE_bind /attempt /= fs_read_healthy //.
  destruct w as [d o]. simpl. destruct (files d !! cert_path t) as [c|] eqn:Ec; [|by eexists].
  rw fs_read_healthy //. destruct (files d !! key_path t) as [k|] eqn:Ek; [|by eexists].
  eexists. split; [done|]. rw /pair_status. destruct (validate_certificate_pair_bytes c k) as [[]|] eqn:Ev; [|done].
  intros _. by exists c, k.
Qed.

Lemma issue_keeps_healthy m t : keeps healthy (issue_certificate m t).
Proof.
  intros w Hw. destruct (issue_certificate m t w) as [r w'] eqn:E. destruct (issue_healthy _ _ _ _ _ Hw E). by destruct r.
Qed.
Lemma prepare_certificate_healthy m t : keeps healthy (prepare_certificate m t).
Proof.
  intros w Hw. rw /prepare_certificate. rw (SE_bind_ok _ _ _ () w); [rw on_disk_run create_dir_all_healthy //; by destruct w|].
  destruct (cache_status_healthy t (renew_before_days (mgr_cfg m)) w Hw) as (st & E & _). rw (SE_bind_ok _ _ _ _ _ E).
  pose proof (issue_keeps_healthy m t w Hw) as Hi. destruct st; [done| |exact Hi].
  rw /mbind /SE_bind /attempt. by destruct (issue_certificate m t w) as [[] w'].
Qed.
Lemma prepare_certificates_healthy m : keeps healthy (prepare_certificates m).
Proof. apply keeps_for_each. apply prepare_certificate_healthy. Qed.

Lemma prepare_certificate_usable m t w w' :
  healthy w → target_paths t → prepare_certificate m t w = (Ok (), w') →
  healthy w' ∧ usable w' t ∧ ∀ t', target_paths t' → usable w t' → usable w' t'.
Proof.
  intros Hw Ht. rw /prepare_certificate. rw (SE_bind_ok _ _ _ () w).
  { rw on_disk_run create_dir_all_healthy //. by destruct w. }
  destruct (cache_status_healthy t (renew_before_days (mgr_cfg m)) w Hw) as (st & E & Hst). rw (SE_bind_ok _ _ _ _ _ E).
  destruct st; [intros [= <-]; by auto| |].
  - rw /mbind /SE_bind /attempt. destruct (issue_certificate m t w) as [r w1] eqn:Hi. intros [= <-].
    destruct (issue_healthy _ _ _ _ _ Hw Hi) as [Hw1 _].
    split_and!; [done| |]; [by eapply (issue_keeps_usable m t t), Hst|]. intros t' Ht'. by apply (issue_keeps_usable m t t' w r).
  - intros Hi. destruct (issue_healthy _ _ _ _ _ Hw Hi) as [Hw1 _]. split_and!; [done| |].
    + destruct (issue_cases _ _ _ _ _ Ht Hi) as [_ [[? _]|(c & k & Hv & Hk & Hc)]]; [done|]. by exists c, k.
    + intros t' Ht'. by apply (issue_keeps_usable m t t' w (Ok ())).
Qed.

Lemma prepare_all_usable m l w w' :
  healthy w → Forall target_paths l → for_each (prepare_certificate m) l w = (Ok (), w') →
  ∀ t, target_paths t → t ∈ l ∨ usable w t → usable w' t.
Proof.
  intros Hw Hl. revert w Hw. induction Hl as [|t l Ht Hl IH]; intros w Hw; simpl.
  - intros [= <-] t _ [Hx|Hx]; [by apply elem_of_nil in Hx|done].
  - intros ([] & w1 & H1 & H2)%SE_bind_inv t' Ht' Hin.
    destruct (prepare_certificate_usable _ _ _ _ Hw Ht H1) as (Hw1 & Hu1 & Hk1).
    apply (IH w1 Hw1 H2 t' Ht'). destruct Hin as [[->|Hin]%elem_of_cons|Hu]; [by right|by left|right; by apply Hk1].
Qed.

(** ** From the configuration to usable certificates *)
Section prepare.
Variable sha256 : bytes → bytes.
Variables staging_url production_url : bytes.

Lemma load_account_healthy cfg w a w' :
  healthy w → load_account sha256 staging_url production_url cfg w = (Ok a, w') → healthy w'.
Proof.
  intros Hw. rw /load_account. rw (SE_bind_ok _ _ _ () w).
  { rw on_disk_run create_dir_all_healthy //. by destruct w. }
  rw {1}/mbind {1}/SE_bind {1}/gets. case_bool_decide as Hex.
  - intros (raw & w1 & H1 & (raw' & w2 & H2 & H3)%SE_bind_inv)%SE_bind_inv.
    rw on_disk_run fs_read_healthy // in H1. injection H1 as _ <-. injection H2 as _ <-.
    rw /on_world in H3. destruct (restore_account _ _) as [r o]. by injection H3 as _ <-.
  - intros ([] & w1 & H1 & (url & w2 & H2 & (cr & w3 & H3 & ([] & w4 & H4 & H5)%SE_bind_inv)%SE_bind_inv)%SE_bind_inv)%SE_bind_inv.
    injection H1 as _ <-. injection H2 as _ <-. rw /on_world in H3. destruct (create_account _ _ _) as [r o]. injection H3 as _ <-.
    destruct (atomic_write_healthy (account_path sha256 cfg) cr.2 (disk w) Hw) as (d & E & Hd).
    rw on_disk_run /= E in H4. injection H4 as <-. by injection H5 as _ <-.
Qed.

Lemma prepare_usable hash_values config w mgr c' w' :
  (∀ x : gmap (list bytes) AcmeTarget, hash_values x ≡ₚ (map_to_list x).*2) → healthy w →
  acme_prepare sha256 staging_url production_url hash_values config w = (Ok (mgr, c'), w') →
  Forall2 (λ i i', match acme_of i with
    | None => i' = i
    | Some a => ∃ cert key ds c k, i' = set_in_tls (MkTls (Some cert) (Some key) (Some ds)) i ∧
        on_file w' cert = Some c ∧ on_file w' key = Some k ∧ validate_certificate_pair_bytes c k = Ok ()
    end) (inbounds config) (inbounds c').
Proof.
  intros Hhv Hw. rw /acme_prepare. intros ([ts c1] & w1 & H1 & H2)%SE_bind_inv. rw /lift in H1. injection H1 as Hc <-.
  destruct (configure_targets_spec _ _ _ _ _ _ _ _ Hhv Hc) as (_ & Hl & Ht & _).
  assert (Hpaths : Forall target_paths ts).
  { apply Forall_forall. intros t Hin. by eapply target_for_domains_paths, Ht. }
  assert (c1 = c' ∧ ∀ t, t ∈ ts → usable w' t) as [<- Hu].
  { destruct ts as [|t0 ts0]; [injection H2 as _ <- <-; split; [done|]; by intros t ?%elem_of_nil|]. simpl in H2.
    apply SE_bind_inv in H2 as (a & w2 & Ha & ([] & w3 & Hp & H3)%SE_bind_inv). injection H3 as _ <- <-. split; [done|].
    intros t Hin. apply (prepare_all_usable _ _ _ _ (load_account_healthy _ _ _ _ Hw Ha) Hpaths Hp); [|by left].
    rw Forall_forall in Hpaths. by apply Hpaths. }
  eapply Forall2_impl; [exact Hl|]. intros i i'. cbv beta. destruct (acme_of i) as [a|]; [|done].
  intros (t & Hin & _ & ->). destruct (Hu t Hin) as (c & k & Hc1 & Hk1 & Hv).
  by exists (cert_path t), (key_path t), (MkTlsAcme (target_domains t)), c, k.
Qed.

(** C25: Once ACME is prepared, the server can start: when [prepare] succeeds,
    every inbound that asks for ACME has in its configuration the paths of a
    certificate and a key which are on the disk and were checked to belong
    together, obtained from the CA or cached; no other inbound is changed. This
    holds whatever the CA answers, as long as the disk does not fail. *)
Theorem acme_prepare_usable hash_values config w mgr c' w' :
  (∀ x : gmap (list bytes) AcmeTarget, hash_values x ≡ₚ (map_to_list x).*2) → healthy w →
  acme_prepare sha256 staging_url production_url hash_values config w = (Ok (mgr, c'), w') →
  Forall2 (λ i i', match acme_of i with
    | None => i' = i
    | Some a => ∃ cert key ds c k, i' = set_in_tls (MkTls (Some cert) (Some key) (Some ds)) i ∧
        on_file w' cert = Some c ∧ on_file w' key = Some k ∧ validate_certificate_pair_bytes c k = Ok ()
    end) (inbounds config) (inbounds c').
Proof. apply prepare_usable. Qed.
End prepare.
End issue.
