(* ===== verification/AcmeOrder.v ===== *)
(** * ACME: the challenges of an order, the account (src/acme.rs)

    An order whose CA checks the HTTP-01 challenges against the responder
    becomes ready, the responder serves the challenges of the order and nothing
    else, an account is created once; a run in which a renewal loses the cached
    certificate. *)
From S2P Require Import Prelude Text Net Config AcmePaths AcmeIssue AcmeSafety.

(** ** The responder *)
Definition valid_token (token : bytes) : Prop := token ≠ [] ∧ SLASH ∉ token.

Lemma starts_with_app p l : starts_with p (p ++ l) = true.
Proof. induction p as [|b p IH]; simpl; [done|]. by rw Z.eqb_refl IH. Qed.
Lemma starts_with_inv p l : starts_with p l = true → l = p ++ drop (length p) l.
Proof.
  revert l. induction p as [|b p IH]; intros [|c l]; simpl; try done.
  intros [->%Z.eqb_eq H]%andb_prop. f_equal. by apply IH.
Qed.

Lemma challenge_token_Some path token :
  challenge_token path = Some token ↔ path = CHALLENGE_PREFIX ++ token ∧ valid_token token.
Proof.
  rw /challenge_token /strip_prefix /valid_token. split.
  - destruct (starts_with CHALLENGE_PREFIX path) eqn:E; [|done]. cbn [mbind option_bind].
    case_match eqn:Hb; [|done]. intros [= Hd]. rw Hd in Hb. apply starts_with_inv in E. rw Hd in E.
    split; [done|]. simp_bool. split; [done|]. by apply contains_false.
  - intros (-> & Hne & Hns). rw starts_with_app. cbn [mbind option_bind]. rw drop_app_length.
    rw bool_decide_false // (proj2 (contains_false _ _) Hns) //.
Qed.

(** The responder answers 200 to exactly the GET requests for a stored token. *)
Lemma responder_spec store req key :
  handle_challenge_request store req = MkResponse 200 key ↔
  method req = GET ∧ ∃ token, uri_path req = CHALLENGE_PREFIX ++ token ∧ valid_token token ∧ store !! token = Some key.
Proof.
  rw /handle_challenge_request /challenge_get. split.
  - destruct (method req), (challenge_token (uri_path req)) as [token|] eqn:E; try done.
    destruct (store !! token) eqn:Hs; [|done]. intros [= ->]. apply challenge_token_Some in E as [E1 E2]. by eauto.
  - intros (-> & token & Hp & Hv & Hs). by rw (proj2 (challenge_token_Some _ _) (conj Hp Hv)) Hs.
Qed.

Section order.
Context `{!AcmeCa}.

Definition pending (r : Result Authorization) : option Challenge :=
  match r with Ok a => match authz_status a with Pending => http01 a | _ => None end | Err _ => None end.
(** An authorization is already valid or offers an HTTP-01 challenge. *)
Definition answerable (r : Result Authorization) : Prop :=
  match r with
  | Ok a => match authz_status a with AuthzValid => True | Pending => is_Some (http01 a) | AuthzOther => False end
  | Err _ => False
  end.
Definition store_challenge (m : ChallengeStore) (c : Challenge) : ChallengeStore := <[challenge_tok c := key_authorization c]> m.

Lemma answer_all order l s :
  Forall answerable l → (∀ c, c ∈ omap pending l → set_ready order c = Ok ()) →
  for_each (answer_authorization order) l s =
  (Ok (), MkIssue (outside s) (foldl store_challenge (challenges s) (omap pending l)) (tokens s ++ (challenge_tok <$> omap pending l))).
Proof.
  intros Hl. revert s. induction Hl as [|r l Hr _ IH]; intros s Hready; simpl.
  { rw app_nil_r. by destruct s. }
  destruct r as [[st http]|]; [|done]. simpl in *. rw {1}/mbind {1}/SE_bind /answer_authorization.
  destruct st; [|rw /mbind /SE_bind /=; by apply IH|done]. destruct Hr as [c ->].
  assert (Hc : set_ready order c = Ok ()) by (apply Hready; by left).
  rw /mbind /SE_bind /lift /modify /= Hc. rw IH; [intros c' Hin; apply Hready; by right|]. by rw /= -app_assoc.
Qed.

Lemma stored_lookup l m c :
  c ∈ l → NoDup (challenge_tok <$> l) → foldl store_challenge m l !! challenge_tok c = Some (key_authorization c).
Proof.
  revert m. induction l as [|x l IH]; intros m Hin Hnd; [by apply elem_of_nil in Hin|]. simpl.
  apply NoDup_cons in Hnd as [Hx Hnd]. apply elem_of_cons in Hin as [->|Hin]; [|by apply IH].
  clear IH. assert (Hkeep : ∀ m', m' !! challenge_tok x = Some (key_authorization x) →
    foldl store_challenge m' l !! challenge_tok x = Some (key_authorization x)).
  { clear Hnd. induction l as [|y l IH]; intros m' Hm'; [done|]. simpl. simpl in Hx. apply not_elem_of_cons in Hx as [Hxy Hx].
    apply IH; [done|]. by rw lookup_insert_ne. }
  apply Hkeep, lookup_insert_eq.
Qed.

Lemma removed_store l m : (∀ t, is_Some (m !! t) → t ∈ l) → remove_tokens l m = ∅.
Proof.
  revert m. induction l as [|x l IH]; intros m Hm; simpl.
  - apply map_eq. intros t. rw lookup_empty. destruct (m !! t) eqn:E; [|done]. specialize (Hm t ltac:(by eexists)). by apply elem_of_nil in Hm.
  - apply IH. intros t Ht. rw /challenge_remove in Ht. apply lookup_delete_is_Some in Ht as [Hne Ht]. apply Hm in Ht. by apply elem_of_cons in Ht as [->|].
Qed.

(** Every stored token is in the list of tokens to remove. *)
Definition tracked (s : IssueState) : Prop := ∀ t, is_Some (challenges s !! t) → t ∈ tokens s.
Lemma validate_tracked account target : keeps tracked (validate_order account target).
Proof.
  rw /validate_order. apply keeps_bind.
  { intros s Hs. rw /on_outside. destruct (new_order _ _ _) as [[] o]; exact Hs. }
  intros order. apply keeps_bind; [|intros _; keep_walk]. apply keeps_for_each. intros r. rw /answer_authorization.
  apply keeps_bind; [keep_walk|]. intros a. destruct (authz_status a); [|keep_walk..].
  apply keeps_bind; [keep_walk|]. intros c. apply keeps_bind; [|keep_walk]. intros s Hs t. rw /= /challenge_insert.
  intros [<-|[Hne Ht]]%lookup_insert_is_Some; apply elem_of_app; [right; by left|left; by apply Hs].
Qed.

(** Whatever the outcome of an order, no challenge stays behind. *)
Theorem challenges_removed account target o :
  ∃ r o', with_challenges (validate_order account target) o = (Ok (r, ∅), o').
Proof.
  rw /with_challenges. pose proof (validate_tracked account target (MkIssue o ∅ [])) as Ht.
  destruct (validate_order account target _) as [r s]. eexists _, _. rw removed_store; [|done].
  assert (tracked s); [|done]. destruct r; apply Ht; intros t; simpl; rw lookup_empty; by intros [].
Qed.

(** C39: HTTP-01 validation goes through. Suppose every authorization of an order
    is valid already or offers an HTTP-01 challenge, with distinct tokens that
    are path segments, and the CA makes the order ready once fetching
    /.well-known/acme-challenge/<token> gives the key authorization of each
    challenge. Then the order is validated, and no challenge stays behind. *)
Theorem http01_validates account target o order o' :
  new_order account (target_domains target) o = (Ok order, o') →
  Forall answerable (authorizations order) →
  (∀ c, c ∈ omap pending (authorizations order) → set_ready order c = Ok () ∧ valid_token (challenge_tok c)) →
  NoDup (challenge_tok <$> omap pending (authorizations order)) →
  (∀ f, (∀ c, c ∈ omap pending (authorizations order) →
           f (MkRequest GET (CHALLENGE_PREFIX ++ challenge_tok c)) = MkResponse 200 (key_authorization c)) →
        poll_ready order f = Ok Ready) →
  with_challenges (validate_order account target) o = (Ok (Ok order, ∅), o').
Proof.
  intros Hnew Hall Hok Hnd Hca. set (s := MkIssue o' (foldl store_challenge ∅ (omap pending (authorizations order)))
    (challenge_tok <$> omap pending (authorizations order))).
  assert (Hrun : validate_order account target (MkIssue o ∅ []) = (Ok order, s)).
  { rw /validate_order. rw (SE_bind_ok _ _ _ order (MkIssue o' ∅ [])); [by rw /on_outside Hnew|].
    rw (SE_bind_ok _ _ _ _ _ (answer_all order _ (MkIssue o' ∅ []) Hall (λ c Hc, proj1 (Hok c Hc)))).
    rw /mbind /SE_bind /gets /lift /=. rw Hca; [|done]. intros c Hc. apply responder_spec. split; [done|].
    exists (challenge_tok c). split_and!; [done|by apply Hok|]. by apply stored_lookup. }
  destruct (challenges_removed account target o) as (r & o2 & E). rw E.
  rw /with_challenges Hrun in E. by injection E as <- _ <-.
Qed.
End order.

(** ** The account is created once *)
Section account.
Context `{!AcmeCa}.
Variable sha256 : bytes → bytes.
Variables staging_url production_url : bytes.

(** An account that had to be created is on the disk afterwards: loading it
    again restores it from the stored credentials and creates none. *)
Theorem account_created_once cfg w a w' :
  faults (disk w) = [] → files (disk w) !! account_path sha256 cfg = None → tmp_path (account_path sha256 cfg) ≠ account_path sha256 cfg →
  load_account sha256 staging_url production_url cfg w = (Ok a, w') →
  ∃ url raw, create_account (contact cfg) url (world w) = (Ok (a, raw), world w') ∧
    ∀ o, utf8_valid raw = true →
    load_account sha256 staging_url production_url cfg (MkAcmeWorld (disk w') o) =
      ((restore_account raw o).1, MkAcmeWorld (disk w') (restore_account raw o).2).
Proof.
  intros Hw Hnone Htmp. rw {1}/load_account. rw (SE_bind_ok _ _ _ () w).
  { rw on_disk_run create_dir_all_healthy //. by destruct w. }
  rw {1}/mbind {1}/SE_bind {1}/gets Hnone bool_decide_false; [by intros []|].
  intros ([] & w1 & H1 & (url & w2 & H2 & (cr & w3 & H3 & ([] & w4 & H4 & H5)%SE_bind_inv)%SE_bind_inv)%SE_bind_inv)%SE_bind_inv.
  injection H1 as _ <-. injection H2 as _ <-. rw /on_world in H3. destruct (create_account _ _ _) as [r o1] eqn:Hcr. injection H3 as -> <-.
  destruct (atomic_write_healthy (account_path sha256 cfg) cr.2 (disk w) Hw) as (d & E & Hd).
  rw on_disk_run /= E in H4. injection H4 as <-. injection H5 as <- <-. exists url, cr.2. split; [rw Hcr; by destruct cr|].
  apply atomic_write_cases in E as [_ E]; [|done]. intros o Hu. simpl.
  rw /load_account. rw (SE_bind_ok _ _ _ () (MkAcmeWorld d o)); [by rw on_disk_run create_dir_all_healthy|].
  rw {1}/mbind {1}/SE_bind {1}/gets E bool_decide_true //=. rw (SE_bind_ok _ _ _ cr.2 (MkAcmeWorld d o)).
  { by rw on_disk_run fs_read_healthy // /= E. }
  rw /mbind /SE_bind /lift from_utf8_ok // /on_world /=. by destruct (restore_account cr.2 o).
Qed.
End account.

(** ** A small CA and certificate library *)
#[global] Instance Response_eq_dec : EqDecision Response.
Proof. solve_decision. Defined.

(** A certificate is its key; it is always due for renewal. *)
#[local] Instance demo_pki : Pki := {|
  X509 := bytes; PKey := bytes; Asn1Time := Z;
  stack_from_pem pem := Ok [pem];
  private_key_from_pem pem := Ok pem;
  new_context := Ok ();
  set_certificate _ := Ok ();
  set_private_key _ _ := Ok ();
  check_private_key c k := ensure (bool_decide (c = k)) "mismatch";
  days_from_now d := Ok d;
  compare_not_after _ t := Ok (if t =? 0 then Gt else Lt);
|}.
Definition demo_challenge : Challenge := MkChallenge (str "tok") (str "tok.key").
(** The orders are numbered; an order is ready when its challenge is served. *)
#[local] Instance demo_ca : AcmeCa := {|
  Account := unit; Order := nat; Outside := nat;
  try_bind _ := mret ();
  new_order _ _ := λ n, (Ok n, S n);
  authorizations _ := [Ok (MkAuthz Pending (Some demo_challenge)); Ok (MkAuthz AuthzValid None)];
  set_ready _ _ := Ok ();
  poll_ready _ f :=
    Ok (if bool_decide (f (MkRequest GET (CHALLENGE_PREFIX ++ str "tok")) = MkResponse 200 (str "tok.key")) then Ready else OrderOther);
  finalize n := Ok [Z.of_nat n];
  poll_certificate n := Ok [Z.of_nat n];
  restore_account _ := mret ();
  create_account _ _ := mret ((), str "{}");
|}.
Definition demo_target : AcmeTarget := MkAcmeTarget [str "a.org"] (str "d") (str "d/cert.pem") (str "d/key.pem").
Definition demo_manager : AcmeManager := MkManager default_acme_config () [demo_target].
Definition demo_files : gmap bytes bytes := {[str "d/cert.pem" := [7]; str "d/key.pem" := [7]]}.
(** The eighth operation, the write of the new certificate, fails. *)
Definition demo_world : AcmeWorld := MkAcmeWorld (MkDisk demo_files (replicate 7 None ++ [Some Refused])) 0%nat.

Lemma demo_target_paths : target_paths demo_target.
Proof. by_decide. Qed.

(** A renewal that fails between the two files loses the cached certificate:
    preparing succeeds and goes on with the cached pair, but its key has been
    replaced, so the pair on the disk no longer belongs together. *)
Theorem renewal_loses_certificate :
  usable demo_world demo_target ∧
  (prepare_certificates demo_manager demo_world).1 = Ok () ∧
  ¬ usable (prepare_certificates demo_manager demo_world).2 demo_target.
Proof.
  split; [exists [7], [7]; split_and!; by vm_compute|]. split; [by vm_compute|].
  intros (c & k & Hc & Hk & Hv). vm_compute in Hc. vm_compute in Hk. injection Hc as <-. injection Hk as <-. by vm_compute in Hv.
Qed.

Lemma http01_validates_witness :
  with_challenges (validate_order () demo_target) 5%nat = (Ok (Ok 5%nat, ∅), 6%nat).
Proof.
  apply (@http01_validates demo_ca () demo_target 5%nat 5%nat 6%nat); [done|by repeat constructor; eexists| | |].
  - intros c. simpl. intros [->|[]%elem_of_nil]%elem_of_cons. split; [done|]. by_decide.
  - by_decide.
  - intros f Hf. simpl. rw (Hf demo_challenge); [by left|]. by rw bool_decide_true.
Defined.

Lemma issue_certificate_atomic_witness :
  let w' := (issue_certificate demo_manager demo_target demo_world).2 in
  (∀ p, p ∉ [cert_path demo_target; key_path demo_target; tmp_path (cert_path demo_target); tmp_path (key_path demo_target)] →
    on_file w' p = on_file demo_world p) ∧
  on_file w' (cert_path demo_target) = Some [0].
Proof.
  destruct (issue_certificate_atomic demo_manager demo_target demo_world _ _ demo_target_paths (surjective_pairing _)) as [Hkept _].
  split; [exact Hkept|by vm_compute].
Defined.

(** The example configuration on an empty disk. *)
Definition prepare_config : Config :=
  MkConfig None (Some (MkAcme (str "staging") (str "cache") (socket_addr_new UNSPECIFIED_V4 80) 30 true []))
    (inbounds acme_example) [] (MkRouting None []).
Definition prepare_run : Result (option AcmeManager * Config) * AcmeWorld :=
  acme_prepare (λ _, repeat 171 32) (str "https://s") (str "https://p") (λ x, (map_to_list x).*2) prepare_config
    (MkAcmeWorld (MkDisk ∅ []) 3%nat).
Definition prepare_result : option AcmeManager * Config :=
  match prepare_run.1 with Ok x => x | Err _ => (None, prepare_config) end.
Lemma prepare_run_is_ok : is_ok prepare_run.1 = true.
Proof. by vm_compute. Qed.
Lemma prepare_run_ok :
  acme_prepare (λ _, repeat 171 32) (str "https://s") (str "https://p") (λ x, (map_to_list x).*2) prepare_config
    (MkAcmeWorld (MkDisk ∅ []) 3%nat) = (Ok (prepare_result.1, prepare_result.2), prepare_run.2).
Proof.
  fold prepare_run. rw /prepare_result. pose proof prepare_run_is_ok as Hok. by destruct prepare_run as [[[]|] w].
Qed.

Lemma acme_prepare_usable_witness :
  length (inbounds prepare_result.2) = 3%nat ∧
  ∃ i, inbounds prepare_result.2 !! 1%nat = Some i ∧ in_tls i = None.
Proof.
  assert (Hw : healthy (MkAcmeWorld (MkDisk ∅ []) 3%nat)) by done.
  pose proof (acme_prepare_usable _ _ _ _ _ _ _ _ _ (λ x, reflexivity _) Hw prepare_run_ok) as Hp.
  split; [by rw -(Forall2_length _ _ _ Hp)|].
  destruct (Forall2_lookup_l _ _ _ 1%nat _ Hp (eq_refl : inbounds prepare_config !! 1%nat = Some _)) as (i & Hi & Heq).
  exists i. split; [done|]. simpl in Heq. by subst i.
Defined.
