(* ===== verification/Tls.v ===== *)
(** * TLS (src/tls.rs)

    Loading a certificate pair from the disk, the acceptor of an inbound and the
    callback that reloads the pair at every handshake when ACME manages it; and
    the calls that configure the client's side, of which only what they ask of
    the library is modelled. What BoringSSL does with them is a parameter. *)
From S2P Require Import Prelude Text Net AddrParse AddrPrint Config AcmePaths AcmeIssue AcmeSafety AcmeOrder.

Inductive SslVersion := TLS1_2 | TLS1_3.
#[global] Instance SslVersion_eq_dec : EqDecision SslVersion.
Proof. solve_decision. Defined.
(** The calls that configure a connector, a context or a connection. *)
Inductive Setting :=
  | MinProtoVersion (v : SslVersion)
  | MaxProtoVersion (v : SslVersion)
  | AlpnProtos (protos : bytes)
  | CipherList (ciphers : bytes)
  | CurvesList (groups : bytes)
  | SigalgsList (algorithms : bytes)
  | GreaseEnabled
  | PermuteExtensions
  | OcspStapling
  | SignedCertTimestamps
  | BrotliCertificateDecompressor
  | NoCompression
  | CaFile (path : bytes)
  | DefaultVerifyPaths
  | VerifyNone
  | EchGrease
  | ApplicationSettings (proto settings : bytes).
#[global] Instance Setting_eq_dec : EqDecision Setting.
Proof. solve_decision. Defined.

(** The calls that return nothing cannot fail. *)
Definition infallible (s : Setting) : bool :=
  match s with
  | GreaseEnabled | PermuteExtensions | OcspStapling | SignedCertTimestamps | NoCompression | VerifyNone | EchGrease => true
  | _ => false
  end.

(** The TLS library beyond certificates: making an acceptor or a connector,
    configuring it, giving a pair to a connection, and the choice of a
    protocol. *)
Class TlsLib `{!Pki} := {
  mozilla_acceptor : Result ();
  connector_builder : Result ();
  tls_set : Setting → Result ();
  add_extra_chain_cert : X509 → Result ();
  ssl_set_certificate : X509 → Result ();
  ssl_set_private_key : X509 → PKey → Result ();
  ssl_add_chain_cert : X509 → Result ();
  select_next_proto : bytes → bytes → option bytes;
}.

Definition SERVER_ALPN_PREFERENCE : bytes := [2] ++ str "h2" ++ [8] ++ str "http/1.1".
Definition CHROME_TLS12_CIPHERS : bytes := join_with [COLON]
  [str "ECDHE-ECDSA-AES128-GCM-SHA256"; str "ECDHE-RSA-AES128-GCM-SHA256"; str "ECDHE-ECDSA-AES256-GCM-SHA384";
   str "ECDHE-RSA-AES256-GCM-SHA384"; str "ECDHE-ECDSA-CHACHA20-POLY1305"; str "ECDHE-RSA-CHACHA20-POLY1305";
   str "ECDHE-RSA-AES128-SHA"; str "ECDHE-RSA-AES256-SHA"; str "AES128-GCM-SHA256"; str "AES256-GCM-SHA384";
   str "AES128-SHA"; str "AES256-SHA"].
Definition CHROME_SIGNATURE_ALGORITHMS : bytes := join_with [COLON]
  [str "ecdsa_secp256r1_sha256"; str "rsa_pss_rsae_sha256"; str "rsa_pkcs1_sha256"; str "ecdsa_secp384r1_sha384";
   str "rsa_pss_rsae_sha384"; str "rsa_pkcs1_sha384"; str "rsa_pss_rsae_sha512"; str "rsa_pkcs1_sha512"].
Definition CHROME_SUPPORTED_GROUPS : bytes := str "X25519MLKEM768:X25519:P-256:P-384".
Definition CHROME_H2_ALPS_SETTINGS : bytes :=
  [0; 1; 0; 0; 1; 0] ++ [0; 2; 0; 0; 0; 0] ++ [0; 4; 0; 0x60; 0; 0] ++ [0; 6; 0; 4; 0; 0].

Section tls.
Context `{!Pki, !TlsLib}.

(** ** The client's side *)

(** The calls are made in order and end with the first that fails; what has
    been configured is the list of the calls. *)
Definition configure (settings : list Setting) : Result (list Setting) :=
  for_result (λ s, if infallible s then Ok () else tls_set s) settings ;;
  Ok settings.

Definition chrome_like_connector (insecure : bool) (ca_certificate : option bytes) : Result (list Setting) :=
  connector_builder ;;
  configure
    ([MinProtoVersion TLS1_2; MaxProtoVersion TLS1_3; AlpnProtos ([2] ++ str "h2" ++ [8] ++ str "http/1.1");
      CipherList CHROME_TLS12_CIPHERS; CurvesList CHROME_SUPPORTED_GROUPS; SigalgsList CHROME_SIGNATURE_ALGORITHMS;
      GreaseEnabled; PermuteExtensions; OcspStapling; SignedCertTimestamps; BrotliCertificateDecompressor; NoCompression]
     ++ match ca_certificate with Some path => [CaFile path] | None => [] end
     ++ if insecure then [VerifyNone] else []).

Definition configure_chrome_like_ssl : Result (list Setting) :=
  configure [EchGrease; ApplicationSettings (str "h2") CHROME_H2_ALPS_SETTINGS].

Definition chrome_like_quic_client_context (ca_certificate : option bytes) : Result (list Setting) :=
  new_context ;;
  configure
    ([MinProtoVersion TLS1_3; MaxProtoVersion TLS1_3; CurvesList CHROME_SUPPORTED_GROUPS;
      SigalgsList CHROME_SIGNATURE_ALGORITHMS; GreaseEnabled; PermuteExtensions; BrotliCertificateDecompressor]
     ++ match ca_certificate with Some path => [CaFile path] | None => [DefaultVerifyPaths] end
     ++ [NoCompression]).

(** [ChromeQuicClientHook]: [None] leaves the context to the QUIC library. *)
Definition create_custom_client_ssl_context_builder (ca_certificate : option bytes) : option (list Setting) :=
  match chrome_like_quic_client_context ca_certificate with Ok builder => Some builder | Err _ => None end.

(** ** The server's side *)

(** What a context or connection presents. *)
Record Loaded := MkLoaded { leaf : X509; loaded_key : PKey; chain : list X509 }.

Definition load_certificate_pair (cert_path key_path : bytes) : SE Disk (list X509 * PKey) :=
  cert_pem ← fs_read cert_path;
  key_pem ← fs_read key_path;
  certs ← lift (stack_from_pem cert_pem);
  lift (ensure (match certs with [] => false | _ => true end) "TLS certificate chain is empty") ;;
  key ← lift (private_key_from_pem key_pem);
  mret (certs, key).

Definition load_certificate_into_context (cert_path key_path : bytes) : SE Disk Loaded :=
  pair ← load_certificate_pair cert_path key_path;
  match pair.1 with
  | [] => throw (EMsg "TLS certificate chain is empty")
  | leaf :: chain =>
      lift (set_certificate leaf) ;;
      lift (set_private_key leaf pair.2) ;;
      lift (for_result add_extra_chain_cert chain) ;;
      lift (check_private_key leaf pair.2) ;;
      mret (MkLoaded leaf pair.2 chain)
  end.

Definition load_certificate_into_ssl (cert_path key_path : bytes) : SE Disk Loaded :=
  pair ← load_certificate_pair cert_path key_path;
  match pair.1 with
  | [] => throw (EMsg "TLS certificate chain is empty")
  | leaf :: chain =>
      lift (ssl_set_certificate leaf) ;;
      lift (ssl_set_private_key leaf pair.2) ;;
      lift (for_result ssl_add_chain_cert chain) ;;
      mret (MkLoaded leaf pair.2 chain)
  end.

(** An acceptor: what it loaded, and the paths its callback reloads from. *)
Record Acceptor := MkAcceptor { acc_loaded : Loaded; acc_reload : option (bytes * bytes) }.

Definition server_acceptor (tls : TlsServerConfig) : SE Disk Acceptor :=
  cert_path ← lift (certificate_path tls);
  key_path ← lift (private_key_path tls);
  lift mozilla_acceptor ;;
  lift (configure [MinProtoVersion TLS1_2; MaxProtoVersion TLS1_3]) ;;
  loaded ← load_certificate_into_context cert_path key_path;
  mret (MkAcceptor loaded (if is_some (tls_acme tls) then Some (cert_path, key_path) else None)).

(** The certificate of a handshake: the callback of
    [install_certificate_reload_callback], or what was loaded. *)
Definition handshake_certificate (a : Acceptor) : SE Disk Loaded :=
  match acc_reload a with
  | Some (cert_path, key_path) => load_certificate_into_ssl cert_path key_path
  | None => mret (acc_loaded a)
  end.

(** The protocol an acceptor chooses; [None] goes on without one. *)
Definition alpn_select (client_protocols : bytes) : option bytes :=
  select_next_proto SERVER_ALPN_PREFERENCE client_protocols.

(** The hook of a QUIC server, and the context it makes for a connection. *)
Definition quic_hooks (tls : TlsServerConfig) : Result (option (bytes * bytes)) :=
  if negb (is_some (tls_acme tls)) then Ok None
  else
    cert_path ← certificate_path tls;
    key_path ← private_key_path tls;
    Ok (Some (cert_path, key_path)).
Definition create_custom_ssl_context_builder (hook : bytes * bytes) : SE Disk (option Acceptor) :=
  match new_context with
  | Err _ => mret None
  | Ok _ =>
      loaded ← attempt (load_certificate_into_context hook.1 hook.2);
      match loaded with
      | Err _ => mret None
      | Ok loaded => mret (Some (MkAcceptor loaded (Some hook)))
      end
  end.

(** ** What the client checks *)
Lemma configure_ok l r : configure l = Ok r → r = l ∧ ∀ s, s ∈ l → infallible s = false → tls_set s = Ok ().
Proof.
  rw /configure. intros ([] & Hf & Hr)%Result_bind_inv. injection Hr as <-. split; [done|].
  induction l as [|x l IH]; intros s Hs Hi; [by apply elem_of_nil in Hs|]. cbn [for_result] in Hf.
  apply Result_bind_inv in Hf as ([] & Hx & Hf). apply elem_of_cons in Hs as [->|Hs]; [by rw Hi in Hx|by apply IH].
Qed.

(** A connector verifies the server unless the outbound is insecure; a CA file
    that is configured has been loaded, in which case no other is; and nothing
    below TLS 1.2 is offered. *)
Theorem connector_verifies insecure ca l :
  chrome_like_connector insecure ca = Ok l →
  (VerifyNone ∈ l ↔ insecure = true) ∧ MinProtoVersion TLS1_2 ∈ l ∧
  (∀ path, CaFile path ∈ l ↔ ca = Some path) ∧ (∀ path, ca = Some path → tls_set (CaFile path) = Ok ()).
Proof.
  rw /chrome_like_connector. intros ([] & _ & [-> Hall]%configure_ok)%Result_bind_inv.
  split_and!.
  - destruct ca, insecure; set_solver.
  - apply elem_of_app. left. set_solver.
  - intros path. destruct ca, insecure; set_solver.
  - intros path ->. apply Hall; [|done]. set_solver.
Qed.

(** The QUIC hook takes a CA file that loads, the default roots when none is
    configured, and leaves the connection to the QUIC library when its CA file
    cannot be loaded. *)
Theorem quic_hook_trust ca :
  (∀ l, create_custom_client_ssl_context_builder ca = Some l →
    MinProtoVersion TLS1_3 ∈ l ∧ (∀ path, CaFile path ∈ l ↔ ca = Some path) ∧ (DefaultVerifyPaths ∈ l ↔ ca = None)) ∧
  (∀ path e, ca = Some path → tls_set (CaFile path) = Err e → create_custom_client_ssl_context_builder ca = None).
Proof.
  rw /create_custom_client_ssl_context_builder. split.
  - intros l. destruct (chrome_like_quic_client_context ca) as [b|] eqn:E; [|done]. intros [= <-].
    revert E. rw /chrome_like_quic_client_context. intros ([] & _ & [-> _]%configure_ok)%Result_bind_inv.
    destruct ca; set_solver.
  - intros path e -> He. destruct (chrome_like_quic_client_context (Some path)) as [b|] eqn:E; [|done].
    revert E. rw /chrome_like_quic_client_context. intros ([] & _ & [_ Hall]%configure_ok)%Result_bind_inv.
    specialize (Hall (CaFile path)). rw He in Hall. exfalso. enough (Err e = Ok ()) by done. apply Hall; [set_solver|done].
Qed.

(** ** Loading what is on the disk *)
Hypothesis chain_ok : ∀ c, add_extra_chain_cert c = Ok () ∧ ssl_add_chain_cert c = Ok ().
(** A connection takes a pair that a context takes. *)
Definition context_takes (c : X509) (k : PKey) : Prop :=
  set_certificate c = Ok () ∧ set_private_key c k = Ok () ∧ check_private_key c k = Ok ().
Hypothesis ssl_takes : ∀ c k, context_takes c k → ssl_set_certificate c = Ok () ∧ ssl_set_private_key c k = Ok ().

Definition parsed (c k : bytes) (l : Loaded) : Prop :=
  stack_from_pem c = Ok (leaf l :: chain l) ∧ private_key_from_pem k = Ok (loaded_key l).

Lemma load_pair_healthy cp kp d c k :
  faults d = [] → files d !! cp = Some c → files d !! kp = Some k → validate_certificate_pair_bytes c k = Ok () →
  ∃ l, parsed c k l ∧ context_takes (leaf l) (loaded_key l) ∧
    load_certificate_pair cp kp d = (Ok (leaf l :: chain l, loaded_key l), d).
Proof.
  intros Hf Hc Hk. rw /validate_certificate_pair_bytes /load_certificate_pair /parsed.
  intros (certs & Hcs & Hv)%Result_bind_inv. destruct certs as [|x xs]; [done|].
  apply Result_bind_inv in Hv as (key & Hkey & Hv). apply Result_bind_inv in Hv as ([] & _ & Hv). apply Result_bind_inv in Hv as ([] & Hsc & Hv).
  apply Result_bind_inv in Hv as ([] & Hsk & Hv). exists (MkLoaded x key xs). split; [done|]. split; [done|].
  rw (SE_bind_ok _ _ _ c d); [by rw fs_read_healthy // Hc|]. rw (SE_bind_ok _ _ _ k d); [by rw fs_read_healthy // Hk|].
  by rw /mbind /SE_bind /lift Hcs /= Hkey.
Qed.

Lemma chain_loads l : for_result add_extra_chain_cert l = Ok () ∧ for_result ssl_add_chain_cert l = Ok ().
Proof. split; apply for_result_ok, Forall_forall; intros x _; apply chain_ok. Qed.

Lemma load_context_healthy cp kp d c k :
  faults d = [] → files d !! cp = Some c → files d !! kp = Some k → validate_certificate_pair_bytes c k = Ok () →
  ∃ l, parsed c k l ∧ load_certificate_into_context cp kp d = (Ok l, d) ∧ load_certificate_into_ssl cp kp d = (Ok l, d).
Proof.
  intros Hf Hc Hk Hv. destruct (load_pair_healthy _ _ _ _ _ Hf Hc Hk Hv) as (l & Hp & Hck & E). exists l. split; [done|].
  rw /load_certificate_into_context /load_certificate_into_ssl !(SE_bind_ok _ _ _ _ _ E).
  destruct (chain_loads (chain l)) as [Hc1 Hc2], (ssl_takes _ _ Hck) as [Hs1 Hs2], Hck as (Hk1 & Hk2 & Hk3).
  rw /mbind /SE_bind /lift /= Hk1 Hk2 Hk3 Hc1 Hc2 Hs1 Hs2. by destruct l.
Qed.

(** Whatever the state of the disk, a pair that is loaded is the one on it. *)
Lemma fs_read_inv path d data d' : fs_read path d = (Ok data, d') → files d !! path = Some data ∧ files d' = files d.
Proof.
  intros Hrd. split; [|by eapply fs_read_files]. revert Hrd. rw /fs_read /mbind /SE_bind next_fault_run /gets /=.
  destruct (default None _); [done|]. destruct (files d !! path); [|done]. by intros [= <- _].
Qed.

Lemma load_ssl_inv cp kp d l d' :
  load_certificate_into_ssl cp kp d = (Ok l, d') →
  ∃ c k, files d !! cp = Some c ∧ files d !! kp = Some k ∧ parsed c k l.
Proof.
  rw /load_certificate_into_ssl. intros ([certs key] & d1 & Hp & Hl)%SE_bind_inv.
  rw /load_certificate_pair in Hp. apply SE_bind_inv in Hp as (c & d2 & [Hc Hd2]%fs_read_inv & Hp).
  apply SE_bind_inv in Hp as (k & d3 & [Hk _]%fs_read_inv & Hp). rw Hd2 in Hk. exists c, k. split_and!; [done..|].
  apply SE_bind_inv in Hp as (cs & d4 & Hcs & Hp). injection Hcs as Hcs <-.
  apply SE_bind_inv in Hp as ([] & d5 & _ & Hp). apply SE_bind_inv in Hp as (k' & d6 & Hk' & Hp).
  injection Hk' as Hk' <-. injection Hp as <- <- <-. cbn [fst snd] in Hl. destruct cs as [|x xs]; [done|].
  apply SE_bind_inv in Hl as ([] & d7 & _ & Hl). apply SE_bind_inv in Hl as ([] & d8 & _ & Hl).
  apply SE_bind_inv in Hl as ([] & d9 & _ & Hl). by injection Hl as <- _.
Qed.

Section rotation.
Context `{!AcmeCa}.
Implicit Types (m : AcmeManager) (t : AcmeTarget) (w : AcmeWorld).

Lemma renew_if_due_keeps m t w r w' :
  healthy w → target_paths t → renew_if_due m t w = (r, w') →
  healthy w' ∧ ∀ t', target_paths t' → usable w t' → usable w' t'.
Proof.
  intros Hw Ht. rw /renew_if_due. destruct (cache_status_healthy t (renew_before_days (mgr_cfg m)) w Hw) as (st & E & _).
  rw (SE_bind_ok _ _ _ _ _ E). assert (Hissue : issue_certificate m t w = (r, w') →
    healthy w' ∧ ∀ t', target_paths t' → usable w t' → usable w' t').
  { intros Hi. split; [by apply (issue_healthy m t w r w')|]. intros t' Ht'. by apply (issue_keeps_usable m t t' w r w'). }
  destruct st; [|exact Hissue..]. by intros [= <- <-].
Qed.

Lemma renewal_round_keeps m w :
  healthy w → Forall target_paths (mgr_targets m) →
  healthy (renewal_round m w).2 ∧ ∀ t, target_paths t → usable w t → usable (renewal_round m w).2 t.
Proof.
  rw /renewal_round. intros Hw Hl. revert w Hw. induction Hl as [|t l Ht _ IH]; intros w Hw; [done|]. cbn [for_each].
  destruct (renew_if_due m t w) as [r w1] eqn:E. destruct (renew_if_due_keeps _ _ _ _ _ Hw Ht E) as [Hw1 Hu1].
  rw !(SE_bind_ok _ _ w () w1); [by rw /mbind /SE_bind /attempt E|].
  destruct (IH w1 Hw1) as [Hw2 Hu2]. split; [done|]. intros t' Ht' Hu. by apply Hu2, Hu1.
Qed.

(** Renewal rounds, the world outside changing in between. *)
Definition after_rounds m (outs : list Outside) w : AcmeWorld :=
  fold_left (λ w o, (renewal_round m (MkAcmeWorld (disk w) o)).2) outs w.
Lemma after_rounds_keeps m outs w :
  healthy w → Forall target_paths (mgr_targets m) →
  healthy (after_rounds m outs w) ∧ ∀ t, target_paths t → usable w t → usable (after_rounds m outs w) t.
Proof.
  intros Hw Hl. revert w Hw. induction outs as [|o outs IH]; intros w Hw; [done|]. simpl.
  destruct (renewal_round_keeps m (MkAcmeWorld (disk w) o) Hw Hl) as [Hw1 Hu1]. destruct (IH _ Hw1) as [Hw2 Hu2].
  split; [done|]. intros t Ht Hu. by apply Hu2, Hu1.
Qed.

(** The library makes an acceptor for TLS 1.2 and 1.3. *)
Definition acceptor_made : Prop :=
  mozilla_acceptor = Ok () ∧ tls_set (MinProtoVersion TLS1_2) = Ok () ∧ tls_set (MaxProtoVersion TLS1_3) = Ok ().

(** C23: Certificates rotate without a restart. For a target with a usable pair
    the acceptor of its inbounds is made. After any number of whole renewal
    rounds on a disk that does not fail, whatever the CA answers, a handshake of
    that acceptor still succeeds and presents the certificate, chain and key
    that are on the disk then. And at any other moment, between the writes of a
    key and of its certificate or on a disk that fails, a handshake that
    succeeds presents what is on the disk at that moment, never what was loaded
    before (it may then also fail). *)
Theorem certificates_rotate m t w :
  acceptor_made → Forall target_paths (mgr_targets m) → target_paths t → healthy w → usable w t →
  ∃ acc, server_acceptor (tls_of t) (disk w) = (Ok acc, disk w) ∧
  (∀ outs, let w' := after_rounds m outs w in
    ∃ c k l, on_file w' (cert_path t) = Some c ∧ on_file w' (key_path t) = Some k ∧ parsed c k l ∧
      handshake_certificate acc (disk w') = (Ok l, disk w')) ∧
  (∀ d l d', handshake_certificate acc d = (Ok l, d') →
    ∃ c k, files d !! cert_path t = Some c ∧ files d !! key_path t = Some k ∧ parsed c k l).
Proof.
  intros (Hmoz & Hmin & Hmax) Hl Ht Hw (c & k & Hc & Hk & Hv). destruct (load_context_healthy _ _ _ _ _ Hw Hc Hk Hv) as (l & Hp & Hload & _).
  exists (MkAcceptor l (Some (cert_path t, key_path t))). split.
  { rw /server_acceptor /tls_of /certificate_path /private_key_path /=. rw /mbind /SE_bind /lift /= Hmoz /configure /= Hmin /= Hmax.
    by rw Hload. }
  split; [|intros d l' d' Hh; by apply (load_ssl_inv _ _ d l' d')]. intros outs w'. destruct (after_rounds_keeps m outs w Hw Hl) as [Hw' Hu'].
  destruct (Hu' t Ht) as (c' & k' & Hc' & Hk' & Hv'); [by exists c, k|]. fold w' in Hw', Hc', Hk'.
  destruct (load_context_healthy _ _ _ _ _ Hw' Hc' Hk' Hv') as (l' & Hp' & _ & Hssl). by exists c', k', l'.
Qed.
End rotation.
End tls.

#[local] Existing Instance demo_pki.
#[local] Existing Instance demo_ca.
#[local] Instance demo_tls : TlsLib := {|
  mozilla_acceptor := Ok ();
  connector_builder := Ok ();
  tls_set _ := Ok ();
  add_extra_chain_cert _ := Ok ();
  ssl_set_certificate _ := Ok ();
  ssl_set_private_key c k := check_private_key c k;
  ssl_add_chain_cert _ := Ok ();
  select_next_proto _ _ := None;
|}.
Definition demo_healthy : AcmeWorld := MkAcmeWorld (MkDisk demo_files []) 4%nat.

(** One round replaces the pair of the demonstration, and the acceptor made
    before it presents the new one. *)
Lemma certificates_rotate_witness :
  ∃ acc, server_acceptor (tls_of demo_target) (disk demo_healthy) = (Ok acc, disk demo_healthy) ∧
  leaf (acc_loaded acc) = [7] ∧
  ∃ l, (handshake_certificate acc (disk (after_rounds demo_manager [9%nat] demo_healthy))).1 = Ok l ∧ leaf l = [9].
Proof.
  destruct (@certificates_rotate demo_pki demo_tls (λ _, conj eq_refl eq_refl) (λ _ _ H, conj eq_refl (proj2 (proj2 H))) demo_ca demo_manager demo_target demo_healthy)
    as (acc & Hacc & Hrot & _); [done|by repeat constructor; apply demo_target_paths|apply demo_target_paths|done| |].
  { exists [7], [7]. split_and!; by vm_compute. }
  destruct (Hrot [9%nat]) as (c & k & l & Hc & Hk & Hp & Hh). exists acc. split; [done|]. split.
  - vm_compute in Hacc. by injection Hacc as <-.
  - exists l. split; [by rw Hh|]. vm_compute in Hc. injection Hc as <-. destruct Hp as [Hp _]. by injection Hp.
Defined.
