(* ===== verification/Socks5Codec.v ===== *)
(** * SOCKS5 wire format (src/protocol/socks5/codec.rs) *)
From S2P Require Import Prelude Io Text Net.

Definition VERSION : Z := 0x05.
Definition CMD_CONNECT : Z := 0x01.
Definition CMD_UDP_ASSOCIATE : Z := 0x03.
Definition ATYP_IPV4 : Z := 0x01.
Definition ATYP_DOMAIN : Z := 0x03.
Definition ATYP_IPV6 : Z := 0x04.

Definition v4_octets (ip : IpAddr) : bytes := match ip with V4 o => o | V6 _ => [] end.
Definition v6_octets (ip : IpAddr) : bytes := match ip with V6 o => o | V4 _ => [] end.

Definition encode_addr (target : TargetAddr) : Result bytes :=
  match target with
  | Ip addr =>
      if is_ipv4 addr then
        Ok ([ATYP_IPV4] ++ v4_octets (sa_ip addr) ++ be_bytes 2 (sa_port addr))
      else
        Ok ([ATYP_IPV6] ++ v6_octets (sa_ip addr) ++ be_bytes 2 (sa_port addr))
  | Domain host port =>
      ensure (len host <=? 255) "domain is too long for socks5" ;;
      Ok ([ATYP_DOMAIN] ++ [as_u8 (len host)] ++ host ++ be_bytes 2 port)
  end.

Section reader.
Context {S : Type} `{!ByteReader S}.

(** The body of [decode_addr], on its cursor. *)
Definition decode_addr_from : SE S TargetAddr :=
  atyp ← read_u8;
  if atyp =? ATYP_IPV4 then
    octets ← read_exact 4;
    port ← read_u16;
    mret (Ip (socket_addr_new (V4 octets) port))
  else if atyp =? ATYP_DOMAIN then
    n ← read_u8;
    host ← read_exact (Z.to_nat n);
    port ← read_u16;
    host ← lift (from_utf8 host);
    mret (Domain host port)
  else if atyp =? ATYP_IPV6 then
    octets ← read_exact 16;
    port ← read_u16;
    mret (Ip (socket_addr_new (V6 octets) port))
  else throw (EMsg "unsupported socks5 address type").
End reader.

Definition decode_addr (data : bytes) : Result (TargetAddr * nat) :=
  run_cursor decode_addr_from data.

Definition encode_udp_packet (target : TargetAddr) (payload : bytes) : Result bytes :=
  addr ← encode_addr target;
  Ok ([0; 0; 0] ++ addr ++ payload).

Definition decode_udp_packet (data : bytes) : Result (TargetAddr * bytes) :=
  ensure (4 <=? len data) "short socks5 udp packet" ;;
  ensure ((data !!! 0%nat =? 0) && (data !!! 1%nat =? 0)) "invalid socks5 udp reserved bytes" ;;
  ensure (data !!! 2%nat =? 0) "fragmented socks5 udp packets are not supported" ;;
  '(target, consumed) ← decode_addr (drop 3 data);
  Ok (target, drop (3 + consumed) data).

(** ** The address format *)

(** The bytes of an address that fits the wire. *)
Definition addr_wire (t : TargetAddr) : bytes :=
  match t with
  | Ip (SockV4 o p) => [ATYP_IPV4] ++ o ++ be_bytes 2 p
  | Ip (SockV6 o p _ _) => [ATYP_IPV6] ++ o ++ be_bytes 2 p
  | Domain h p => [ATYP_DOMAIN] ++ [len h] ++ h ++ be_bytes 2 p
  end.

Lemma as_u8_len (h : bytes) : len h ≤ 255 → as_u8 (len h) = len h.
Proof. intros H. apply Z.mod_small. pose proof (len_nonneg h). lia. Qed.

Lemma encode_addr_wire t : fits_wire t = true → encode_addr t = Ok (addr_wire t).
Proof.
  destruct t as [[o p|o p f s]|h p]; [done..|]. simpl. intros H.
  rw H. cbn. rw as_u8_len; [lia|done].
Qed.

Lemma encode_addr_too_long t : fits_wire t = false → encode_addr t = Err (EMsg "domain is too long for socks5").
Proof. destruct t as [[o p|o p f s]|h p]; [done..|]. simpl. by intros ->. Qed.

Lemma decode_addr_parses {S} `{!ByteReader S} t :
  wf_target t → fits_wire t = true →
  parses decode_addr_from (addr_wire t) (wire_target t).
Proof.
  destruct t as [[o p|o p f s]|h p].
  - intros ((Ho & _) & Hp & _) _. do 2 parse_step. by parse_step.
  - intros ((Ho & _) & Hp & _) _. do 2 parse_step. by parse_step.
  - intros [Hh Hp] Hfit. simpl in Hfit. do 2 parse_step.
    eapply parses_bind; [apply parses_exact; rw /len; lia|]. parse_step.
    + rw from_utf8_ok; [done|]. reflexivity.
Qed.

(** The two shapes of address bodies, inverted. *)
Lemma ip_body_adv {S} `{!ByteReader S} n (f : bytes → Z → TargetAddr) s t s' :
  good s → (octets ← read_exact n; port ← read_u16; mret (f octets port)) s = (Ok t, s') →
  ∃ o p, t = f o p ∧ length o = n ∧ wf_bytes o ∧ is_u16 p ∧ adv s (o ++ be_bytes 2 p) s'.
Proof.
  intros Hg H. invert_field H. invert_field H. injection H as <- <-.
  destruct Hx. eauto 10 with reading.
Qed.

Lemma domain_body_adv {S} `{!ByteReader S} s t s' :
  good s →
  (n ← read_u8; host ← read_exact (Z.to_nat n); port ← read_u16;
   host ← lift (from_utf8 host); mret (Domain host port)) s = (Ok t, s') →
  ∃ h p, t = Domain h p ∧ utf8_valid h = true ∧ len h ≤ 255 ∧ is_u16 p ∧
         adv s ([len h] ++ h ++ be_bytes 2 p) s'.
Proof.
  intros Hg H. invert_field H. invert_field H. invert_field H.
  invert_bind H. rw /lift /from_utf8 in Hrun.
  destruct (utf8_valid x0) eqn:Hutf; [|done]. injection Hrun as <- <-. injection H as <- <-.
  destruct Hx0 as [Hlen _]. rw /is_u8 in Hx. exists x0, x1.
  assert (len x0 = x) as -> by (rw /len; lia).
  split_and!; try done; [lia|]. eauto with reading.
Qed.

(** A successful decode read exactly the encoding of the address it returns. *)
Lemma decode_addr_adv {S} `{!ByteReader S} s t s' :
  good s → decode_addr_from s = (Ok t, s') →
  adv s (addr_wire t) s' ∧ wf_target t ∧ fits_wire t = true.
Proof.
  intros Hg H. rw /decode_addr_from in H. invert_field H.
  destruct (Z.eqb_spec x ATYP_IPV4) as [->|N4];
    [|destruct (Z.eqb_spec x ATYP_DOMAIN) as [->|Nd];
      [|destruct (Z.eqb_spec x ATYP_IPV6) as [->|N6]; [|done]]].
  - apply ip_body_adv in H as (o & p & -> & ? & ? & ? & Hb); [|by eauto with reading].
    split; [exact (adv_trans _ _ _ _ _ Hadv Hb)|done].
  - apply domain_body_adv in H as (h & p & -> & ? & ? & ? & Hb); [|by eauto with reading].
    split; [exact (adv_trans _ _ _ _ _ Hadv Hb)|]. split; [done|]. simpl. lia.
  - apply ip_body_adv in H as (o & p & -> & ? & ? & ? & Hb); [|by eauto with reading].
    split; [exact (adv_trans _ _ _ _ _ Hadv Hb)|]. split; [|done].
    split; [done|]. split; [done|]. split; rw /is_u32; lia.
Qed.

Lemma cursor_good data : wf_bytes data → good (cursor_new data).
Proof. intros H. split; [simpl; lia|done]. Qed.

Lemma cursor_adv data l c :
  adv (cursor_new data) l c → data = l ++ drop (cpos c) data ∧ cpos c = length l.
Proof.
  intros (Hp & [Hok _] & Hfr). simpl in *. rw Hfr in Hp Hok. split; [exact Hp|].
  apply (f_equal length) in Hp. rw length_app !length_drop in Hp. lia.
Qed.

(** ** Properties *)

(** Encoding an address that fits the wire and decoding it, whatever bytes
    follow, gives the address back (the flow label and scope id of an IPv6
    socket address, which the format does not carry, read as zero) and consumes
    exactly the encoding; every truncation of it is rejected as an unexpected
    end of input. *)
Lemma addr_roundtrip t rest k :
  wf_target t → fits_wire t = true →
  ∃ enc, encode_addr t = Ok enc ∧
    decode_addr (enc ++ rest) = Ok (wire_target t, length enc) ∧
    ((k < length enc)%nat → decode_addr (take k enc) = Err (EIo UnexpectedEof)).
Proof.
  intros Hwf Hfit. destruct (decode_addr_parses (S:=Cursor) t Hwf Hfit) as [Hr Hn].
  exists (addr_wire t). split_and!; [by apply encode_addr_wire|by apply run_cursor_ok|].
  intros Hk. apply (run_cursor_prefix _ _ (drop k (addr_wire t))); [by rw take_drop|].
  intros E%(f_equal length). rw length_drop /= in E. lia.
Qed.

Lemma addr_roundtrip_witness :
  ∃ enc, encode_addr (Domain (str "example.com") 443) = Ok enc ∧
    decode_addr (enc ++ [1; 2]) = Ok (Domain (str "example.com") 443, length enc) ∧
    ((5 < length enc)%nat → decode_addr (take 5 enc) = Err (EIo UnexpectedEof)).
Proof. apply (addr_roundtrip (Domain (str "example.com") 443)); [by_decide|reflexivity]. Defined.

(** Decoding accepts no address it could not have encoded: the consumed
    prefix of the input is the encoding of the decoded address, which is within
    the ranges of its type. Distinct prefixes never decode to one address. *)
Lemma decode_addr_canonical data t n :
  wf_bytes data → decode_addr data = Ok (t, n) →
  wf_target t ∧ (n ≤ length data)%nat ∧ encode_addr t = Ok (take n data).
Proof.
  intros Hwf (c & Hc & <-)%run_cursor_inv.
  apply decode_addr_adv in Hc as (Hadv & Ht & Hfit); [|by apply cursor_good].
  apply cursor_adv in Hadv as [Hd Hn]. rw encode_addr_wire; [done|].
  split_and!; [done| |].
  - rw Hd length_app. lia.
  - f_equal. rw Hd take_app_length'; done.
Qed.

Lemma decode_addr_canonical_witness :
  wf_target (Ip (SockV4 [127; 0; 0; 1] 53)) ∧ (7 ≤ 9)%nat ∧
  encode_addr (Ip (SockV4 [127; 0; 0; 1] 53)) = Ok [1; 127; 0; 0; 1; 0; 53].
Proof.
  apply (decode_addr_canonical [1; 127; 0; 0; 1; 0; 53; 8; 9]); [by_decide|reflexivity].
Defined.

Lemma addr_wire_nonempty t : (1 ≤ length (addr_wire t))%nat.
Proof. destruct t as [[]|]; simpl; lia. Qed.

Lemma udp_packet_decodes t payload :
  wf_target t → fits_wire t = true →
  encode_udp_packet t payload = Ok ([0; 0; 0] ++ addr_wire t ++ payload) ∧
  decode_udp_packet ([0; 0; 0] ++ addr_wire t ++ payload) = Ok (wire_target t, payload).
Proof.
  intros Hwf Hfit. destruct (decode_addr_parses (S:=Cursor) t Hwf Hfit) as [Hr _].
  rw /encode_udp_packet encode_addr_wire; [done|]. split; [done|]. rw /decode_udp_packet.
  pose proof (addr_wire_nonempty t). rw ensure_then.
  { apply Z.leb_le. rw /len /= length_app. lia. }
  do 2 (rw ensure_then; [done|]).
  rw (drop_app_length' [0; 0; 0]); [done|].
  rw /decode_addr (run_cursor_ok _ _ _ _ Hr). cbn [mbind Result_bind].
  by rw app_assoc drop_app_length'.
Qed.

(** A UDP packet survives the SOCKS5 UDP header: decoding what was encoded
    gives the target (without IPv6 flow label and scope id) and the payload. *)
Lemma udp_packet_roundtrip t payload :
  wf_target t → fits_wire t = true →
  ∃ pkt, encode_udp_packet t payload = Ok pkt ∧
    decode_udp_packet pkt = Ok (wire_target t, payload).
Proof. intros Hwf Hfit. eexists. by apply udp_packet_decodes. Qed.

Lemma udp_packet_roundtrip_witness :
  ∃ pkt, encode_udp_packet (Ip (SockV4 [127; 0; 0; 1] 53)) (str "dns") = Ok pkt ∧
    decode_udp_packet pkt = Ok (Ip (SockV4 [127; 0; 0; 1] 53), str "dns").
Proof. apply udp_packet_roundtrip; [by_decide|reflexivity]. Defined.

(** Every datagram the decoder accepts is the encoding of what it returns,
    byte for byte: reserved bytes, fragment number and address are all pinned
    down, so nothing is smuggled past the header. *)
Lemma udp_packet_canonical data t payload :
  wf_bytes data → decode_udp_packet data = Ok (t, payload) →
  wf_target t ∧ encode_udp_packet t payload = Ok data.
Proof.
  intros Hwf H. rw /decode_udp_packet in H.
  apply Result_bind_inv in H as ([] & Hlen%ensure_ok & H).
  apply Result_bind_inv in H as ([] & H01%ensure_ok & H).
  apply Result_bind_inv in H as ([] & H2%ensure_ok & H).
  apply andb_prop in H01 as [H0 H1]. apply Z.eqb_eq in H0, H1, H2. apply Z.leb_le in Hlen.
  apply Result_bind_inv in H as ([t' n] & Hd & [= <- <-]).
  destruct data as [|b0 [|b1 [|b2 data]]]; try (rw /len /= in Hlen; lia).
  simpl in H0, H1, H2. subst. do 3 apply Forall_inv_tail in Hwf.
  apply run_cursor_inv in Hd as (c & Hc & <-).
  apply decode_addr_adv in Hc as (Hadv & Ht & Hfit); [|by apply cursor_good].
  apply cursor_adv in Hadv as [Hd Hn]. split; [done|].
  rw /encode_udp_packet encode_addr_wire; [done|]. cbn [mbind Result_bind].
  simpl in Hd |- *. by rw -Hd.
Qed.

Lemma udp_packet_canonical_witness :
  wf_target (Ip (SockV4 [127; 0; 0; 1] 53)) ∧
  encode_udp_packet (Ip (SockV4 [127; 0; 0; 1] 53)) [8; 9] = Ok [0; 0; 0; 1; 127; 0; 0; 1; 0; 53; 8; 9].
Proof.
  apply (udp_packet_canonical [0; 0; 0; 1; 127; 0; 0; 1; 0; 53; 8; 9]); [by_decide|reflexivity].
Defined.
