(* ===== verification/Socks5Inbound.v ===== *)
(** * SOCKS5 server side (src/protocol/socks5/inbound.rs)

    The method negotiation, the username/password sub-negotiation and the
    request on the control stream; the UDP association as a state machine over
    the events of its [select!] loop. *)
From S2P Require Import Prelude Io Text Net Config Socks5Codec.

Definition UDP_ASSOCIATE_IDLE_TIMEOUT : Z := from_secs (5 * 60).

(** ** Negotiation *)
Definition needs_auth (cfg : InboundConfig) : bool :=
  match users cfg with Some us => negb (Nat.eqb (length us) 0) | None => false end.

Definition user_matches (name pass : bytes) (u : UserConfig) : bool :=
  str_eqb (username u) name && str_eqb (password u) pass.

Definition authenticate (cfg : InboundConfig) : SE Stream () :=
  ver ← read_u8;
  if negb (ver =? 0x01) then throw (EMsg "invalid username/password auth version")
  else
    ulen ← read_u8;
    name ← read_exact (Z.to_nat ulen);
    plen ← read_u8;
    pass ← read_exact (Z.to_nat plen);
    name ← lift (match from_utf8 name with Ok n => Ok n | Err _ => Err (EMsg "username is not utf-8") end);
    pass ← lift (match from_utf8 pass with Ok p => Ok p | Err _ => Err (EMsg "password is not utf-8") end);
    let ok := match users cfg with
              | Some us => existsb (user_matches name pass) us
              | None => false
              end in
    write_all [0x01; if ok then 0x00 else 0x01] ;;
    if negb ok then throw (EMsg "invalid socks5 credentials") else mret ().

Definition handshake (cfg : InboundConfig) : SE Stream () :=
  ver ← read_u8;
  if negb (ver =? 0x05) then throw (EMsg "invalid socks version")
  else
    nmethods ← read_u8;
    methods ← read_exact (Z.to_nat nmethods);
    let method := if needs_auth cfg then 0x02 else 0x00 in
    if negb (contains method methods) then
      write_all [0x05; 0xff] ;;
      throw (EMsg "client did not offer required auth method")
    else
      write_all [0x05; method] ;;
      if needs_auth cfg then authenticate cfg else mret ().

(** ** The request *)
Inductive SocksRequest :=
  | ReqConnect (target : TargetAddr)
  | ReqUdpAssociate (target : TargetAddr).

Definition read_target : SE Stream TargetAddr :=
  atyp ← read_u8;
  if atyp =? ATYP_IPV4 then
    octets ← read_exact 4;
    port ← read_u16;
    mret (target_from (V4 octets) port)
  else if atyp =? ATYP_DOMAIN then
    n ← read_u8;
    host ← read_exact (Z.to_nat n);
    port ← read_u16;
    host ← lift (match from_utf8 host with Ok h => Ok h | Err _ => Err (EMsg "domain is not utf-8") end);
    mret (Domain host port)
  else if atyp =? ATYP_IPV6 then
    octets ← read_exact 16;
    port ← read_u16;
    mret (target_from (V6 octets) port)
  else throw (EMsg "unsupported address type").

Definition read_request : SE Stream SocksRequest :=
  ver ← read_u8;
  cmd ← read_u8;
  rsv ← read_u8;
  if negb (ver =? 0x05) || negb (rsv =? 0) then throw (EMsg "invalid socks5 request")
  else
    target ← read_target;
    if cmd =? CMD_CONNECT then mret (ReqConnect target)
    else if cmd =? CMD_UDP_ASSOCIATE then mret (ReqUdpAssociate target)
    else throw (EMsg "unsupported socks5 command").

Definition write_reply (status : Z) (bind : TargetAddr) : SE Stream () :=
  write_all [VERSION; status; 0] ;;
  addr ← lift (encode_addr bind);
  write_all addr ;;
  mret ().

Definition localhost (port : Z) : SocketAddr := socket_addr_new LOCALHOST_V4 port.

(** ** One connection *)
Section handler.
(** [Router::dial] and [Router::dial_udp]: the answer of the outbound side. *)
Variables (dial dial_udp : Session → Result ()).

(** What the connection does once negotiation is over: relay bytes both
    ways, or run a UDP association. *)
Inductive Handled :=
  | Relaying (session : Session)
  | Associating (session : Session).

Definition handle (cfg : InboundConfig) : SE Stream Handled :=
  handshake cfg ;;
  request ← read_request;
  match request with
  | ReqConnect target =>
      let session := MkSession (in_tag cfg) Connect target in
      lift (dial session) ;;
      write_reply 0 (Ip (localhost 0)) ;;
      mret (Relaying session)
  | ReqUdpAssociate target =>
      let session := MkSession (in_tag cfg) UdpAssociate target in
      lift (dial_udp session) ;;
      mret (Associating session)
  end.
End handler.

(** ** UDP association *)
Definition udp_client_allowed (peer : SocketAddr) (requested_port : Z)
    (client_addr : option SocketAddr) (source : SocketAddr) : bool :=
  bool_decide (to_canonical (sa_ip source) = to_canonical (sa_ip peer))
  && ((requested_port =? 0) || (sa_port source =? requested_port))
  && match client_addr with Some client => bool_decide (client = source) | None => true end.

Definition udp_bind_addr (control_addr : SocketAddr) : SocketAddr :=
  socket_addr_new (sa_ip control_addr) 0.

Definition udp_reply_addr (control_addr udp_addr : SocketAddr) : SocketAddr :=
  let ip := if ip_is_unspecified (sa_ip udp_addr) then sa_ip control_addr else sa_ip udp_addr in
  socket_addr_new ip (sa_port udp_addr).

Record Assoc := MkAssoc { client_addr : option SocketAddr; last_activity : Z }.

(** The branches of the [select!]: [sent] is the outcome of the send the
    branch makes, [now] the clock after it. *)
Inductive assoc_event :=
  | ControlRead (read : Result Z)
  | OutboundRecv (received : Result (TargetAddr * bytes)) (sent : Result ()) (now : Z)
  | ClientRecv (received : Result (bytes * SocketAddr)) (sent : Result ()) (now : Z)
  | TimerFired (now : Z).

Inductive assoc_effect :=
  | ToClient (client : SocketAddr) (packet : bytes)
  | ToOutbound (source : SocketAddr) (target : TargetAddr) (payload : bytes).

Inductive assoc_next :=
  | Continue (st : Assoc) (eff : list assoc_effect)
  | Stop (res : Result ()) (eff : list assoc_effect).

Definition assoc_step (peer : SocketAddr) (session : Session) (st : Assoc) (ev : assoc_event)
  : assoc_next :=
  match ev with
  | ControlRead read =>
      match read with
      | Ok n => if n =? 0 then Stop (Ok ()) [] else Continue st []
      | Err _ => Stop (Ok ()) []
      end
  | OutboundRecv received sent now =>
      match received with
      | Err e => Stop (Err e) []
      | Ok (source, payload) =>
          match client_addr st with
          | None => Continue st []
          | Some client =>
              match encode_udp_packet source payload with
              | Err _ => Continue st []
              | Ok packet =>
                  match sent with
                  | Ok _ => Continue (MkAssoc (client_addr st) now) [ToClient client packet]
                  | Err e => Stop (Err e) [ToClient client packet]
                  end
              end
          end
      end
  | ClientRecv received sent now =>
      match received with
      | Err e => Stop (Err e) []
      | Ok (data, client) =>
          if negb (udp_client_allowed peer (target_port (session_target session)) (client_addr st) client)
          then Continue st []
          else match decode_udp_packet data with
          | Ok (target, payload) =>
              match sent with
              | Ok _ => Continue (MkAssoc (Some client) now) [ToOutbound client target payload]
              | Err e => Stop (Err e) [ToOutbound client target payload]
              end
          | Err _ => Continue st []
          end
      end
  | TimerFired now =>
      if last_activity st + UDP_ASSOCIATE_IDLE_TIMEOUT <=? now then Stop (Ok ()) [] else Continue st []
  end.

(** The loop over a sequence of events: everything it sent, in order, and the
    result when it ended. *)
Fixpoint assoc_run (peer : SocketAddr) (session : Session) (st : Assoc) (evs : list assoc_event)
  : list assoc_effect * option (Result ()) :=
  match evs with
  | [] => ([], None)
  | ev :: evs =>
      match assoc_step peer session st ev with
      | Continue st' eff => let '(effs, res) := assoc_run peer session st' evs in (eff ++ effs, res)
      | Stop res eff => (eff, Some res)
      end
  end.

(** [handle_udp_associate] starts with no client and the clock at [now]. *)
Definition assoc_init (now : Z) : Assoc := MkAssoc None now.

(** The reply that announces the relay socket, before the loop. *)
Definition udp_associate_start (control_local udp_local : SocketAddr) : SE Stream () :=
  write_reply 0 (Ip (udp_reply_addr control_local udp_local)).

(** [handle_udp_associate]: the local address of the control connection, the
    local address of the socket bound (or the failures), the clock and what
    happens in the loop are given. *)
Definition handle_udp_associate (local_addr : Result SocketAddr) (udp_bind : SocketAddr → Result SocketAddr)
    (now : Z) (evs : list assoc_event) (peer : SocketAddr) (session : Session)
  : SE Stream (list assoc_effect * option (Result ())) :=
  control_local ← lift local_addr;
  udp_local ← lift (udp_bind (udp_bind_addr control_local));
  udp_associate_start control_local udp_local ;;
  mret (assoc_run peer session (assoc_init now) evs).

(** [handle] as far as it is not [copy_bidirectional]. *)
Definition handle_all (dial dial_udp : Session → Result ()) (cfg : InboundConfig) (peer : SocketAddr)
    (local_addr : Result SocketAddr) (udp_bind : SocketAddr → Result SocketAddr) (now : Z) (evs : list assoc_event)
  : SE Stream (Session + list assoc_effect * option (Result ())) :=
  handled ← handle dial dial_udp cfg;
  match handled with
  | Relaying session => mret (inl session)
  | Associating session =>
      r ← handle_udp_associate local_addr udp_bind now evs peer session;
      mret (inr r)
  end.

(** The relay at the end of a CONNECT: [copy_bidirectional] between the
    connection and the dialed stream, which is the result. *)
Definition relay_both (copy : Copier) (outbound : Stream) : SE Stream Stream := λ inbound,
  match copy (inbound, outbound) with
  | (Ok _, (inbound, outbound)) => (Ok outbound, inbound)
  | (Err e, (inbound, _)) => (Err e, inbound)
  end.

(** [handle] of a CONNECT, to the end of the relay; [outbound] is the stream the
    router dialed. A UDP association goes on in [handle_all]. *)
Definition handle_connect (copy : Copier) (dial dial_udp : Session → Result ()) (cfg : InboundConfig) (outbound : Stream)
  : SE Stream (option (Session * Stream)) :=
  handled ← handle dial dial_udp cfg;
  match handled with
  | Relaying session =>
      outbound ← relay_both copy outbound;
      mret (Some (session, outbound))
  | Associating _ => mret None
  end.

(** ** Lemmas on the control stream *)
Lemma write_all_inv l s u s' :
  write_all l s = (Ok u, s') → rx s' = rx s ∧ tx s' = tx s ++ l.
Proof. rw /write_all. case_decide; [|done]. by intros [= <- <-]. Qed.

Lemma user_matches_eq name pass u :
  user_matches name pass u = true → username u = name ∧ password u = pass.
Proof. intros [H1%str_eqb_eq H2%str_eqb_eq]%andb_prop. done. Qed.

Definition credentials_wire (u : UserConfig) : bytes :=
  [0x01] ++ [len (username u)] ++ username u ++ [len (password u)] ++ password u.

Lemma context_utf8_inv name msg (x : bytes) (s s' : Stream) :
  lift (match from_utf8 name with Ok n => Ok n | Err _ => Err (EMsg msg) end) s = (Ok x, s') →
  x = name ∧ s' = s.
Proof. rw /lift /from_utf8. destruct (utf8_valid name); [|done]. by intros [= <- <-]. Qed.

Lemma read_len_bytes_inv (n : Z) (l : bytes) : is_u8 n → length l = Z.to_nat n → n = len l.
Proof. rw /is_u8 /len. lia. Qed.

Lemma authenticate_inv cfg s s' :
  good s → authenticate cfg s = (Ok (), s') →
  ∃ us u, users cfg = Some us ∧ u ∈ us ∧
    rx s = credentials_wire u ++ rx s' ∧ tx s' = tx s ++ [1; 0].
Proof.
  intros Hg H. rw /authenticate in H. invert_field H.
  destruct (negb (x =? 1)) eqn:Hv; [done|]. apply negb_false_iff, Z.eqb_eq in Hv as ->.
  invert_field H. invert_field H. invert_field H. invert_field H.
  destruct Hx1 as [Hl1 _], Hx3 as [Hl3 _].
  invert_bind H. apply context_utf8_inv in Hrun as [-> ->].
  invert_bind H. apply context_utf8_inv in Hrun as [-> ->].
  invert_bind H. destruct (users cfg) as [us|]; [|done].
  destruct (existsb _ us) eqn:Hex; [|done].
  injection H as ->. apply write_all_inv in Hrun as [Hrx Htx].
  apply existsb_exists in Hex as (u & Hu & [<- <-]%user_matches_eq).
  exists us, u. split_and!; [done|by apply list_elem_of_In| |].
  - apply read_len_bytes_inv in Hl1 as ->; [|done]. apply read_len_bytes_inv in Hl3 as ->; [|done].
    pose proof (adv_trans _ _ _ _ _ Hadv (adv_trans _ _ _ _ _ Hadv0 (adv_trans _ _ _ _ _ Hadv1
      (adv_trans _ _ _ _ _ Hadv2 Hadv3)))) as (Hp & _ & _).
    simpl in Hp. rw Hp Hrx. done.
  - pose proof (adv_trans _ _ _ _ _ Hadv (adv_trans _ _ _ _ _ Hadv0 (adv_trans _ _ _ _ _ Hadv1
      (adv_trans _ _ _ _ _ Hadv2 Hadv3)))) as (_ & _ & Hf).
    simpl in Hf. injection Hf as Hf _. by rw Htx Hf.
Qed.

(** ** Properties *)

(** C2: An inbound with users lets a client past the handshake only when the
    client offered the password method and then sent, byte for byte, the name
    and the password of one configured user; the bytes answered are the method
    choice and the success status, and no byte beyond the credentials is read. *)
Theorem handshake_authenticates cfg s s' :
  wf_bytes (rx s) → needs_auth cfg = true → handshake cfg s = (Ok (), s') →
  ∃ us u methods, users cfg = Some us ∧ u ∈ us ∧ 2 ∈ methods ∧
    rx s = [5; len methods] ++ methods ++ credentials_wire u ++ rx s' ∧
    tx s' = tx s ++ [5; 2; 1; 0].
Proof.
  intros Hwf Hneed H. assert (Hg : good s) by done. rw /handshake Hneed in H.
  invert_field H.
  destruct (negb (x =? 5)) eqn:Hv; [done|]. apply negb_false_iff, Z.eqb_eq in Hv as ->.
  invert_field H. invert_field H. destruct Hx1 as [Hl1 _].
  apply read_len_bytes_inv in Hl1 as ->; [|done].
  destruct (negb (contains 2 _)) eqn:Hm.
  { invert_bind H. done. }
  invert_bind H. apply write_all_inv in Hrun as [Hrx Htx].
  pose proof (adv_trans _ _ _ _ _ Hadv (adv_trans _ _ _ _ _ Hadv0 Hadv1)) as (Hp & [_ Hwf2] & Hf).
  simpl in Hp, Hf, Hwf2. injection Hf as Hf _.
  apply authenticate_inv in H as (us & u & Hus & Hu & Hr & Ht); [|by rw /good /= Hrx].
  exists us, u, x0. split_and!; try done.
  - apply negb_false_iff, existsb_exists in Hm as (m & Hm & <-%Z.eqb_eq). by apply list_elem_of_In.
  - by rw Hp -Hrx Hr.
  - by rw Ht Htx Hf -app_assoc.
Qed.

Definition demo_user : UserConfig := MkUser (str "demo") None (str "pw").
Definition demo_inbound : InboundConfig :=
  MkInbound (str "socks-in") (localhost 1080) Socks5 (Some [demo_user]) [] None None.

Lemma handshake_authenticates_witness :
  let s := MkStream ([5; 2; 0; 2; 1; 4] ++ str "demo" ++ [2] ++ str "pw" ++ [9]) [] 64 in
  ∃ us u methods, users demo_inbound = Some us ∧ u ∈ us ∧ 2 ∈ methods ∧
    rx s = [5; len methods] ++ methods ++ credentials_wire u ++ [9] ∧
    [5; 2; 1; 0] = tx s ++ [5; 2; 1; 0].
Proof.
  intros s.
  apply (handshake_authenticates demo_inbound s (MkStream [9] [5; 2; 1; 0] 60));
    [by_decide|reflexivity|reflexivity].
Defined.

(** The address an effect talks to. *)
Definition eff_addr (e : assoc_effect) : SocketAddr :=
  match e with ToClient c _ => c | ToOutbound c _ _ => c end.

(** One step keeps the learned client and sends only to or from it. *)
Lemma assoc_step_client peer session st ev c :
  client_addr st = Some c →
  match assoc_step peer session st ev with
  | Continue st' eff => client_addr st' = Some c ∧ Forall (λ e, eff_addr e = c) eff
  | Stop _ eff => Forall (λ e, eff_addr e = c) eff
  end.
Proof.
  intros Hc. destruct ev as [[n|]|[[src pl]|] [[]|] now|[[data a]|] [[]|] now|now]; simpl;
    rw ?Hc; repeat case_match; simplify_eq/=; try done; try (split; [done|]); repeat constructor.
  all: match goal with H : negb (udp_client_allowed _ _ _ _) = false |- _ =>
         apply negb_false_iff in H; rw /udp_client_allowed in H; simp_bool; simpl; congruence end.
Qed.

Lemma assoc_run_client peer session st evs c :
  client_addr st = Some c → Forall (λ e, eff_addr e = c) (assoc_run peer session st evs).1.
Proof.
  revert st. induction evs as [|ev evs IH]; intros st Hc; simpl; [constructor|].
  pose proof (assoc_step_client peer session st ev c Hc) as H.
  destruct (assoc_step peer session st ev) as [st' eff|res eff]; [|done].
  destruct H as [Hc' Heff]. specialize (IH st' Hc').
  destruct (assoc_run peer session st' evs). by apply Forall_app.
Qed.

(** Before a client is known a step sends nothing, unless it learns the client
    from a packet of the allowed peer. *)
Lemma assoc_step_fresh peer session st ev :
  client_addr st = None →
  let allowed c := udp_client_allowed peer (target_port (session_target session)) None c = true in
  match assoc_step peer session st ev with
  | Continue st' eff =>
      (client_addr st' = None ∧ eff = []) ∨
      ∃ c t p, client_addr st' = Some c ∧ eff = [ToOutbound c t p] ∧ allowed c
  | Stop _ eff => eff = [] ∨ ∃ c t p, eff = [ToOutbound c t p] ∧ allowed c
  end.
Proof.
  intros Hc allowed.
  destruct ev as [[n|]|[[src pl]|] [[]|] now|[[data a]|] [[]|] now|now]; simpl;
    rw ?Hc; repeat case_match; simplify_eq/=; try (by left); right;
    match goal with H : negb _ = false |- _ => apply negb_false_iff in H end; naive_solver.
Qed.

(** C18: A UDP association serves one client: everything it forwards comes from,
    and everything it answers goes to, one socket address, whose IP is the
    TCP peer's (up to IPv4-mapped form) and whose port is the requested one when
    the request named one. Before a valid packet from that address was
    forwarded nothing is sent to anybody. *)
Theorem assoc_single_client peer session now evs :
  let effs := (assoc_run peer session (assoc_init now) evs).1 in
  effs = [] ∨
  ∃ c t p rest, effs = ToOutbound c t p :: rest ∧ Forall (λ e, eff_addr e = c) effs ∧
    to_canonical (sa_ip c) = to_canonical (sa_ip peer) ∧
    (target_port (session_target session) = 0 ∨ sa_port c = target_port (session_target session)).
Proof.
  intros effs. subst effs. generalize (assoc_init now) (eq_refl : client_addr (assoc_init now) = None).
  clear now. induction evs as [|ev evs IH]; intros st Hst; simpl; [by left|].
  pose proof (assoc_step_fresh peer session st ev Hst) as H. cbv zeta in H.
  assert (Hallow : ∀ c, udp_client_allowed peer (target_port (session_target session)) None c = true →
    to_canonical (sa_ip c) = to_canonical (sa_ip peer) ∧
    (target_port (session_target session) = 0 ∨ sa_port c = target_port (session_target session))).
  { intros c. rw /udp_client_allowed andb_true_r.
    intros [Hip%bool_decide_eq_true [Hp%Z.eqb_eq|Hp%Z.eqb_eq]%orb_prop]%andb_prop; auto. }
  destruct (assoc_step peer session st ev) as [st' eff|res eff].
  - destruct H as [[Hst' ->]|(c & t & p & Hc & -> & Ha)].
    + specialize (IH st' Hst'). by destruct (assoc_run peer session st' evs).
    + pose proof (assoc_run_client peer session st' evs c Hc) as Hrun.
      destruct (assoc_run peer session st' evs) as [effs r]. right.
      exists c, t, p, effs. split_and!; [done|by constructor|by apply Hallow..].
  - destruct H as [->|(c & t & p & -> & Ha)]; [by left|right].
    exists c, t, p, []. split_and!; [done|by repeat constructor|by apply Hallow..].
Qed.
