(* ===== verification/Socks5Outbound.v ===== *)
(** * SOCKS5 client side (src/protocol/socks5/outbound.rs)

    Negotiation, requests and replies on the control connection, the UDP
    session, and the two ends of the protocol run against each other. *)
From S2P Require Import Prelude Io Text Net Config Socks5Codec Socks5Inbound.

Definition UDP_BUFFER_SIZE : nat := 64 * 1024.

(** [Socks5Outbound::new] *)
Definition socks5_outbound_new (cfg : OutboundConfig) : Result OutboundConfig :=
  require_server cfg ;; Ok cfg.

Definition unwrap_or_default (o : option bytes) : bytes :=
  match o with Some l => l | None => [] end.

Definition write_request (command : Z) (target : TargetAddr) : SE Stream () :=
  write_all [VERSION; command; 0] ;;
  addr ← lift (encode_addr target);
  write_all addr ;;
  mret ().

Definition read_response : SE Stream (Z * TargetAddr) :=
  ver ← read_u8;
  status ← read_u8;
  rsv ← read_u8;
  if negb (ver =? VERSION) || negb (rsv =? 0) then throw (EMsg "invalid socks5 outbound response")
  else
    atyp ← read_u8;
    encoded ←
      (if atyp =? ATYP_IPV4 then
         addr ← read_exact 4; mret ([atyp] ++ addr)
       else if atyp =? ATYP_DOMAIN then
         n ← read_u8;
         host ← read_exact (Z.to_nat n);
         mret ([atyp] ++ [as_u8 n] ++ host)
       else if atyp =? ATYP_IPV6 then
         addr ← read_exact 16; mret ([atyp] ++ addr)
       else throw (EMsg "unsupported socks5 response address type"));
    port ← read_u16;
    '(target, _) ← lift (decode_addr (encoded ++ be_bytes 2 port));
    mret (status, target).

Section client.
(** [ServerAddr::connect_tcp] and the resolver behind [ServerAddr::resolve];
    the stream of the state is the connection they make. *)
Variable connect_tcp : ServerAddr → Result ().
Variable lookup_host : bytes → Z → Result (list SocketAddr).
Variable cfg : OutboundConfig.

Definition connect_control : SE Stream () :=
  srv ← lift (require_server cfg);
  lift (connect_tcp srv) ;;
  let auth := is_some (out_username cfg) || is_some (out_password cfg) in
  (if auth then write_all [VERSION; 0x01; 0x02] else write_all [VERSION; 0x01; 0x00]) ;;
  resp ← read_exact 2;
  if negb (resp !!! 0%nat =? VERSION) || (resp !!! 1%nat =? 0xff)
  then throw (EMsg "socks5 outbound rejected auth method")
  else if resp !!! 1%nat =? 0x02 then
    let username := unwrap_or_default (out_username cfg) in
    let password := unwrap_or_default (out_password cfg) in
    lift (ensure ((len username <=? 255) && (len password <=? 255))
            "socks5 credentials are too long") ;;
    write_all [0x01] ;;
    write_all [as_u8 (len username)] ;;
    write_all username ;;
    write_all [as_u8 (len password)] ;;
    write_all password ;;
    resp ← read_exact 2;
    if negb (bool_decide (resp = [0x01; 0x00]))
    then throw (EMsg "socks5 outbound authentication failed")
    else mret ()
  else mret ().

(** [Socks5Outbound::dial] *)
Definition socks5_dial (session : Session) : SE Stream () :=
  lift (ensure (bool_decide (session_command session = Connect))
          "socks5 outbound only supports CONNECT") ;;
  connect_control ;;
  write_request CMD_CONNECT (session_target session) ;;
  '(status, _) ← read_response;
  if negb (status =? 0) then throw (EMsg "socks5 outbound connect failed") else mret ().

Definition relay_addr (server : SocketAddr) (bind : TargetAddr) : Result SocketAddr :=
  match bind with
  | Ip addr => Ok (if ip_is_unspecified (sa_ip addr) then set_ip addr (sa_ip server) else addr)
  | Domain _ _ => Err (EMsg "socks5 udp relay returned a domain address")
  end.

(** [Socks5Outbound::dial_udp]: the relay address the session will use and
    the family its socket is bound in. *)
Definition socks5_dial_udp (session : Session) : SE Stream (SocketAddr * IpAddr) :=
  lift (ensure (bool_decide (session_command session = UdpAssociate))
          "socks5 outbound udp only supports UDP associate") ;;
  srv ← lift (require_server cfg);
  server ← lift (server_resolve lookup_host srv);
  connect_control ;;
  let unspecified := if is_ipv6 server then UNSPECIFIED_V6 else UNSPECIFIED_V4 in
  write_request CMD_UDP_ASSOCIATE (Ip (socket_addr_new unspecified 0)) ;;
  '(status, bind) ← read_response;
  if negb (status =? 0) then throw (EMsg "socks5 outbound udp associate failed")
  else
    relay ← lift (relay_addr server bind);
    mret (relay, unspecified).
End client.

(** ** [Socks5UdpSession] *)

(** [send_to]: the datagram and the address it is sent to. *)
Definition udp_session_send_to (relay : SocketAddr) (target : TargetAddr) (payload : bytes)
  : Result (bytes * SocketAddr) :=
  packet ← encode_udp_packet target payload;
  Ok (packet, relay).

(** [recv_from] over the datagrams that arrive: the result and the datagrams
    left, or nothing when it still waits. *)
Fixpoint udp_session_recv_from (relay : SocketAddr) (incoming : list (bytes * SocketAddr))
  : option (Result (TargetAddr * bytes) * list (bytes * SocketAddr)) :=
  match incoming with
  | [] => None
  | (data, source) :: incoming =>
      if negb (bool_decide (source = relay)) then udp_session_recv_from relay incoming
      else Some (decode_udp_packet (take UDP_BUFFER_SIZE data), incoming)
  end.

(** ** Lemmas *)
Lemma read_response_reads status t :
  wf_target t → fits_wire t = true →
  reads read_response ([VERSION; status; 0] ++ addr_wire t) (status, wire_target t).
Proof.
  intros Hwf Hfit.
  assert (Hd : decode_addr (addr_wire t) = Ok (wire_target t, length (addr_wire t))).
  { rw -{1}(app_nil_r (addr_wire t)). apply run_cursor_ok, decode_addr_parses; done. }
  assert (parses read_response ([VERSION; status; 0] ++ addr_wire t) (status, wire_target t)) as []; [|done].
  change ([VERSION; status; 0] ++ addr_wire t) with ([VERSION] ++ [status] ++ [0] ++ addr_wire t).
  do 3 parse_step. destruct t as [[o p|o p f s]|h p]; cbn [addr_wire] in Hd |- *.
  - destruct Hwf as ((Ho & _) & Hp & _).
    parse_step. eapply parses_bind; [eapply parses_bind_ret; [by apply parses_exact|done]|].
    parse_step. rw -app_assoc Hd. done.
  - destruct Hwf as ((Ho & _) & Hp & _).
    parse_step. eapply parses_bind; [eapply parses_bind_ret; [by apply parses_exact|done]|].
    parse_step. rw -app_assoc Hd. done.
  - destruct Hwf as [Hh Hp]. simpl in Hfit.
    rw (app_assoc [len h]) in Hd. rw (app_assoc [len h]). parse_step. eapply (parses_bind _ _ ([len h] ++ h)).
    { eapply parses_bind; [apply parses_u8|].
      eapply parses_bind_ret; [apply parses_exact; rw /len; lia|]. reflexivity. }
    parse_step. rw as_u8_len; [lia|]. rw -app_assoc Hd. done.
Qed.

Lemma read_target_reads t :
  wf_target t → fits_wire t = true → reads read_target (addr_wire t) (wire_target t).
Proof.
  intros Hwf Hfit.
  assert (parses read_target (addr_wire t) (wire_target t)) as []; [|done].
  destruct t as [[o p|o p f s]|h p].
  - destruct Hwf as ((Ho & _) & Hp & _). do 2 parse_step. by parse_step.
  - destruct Hwf as ((Ho & _) & Hp & _). do 2 parse_step. by parse_step.
  - destruct Hwf as [Hh Hp]. simpl in Hfit. do 2 parse_step.
    eapply parses_bind; [apply parses_exact; rw /len; lia|]. parse_step.
    rw from_utf8_ok; [done|]. reflexivity.
Qed.

(** ** The two ends of a negotiation *)
Section interop.
Variable connect_tcp : ServerAddr → Result ().
Variable lookup_host : bytes → Z → Result (list SocketAddr).
Variables (scfg : InboundConfig) (ccfg : OutboundConfig) (srv : ServerAddr).
Hypothesis Hsrv : server ccfg = Some srv.
Hypothesis Hconn : connect_tcp srv = Ok ().

Definition client_offers_auth : bool := is_some (out_username ccfg) || is_some (out_password ccfg).
Definition client_user : bytes := unwrap_or_default (out_username ccfg).
Definition client_pass : bytes := unwrap_or_default (out_password ccfg).

(** The client's credentials are those of a configured user, or neither side
    uses any. *)
Definition credentials_agree : Prop :=
  if needs_auth scfg then
    client_offers_auth = true ∧ len client_user ≤ 255 ∧ len client_pass ≤ 255 ∧
    utf8_valid client_user = true ∧ utf8_valid client_pass = true ∧
    ∃ us u, users scfg = Some us ∧ u ∈ us ∧ username u = client_user ∧ password u = client_pass
  else client_offers_auth = false.
Hypothesis Hcred : credentials_agree.

Definition offer : bytes := [VERSION; 1; if needs_auth scfg then 2 else 0].
Definition choice : bytes := [VERSION; if needs_auth scfg then 2 else 0].
Definition creds : bytes :=
  [1] ++ [len client_user] ++ client_user ++ [len client_pass] ++ client_pass.

Lemma control_prefix {A} (k : () → SE Stream A) r res r' w :
  talks (k ()) r res r' w →
  talks (srv ← lift (require_server ccfg); lift (connect_tcp srv) ;;
         (if client_offers_auth then write_all [VERSION; 0x01; 0x02]
          else write_all [VERSION; 0x01; 0x00]) ≫= k) r res r' (offer ++ w).
Proof using Hsrv Hconn Hcred.
  intros Hk. rw /require_server Hsrv. cbn [context].
  talk_quiet. rw Hconn.
  talk_quiet.
  eapply talks_bind; [|exact Hk].
  assert (client_offers_auth = needs_auth scfg) as ->.
  { revert Hcred. rw /credentials_agree. destruct (needs_auth scfg); naive_solver. }
  rw /offer. destruct (needs_auth scfg); apply talks_write.
Qed.

(** The client's control connection, as far as the server has answered. *)
Lemma control_waits_choice :
  talks (connect_control connect_tcp ccfg) [] (Err (EIo UnexpectedEof)) [] offer.
Proof using Hsrv Hconn Hcred.
  rw -(app_nil_r offer). apply control_prefix. apply talks_bind_err, talks_exact_eof. lia.
Qed.

Lemma control_no_auth r :
  needs_auth scfg = false → talks (connect_control connect_tcp ccfg) (choice ++ r) (Ok ()) r offer.
Proof using Hsrv Hconn Hcred.
  intros Hn. rw -(app_nil_r offer). apply control_prefix. rw /choice Hn.
  talk_quiet. apply talks_ret.
Qed.

Lemma control_auth r res r' w :
  needs_auth scfg = true →
  talks (resp ← read_exact 2;
    if negb (bool_decide (resp = [0x01; 0x00]))
    then throw (EMsg "socks5 outbound authentication failed")
    else mret ()) r res r' w →
  talks (connect_control connect_tcp ccfg) (choice ++ r) res r' (offer ++ creds ++ w).
Proof using Hsrv Hconn Hcred.
  intros Hn Hk. apply control_prefix. revert Hcred. rw /credentials_agree /choice Hn.
  intros (_ & Hu & Hp & _).
  talk_quiet. cbn -[as_u8 app].
  fold client_user client_pass. rw !as_u8_len; [done..|].
  apply Z.leb_le in Hu, Hp. rw Hu Hp.
  talk_quiet.
  rw /creds -!app_assoc. do 4 talk_write. eapply talks_bind; [apply talks_write|exact Hk].
Qed.

(** The server's side of the same. *)
Lemma handshake_prefix r res r' w :
  talks (if needs_auth scfg then authenticate scfg else mret ()) r res r' w →
  talks (handshake scfg) (offer ++ r) res r' (choice ++ w).
Proof using Type.
  intros Hk. rw /handshake /offer. change ([?a; ?b; ?c] ++ r) with (a :: b :: [c] ++ r).
  do 3 talk_quiet. rw /choice. destruct (needs_auth scfg); (eapply talks_bind; [apply talks_write|done]).
Qed.

Lemma authenticate_accepts r :
  needs_auth scfg = true → talks (authenticate scfg) (creds ++ r) (Ok ()) r [1; 0].
Proof using Hcred.
  intros Hn. revert Hcred. rw /credentials_agree Hn.
  intros (_ & Hu & Hp & Hvu & Hvp & us & u & Hus & Hin & Hname & Hpass).
  rw /authenticate /creds -!app_assoc. do 2 talk_quiet.
  eapply talks_bind_quiet; [apply talks_exact; rw /len; lia|]. talk_quiet.
  eapply talks_bind_quiet; [apply talks_exact; rw /len; lia|].
  rw !from_utf8_ok; [done..|]. do 2 talk_quiet. rw Hus.
  assert (existsb (user_matches client_user client_pass) us = true) as ->.
  { apply existsb_exists. exists u. rw -list_elem_of_In /user_matches Hname Hpass.
    split; [done|]. by rw !(proj2 (str_eqb_eq _ _)). }
  eapply talks_bind_last; [apply talks_write|apply talks_ret].
Qed.

Definition auth_part (l : bytes) : bytes := if needs_auth scfg then l else [].

Lemma handshake_accepts r :
  talks (handshake scfg) (offer ++ auth_part creds ++ r) (Ok ()) r (choice ++ auth_part [1; 0]).
Proof using Hcred.
  rw /auth_part. apply handshake_prefix. destruct (needs_auth scfg) eqn:Hn.
  - by apply authenticate_accepts.
  - apply talks_ret.
Qed.

(** Before the client has seen the choice, the server has made it. *)
Lemma handshake_waits_creds :
  needs_auth scfg = true → talks (handshake scfg) offer (Err (EIo UnexpectedEof)) [] choice.
Proof using Type.
  intros Hn. rw -(app_nil_r offer) -(app_nil_r choice). apply handshake_prefix. rw Hn.
  apply talks_bind_err, talks_u8_eof.
Qed.

Lemma control_accepts r :
  talks (connect_control connect_tcp ccfg) (choice ++ auth_part [1; 0] ++ r) (Ok ()) r
    (offer ++ auth_part creds).
Proof using Hsrv Hconn Hcred.
  rw /auth_part. destruct (needs_auth scfg) eqn:Hn.
  - rw -(app_nil_r creds). apply control_auth; [done|]. talk_quiet. apply talks_ret.
  - rw app_nil_r. by apply control_no_auth.
Qed.

Lemma control_waits_status :
  needs_auth scfg = true →
  talks (connect_control connect_tcp ccfg) choice (Err (EIo UnexpectedEof)) [] (offer ++ creds).
Proof using Hsrv Hconn Hcred.
  intros Hn. rw -(app_nil_r choice) -(app_nil_r creds). apply control_auth; [done|].
  apply talks_bind_err, talks_exact_eof. lia.
Qed.
End interop.

Definition request_wire (cmd : Z) (t : TargetAddr) : bytes := [VERSION; cmd; 0] ++ addr_wire t.
Definition reply_wire (bind : TargetAddr) : bytes := [VERSION; 0; 0] ++ addr_wire bind.

Lemma write_request_talks cmd t r :
  fits_wire t = true → talks (write_request cmd t) r (Ok ()) r (request_wire cmd t).
Proof.
  intros Hf. rw /write_request encode_addr_wire; [done|]. talk_write. talk_quiet.
  eapply talks_bind_last; [apply talks_write|apply talks_ret].
Qed.

Lemma write_reply_talks t r :
  fits_wire t = true → talks (write_reply 0 t) r (Ok ()) r (reply_wire t).
Proof.
  intros Hf. rw /write_reply encode_addr_wire; [done|]. talk_write. talk_quiet.
  eapply talks_bind_last; [apply talks_write|apply talks_ret].
Qed.

Lemma read_request_talks (udp : bool) t r :
  wf_target t → fits_wire t = true →
  talks read_request (request_wire (if udp then CMD_UDP_ASSOCIATE else CMD_CONNECT) t ++ r)
    (Ok (if udp then ReqUdpAssociate (wire_target t) else ReqConnect (wire_target t))) r [].
Proof.
  intros Hwf Hf. rw /request_wire -app_assoc. simpl app. do 3 talk_quiet.
  eapply talks_bind_quiet; [by apply talks_read, read_target_reads|].
  destruct udp; apply talks_ret.
Qed.

Lemma read_response_talks t r :
  wf_target t → fits_wire t = true →
  talks read_response (reply_wire t ++ r) (Ok (0, wire_target t)) r [].
Proof. intros. by apply talks_read, read_response_reads. Qed.

(** ** Running both ends

    [room] bounds what either side writes; no negotiation needs as much. *)
Definition negotiation_room : nat := 2048.

(** What a side has written once it has consumed the bytes that have arrived. *)
Definition wrote {A} (m : SE Stream A) (arrived : bytes) : bytes :=
  tx (m (MkStream arrived [] negotiation_room)).2.

(** What the server has written after [n] rounds of each side answering what
    it has received so far. *)
Fixpoint exchange {A B} (client : SE Stream A) (server : SE Stream B) (n : nat) : bytes :=
  match n with
  | O => []
  | S n => wrote server (wrote client (exchange client server n))
  end.

Lemma wrote_talks {A} (m : SE Stream A) r res r' w :
  talks m r res r' w → (length w ≤ negotiation_room)%nat → wrote m r = w.
Proof. intros Hm Hk. rw /wrote Hm; done. Qed.

Lemma addr_wire_bound t : wf_target t → fits_wire t = true → (length (addr_wire t) ≤ 262)%nat.
Proof.
  destruct t as [[o p|o p f s]|h p]; simpl; intros Hwf Hfit.
  1, 2: destruct Hwf as ((Ho & _) & _); simpl in Ho; rw length_app /=; lia.
  rw /len in Hfit. rw length_app /=. lia.
Qed.

(** A client that starts with [connect_control] and a server that starts with the
    handshake, [request] and [reply] being what follows: three rounds complete
    the negotiation. *)
Section rounds.
Context {A B : Type}.
Variable connect_tcp : ServerAddr → Result ().
Variables (scfg : InboundConfig) (ccfg : OutboundConfig) (srv : ServerAddr).
Hypothesis Hsrv : server ccfg = Some srv.
Hypothesis Hconn : connect_tcp srv = Ok ().
Hypothesis Hcred : credentials_agree scfg ccfg.
Variables (client : SE Stream A) (srv_handle : SE Stream B) (request reply : bytes) (a : A) (b : B).
Let c_all := (offer scfg ++ auth_part scfg (creds ccfg)) ++ request.
Let s_all := (choice scfg ++ auth_part scfg [1; 0]) ++ reply.
Hypothesis client_early : ∀ r e r' w, talks (connect_control connect_tcp ccfg) r (Err e) r' w → talks client r (Err e) r' w.
Hypothesis client_waits : talks client (choice scfg ++ auth_part scfg [1; 0]) (Err (EIo UnexpectedEof)) [] c_all.
Hypothesis client_ends : ∀ d, talks client (s_all ++ d) (Ok a) d c_all.
Hypothesis server_early : ∀ r e r' w, talks (handshake scfg) r (Err e) r' w → talks srv_handle r (Err e) r' w.
Hypothesis server_waits :
  talks srv_handle (offer scfg ++ auth_part scfg (creds ccfg)) (Err (EIo UnexpectedEof)) [] (choice scfg ++ auth_part scfg [1; 0]).
Hypothesis server_ends : ∀ d, talks srv_handle (c_all ++ d) (Ok b) d s_all.
Hypothesis request_fits : (length request ≤ 1024)%nat.
Hypothesis reply_fits : (length reply ≤ 1024)%nat.

Lemma lengths_fit : (length c_all ≤ negotiation_room)%nat ∧ (length s_all ≤ negotiation_room)%nat.
Proof using Hcred request_fits reply_fits.
  rw /c_all /s_all /offer /choice /negotiation_room !length_app.
  assert (length (auth_part scfg (creds ccfg)) ≤ 513)%nat.
  { revert Hcred. rw /credentials_agree /auth_part. destruct (needs_auth scfg); [|simpl; lia].
    intros (_ & Hu & Hp & _). rw /creds !length_app /=. rw /len in Hu, Hp. lia. }
  assert (length (auth_part scfg [1; 0]%Z) ≤ 2)%nat by (rw /auth_part; destruct (needs_auth scfg); simpl; lia).
  simpl. lia.
Qed.

Lemma negotiation_rounds :
  wrote client (exchange client srv_handle 3) = c_all ∧ exchange client srv_handle 3 = s_all.
Proof using All.
  destruct lengths_fit as [Hc Hs].
  assert (Hfull : wrote client s_all = c_all ∧ wrote srv_handle c_all = s_all).
  { split.
    - rw -(app_nil_r s_all). by eapply wrote_talks; [apply client_ends|].
    - rw -(app_nil_r c_all). by eapply wrote_talks; [apply server_ends|]. }
  destruct Hfull as [Hcs Hsc].
  assert (Hreply : wrote client (choice scfg ++ auth_part scfg [1; 0]) = c_all)
    by (by eapply wrote_talks; [apply client_waits|]).
  assert (H1 : wrote client [] = offer scfg).
  { eapply wrote_talks; [by eapply client_early, control_waits_choice|]. rw /negotiation_room /=. lia. }
  cbn [exchange]. rw H1. destruct (needs_auth scfg) eqn:Hn.
  - assert (wrote srv_handle (offer scfg) = choice scfg) as ->.
    { eapply wrote_talks; [by apply server_early, handshake_waits_creds|]. rw /negotiation_room /=. lia. }
    assert (wrote client (choice scfg) = offer scfg ++ creds ccfg) as ->.
    { eapply wrote_talks; [by eapply client_early, control_waits_status|].
      revert Hc. rw /c_all /auth_part Hn length_app. lia. }
    assert (wrote srv_handle (offer scfg ++ creds ccfg) = choice scfg ++ auth_part scfg [1; 0]) as ->.
    { eapply wrote_talks; [pose proof server_waits as H; rw {1}/auth_part Hn in H; exact H|].
      rw /auth_part Hn /negotiation_room /=. lia. }
    by rw Hreply Hsc Hcs.
  - assert (wrote srv_handle (offer scfg) = choice scfg ++ auth_part scfg [1; 0]) as ->.
    { eapply wrote_talks; [pose proof server_waits as H; rw {1}/auth_part Hn app_nil_r in H; exact H|].
      rw /auth_part Hn /negotiation_room /=. lia. }
    by rw Hreply Hsc Hcs Hsc Hcs.
Qed.

(** Both ends are through, and have not touched what follows. *)
Lemma negotiated d d' :
  let s := exchange client srv_handle 3 in
  let c := wrote client s in
  talks srv_handle (c ++ d) (Ok b) d s ∧ talks client (s ++ d') (Ok a) d' c.
Proof using All.
  cbv zeta. destruct negotiation_rounds as [Hc Hs]. rw Hc Hs. by split.
Qed.
End rounds.

Section connect_exchange.
Variable connect_tcp : ServerAddr → Result ().
Variables (dial dial_udp : Session → Result ()).
Variables (scfg : InboundConfig) (ccfg : OutboundConfig) (srv : ServerAddr).
Hypothesis Hsrv : server ccfg = Some srv.
Hypothesis Hconn : connect_tcp srv = Ok ().
Hypothesis Hcred : credentials_agree scfg ccfg.
Variables (inb : bytes) (t : TargetAddr).
Hypothesis Hwf : wf_target t.
Hypothesis Hfit : fits_wire t = true.

Let bind := Ip (localhost 0).
Let client := socks5_dial connect_tcp ccfg (MkSession inb Connect t).
Let srv_handle := handle dial dial_udp scfg.
Let asked := MkSession (in_tag scfg) Connect (wire_target t).
Hypothesis Hdial : dial asked = Ok ().
Let c_all := (offer scfg ++ auth_part scfg (creds ccfg)) ++ request_wire CMD_CONNECT t.
Let s_all := (choice scfg ++ auth_part scfg [1; 0]) ++ reply_wire bind.

Lemma client_fails_early r e r' w :
  talks (connect_control connect_tcp ccfg) r (Err e) r' w → talks client r (Err e) r' w.
Proof using Type. intros H. talk_quiet. by apply talks_bind_err. Qed.

Lemma client_waits_reply :
  talks client (choice scfg ++ auth_part scfg [1; 0]) (Err (EIo UnexpectedEof)) [] c_all.
Proof using Hsrv Hconn Hcred Hfit.
  rw -(app_nil_r (auth_part scfg [1; 0])). talk_quiet.
  eapply talks_bind; [by eapply control_accepts|].
  eapply talks_bind_last; [by apply write_request_talks|].
  apply talks_bind_err, talks_bind_err, talks_u8_eof.
Qed.

Lemma client_connects d : talks client (s_all ++ d) (Ok ()) d c_all.
Proof using Hsrv Hconn Hcred Hfit.
  rw /s_all -2!app_assoc. talk_quiet. eapply talks_bind; [by eapply control_accepts|].
  eapply talks_bind_last; [by apply write_request_talks|].
  eapply talks_bind_quiet; [apply read_response_talks; [by_decide|done]|]. apply talks_ret.
Qed.

Lemma handle_relays d : talks srv_handle (c_all ++ d) (Ok (Relaying asked)) d s_all.
Proof using Hcred Hwf Hfit Hdial.
  rw /c_all -2!app_assoc. eapply talks_bind; [by apply handshake_accepts|].
  eapply talks_bind_quiet; [by apply (read_request_talks false)|].
  cbv zeta iota. change (dial _) with (dial asked). rw Hdial. talk_quiet.
  eapply talks_bind_last; [by apply write_reply_talks|apply talks_ret].
Qed.

Lemma handle_waits_request :
  talks srv_handle (offer scfg ++ auth_part scfg (creds ccfg)) (Err (EIo UnexpectedEof)) []
    (choice scfg ++ auth_part scfg [1; 0]).
Proof using Hcred.
  rw -(app_nil_r (auth_part scfg (creds ccfg))).
  eapply talks_bind_last; [by apply handshake_accepts|].
  apply talks_bind_err, talks_bind_err, talks_u8_eof.
Qed.

Lemma connect_negotiated d d' :
  let s := exchange client srv_handle 3 in
  let c := wrote client s in
  talks srv_handle (c ++ d) (Ok (Relaying asked)) d s ∧ talks client (s ++ d') (Ok ()) d' c.
Proof using Hsrv Hconn Hcred Hwf Hfit Hdial.
  eapply (negotiated connect_tcp scfg ccfg srv Hsrv Hconn Hcred client srv_handle (request_wire CMD_CONNECT t) (reply_wire bind)).
  - apply client_fails_early.
  - apply client_waits_reply.
  - apply client_connects.
  - intros r e r' w. apply talks_bind_err.
  - apply handle_waits_request.
  - apply handle_relays.
  - pose proof (addr_wire_bound t Hwf Hfit). rw /request_wire length_app /=. lia.
  - rw /reply_wire length_app /=. lia.
Qed.
End connect_exchange.

(** ** Properties *)

Lemma connect_completes connect_tcp dial dial_udp scfg ccfg srv inb t d d' :
  server ccfg = Some srv → connect_tcp srv = Ok () → credentials_agree scfg ccfg →
  wf_target t → fits_wire t = true →
  dial (MkSession (in_tag scfg) Connect (wire_target t)) = Ok () →
  let client := socks5_dial connect_tcp ccfg (MkSession inb Connect t) in
  let srv_handle := handle dial dial_udp scfg in
  let s := exchange client srv_handle 3 in
  let c := wrote client s in
  talks srv_handle (c ++ d) (Ok (Relaying (MkSession (in_tag scfg) Connect (wire_target t)))) d s ∧
  talks client (s ++ d') (Ok ()) d' c.
Proof.
  intros. by eapply connect_negotiated.
Qed.

(** C22: An rtunnel SOCKS5 client and an rtunnel SOCKS5 server whose credentials
    agree complete a CONNECT: letting each side answer what it has received so
    far, three rounds bring the client to a connected stream and the server to
    relaying, for exactly the requested target; both have consumed all of the
    negotiation and no byte of what follows it in either direction. *)
Theorem connect_interop connect_tcp dial dial_udp scfg ccfg srv inb t d d' :
  server ccfg = Some srv → connect_tcp srv = Ok () → credentials_agree scfg ccfg →
  wf_target t → fits_wire t = true →
  dial (MkSession (in_tag scfg) Connect (wire_target t)) = Ok () →
  let client := socks5_dial connect_tcp ccfg (MkSession inb Connect t) in
  let srv_handle := handle dial dial_udp scfg in
  let s := exchange client srv_handle 3 in
  let c := wrote client s in
  talks srv_handle (c ++ d) (Ok (Relaying (MkSession (in_tag scfg) Connect (wire_target t)))) d s ∧
  talks client (s ++ d') (Ok ()) d' c.
Proof. apply connect_completes. Qed.

Definition demo_server : ServerAddr := MkServerAddr (HostDomain (str "proxy.test")) 1080.
Definition demo_outbound : OutboundConfig :=
  MkOutbound (str "up") Socks5 (Some demo_server) None false None
    (Some (str "demo")) (Some (str "pw")) None None None None.

Lemma demo_credentials : credentials_agree demo_inbound demo_outbound.
Proof.
  rw /credentials_agree /=. split_and!; try done. exists [demo_user], demo_user.
  split_and!; [done|constructor|done..].
Qed.

Lemma connect_interop_witness :
  let t := Domain (str "example.com") 443 in
  let client := socks5_dial (λ _, Ok ()) demo_outbound (MkSession [] Connect t) in
  let srv_handle := handle (λ _, Ok ()) (λ _, Ok ()) demo_inbound in
  let s := exchange client srv_handle 3 in
  let c := wrote client s in
  talks srv_handle (c ++ [7]) (Ok (Relaying (MkSession (str "socks-in") Connect t))) [7] s ∧
  talks client (s ++ [8]) (Ok ()) [8] c.
Proof.
  apply (connect_interop (λ _, Ok ()) (λ _, Ok ()) (λ _, Ok ()) demo_inbound demo_outbound
    demo_server [] (Domain (str "example.com") 443) [7] [8]);
    [reflexivity|reflexivity|exact demo_credentials|by_decide|reflexivity|reflexivity].
Defined.

Lemma recv_from_skips relay noise rest :
  Forall (λ d, d.2 ≠ relay) noise →
  udp_session_recv_from relay (noise ++ rest) = udp_session_recv_from relay rest.
Proof.
  induction 1 as [|[d a] noise Ha _ IH]; simpl in *; [done|]. by rw bool_decide_false.
Qed.

(** Datagrams cross a SOCKS5 UDP association in both directions: what the
    client session sends, the association of the server forwards with its
    target and payload (learning the client's address); and what the outbound
    side delivers reaches the client session with its source and payload, past
    any datagrams from other addresses. *)
Lemma udp_relay_end_to_end peer session st relay client now t payload noise rest :
  wf_target t → fits_wire t = true →
  udp_client_allowed peer (target_port (session_target session)) (client_addr st) client = true →
  Forall (λ d, d.2 ≠ relay) noise →
  len (addr_wire t) + len payload + 3 ≤ Z.of_nat UDP_BUFFER_SIZE →
  ∃ pkt, udp_session_send_to relay t payload = Ok (pkt, relay) ∧
    assoc_step peer session st (ClientRecv (Ok (pkt, client)) (Ok ()) now)
      = Continue (MkAssoc (Some client) now) [ToOutbound client (wire_target t) payload] ∧
    assoc_step peer session (MkAssoc (Some client) now) (OutboundRecv (Ok (t, payload)) (Ok ()) now)
      = Continue (MkAssoc (Some client) now) [ToClient client pkt] ∧
    udp_session_recv_from relay (noise ++ (pkt, relay) :: rest)
      = Some (Ok (wire_target t, payload), rest).
Proof.
  intros Hwf Hfit Hallow Hnoise Hsize.
  destruct (udp_packet_decodes t payload Hwf Hfit) as [Henc Hdec].
  exists ([0; 0; 0] ++ addr_wire t ++ payload).
  rw /udp_session_send_to Henc. split_and!; [done| | |].
  - cbn [assoc_step]. rw Hallow. cbn [negb]. by rw Hdec.
  - cbn [assoc_step client_addr]. by rw Henc.
  - rw recv_from_skips; [done|]. cbn [udp_session_recv_from].
    rw bool_decide_true; [done|]. cbn [negb]. rw take_ge; [|by rw Hdec].
    rw !length_app. rw /len in Hsize. simpl length. lia.
Qed.

Lemma udp_relay_end_to_end_witness :
  let t := Domain (str "dns.test") 53 in
  let peer := SockV4 [10; 0; 0; 2] 4000 in
  let client := SockV4 [10; 0; 0; 2] 5000 in
  let session := MkSession (str "in") UdpAssociate (Ip (SockV4 [0; 0; 0; 0] 0)) in
  let st := MkAssoc None 0 in
  let relay := SockV4 [10; 0; 0; 1] 9000 in
  ∃ pkt, udp_session_send_to relay t [1; 2] = Ok (pkt, relay) ∧
    assoc_step peer session st (ClientRecv (Ok (pkt, client)) (Ok ()) 5)
      = Continue (MkAssoc (Some client) 5) [ToOutbound client (wire_target t) [1; 2]] ∧
    assoc_step peer session (MkAssoc (Some client) 5) (OutboundRecv (Ok (t, [1; 2])) (Ok ()) 5)
      = Continue (MkAssoc (Some client) 5) [ToClient client pkt] ∧
    udp_session_recv_from relay ([([9], client)] ++ (pkt, relay) :: [])
      = Some (Ok (wire_target t, [1; 2]), []).
Proof.
  intros t peer client session st relay.
  apply (udp_relay_end_to_end peer session st relay client 5 t [1; 2] [([9], client)] []);
    [by_decide|reflexivity|reflexivity|by_decide|vm_compute; congruence].
Defined.
