(* ===== verification/Socks5Associate.v ===== *)
(** * A SOCKS5 UDP association from end to end

    The client of src/protocol/socks5/outbound.rs against the server of
    src/protocol/socks5/inbound.rs: the negotiation of a UDP association, and
    the datagrams that cross it in both directions. *)
From S2P Require Import Prelude Io Text Net Config Socks5Codec Socks5Inbound Socks5Outbound.

(** ** Datagrams *)

(** A datagram the application sends to a target, one that comes from a target. *)
Inductive Traffic := GoesOut (target : TargetAddr) (payload : bytes) | ComesIn (source : TargetAddr) (payload : bytes).
Definition traffic_target (tr : Traffic) : TargetAddr := match tr with GoesOut t _ | ComesIn t _ => t end.
Definition traffic_payload (tr : Traffic) : bytes := match tr with GoesOut _ p | ComesIn _ p => p end.
Definition udp_wire (t : TargetAddr) (payload : bytes) : bytes := [0; 0; 0] ++ addr_wire t ++ payload.
Definition traffic_ok (tr : Traffic) : Prop :=
  wf_target (traffic_target tr) ∧ fits_wire (traffic_target tr) = true ∧
  (length (udp_wire (traffic_target tr) (traffic_payload tr)) ≤ UDP_BUFFER_SIZE)%nat.

(** What the association sees of it, and what it is to do. *)
Definition traffic_event (client : SocketAddr) (now : Z) (tr : Traffic) : assoc_event :=
  match tr with
  | GoesOut t p => ClientRecv (Ok (udp_wire t p, client)) (Ok ()) now
  | ComesIn t p => OutboundRecv (Ok (t, p)) (Ok ()) now
  end.
Definition traffic_effect (client : SocketAddr) (tr : Traffic) : assoc_effect :=
  match tr with
  | GoesOut t p => ToOutbound client (wire_target t) p
  | ComesIn t p => ToClient client (udp_wire t p)
  end.
Definition incoming_of (tr : Traffic) : option (TargetAddr * bytes) :=
  match tr with GoesOut _ _ => None | ComesIn t p => Some (t, p) end.

(** Receiving [n] times. *)
Fixpoint recv_many (n : nat) (relay : SocketAddr) (incoming : list (bytes * SocketAddr)) : list (Result (TargetAddr * bytes)) :=
  match n with
  | O => []
  | S n =>
      match udp_session_recv_from relay incoming with
      | Some (r, rest) => r :: recv_many n relay rest
      | None => []
      end
  end.

Lemma assoc_traffic peer session client now tr st :
  traffic_ok tr → udp_client_allowed peer (target_port (session_target session)) None client = true →
  client_addr st = Some client ∨ client_addr st = None ∧ incoming_of tr = None →
  assoc_step peer session st (traffic_event client now tr) = Continue (MkAssoc (Some client) now) [traffic_effect client tr].
Proof.
  intros (Hwf & Hfit & _) Ha Hst.
  assert (udp_client_allowed peer (target_port (session_target session)) (client_addr st) client = true) as Ha'.
  { destruct Hst as [->|[-> _]]; [|done]. revert Ha. rw /udp_client_allowed andb_true_r. intros ->. by rw bool_decide_true. }
  destruct tr as [t p|t p]; cbn [traffic_target traffic_payload] in *; destruct (udp_packet_decodes t p Hwf Hfit) as [Henc Hdec].
  - cbn [assoc_step traffic_event]. by rw Ha' /udp_wire Hdec.
  - destruct Hst as [Hc|[_ [=]]]. cbn [assoc_step traffic_event]. by rw Hc Henc.
Qed.

Lemma assoc_run_traffic peer session client now l st :
  Forall traffic_ok l → udp_client_allowed peer (target_port (session_target session)) None client = true →
  client_addr st = Some client →
  assoc_run peer session st (traffic_event client now <$> l) = (traffic_effect client <$> l, None).
Proof.
  intros Hl Ha. revert st. induction Hl as [|tr l Htr _ IH]; intros st Hst; [done|]. cbn [fmap list_fmap assoc_run].
  rw (assoc_traffic peer session client now tr st); [done|done|by left|]. by rw IH.
Qed.

Lemma recv_many_in_order relay incoming l :
  Forall traffic_ok (uncurry ComesIn <$> l) →
  filter (λ x, x.2 = relay) incoming = (λ tp, (udp_wire tp.1 tp.2, relay)) <$> l →
  recv_many (length l) relay incoming = (λ tp, Ok (wire_target tp.1, tp.2)) <$> l.
Proof.
  revert l. induction incoming as [|[data source] incoming IH]; intros l Hl Hin; [by destruct l|].
  rw filter_cons in Hin. case_decide as Hs; cbn in Hs.
  - subst source. destruct l as [|[t p] l]; [done|]. injection Hin as -> Hin. apply Forall_cons in Hl as [(Hwf & Hfit & Hsize) Hl].
    cbn [traffic_target traffic_payload uncurry] in *. cbn [length recv_many udp_session_recv_from]. rw bool_decide_true; [done|]. cbn [negb].
    rw take_ge; [exact Hsize|]. destruct (udp_packet_decodes t p Hwf Hfit) as [_ Hdec]. rw {1}/udp_wire Hdec. cbn. by rw IH.
  - assert (recv_many (length l) relay ((data, source) :: incoming) = recv_many (length l) relay incoming) as ->; [|by apply IH].
    destruct l; [done|]. cbn [length recv_many udp_session_recv_from]. by rw bool_decide_false.
Qed.

(** ** The negotiation *)
Section associate.
Variable connect_tcp : ServerAddr → Result ().
Variable lookup_host : bytes → Z → Result (list SocketAddr).
Variables (dial dial_udp : Session → Result ()).
Variables (scfg : InboundConfig) (ccfg : OutboundConfig) (srv : ServerAddr).
Hypothesis Hsrv : server ccfg = Some srv.
Hypothesis Hconn : connect_tcp srv = Ok ().
Hypothesis Hcred : credentials_agree scfg ccfg.
Variables (sa : SocketAddr) (inb : bytes) (t : TargetAddr).
Hypothesis Hresolve : server_resolve lookup_host srv = Ok sa.
Variables (peer local udp_local : SocketAddr) (udp_bind : SocketAddr → Result SocketAddr) (now : Z) (evs : list assoc_event).
Hypothesis Hbind : udp_bind (udp_bind_addr local) = Ok udp_local.
Hypothesis Hlocal : wf_socket local.
Hypothesis Hudp : wf_socket udp_local.

(** The address asked for, the session of the server, the address announced and
    the one the client uses. *)
Definition associate_unspecified : IpAddr := if is_ipv6 sa then UNSPECIFIED_V6 else UNSPECIFIED_V4.
Definition associate_request : TargetAddr := Ip (socket_addr_new associate_unspecified 0).
Definition associate_session : Session := MkSession (in_tag scfg) UdpAssociate associate_request.
Definition associate_relay : SocketAddr :=
  let announced := udp_reply_addr local udp_local in
  if ip_is_unspecified (sa_ip announced) then set_ip announced (sa_ip sa) else announced.
Hypothesis Hdial : dial_udp associate_session = Ok ().

Let client := socks5_dial_udp connect_tcp lookup_host ccfg (MkSession inb UdpAssociate t).
Let srv_handle := handle_all dial dial_udp scfg peer (Ok local) udp_bind now evs.
Let request := request_wire CMD_UDP_ASSOCIATE associate_request.
Let reply := reply_wire (Ip (udp_reply_addr local udp_local)).

Lemma associate_request_wf : wf_target associate_request ∧ fits_wire associate_request = true ∧ wire_target associate_request = associate_request.
Proof using Type. rw /associate_request /associate_unspecified. destruct (is_ipv6 sa); split_and!; by_decide. Qed.
Lemma announced_wf :
  wf_target (Ip (udp_reply_addr local udp_local)) ∧ wire_target (Ip (udp_reply_addr local udp_local)) = Ip (udp_reply_addr local udp_local).
Proof using Hlocal Hudp.
  destruct Hlocal as (H1 & _), Hudp as (H2 & H3 & _). rw /udp_reply_addr. set (ip := if ip_is_unspecified (sa_ip udp_local) then sa_ip local else sa_ip udp_local).
  assert (wf_ip ip) as Hip by (subst ip; by destruct (ip_is_unspecified _)). destruct ip; split; by try split_and!.
Qed.

Lemma associate_client_waits :
  talks client (choice scfg ++ auth_part scfg [1; 0]) (Err (EIo UnexpectedEof)) []
    ((offer scfg ++ auth_part scfg (creds ccfg)) ++ request).
Proof using Hsrv Hconn Hcred Hresolve.
  rw -(app_nil_r (auth_part scfg [1; 0])) /client /socks5_dial_udp /require_server Hsrv. do 2 talk_quiet. rw Hresolve. talk_quiet.
  eapply talks_bind; [by eapply control_accepts|].
  eapply talks_bind_last; [apply write_request_talks, associate_request_wf|].
  apply talks_bind_err, talks_bind_err, talks_u8_eof.
Qed.

Lemma associate_client_ends d :
  talks client (((choice scfg ++ auth_part scfg [1; 0]) ++ reply) ++ d) (Ok (associate_relay, associate_unspecified)) d
    ((offer scfg ++ auth_part scfg (creds ccfg)) ++ request).
Proof using Hsrv Hconn Hcred Hresolve Hlocal Hudp.
  rw -2!app_assoc /client /socks5_dial_udp /require_server Hsrv. do 2 talk_quiet. rw Hresolve. talk_quiet.
  eapply talks_bind; [by eapply control_accepts|].
  eapply talks_bind_last; [apply write_request_talks, associate_request_wf|]. destruct announced_wf as [Hwf Hw].
  eapply talks_bind_quiet; [by apply read_response_talks|]. rw Hw. cbn [negb Z.eqb relay_addr]. talk_quiet. apply talks_ret.
Qed.

Lemma associate_server_waits :
  talks srv_handle (offer scfg ++ auth_part scfg (creds ccfg)) (Err (EIo UnexpectedEof)) [] (choice scfg ++ auth_part scfg [1; 0]).
Proof using Hcred.
  rw -(app_nil_r (auth_part scfg (creds ccfg))). apply talks_bind_err.
  eapply talks_bind_last; [by apply handshake_accepts|]. apply talks_bind_err, talks_bind_err, talks_u8_eof.
Qed.

Lemma associate_server_ends d :
  talks srv_handle (((offer scfg ++ auth_part scfg (creds ccfg)) ++ request) ++ d)
    (Ok (inr (assoc_run peer associate_session (assoc_init now) evs))) d ((choice scfg ++ auth_part scfg [1; 0]) ++ reply).
Proof using Hcred Hbind Hdial Hlocal Hudp.
  rw -2!app_assoc. destruct associate_request_wf as (Hwf & Hfit & Hw). destruct announced_wf as [Hwf' _].
  eapply (talks_bind _ _ _ (Associating associate_session) d).
  - eapply talks_bind_last; [by apply handshake_accepts|]. eapply talks_bind_quiet; [by apply (read_request_talks true)|].
    cbv zeta iota. rw Hw. change (dial_udp _) with (dial_udp associate_session). rw Hdial. talk_quiet. apply talks_ret.
  - cbv iota. eapply talks_bind_last; [|apply talks_ret]. rw /handle_udp_associate. talk_quiet. rw Hbind. talk_quiet.
    eapply talks_bind_last; [by apply write_reply_talks|apply talks_ret].
Qed.

Lemma associate_negotiated d d' :
  let s := exchange client srv_handle 3 in
  let c := wrote client s in
  talks srv_handle (c ++ d) (Ok (inr (assoc_run peer associate_session (assoc_init now) evs))) d s ∧
  talks client (s ++ d') (Ok (associate_relay, associate_unspecified)) d' c.
Proof using All.
  eapply (negotiated connect_tcp scfg ccfg srv Hsrv Hconn Hcred client srv_handle request reply).
  - intros r e r' w H. rw /client /socks5_dial_udp /require_server Hsrv. do 2 talk_quiet. rw Hresolve. talk_quiet. by apply talks_bind_err.
  - apply associate_client_waits.
  - apply associate_client_ends.
  - intros r e r' w H. by apply talks_bind_err, talks_bind_err.
  - apply associate_server_waits.
  - apply associate_server_ends.
  - destruct associate_request_wf as (Hwf & Hfit & _). pose proof (addr_wire_bound _ Hwf Hfit). rw /request /request_wire length_app. cbn [length]. lia.
  - destruct announced_wf as [Hwf _]. pose proof (addr_wire_bound _ Hwf eq_refl). rw /reply /reply_wire length_app. cbn [length]. lia.
Qed.
End associate.

(** C15: A SOCKS5 UDP association from end to end. An rtunnel client and an rtunnel
    server whose credentials agree complete the negotiation in three rounds of
    each answering what it has received so far, and touch no byte after it; the
    client then uses the address the server announced for its socket, or, when
    that is unspecified, the server's. From then on every datagram of the
    client, the first of which tells the server its address, is forwarded with
    its target and payload, every datagram from outside is sent to the client,
    in the order in which they come; and what the client receives is exactly
    those, in order, whatever else arrives from other addresses. *)
Theorem associate_end_to_end connect_tcp lookup_host dial dial_udp scfg ccfg srv sa inb t peer local udp_local udp_bind now
    client t0 p0 l d d' :
  server ccfg = Some srv → connect_tcp srv = Ok () → credentials_agree scfg ccfg →
  server_resolve lookup_host srv = Ok sa →
  udp_bind (udp_bind_addr local) = Ok udp_local → wf_socket local → wf_socket udp_local →
  dial_udp (associate_session scfg sa) = Ok () →
  to_canonical (sa_ip client) = to_canonical (sa_ip peer) → Forall traffic_ok (GoesOut t0 p0 :: l) →
  let traffic := GoesOut t0 p0 :: l in
  let relay := associate_relay sa local udp_local in
  let client_side := socks5_dial_udp connect_tcp lookup_host ccfg (MkSession inb UdpAssociate t) in
  let server_side := handle_all dial dial_udp scfg peer (Ok local) udp_bind now (traffic_event client now <$> traffic) in
  let s := exchange client_side server_side 3 in
  let c := wrote client_side s in
  talks server_side (c ++ d) (Ok (inr (traffic_effect client <$> traffic, None))) d s ∧
  talks client_side (s ++ d') (Ok (relay, associate_unspecified sa)) d' c ∧
  (∀ t p, GoesOut t p ∈ traffic → udp_session_send_to relay t p = Ok (udp_wire t p, relay)) ∧
  (∀ incoming, filter (λ x, x.2 = relay) incoming = (λ tp, (udp_wire tp.1 tp.2, relay)) <$> omap incoming_of traffic →
     recv_many (length (omap incoming_of traffic)) relay incoming =
       (λ tp, Ok (wire_target tp.1, tp.2)) <$> omap incoming_of traffic).
Proof.
  intros Hsrv Hconn Hcred Hres Hbind Hlocal Hudp Hdial Hip Htr traffic relay client_side server_side s c.
  assert (Hallow : udp_client_allowed peer (target_port (session_target (associate_session scfg sa))) None client = true).
  { rw /udp_client_allowed bool_decide_true; [done|]. rw /associate_session /associate_request /=. by destruct (associate_unspecified sa). }
  assert (Hrun : assoc_run peer (associate_session scfg sa) (assoc_init now) (traffic_event client now <$> traffic) =
    (traffic_effect client <$> traffic, None)).
  { apply Forall_cons in Htr as [H0 Hl]. cbn [traffic fmap list_fmap assoc_run].
    rw (assoc_traffic peer _ client now (GoesOut t0 p0)); [done|done|by right|]. by rw assoc_run_traffic. }
  destruct (associate_negotiated connect_tcp lookup_host dial dial_udp scfg ccfg srv Hsrv Hconn Hcred sa inb t Hres peer local udp_local
    udp_bind now (traffic_event client now <$> traffic) Hbind Hlocal Hudp Hdial d d') as [Hserver Hclient].
  rw Hrun in Hserver. split_and!; [exact Hserver|exact Hclient| |].
  - intros t' p' Hin. rw Forall_forall in Htr. destruct (Htr _ Hin) as (Hwf & Hfit & _).
    destruct (udp_packet_decodes t' p' Hwf Hfit) as [Henc _]. by rw /udp_session_send_to Henc.
  - intros incoming. apply recv_many_in_order. apply Forall_fmap, Forall_forall. intros [t' p'] Hin.
    apply list_elem_of_omap in Hin as ([|t1 p1] & Hin & [= <- <-]). rw Forall_forall in Htr. by apply (Htr (ComesIn t1 p1)).
Qed.

Definition demo_local : SocketAddr := SockV4 [10; 0; 0; 1] 1080.
Definition demo_udp_local : SocketAddr := SockV4 [0; 0; 0; 0] 40000.
Definition demo_peer : SocketAddr := SockV4 [10; 0; 0; 7] 5555.
Definition demo_source : SocketAddr := SockV4 [10; 0; 0; 7] 6666.
Definition demo_far : TargetAddr := Domain (str "example.com") 53.
Definition demo_traffic : list Traffic := [ComesIn demo_far [4; 5]; GoesOut demo_far [6]; ComesIn demo_far []].

(** The reply names the address of the control connection, since the socket is
    bound to an unspecified one. *)
Lemma associate_end_to_end_witness :
  let client_side := socks5_dial_udp (λ _, Ok ()) (λ _ _, Ok [demo_local]) demo_outbound (MkSession [] UdpAssociate demo_far) in
  let server_side := handle_all (λ _, Ok ()) (λ _, Ok ()) demo_inbound demo_peer (Ok demo_local) (λ _, Ok demo_udp_local) 0
    (traffic_event demo_source 0 <$> GoesOut demo_far [1; 2; 3] :: demo_traffic) in
  let s := exchange client_side server_side 3 in
  talks client_side (s ++ [8]) (Ok (SockV4 [10; 0; 0; 1] 40000, UNSPECIFIED_V4)) [8] (wrote client_side s).
Proof.
  apply (associate_end_to_end (λ _, Ok ()) (λ _ _, Ok [demo_local]) (λ _, Ok ()) (λ _, Ok ()) demo_inbound demo_outbound demo_server
    demo_local [] demo_far demo_peer demo_local demo_udp_local (λ _, Ok demo_udp_local) 0 demo_source demo_far [1; 2; 3] demo_traffic [7] [8]).
  - reflexivity.
  - reflexivity.
  - exact demo_credentials.
  - reflexivity.
  - reflexivity.
  - by_decide.
  - by_decide.
  - reflexivity.
  - reflexivity.
  - repeat (apply Forall_cons; split; [split_and!; [by_decide|reflexivity|apply Nat.leb_le; vm_compute; reflexivity]|]). by apply Forall_nil.
Defined.
