(* ===== verification/Router.v ===== *)
(** * Routing and the direct outbound

    src/router.rs: the choice of an outbound for a session and the table of
    outbounds; src/protocol.rs: the choice of an inbound implementation;
    src/protocol/direct/outbound.rs. *)
From S2P Require Import Prelude Text Net Config.

(** ** The outbound trait

    An implementation of [trait Outbound]: what dialing gives is the
    implementation's. *)
Class Outbound (O Conn Dgram : Type) := {
  dial : O → Session → Result Conn;
  dial_udp : O → Session → Result Dgram;
}.

(** The default body of [Outbound::dial_udp]. *)
Definition default_dial_udp {O Dgram} (_ : O) (_ : Session) : Result Dgram :=
  Err (EMsg "udp is not supported by this outbound").

Section router.
Context {O Conn Dgram : Type} `{!Outbound O Conn Dgram}.
(** The constructors of the four outbound implementations. *)
Variable new_direct : O.
Variables (new_socks5 new_anytls new_tuic : OutboundConfig → Result O).

Definition build_outbound (cfg : OutboundConfig) : Result O :=
  outbound ←
    match out_protocol cfg with
    | Direct => Ok new_direct
    | Socks5 => new_socks5 cfg
    | Anytls => new_anytls cfg
    | Tuic => new_tuic cfg
    end;
  if match out_protocol cfg with Socks5 | Anytls | Tuic => true | Direct => false end
     && negb (is_some (server cfg))
  then Err (EMsg "outbound requires server")
  else Ok outbound.

Record Router := MkRouter { router_cfg : Config; router_outbounds : gmap bytes O }.

(** The loop of [Router::new]. *)
Fixpoint insert_outbounds (m : gmap bytes O) (cfgs : list OutboundConfig) : Result (gmap bytes O) :=
  match cfgs with
  | [] => Ok m
  | c :: cfgs => o ← build_outbound c; insert_outbounds (<[out_tag c := o]> m) cfgs
  end.

Definition router_new (cfg : Config) : Result Router :=
  outs ← insert_outbounds ∅ (outbounds cfg);
  Ok (MkRouter cfg outs).

Definition rule_matches (session : Session) (rule : RouteRule) : bool :=
  match rule_inbound rule with Some i => str_eqb i (session_inbound session) | None => false end.

(** The loop over the rules: the first match returns. *)
Fixpoint first_rule (session : Session) (rs : list RouteRule) : option bytes :=
  match rs with
  | [] => None
  | rule :: rs =>
      if rule_matches session rule then Some (rule_outbound rule) else first_rule session rs
  end.

Definition pick_outbound (r : Router) (session : Session) : Result bytes :=
  match first_rule session (rules (routing (router_cfg r))) with
  | Some tag => Ok tag
  | None =>
      match routing_default (routing (router_cfg r)) with
      | Some default => Ok default
      | None => context (out_tag <$> head (outbounds (router_cfg r))) "no outbound available"
      end
  end.

Definition router_dial (r : Router) (session : Session) : Result Conn :=
  tag ← pick_outbound r session;
  outbound ← context (router_outbounds r !! tag) "unknown outbound";
  dial outbound session.

Definition router_dial_udp (r : Router) (session : Session) : Result Dgram :=
  tag ← pick_outbound r session;
  outbound ← context (router_outbounds r !! tag) "unknown outbound";
  dial_udp outbound session.

(** ** Lemmas *)
Lemma insert_outbounds_lookup m cfgs m' tag o :
  insert_outbounds m cfgs = Ok m' → m' !! tag = Some o →
  (m !! tag = Some o ∧ Forall (λ c, out_tag c ≠ tag) cfgs) ∨
  ∃ pre c post, cfgs = pre ++ c :: post ∧ out_tag c = tag ∧ build_outbound c = Ok o ∧
    Forall (λ c, out_tag c ≠ tag) post.
Proof.
  revert m. induction cfgs as [|c cfgs IH]; intros m Hm Hl; simpl in Hm.
  { injection Hm as <-. by left. }
  apply Result_bind_inv in Hm as (oc & Hc & Hm).
  destruct (IH _ Hm Hl) as [[Hi Hnone]|(pre & c' & post & -> & Ht & Hb & Hp)].
  - destruct (decide (out_tag c = tag)) as [<-|Hne].
    + rw lookup_insert_eq in Hi. injection Hi as <-. right. by exists [], c, cfgs.
    + rw lookup_insert_ne in Hi; [done|]. left. split; [done|]. by constructor.
  - right. by exists (c :: pre), c', post.
Qed.

Lemma insert_outbounds_has m cfgs m' tag :
  insert_outbounds m cfgs = Ok m' →
  is_Some (m' !! tag) ↔ is_Some (m !! tag) ∨ ∃ c, c ∈ cfgs ∧ out_tag c = tag.
Proof.
  revert m. induction cfgs as [|c cfgs IH]; intros m Hm; simpl in Hm.
  { injection Hm as <-. split; [by left|]. intros [?|(c & Hc & _)]; [done|]. by apply not_elem_of_nil in Hc. }
  apply Result_bind_inv in Hm as (oc & Hc & Hm). rw (IH _ Hm).
  destruct (decide (out_tag c = tag)) as [<-|Hne].
  - rw lookup_insert_eq. split; intros _; [right|left; by eexists]. exists c. split; [by left|done].
  - rw lookup_insert_ne; [done|]. split; intros [?|(c' & Hin & Ht)]; try (by left).
    + right. exists c'. split; [by right|done].
    + right. apply elem_of_cons in Hin as [->|Hin]; [done|eauto].
Qed.

Lemma first_rule_spec session rs tag :
  first_rule session rs = Some tag ↔
  ∃ pre ru post, rs = pre ++ ru :: post ∧ rule_outbound ru = tag ∧ rule_matches session ru = true ∧
    Forall (λ r, rule_matches session r = false) pre.
Proof.
  induction rs as [|r rs IH]; simpl.
  { split; [done|]. intros (pre & ru & post & H & _). by destruct pre. }
  destruct (rule_matches session r) eqn:Hr.
  - split.
    + intros [= <-]. by exists [], r, rs.
    + intros (pre & ru & post & H & <- & Hm & Hpre). destruct pre as [|p pre]; simplify_eq/=; [done|].
      apply Forall_cons in Hpre as [Hp _]. congruence.
  - rw IH. split; intros (pre & ru & post & H & <- & Hm & Hpre).
    + exists (r :: pre), ru, post. subst. split_and!; [done..|by constructor].
    + destruct pre as [|p pre]; simplify_eq/=; [congruence|].
      apply Forall_cons in Hpre as [_ Hpre]. by exists pre, ru, post.
Qed.

Lemma first_rule_none session rs :
  first_rule session rs = None ↔ Forall (λ r, rule_matches session r = false) rs.
Proof.
  induction rs as [|r rs IH]; simpl; [by split; [constructor|]|]. rw Forall_cons -IH.
  destruct (rule_matches session r); naive_solver.
Qed.

(** The outbound a tag names: the last one configured under it. *)
Definition named_outbound (cfg : Config) (tag : bytes) (o : O) : Prop :=
  ∃ pre c post, outbounds cfg = pre ++ c :: post ∧ out_tag c = tag ∧ build_outbound c = Ok o ∧
    Forall (λ c, out_tag c ≠ tag) post.

Lemma router_outbounds_named cfg r tag :
  router_new cfg = Ok r →
  match router_outbounds r !! tag with
  | Some o => named_outbound cfg tag o
  | None => ∀ c, c ∈ outbounds cfg → out_tag c ≠ tag
  end.
Proof.
  intros H. apply Result_bind_inv in H as (m & Hm & [= <-]). simpl.
  destruct (m !! tag) as [o|] eqn:Hl.
  - destruct (insert_outbounds_lookup _ _ _ _ _ Hm Hl) as [[He _]|?]; [|done]. by rw lookup_empty in He.
  - intros c Hc Ht. assert (is_Some (m !! tag)) as [? ?]; [|congruence].
    apply (insert_outbounds_has _ _ _ tag Hm). right. eauto.
Qed.

(** The tag a session is sent to: its first matching rule, or the default, or
    the first outbound. *)
Definition routed (cfg : Config) (session : Session) (tag : bytes) : Prop :=
  (∃ pre ru post, rules (routing cfg) = pre ++ ru :: post ∧ rule_outbound ru = tag ∧
     rule_inbound ru = Some (session_inbound session) ∧
     Forall (λ r, rule_inbound r ≠ Some (session_inbound session)) pre) ∨
  (Forall (λ r, rule_inbound r ≠ Some (session_inbound session)) (rules (routing cfg)) ∧
   (routing_default (routing cfg) = Some tag ∨
    routing_default (routing cfg) = None ∧ ∃ c cs, outbounds cfg = c :: cs ∧ out_tag c = tag)).

Lemma rule_matches_iff session r :
  rule_matches session r = true ↔ rule_inbound r = Some (session_inbound session).
Proof.
  rw /rule_matches. destruct (rule_inbound r) as [i|]; [|done]. rw str_eqb_eq. naive_solver.
Qed.
Lemma rule_matches_not session rs :
  Forall (λ r, rule_matches session r = false) rs ↔
  Forall (λ r, rule_inbound r ≠ Some (session_inbound session)) rs.
Proof.
  rw !Forall_forall. split; intros H r Hr; specialize (H r Hr).
  - rw -rule_matches_iff H. done.
  - rw -rule_matches_iff in H. by destruct (rule_matches session r).
Qed.

Lemma pick_outbound_routed r session tag :
  pick_outbound r session = Ok tag ↔ routed (router_cfg r) session tag.
Proof.
  rw /pick_outbound /routed. destruct (first_rule _ _) as [t|] eqn:Hf.
  - apply first_rule_spec in Hf as (pre & ru & post & Hrs & <- & Hm & Hpre).
    apply rule_matches_iff in Hm. pose proof Hpre as Hpre'. apply rule_matches_not in Hpre'. split.
    + intros [= <-]. left. by exists pre, ru, post.
    + intros [(pre' & ru' & post' & Hrs' & <- & Hm' & Hnone')|[Hall _]].
      * apply rule_matches_iff in Hm'. apply rule_matches_not in Hnone'.
        assert (first_rule session (rules (routing (router_cfg r))) = Some (rule_outbound ru)) as E1.
        { apply first_rule_spec. exists pre, ru, post. by rw rule_matches_iff. }
        assert (first_rule session (rules (routing (router_cfg r))) = Some (rule_outbound ru')) as E2.
        { apply first_rule_spec. by exists pre', ru', post'. }
        congruence.
      * rw Hrs Forall_app Forall_cons in Hall. naive_solver.
  - apply first_rule_none, rule_matches_not in Hf. split.
    + intros H. right. split; [done|]. destruct (routing_default _) as [d|]; [left; congruence|right].
      split; [done|]. destruct (outbounds (router_cfg r)) as [|c cs]; [done|]. simpl in H. naive_solver.
    + intros [(pre & ru & post & Hrs & _ & Hm & _)|[_ [Hd|[Hd (c & cs & Ho & <-)]]]].
      * rw Hrs Forall_app Forall_cons in Hf. naive_solver.
      * by rw Hd.
      * by rw Hd Ho.
Qed.

(** ** Properties *)

(** Routing follows the configuration and fails closed. A session is dialed
    through the outbound of the tag its first matching rule names, or without
    such a rule of the default, or else of the first outbound; of several
    outbounds with that tag the last one. A tag no outbound has is an error:
    traffic never leaves by another outbound instead. Both kinds of session
    take the same route. *)
Lemma router_dispatch cfg r session tag :
  router_new cfg = Ok r → routed cfg session tag →
  (∃ o, named_outbound cfg tag o ∧
     router_dial r session = dial o session ∧ router_dial_udp r session = dial_udp o session) ∨
  ((∀ c, c ∈ outbounds cfg → out_tag c ≠ tag) ∧
     router_dial r session = Err (EMsg "unknown outbound") ∧
     router_dial_udp r session = Err (EMsg "unknown outbound")).
Proof.
  intros Hnew Hr. assert (router_cfg r = cfg) as Hcfg.
  { by apply Result_bind_inv in Hnew as (m & _ & [= <-]). }
  pose proof (router_outbounds_named cfg r tag Hnew) as Hn.
  rw -Hcfg in Hr. apply pick_outbound_routed in Hr.
  rw /router_dial /router_dial_udp Hr. cbn [mbind Result_bind].
  destruct (router_outbounds r !! tag) as [o|]; [left; by exists o|by right].
Qed.

(** C37: With a validated configuration only a rule that names an unknown tag
    can leave a session without an outbound: if every tag the rules name is
    configured, every session of every inbound is dialed by an outbound. *)
Theorem router_total cfg r session :
  valid_config cfg → router_new cfg = Ok r →
  (∀ ru, ru ∈ rules (routing cfg) → ∃ c, c ∈ outbounds cfg ∧ out_tag c = rule_outbound ru) →
  ∃ tag o, routed cfg session tag ∧ named_outbound cfg tag o ∧
    router_dial r session = dial o session ∧ router_dial_udp r session = dial_udp o session.
Proof.
  intros Hval Hnew Hknown. assert (router_cfg r = cfg) as Hcfg.
  { by apply Result_bind_inv in Hnew as (m & _ & [= <-]). }
  assert (∃ tag, pick_outbound r session = Ok tag ∧ ∃ c, c ∈ outbounds cfg ∧ out_tag c = tag)
    as (tag & Hp & c & Hc & Ht).
  { rw /pick_outbound Hcfg. destruct (first_rule _ _) as [t|] eqn:Hf.
    - apply first_rule_spec in Hf as (pre & ru & post & Hrs & <- & _). eexists. split; [done|].
      apply Hknown. rw Hrs. apply elem_of_app. right. by left.
    - destruct (routing_default _) as [d|] eqn:Hd.
      + eexists. split; [done|]. by apply (default_known _ Hval).
      + pose proof (has_outbound _ Hval). destruct (outbounds cfg) as [|c cs]; [done|].
        exists (out_tag c). split; [done|]. exists c. split; [by left|done]. }
  exists tag. pose proof (router_outbounds_named cfg r tag Hnew) as Hn.
  pose proof Hp as Hr. apply pick_outbound_routed in Hr. rw Hcfg in Hr.
  rw /router_dial /router_dial_udp Hp. cbn [mbind Result_bind].
  destruct (router_outbounds r !! tag) as [o|]; [by exists o|]. by destruct (Hn c Hc).
Qed.
End router.

Definition demo_direct (tag : bytes) : OutboundConfig :=
  MkOutbound tag Direct None None false None None None None None None None.
Definition demo_config : Config :=
  MkConfig None None
    [MkInbound (str "in") (socket_addr_new LOCALHOST_V4 1080) Socks5 None [] None None]
    [demo_direct (str "a"); demo_direct (str "b")]
    (MkRouting (Some (str "b")) [MkRule (Some (str "x")) (str "a")]).
#[local] Instance demo_out : Outbound () bytes bytes :=
  {| dial := λ _ s, Ok (session_inbound s); dial_udp := default_dial_udp |}.
Definition demo_session : Session := MkSession (str "x") Connect (Domain (str "h") 1).
Definition demo_router : Router :=
  MkRouter demo_config (<[str "b" := ()]> (<[str "a" := ()]> ∅)).

Lemma router_dispatch_witness :
  (∃ o, named_outbound () (λ _, Ok ()) (λ _, Ok ()) (λ _, Ok ()) demo_config (str "a") o ∧
     router_dial demo_router demo_session = dial o demo_session ∧
     router_dial_udp demo_router demo_session = dial_udp o demo_session) ∨
  ((∀ c, c ∈ outbounds demo_config → out_tag c ≠ str "a") ∧
     router_dial demo_router demo_session = Err (EMsg "unknown outbound") ∧
     router_dial_udp demo_router demo_session = Err (EMsg "unknown outbound")).
Proof.
  apply (router_dispatch () (λ _, Ok ()) (λ _, Ok ()) (λ _, Ok ()) demo_config demo_router demo_session).
  - reflexivity.
  - left. exists [], (MkRule (Some (str "x")) (str "a")), []. repeat split; constructor.
Defined.

Lemma demo_config_valid : valid_config demo_config.
Proof.
  split; [done|done| | |].
  - intros d [= <-]. exists (demo_direct (str "b")). split; [right; left|done].
  - intros i t [->|Hi]%elem_of_cons; [done|by apply not_elem_of_nil in Hi].
  - intros o [->|[->|Ho]%elem_of_cons]%elem_of_cons; [done..|by apply not_elem_of_nil in Ho].
Qed.

Lemma router_total_witness :
  ∃ tag o, routed demo_config demo_session tag ∧
    named_outbound () (λ _, Ok ()) (λ _, Ok ()) (λ _, Ok ()) demo_config tag o ∧
    router_dial demo_router demo_session = dial o demo_session ∧
    router_dial_udp demo_router demo_session = dial_udp o demo_session.
Proof.
  apply (router_total () (λ _, Ok ()) (λ _, Ok ()) (λ _, Ok ()) demo_config demo_router).
  - exact demo_config_valid.
  - reflexivity.
  - intros ru [->|Hr]%elem_of_cons; [|by apply not_elem_of_nil in Hr].
    exists (demo_direct (str "a")). split; [left|done].
Defined.

(** ** The direct outbound

    What reaches the network: a TCP connection attempt, or a datagram handed
    to one of the two sockets. *)
Inductive Family := FamilyV4 | FamilyV6.

Definition direct_dial {Conn} (tcp_connect : TargetAddr → Result Conn) (session : Session)
  : Result Conn :=
  ensure (bool_decide (session_command session = Connect)) "direct outbound only supports CONNECT" ;;
  tcp_connect (session_target session).

(** [UdpSocket::bind] for both families; an error of either is the result. *)
Definition direct_dial_udp {Sock} (bind : Family → Result Sock) (session : Session)
  : Result (Sock * Sock) :=
  ensure (bool_decide (session_command session = UdpAssociate))
    "direct udp outbound only supports UDP associate" ;;
  v4 ← bind FamilyV4;
  v6 ← bind FamilyV6;
  Ok (v4, v6).

(** [DirectUdpSession::send_to]: the socket chosen and what it is asked to send. *)
Definition direct_send_to (target : TargetAddr) (payload : bytes) : Family * TargetAddr * bytes :=
  match target with
  | Ip addr =>
      if match sa_ip addr with V6 _ => true | V4 _ => false end
      then (FamilyV6, Ip addr, payload)
      else (FamilyV4, Ip addr, payload)
  | Domain host port => (FamilyV4, Domain host port, payload)
  end.

(** [DirectUdpSession::recv_from]: whichever socket is ready first; its buffer
    holds any datagram. *)
Definition direct_recv_from (ready : Family) (from_v4 from_v6 : Result (bytes * SocketAddr))
  : Result (TargetAddr * bytes) :=
  '(data, source) ← match ready with FamilyV4 => from_v4 | FamilyV6 => from_v6 end;
  Ok (Ip source, data).

(** [run_inbound]: the implementation chosen for an inbound. *)
Inductive InboundImpl := RunSocks5 | RunAnytls | RunTuic.

Definition run_inbound (cfg : InboundConfig) : Result InboundImpl :=
  match in_protocol cfg with
  | Socks5 => Ok RunSocks5
  | Anytls => Ok RunAnytls
  | Tuic => Ok RunTuic
  | Direct => Err (EMsg "direct is only valid as an outbound")
  end.

Definition family_of (a : SocketAddr) : Family := if is_ipv4 a then FamilyV4 else FamilyV6.

(** An IP target is sent unchanged through the socket of its own family. *)
Lemma direct_send_to_ip a payload : direct_send_to (Ip a) payload = (family_of a, Ip a, payload).
Proof. by destruct a. Qed.

(** A domain is always handed to the IPv4 socket, so a name that resolves to an
    IPv6 address only is sent through a socket of the other family. *)
Lemma direct_send_to_domain h p payload : direct_send_to (Domain h p) payload = (FamilyV4, Domain h p, payload).
Proof. done. Qed.
