(* ===== verification/TuicSettings.v ===== *)
(** * The QUIC settings of TUIC (src/protocol/tuic.rs)

    What both ends set of the settings of the QUIC library, whose defaults are a
    parameter, and that the two ends can agree. *)
From S2P Require Import Prelude Text Config.

(** The fields the program sets; [tls_application_settings] and
    [extra_transport_params] as pairs of a protocol or an identifier and a value. *)
Record QuicSettings := MkQuicSettings {
  alpn : list bytes;
  tls_ech_grease : bool;
  tls_application_settings : list (bytes * bytes);
  extra_transport_params : list (Z * bytes);
  ack_delay_exponent : Z;
  max_ack_delay : Z;
  disable_active_migration : bool;
  verify_peer : bool;
  disable_client_ip_validation : bool;
}.

Definition CHROME_H3_ALPS_SETTINGS : bytes := [].
Definition CHROME_QUIC_VERSION_INFORMATION : bytes := [0; 0; 0; 1; 0; 0; 0; 1].

Definition quic_settings (defaults : QuicSettings) : QuicSettings :=
  MkQuicSettings [str "h3"] true [(str "h3", CHROME_H3_ALPS_SETTINGS)]
    [(17, CHROME_QUIC_VERSION_INFORMATION); (12584, [])]
    0 0 false (verify_peer defaults) (disable_client_ip_validation defaults).

Definition set_verify_peer (v : bool) (s : QuicSettings) : QuicSettings :=
  MkQuicSettings (alpn s) (tls_ech_grease s) (tls_application_settings s) (extra_transport_params s)
    (ack_delay_exponent s) (max_ack_delay s) (disable_active_migration s) v (disable_client_ip_validation s).
Definition set_disable_client_ip_validation (v : bool) (s : QuicSettings) : QuicSettings :=
  MkQuicSettings (alpn s) (tls_ech_grease s) (tls_application_settings s) (extra_transport_params s)
    (ack_delay_exponent s) (max_ack_delay s) (disable_active_migration s) (verify_peer s) v.

(** [tuic::inbound::serve] and [TuicOutbound::dial]. *)
Definition quic_server_settings (defaults : QuicSettings) : QuicSettings :=
  set_disable_client_ip_validation true (set_verify_peer false (quic_settings defaults)).
Definition quic_client_settings (defaults : QuicSettings) (cfg : OutboundConfig) : QuicSettings :=
  set_verify_peer (negb (insecure cfg)) (quic_settings defaults).

(** ** Agreement *)

(** The version information parameter: the chosen version, then the available
    ones, four bytes each. *)
Fixpoint versions (fuel : nat) (raw : bytes) : list Z :=
  match fuel with
  | O => []
  | S fuel => match raw with [] => [] | _ => be_val (take 4 raw) :: versions fuel (drop 4 raw) end
  end.
Definition param (id : Z) (s : QuicSettings) : option bytes :=
  snd <$> List.find (λ p, p.1 =? id) (extra_transport_params s).

(** Whatever the defaults of the library are, the two ends offer the same
    application protocol, for which they also carry application settings, and
    announce QUIC version 1 among the available versions; a client verifies
    its server unless it is configured to be insecure. *)
Lemma settings_agree defaults cfg :
  let s := quic_server_settings defaults in
  let c := quic_client_settings defaults cfg in
  alpn c = alpn s ∧ Forall (λ x, x.1 ∈ alpn c) (tls_application_settings c) ∧
  extra_transport_params c = extra_transport_params s ∧
  (∃ raw chosen available, param 17 c = Some raw ∧ versions (length raw) raw = chosen :: available ∧ chosen = 1 ∧ chosen ∈ available) ∧
  verify_peer c = negb (insecure cfg).
Proof.
  split_and!; [done| |done| |done].
  - apply Forall_cons. split; [by left|by apply Forall_nil].
  - eexists _, 1, [1]. split; [reflexivity|]. split_and!; [reflexivity..|]. by left.
Qed.
