(* ===== verification/TuicCodec.v ===== *)
(** * TUIC wire format (src/protocol/tuic/codec.rs)

    Header parsing and printing are the tuic_core crate's, a parameter here
    (the class [TuicCore]); the packets, their fragmentation and reassembly
    are the program's. *)
From S2P Require Import Prelude Text Net.

(** ** tuic_core

    The enums of the crate, with the fields its constructors take and its
    accessors return. *)
Inductive Address :=
  | AddrNone
  | AddrDomain (host : bytes) (port : Z)
  | AddrSocket (addr : SocketAddr).

Inductive Header :=
  | HAuthenticate (uuid token : bytes)
  | HConnect (addr : Address)
  | HPacket (assoc_id pkt_id frag_total frag_id size : Z) (addr : Address)
  | HDissociate (assoc_id : Z)
  | HHeartbeat.

Definition TOKEN_LEN : nat := 32.
Definition AUTHENTICATE_LEN : nat := 2 + 16 + TOKEN_LEN.

(** The ranges the crate's types guarantee, and domains that fit a length byte. *)
Definition wf_address (a : Address) : Prop :=
  match a with
  | AddrNone => True
  | AddrDomain h p => utf8_valid h = true ∧ len h ≤ 255 ∧ is_u16 p
  | AddrSocket s => wf_socket s
  end.

Definition wf_header (h : Header) : Prop :=
  match h with
  | HAuthenticate u t => length u = 16%nat ∧ wf_bytes u ∧ length t = TOKEN_LEN ∧ wf_bytes t
  | HConnect a => wf_address a
  | HPacket i j n k s a => is_u16 i ∧ is_u16 j ∧ is_u8 n ∧ is_u8 k ∧ is_u16 s ∧ wf_address a
  | HDissociate i => is_u16 i
  | HHeartbeat => True
  end.

(** What of a header is on the wire: not the flow label and scope id. *)
Definition wire_address (a : Address) : Address :=
  match a with
  | AddrSocket s => AddrSocket (socket_addr_new (sa_ip s) (sa_port s))
  | _ => a
  end.
Definition wire_header (h : Header) : Header :=
  match h with
  | HConnect a => HConnect (wire_address a)
  | HPacket i j n k s a => HPacket i j n k s (wire_address a)
  | _ => h
  end.

Class TuicCore := {
  VERSION : Z;
  CMD_AUTHENTICATE : Z;
  CMD_CONNECT : Z;
  CMD_PACKET : Z;
  CMD_DISSOCIATE : Z;
  CMD_HEARTBEAT : Z;
  (** [Header::marshal] into an empty vector *)
  marshal : Header → Result bytes;
  (** [Header::unmarshal] on a cursor over the data: the header and the
      cursor's position *)
  unmarshal : bytes → Result (Header * nat);
  (** [Header::len] of a packet header, by its address *)
  packet_header_len : Address → nat;
}.

Definition type_code `{!TuicCore} (h : Header) : Z :=
  match h with
  | HAuthenticate _ _ => CMD_AUTHENTICATE
  | HConnect _ => CMD_CONNECT
  | HPacket _ _ _ _ _ _ => CMD_PACKET
  | HDissociate _ => CMD_DISSOCIATE
  | HHeartbeat => CMD_HEARTBEAT
  end.

(** What the crate documents: headers are read back as written and end where
    they end, a truncated header is an I/O error, every command starts with
    the version and its type code, a packet header's length depends on its
    address alone, an absent address being the shortest and flow label and
    scope id taking no room, an authentication is version, type code, uuid and
    token, and the type codes are distinct. *)
Class TuicCoreLaws `{!TuicCore} : Prop := {
  unmarshal_marshal h :
    wf_header h →
    ∃ enc, marshal h = Ok enc ∧
      (∀ rest, unmarshal (enc ++ rest) = Ok (wire_header h, length enc)) ∧
      (∀ k, (k < length enc)%nat → unmarshal (take k enc) = Err (EUnmarshal (Some UnexpectedEof)));
  marshal_prefix h enc : marshal h = Ok enc → ∃ body, enc = VERSION :: type_code h :: body;
  unmarshal_wf data h n :
    wf_bytes data → unmarshal data = Ok (h, n) → wf_header h ∧ (n ≤ length data)%nat;
  marshal_packet_len i j n k s a enc :
    marshal (HPacket i j n k s a) = Ok enc → length enc = packet_header_len a;
  packet_header_len_none a : (packet_header_len AddrNone ≤ packet_header_len a)%nat;
  packet_header_len_wire a : packet_header_len (wire_address a) = packet_header_len a;
  marshal_authenticate_len u t enc :
    length u = 16%nat → length t = TOKEN_LEN → marshal (HAuthenticate u t) = Ok enc → length enc = AUTHENTICATE_LEN;
  commands_distinct : NoDup [CMD_AUTHENTICATE; CMD_CONNECT; CMD_PACKET; CMD_DISSOCIATE; CMD_HEARTBEAT];
}.

(** ** The codec *)
Section codec.
Context `{!TuicCore}.

Definition FRAGMENT_IDLE_TIMEOUT : Z := from_secs 30.

(** [SSL_export_keying_material] of a label and a context, which fails or gives
    the [TOKEN_LEN] bytes asked for, is the parameter. *)
Definition export_keying_material_raw_label (export_keying_material : bytes → bytes → option bytes) (label ctx : bytes)
  : Result bytes :=
  context (export_keying_material label ctx) "failed to export TUIC token".

Definition token (export_keying_material : bytes → bytes → option bytes) (uuid password : bytes) : Result bytes :=
  export_keying_material_raw_label export_keying_material uuid password.

Definition marshal_header (h : Header) : Result bytes := marshal h.
Definition parse_header (data : bytes) : Result (Header * nat) := unmarshal data.

Definition target_to_address (target : TargetAddr) : Result Address :=
  match target with
  | Domain host port =>
      ensure (len host <=? 255) "domain is too long" ;;
      Ok (AddrDomain host port)
  | Ip addr => Ok (AddrSocket addr)
  end.

Definition address_to_target (address : Address) : Result TargetAddr :=
  match address with
  | AddrDomain host port => Ok (Domain host port)
  | AddrSocket addr => Ok (Ip addr)
  | AddrNone => Err (EMsg "empty address is not valid for TCP connect")
  end.

Definition address_to_optional_target (address : Address) : Result (option TargetAddr) :=
  match address with
  | AddrNone => Ok None
  | other => t ← address_to_target other; Ok (Some t)
  end.

Definition encode_authenticate (uuid token : bytes) : Result bytes :=
  marshal_header (HAuthenticate uuid token).

Definition parse_authenticate (data : bytes) : Result (bytes * bytes) :=
  '(header, _) ← parse_header data;
  match header with
  | HAuthenticate uuid token => Ok (uuid, token)
  | _ => Err (EMsg "unexpected tuic command, expected authenticate")
  end.

Definition parse_connect (data : bytes) : Result (TargetAddr * nat) :=
  '(header, consumed) ← parse_header data;
  match header with
  | HConnect addr => t ← address_to_target addr; Ok (t, consumed)
  | _ => Err (EMsg "unexpected tuic command, expected connect")
  end.

Definition try_parse_connect (data : bytes) : Result (option (TargetAddr * nat)) :=
  match parse_connect data with
  | Ok connect => Ok (Some connect)
  | Err (EUnmarshal (Some UnexpectedEof)) => Ok None
  | Err err => Err err
  end.

Definition encode_addr (target : TargetAddr) : Result bytes :=
  addr ← target_to_address target;
  encoded ← marshal_header (HConnect addr);
  Ok (drop 2 encoded).

Definition decode_addr (data : bytes) : Result (TargetAddr * nat) :=
  '(target, consumed) ← parse_connect ([VERSION; CMD_CONNECT] ++ data);
  Ok (target, (consumed - 2)%nat).

Definition encode_connect (target : TargetAddr) (payload : bytes) : Result bytes :=
  addr ← target_to_address target;
  output ← marshal_header (HConnect addr);
  Ok (output ++ payload).

Record Packet := MkPacket {
  assoc_id : Z;
  pkt_id : Z;
  frag_total : Z;
  frag_id : Z;
  target : option TargetAddr;
  payload : bytes;
}.

Definition encode_packet (packet : Packet) : Result bytes :=
  ensure (0 <? frag_total packet) "packet fragment total cannot be zero" ;;
  ensure (frag_id packet <? frag_total packet) "packet fragment id exceeds fragment total" ;;
  ensure (len (payload packet) <=? U16_MAX) "tuic packet fragment is too large" ;;
  addr ← match target packet with
         | Some t => target_to_address t
         | None => Ok AddrNone
         end;
  output ← marshal_header
    (HPacket (assoc_id packet) (pkt_id packet) (frag_total packet) (frag_id packet)
       (as_u16 (len (payload packet))) addr);
  Ok (output ++ payload packet).

(** [slice::chunks] *)
Fixpoint chunks_fuel (fuel n : nat) (l : bytes) : list bytes :=
  match fuel, l with
  | S fuel, _ :: _ => take n l :: chunks_fuel fuel n (drop n l)
  | _, _ => []
  end.
Definition chunks (n : nat) (l : bytes) : list bytes := chunks_fuel (length l) n l.

(** [usize::div_ceil] *)
Definition div_ceil (a b : Z) : Z := (a + b - 1) / b.

Definition fragment_packet (packet : Packet) (max_size : nat) : Result (list Packet) :=
  encoded ← encode_packet packet;
  if decide (length encoded ≤ max_size)%nat then Ok [packet]
  else
    ensure ((frag_total packet =? 1) && (frag_id packet =? 0)) "cannot refragment a TUIC fragment" ;;
    let header_len := (length encoded - length (payload packet))%nat in
    capacity ← context
      (if decide (header_len < max_size)%nat then Some (max_size - header_len)%nat else None)
      "QUIC DATAGRAM limit cannot fit a TUIC packet header";
    let count := div_ceil (len (payload packet)) (Z.of_nat capacity) in
    ensure (count <=? U8_MAX) "TUIC packet requires too many fragments" ;;
    Ok (imap (λ index chunk, {|
          assoc_id := assoc_id packet;
          pkt_id := pkt_id packet;
          frag_total := as_u8 count;
          frag_id := as_u8 (Z.of_nat index);
          target := if decide (index = 0)%nat then target packet else None;
          payload := chunk |}) (chunks capacity (payload packet))).

Definition parse_packet (data : bytes) : Result Packet :=
  '(header, payload_start) ← parse_header data;
  match header with
  | HPacket a p total id size addr =>
      ensure (0 <? total) "packet fragment total cannot be zero" ;;
      ensure (id <? total) "packet fragment id exceeds fragment total" ;;
      let payload_end := (payload_start + Z.to_nat size)%nat in
      ensure (bool_decide (payload_end ≤ length data)%nat) "short tuic packet payload" ;;
      t ← address_to_optional_target addr;
      Ok (MkPacket a p total id t (take (Z.to_nat size) (drop payload_start data)))
  | _ => Err (EMsg "unexpected tuic command, expected packet")
  end.

Definition encode_dissociate (assoc_id : Z) : bytes :=
  match marshal_header (HDissociate assoc_id) with
  | Ok output => output
  | Err _ => [VERSION] ++ [CMD_DISSOCIATE] ++ be_bytes 2 assoc_id
  end.

Definition parse_dissociate (data : bytes) : Result Z :=
  '(header, _) ← parse_header data;
  match header with
  | HDissociate assoc_id => Ok assoc_id
  | _ => Err (EMsg "unexpected tuic command, expected dissociate")
  end.

Definition encode_heartbeat : Result bytes := marshal_header HHeartbeat.
End codec.

(** ** Reassembly *)
Record FragmentedPacket := MkFragmented {
  fp_assoc_id : Z;
  fp_pkt_id : Z;
  fp_frag_total : Z;
  fp_target : option TargetAddr;
  fp_last_used : Z;
  fp_fragments : gmap Z bytes;
}.

Definition PacketAssembler : Type := gmap (Z * Z) FragmentedPacket.

(** The loop over [0..frag_total] that takes the fragments out: the payload
    when all were there, and what is left of the map. *)
Fixpoint collect_fragments (ids : list Z) (frags : gmap Z bytes) (acc : bytes)
  : option bytes * gmap Z bytes :=
  match ids with
  | [] => (Some acc, frags)
  | i :: ids =>
      match frags !! i with
      | Some fragment => collect_fragments ids (delete i frags) (acc ++ fragment)
      | None => (None, frags)
      end
  end.

Definition set_fragments (e : FragmentedPacket) (m : gmap Z bytes) : FragmentedPacket :=
  MkFragmented (fp_assoc_id e) (fp_pkt_id e) (fp_frag_total e) (fp_target e) (fp_last_used e) m.

Definition push_at (packet : Packet) (now : Z) : SE PacketAssembler (option Packet) := λ self,
  if frag_total packet =? 1 then
    match target packet with
    | Some _ => (Ok (Some packet), self)
    | None => (Err (EMsg "single-fragment packet missing target"), self)
    end
  else
    let key := (assoc_id packet, pkt_id packet) in
    let entry := match self !! key with
                 | Some e => e
                 | None => MkFragmented (assoc_id packet) (pkt_id packet) (frag_total packet) None now ∅
                 end in
    if negb (fp_frag_total entry =? frag_total packet)
    then (Err (EMsg "fragment total changed within packet"), <[key := entry]> self)
    else
      let t := if frag_id packet =? 0 then target packet else fp_target entry in
      let frags := <[frag_id packet := payload packet]> (fp_fragments entry) in
      let entry := MkFragmented (fp_assoc_id entry) (fp_pkt_id entry) (fp_frag_total entry) t now frags in
      if negb (Z.of_nat (size frags) =? fp_frag_total entry)
      then (Ok None, <[key := entry]> self)
      else match t with
      | None => (Ok None, <[key := entry]> self)
      | Some tgt =>
          match collect_fragments (seqZ 0 (fp_frag_total entry)) frags [] with
          | (None, rest) => (Ok None, <[key := set_fragments entry rest]> self)
          | (Some pl, _) =>
              (Ok (Some (MkPacket (fp_assoc_id entry) (fp_pkt_id entry) 1 0 (Some tgt) pl)),
               delete key self)
          end
      end.

(** The map after the retained groups, and how many were dropped. *)
Definition evict_idle (now timeout : Z) (self : PacketAssembler) : PacketAssembler * nat :=
  let kept := filter (λ kv, saturating_duration_since now (fp_last_used kv.2) < timeout) self in
  (kept, (size self - size kept)%nat).

(** [PacketAssembler::push] at the clock reading [now]. *)
Definition push (packet : Packet) (now : Z) : SE PacketAssembler (option Packet) := λ self,
  push_at packet now (evict_idle now FRAGMENT_IDLE_TIMEOUT self).1.

Definition pending_fragment_groups (self : PacketAssembler) : nat := size self.

(** ** Lemmas on headers *)
Definition target_address (t : TargetAddr) : Address :=
  match t with Ip a => AddrSocket a | Domain h p => AddrDomain h p end.

Lemma target_to_address_ok t : fits_wire t = true → target_to_address t = Ok (target_address t).
Proof. destruct t as [a|h p]; [done|]. simpl. by intros ->. Qed.

Lemma target_address_wf t : wf_target t → fits_wire t = true → wf_address (target_address t).
Proof. destruct t as [a|h p]; [done|]. simpl. intros [? ?] ?. split_and!; [done|lia|done]. Qed.

Lemma address_to_target_wire t :
  address_to_target (wire_address (target_address t)) = Ok (wire_target t).
Proof. by destruct t. Qed.

(** A packet within its ranges: what the type and the checks of the codec
    allow. *)
Record valid_packet (p : Packet) : Prop := {
  vp_assoc : is_u16 (assoc_id p);
  vp_pkt : is_u16 (pkt_id p);
  vp_total : 0 < frag_total p < 256;
  vp_id : 0 ≤ frag_id p < frag_total p;
  vp_payload : len (payload p) ≤ U16_MAX;
  vp_bytes : wf_bytes (payload p);
  vp_target t : target p = Some t → wf_target t ∧ fits_wire t = true;
}.

Definition wire_packet (p : Packet) : Packet :=
  MkPacket (assoc_id p) (pkt_id p) (frag_total p) (frag_id p) (wire_target <$> target p) (payload p).

Definition packet_address (p : Packet) : Address :=
  match target p with Some t => target_address t | None => AddrNone end.

Definition packet_header (p : Packet) : Header :=
  HPacket (assoc_id p) (pkt_id p) (frag_total p) (frag_id p) (len (payload p)) (packet_address p).

Section codec_lemmas.
Context `{!TuicCore, !TuicCoreLaws}.

Lemma packet_header_wf p : valid_packet p → wf_header (packet_header p).
Proof.
  intros [Ha Hp Ht Hi Hl _ Hg]. rw /U16_MAX in Hl. pose proof (len_nonneg (payload p)).
  repeat split; try done; try (rw /is_u8 /is_u16; lia).
  - apply Ha. - apply Ha. - apply Hp. - apply Hp.
  - rw /packet_address. destruct (target p) as [t|]; [|done].
    destruct (Hg t eq_refl). by apply target_address_wf.
Qed.

Lemma encode_packet_ok p :
  valid_packet p →
  encode_packet p = (output ← marshal (packet_header p); Ok (output ++ payload p)).
Proof.
  intros [Ha Hp Ht Hi Hl _ Hg]. rw /encode_packet.
  rw ensure_then; [lia|]. rw ensure_then; [lia|]. rw ensure_then; [lia|].
  assert (as_u16 (len (payload p)) = len (payload p)) as ->.
  { apply Z.mod_small. pose proof (len_nonneg (payload p)). rw /U16_MAX in Hl. lia. }
  rw /packet_header /packet_address. destruct (target p) as [t|]; [|done].
  destruct (Hg t eq_refl). by rw target_to_address_ok.
Qed.

Lemma encode_packet_len p enc :
  valid_packet p → encode_packet p = Ok enc →
  length enc = (packet_header_len (packet_address p) + length (payload p))%nat.
Proof.
  intros Hv. rw encode_packet_ok; [done|]. intros Henc.
  apply Result_bind_inv in Henc as (o & Ho & [= <-]). apply marshal_packet_len in Ho.
  by rw length_app Ho.
Qed.

Lemma encode_packet_total p : valid_packet p → is_ok (encode_packet p) = true.
Proof.
  intros Hv. rw encode_packet_ok; [done|].
  by destruct (unmarshal_marshal _ (packet_header_wf p Hv)) as (enc & -> & _).
Qed.

Lemma optional_target_wire p :
  address_to_optional_target (wire_address (packet_address p)) = Ok (wire_target <$> target p).
Proof. rw /packet_address. by destruct (target p) as [[a|h q]|]. Qed.

Lemma packet_parses p :
  valid_packet p →
  ∃ enc, encode_packet p = Ok enc ∧
    (∀ rest, parse_packet (enc ++ rest) = Ok (wire_packet p)) ∧
    (∀ k, (k < length enc)%nat → is_ok (parse_packet (take k enc)) = false).
Proof.
  intros Hv. destruct (unmarshal_marshal _ (packet_header_wf p Hv)) as (hd & Hm & Hun & Hcut).
  rw encode_packet_ok; [done|]. rw Hm. cbn [mbind Result_bind]. eexists. split; [done|].
  pose proof Hv as [_ _ Ht Hi Hl _ _].
  assert (Hn : Z.to_nat (len (payload p)) = length (payload p)) by (rw /len; lia).
  split.
  - intros rest. rw /parse_packet /parse_header -app_assoc Hun. cbn [mbind Result_bind packet_header wire_header].
    do 2 (rw ensure_then; [lia|]). rw ensure_then.
    { apply bool_decide_eq_true. rw Hn !length_app. lia. }
    rw optional_target_wire. cbn [mbind Result_bind]. do 2 f_equal.
    by rw Hn drop_app_length take_app_length.
  - intros k Hk. rw length_app in Hk. rw /parse_packet /parse_header take_app.
    destruct (decide (k < length hd)%nat) as [Hlt|Hge].
    + replace (k - length hd)%nat with 0%nat by lia. by rw take_0 app_nil_r Hcut.
    + rw take_ge; [lia|]. rw Hun. cbn [mbind Result_bind packet_header wire_header].
      do 2 (rw ensure_then; [lia|]). rw /ensure bool_decide_false; [|done].
      rw Hn length_app length_take. lia.
Qed.

(** The data starts with a header that announces the fields of a packet and the
    size of its payload, and that many bytes follow. *)
Definition announces (data : bytes) (p : Packet) : Prop :=
  ∃ size addr start, unmarshal data = Ok (HPacket (assoc_id p) (pkt_id p) (frag_total p) (frag_id p) size addr, start) ∧
    address_to_optional_target addr = Ok (target p) ∧ len (payload p) = size ∧
    (start + length (payload p) ≤ length data)%nat ∧ payload p = take (length (payload p)) (drop start data).

Lemma parse_packet_inv data p : wf_bytes data → parse_packet data = Ok p → valid_packet p ∧ announces data p.
Proof.
  intros Hwf Hd. apply Result_bind_inv in Hd as ([h n] & Hh & Hd). pose proof Hh as Hun.
  apply unmarshal_wf in Hh as [Hh Hn]; [|done].
  destruct h as [| |a i tot id sz addr| |]; try done.
  apply Result_bind_inv in Hd as ([] & Ht%ensure_ok%Z.ltb_lt & Hd).
  apply Result_bind_inv in Hd as ([] & Hi%ensure_ok%Z.ltb_lt & Hd).
  apply Result_bind_inv in Hd as ([] & He%ensure_ok%bool_decide_eq_true & Hd).
  apply Result_bind_inv in Hd as (t & Hadr & [= <-]). simpl.
  destruct Hh as (Ha & Hp & Hb1 & Hb2 & Hs & Haddr). rw /is_u8 in Hb1, Hb2. rw /is_u16 in Hs.
  assert (Hlen : length (take (Z.to_nat sz) (drop n data)) = Z.to_nat sz)
    by (rw length_take length_drop; lia).
  split.
  - split; try done; simpl; try lia.
    + rw /len Hlen /U16_MAX. lia.
    + by apply Forall_take, Forall_drop.
    + intros t' ->. destruct addr as [|hst p|sa]; simplify_eq/=.
      * destruct Haddr as (? & ? & ?). split; [done|]. simpl. lia.
      * done.
  - exists sz, addr, n. simpl. rw /len Hlen. split_and!; [done|done|lia|done|done].
Qed.

Lemma announced_parses data p : valid_packet p → announces data p → parse_packet data = Ok p.
Proof.
  intros Hv (size & addr & n & Hun & Hadr & Hsz & Hle & Hpay). destruct Hv as [Ha Hp Hf Hi Hl Hw Ht]. rw /parse_packet /parse_header Hun /=.
  assert (Z.to_nat size = length (payload p)) as Hn by (rw -Hsz /len; lia).
  rw ensure_then; [apply Z.ltb_lt; lia|]. rw ensure_then; [apply Z.ltb_lt; lia|].
  rw ensure_then; [apply bool_decide_eq_true; lia|]. rw Hadr /= Hn -Hpay. by destruct p.
Qed.

(** The header of a CONNECT command: what is read of it, and of parts of it. *)
Lemma connect_header t :
  wf_target t → fits_wire t = true →
  ∃ hd, (2 ≤ length hd)%nat ∧ (∀ data, encode_connect t data = Ok (hd ++ data)) ∧
    (∀ k, (k < length hd)%nat → try_parse_connect (take k hd) = Ok None) ∧
    (∀ rest, try_parse_connect (hd ++ rest) = Ok (Some (wire_target t, length hd))).
Proof.
  intros Hwf Hfit.
  assert (Hh : wf_header (HConnect (target_address t))) by (by apply target_address_wf).
  destruct (unmarshal_marshal _ Hh) as (hd & Hm & Hun & Hcut).
  destruct (marshal_prefix _ _ Hm) as [body Hb]. exists hd. split_and!.
  - rw Hb /=. lia.
  - intros data. rw /encode_connect target_to_address_ok; [done|]. cbn [mbind Result_bind].
    by rw /marshal_header Hm.
  - intros k Hk. rw /try_parse_connect /parse_connect /parse_header Hcut; done.
  - intros rest. rw /try_parse_connect /parse_connect /parse_header Hun. cbn [mbind Result_bind wire_header].
    by rw address_to_target_wire.
Qed.

(** ** Properties of the codec *)

(** A valid TUIC packet, printed and parsed with anything behind it, is read
    back (the target without IPv6 flow label and scope id); every truncation of
    it is rejected. *)
Lemma packet_roundtrip p :
  valid_packet p →
  ∃ enc, encode_packet p = Ok enc ∧
    (∀ rest, parse_packet (enc ++ rest) = Ok (wire_packet p)) ∧
    (∀ k, (k < length enc)%nat → is_ok (parse_packet (take k enc)) = false).
Proof. apply packet_parses. Qed.

(** C38: Which bytes the parser accepts as a packet, and as which: exactly those
    that start with the header of a packet command, whose fields are those of the
    packet, whose fragment number is below its non-zero total, and which announces
    a payload of a size that is there: the payload is the bytes of that number
    right after the header, no more and no fewer; and the packet is valid.
    (What follows the payload is ignored.) *)
Theorem parse_packet_valid data p :
  wf_bytes data → (parse_packet data = Ok p ↔ valid_packet p ∧ announces data p).
Proof. intros Hwf. split; [by apply parse_packet_inv|]. intros [Hv Ha]. by apply announced_parses. Qed.

(** The header of a CONNECT stream is recognised as it arrives: on every
    prefix of the stream that does not hold all of the header the parser asks
    for more, and on every longer one it returns the target and the length of
    the header, after which the payload starts. *)
Lemma connect_stream_prefix t payload :
  wf_target t → fits_wire t = true →
  ∃ enc n, encode_connect t payload = Ok enc ∧ drop n enc = payload ∧ (2 ≤ n ≤ length enc)%nat ∧
    ∀ k, (k ≤ length enc)%nat →
      try_parse_connect (take k enc) =
        Ok (if decide (k < n)%nat then None else Some (wire_target t, n)).
Proof.
  intros Hwf Hfit. destruct (connect_header t Hwf Hfit) as (hd & H2 & Henc & Hcut & Hall).
  exists (hd ++ payload), (length hd). rw length_app.
  split_and!; [done|by rw drop_app_length|lia..|].
  intros k Hk. rw take_app. destruct (decide (k < length hd)%nat) as [Hlt|Hge].
  - replace (k - length hd)%nat with 0%nat by lia. rw take_0 app_nil_r. by apply Hcut.
  - rw take_ge; [lia|]. apply Hall.
Qed.

(** The one-shot commands are read back as sent: authentication (identity
    and token) and dissociation; and none of them is taken for another. *)
Lemma commands_roundtrip uuid tok a rest :
  length uuid = 16%nat → wf_bytes uuid → length tok = TOKEN_LEN → wf_bytes tok → is_u16 a →
  ∃ auth, encode_authenticate uuid tok = Ok auth ∧
    parse_authenticate (auth ++ rest) = Ok (uuid, tok) ∧
    is_ok (parse_dissociate (auth ++ rest)) = false ∧
    is_ok (parse_packet (auth ++ rest)) = false ∧
    is_ok (parse_connect (auth ++ rest)) = false ∧
    parse_dissociate (encode_dissociate a ++ rest) = Ok a ∧
    is_ok (parse_authenticate (encode_dissociate a ++ rest)) = false.
Proof.
  intros Hu Hu' Ht Ht' Ha.
  destruct (unmarshal_marshal (HAuthenticate uuid tok)) as (auth & Hm & Hun & _); [done|].
  destruct (unmarshal_marshal (HDissociate a)) as (dis & Hm' & Hun' & _); [done|].
  exists auth. rw /encode_authenticate /parse_authenticate /parse_dissociate /parse_packet /parse_connect
    /encode_dissociate /marshal_header /parse_header Hm' Hun Hun'. done.
Qed.
End codec_lemmas.
