(* ===== verification/TuicFragment.v ===== *)
(** * Fragmentation and reassembly of TUIC packets

    What [fragment_packet] cuts, [PacketAssembler] puts together: sizes,
    completeness, any order of arrival, isolation of the groups from each
    other, and eviction. *)
From S2P Require Import Prelude Text Net TuicCodec.

(** ** Chunks *)
Lemma chunks_fuel_concat fuel n l :
  (0 < n)%nat → (length l ≤ fuel)%nat → concat (chunks_fuel fuel n l) = l.
Proof.
  intros Hn. revert l. induction fuel as [|fuel IH]; intros l Hl; destruct l as [|x l]; try done.
  { simpl in Hl. lia. }
  cbn [chunks_fuel concat]. rw IH; [|by rw take_drop]. rw length_drop. simpl in *. lia.
Qed.

Lemma chunks_concat n l : (0 < n)%nat → concat (chunks n l) = l.
Proof. intros Hn. by apply chunks_fuel_concat. Qed.

Lemma chunks_fuel_bound fuel n l : Forall (λ c, (length c ≤ n)%nat) (chunks_fuel fuel n l).
Proof.
  revert l. induction fuel as [|fuel IH]; intros l; destruct l as [|x l]; try constructor; [|done].
  rw length_take. lia.
Qed.

Lemma chunks_fuel_wf fuel n l : wf_bytes l → Forall wf_bytes (chunks_fuel fuel n l).
Proof.
  revert l. induction fuel as [|fuel IH]; intros l Hl; destruct l as [|x l]; try constructor.
  - by apply Forall_take.
  - by apply IH, Forall_drop.
Qed.

Lemma div_ceil_step a b : 0 < b → div_ceil (a + b) b = 1 + div_ceil a b.
Proof.
  intros Hb. rw /div_ceil. replace (a + b + b - 1) with ((a + b - 1) + 1 * b) by lia.
  rw Z.div_add; lia.
Qed.

Lemma chunks_fuel_count fuel n l :
  (0 < n)%nat → (length l ≤ fuel)%nat → len (chunks_fuel fuel n l) = div_ceil (len l) (Z.of_nat n).
Proof.
  intros Hn. revert l. induction fuel as [|fuel IH]; intros l Hl; destruct l as [|x l].
  1, 3: rw /div_ceil !len_nil; symmetry; apply Z.div_small; lia.
  { simpl in Hl. lia. }
  cbn [chunks_fuel]. rw len_cons IH; [rw length_drop; simpl in *; lia|].
  destruct (decide (length (x :: l) ≤ n)%nat) as [Hle|Hgt].
  - rw drop_ge; [done|]. rw /div_ceil len_nil (Z.div_small (0 + _ - 1)); [lia|].
    assert (0 < len (x :: l) ≤ Z.of_nat n) as Hb by (rw /len; simpl in *; lia).
    symmetry. replace (len (x :: l) + Z.of_nat n - 1) with ((len (x :: l) - 1) + 1 * Z.of_nat n) by lia.
    rw Z.div_add; [lia|]. rw Z.div_small; lia.
  - rw -div_ceil_step; [lia|]. f_equal. rw /len length_drop. lia.
Qed.

Lemma chunks_count n l : (0 < n)%nat → len (chunks n l) = div_ceil (len l) (Z.of_nat n).
Proof. intros Hn. by apply chunks_fuel_count. Qed.

(** ** The shape of a fragmented packet *)
Definition nth_fragment (p : Packet) (n : Z) (i : nat) (chunk : bytes) : Packet :=
  MkPacket (assoc_id p) (pkt_id p) n (Z.of_nat i)
    (if decide (i = 0)%nat then target p else None) chunk.

Section fragments.
Context `{!TuicCore, !TuicCoreLaws}.

(** The outcome of [fragment_packet] when the packet is too large. *)
Record split_into (p : Packet) (max : nat) (cap : nat) (ps : list Packet) : Prop := {
  si_whole : frag_total p = 1 ∧ frag_id p = 0;
  si_cap : (0 < cap)%nat ∧ (packet_header_len (packet_address p) + cap = max)%nat;
  si_large : (cap < length (payload p))%nat;
  si_count : 2 ≤ len (chunks cap (payload p)) ≤ 255;
  si_list : ps = imap (nth_fragment p (len (chunks cap (payload p)))) (chunks cap (payload p));
}.

Lemma chunks_two cap l : (0 < cap)%nat → (cap < length l)%nat → 2 ≤ len (chunks cap l).
Proof.
  intros Hc Hl. rw chunks_count; [done|]. rw /div_ceil. apply Z.div_le_lower_bound; rw /len; lia.
Qed.

Lemma imap_ext_lt {A B} (f g : nat → A → B) l :
  (∀ i x, (i < length l)%nat → f i x = g i x) → imap f l = imap g l.
Proof.
  intros Hfg. apply list_eq. intros i. rw !list_lookup_imap.
  destruct (l !! i) as [x|] eqn:Hx; [|done]. simpl. f_equal. apply Hfg. by eapply lookup_lt_Some.
Qed.

Lemma fragment_packet_inv p max ps :
  valid_packet p → fragment_packet p max = Ok ps →
  (ps = [p] ∧ (packet_header_len (packet_address p) + length (payload p) ≤ max)%nat) ∨
  ∃ cap, split_into p max cap ps.
Proof.
  intros Hv Hf. apply Result_bind_inv in Hf as (enc & Henc & Hf).
  pose proof (encode_packet_len p enc Hv Henc) as Hlen.
  case_decide as Hd. { injection Hf as <-. left. split; [done|lia]. }
  apply Result_bind_inv in Hf as ([] & Hw%ensure_ok & Hf). apply andb_prop in Hw as [H1 H2].
  apply Z.eqb_eq in H1, H2. cbv zeta in Hf.
  replace (length enc - length (payload p))%nat with (packet_header_len (packet_address p)) in Hf by lia.
  destruct (decide (packet_header_len (packet_address p) < max)%nat) as [Hc|]; [|done].
  cbn [context mbind Result_bind] in Hf.
  apply Result_bind_inv in Hf as ([] & Hn%ensure_ok%Z.leb_le & [= <-]).
  right. exists (max - packet_header_len (packet_address p))%nat.
  set (cap := (max - packet_header_len (packet_address p))%nat) in *.
  assert (Hcap : (0 < cap)%nat) by lia. assert (Hlarge : (cap < length (payload p))%nat) by lia.
  rw -chunks_count in Hn |- *; [done..|]. pose proof (chunks_two cap (payload p) Hcap Hlarge).
  rw /U8_MAX in Hn. split; try done; try lia.
  apply imap_ext_lt. intros i x Hi. rw /len in Hn.
  by rw /nth_fragment /as_u8 !Z.mod_small; [rw /len; lia|lia|].
Qed.

Lemma fragment_packet_split p max cap :
  valid_packet p → frag_total p = 1 → frag_id p = 0 →
  (0 < cap)%nat → (packet_header_len (packet_address p) + cap = max)%nat →
  len (payload p) ≤ 255 * Z.of_nat cap → is_ok (fragment_packet p max) = true.
Proof.
  intros Hv H1 H2 Hc Hm Hl. rw /fragment_packet.
  pose proof (encode_packet_total p Hv) as Hok. destruct (encode_packet p) as [enc|] eqn:Henc; [|done].
  pose proof (encode_packet_len p enc Hv Henc) as Hlen.
  cbn [mbind Result_bind]. case_decide; [done|].
  rw H1 H2. rw ensure_then; [done|]. cbv zeta.
  replace (length enc - length (payload p))%nat with (packet_header_len (packet_address p)) by lia.
  rw decide_True; [lia|]. cbn [context mbind Result_bind].
  replace (max - packet_header_len (packet_address p))%nat with cap by lia.
  rw ensure_then; [|done]. apply Z.leb_le. rw /div_ceil /U8_MAX.
  apply Z.lt_succ_r, Z.div_lt_upper_bound; lia.
Qed.

Lemma nth_fragment_valid p cap i c n :
  valid_packet p → chunks cap (payload p) !! i = Some c → n = len (chunks cap (payload p)) → n ≤ 255 →
  (length c ≤ length (payload p))%nat → valid_packet (nth_fragment p n i c).
Proof.
  intros [Ha Hp _ _ Hl Hb Hg] Hi -> Hn Hc. pose proof (lookup_lt_Some _ _ _ Hi) as Hlt.
  split; simpl; try done; try (rw /len; lia).
  - rw /len in Hn |- *. lia.
  - rw /len in Hl |- *. lia.
  - pose proof (chunks_fuel_wf (length (payload p)) cap (payload p) Hb) as Hw.
    by eapply (Forall_lookup_1 _ _ _ _ Hw).
  - case_decide; [apply Hg|done].
Qed.

Lemma fragment_packet_fits p max :
  valid_packet p →
  (∀ ps, fragment_packet p max = Ok ps →
     Forall (λ q, valid_packet q ∧ ∃ enc, encode_packet q = Ok enc ∧ (length enc ≤ max)%nat) ps ∧
     concat (payload <$> ps) = payload p ∧ (1 ≤ length ps ≤ 255)%nat) ∧
  (frag_total p = 1 → frag_id p = 0 →
   (packet_header_len (packet_address p) < max)%nat →
   len (payload p) ≤ 255 * Z.of_nat (max - packet_header_len (packet_address p)) →
   is_ok (fragment_packet p max) = true).
Proof.
  intros Hv. split; cycle 1.
  { intros. apply (fragment_packet_split p max (max - packet_header_len (packet_address p))); (done || lia). }
  assert (Hsize : ∀ q, valid_packet q →
    (packet_header_len (packet_address q) + length (payload q) ≤ max)%nat →
    valid_packet q ∧ ∃ enc, encode_packet q = Ok enc ∧ (length enc ≤ max)%nat).
  { intros q Hq Hle. split; [done|]. pose proof (encode_packet_total q Hq) as Hok.
    destruct (encode_packet q) as [enc|] eqn:E; [|done]. exists enc. split; [done|].
    by rw (encode_packet_len q enc Hq E). }
  intros ps [[-> Hle]|[cap Hs]]%fragment_packet_inv; [| |done].
  { split_and!; simpl; try lia; [|by rw app_nil_r]. constructor; [by apply Hsize|constructor]. }
  destruct Hs as [_ [Hcap Hmax] Hlarge Hcount ->]. split_and!.
  - apply Forall_lookup_2. intros i q Hq. apply list_lookup_imap_Some in Hq as (c & Hc & ->).
    assert (length c ≤ cap)%nat.
    { by apply (Forall_lookup_1 _ _ _ _ (chunks_fuel_bound _ cap (payload p)) Hc). }
    apply Hsize; [apply nth_fragment_valid with cap; (done || lia)|].
    assert (packet_header_len (packet_address (nth_fragment p (len (chunks cap (payload p))) i c))
      ≤ packet_header_len (packet_address p))%nat; [|simpl; lia].
    rw {1}/packet_address /=. case_decide; [done|]. apply packet_header_len_none.
  - etrans; [|exact (chunks_concat cap (payload p) Hcap)]. f_equal. rw fmap_imap.
    etrans; [apply (imap_const id)|apply list_fmap_id].
  - rw length_imap. rw /len in Hcount. lia.
  - rw length_imap. rw /len in Hcount. lia.
Qed.

(** C19: Fragmentation fits the transport: every fragment of a valid packet is a
    valid packet that encodes into at most the datagram size asked for, there
    are at most 255 of them, their payloads in order are the payload, and only
    a packet that already fits is passed through as it is. A whole packet is
    refused only when its header leaves no room or 255 fragments do not hold it. *)
Theorem fragments_fit p max :
  valid_packet p →
  (∀ ps, fragment_packet p max = Ok ps →
     Forall (λ q, valid_packet q ∧ ∃ enc, encode_packet q = Ok enc ∧ (length enc ≤ max)%nat) ps ∧
     concat (payload <$> ps) = payload p ∧ (1 ≤ length ps ≤ 255)%nat) ∧
  (frag_total p = 1 → frag_id p = 0 →
   (packet_header_len (packet_address p) < max)%nat →
   len (payload p) ≤ 255 * Z.of_nat (max - packet_header_len (packet_address p)) →
   is_ok (fragment_packet p max) = true).
Proof. apply fragment_packet_fits. Qed.
End fragments.

(** ** Reassembly *)
Definition key_of (q : Packet) : Z * Z := (assoc_id q, pkt_id q).

(** A sequence of arrivals: each packet with the result of its push. *)
Fixpoint push_run (l : list (Packet * Z)) (m : PacketAssembler)
  : list (Packet * Result (option Packet)) * PacketAssembler :=
  match l with
  | [] => ([], m)
  | (q, now) :: l =>
      let '(r, m') := push q now m in
      let '(rs, m'') := push_run l m' in
      ((q, r) :: rs, m'')
  end.

Definition of_key {A} (k : Z * Z) (l : list (Packet * A)) : list (Packet * A) :=
  filter (λ x, key_of x.1 = k) l.

Lemma evict_lookup now m k :
  (evict_idle now FRAGMENT_IDLE_TIMEOUT m).1 !! k =
  e ← m !! k; if decide (saturating_duration_since now (fp_last_used e) < FRAGMENT_IDLE_TIMEOUT)
              then Some e else None.
Proof.
  simpl. destruct (m !! k) as [e|] eqn:He; simpl.
  - case_decide as Hd.
    + apply map_lookup_filter_Some. done.
    + apply map_lookup_filter_None. right. intros x Hx. rw He in Hx. injection Hx as <-. exact Hd.
  - apply map_lookup_filter_None. by left.
Qed.

(** A push touches its own group only. *)
Lemma push_at_other q now m k :
  key_of q ≠ k → (push_at q now m).2 !! k = m !! k.
Proof.
  intros Hk. rw /push_at. repeat (case_match; simpl; try done);
    rw ?lookup_insert_ne ?lookup_delete_ne; done.
Qed.

Lemma collect_fragments_all ids frags acc (f : Z → bytes) :
  NoDup ids → (∀ j, j ∈ ids → frags !! j = Some (f j)) →
  (collect_fragments ids frags acc).1 = Some (acc ++ concat (f <$> ids)).
Proof.
  revert frags acc. induction ids as [|j ids IH]; intros frags acc Hnd Hall; simpl.
  { by rw app_nil_r. }
  apply NoDup_cons in Hnd as [Hj Hnd]. rw (Hall j); [by left|]. rw IH; [done| |by rw -app_assoc].
  intros j' Hj'. rw lookup_delete_ne; [by intros ->|]. apply Hall. by right.
Qed.

Section group.
Variables (a i n t0 : Z) (tg : TargetAddr) (pl : Z → bytes).
Hypothesis Hn : 2 ≤ n.

Definition frag (j : Z) : Packet := MkPacket a i n j (if j =? 0 then Some tg else None) (pl j).
Definition whole : Packet := MkPacket a i 1 0 (Some tg) (concat (pl <$> seqZ 0 n)).

Definition group_entry (js : list Z) (used : Z) : FragmentedPacket :=
  MkFragmented a i n (if bool_decide (0 ∈ js) then Some tg else None) used
    (list_to_map ((λ j, (j, pl j)) <$> js)).

(** The assembler holds exactly the fragments [js] of the group. *)
Definition holds (js : list Z) (m : PacketAssembler) : Prop :=
  match js with
  | [] => m !! (a, i) = None
  | _ => ∃ used, t0 ≤ used ∧ m !! (a, i) = Some (group_entry js used)
  end.

Definition in_window (now : Z) : Prop := t0 ≤ now < t0 + FRAGMENT_IDLE_TIMEOUT.

Lemma holds_evict js m now :
  in_window now → holds js m → holds js (evict_idle now FRAGMENT_IDLE_TIMEOUT m).1.
Proof using Type.
  intros Hw. rw /holds evict_lookup. destruct js as [|j js]; [by intros ->|].
  intros (used & Hu & ->). exists used. split; [done|]. simpl. rw decide_True; [|done].
  rw /in_window in Hw. rw /saturating_duration_since. lia.
Qed.

Lemma holds_foreign js m q now :
  in_window now → key_of q ≠ (a, i) → holds js m → holds js (push q now m).2.
Proof using Type.
  intros Hw Hk Hh. apply (holds_evict _ _ now Hw) in Hh. rw /push. revert Hh.
  rw /holds push_at_other; done.
Qed.

Lemma group_ids js : ((λ j, (j, pl j)) <$> js).*1 = js.
Proof using Type. rw -list_fmap_compose. apply list_fmap_id. Qed.

Lemma group_size js used : NoDup js → size (fp_fragments (group_entry js used)) = length js.
Proof using Type.
  intros Hnd. rw /= map_size_list_to_map; [|by rw length_fmap]. by rw group_ids.
Qed.

(** The entry [push_at] works on and leaves, before it looks for completion. *)
Lemma group_entry_add js j used now :
  j ∉ js →
  MkFragmented a i n (if j =? 0 then target (frag j) else fp_target (group_entry js used)) now
    (<[j := pl j]> (fp_fragments (group_entry js used))) = group_entry (j :: js) now.
Proof using Type.
  intros Hj. rw /group_entry /=. f_equal. destruct (Z.eqb_spec j 0) as [->|Hne].
  - rw bool_decide_true; [by left|done].
  - assert (bool_decide (0 ∈ j :: js) = bool_decide (0 ∈ js)) as ->; [|done].
    apply bool_decide_ext. rw elem_of_cons. naive_solver.
Qed.

Lemma push_at_entry js m j now :
  j ∉ js → holds js m →
  push_at (frag j) now m =
    let entry := group_entry (j :: js) now in
    if negb (Z.of_nat (size (fp_fragments entry)) =? n)
    then (Ok None, <[(a, i) := entry]> m)
    else match fp_target entry with
    | None => (Ok None, <[(a, i) := entry]> m)
    | Some tgt =>
        match collect_fragments (seqZ 0 n) (fp_fragments entry) [] with
        | (None, rest) => (Ok None, <[(a, i) := set_fragments entry rest]> m)
        | (Some p, _) => (Ok (Some (MkPacket a i 1 0 (Some tgt) p)), delete (a, i) m)
        end
    end.
Proof using Hn.
  intros Hj Hh. rw /push_at. cbn [frag frag_total assoc_id pkt_id frag_id payload].
  destruct (Z.eqb_spec n 1) as [->|_]; [lia|].
  assert (∃ used, match m !! (a, i) with Some e => e | None => MkFragmented a i n None now ∅ end
    = group_entry js used) as [used ->].
  { destruct js as [|j' js]; [rw Hh; by exists now|]. destruct Hh as (used & _ & ->). by exists used. }
  cbn [fp_frag_total group_entry]. rw Z.eqb_refl. cbn [negb fp_assoc_id fp_pkt_id].
  fold (group_entry js used). pose proof (group_entry_add js j used now Hj) as E.
  rw /group_entry in E. cbn [fp_target fp_fragments frag target] in E.
  injection E as Et. cbn [fp_target fp_fragments group_entry target]. rw Et. reflexivity.
Qed.

Lemma push_waits js m j now :
  in_window now → NoDup (j :: js) → Z.of_nat (length (j :: js)) < n → holds js m →
  ∃ m', push (frag j) now m = (Ok None, m') ∧ holds (j :: js) m'.
Proof using Hn.
  intros Hw Hnd Hlt Hh. apply (holds_evict _ _ now Hw) in Hh.
  rw /push (push_at_entry js); [by apply NoDup_cons in Hnd as [? _]|done|]. cbv zeta.
  rw (group_size (j :: js) now Hnd). destruct (Z.eqb_spec (Z.of_nat (length (j :: js))) n) as [E|_]; [lia|].
  eexists. split; [done|]. exists now. split; [apply Hw|]. by rw lookup_insert_eq.
Qed.

Lemma push_completes js m j now :
  in_window now → j :: js ≡ₚ seqZ 0 n → holds js m →
  ∃ m', push (frag j) now m = (Ok (Some whole), m') ∧ m' !! (a, i) = None.
Proof using Hn.
  intros Hw Hperm Hh. apply (holds_evict _ _ now Hw) in Hh.
  assert (Hnd : NoDup (j :: js)) by (rw Hperm; apply NoDup_seqZ).
  rw /push (push_at_entry js); [by apply NoDup_cons in Hnd as [? _]|done|]. cbv zeta.
  assert (Hlen : Z.of_nat (length (j :: js)) = n) by (rw Hperm length_seqZ; lia).
  rw (group_size (j :: js) now Hnd) Hlen Z.eqb_refl. cbn [negb group_entry fp_target fp_fragments].
  assert (0 ∈ j :: js) by (rw Hperm elem_of_seqZ; lia). rw bool_decide_true; [done|].
  assert (Hc : (collect_fragments (seqZ 0 n) (list_to_map ((λ j, (j, pl j)) <$> j :: js)) []).1
    = Some (concat (pl <$> seqZ 0 n))).
  { apply (collect_fragments_all _ _ []); [apply NoDup_seqZ|]. intros k Hk.
    apply elem_of_list_to_map_1; [by rw group_ids|]. apply list_elem_of_fmap. exists k. by rw Hperm. }
  destruct (collect_fragments _ _ _) as [o rest]. simpl in Hc. subst o.
  eexists. split; [done|]. by rw lookup_delete_eq.
Qed.

(** Arrivals of other groups leave this one as it is. *)
Lemma run_foreign l m js :
  Forall (λ x, in_window x.2) l → of_key (a, i) l = [] → holds js m →
  of_key (a, i) (push_run l m).1 = [] ∧ holds js (push_run l m).2.
Proof using Type.
  revert m. induction l as [|[q now] l IH]; intros m Hw Hf Hh; [done|].
  apply Forall_cons in Hw as [Hw Hws]. rw /of_key filter_cons in Hf. simpl in Hf, Hw.
  case_decide as Hk; [done|]. cbn [push_run].
  pose proof (holds_foreign js m q now Hw Hk Hh) as Hh'. destruct (push q now m) as [r m'].
  destruct (IH m' Hws Hf Hh') as [IH1 IH2]. destruct (push_run l m') as [rs m''].
  split; [|done]. rw /of_key filter_cons decide_False; done.
Qed.

Lemma run_group l m js rest :
  Forall (λ x, in_window x.2) l → (of_key (a, i) l).*1 = frag <$> rest →
  rest ≠ [] → js ++ rest ≡ₚ seqZ 0 n → holds js m →
  (of_key (a, i) (push_run l m).1).*2 = replicate (length rest - 1) (Ok None) ++ [Ok (Some whole)] ∧
  (push_run l m).2 !! (a, i) = None.
Proof using Hn.
  revert m js rest. induction l as [|[q now] l IH]; intros m js rest Hw Hf Hne Hperm Hh.
  { by destruct rest. }
  apply Forall_cons in Hw as [Hw Hws]. rw /of_key filter_cons in Hf. simpl in Hf, Hw. cbn [push_run].
  case_decide as Hk.
  - destruct rest as [|j rest]; [done|]. simpl in Hf. injection Hf as -> Hf.
    assert (Hperm' : (j :: js) ++ rest ≡ₚ seqZ 0 n) by (rw -Hperm /= Permutation_middle; done).
    destruct rest as [|j' rest].
    + rw app_nil_r in Hperm'. destruct (push_completes js m j now Hw Hperm' Hh) as (m' & -> & Hm').
      destruct (run_foreign l m' [] Hws) as [H1 H2]; [by apply fmap_nil_inv in Hf|done|].
      destruct (push_run l m') as [rs m'']. rw /of_key filter_cons decide_True; [done|].
      rw /of_key in H1. simpl in H1. by rw /= H1.
    + assert (Hnd : NoDup ((j :: js) ++ j' :: rest)) by (rw Hperm'; apply NoDup_seqZ).
      assert (Hlen : Z.of_nat (length ((j :: js) ++ j' :: rest)) = n).
      { rw Hperm' length_seqZ. lia. }
      rw length_app in Hlen. simpl length in Hlen.
      destruct (push_waits js m j now Hw) as (m' & -> & Hm'); [by apply NoDup_app in Hnd as [? _]|simpl; lia|done|].
      destruct (IH m' (j :: js) (j' :: rest) Hws Hf) as [H1 H2]; [done..|].
      destruct (push_run l m') as [rs m'']. rw /of_key filter_cons decide_True; [done|].
      rw /of_key in H1. split; [|done]. rw fmap_cons. cbn [fst] in H1. rw H1 /= Nat.sub_0_r. done.
  - pose proof (holds_foreign js m q now Hw Hk Hh) as Hh'. destruct (push q now m) as [r m'].
    destruct (IH m' js rest Hws Hf Hne Hperm Hh') as [H1 H2]. destruct (push_run l m') as [rs m''].
    split; [|done]. rw /of_key filter_cons decide_False; done.
Qed.
End group.

Lemma imap_seqZ {B} (f : nat → bytes → B) (g : Z → B) (l : list bytes) :
  (∀ j c, l !! j = Some c → f j c = g (Z.of_nat j)) → imap f l = g <$> seqZ 0 (len l).
Proof.
  intros Hfg. apply list_eq. intros j. rw list_lookup_imap list_lookup_fmap.
  destruct (l !! j) as [c|] eqn:Hj; simpl.
  - pose proof (lookup_lt_Some _ _ _ Hj). rw lookup_seqZ_lt; [rw /len; lia|]. simpl. by rw (Hfg _ _ Hj).
  - apply lookup_ge_None in Hj. rw lookup_seqZ_ge; [rw /len; lia|done].
Qed.

Section reassembly.
Context `{!TuicCore, !TuicCoreLaws}.

Lemma split_group p max cap ps tg :
  split_into p max cap ps → target p = Some tg →
  let n := len (chunks cap (payload p)) in
  let pl j := chunks cap (payload p) !!! Z.to_nat j in
  ps = frag (assoc_id p) (pkt_id p) n tg pl <$> seqZ 0 n ∧
  whole (assoc_id p) (pkt_id p) n tg pl = p.
Proof.
  intros [[H1 H2] [Hcap _] _ _ ->] Ht n pl. split.
  - apply imap_seqZ. intros j c Hj. rw /nth_fragment /frag /pl Nat2Z.id Ht.
    rw (list_lookup_total_correct _ _ _ Hj). f_equal.
    case_decide as Hd; [by subst|]. destruct (Z.eqb_spec (Z.of_nat j) 0); [lia|done].
  - assert (concat (pl <$> seqZ 0 n) = payload p) as E.
    { etrans; [|exact (chunks_concat cap (payload p) Hcap)]. f_equal.
      rw -(imap_seqZ (λ _ c, c)); [|etrans; [apply (imap_const id)|apply list_fmap_id]].
      intros j c Hj. rw /pl Nat2Z.id. by rw (list_lookup_total_correct _ _ _ Hj). }
    rw /whole E. destruct p; simpl in *; congruence.
Qed.

Lemma fragments_reassemble p max ps t t0 m arrivals :
  valid_packet p → frag_total p = 1 → frag_id p = 0 → target p = Some t →
  fragment_packet p max = Ok ps →
  m !! key_of p = None →
  Forall (λ x, t0 ≤ x.2 < t0 + FRAGMENT_IDLE_TIMEOUT) arrivals →
  (of_key (key_of p) arrivals).*1 ≡ₚ ps →
  (of_key (key_of p) (push_run arrivals m).1).*2 =
    replicate (length ps - 1) (Ok None) ++ [Ok (Some p)] ∧
  (push_run arrivals m).2 !! key_of p = None.
Proof.
  intros Hv H1 H2 Ht Hf Hm Hw Hperm.
  apply fragment_packet_inv in Hf as [[-> _]|[cap Hs]]; [| |done].
  - (* sent whole *)
    apply Permutation_singleton_r in Hperm. revert m Hm.
    induction arrivals as [|[q now] l IH]; intros m Hm; [done|].
    apply Forall_cons in Hw as [Hw Hws]. rw /of_key filter_cons in Hperm. simpl in Hperm, Hw. cbn [push_run].
    case_decide as Hk.
    + injection Hperm as -> Hnil%fmap_nil_inv.
      assert (push p now m = (Ok (Some p), (evict_idle now FRAGMENT_IDLE_TIMEOUT m).1)) as ->
        by (by rw /push /push_at H1 Ht).
      destruct (run_foreign (assoc_id p) (pkt_id p) 2 t0 t (λ _, []) l
        (evict_idle now FRAGMENT_IDLE_TIMEOUT m).1 [] Hws Hnil) as [R1 R2].
      { by apply (holds_evict (assoc_id p) (pkt_id p) 2 t0 t (λ _, []) [] m now). }
      destruct (push_run l _) as [rs m'']. rw /of_key filter_cons decide_True; [done|].
      rw /of_key in R1. simpl in R1. split; [|exact R2]. rw fmap_cons. by rw R1.
    + pose proof (holds_foreign (assoc_id p) (pkt_id p) 2 t0 t (λ _, []) [] m q now Hw Hk Hm) as Hm'.
      destruct (push q now m) as [r m']. specialize (IH Hws Hperm m' Hm').
      destruct (push_run l m') as [rs m'']. rw /of_key filter_cons decide_False; done.
  - pose proof (split_group _ _ _ _ _ Hs Ht) as [Hps Hwhole]. destruct Hs as [_ _ _ Hcount _].
    set (n := len (chunks cap (payload p))) in *.
    set (pl := λ j, chunks cap (payload p) !!! Z.to_nat j) in *.
    rw Hps in Hperm.
    apply Permutation_map_inv in Hperm as (rest & Hrest & Hr). rw -{2}Hwhole.
    assert (Hlen : length ps = length rest) by (by rw Hps length_fmap Hr).
    rw Hlen. apply (run_group (assoc_id p) (pkt_id p) n t0 t pl (proj1 Hcount) arrivals m [] rest); try done.
    intros ->. symmetry in Hr. apply Permutation_nil_l in Hr. apply (f_equal length) in Hr.
    rw length_seqZ /= in Hr. lia.
Qed.

(** C4: Reassembly inverts fragmentation. When the fragments of a packet reach
    an assembler within thirty seconds, in any order and interleaved with any
    packets of other groups, the assembler answers nothing until the last of
    them and then exactly the original packet, and it keeps nothing of the
    group. *)
Theorem reassembly p max ps t t0 m arrivals :
  valid_packet p → frag_total p = 1 → frag_id p = 0 → target p = Some t →
  fragment_packet p max = Ok ps →
  m !! key_of p = None →
  Forall (λ x, t0 ≤ x.2 < t0 + FRAGMENT_IDLE_TIMEOUT) arrivals →
  (of_key (key_of p) arrivals).*1 ≡ₚ ps →
  (of_key (key_of p) (push_run arrivals m).1).*2 =
    replicate (length ps - 1) (Ok None) ++ [Ok (Some p)] ∧
  (push_run arrivals m).2 !! key_of p = None.
Proof. apply fragments_reassemble. Qed.
End reassembly.

(** ** What an assembler may answer

    [part_of hist k n j f]: [f] was pushed, as fragment [j] of [n] of group [k]. *)
Definition part_of (hist : list Packet) (k : Z * Z) (n j : Z) (f : Packet) : Prop :=
  f ∈ hist ∧ key_of f = k ∧ frag_total f = n ∧ frag_id f = j.

Record entry_ok (hist : list Packet) (k : Z * Z) (e : FragmentedPacket) : Prop := {
  eo_key : (fp_assoc_id e, fp_pkt_id e) = k;
  eo_parts j b : fp_fragments e !! j = Some b →
    ∃ f, part_of hist k (fp_frag_total e) j f ∧ payload f = b;
  eo_target t : fp_target e = Some t →
    ∃ f, part_of hist k (fp_frag_total e) 0 f ∧ target f = Some t;
}.

Definition assembler_ok (hist : list Packet) (m : PacketAssembler) : Prop :=
  ∀ k e, m !! k = Some e → entry_ok hist k e.

(** [w] is made of pushed fragments of its own group, one for each index. *)
Definition assembled (hist : list Packet) (n : Z) (w : Packet) : Prop :=
  frag_total w = 1 ∧ frag_id w = 0 ∧
  (∃ f, part_of hist (key_of w) n 0 f ∧ target f = target w) ∧
  ∃ fs, Forall2 (part_of hist (key_of w) n) (seqZ 0 n) fs ∧ payload w = concat (payload <$> fs).

Lemma part_of_mono hist q k n j f : part_of hist k n j f → part_of (q :: hist) k n j f.
Proof. intros [? ?]. split; [by right|done]. Qed.

Lemma entry_ok_mono hist q k e : entry_ok hist k e → entry_ok (q :: hist) k e.
Proof.
  intros [Hk Hp Ht]. split; [done| |].
  - intros j b Hb. destruct (Hp j b Hb) as (f & Hf & ?). exists f. by split; [apply part_of_mono|].
  - intros t Htt. destruct (Ht t Htt) as (f & Hf & ?). exists f. by split; [apply part_of_mono|].
Qed.

Lemma assembler_ok_insert hist m k e :
  assembler_ok hist m → entry_ok hist k e → assembler_ok hist (<[k := e]> m).
Proof.
  intros Hm He k' e'. rw lookup_insert_Some. intros [[<- <-]|[_ Hl]]; [done|]. by apply Hm.
Qed.

Lemma assembled_mono hist all n w : hist ⊆ all → assembled hist n w → assembled all n w.
Proof.
  intros Hsub (H1 & H2 & (f & [Hin Hf] & Ht) & fs & Hfs & Hp). split_and!; try done.
  - exists f. by repeat split; [apply Hsub|apply Hf..|].
  - exists fs. split; [|done]. eapply Forall2_impl; [done|].
    intros j g [Hg ?]. by split; [apply Hsub|].
Qed.

Lemma collect_fragments_inv ids frags acc p rest :
  NoDup ids → collect_fragments ids frags acc = (Some p, rest) →
  ∃ bs, Forall2 (λ j b, frags !! j = Some b) ids bs ∧ p = acc ++ concat bs.
Proof.
  revert frags acc. induction ids as [|j ids IH]; intros frags acc Hnd; simpl.
  { intros [= <- _]. exists []. by rw app_nil_r. }
  apply NoDup_cons in Hnd as [Hj Hnd]. destruct (frags !! j) as [b|] eqn:Hb; [|done].
  intros (bs & Hbs & ->)%IH; [|done]. exists (b :: bs). split; [|by rw -app_assoc].
  constructor; [done|]. eapply Forall2_impl; [done|].
  intros j' b'. cbv beta. rw lookup_delete_Some. by intros [_ ?].
Qed.

Lemma collect_fragments_rest ids frags acc j b :
  (collect_fragments ids frags acc).2 !! j = Some b → frags !! j = Some b.
Proof.
  revert frags acc. induction ids as [|i ids IH]; intros frags acc; simpl; [done|].
  destruct (frags !! i); [|done]. intros Hl%IH. by apply lookup_delete_Some in Hl as [_ ?].
Qed.

Lemma evict_ok hist m now : assembler_ok hist m → assembler_ok hist (evict_idle now FRAGMENT_IDLE_TIMEOUT m).1.
Proof.
  intros Hm k e. rw evict_lookup. destruct (m !! k) as [e'|] eqn:Hk; [|done]. simpl.
  case_decide; [|done]. intros [= <-]. by apply Hm.
Qed.

(** The group entry after a push recorded its fragment. *)
Lemma entry_ok_push hist q e now :
  entry_ok hist (key_of q) e → fp_frag_total e = frag_total q →
  entry_ok (q :: hist) (key_of q)
    (MkFragmented (fp_assoc_id e) (fp_pkt_id e) (fp_frag_total e)
       (if frag_id q =? 0 then target q else fp_target e) now
       (<[frag_id q := payload q]> (fp_fragments e))).
Proof.
  intros [Hk Hp Ht] Hn. split; simpl; [done| |].
  - intros j b. rw lookup_insert_Some. intros [[<- <-]|[_ Hb]].
    + exists q. split; [|done]. repeat split; [by left|done].
    + destruct (Hp j b Hb) as (f & Hf & ?). exists f. by split; [apply part_of_mono|].
  - intros t. destruct (Z.eqb_spec (frag_id q) 0) as [H0|H0].
    + intros Htq. exists q. split; [|done]. repeat split; [by left|done..].
    + intros Htt. destruct (Ht t Htt) as (f & Hf & ?). exists f. by split; [apply part_of_mono|].
Qed.

Lemma entry_ok_assembled hist k e t p rest :
  entry_ok hist k e → fp_target e = Some t →
  collect_fragments (seqZ 0 (fp_frag_total e)) (fp_fragments e) [] = (Some p, rest) →
  assembled hist (fp_frag_total e) (MkPacket (fp_assoc_id e) (fp_pkt_id e) 1 0 (Some t) p).
Proof.
  intros [Hk Hp Ht] Htt (bs & Hbs & ->)%collect_fragments_inv; [|apply NoDup_seqZ].
  rw /assembled /key_of /= Hk. split_and!; [done..|by apply Ht|].
  assert (∃ fs, Forall2 (part_of hist k (fp_frag_total e)) (seqZ 0 (fp_frag_total e)) fs ∧
    payload <$> fs = bs) as (fs & Hfs & <-); [|by exists fs].
  revert Hbs. generalize (seqZ 0 (fp_frag_total e)). intros ids.
  induction 1 as [|j b ids bs Hb _ (fs & Hfs & <-)]; [by exists []|].
  destruct (Hp j b Hb) as (f & Hf & <-). exists (f :: fs). split; [by constructor|done].
Qed.

Lemma push_at_ok hist m q now r m' :
  assembler_ok hist m → push_at q now m = (r, m') →
  assembler_ok (q :: hist) m' ∧
  ∀ w, r = Ok (Some w) → w = q ∧ frag_total q = 1 ∨ assembled (q :: hist) (frag_total q) w.
Proof.
  intros Hm. assert (Hmono : assembler_ok (q :: hist) m)
    by (intros k e Hk; by apply entry_ok_mono, Hm).
  rw /push_at. destruct (Z.eqb_spec (frag_total q) 1) as [H1|H1].
  { destruct (target q); intros [= <- <-]; (split; [done|]); intros w [= <-]. by left. }
  cbv zeta. fold (key_of q).
  set (e := match m !! key_of q with Some e => e | None => _ end).
  assert (He : entry_ok hist (key_of q) e).
  { subst e. destruct (m !! key_of q) as [e|] eqn:Hk; [by apply Hm|]. by split. }
  destruct (Z.eqb_spec (fp_frag_total e) (frag_total q)) as [Hn|Hn]; cbn [negb]; cycle 1.
  { intros [= <- <-]. split; [|done]. apply assembler_ok_insert; [done|]. by apply entry_ok_mono. }
  pose proof (entry_ok_push hist q e now He Hn) as Hpush.
  set (e' := MkFragmented _ _ _ _ now _) in *. cbn [fp_frag_total] in *.
  destruct (negb _); [intros [= <- <-]; split; [by apply assembler_ok_insert|done]|].
  destruct (if frag_id q =? 0 then target q else fp_target e) as [t|] eqn:Ht;
    [|intros [= <- <-]; split; [by apply assembler_ok_insert|done]].
  destruct (collect_fragments _ _ []) as [[p|] rest] eqn:Hc; intros [= <- <-].
  - split.
    + intros k e0 [_ Hk]%lookup_delete_Some. by apply Hmono.
    + intros w [= <-]. right. rw -Hn. by refine (entry_ok_assembled _ _ _ t p rest Hpush _ Hc).
  - split; [|done]. apply assembler_ok_insert; [done|]. destruct Hpush as [Hk Hp Ht'].
    split; [done| |done]. intros j b Hj. apply Hp.
    by apply (collect_fragments_rest (seqZ 0 (fp_frag_total e)) _ []); rw Hc.
Qed.

(** C17: An assembler never makes up or mixes data: whatever packets are pushed
    at it, in whatever order and at whatever times, each packet it returns is
    either an unfragmented packet just pushed or the concatenation of pushed
    fragments of one association and packet number, one for each index below
    their common total, with the target of a first fragment. *)
Theorem assembler_sound l q w :
  (q, Ok (Some w)) ∈ (push_run l ∅).1 →
  w = q ∧ frag_total q = 1 ∨ assembled l.*1 (frag_total q) w.
Proof.
  assert (Hgen : ∀ all hist m, assembler_ok hist m → hist ⊆ all → l.*1 ⊆ all →
    (q, Ok (Some w)) ∈ (push_run l m).1 →
    w = q ∧ frag_total q = 1 ∨ assembled all (frag_total q) w).
  { intros all. clear. induction l as [|[q0 now] l IH]; intros hist m Hm Hh Hl; simpl.
    { by intros ?%not_elem_of_nil. }
    destruct (push q0 now m) as [r m'] eqn:Hpush.
    destruct (push_at_ok hist _ q0 now r m' (evict_ok _ _ now Hm) Hpush) as [Hm' Hr].
    assert (Hh' : q0 :: hist ⊆ all) by (intros f [->|Hf]%elem_of_cons; [apply Hl; by left|by apply Hh]).
    assert (Hl' : l.*1 ⊆ all) by (intros f Hf; apply Hl; by right).
    specialize (IH (q0 :: hist) m' Hm' Hh' Hl'). destruct (push_run l m') as [rs m'']. simpl in *.
    intros [[= -> <-]|Hin]%elem_of_cons; [|by apply IH].
    destruct (Hr w eq_refl) as [?|Ha]; [by left|right]. by apply (assembled_mono (q0 :: hist)). }
  apply (Hgen l.*1 [] ∅); [|apply list_subseteq_nil|done]. intros k e. by rw lookup_empty.
Qed.
