(* ===== verification/TuicLayout.v ===== *)
(** * The TUIC header layout of the protocol specification

    An instance of [TuicCore] that satisfies its laws: the hypotheses of the
    TUIC theorems can be met, and their witnesses evaluate on it. *)
From S2P Require Import Prelude Io Text Net TuicCodec TuicFragment.

Definition addr_bytes (a : Address) : bytes :=
  match a with
  | AddrNone => [0xff]
  | AddrDomain h p => [0x00] ++ [len h] ++ h ++ be_bytes 2 p
  | AddrSocket (SockV4 o p) => [0x01] ++ o ++ be_bytes 2 p
  | AddrSocket (SockV6 o p _ _) => [0x02] ++ o ++ be_bytes 2 p
  end.

Definition header_body (h : Header) : bytes :=
  match h with
  | HAuthenticate u t => u ++ t
  | HConnect a => addr_bytes a
  | HPacket i j n k s a =>
      be_bytes 2 i ++ be_bytes 2 j ++ [n] ++ [k] ++ be_bytes 2 s ++ addr_bytes a
  | HDissociate i => be_bytes 2 i
  | HHeartbeat => []
  end.

Definition header_code (h : Header) : Z :=
  match h with
  | HAuthenticate _ _ => 0 | HConnect _ => 1 | HPacket _ _ _ _ _ _ => 2
  | HDissociate _ => 3 | HHeartbeat => 4
  end.

Definition read_addr : SE Cursor Address :=
  atyp ← read_u8;
  if atyp =? 0xff then mret AddrNone
  else if atyp =? 0x00 then
    n ← read_u8; host ← read_exact (Z.to_nat n); port ← read_u16;
    if utf8_valid host then mret (AddrDomain host port) else throw EUtf8
  else if atyp =? 0x01 then
    octets ← read_exact 4; port ← read_u16; mret (AddrSocket (SockV4 octets port))
  else if atyp =? 0x02 then
    octets ← read_exact 16; port ← read_u16; mret (AddrSocket (SockV6 octets port 0 0))
  else throw (EUnmarshal None).

Definition read_header : SE Cursor Header :=
  ver ← read_u8;
  if negb (ver =? 5) then throw (EUnmarshal None)
  else
    cmd ← read_u8;
    if cmd =? 0 then u ← read_exact 16; t ← read_exact TOKEN_LEN; mret (HAuthenticate u t)
    else if cmd =? 1 then a ← read_addr; mret (HConnect a)
    else if cmd =? 2 then
      i ← read_u16; j ← read_u16; n ← read_u8; k ← read_u8; s ← read_u16;
      a ← read_addr; mret (HPacket i j n k s a)
    else if cmd =? 3 then i ← read_u16; mret (HDissociate i)
    else if cmd =? 4 then mret HHeartbeat
    else throw (EUnmarshal None).

(** The crate wraps I/O errors. *)
Definition wrap_error (e : error) : error :=
  match e with EIo k => EUnmarshal (Some k) | _ => EUnmarshal None end.

#[global] Instance tuic_layout : TuicCore := {|
  VERSION := 5;
  CMD_AUTHENTICATE := 0; CMD_CONNECT := 1; CMD_PACKET := 2; CMD_DISSOCIATE := 3; CMD_HEARTBEAT := 4;
  marshal h := Ok ([5] ++ [header_code h] ++ header_body h);
  unmarshal data := match run_cursor read_header data with Ok r => Ok r | Err e => Err (wrap_error e) end;
  packet_header_len a := (10 + length (addr_bytes a))%nat;
|}.

Lemma read_addr_parses a : wf_address a → parses read_addr (addr_bytes a) (wire_address a).
Proof.
  destruct a as [|h p|[o p|o p f s]].
  - intros _. by eapply parses_bind_ret; [apply parses_u8|].
  - intros (Hh & Hl & Hp). do 2 parse_step. eapply parses_bind; [apply parses_exact; rw /len; lia|].
    parse_step. by rw Hh.
  - intros ((Ho & _) & Hp & _). do 2 parse_step. by parse_step.
  - intros ((Ho & _) & Hp & _). do 2 parse_step. by parse_step.
Qed.

Lemma read_header_parses h :
  wf_header h → parses read_header ([5] ++ [header_code h] ++ header_body h) (wire_header h).
Proof.
  intros Hh. destruct h as [u t|a|i j n k s a|i|].
  - destruct Hh as (Hu & _ & Ht & _). do 3 parse_step. by parse_step.
  - do 2 parse_step. eapply parses_bind_ret; [by apply read_addr_parses|done].
  - destruct Hh as (Hi & Hj & Hn & Hk & Hs & Ha). do 7 parse_step.
    eapply parses_bind_ret; [by apply read_addr_parses|done].
  - do 2 parse_step. by parse_step.
  - parse_step. by eapply parses_bind_ret; [apply parses_u8|].
Qed.

Lemma read_addr_adv s a s' : good s → read_addr s = (Ok a, s') → wf_address a ∧ ∃ l, adv s l s'.
Proof.
  intros Hg Hr. rw /read_addr in Hr. invert_field Hr.
  destruct (x =? 255). { injection Hr as <- <-. split; [done|]. eauto 10 with reading. }
  destruct (x =? 0).
  { invert_field Hr. invert_field Hr. invert_field Hr. destruct (utf8_valid x1) eqn:Hutf; [|done].
    injection Hr as <- <-. destruct Hx1 as [Hl _]. rw /is_u8 in Hx0. split; [|by eauto 10 with reading].
    split_and!; [done|rw /len; lia|done]. }
  destruct (x =? 1).
  { invert_field Hr. invert_field Hr. injection Hr as <- <-. destruct Hx0. split; [done|by eauto 10 with reading]. }
  destruct (x =? 2); [|done].
  invert_field Hr. invert_field Hr. injection Hr as <- <-. destruct Hx0.
  split; [|by eauto 10 with reading]. split; [done|]. split; [done|]. split; rw /is_u32; lia.
Qed.

Lemma read_header_adv s h s' : good s → read_header s = (Ok h, s') → wf_header h ∧ ∃ l, adv s l s'.
Proof.
  intros Hg Hr. rw /read_header in Hr. invert_field Hr. destruct (negb _); [done|]. invert_field Hr.
  destruct (x0 =? 0).
  { invert_field Hr. invert_field Hr. injection Hr as <- <-. destruct Hx1, Hx2.
    split; [done|by eauto 10 with reading]. }
  destruct (x0 =? 1).
  { invert_bind Hr. apply read_addr_adv in Hrun as [Ha [l Hl]]; [|by eauto 10 with reading].
    injection Hr as <- <-. split; [done|by eauto 10 with reading]. }
  destruct (x0 =? 2).
  { do 5 invert_field Hr. invert_bind Hr.
    apply read_addr_adv in Hrun as [Ha [l Hl]]; [|by eauto 10 with reading]. injection Hr as <- <-.
    split; [done|by eauto 10 with reading]. }
  destruct (x0 =? 3).
  { invert_field Hr. injection Hr as <- <-. split; [done|by eauto 10 with reading]. }
  destruct (x0 =? 4); [|done]. injection Hr as <- <-. split; [done|by eauto 10 with reading].
Qed.

#[global] Instance tuic_layout_laws : TuicCoreLaws.
Proof.
  split.
  - intros h Hh. destruct (read_header_parses h Hh) as [Hr Hn].
    eexists. split; [done|]. split.
    + intros rest. cbn [unmarshal tuic_layout]. by rw (run_cursor_ok _ _ rest _ Hr).
    + intros k Hk. cbn [unmarshal tuic_layout].
      rw (run_cursor_prefix _ _ (drop k ([5] ++ [header_code h] ++ header_body h))); [by rw take_drop| |done].
      intros E%(f_equal length). rw length_drop /= in E. simpl in Hk. lia.
  - intros h enc [= <-]. eexists. by destruct h.
  - intros data h n Hwf. cbn [unmarshal tuic_layout].
    destruct (run_cursor read_header data) as [[h' n']|] eqn:Hr; [|done]. intros [= -> ->].
    apply run_cursor_inv in Hr as (c & Hc & <-).
    apply read_header_adv in Hc as [Hh (l & _ & [Hok _] & Hframe)]; [|split; [simpl; lia|done]].
    split; [done|]. simpl in Hok, Hframe. by rw Hframe in Hok.
  - intros i j n k s a enc [= <-]. done.
  - intros a. simpl. destruct a as [| |[]]; simpl; lia.
  - by intros [| |[]].
  - intros u t enc Hu Ht [= <-]. rw /= length_app Hu Ht. done.
  - by_decide.
Qed.

(** ** Witnesses *)
Definition demo_target : TargetAddr := Domain (str "dns.test") 53.
Definition demo_packet : Packet := MkPacket 7 9 1 0 (Some demo_target) (map Z.of_nat (seq 0 30)).

Lemma demo_packet_valid : valid_packet demo_packet.
Proof.
  split; simpl; try by_decide; try lia. intros t [= <-]. split; [by_decide|done].
Qed.

Lemma packet_roundtrip_witness :
  ∃ enc, encode_packet demo_packet = Ok enc ∧
    (∀ rest, parse_packet (enc ++ rest) = Ok (wire_packet demo_packet)) ∧
    (∀ k, (k < length enc)%nat → is_ok (parse_packet (take k enc)) = false).
Proof. apply (packet_roundtrip demo_packet), demo_packet_valid. Defined.

Definition demo_datagram : bytes := [5; 2; 0; 7; 0; 9; 2; 1; 0; 2; 0xff; 65; 66].

Lemma parse_packet_valid_witness :
  let p := MkPacket 7 9 2 1 None [65; 66] in
  valid_packet p ∧ announces demo_datagram p.
Proof. apply (parse_packet_valid demo_datagram (MkPacket 7 9 2 1 None [65; 66])); [by_decide|reflexivity]. Defined.

Lemma connect_stream_prefix_witness :
  ∃ enc n, encode_connect demo_target [1; 2] = Ok enc ∧ drop n enc = [1; 2] ∧ (2 ≤ n ≤ length enc)%nat ∧
    ∀ k, (k ≤ length enc)%nat →
      try_parse_connect (take k enc) =
        Ok (if decide (k < n)%nat then None else Some (wire_target demo_target, n)).
Proof. apply (connect_stream_prefix demo_target [1; 2]); [by_decide|reflexivity]. Defined.

Lemma commands_roundtrip_witness :
  ∃ auth, encode_authenticate (replicate 16 1) (replicate 32 2) = Ok auth ∧
    parse_authenticate (auth ++ [3]) = Ok (replicate 16 1, replicate 32 2) ∧
    is_ok (parse_dissociate (auth ++ [3])) = false ∧
    is_ok (parse_packet (auth ++ [3])) = false ∧
    is_ok (parse_connect (auth ++ [3])) = false ∧
    parse_dissociate (encode_dissociate 4 ++ [3]) = Ok 4 ∧
    is_ok (parse_authenticate (encode_dissociate 4 ++ [3])) = false.
Proof.
  apply (commands_roundtrip (replicate 16 1) (replicate 32 2) 4 [3]);
    [reflexivity|by_decide|reflexivity|by_decide|by_decide].
Defined.

Lemma fragments_fit_witness :
  (∀ ps, fragment_packet demo_packet 40 = Ok ps →
     Forall (λ q, valid_packet q ∧ ∃ enc, encode_packet q = Ok enc ∧ (length enc ≤ 40)%nat) ps ∧
     concat (payload <$> ps) = payload demo_packet ∧ (1 ≤ length ps ≤ 255)%nat) ∧
  (1 = 1 → 0 = 0 → (packet_header_len (packet_address demo_packet) < 40)%nat →
   len (payload demo_packet) ≤ 255 * Z.of_nat (40 - packet_header_len (packet_address demo_packet)) →
   is_ok (fragment_packet demo_packet 40) = true).
Proof. apply (fragments_fit demo_packet 40), demo_packet_valid. Defined.

(** The packet cut for 30-byte datagrams: four fragments, arriving backwards. *)
Definition demo_fragments : list Packet :=
  match fragment_packet demo_packet 30 with Ok ps => ps | Err _ => [] end.
Definition demo_arrivals : list (Packet * Z) := (λ q, (q, 100)) <$> reverse demo_fragments.

Lemma demo_arrivals_perm : (of_key (key_of demo_packet) demo_arrivals).*1 ≡ₚ demo_fragments.
Proof.
  replace ((of_key (key_of demo_packet) demo_arrivals).*1) with (reverse demo_fragments)
    by (vm_compute; reflexivity).
  apply reverse_Permutation.
Qed.

Lemma reassembly_witness :
  (of_key (key_of demo_packet) (push_run demo_arrivals ∅).1).*2 =
    replicate (length demo_fragments - 1) (Ok None) ++ [Ok (Some demo_packet)] ∧
  (push_run demo_arrivals ∅).2 !! key_of demo_packet = None.
Proof.
  apply (reassembly demo_packet 30 demo_fragments demo_target 100 ∅ demo_arrivals).
  - exact demo_packet_valid.
  - reflexivity.
  - reflexivity.
  - reflexivity.
  - vm_compute. reflexivity.
  - reflexivity.
  - by_decide.
  - exact demo_arrivals_perm.
Defined.

Lemma assembler_sound_witness :
  demo_packet = hd demo_packet demo_fragments ∧ frag_total (hd demo_packet demo_fragments) = 1 ∨
  assembled demo_arrivals.*1 (frag_total (hd demo_packet demo_fragments)) demo_packet.
Proof.
  apply (assembler_sound demo_arrivals (hd demo_packet demo_fragments) demo_packet).
  apply list_elem_of_lookup_2 with (length demo_fragments - 1)%nat. vm_compute. reflexivity.
Defined.
