(* ===== verification/TuicInbound.v ===== *)
(** * TUIC server side (src/protocol/tuic/inbound.rs)

    The state machine of one QUIC connection: authentication, the data held
    back until it succeeds, streams, UDP associations, and the queue of writes.
    The QUIC connection, the key exporter, the iteration order of a hash map
    and the clock are parameters. *)
From S2P Require Import Prelude Text Net Config TuicCodec.

Definition UDP_SESSION_IDLE_TIMEOUT : Z := from_secs (5 * 60).
Definition UDP_SESSION_CLEANUP_INTERVAL : Z := from_secs 30.
Definition CHANNEL_CAPACITY : nat := 32.
Definition UDP_CHANNEL_CAPACITY : nat := 128.
Definition AUTHENTICATION_TIMEOUT : Z := from_secs 10.
Definition MAX_PRE_AUTH_BYTES : Z := 256 * 1024.
Definition MAX_PRE_AUTH_ITEMS : Z := 256.

(** ** State *)
Record TuicUser := MkTuicUser { user_name : bytes; user_uuid : bytes; user_password : bytes }.

(** The sending half of a task's channel: the task's place in the table of
    spawned tasks. *)
Record StreamState := MkStreamState { client_tx : nat }.

Inductive UniStreamState := Receiving (command : bytes) | UniAuthenticated.

Record PendingStream := MkPending { ps_data : bytes; ps_fin : bool }.
Definition default_pending : PendingStream := MkPending [] false.

Inductive UdpMode := Native | Quic.
#[global] Instance UdpMode_eq_dec : EqDecision UdpMode.
Proof. solve_decision. Defined.

Record UdpRequest := MkUdpRequest { ur_target : TargetAddr; ur_payload : bytes }.

Record UdpSession := MkUdpSession { us_tx : nat; us_mode : UdpMode; us_last_used : Z }.

Inductive QuicWrite :=
  | WData (stream_id : Z) (data : bytes) (fin : bool)
  | WDatagram (assoc_id : option Z) (data : bytes)
  | WUniStream (assoc_id : option Z) (stream_id : option Z) (data : bytes)
  | WClose (stream_id : Z).

Record TuicApp := MkApp {
  inbound : bytes;
  tuic_users : list TuicUser;
  authenticated : bool;
  authentication_deadline : Z;
  pre_auth_bytes : Z;
  pre_auth_items : Z;
  app_username : option bytes;
  uni_streams : gmap Z UniStreamState;
  pending_uni_commands : list bytes;
  pending_datagrams : list bytes;
  pending_streams : gmap Z PendingStream;
  streams : gmap Z StreamState;
  udp_sessions : gmap Z UdpSession;
  packet_assembler : PacketAssembler;
  next_udp_cleanup : Z;
  next_uni_stream_id : Z;
  outbound_rx : list QuicWrite;
  pending_writes : list QuicWrite;
}.

Definition set_authenticated (v : bool) (s : TuicApp) : TuicApp :=
  MkApp (inbound s) (tuic_users s) v (authentication_deadline s) (pre_auth_bytes s) (pre_auth_items
    s) (app_username s) (uni_streams s) (pending_uni_commands s) (pending_datagrams s)
    (pending_streams s) (streams s) (udp_sessions s) (packet_assembler s) (next_udp_cleanup s)
    (next_uni_stream_id s) (outbound_rx s) (pending_writes s).
Definition set_authentication_deadline (v : Z) (s : TuicApp) : TuicApp :=
  MkApp (inbound s) (tuic_users s) (authenticated s) v (pre_auth_bytes s) (pre_auth_items s)
    (app_username s) (uni_streams s) (pending_uni_commands s) (pending_datagrams s) (pending_streams
    s) (streams s) (udp_sessions s) (packet_assembler s) (next_udp_cleanup s) (next_uni_stream_id s)
    (outbound_rx s) (pending_writes s).
Definition set_pre_auth_bytes (v : Z) (s : TuicApp) : TuicApp :=
  MkApp (inbound s) (tuic_users s) (authenticated s) (authentication_deadline s) v (pre_auth_items
    s) (app_username s) (uni_streams s) (pending_uni_commands s) (pending_datagrams s)
    (pending_streams s) (streams s) (udp_sessions s) (packet_assembler s) (next_udp_cleanup s)
    (next_uni_stream_id s) (outbound_rx s) (pending_writes s).
Definition set_pre_auth_items (v : Z) (s : TuicApp) : TuicApp :=
  MkApp (inbound s) (tuic_users s) (authenticated s) (authentication_deadline s) (pre_auth_bytes s)
    v (app_username s) (uni_streams s) (pending_uni_commands s) (pending_datagrams s)
    (pending_streams s) (streams s) (udp_sessions s) (packet_assembler s) (next_udp_cleanup s)
    (next_uni_stream_id s) (outbound_rx s) (pending_writes s).
Definition set_app_username (v : option bytes) (s : TuicApp) : TuicApp :=
  MkApp (inbound s) (tuic_users s) (authenticated s) (authentication_deadline s) (pre_auth_bytes s)
    (pre_auth_items s) v (uni_streams s) (pending_uni_commands s) (pending_datagrams s)
    (pending_streams s) (streams s) (udp_sessions s) (packet_assembler s) (next_udp_cleanup s)
    (next_uni_stream_id s) (outbound_rx s) (pending_writes s).
Definition set_uni_streams (v : gmap Z UniStreamState) (s : TuicApp) : TuicApp :=
  MkApp (inbound s) (tuic_users s) (authenticated s) (authentication_deadline s) (pre_auth_bytes s)
    (pre_auth_items s) (app_username s) v (pending_uni_commands s) (pending_datagrams s)
    (pending_streams s) (streams s) (udp_sessions s) (packet_assembler s) (next_udp_cleanup s)
    (next_uni_stream_id s) (outbound_rx s) (pending_writes s).
Definition set_pending_uni_commands (v : list bytes) (s : TuicApp) : TuicApp :=
  MkApp (inbound s) (tuic_users s) (authenticated s) (authentication_deadline s) (pre_auth_bytes s)
    (pre_auth_items s) (app_username s) (uni_streams s) v (pending_datagrams s) (pending_streams s)
    (streams s) (udp_sessions s) (packet_assembler s) (next_udp_cleanup s) (next_uni_stream_id s)
    (outbound_rx s) (pending_writes s).
Definition set_pending_datagrams (v : list bytes) (s : TuicApp) : TuicApp :=
  MkApp (inbound s) (tuic_users s) (authenticated s) (authentication_deadline s) (pre_auth_bytes s)
    (pre_auth_items s) (app_username s) (uni_streams s) (pending_uni_commands s) v (pending_streams
    s) (streams s) (udp_sessions s) (packet_assembler s) (next_udp_cleanup s) (next_uni_stream_id s)
    (outbound_rx s) (pending_writes s).
Definition set_pending_streams (v : gmap Z PendingStream) (s : TuicApp) : TuicApp :=
  MkApp (inbound s) (tuic_users s) (authenticated s) (authentication_deadline s) (pre_auth_bytes s)
    (pre_auth_items s) (app_username s) (uni_streams s) (pending_uni_commands s) (pending_datagrams
    s) v (streams s) (udp_sessions s) (packet_assembler s) (next_udp_cleanup s) (next_uni_stream_id
    s) (outbound_rx s) (pending_writes s).
Definition set_streams (v : gmap Z StreamState) (s : TuicApp) : TuicApp :=
  MkApp (inbound s) (tuic_users s) (authenticated s) (authentication_deadline s) (pre_auth_bytes s)
    (pre_auth_items s) (app_username s) (uni_streams s) (pending_uni_commands s) (pending_datagrams
    s) (pending_streams s) v (udp_sessions s) (packet_assembler s) (next_udp_cleanup s)
    (next_uni_stream_id s) (outbound_rx s) (pending_writes s).
Definition set_udp_sessions (v : gmap Z UdpSession) (s : TuicApp) : TuicApp :=
  MkApp (inbound s) (tuic_users s) (authenticated s) (authentication_deadline s) (pre_auth_bytes s)
    (pre_auth_items s) (app_username s) (uni_streams s) (pending_uni_commands s) (pending_datagrams
    s) (pending_streams s) (streams s) v (packet_assembler s) (next_udp_cleanup s)
    (next_uni_stream_id s) (outbound_rx s) (pending_writes s).
Definition set_packet_assembler (v : PacketAssembler) (s : TuicApp) : TuicApp :=
  MkApp (inbound s) (tuic_users s) (authenticated s) (authentication_deadline s) (pre_auth_bytes s)
    (pre_auth_items s) (app_username s) (uni_streams s) (pending_uni_commands s) (pending_datagrams
    s) (pending_streams s) (streams s) (udp_sessions s) v (next_udp_cleanup s) (next_uni_stream_id
    s) (outbound_rx s) (pending_writes s).
Definition set_next_udp_cleanup (v : Z) (s : TuicApp) : TuicApp :=
  MkApp (inbound s) (tuic_users s) (authenticated s) (authentication_deadline s) (pre_auth_bytes s)
    (pre_auth_items s) (app_username s) (uni_streams s) (pending_uni_commands s) (pending_datagrams
    s) (pending_streams s) (streams s) (udp_sessions s) (packet_assembler s) v (next_uni_stream_id
    s) (outbound_rx s) (pending_writes s).
Definition set_next_uni_stream_id (v : Z) (s : TuicApp) : TuicApp :=
  MkApp (inbound s) (tuic_users s) (authenticated s) (authentication_deadline s) (pre_auth_bytes s)
    (pre_auth_items s) (app_username s) (uni_streams s) (pending_uni_commands s) (pending_datagrams
    s) (pending_streams s) (streams s) (udp_sessions s) (packet_assembler s) (next_udp_cleanup s) v
    (outbound_rx s) (pending_writes s).
Definition set_outbound_rx (v : list QuicWrite) (s : TuicApp) : TuicApp :=
  MkApp (inbound s) (tuic_users s) (authenticated s) (authentication_deadline s) (pre_auth_bytes s)
    (pre_auth_items s) (app_username s) (uni_streams s) (pending_uni_commands s) (pending_datagrams
    s) (pending_streams s) (streams s) (udp_sessions s) (packet_assembler s) (next_udp_cleanup s)
    (next_uni_stream_id s) v (pending_writes s).
Definition set_pending_writes (v : list QuicWrite) (s : TuicApp) : TuicApp :=
  MkApp (inbound s) (tuic_users s) (authenticated s) (authentication_deadline s) (pre_auth_bytes s)
    (pre_auth_items s) (app_username s) (uni_streams s) (pending_uni_commands s) (pending_datagrams
    s) (pending_streams s) (streams s) (udp_sessions s) (packet_assembler s) (next_udp_cleanup s)
    (next_uni_stream_id s) (outbound_rx s) v.

(** A bounded mpsc channel: what was sent and not yet received, and whether
    the receiving task is gone. *)
Record Chan (A : Type) := MkChan { ch_queue : list A; ch_cap : nat; ch_dropped : bool }.
Arguments MkChan {A} _ _ _.
Arguments ch_queue {A} _.
Arguments ch_cap {A} _.
Arguments ch_dropped {A} _.

Definition try_send {A} (x : A) (c : Chan A) : option (Chan A) :=
  if ch_dropped c || Nat.leb (ch_cap c) (length (ch_queue c)) then None
  else Some (MkChan (ch_queue c ++ [x]) (ch_cap c) (ch_dropped c)).

(** The tasks spawned so far, each with its channel. *)
Record Relay := MkRelay { rl_session : Session; rl_stream : Z; rl_initial : bytes; rl_rx : Chan bytes }.
Record UdpTask := MkUdpTask { ut_inbound : bytes; ut_assoc : Z; ut_mode : UdpMode; ut_rx : Chan UdpRequest }.

(** The connection, its tasks, and the clock: the [ticks]-th reading is next. *)
Record World := MkWorld {
  app : TuicApp;
  relays : list Relay;
  udp_tasks : list UdpTask;
  clock : nat → Z;
  ticks : nat;
}.

Definition with_app (f : TuicApp → TuicApp) : SE World () :=
  modify (λ w, MkWorld (f (app w)) (relays w) (udp_tasks w) (clock w) (ticks w)).
Definition self {A} (f : TuicApp → A) : SE World A := gets (λ w, f (app w)).

(** [Instant::now] *)
Definition now : SE World Z := λ w,
  (Ok (clock w (ticks w)), MkWorld (app w) (relays w) (udp_tasks w) (clock w) (S (ticks w))).

(** [parse_users]; [Uuid::parse_str] is the uuid crate's. *)
Fixpoint parse_users (parse_uuid : bytes → Result bytes) (us : list UserConfig) : Result (list TuicUser) :=
  match us with
  | [] => Ok []
  | user :: us =>
      uuid ← context (uuid user) "tuic user requires uuid";
      id ← parse_uuid uuid;
      rest ← parse_users parse_uuid us;
      Ok (MkTuicUser (username user) id (password user) :: rest)
  end.

(** [TuicApp::new] *)
Definition app_new (inb : bytes) (us : list TuicUser) (now1 now2 : Z) : TuicApp :=
  MkApp inb us false (now1 + AUTHENTICATION_TIMEOUT) 0 0 None ∅ [] [] ∅ ∅ ∅ ∅
    (now2 + UDP_SESSION_CLEANUP_INTERVAL) 3 [] [].

Definition check_authentication_deadline : SE World () :=
  auth ← self authenticated;
  if (auth : bool) then mret ()
  else
    n ← now;
    deadline ← self authentication_deadline;
    if deadline <=? n then throw (EMsg "tuic authentication timed out") else mret ().

Definition reserve_pre_auth (bytes items : Z) : SE World () :=
  check_authentication_deadline ;;
  auth ← self authenticated;
  if (auth : bool) then mret ()
  else
    have_bytes ← self pre_auth_bytes;
    have_items ← self pre_auth_items;
    if (sub_usize MAX_PRE_AUTH_BYTES have_bytes <? bytes)
       || (sub_usize MAX_PRE_AUTH_ITEMS have_items <? items)
    then throw (EMsg "tuic unauthenticated buffer limit exceeded")
    else
      with_app (λ s, set_pre_auth_items (pre_auth_items s + items)
                       (set_pre_auth_bytes (pre_auth_bytes s + bytes) s)).

(** ** Spawning *)
Definition spawn_relay (session : Session) (stream_id : Z) (initial : bytes) : SE World nat := λ w,
  (Ok (length (relays w)),
   MkWorld (app w)
     (relays w ++ [MkRelay session stream_id initial (MkChan [] CHANNEL_CAPACITY false)])
     (udp_tasks w) (clock w) (ticks w)).

Definition spawn_udp_session (assoc : Z) (mode : UdpMode) (n : Z) : SE World UdpSession := λ w,
  (Ok (MkUdpSession (length (udp_tasks w)) mode n),
   MkWorld (app w) (relays w)
     (udp_tasks w ++ [MkUdpTask (inbound (app w)) assoc mode (MkChan [] UDP_CHANNEL_CAPACITY false)])
     (clock w) (ticks w)).

(** [state.client_tx.try_send(data)] *)
Definition relay_try_send (i : nat) (data : bytes) : SE World bool := λ w,
  match relays w !! i with
  | Some r =>
      match try_send data (rl_rx r) with
      | Some c =>
          (Ok true, MkWorld (app w)
             (<[i := MkRelay (rl_session r) (rl_stream r) (rl_initial r) c]> (relays w))
             (udp_tasks w) (clock w) (ticks w))
      | None => (Ok false, w)
      end
  | None => (Ok false, w)
  end.

(** [session.tx.try_send(request)], whose failure drops the request. *)
Definition udp_try_send (i : nat) (r : UdpRequest) : SE World () := λ w,
  match udp_tasks w !! i with
  | Some t =>
      match try_send r (ut_rx t) with
      | Some c =>
          (Ok (), MkWorld (app w) (relays w)
             (<[i := MkUdpTask (ut_inbound t) (ut_assoc t) (ut_mode t) c]> (udp_tasks w))
             (clock w) (ticks w))
      | None => (Ok (), w)
      end
  | None => (Ok (), w)
  end.

Section app.
Context `{!TuicCore}.
(** The TLS exporter of this connection, the iteration order of the
    [HashMap] of pending streams. *)
Variable export_keying_material : bytes → bytes → option bytes.
Variable hash_order : gmap Z PendingStream → list (Z * PendingStream).

(** ** Packets and datagrams *)

(** [self.packet_assembler.push(packet)] *)
Definition assemble (packet : Packet) : SE World (option Packet) :=
  n ← now;
  asm ← self packet_assembler;
  let '(r, asm) := push packet n asm in
  with_app (set_packet_assembler asm) ;;
  lift r.

Definition handle_packet (data : bytes) (mode : UdpMode) : SE World () :=
  packet ← lift (parse_packet data);
  complete ← assemble packet;
  match complete with
  | None => mret ()
  | Some packet =>
      match target packet with
      | None => throw (EMsg "tuic packet is missing target")
      | Some tgt =>
          n ← now;
          known ← self udp_sessions;
          session ←
            match known !! assoc_id packet with
            | Some s => mret s
            | None =>
                s ← spawn_udp_session (assoc_id packet) mode n;
                with_app (λ a, set_udp_sessions (<[assoc_id packet := s]> (udp_sessions a)) a) ;;
                mret s
            end;
          if negb (bool_decide (us_mode session = mode))
          then throw (EMsg "tuic udp relay mode changed")
          else
            with_app (λ a, set_udp_sessions
              (<[assoc_id packet := MkUdpSession (us_tx session) (us_mode session) n]> (udp_sessions a)) a) ;;
            udp_try_send (us_tx session) (MkUdpRequest tgt (payload packet))
      end
  end.

Definition handle_datagram (data : bytes) : SE World () :=
  check_authentication_deadline ;;
  if len data <? 2 then throw (EMsg "short tuic datagram")
  else
    let cmd := data !!! 1%nat in
    auth ← self authenticated;
    if cmd =? CMD_HEARTBEAT then mret ()
    else if (cmd =? CMD_PACKET) && negb auth then
      reserve_pre_auth (len data) 1 ;;
      with_app (λ s, set_pending_datagrams (pending_datagrams s ++ [data]) s)
    else if cmd =? CMD_PACKET then handle_packet data Native
    else throw (EMsg "unsupported tuic datagram command").

(** ** Streams *)
Definition handle_stream_data (stream_id : Z) (data : bytes) (fin : bool) : SE World () :=
  auth ← self authenticated;
  if negb auth then
    known ← self pending_streams;
    reserve_pre_auth (len data) (match known !! stream_id with Some _ => 0 | None => 1 end) ;;
    with_app (λ s,
      let p := default default_pending (pending_streams s !! stream_id) in
      set_pending_streams
        (<[stream_id := MkPending (ps_data p ++ data) (ps_fin p || fin)]> (pending_streams s)) s)
  else
    open ← self streams;
    match open !! stream_id with
    | Some state =>
        sent ← (if negb (bool_decide (data = [])) then relay_try_send (client_tx state) data else mret true);
        if negb sent then throw (EMsg "tuic inbound stream receive backpressure")
        else when fin (with_app (λ s, set_streams (delete stream_id (streams s)) s))
    | None =>
        held ← self pending_streams;
        let p := default default_pending (held !! stream_id) in
        with_app (λ s, set_pending_streams (delete stream_id (pending_streams s)) s) ;;
        let p := MkPending (ps_data p ++ data) (ps_fin p || fin) in
        parsed ← lift (try_parse_connect (ps_data p));
        match parsed with
        | None =>
            if ps_fin p then throw (EMsg "truncated tuic connect header")
            else with_app (λ s, set_pending_streams (<[stream_id := p]> (pending_streams s)) s)
        | Some (tgt, consumed) =>
            let initial := drop consumed (ps_data p) in
            inb ← self inbound;
            let session := MkSession inb Connect tgt in
            i ← spawn_relay session stream_id initial;
            when (negb (ps_fin p))
              (with_app (λ s, set_streams (<[stream_id := MkStreamState i]> (streams s)) s))
        end
    end.

(** ** Authentication and unidirectional commands *)
Definition handle_auth_data (handle_command : bytes → SE World ()) (data : bytes) : SE World () :=
  check_authentication_deadline ;;
  '(uuid, presented) ← lift (parse_authenticate data);
  us ← self tuic_users;
  match find (λ u, str_eqb (user_uuid u) uuid) us with
  | None => throw (EMsg "tuic authentication: unknown uuid")
  | Some user =>
      expected ← lift (token export_keying_material (user_uuid user) (user_password user));
      if negb (str_eqb expected presented) then throw (EMsg "tuic authentication: token mismatch")
      else
        with_app (λ s, set_app_username (Some (user_name user))
          (set_pre_auth_items 0 (set_pre_auth_bytes 0 (set_authenticated true s)))) ;;
        commands ← self pending_uni_commands;
        with_app (set_pending_uni_commands []) ;;
        for_each handle_command commands ;;
        datagrams ← self pending_datagrams;
        with_app (set_pending_datagrams []) ;;
        for_each handle_datagram datagrams ;;
        pending ← self pending_streams;
        with_app (set_pending_streams ∅) ;;
        for_each (λ '(stream_id, p),
          when (negb (bool_decide (ps_data p = [])))
            (handle_stream_data stream_id (ps_data p) (ps_fin p))) (hash_order pending)
  end.

(** The two functions call each other; [fuel] bounds the nesting. *)
Fixpoint handle_unidirectional_command (fuel : nat) (data : bytes) : SE World () :=
  match fuel with
  | O => throw (EMsg "out of fuel")
  | S fuel =>
      if len data <? 2 then throw (EMsg "short tuic command")
      else
        let cmd := data !!! 1%nat in
        auth ← self authenticated;
        if cmd =? CMD_AUTHENTICATE then handle_auth_data (handle_unidirectional_command fuel) data
        else if (cmd =? CMD_PACKET) && negb auth then
          with_app (λ s, set_pending_uni_commands (pending_uni_commands s ++ [data]) s)
        else if cmd =? CMD_PACKET then handle_packet data Quic
        else if (cmd =? CMD_DISSOCIATE) && negb auth then
          with_app (λ s, set_pending_uni_commands (pending_uni_commands s ++ [data]) s)
        else if cmd =? CMD_DISSOCIATE then
          assoc ← lift (parse_dissociate data);
          with_app (λ s, set_udp_sessions (delete assoc (udp_sessions s)) s)
        else throw (EMsg "unsupported tuic unidirectional command")
  end.

(** An authentication command starts the held back commands, none of which
    can be one again once they were taken out of the queue: three levels. *)
Definition COMMAND_FUEL : nat := 3.

Definition handle_unidirectional_stream (stream_id : Z) (data : bytes) (fin : bool) : SE World () :=
  known ← self uni_streams;
  reserve_pre_auth (len data) (match known !! stream_id with Some _ => 0 | None => 1 end) ;;
  match default (Receiving []) (known !! stream_id) with
  | UniAuthenticated =>
      if negb (bool_decide (data = [])) then throw (EMsg "unexpected data after tuic authentication")
      else when fin (with_app (λ s, set_uni_streams (delete stream_id (uni_streams s)) s))
  | Receiving command =>
      let command := command ++ data in
      with_app (λ s, set_uni_streams (<[stream_id := Receiving command]> (uni_streams s)) s) ;;
      let auth_complete :=
        Nat.leb AUTHENTICATE_LEN (length command) && (command !!! 1%nat =? CMD_AUTHENTICATE) in
      if auth_complete && negb (Nat.eqb (length command) AUTHENTICATE_LEN)
      then throw (EMsg "unexpected data after tuic authentication")
      else if negb fin && negb auth_complete then mret ()
      else
        with_app (λ s, set_uni_streams (delete stream_id (uni_streams s)) s) ;;
        when (negb fin)
          (with_app (λ s, set_uni_streams (<[stream_id := UniAuthenticated]> (uni_streams s)) s)) ;;
        handle_unidirectional_command COMMAND_FUEL command
  end.

(** ** Housekeeping *)
Definition evict_idle_udp_sessions (n : Z) (s : TuicApp) : TuicApp :=
  set_udp_sessions
    (filter (λ kv, saturating_duration_since n (us_last_used kv.2) < UDP_SESSION_IDLE_TIMEOUT)
       (udp_sessions s)) s.

Definition maybe_cleanup_udp_state : SE World () :=
  n ← now;
  at_ ← self next_udp_cleanup;
  if n <? at_ then mret ()
  else
    with_app (evict_idle_udp_sessions n) ;;
    with_app (λ s, set_packet_assembler
                     (evict_idle n FRAGMENT_IDLE_TIMEOUT (packet_assembler s)).1 s) ;;
    with_app (set_next_udp_cleanup (n + UDP_SESSION_CLEANUP_INTERVAL)).

Definition touch_udp_session (assoc : Z) : SE World () :=
  known ← self udp_sessions;
  match known !! assoc with
  | Some s =>
      n ← now;
      with_app (λ a, set_udp_sessions (<[assoc := MkUdpSession (us_tx s) (us_mode s) n]> (udp_sessions a)) a)
  | None => mret ()
  end.

Definition on_conn_established : SE World () :=
  n ← now;
  with_app (set_authentication_deadline (n + AUTHENTICATION_TIMEOUT)).

(** [self.outbound_rx.recv()] gave the write in front of the channel. *)
Definition receive_write : SE World () :=
  queue ← self outbound_rx;
  match queue with
  | [] => mret ()
  | write :: rest => with_app (λ s, set_outbound_rx rest (set_pending_writes (pending_writes s ++ [write]) s))
  end.

(** [wait_for_data]: [received] when the channel gave a write before the timer. *)
Definition wait_for_data (received : bool) : SE World () :=
  check_authentication_deadline ;;
  maybe_cleanup_udp_state ;;
  waiting ← self pending_writes;
  when (bool_decide (length waiting = 0%nat)) (when received receive_write) ;;
  check_authentication_deadline.

Definition is_unidirectional (stream_id : Z) : bool := negb (Z.land stream_id 0x02 =? 0).

(** What [stream_recv] returned on a readable stream, until it was done. *)
Inductive StreamRead := ReadData (data : bytes) (fin : bool) | ReadError (e : error).

Fixpoint read_stream (stream_id : Z) (rs : list StreamRead) : SE World () :=
  match rs with
  | [] => mret ()
  | ReadError e :: _ => throw e
  | ReadData data fin :: rs =>
      (if is_unidirectional stream_id
       then handle_unidirectional_stream stream_id data fin
       else handle_stream_data stream_id data fin) ;;
      if fin then mret () else read_stream stream_id rs
  end.
End app.

(** ** Writing

    The sending side of a QUIC connection, as quiche offers it. *)
Inductive SendResult (A : Type) :=
  | Sent (a : A)
  | Done
  | BufferTooShort
  | SendFailed (e : error).
Arguments Sent {A} a.
Arguments Done {A}.
Arguments BufferTooShort {A}.
Arguments SendFailed {A} e.

Class QuicConn (Q : Type) := {
  stream_send : Z → bytes → bool → Q → SendResult nat * Q;
  dgram_send : bytes → Q → SendResult () * Q;
  dgram_max_writable_len : Q → option nat;
}.

Section writes.
Context `{!TuicCore} {Q : Type} `{!QuicConn Q}.

Definition on_world {A} (m : SE World A) : SE (World * Q) A := λ '(w, q),
  let '(r, w') := m w in (r, (w', q)).
Definition on_conn {A} (m : Q → A * Q) : SE (World * Q) A := λ '(w, q),
  let '(a, q') := m q in (Ok a, (w, q')).

Definition push_front (write : QuicWrite) : SE World () :=
  with_app (λ s, set_pending_writes (write :: pending_writes s) s).

Definition touch_assoc (assoc : option Z) : SE World () :=
  match assoc with Some a => touch_udp_session a | None => mret () end.

(** The fragments of a datagram that is too large, put back in front. *)
Definition requeue_fragments (assoc : option Z) (data : bytes) (max : nat) : SE World () :=
  match (packet ← parse_packet data; fragment_packet packet max) with
  | Ok fragments =>
      for_each (λ fragment,
        encoded ← lift (encode_packet fragment);
        push_front (WDatagram assoc encoded)) (reverse fragments)
  | Err _ => mret ()
  end.

(** [stream_id.get_or_insert_with(..)] *)
Definition uni_stream_id (stream_id : option Z) : SE World Z :=
  match stream_id with
  | Some id => mret id
  | None =>
      id ← self next_uni_stream_id;
      with_app (set_next_uni_stream_id (id + 4)) ;;
      mret id
  end.

(** One write popped from the queue; the result says whether the loop goes on. *)
Definition write_one (write : QuicWrite) : SE (World * Q) bool :=
  match write with
  | WData id data fin =>
      res ← on_conn (stream_send id data fin);
      match res with
      | Sent sent =>
          if Nat.eqb sent (length data) then mret true
          else on_world (push_front (WData id (drop sent data) fin)) ;; mret false
      | Done =>
          if fin && bool_decide (data = []) then mret true
          else on_world (push_front (WData id data fin)) ;; mret false
      | BufferTooShort => throw (EMsg "tuic stream write failed")
      | SendFailed e => throw e
      end
  | WDatagram assoc data =>
      on_world (touch_assoc assoc) ;;
      res ← on_conn (dgram_send data);
      match res with
      | Sent _ => mret true
      | Done => on_world (push_front (WDatagram assoc data)) ;; mret false
      | BufferTooShort =>
          q ← gets snd;
          on_world (requeue_fragments assoc data (default 0%nat (dgram_max_writable_len q))) ;;
          mret true
      | SendFailed e => throw e
      end
  | WUniStream assoc stream_id data =>
      on_world (touch_assoc assoc) ;;
      id ← on_world (uni_stream_id stream_id);
      res ← on_conn (stream_send id data true);
      match res with
      | Sent sent =>
          if Nat.eqb sent (length data) then mret true
          else on_world (push_front (WUniStream assoc (Some id) (drop sent data))) ;; mret false
      | Done => on_world (push_front (WUniStream assoc (Some id) data)) ;; mret false
      | BufferTooShort => throw (EMsg "tuic stream write failed")
      | SendFailed e => throw e
      end
  | WClose id =>
      on_conn (stream_send id [] true) ;;
      on_world (with_app (λ s, set_streams (delete id (streams s)) s)) ;;
      mret true
  end.

(** [while let Some(write) = self.pending_writes.pop_front()] *)
Fixpoint write_loop (fuel : nat) : SE (World * Q) () :=
  match fuel with
  | O => throw (EMsg "out of fuel")
  | S fuel =>
      queue ← on_world (self pending_writes);
      match queue with
      | [] => mret ()
      | write :: rest =>
          on_world (with_app (set_pending_writes rest)) ;;
          go_on ← write_one write;
          if (go_on : bool) then write_loop fuel else mret ()
      end
  end.

(** A datagram is cut into at most 255 fragments, which are not cut again. *)
Definition write_fuel (queue : list QuicWrite) : nat := 1 + 256 * length queue.

Definition process_writes : SE (World * Q) () :=
  on_world check_authentication_deadline ;;
  on_world maybe_cleanup_udp_state ;;
  on_world (with_app (λ s,
    set_outbound_rx [] (set_pending_writes (pending_writes s ++ outbound_rx s) s))) ;;
  queue ← on_world (self pending_writes);
  write_loop (write_fuel queue).
End writes.

(** ** Reading *)
Section reads.
Context `{!TuicCore} {Q : Type} `{!QuicConn Q}.
Variable export_keying_material : bytes → bytes → option bytes.
Variable hash_order : gmap Z PendingStream → list (Z * PendingStream).

(** A heartbeat is sent back, whether or not that succeeds; other datagrams are
    handled. *)
Definition read_datagram (dgram : bytes) : SE (World * Q) () :=
  if (2 <=? len dgram) && (dgram !!! 0%nat =? VERSION) && (dgram !!! 1%nat =? CMD_HEARTBEAT)
  then on_conn (dgram_send (take 2 dgram)) ;; mret ()
  else on_world (handle_datagram dgram).

Definition process_reads (readable : list (Z * list StreamRead)) (dgrams : list bytes) : SE (World * Q) () :=
  on_world check_authentication_deadline ;;
  on_world maybe_cleanup_udp_state ;;
  on_world (for_each (λ '(stream_id, rs), read_stream export_keying_material hash_order stream_id rs) readable) ;;
  for_each read_datagram dgrams.
End reads.

(** ** The tasks *)

(** The loop of [run_udp_session] after the first request was sent: [pkt_id]
    counts the answers. *)
Inductive udp_event :=
  | UdpRequested (request : option UdpRequest) (sent : Result ())
  | UdpReceived (received : Result (TargetAddr * bytes)) (queued : bool).

Inductive udp_next :=
  | UdpContinue (pkt_id : Z) (writes : list QuicWrite)
  | UdpStop (res : Result ()) (writes : list QuicWrite).

Definition udp_session_step `{!TuicCore} (assoc : Z) (mode : UdpMode) (pkt : Z) (ev : udp_event) : udp_next :=
  match ev with
  | UdpRequested None _ => UdpStop (Ok ()) []
  | UdpRequested (Some _) (Ok _) => UdpContinue pkt []
  | UdpRequested (Some _) (Err e) => UdpStop (Err e) []
  | UdpReceived (Err e) _ => UdpStop (Err e) []
  | UdpReceived (Ok (source, payload)) queued =>
      match encode_packet (MkPacket assoc pkt 1 0 (Some source) payload) with
      | Err e => UdpStop (Err e) []
      | Ok encoded =>
          let write := match mode with
                       | Native => WDatagram (Some assoc) encoded
                       | Quic => WUniStream (Some assoc) None encoded
                       end in
          if queued then UdpContinue (wrapping_add_u16 pkt 1) [write] else UdpStop (Ok ()) []
      end
  end.

(** ** The life of a connection

    What happens to a connection, in order: the callbacks of the QUIC driver,
    and the steps of the tasks on the other ends of the channels. *)
Inductive ConnEvent :=
  | Established
  | Waited (received : bool)
  | Reads (readable : list (Z * list StreamRead)) (dgrams : list bytes)
  | Writes
  | TaskQueued (write : QuicWrite)
  | RelayReceives (i : nat)
  | RelayEnds (i : nat)
  | UdpReceives (i : nat)
  | UdpEnds (i : nat).

Definition chan_recv {A} (c : Chan A) : Chan A := MkChan (tail (ch_queue c)) (ch_cap c) (ch_dropped c).
Definition chan_drop {A} (c : Chan A) : Chan A := MkChan [] (ch_cap c) true.

Definition on_relay (i : nat) (f : Chan bytes → Chan bytes) : SE World () :=
  modify (λ w, MkWorld (app w)
    (alter (λ r, MkRelay (rl_session r) (rl_stream r) (rl_initial r) (f (rl_rx r))) i (relays w))
    (udp_tasks w) (clock w) (ticks w)).
Definition on_udp_task (i : nat) (f : Chan UdpRequest → Chan UdpRequest) : SE World () :=
  modify (λ w, MkWorld (app w) (relays w)
    (alter (λ t, MkUdpTask (ut_inbound t) (ut_assoc t) (ut_mode t) (f (ut_rx t))) i (udp_tasks w))
    (clock w) (ticks w)).

(** [quic_tx.send(write).await] of a task completes when the channel has room. *)
Definition task_queue (write : QuicWrite) : SE World () :=
  queue ← self outbound_rx;
  when (Nat.ltb (length queue) CHANNEL_CAPACITY) (with_app (λ s, set_outbound_rx (outbound_rx s ++ [write]) s)).

Section life.
Context `{!TuicCore} {Q : Type} `{!QuicConn Q}.
Variable export_keying_material : bytes → bytes → option bytes.
Variable hash_order : gmap Z PendingStream → list (Z * PendingStream).

Definition conn_event (ev : ConnEvent) : SE (World * Q) () :=
  match ev with
  | Established => on_world on_conn_established
  | Waited received => on_world (wait_for_data received)
  | Reads readable dgrams => process_reads export_keying_material hash_order readable dgrams
  | Writes => process_writes
  | TaskQueued write => on_world (task_queue write)
  | RelayReceives i => on_world (on_relay i chan_recv)
  | RelayEnds i => on_world (on_relay i chan_drop)
  | UdpReceives i => on_world (on_udp_task i chan_recv)
  | UdpEnds i => on_world (on_udp_task i chan_drop)
  end.

(** The driver closes the connection on the first error. *)
Definition conn_run (evs : list ConnEvent) : SE (World * Q) () := for_each conn_event evs.
End life.
