(* ===== verification/TuicAuth.v ===== *)
(** * Before and after TUIC authentication

    The invariant of a connection: while it is not authenticated nothing has
    been relayed, and what it retains is bounded; once it is, a peer has
    presented the token of a configured user. *)
From S2P Require Import Prelude Text Net Config TuicCodec TuicLayout TuicInbound.

Section auth.
Context `{!TuicCore}.
Variable export_keying_material : bytes → bytes → option bytes.
Variable hash_order : gmap Z PendingStream → list (Z * PendingStream).
(** The users the server was started with. *)
Variable configured : list TuicUser.

(** ** What a connection retains *)
Definition command_len (st : UniStreamState) : Z :=
  match st with Receiving c => len c | UniAuthenticated => 0 end.

Definition retained_bytes (s : TuicApp) : Z :=
  msum command_len (uni_streams s) + len (concat (pending_uni_commands s)) +
  len (concat (pending_datagrams s)) + msum (λ p, len (ps_data p)) (pending_streams s).

Definition retained_items (s : TuicApp) : Z :=
  msum (λ _, 1) (uni_streams s) + len (pending_uni_commands s) +
  len (pending_datagrams s) + msum (λ _, 1) (pending_streams s).

(** The bytes heard so far on each unidirectional stream. *)
Definition Heard : Type := Z → bytes.
Definition hear (h : Heard) (id : Z) (data : bytes) : Heard :=
  λ i, if i =? id then h i ++ data else h i.

(** Commands that wait for authentication. *)
Definition deferrable (c : bytes) : Prop :=
  2 ≤ len c ∧ (c !!! 1%nat = CMD_PACKET ∨ c !!! 1%nat = CMD_DISSOCIATE).

(** Not authenticated, with [b] bytes and [i] items reserved beyond what is
    retained. *)
Record locked_with (h : Heard) (b i : Z) (w : World) : Prop := {
  lk_auth : authenticated (app w) = false;
  lk_users : tuic_users (app w) = configured;
  lk_bytes : retained_bytes (app w) + b ≤ pre_auth_bytes (app w) ≤ MAX_PRE_AUTH_BYTES;
  lk_items : retained_items (app w) + i ≤ pre_auth_items (app w) ≤ MAX_PRE_AUTH_ITEMS;
  lk_streams : streams (app w) = ∅ ∧ udp_sessions (app w) = ∅ ∧ packet_assembler (app w) = ∅;
  lk_tasks : relays w = [] ∧ udp_tasks w = [];
  lk_heard id c : uni_streams (app w) !! id = Some (Receiving c) → c `suffix_of` h id;
}.
Definition locked (h : Heard) : World → Prop := locked_with h 0 0.

(** A command heard on a stream presents the token of a configured user. *)
Definition credential (h : Heard) : Prop :=
  ∃ id pre cmd post user tok, h id = pre ++ cmd ++ post ∧ user ∈ configured ∧
    parse_authenticate cmd = Ok (user_uuid user, tok) ∧
    export_keying_material (user_uuid user) (user_password user) = Some tok.

Definition unlocked (h : Heard) (w : World) : Prop :=
  authenticated (app w) = true ∧ tuic_users (app w) = configured ∧ credential h.

Definition conn_inv (h : Heard) (w : World) : Prop := locked h w ∨ unlocked h w.

Lemma retained_bytes_nonneg s : 0 ≤ retained_bytes s.
Proof.
  rw /retained_bytes. pose proof (msum_nonneg command_len (uni_streams s)) as H1.
  pose proof (msum_nonneg (λ p, len (ps_data p)) (pending_streams s)) as H2.
  pose proof (len_nonneg (concat (pending_uni_commands s))). pose proof (len_nonneg (concat (pending_datagrams s))).
  specialize (H1 ltac:(intros []; simpl; [apply len_nonneg|lia])).
  specialize (H2 ltac:(intros; apply len_nonneg)). lia.
Qed.
Lemma retained_items_nonneg s : 0 ≤ retained_items s.
Proof.
  rw /retained_items !msum_size. pose proof (len_nonneg (pending_uni_commands s)).
  pose proof (len_nonneg (pending_datagrams s)). lia.
Qed.

(** ** After authentication every step keeps the state unlocked *)
Definition app_keeps (f : TuicApp → TuicApp) : Prop :=
  ∀ s, (authenticated s = true → authenticated (f s) = true) ∧ tuic_users (f s) = tuic_users s.

Lemma unlocked_with_app h f : app_keeps f → keeps (unlocked h) (with_app f).
Proof.
  intros Hf. apply triple_modify. intros w (Ha & Hu & Hc). destruct (Hf (app w)) as [E1 E2].
  rw /unlocked /= E2. auto.
Qed.

Lemma unlocked_now h : keeps (unlocked h) now.
Proof. intros w Hw. exact Hw. Qed.
Lemma unlocked_self {A} h (f : TuicApp → A) : keeps (unlocked h) (self f).
Proof. apply keeps_gets. Qed.
Lemma unlocked_spawn_relay h s i b : keeps (unlocked h) (spawn_relay s i b).
Proof. intros w Hw. exact Hw. Qed.
Lemma unlocked_spawn_udp h a m n : keeps (unlocked h) (spawn_udp_session a m n).
Proof. intros w Hw. exact Hw. Qed.
Lemma unlocked_relay_send h i d : keeps (unlocked h) (relay_try_send i d).
Proof. intros w Hw. rw /relay_try_send. destruct (_ !! _); [destruct (try_send _ _)|]; exact Hw. Qed.
Lemma unlocked_udp_send h i r : keeps (unlocked h) (udp_try_send i r).
Proof. intros w Hw. rw /udp_try_send. destruct (_ !! _); [destruct (try_send _ _)|]; exact Hw. Qed.

Hint Resolve unlocked_now unlocked_self unlocked_spawn_relay unlocked_spawn_udp unlocked_relay_send
  unlocked_udp_send : keeping.
Hint Extern 3 (keeps _ (with_app _)) => (apply unlocked_with_app; intros ?; by split) : keeping.

Lemma unlocked_check h : keeps (unlocked h) check_authentication_deadline.
Proof. rw /check_authentication_deadline. keep_walk. Qed.
Hint Resolve unlocked_check : keeping.
Lemma unlocked_reserve h b i : keeps (unlocked h) (reserve_pre_auth b i).
Proof. rw /reserve_pre_auth. keep_walk. Qed.
Hint Resolve unlocked_reserve : keeping.
Lemma unlocked_packet h d m : keeps (unlocked h) (handle_packet d m).
Proof. rw /handle_packet /assemble. keep_walk. Qed.
Hint Resolve unlocked_packet : keeping.
Lemma unlocked_datagram h d : keeps (unlocked h) (handle_datagram d).
Proof. rw /handle_datagram. keep_walk. Qed.
Hint Resolve unlocked_datagram : keeping.
Lemma unlocked_stream h i d f : keeps (unlocked h) (handle_stream_data i d f).
Proof. rw /handle_stream_data. keep_walk. Qed.
Hint Resolve unlocked_stream : keeping.
Lemma unlocked_auth h handle_command d :
  (∀ c, keeps (unlocked h) (handle_command c)) →
  keeps (unlocked h) (handle_auth_data export_keying_material hash_order handle_command d).
Proof. intros Hc. rw /handle_auth_data. keep_walk. Qed.
Lemma unlocked_command h fuel d :
  keeps (unlocked h) (handle_unidirectional_command export_keying_material hash_order fuel d).
Proof.
  revert d. induction fuel as [|fuel IH]; intros d; simpl; keep_walk.
Qed.
Hint Resolve unlocked_command : keeping.
Lemma unlocked_uni_stream h i d f :
  keeps (unlocked h) (handle_unidirectional_stream export_keying_material hash_order i d f).
Proof. rw /handle_unidirectional_stream. keep_walk. Qed.
Lemma unlocked_cleanup h : keeps (unlocked h) maybe_cleanup_udp_state.
Proof. rw /maybe_cleanup_udp_state. keep_walk. Qed.

Lemma unlocked_mono h h' w : (∀ id, h id `prefix_of` h' id) → unlocked h w → unlocked h' w.
Proof.
  intros Hh (Ha & Hu & id & pre & cmd & post & user & tok & Hid & Hrest). split; [done|]. split; [done|].
  destruct (Hh id) as [more Hmore]. exists id, pre, cmd, (post ++ more), user, tok.
  split; [by rw Hmore Hid -!app_assoc|done].
Qed.

(** ** Before authentication *)
Lemma locked_less h b i b' i' w : locked_with h b i w → b' ≤ b → i' ≤ i → locked_with h b' i' w.
Proof. intros [] Hb Hi. split; try done; lia. Qed.

Lemma locked_app h b i s rs us cl t t' :
  locked_with h b i (MkWorld s rs us cl t) → locked_with h b i (MkWorld s rs us cl t').
Proof. intros []. by split. Qed.

Lemma locked_now h b i : keeps (locked_with h b i) now.
Proof. intros [] Hw. by eapply locked_app. Qed.
Hint Resolve locked_now : keeping.

Lemma locked_check h b i : keeps (locked_with h b i) check_authentication_deadline.
Proof. rw /check_authentication_deadline /self. keep_walk. Qed.

(** The part of the state a reservation leaves alone. *)
Definition same_data (s s' : TuicApp) : Prop :=
  uni_streams s' = uni_streams s ∧ pending_streams s' = pending_streams s.

Lemma check_same w r w' :
  check_authentication_deadline w = (r, w') → app w' = app w.
Proof.
  rw /check_authentication_deadline /self /gets /now /mbind /SE_bind /=.
  destruct (authenticated (app w)); [by intros [= <- <-]|]. case_match; by intros [= <- <-].
Qed.

Lemma reserve_locked h b i s0 :
  0 ≤ b → 0 ≤ i →
  triple (λ w, locked h w ∧ app w = s0) (reserve_pre_auth b i)
    (λ _ w, locked_with h b i w ∧ same_data s0 (app w)) (locked h).
Proof.
  intros Hb Hi w [Hw Hs0]. rw /reserve_pre_auth.
  pose proof (locked_check h 0 0 w Hw) as Hc. rw /mbind /SE_bind.
  destruct (check_authentication_deadline w) as [[[]|e] w1] eqn:Hcheck; [|exact Hc].
  apply check_same in Hcheck. rw /self /gets /=. pose proof Hc as [Ha Hus Hby Hit Hst Htk Hhd]. rw Ha.
  pose proof (retained_bytes_nonneg (app w1)). pose proof (retained_items_nonneg (app w1)).
  destruct (_ || _) eqn:Hlim; [exact Hc|]. apply orb_false_iff in Hlim as [Hl1%Z.ltb_ge Hl2%Z.ltb_ge].
  rw /sub_usize Z.mod_small in Hl1; [rw /MAX_PRE_AUTH_BYTES in Hby |- *; lia|].
  rw /sub_usize Z.mod_small in Hl2; [rw /MAX_PRE_AUTH_ITEMS in Hit |- *; lia|].
  rw -Hs0 -Hcheck. split; [|done]. split; simpl; try done.
  - change (retained_bytes _) with (retained_bytes (app w1)). lia.
  - change (retained_items _) with (retained_items (app w1)). lia.
Qed.

(** A locked connection reads [self.authenticated] as false. *)
Lemma locked_self_auth {B} h b i (f : bool → SE World B) Q E :
  triple (locked_with h b i) (f false) Q E →
  triple (locked_with h b i) (auth ← self authenticated; f auth) Q E.
Proof.
  intros Hf. apply (triple_bind _ _ _ (λ auth w, auth = false ∧ locked_with h b i w)).
  - apply triple_gets. intros w Hw. split; [apply Hw|done].
  - intros auth. apply triple_pure. by intros ->.
Qed.

(** Reserving, then keeping what was reserved. *)
Lemma locked_reserve_then {B} h n k s0 (m : SE World B) Q E :
  0 ≤ n → 0 ≤ k → (∀ w, locked h w → E w) →
  triple (λ w, locked_with h n k w ∧ same_data s0 (app w)) m Q E →
  triple (λ w, locked h w ∧ app w = s0) (reserve_pre_auth n k ;; m) Q E.
Proof.
  intros Hn Hk HE Hm.
  apply (triple_bind _ _ _ (λ _ w, locked_with h n k w ∧ same_data s0 (app w))); [|intros []; exact Hm].
  eapply triple_conseq; [|by apply (reserve_locked h n k s0)|done|exact HE]. done.
Qed.

Lemma triple_with_app (f : TuicApp → TuicApp) P (Q : () → World → Prop) E :
  (∀ w, P w → Q () (MkWorld (f (app w)) (relays w) (udp_tasks w) (clock w) (ticks w))) →
  triple P (with_app f) Q E.
Proof. intros Hf. by apply triple_modify. Qed.

Lemma concat_snoc_len (l : list bytes) x : len (concat (l ++ [x])) = len (concat l) + len x.
Proof. by rw concat_app len_app /= app_nil_r. Qed.

Lemma locked_datagram h d : keeps (locked h) (handle_datagram d).
Proof.
  rw /handle_datagram. apply keeps_bind; [apply locked_check|]. intros [].
  case_match; [apply keeps_throw|]. apply locked_self_auth.
  destruct (_ =? CMD_HEARTBEAT); [apply keeps_ret|]. rw andb_true_r.
  destruct (_ =? CMD_PACKET); [|apply keeps_throw].
  intros w Hw. apply (locked_reserve_then h (len d) 1 (app w) (with_app _) (λ _, locked h) (locked h));
    [apply len_nonneg|lia|done| |done].
  apply triple_with_app. intros w' [[Ha Hus Hby Hit Hst Htk Hhd] _]. split; try done.
  - rw /retained_bytes /= concat_snoc_len in Hby |- *. lia.
  - rw /retained_items /= len_app in Hit |- *. rw /len /= in Hit |- *. lia.
Qed.

Lemma locked_stream h i d f : keeps (locked h) (handle_stream_data i d f).
Proof.
  rw /handle_stream_data. apply locked_self_auth. cbn [negb].
  intros w Hw. rw /mbind /SE_bind /self /gets.
  apply (locked_reserve_then h (len d) (match pending_streams (app w) !! i with Some _ => 0 | None => 1 end)
    (app w) (with_app _) (λ _, locked h) (locked h)); [apply len_nonneg|case_match; lia|done| |done].
  apply triple_with_app. intros w' [[Ha Hus Hby Hit Hst Htk Hhd] [_ Hp]]. split; try done.
  - rw /retained_bytes /= msum_insert /= len_app Hp in Hby |- *.
    destruct (pending_streams (app w) !! i); simpl; rw ?len_nil; lia.
  - rw /retained_items /= msum_insert Hp in Hit |- *.
    destruct (pending_streams (app w) !! i); simpl; lia.
Qed.

(** The outcome of a step that may authenticate. *)
Lemma locked_auth_data h handle_command c b i id :
  c `suffix_of` h id → 0 ≤ b → 0 ≤ i → (∀ c, keeps (unlocked h) (handle_command c)) →
  triple (locked_with h b i) (handle_auth_data export_keying_material hash_order handle_command c)
    (λ _, conn_inv h) (conn_inv h).
Proof.
  intros [pre Hsuf] Hb Hi Hcmd. rw /handle_auth_data.
  assert (Hless : ∀ w, locked_with h b i w → conn_inv h w).
  { intros w Hw. left. eapply locked_less; [exact Hw|lia..]. }
  apply (triple_bind _ _ _ (λ _, locked_with h b i)).
  { eapply triple_conseq; [|apply (locked_check h b i)|done|exact Hless]. done. }
  intros []. eapply (triple_bind _ _ _ (λ r w, parse_authenticate c = Ok r ∧ locked_with h b i w)).
  { by apply triple_lift. }
  intros [uuid presented]. apply triple_pure. intros Hparse.
  eapply (triple_bind _ _ _ (λ us w, configured = us ∧ locked_with h b i w)).
  { apply triple_gets. intros w Hw. split; [symmetry; apply Hw|done]. }
  intros us. apply triple_pure. intros <-. destruct (find _ configured) as [user|] eqn:Hfind; [|by apply triple_throw].
  apply find_some in Hfind as [Huser Hid%str_eqb_eq]. apply list_elem_of_In in Huser. subst uuid.
  eapply (triple_bind _ _ _ (λ tok w, export_keying_material (user_uuid user) (user_password user) = Some tok
    ∧ locked_with h b i w)).
  { apply triple_lift; [|exact Hless]. rw /token /export_keying_material_raw_label.
    intros tok w. by destruct (export_keying_material _ _) as [t|]; [intros [= ->]|]. }
  intros tok. apply triple_pure. intros Hexp.
  destruct (str_eqb tok presented) eqn:Htok; [|by apply triple_throw].
  apply str_eqb_eq in Htok as ->. cbn [negb].
  apply (triple_bind _ _ _ (λ _, unlocked h)).
  { apply triple_with_app. intros w Hw. split; [done|]. split; [apply Hw|]. exists id, pre, c, [], user, presented.
    by rw app_nil_r. }
  intros []. apply (keeps_weaken (unlocked h)); [by right|]. keep_walk.
Qed.

Lemma conn_inv_locked h b i w : locked_with h b i w → 0 ≤ b → 0 ≤ i → conn_inv h w.
Proof. intros Hw Hb Hi. left. eapply locked_less; [exact Hw|lia..]. Qed.

Lemma locked_command h fuel c i id :
  c `suffix_of` h id → 0 ≤ i → (c !!! 1%nat = CMD_AUTHENTICATE ∨ 1 ≤ i) →
  triple (locked_with h (len c) i)
    (handle_unidirectional_command export_keying_material hash_order fuel c)
    (λ _, conn_inv h) (conn_inv h).
Proof.
  intros Hsuf Hi Hroom. pose proof (len_nonneg c) as Hc.
  assert (Hless : ∀ w, locked_with h (len c) i w → conn_inv h w).
  { intros w Hw. by eapply conn_inv_locked. }
  destruct fuel as [|fuel]; simpl; [by apply triple_throw|].
  case_match; [by apply triple_throw|]. apply locked_self_auth. rw !andb_true_r.
  destruct (Z.eqb_spec (c !!! 1%nat) CMD_AUTHENTICATE) as [_|Hne].
  { apply locked_auth_data with id; try done. intros. apply unlocked_command. }
  destruct Hroom as [Hauth|Hroom]; [done|].
  assert (Hpush : triple (locked_with h (len c) i)
    (with_app (λ s, set_pending_uni_commands (pending_uni_commands s ++ [c]) s))
    (λ _, conn_inv h) (conn_inv h)).
  { apply triple_with_app. intros w [Ha Hus Hby Hit Hst Htk Hhd]. left. split; try done.
    - rw /retained_bytes /= concat_snoc_len in Hby |- *. lia.
    - rw /retained_items /= len_app in Hit |- *. rw /len /= in Hit |- *. lia. }
  destruct (_ =? CMD_PACKET); [exact Hpush|]. destruct (_ =? CMD_DISSOCIATE); [exact Hpush|].
  by apply triple_throw.
Qed.

(** On an error the peer was heard up to some point of what it sent. *)
Definition conn_bounded (full : Heard) (w : World) : Prop :=
  ∃ h, (∀ id, h id `prefix_of` full id) ∧ conn_inv h w.

Lemma conn_inv_bounded h w : conn_inv h w → conn_bounded h w.
Proof. intros Hw. by exists h. Qed.
Lemma conn_bounded_mono h h' w :
  (∀ id, h id `prefix_of` h' id) → conn_bounded h w → conn_bounded h' w.
Proof. intros Hh (g & Hg & Hw). exists g. split; [|done]. intros id. trans (h id); [apply Hg|apply Hh]. Qed.
Lemma hear_prefix h id d j : h j `prefix_of` hear h id d j.
Proof. rw /hear. destruct (_ =? _); [by eexists|done]. Qed.

Lemma locked_hear h b i w id d c' :
  locked_with h b i w → uni_streams (app w) !! id = Some c' → (∀ c, c' = Receiving c → c `suffix_of` hear h id d id) →
  locked_with (hear h id d) b i w.
Proof.
  intros [Ha Hus Hby Hit Hst Htk Hhd] Hid Hc. split; try done. intros j c Hj.
  destruct (decide (j = id)) as [->|Hne]; [apply Hc; congruence|].
  rw /hear. destruct (Z.eqb_spec j id); [done|]. by apply Hhd.
Qed.

(** Appending to the command a stream has sent so far uses up what was
    reserved for it. *)
Lemma locked_receive h w id d :
  let known := uni_streams (app w) in
  let old := match known !! id with Some (Receiving c) => c | _ => [] end in
  known !! id ≠ Some UniAuthenticated →
  locked_with h (len d) (match known !! id with Some _ => 0 | None => 1 end) w →
  locked (hear h id d)
    (MkWorld (set_uni_streams (<[id := Receiving (old ++ d)]> known) (app w))
       (relays w) (udp_tasks w) (clock w) (ticks w)).
Proof.
  intros known old Hna [Ha Hus Hby Hit Hst Htk Hhd]. split; try done.
  - rw /retained_bytes /= msum_insert in Hby |- *. fold known in Hby |- *. subst old.
    destruct (known !! id) as [[c|]|] eqn:Hk; simpl; rw ?len_app ?len_nil; try lia.
  - rw /retained_items /= msum_insert in Hit |- *. fold known in Hit |- *.
    destruct (known !! id); simpl; lia.
  - intros j c. simpl. rw lookup_insert_Some. intros [[<- [= <-]]|[Hne Hj]].
    + rw /hear Z.eqb_refl. subst old. destruct (known !! id) as [[c|]|] eqn:Hk; [|done|].
      * destruct (Hhd id c Hk) as [pre ->]. exists pre. by rw app_assoc.
      * by exists (h id).
    + rw /hear. destruct (Z.eqb_spec j id); [done|]. by apply Hhd.
Qed.

(** Taking a command out of the table turns it into reserved space. *)
Lemma locked_take h w id c (fin : bool) :
  locked h w → uni_streams (app w) !! id = Some (Receiving c) →
  let m := delete id (uni_streams (app w)) in
  locked_with h (len c) (if fin then 1 else 0)
    (MkWorld (set_uni_streams (if fin then m else <[id := UniAuthenticated]> m) (app w))
       (relays w) (udp_tasks w) (clock w) (ticks w)).
Proof.
  intros [Ha Hus Hby Hit Hst Htk Hhd] Hid m.
  assert (Hb : msum command_len m = msum command_len (uni_streams (app w)) - len c).
  { rw /m msum_delete Hid. done. }
  assert (Hi : msum (λ _, 1) m = msum (λ _, 1) (uni_streams (app w)) - 1).
  { rw /m msum_delete Hid. done. }
  split; try done.
  - rw /retained_bytes /= in Hby |- *.
    destruct fin; [lia|]. rw msum_insert /m lookup_delete_eq. fold m. simpl. lia.
  - rw /retained_items /= in Hit |- *.
    destruct fin; [lia|]. rw msum_insert /m lookup_delete_eq. fold m. simpl. lia.
  - intros j c'. simpl. destruct fin; [|rw lookup_insert_Some; intros [[_ ?]|[_ Hj]]; [done|revert Hj]];
      rw /m lookup_delete_Some; intros [_ Hj]; by apply Hhd.
Qed.

(** The rest of [handle_unidirectional_stream] once the command was extended. *)
Lemma locked_finish h id c (fin auth_complete : bool) :
  (auth_complete = true → c !!! 1%nat = CMD_AUTHENTICATE) →
  triple (λ w, locked h w ∧ uni_streams (app w) !! id = Some (Receiving c))
    (if negb fin && negb auth_complete then mret ()
     else
       with_app (λ s, set_uni_streams (delete id (uni_streams s)) s) ;;
       when (negb fin)
         (with_app (λ s, set_uni_streams (<[id := UniAuthenticated]> (uni_streams s)) s)) ;;
       handle_unidirectional_command export_keying_material hash_order COMMAND_FUEL c)
    (λ _, conn_inv h) (conn_inv h).
Proof.
  intros Hauth w [Hw Hid]. pose proof (lk_heard _ _ _ _ Hw id c Hid) as Hsuf.
  destruct fin; simpl.
  - pose proof (locked_take h w id c true Hw Hid) as Ht.
    pose proof (locked_command h COMMAND_FUEL c 1 id Hsuf ltac:(lia) ltac:(right; lia) _ Ht) as Hc. exact Hc.
  - destruct auth_complete; simpl; [|by left].
    pose proof (locked_take h w id c false Hw Hid) as Ht.
    pose proof (locked_command h COMMAND_FUEL c 0 id Hsuf ltac:(lia) ltac:(left; by apply Hauth) _ Ht) as Hc.
    exact Hc.
Qed.

Lemma conn_receive h id d fin w0 old k :
  k = match uni_streams (app w0) !! id with Some _ => 0 | None => 1 end →
  uni_streams (app w0) !! id ≠ Some UniAuthenticated →
  match uni_streams (app w0) !! id with Some (Receiving c) => c | _ => [] end = old →
  triple (λ w, locked_with h (len d) k w ∧ same_data (app w0) (app w))
    (let command := old ++ d in
      with_app (λ s, set_uni_streams (<[id := Receiving command]> (uni_streams s)) s) ;;
      let auth_complete :=
        Nat.leb AUTHENTICATE_LEN (length command) && (command !!! 1%nat =? CMD_AUTHENTICATE) in
      if auth_complete && negb (Nat.eqb (length command) AUTHENTICATE_LEN)
      then throw (EMsg "unexpected data after tuic authentication")
      else if negb fin && negb auth_complete then mret ()
      else
        with_app (λ s, set_uni_streams (delete id (uni_streams s)) s) ;;
        when (negb fin)
          (with_app (λ s, set_uni_streams (<[id := UniAuthenticated]> (uni_streams s)) s)) ;;
        handle_unidirectional_command export_keying_material hash_order COMMAND_FUEL command)
    (λ _, conn_inv (hear h id d)) (conn_bounded (hear h id d)).
Proof.
  intros -> Hna Hold. cbv zeta.
  apply (triple_bind _ _ _ (λ _ w, locked (hear h id d) w ∧ uni_streams (app w) !! id = Some (Receiving (old ++ d)))).
  { apply triple_with_app. intros w [Hw [Hu _]]. rw -Hu in Hw, Hna, Hold. split.
    - rw -Hold. by apply locked_receive.
    - simpl. by rw lookup_insert_eq. }
  intros []. destruct (_ && negb _) eqn:Hlong.
  { apply triple_throw. intros w [Hw _]. apply conn_inv_bounded. by left. }
  eapply triple_conseq; [|apply (locked_finish (hear h id d) id (old ++ d) fin)| |]; try done.
  - by intros [_ ?%Z.eqb_eq]%andb_prop.
  - apply conn_inv_bounded.
Qed.

Lemma conn_uni_stream h id d fin :
  triple (conn_inv h) (handle_unidirectional_stream export_keying_material hash_order id d fin)
    (λ _, conn_inv (hear h id d)) (conn_bounded (hear h id d)).
Proof.
  apply triple_or; cycle 1.
  { eapply triple_conseq; [|apply (unlocked_uni_stream h id d fin)| |]; [done|intros ?|]; intros w Hw.
    - right. eapply unlocked_mono; [|exact Hw]. apply hear_prefix.
    - exists h. split; [apply hear_prefix|by right]. }
  intros w Hw. rw /handle_unidirectional_stream.
  assert (HE : ∀ b i w, 0 ≤ b → 0 ≤ i → locked_with h b i w → conn_bounded (hear h id d) w).
  { intros b i w' Hb Hi Hw'. exists h. split; [apply hear_prefix|by eapply conn_inv_locked]. }
  rw {1}/mbind {1}/SE_bind /self /gets.
  set (known := uni_streams (app w)).
  set (k := match known !! id with Some _ => 0 | None => 1 end).
  assert (Hk : 0 ≤ k) by (rw /k; case_match; lia).
  apply (locked_reserve_then h (len d) k (app w) _ (λ _, conn_inv (hear h id d)) (conn_bounded (hear h id d)));
    [apply len_nonneg|done|by intros; eapply (HE 0 0)| |done].
  pose proof (len_nonneg d) as Hd.
  destruct (known !! id) as [[c|]|] eqn:Hid; cbn [default from_option]; cycle 1.
  - (* the command was complete before *)
    intros w' [Hw' [Hu _]]. fold known in Hu. destruct (bool_decide_reflect (d = [])) as [->|Hne]; cbn [negb].
    2: by apply (HE _ _ _ Hd Hk).
    assert (locked (hear h id []) w').
    { eapply locked_hear; [eapply locked_less; [exact Hw'|lia..]|by rw Hu|done]. }
    destruct fin; simpl; [|by left].
    left. destruct H0 as [Ha Hus Hby Hit Hst Htk Hhd]. split; try done.
    + rw /retained_bytes /= msum_delete Hu Hid /= in Hby |- *. lia.
    + rw /retained_items /= msum_delete Hu Hid /= in Hit |- *. lia.
    + intros j c. simpl. rw lookup_delete_Some. intros [_ Hj]. by apply Hhd.
  - apply (conn_receive h id d fin w []); fold known; by rw Hid.
  - apply (conn_receive h id d fin w c); fold known; by rw Hid.
Qed.

(** ** Every other step keeps the invariant *)
Lemma conn_keeps {A} h (m : SE World A) :
  keeps (locked h) m → keeps (unlocked h) m → keeps (conn_inv h) m.
Proof.
  intros H1 H2. apply triple_or.
  - eapply triple_conseq; [|exact H1| |]; [done|intros ?..]; intros; by left.
  - eapply triple_conseq; [|exact H2| |]; [done|intros ?..]; intros; by right.
Qed.

Lemma conn_datagram h d : keeps (conn_inv h) (handle_datagram d).
Proof. apply conn_keeps; [apply locked_datagram|apply unlocked_datagram]. Qed.
Lemma conn_stream h i d f : keeps (conn_inv h) (handle_stream_data i d f).
Proof. apply conn_keeps; [apply locked_stream|apply unlocked_stream]. Qed.
Lemma conn_check h : keeps (conn_inv h) check_authentication_deadline.
Proof. apply conn_keeps; [apply locked_check|apply unlocked_check]. Qed.

(** Updates of the fields the invariant does not speak of. *)
Definition neutral (f : TuicApp → TuicApp) : Prop :=
  ∀ s, authenticated (f s) = authenticated s ∧ tuic_users (f s) = tuic_users s ∧
    pre_auth_bytes (f s) = pre_auth_bytes s ∧ pre_auth_items (f s) = pre_auth_items s ∧
    uni_streams (f s) = uni_streams s ∧ pending_uni_commands (f s) = pending_uni_commands s ∧
    pending_datagrams (f s) = pending_datagrams s ∧ pending_streams (f s) = pending_streams s ∧
    (streams s = ∅ → streams (f s) = ∅) ∧ (udp_sessions s = ∅ → udp_sessions (f s) = ∅) ∧
    (packet_assembler s = ∅ → packet_assembler (f s) = ∅).

Lemma conn_with_app h f : neutral f → keeps (conn_inv h) (with_app f).
Proof.
  intros Hf. apply conn_keeps.
  - apply triple_with_app. intros w [Ha Hus Hby Hit (Hs1 & Hs2 & Hs3) Htk Hhd].
    destruct (Hf (app w)) as (E1 & E2 & E3 & E4 & E5 & E6 & E7 & E8 & E9 & E10 & E11).
    split; rw /retained_bytes /retained_items /= ?E1 ?E2 ?E3 ?E4 ?E5 ?E6 ?E7 ?E8; auto.
  - apply unlocked_with_app. intros s. destruct (Hf s) as (E1 & E2 & _). by rw E1.
Qed.

Lemma conn_now h : keeps (conn_inv h) now.
Proof. apply conn_keeps; [apply locked_now|apply unlocked_now]. Qed.
Lemma conn_self {A} h (f : TuicApp → A) : keeps (conn_inv h) (self f).
Proof. apply keeps_gets. Qed.
Hint Resolve conn_datagram conn_stream conn_check conn_now conn_self : keeping.
Hint Extern 4 (keeps (conn_inv _) (with_app _)) =>
  (apply conn_with_app; intros ?; repeat split; simpl; (done || by intros ->)) : keeping.

Lemma evict_udp_neutral n : neutral (evict_idle_udp_sessions n).
Proof. intros s. repeat split; try done. simpl. intros ->. apply map_filter_empty. Qed.
Lemma evict_asm_neutral n t : neutral (λ s, set_packet_assembler (evict_idle n t (packet_assembler s)).1 s).
Proof. intros s. repeat split; try done. simpl. intros ->. apply map_filter_empty. Qed.
Hint Extern 3 (keeps (conn_inv _) (with_app _)) =>
  (apply conn_with_app; first [apply evict_udp_neutral | apply evict_asm_neutral]) : keeping.

Lemma conn_cleanup h : keeps (conn_inv h) maybe_cleanup_udp_state.
Proof.
  rw /maybe_cleanup_udp_state. keep_walk.
Qed.
Hint Resolve conn_cleanup : keeping.

Lemma conn_established h : keeps (conn_inv h) on_conn_established.
Proof. rw /on_conn_established. keep_walk. Qed.
Lemma conn_wait h o : keeps (conn_inv h) (wait_for_data o).
Proof. rw /wait_for_data /receive_write. keep_walk. Qed.
Lemma conn_task_queue h x : keeps (conn_inv h) (task_queue x).
Proof. rw /task_queue. keep_walk. Qed.

Lemma conn_touch h a : keeps (conn_inv h) (touch_udp_session a).
Proof.
  rw /touch_udp_session. apply conn_keeps.
  - apply (triple_bind _ _ _ (λ known w, known = ∅ ∧ locked h w)).
    { apply triple_gets. intros w Hw. split; [apply Hw|done]. }
    intros known. apply triple_pure. intros ->. rw lookup_empty. apply keeps_ret.
  - keep_walk.
Qed.
Hint Resolve conn_touch : keeping.

(** ** Reading *)

(** What was heard of a stream when its reads were handled. *)
Fixpoint hear_stream (h : Heard) (id : Z) (rs : list StreamRead) : Heard :=
  match rs with
  | ReadData d fin :: rs =>
      let h := if is_unidirectional id then hear h id d else h in
      if fin then h else hear_stream h id rs
  | _ => h
  end.
Fixpoint hear_all (h : Heard) (readable : list (Z * list StreamRead)) : Heard :=
  match readable with
  | [] => h
  | (id, rs) :: readable => hear_all (hear_stream h id rs) readable
  end.

Lemma hear_stream_prefix h id rs j : h j `prefix_of` hear_stream h id rs j.
Proof.
  revert h. induction rs as [|[d fin|e] rs IH]; intros h; simpl; [done| |done].
  assert (h j `prefix_of` (if is_unidirectional id then hear h id d else h) j)
    by (destruct (is_unidirectional id); [apply hear_prefix|done]).
  destruct fin; [done|]. etrans; [done|apply IH].
Qed.
Lemma hear_all_prefix h readable j : h j `prefix_of` hear_all h readable j.
Proof.
  revert h. induction readable as [|[id rs] l IH]; intros h; simpl; [done|].
  etrans; [apply (hear_stream_prefix h id rs)|apply IH].
Qed.

Lemma conn_read_stream h id rs :
  triple (conn_inv h) (read_stream export_keying_material hash_order id rs)
    (λ _, conn_inv (hear_stream h id rs)) (conn_bounded (hear_stream h id rs)).
Proof.
  revert h. induction rs as [|[d fin|e] rs IH]; intros h; simpl.
  - by apply triple_ret.
  - set (h' := if is_unidirectional id then hear h id d else h).
    apply (triple_bind _ _ _ (λ _, conn_inv h')).
    + eapply triple_conseq with (P := conn_inv h) (Q := λ _, conn_inv h') (E := conn_bounded h'); try done.
      * subst h'. destruct (is_unidirectional id); [apply conn_uni_stream|].
        apply keeps_weaken_err; [apply conn_stream|apply conn_inv_bounded].
      * intros w Hw. destruct fin; [done|].
        eapply conn_bounded_mono; [|exact Hw]. apply hear_stream_prefix.
    + intros []. destruct fin; [by apply triple_ret|]. apply IH.
  - apply triple_throw. apply conn_inv_bounded.
Qed.

(** ** Writing and the tasks *)
Section conn.
Context {Q : Type} `{!QuicConn Q}.

Definition first_is (I : World → Prop) : World * Q → Prop := λ wq, I wq.1.

Lemma keeps_on_world {A} I (m : SE World A) : keeps I m → keeps (first_is I) (on_world m).
Proof.
  intros Hm [w q] Hw. specialize (Hm w Hw). rw /on_world. destruct (m w) as [[a|e] w']; exact Hm.
Qed.
Lemma keeps_on_conn {A} I (m : Q → A * Q) : keeps (first_is I) (on_conn m).
Proof. intros [w q] Hw. rw /on_conn. destruct (m q). exact Hw. Qed.
Hint Resolve keeps_on_conn : keeping.
Hint Extern 2 (keeps (first_is _) (on_world _)) => (apply keeps_on_world) : keeping.

Lemma triple_on_world {A} P (m : SE World A) R E :
  triple P m R E → triple (first_is P) (on_world m) (λ a, first_is (R a)) (first_is E).
Proof. intros Hm [w q] Hw. specialize (Hm w Hw). rw /on_world. destruct (m w) as [[a|e] w']; exact Hm. Qed.

Lemma conn_reads h readable dgrams :
  triple (first_is (conn_inv h)) (process_reads export_keying_material hash_order readable dgrams)
    (λ _, first_is (conn_inv (hear_all h readable))) (first_is (conn_bounded (hear_all h readable))).
Proof.
  assert (Hstart : ∀ (m : SE World ()), keeps (conn_inv h) m →
    triple (first_is (conn_inv h)) (on_world m) (λ _, first_is (conn_inv h)) (first_is (conn_bounded (hear_all h readable)))).
  { intros m Hm. apply (triple_on_world (conn_inv h) m (λ _, conn_inv h)). apply keeps_weaken_err; [done|]. intros w Hw.
    eapply conn_bounded_mono; [|apply conn_inv_bounded, Hw]. apply hear_all_prefix. }
  rw /process_reads. eapply triple_bind; [apply Hstart, conn_check|]. intros [].
  eapply triple_bind; [apply Hstart, conn_cleanup|]. intros [].
  apply (triple_bind _ _ _ (λ _, first_is (conn_inv (hear_all h readable)))).
  - clear Hstart. apply (triple_on_world (conn_inv h) _ (λ _, conn_inv (hear_all h readable))).
    revert h. induction readable as [|[id rs] l IH]; intros h; simpl; [by apply triple_ret|].
    apply (triple_bind _ _ _ (λ _, conn_inv (hear_stream h id rs))); [|intros []; apply IH].
    eapply triple_conseq; [|apply (conn_read_stream h id rs)| |]; try done.
    intros w Hw. eapply conn_bounded_mono; [|exact Hw]. apply hear_all_prefix.
  - intros []. apply keeps_weaken_err; [|intros w; apply conn_inv_bounded]. apply keeps_for_each.
    intros d. rw /read_datagram. keep_walk.
Qed.

Lemma conn_requeue h a d max : keeps (conn_inv h) (requeue_fragments a d max).
Proof. rw /requeue_fragments /push_front. keep_walk. Qed.
Lemma conn_touch_assoc h a : keeps (conn_inv h) (touch_assoc a).
Proof. rw /touch_assoc. keep_walk. Qed.
Lemma conn_uni_id h o : keeps (conn_inv h) (uni_stream_id o).
Proof. rw /uni_stream_id. keep_walk. Qed.
Lemma conn_push_front h x : keeps (conn_inv h) (push_front x).
Proof. rw /push_front. keep_walk. Qed.
Lemma conn_close h id : keeps (conn_inv h) (with_app (λ s, set_streams (delete id (streams s)) s)).
Proof. apply conn_with_app. intros s. repeat split; try done. simpl. intros ->. apply delete_empty. Qed.
Hint Resolve conn_requeue conn_touch_assoc conn_uni_id conn_push_front conn_close : keeping.

Lemma conn_write_one h x : keeps (first_is (conn_inv h)) (write_one x).
Proof. rw /write_one. keep_walk. Qed.
Hint Resolve conn_write_one : keeping.
Lemma conn_write_loop h fuel : keeps (first_is (conn_inv h)) (write_loop fuel).
Proof. induction fuel as [|fuel IH]; simpl; keep_walk. Qed.
Hint Resolve conn_write_loop : keeping.
Lemma conn_writes h : keeps (first_is (conn_inv h)) process_writes.
Proof. rw /process_writes. keep_walk. Qed.

Lemma conn_on_relay h i f : keeps (conn_inv h) (on_relay i f).
Proof.
  apply conn_keeps.
  - apply triple_modify. intros w [Ha Hus Hby Hit Hst [Hr Hu] Hhd]. split; try done. simpl. by rw Hr.
  - apply triple_modify. intros w Hw. exact Hw.
Qed.
Lemma conn_on_udp h i f : keeps (conn_inv h) (on_udp_task i f).
Proof.
  apply conn_keeps.
  - apply triple_modify. intros w [Ha Hus Hby Hit Hst [Hr Hu] Hhd]. split; try done. simpl. by rw Hu.
  - apply triple_modify. intros w Hw. exact Hw.
Qed.
Hint Resolve conn_on_relay conn_on_udp conn_writes conn_established conn_wait conn_task_queue : keeping.

(** All that was heard in a run. *)
Fixpoint hear_events (h : Heard) (evs : list ConnEvent) : Heard :=
  match evs with
  | [] => h
  | Reads readable _ :: evs => hear_events (hear_all h readable) evs
  | _ :: evs => hear_events h evs
  end.

Lemma hear_events_prefix h evs j : h j `prefix_of` hear_events h evs j.
Proof.
  revert h. induction evs as [|ev evs IH]; intros h; simpl; [done|]. destruct ev; try apply IH.
  etrans; [apply hear_all_prefix|apply IH].
Qed.

Lemma conn_run_inv h evs :
  triple (first_is (conn_inv h)) (conn_run export_keying_material hash_order evs)
    (λ _, first_is (conn_inv (hear_events h evs))) (first_is (conn_bounded (hear_events h evs))).
Proof.
  revert h. induction evs as [|ev evs IH]; intros h; [by apply triple_ret|].
  assert (Hbound : ∀ w, conn_inv h w → conn_bounded (hear_events h evs) w).
  { intros w Hw. eapply conn_bounded_mono; [|apply conn_inv_bounded, Hw]. apply hear_events_prefix. }
  assert (Hkeep : keeps (first_is (conn_inv h)) (conn_event export_keying_material hash_order ev) →
    hear_events h (ev :: evs) = hear_events h evs →
    triple (first_is (conn_inv h)) (conn_run export_keying_material hash_order (ev :: evs))
      (λ _, first_is (conn_inv (hear_events h (ev :: evs)))) (first_is (conn_bounded (hear_events h (ev :: evs))))).
  { intros Hk ->. apply (triple_bind _ _ _ (λ _, first_is (conn_inv h))); [|intros []; apply IH].
    apply keeps_weaken_err; [done|]. intros [w q] Hw. by apply Hbound. }
  destruct ev; try (apply Hkeep; [rw /conn_event; keep_walk|done]). clear Hkeep. simpl.
  apply (triple_bind _ _ _ (λ _, first_is (conn_inv (hear_all h readable)))); [|intros []; apply IH].
  intros wq Hw. pose proof (conn_reads h readable dgrams wq Hw) as Hr. rw /conn_event.
  destruct (process_reads _ _ readable dgrams wq) as [[[]|e] wq']; [exact Hr|].
  eapply conn_bounded_mono; [|exact Hr]. apply hear_events_prefix.
Qed.

Definition world_new (inb : bytes) (n1 n2 : Z) (cl : nat → Z) (t : nat) : World :=
  MkWorld (app_new inb configured n1 n2) [] [] cl t.

Lemma locked_new inb n1 n2 cl t : locked (λ _, []) (world_new inb n1 n2 cl t).
Proof.
  by split.
Qed.

Lemma locked_bounds h w :
  locked h w → 0 ≤ retained_bytes (app w) ≤ MAX_PRE_AUTH_BYTES ∧ 0 ≤ retained_items (app w) ≤ MAX_PRE_AUTH_ITEMS.
Proof.
  intros [_ _ Hb Hi _ _ _]. pose proof (retained_bytes_nonneg (app w)).
  pose proof (retained_items_nonneg (app w)). lia.
Qed.

(** C1: Whatever a peer sends, in whatever order the callbacks of a connection
    run, and also when the run ends in an error: either the connection is not
    authenticated, and then it has started no relay and no UDP session, keeps no
    reassembly state, and holds at most 256 KiB in at most 256 items for later;
    or the peer has sent on some unidirectional stream a command that names a
    configured user and carries the token the TLS session exports for that
    user's identity and password. *)
Theorem no_service_before_authentication inb n1 n2 cl t (q : Q) evs :
  let w' := (conn_run export_keying_material hash_order evs (world_new inb n1 n2 cl t, q)).2.1 in
  (authenticated (app w') = false ∧ relays w' = [] ∧ udp_tasks w' = [] ∧
   streams (app w') = ∅ ∧ udp_sessions (app w') = ∅ ∧ packet_assembler (app w') = ∅ ∧
   0 ≤ retained_bytes (app w') ≤ MAX_PRE_AUTH_BYTES ∧ 0 ≤ retained_items (app w') ≤ MAX_PRE_AUTH_ITEMS) ∨
  (authenticated (app w') = true ∧ credential (hear_events (λ _, []) evs)).
Proof.
  intros w'. subst w'.
  pose proof (conn_run_inv (λ _, []) evs (world_new inb n1 n2 cl t, q)
    (or_introl (locked_new inb n1 n2 cl t))) as Hrun.
  assert (Hb : conn_bounded (hear_events (λ _, []) evs)
    (conn_run export_keying_material hash_order evs (world_new inb n1 n2 cl t, q)).2.1).
  { destruct (conn_run _ _ evs _) as [[[]|e] [w' q']]; [by apply conn_inv_bounded|exact Hrun]. }
  destruct Hb as (h & Hpre & [Hl|Hu]).
  - left. pose proof (locked_bounds _ _ Hl). destruct Hl as [Ha _ _ _ (? & ? & ?) [? ?] _]. done.
  - right. apply (unlocked_mono _ _ _ Hpre) in Hu as (Ha & _ & Hc). done.
Qed.

(** The deadline: only the establishment of the connection sets it. *)
Definition due (d : Z) (w : World) : Prop := authentication_deadline (app w) = d.
Lemma due_with_app d f : (∀ s, authentication_deadline (f s) = authentication_deadline s) → keeps (due d) (with_app f).
Proof. intros Hf. apply triple_modify. intros w. by rw /due /= Hf. Qed.
Lemma due_now d : keeps (due d) now.
Proof. intros w Hw. exact Hw. Qed.
Lemma due_self {A} d (f : TuicApp → A) : keeps (due d) (self f).
Proof. apply keeps_gets. Qed.
Lemma due_spawn_relay d s i b : keeps (due d) (spawn_relay s i b).
Proof. intros w Hw. exact Hw. Qed.
Lemma due_spawn_udp d a m n : keeps (due d) (spawn_udp_session a m n).
Proof. intros w Hw. exact Hw. Qed.
Lemma due_relay_send d i x : keeps (due d) (relay_try_send i x).
Proof. intros w Hw. rw /relay_try_send. destruct (_ !! _); [destruct (try_send _ _)|]; exact Hw. Qed.
Lemma due_udp_send d i r : keeps (due d) (udp_try_send i r).
Proof. intros w Hw. rw /udp_try_send. destruct (_ !! _); [destruct (try_send _ _)|]; exact Hw. Qed.
Lemma due_on_relay d i f : keeps (due d) (on_relay i f).
Proof. apply triple_modify. intros w Hw. exact Hw. Qed.
Lemma due_on_udp d i f : keeps (due d) (on_udp_task i f).
Proof. apply triple_modify. intros w Hw. exact Hw. Qed.
Hint Resolve due_now due_self due_spawn_relay due_spawn_udp due_relay_send due_udp_send due_on_relay due_on_udp : keeping.
Hint Extern 3 (keeps (due _) (with_app _)) => (by apply due_with_app) : keeping.

Lemma due_reserve d b i : keeps (due d) (reserve_pre_auth b i).
Proof. rw /reserve_pre_auth /check_authentication_deadline. keep_walk. Qed.
Hint Resolve due_reserve : keeping.
Lemma due_packet d x m : keeps (due d) (handle_packet x m).
Proof. rw /handle_packet /assemble. keep_walk. Qed.
Hint Resolve due_packet : keeping.
Lemma due_datagram d x : keeps (due d) (handle_datagram x).
Proof. rw /handle_datagram /check_authentication_deadline. keep_walk. Qed.
Lemma due_stream d i x f : keeps (due d) (handle_stream_data i x f).
Proof. rw /handle_stream_data. keep_walk. Qed.
Hint Resolve due_datagram due_stream : keeping.
Lemma due_command d fuel c : keeps (due d) (handle_unidirectional_command export_keying_material hash_order fuel c).
Proof.
  revert c. induction fuel as [|fuel IH]; intros c; simpl; [apply keeps_throw|].
  rw /handle_auth_data /check_authentication_deadline. keep_walk.
Qed.
Hint Resolve due_command : keeping.
Lemma due_read d i rs : keeps (due d) (read_stream export_keying_material hash_order i rs).
Proof. induction rs as [|r rs IH]; cbn [read_stream]; [apply keeps_ret|]. rw /handle_unidirectional_stream. keep_walk. Qed.
Lemma due_requeue d a x max : keeps (due d) (requeue_fragments a x max).
Proof. rw /requeue_fragments /push_front. keep_walk. Qed.
Hint Resolve due_read due_requeue : keeping.
Lemma due_touch d a : keeps (due d) (touch_assoc a).
Proof. rw /touch_assoc /touch_udp_session. keep_walk. Qed.
Lemma due_uni_id d o : keeps (due d) (uni_stream_id o).
Proof. rw /uni_stream_id. keep_walk. Qed.
Lemma due_push_front d x : keeps (due d) (push_front x).
Proof. rw /push_front. keep_walk. Qed.
Lemma due_check d : keeps (due d) check_authentication_deadline.
Proof. rw /check_authentication_deadline. keep_walk. Qed.
Lemma due_cleanup d : keeps (due d) maybe_cleanup_udp_state.
Proof. rw /maybe_cleanup_udp_state. keep_walk. Qed.
Hint Resolve due_touch due_uni_id due_push_front due_check due_cleanup : keeping.
Lemma due_wait d r : keeps (due d) (wait_for_data r).
Proof. rw /wait_for_data /receive_write. keep_walk. Qed.
Lemma due_task_queue d x : keeps (due d) (task_queue x).
Proof. rw /task_queue. keep_walk. Qed.
Lemma due_all_reads d readable :
  keeps (due d) (for_each (λ '(stream_id, rs), read_stream export_keying_material hash_order stream_id rs) readable).
Proof. apply keeps_for_each. intros []. apply due_read. Qed.
Hint Resolve due_wait due_task_queue due_all_reads : keeping.
Lemma due_write_one d x : keeps (first_is (due d)) (write_one x).
Proof. rw /write_one. keep_walk. Qed.
Hint Resolve due_write_one : keeping.
Lemma due_write_loop d fuel : keeps (first_is (due d)) (write_loop fuel).
Proof. induction fuel as [|fuel IH]; simpl; keep_walk. Qed.
Hint Resolve due_write_loop : keeping.

Lemma due_event d ev : ev ≠ Established → keeps (first_is (due d)) (conn_event export_keying_material hash_order ev).
Proof.
  intros Hne. rw /conn_event. destruct ev; [done|..];
    rw /process_reads /read_datagram /process_writes; keep_walk.
Qed.

Lemma due_run d evs wq :
  Forall (λ ev, ev ≠ Established) evs → due d wq.1 → due d (conn_run export_keying_material hash_order evs wq).2.1.
Proof.
  intros Hevs. revert wq. induction Hevs as [|ev evs Hne _ IH]; intros wq Hw; [done|].
  rw /conn_run. cbn [for_each]. rw {1}/mbind {1}/SE_bind. pose proof (due_event d ev Hne wq Hw) as He.
  destruct (conn_event _ _ ev wq) as [[[]|e] wq']; [|exact He]. by apply IH.
Qed.

(** C20: The authentication deadline is enforced. Establishing a connection sets
    the deadline ten seconds after the clock then, and nothing that happens
    afterwards moves it. On a connection that is not authenticated once the
    clock has reached the deadline, waiting, reading and writing (the callbacks
    that run after the establishment) all fail with the timeout before they
    touch the connection's state or send anything. *)
Theorem deadline_enforced w (q : Q) readable dgrams received :
  authentication_deadline (app (on_conn_established w).2) = clock w (ticks w) + AUTHENTICATION_TIMEOUT ∧
  (∀ evs, Forall (λ ev, ev ≠ Established) evs →
     authentication_deadline (app (conn_run export_keying_material hash_order evs (w, q)).2.1) = authentication_deadline (app w)) ∧
  (authenticated (app w) = false → authentication_deadline (app w) ≤ clock w (ticks w) →
   let timed_out := λ r : Result (), r = Err (EMsg "tuic authentication timed out") in
   let ran := λ (rw : Result () * World), timed_out rw.1 ∧ app rw.2 = app w in
   ran (wait_for_data received w) ∧
   (let '(r, (w', q')) := process_reads export_keying_material hash_order readable dgrams (w, q) in ran (r, w') ∧ q' = q) ∧
   (let '(r, (w', q')) := process_writes (w, q) in ran (r, w') ∧ q' = q)).
Proof.
  split; [done|]. split; [intros evs Hevs; by apply due_run|]. intros Ha Hd timed_out ran.
  assert (Hcheck : check_authentication_deadline w = (Err (EMsg "tuic authentication timed out"),
    MkWorld (app w) (relays w) (udp_tasks w) (clock w) (S (ticks w)))).
  { rw /check_authentication_deadline /self /gets /mbind /SE_bind Ha /=.
    by apply Z.leb_le in Hd as ->. }
  split_and!.
  - rw /wait_for_data (SE_bind_err _ _ _ _ _ Hcheck). done.
  - rw /process_reads {1}/mbind {1}/SE_bind /on_world Hcheck. done.
  - rw /process_writes {1}/mbind {1}/SE_bind /on_world Hcheck. done.
Qed.
End conn.

(** ** The nesting of commands *)
Lemma for_each_ext {S A} (P : S → Prop) (f g : A → SE S ()) l s :
  (∀ x s, P s → f x s = g x s) → (∀ x, keeps P (g x)) → P s → for_each f l s = for_each g l s.
Proof.
  intros Hfg Hg. revert s. induction l as [|x l IH]; intros s Hs; simpl; [done|].
  rw /mbind /SE_bind Hfg; [done|]. specialize (Hg x s Hs). destruct (g x s) as [[[]|e] s']; [|done].
  by apply IH.
Qed.

(** Authenticated, with no command held back. *)
Definition drained (w : World) : Prop :=
  authenticated (app w) = true ∧ pending_uni_commands (app w) = [].

Lemma drained_with_app f :
  (∀ s, authenticated s = true → pending_uni_commands s = [] →
     authenticated (f s) = true ∧ pending_uni_commands (f s) = []) → keeps drained (with_app f).
Proof. intros Hf. apply triple_with_app. intros w [H1 H2]. by apply Hf. Qed.
Lemma drained_now : keeps drained now.
Proof. intros w Hw. exact Hw. Qed.
Lemma drained_self {A} (f : TuicApp → A) : keeps drained (self f).
Proof. apply keeps_gets. Qed.
Lemma drained_spawn_relay s i b : keeps drained (spawn_relay s i b).
Proof. intros w Hw. exact Hw. Qed.
Lemma drained_spawn_udp a m n : keeps drained (spawn_udp_session a m n).
Proof. intros w Hw. exact Hw. Qed.
Lemma drained_relay_send i d : keeps drained (relay_try_send i d).
Proof. intros w Hw. rw /relay_try_send. destruct (_ !! _); [destruct (try_send _ _)|]; exact Hw. Qed.
Lemma drained_udp_send i r : keeps drained (udp_try_send i r).
Proof. intros w Hw. rw /udp_try_send. destruct (_ !! _); [destruct (try_send _ _)|]; exact Hw. Qed.
Hint Resolve drained_now drained_self drained_spawn_relay drained_spawn_udp drained_relay_send
  drained_udp_send : keeping.
Hint Extern 3 (keeps drained (with_app _)) => (apply drained_with_app; intros ? ? ?; by split) : keeping.

Lemma drained_self_auth {B} (f : bool → SE World B) :
  keeps drained (f true) → keeps drained (auth ← self authenticated; f auth).
Proof.
  intros Hf. apply (triple_bind _ _ _ (λ auth w, auth = true ∧ drained w)).
  - apply triple_gets. intros w Hw. split; [apply Hw|done].
  - intros auth. apply triple_pure. by intros ->.
Qed.

Lemma drained_check : keeps drained check_authentication_deadline.
Proof. rw /check_authentication_deadline. keep_walk. Qed.
Hint Resolve drained_check : keeping.
Lemma drained_reserve b i : keeps drained (reserve_pre_auth b i).
Proof. rw /reserve_pre_auth. keep_walk. Qed.
Hint Resolve drained_reserve : keeping.
Lemma drained_packet d m : keeps drained (handle_packet d m).
Proof. rw /handle_packet /assemble. keep_walk. Qed.
Hint Resolve drained_packet : keeping.
Lemma drained_datagram d : keeps drained (handle_datagram d).
Proof. rw /handle_datagram. keep_walk. Qed.
Lemma drained_stream i d f : keeps drained (handle_stream_data i d f).
Proof. rw /handle_stream_data. keep_walk. Qed.
Hint Resolve drained_datagram drained_stream : keeping.

Lemma drained_command fuel c :
  keeps drained (handle_unidirectional_command export_keying_material hash_order fuel c).
Proof.
  revert c. induction fuel as [|fuel IH]; intros c; simpl; [apply keeps_throw|].
  case_match; [apply keeps_throw|]. apply drained_self_auth. rw !andb_false_r.
  destruct (_ =? CMD_AUTHENTICATE); [|keep_walk]. rw /handle_auth_data. keep_walk.
Qed.

(** Two handlers that agree on the commands held back make no difference. *)
Lemma SE_bind_ext {S A B} (m : SE S A) (f g : A → SE S B) s :
  (∀ a s', m s = (Ok a, s') → f a s' = g a s') → (m ≫= f) s = (m ≫= g) s.
Proof. intros H'. rw /mbind /SE_bind. destruct (m s) as [[a|e] s'] eqn:E; [by apply H'|done]. Qed.

Lemma auth_data_ext (f g : bytes → SE World ()) c w :
  (∀ w', drained w' → for_each f (pending_uni_commands (app w)) w' =
                      for_each g (pending_uni_commands (app w)) w') →
  handle_auth_data export_keying_material hash_order f c w =
  handle_auth_data export_keying_material hash_order g c w.
Proof.
  intros Hfg. rw /handle_auth_data. apply SE_bind_ext. intros [] w1 Hw1%check_same.
  apply SE_bind_ext. intros [uuid presented] w2 [= _ <-].
  apply SE_bind_ext. intros us w3 [= _ <-]. destruct (find _ us) as [user|]; [|done].
  apply SE_bind_ext. intros tok w4 [= _ <-]. destruct (negb _); [done|].
  apply SE_bind_ext. intros [] w5 [= <-]. apply SE_bind_ext. intros cs w6 [= <- <-].
  apply SE_bind_ext. intros [] w7 [= <-]. simpl. rw Hw1.
  rw {1}/mbind {1}/SE_bind Hfg; [done|]. done.
Qed.

Lemma command_step (f g : nat) c w :
  (∀ w', drained w' → for_each (handle_unidirectional_command export_keying_material hash_order f)
      (pending_uni_commands (app w)) w' =
    for_each (handle_unidirectional_command export_keying_material hash_order g)
      (pending_uni_commands (app w)) w') →
  handle_unidirectional_command export_keying_material hash_order (S f) c w =
  handle_unidirectional_command export_keying_material hash_order (S g) c w.
Proof.
  intros Hfg. cbn [handle_unidirectional_command]. case_match; [done|].
  apply SE_bind_ext. intros auth w1 [= <- <-].
  destruct (_ =? CMD_AUTHENTICATE); [|done]. by apply auth_data_ext.
Qed.

(** Handling a command terminates: the authentication command runs the
    commands held back, which may authenticate again, but then nothing is held
    back any more. On every state any greater nesting bound gives the same
    result as the one used. *)
Lemma command_nesting n c w :
  handle_unidirectional_command export_keying_material hash_order (2 + n) c w =
  handle_unidirectional_command export_keying_material hash_order COMMAND_FUEL c w.
Proof.
  assert (H1 : ∀ k c w, drained w →
    handle_unidirectional_command export_keying_material hash_order (S k) c w =
    handle_unidirectional_command export_keying_material hash_order 1 c w).
  { intros k c' w' [_ Hw']. apply command_step. intros w'' _. by rw Hw'. }
  assert (H2 : ∀ k, handle_unidirectional_command export_keying_material hash_order (S (S k)) c w =
    handle_unidirectional_command export_keying_material hash_order 2 c w).
  { intros k. apply command_step. intros w' Hw'. apply (for_each_ext drained); [|apply drained_command|done].
    intros x s Hs. by apply H1. }
  rw /COMMAND_FUEL !H2. done.
Qed.
End auth.

#[local] Instance idle_conn : QuicConn () := {|
  stream_send _ _ _ q := (Done, q);
  dgram_send _ q := (Done, q);
  dgram_max_writable_len _ := None;
|}.

Lemma deadline_enforced_witness :
  let w := MkWorld (app_new (str "in") [] 0 0) [] [] (λ _, AUTHENTICATION_TIMEOUT) 0 in
  let timed_out := λ r : Result (), r = Err (EMsg "tuic authentication timed out") in
  let ran := λ (rw : Result () * World), timed_out rw.1 ∧ app rw.2 = app w in
  ran (wait_for_data true w) ∧
  (let '(r, (w', q')) := process_reads (λ _ _, None) (λ _, []) [(2, [ReadData [5; 0] false])] [] (w, ()) in ran (r, w') ∧ q' = ()) ∧
  (let '(r, (w', q')) := process_writes (w, ()) in ran (r, w') ∧ q' = ()).
Proof.
  apply (deadline_enforced (λ _ _, None) (λ _, [])
    (MkWorld (app_new (str "in") [] 0 0) [] [] (λ _, AUTHENTICATION_TIMEOUT) 0) ()
    [(2, [ReadData [5; 0] false])] [] true); [reflexivity|vm_compute; discriminate].
Defined.
