(* ===== verification/TuicStreams.v ===== *)
(** * Data through a TUIC connection

    Streams opened by CONNECT: what the relay gets does not depend on how the
    transport cuts the stream. The write queue: nothing is lost or reordered,
    and emptying it terminates. UDP sessions whose task has ended. *)
From S2P Require Import Prelude Text Net Config TuicCodec TuicFragment TuicLayout TuicInbound.

(** ** Streams *)
Lemma try_send_room {A} (x : A) q cap :
  (length q < cap)%nat → try_send x (MkChan q cap false) = Some (MkChan (q ++ [x]) cap false).
Proof. intros Hq. rw /try_send /=. by destruct (Nat.leb_spec cap (length q)); [lia|]. Qed.

(** Sending to the task spawned last. *)
Lemma relay_send_last w rs s id init q cap d :
  relays w = rs ++ [MkRelay s id init (MkChan q cap false)] → (length q < cap)%nat →
  relay_try_send (length rs) d w =
    (Ok true, MkWorld (app w) (rs ++ [MkRelay s id init (MkChan (q ++ [d]) cap false)])
                (udp_tasks w) (clock w) (ticks w)).
Proof.
  intros Hr Hq. rw /relay_try_send Hr list_lookup_middle; [done|]. cbn [rl_rx].
  rw try_send_room; [done|]. by rw insert_app_r_alt; [lia|rw Nat.sub_diag].
Qed.

Section streams.
Context `{!TuicCore, !TuicCoreLaws}.
Variables (id : Z) (sess : Session) (rs0 : list Relay) (hd : bytes).

(** The data of a stream is fed piece by piece. *)
Definition feed (pieces : list bytes) : SE World () :=
  for_each (λ d, handle_stream_data id d false) pieces.

(** The header is not complete: the bytes so far are held. *)
Definition waiting (b : bytes) (w : World) : Prop :=
  authenticated (app w) = true ∧ streams (app w) !! id = None ∧ relays w = rs0 ∧
  inbound (app w) = session_inbound sess ∧
  default default_pending (pending_streams (app w) !! id) = MkPending b false.

(** The relay runs: the bytes after the header are in its hands. *)
Definition relaying (b : bytes) (k : nat) (w : World) : Prop :=
  authenticated (app w) = true ∧ streams (app w) !! id = Some (MkStreamState (length rs0)) ∧
  ∃ initial queue, relays w = rs0 ++ [MkRelay sess id initial (MkChan queue CHANNEL_CAPACITY false)] ∧
    hd ++ initial ++ concat queue = b ∧ (length queue ≤ k)%nat.

Lemma relaying_step b k w d :
  relaying b k w → (k < CHANNEL_CAPACITY)%nat →
  ∃ w', handle_stream_data id d false w = (Ok (), w') ∧ relaying (b ++ d) (S k) w'.
Proof.
  intros (Ha & Hs & initial & queue & Hr & Hb & Hq) Hk.
  rw /handle_stream_data. rw {1}/mbind {1}/SE_bind /self /gets Ha. cbn [negb].
  rw {1}/mbind {1}/SE_bind. rw Hs. cbn [client_tx].
  destruct (bool_decide_reflect (d = [])) as [->|Hne]; cbn [negb].
  - exists w. split; [done|]. split_and!; [done..|]. exists initial, queue. rw app_nil_r. split_and!; [done..|lia].
  - rw {1}/mbind {1}/SE_bind (relay_send_last _ _ _ _ _ _ _ d Hr); [lia|].
    eexists. split; [done|]. split_and!; [done..|]. exists initial, (queue ++ [d]).
    split_and!; [done| |rw length_app /=; lia].
    by rw concat_app /= app_nil_r -Hb -!app_assoc.
Qed.

Hypothesis Hcut : ∀ k, (k < length hd)%nat → try_parse_connect (take k hd) = Ok None.
Hypothesis Hall : ∀ rest,
  try_parse_connect (hd ++ rest) = Ok (Some (session_target sess, length hd)).
Hypothesis Hcmd : session_command sess = Connect.

(** What happens to the held bytes when more arrive, as one computation. *)
Lemma waiting_run b w d :
  waiting b w →
  ∃ w1, relays w1 = rs0 ∧ inbound (app w1) = session_inbound sess ∧ authenticated (app w1) = true ∧
    streams (app w1) !! id = None ∧
    handle_stream_data id d false w =
      (parsed ← lift (try_parse_connect (b ++ d));
       match parsed with
       | None => with_app (λ s, set_pending_streams (<[id := MkPending (b ++ d) false]> (pending_streams s)) s)
       | Some (tgt, consumed) =>
           i ← spawn_relay (MkSession (session_inbound sess) Connect tgt) id (drop consumed (b ++ d));
           with_app (λ s, set_streams (<[id := MkStreamState i]> (streams s)) s)
       end) w1.
Proof using Type.
  intros (Ha & Hs & Hr & Hi & Hp).
  exists (MkWorld (set_pending_streams (delete id (pending_streams (app w))) (app w))
    (relays w) (udp_tasks w) (clock w) (ticks w)). split_and!; [done..|].
  rw /handle_stream_data {1}/mbind {1}/SE_bind /self /gets Ha. cbn [negb].
  rw {1}/mbind {1}/SE_bind Hs. rw {1}/mbind {1}/SE_bind Hp. rw {1}/mbind {1}/SE_bind /with_app {1}/modify.
  cbn [ps_data ps_fin orb]. rw /lift /mbind /SE_bind.
  destruct (try_parse_connect (b ++ d)) as [[[tgt consumed]|]|]; [|done..]. simpl. by rw Hi.
Qed.

Lemma waiting_step b w d rest :
  waiting b w → (length b < length hd)%nat → b ++ d `prefix_of` hd ++ rest →
  ∃ w', handle_stream_data id d false w = (Ok (), w') ∧
    (if decide (length (b ++ d) < length hd)%nat then waiting (b ++ d) w'
     else relaying (b ++ d) 0 w').
Proof using Hcut Hall Hcmd.
  intros Hw Hb Hpre. destruct (waiting_run b w d Hw) as (w1 & Hr & Hi & Ha & Hs & ->).
  rw {1}/mbind {1}/SE_bind /lift. case_decide as Hlen.
  - assert (b ++ d = take (length (b ++ d)) hd) as E.
    { destruct Hpre as [k Hk]. rw -(take_app_le _ rest); [lia|]. by rw Hk take_app_length. }
    rw E Hcut; [done|]. rw -E. eexists. split; [done|]. split_and!; [done..|].
    simpl. by rw lookup_insert_eq.
  - assert (∃ r, b ++ d = hd ++ r) as [r E].
    { destruct Hpre as [k Hk]. exists (drop (length hd) (b ++ d)).
      rw -{1}(take_drop (length hd) (b ++ d)). f_equal.
      rw -(take_app_le (b ++ d) k); [lia|]. by rw -Hk take_app_length. }
    rw E Hall. rw {1}/mbind {1}/SE_bind {1}/spawn_relay.
    eexists. split; [done|]. split_and!; [done|simpl; rw Hr lookup_insert_eq; done|].
    exists r, []. simpl. rw Hr drop_app_length -Hcmd. split_and!; [by destruct sess|by rw app_nil_r|lia].
Qed.

Lemma feed_relaying pieces b k w :
  relaying b k w → (k + length pieces ≤ CHANNEL_CAPACITY)%nat →
  ∃ w', feed pieces w = (Ok (), w') ∧ relaying (b ++ concat pieces) (k + length pieces) w'.
Proof using Type.
  revert b k w. induction pieces as [|d ps IH]; intros b k w Hw Hk; simpl in *.
  { exists w. rw app_nil_r Nat.add_0_r. done. }
  destruct (relaying_step b k w d Hw) as (w1 & Hd & Hw1); [lia|].
  destruct (IH (b ++ d) (S k) w1 Hw1) as (w' & Hf & Hw'); [lia|].
  exists w'. rw /feed /= {1}/mbind {1}/SE_bind Hd. split; [exact Hf|].
  rw -app_assoc in Hw'. by replace (k + S (length ps))%nat with (S k + length ps)%nat by lia.
Qed.

Lemma feed_waiting pieces b w rest :
  waiting b w → (length b < length hd)%nat → (length pieces ≤ CHANNEL_CAPACITY)%nat →
  b ++ concat pieces = hd ++ rest →
  ∃ w', feed pieces w = (Ok (), w') ∧ relaying (hd ++ rest) (length pieces) w'.
Proof using Hcut Hall Hcmd.
  revert b w. induction pieces as [|d ps IH]; intros b w Hw Hb Hk Hall'; simpl in *.
  { apply (f_equal length) in Hall'. rw app_nil_r length_app in Hall'. lia. }
  rw app_assoc in Hall'.
  destruct (waiting_step b w d rest Hw Hb) as (w1 & Hd & Hw1); [rw -Hall'; by eexists|].
  case_decide as Hlen.
  - destruct (IH (b ++ d) w1 Hw1 Hlen) as (w' & Hf & i & Hs & q & Hr); [lia|done|].
    exists w'. rw /feed /= {1}/mbind {1}/SE_bind Hd. split; [exact Hf|].
    split; [done|]. split; [done|]. destruct Hr as (qs & H1 & H2 & H3). exists q, qs. split_and!; [done..|lia].
  - destruct (feed_relaying ps (b ++ d) 0 w1 Hw1) as (w' & Hf & i & Hs & q & Hr); [simpl; lia|].
    exists w'. rw /feed /= {1}/mbind {1}/SE_bind Hd. split; [exact Hf|].
    split; [done|]. split; [done|]. destruct Hr as (qs & H1 & H2 & H3).
    exists q, qs. rw -Hall'. split_and!; [done..|lia].
Qed.
End streams.

Section stream_claims.
Context `{!TuicCore, !TuicCoreLaws}.

(** A TCP stream is relayed the same however the transport cuts it: once
    the connection is authenticated, feeding the pieces of a CONNECT header and
    its payload (no more pieces than the relay's channel takes) starts exactly
    one relay, for the target of the header, and the bytes the relay has and is
    still to read are the payload, in order. *)
Lemma stream_pieces id w t data pieces :
  wf_target t → fits_wire t = true →
  authenticated (app w) = true → streams (app w) !! id = None → pending_streams (app w) !! id = None →
  (length pieces ≤ CHANNEL_CAPACITY)%nat →
  encode_connect t data = Ok (concat pieces) →
  ∃ w' initial queue, feed id pieces w = (Ok (), w') ∧
    relays w' = relays w ++
      [MkRelay (MkSession (inbound (app w)) Connect (wire_target t)) id initial
         (MkChan queue CHANNEL_CAPACITY false)] ∧
    streams (app w') !! id = Some (MkStreamState (length (relays w))) ∧
    initial ++ concat queue = data.
Proof.
  intros Hwf Hfit Ha Hs Hp Hn Henc.
  destruct (connect_header t Hwf Hfit) as (hd & H2 & Hhd & Hcut & Hall).
  rw Hhd in Henc. injection Henc as Henc.
  destruct (feed_waiting id (MkSession (inbound (app w)) Connect (wire_target t)) (relays w) hd
    Hcut Hall eq_refl pieces [] w data) as (w' & Hf & _ & Hst & initial & queue & Hr & Hq & _).
  - split_and!; [done..|]. by rw Hp.
  - simpl. lia.
  - done.
  - by rw Henc.
  - exists w', initial, queue. split_and!; [done..|]. by apply app_inv_head in Hq.
Qed.
End stream_claims.

Lemma stream_pieces_witness :
  let w := MkWorld (set_authenticated true (app_new (str "tuic-in") [] 0 0)) [] [] (λ _, 0) 0 in
  let t := Domain (str "example.com") 443 in
  let enc := match encode_connect t [1; 2; 3; 4; 5] with Ok e => e | Err _ => [] end in
  let pieces := [take 4 enc; take 14 (drop 4 enc); drop 18 enc] in
  ∃ w' initial queue, feed 4 pieces w = (Ok (), w') ∧
    relays w' = [] ++
      [MkRelay (MkSession (str "tuic-in") Connect t) 4 initial (MkChan queue CHANNEL_CAPACITY false)] ∧
    streams (app w') !! 4 = Some (MkStreamState 0) ∧ initial ++ concat queue = [1; 2; 3; 4; 5].
Proof.
  intros w t enc pieces. apply (stream_pieces 4 w t [1; 2; 3; 4; 5] pieces).
  - by_decide.
  - reflexivity.
  - reflexivity.
  - reflexivity.
  - reflexivity.
  - vm_compute. lia.
  - vm_compute. reflexivity.
Defined.

(** ** Writing

    What quiche documents of the sending side: a stream takes a prefix of what
    it is offered, in order; a datagram is too short a buffer's fault only
    when it is larger than the connection says it can write. *)
Class QuicLaws (Q : Type) `{!QuicConn Q} := {
  (** the bytes a stream has taken so far *)
  accepted : Q → Z → bytes;
  stream_send_sent id data fin q k q' :
    stream_send id data fin q = (Sent k, q') →
    (k ≤ length data)%nat ∧ accepted q' id = accepted q id ++ take k data ∧
    ∀ j, j ≠ id → accepted q' j = accepted q j;
  stream_send_refused id data fin q r q' j :
    stream_send id data fin q = (r, q') → (∀ k, r ≠ Sent k) → accepted q' j = accepted q j;
  dgram_send_streams data q r q' j : dgram_send data q = (r, q') → accepted q' j = accepted q j;
  dgram_send_too_short data q q' :
    dgram_send data q = (BufferTooShort, q') →
    (default 0 (dgram_max_writable_len q') < length data)%nat;
}.

(** The bytes a write holds for a stream. *)
Definition write_data (sid : Z) (x : QuicWrite) : bytes :=
  match x with WData id d _ => if id =? sid then d else [] | _ => [] end.
Definition queued (sid : Z) (l : list QuicWrite) : bytes := concat (write_data sid <$> l).

(** Unidirectional streams the server opens are numbered 3, 7, 11, ... *)
Definition server_uni (id : Z) : Prop := id mod 4 = 3.
Definition write_ok (x : QuicWrite) : Prop :=
  match x with WUniStream _ (Some id) _ => server_uni id | _ => True end.
Definition queue_ok (s : TuicApp) : Prop :=
  Forall write_ok (pending_writes s) ∧ Forall write_ok (outbound_rx s) ∧ server_uni (next_uni_stream_id s).

Lemma server_uni_unidirectional id : server_uni id → is_unidirectional id = true.
Proof.
  rw /server_uni /is_unidirectional. intros Hid.
  assert (Z.land id 2 = 2) as ->; [|done].
  change 2 with (Z.land 3 2). rw Z.land_assoc. change 3 with (Z.ones 2). rw Z.land_ones; [lia|].
  by rw Hid.
Qed.

Section writing.
Context `{!TuicCore, !TuicCoreLaws} {Q : Type} `{!QuicConn Q, !QuicLaws Q}.
Variable sid : Z.
Hypothesis Hsid : is_unidirectional sid = false.

Lemma not_server_uni id : server_uni id → id ≠ sid.
Proof using Hsid. intros Hid%server_uni_unidirectional ->. congruence. Qed.

(** The state of the queue, which housekeeping leaves alone. *)
Definition queue_is (l rx : list QuicWrite) (nx : Z) (w : World) : Prop :=
  pending_writes (app w) = l ∧ outbound_rx (app w) = rx ∧ next_uni_stream_id (app w) = nx.

Lemma queue_with_app l rx nx f :
  (∀ s, pending_writes (f s) = pending_writes s ∧ outbound_rx (f s) = outbound_rx s ∧
     next_uni_stream_id (f s) = next_uni_stream_id s) → keeps (queue_is l rx nx) (with_app f).
Proof using Type.
  intros Hf. apply triple_modify. intros w (H1 & H2 & H3). destruct (Hf (app w)) as (E1 & E2 & E3).
  by rw /queue_is /= E1 E2 E3.
Qed.
Lemma queue_now l rx nx : keeps (queue_is l rx nx) now.
Proof using Type. intros w Hw. exact Hw. Qed.
Lemma queue_self {A} l rx nx (f : TuicApp → A) : keeps (queue_is l rx nx) (self f).
Proof using Type. apply keeps_gets. Qed.
Hint Resolve queue_now queue_self : keeping.
Hint Extern 3 (keeps (queue_is _ _ _) (with_app _)) => (apply queue_with_app; intros ?; by split_and!) : keeping.

Lemma queue_touch l rx nx a : keeps (queue_is l rx nx) (touch_assoc a).
Proof using Type. rw /touch_assoc /touch_udp_session. keep_walk. Qed.
Lemma queue_check l rx nx : keeps (queue_is l rx nx) check_authentication_deadline.
Proof using Type. rw /check_authentication_deadline. keep_walk. Qed.
Lemma queue_cleanup l rx nx : keeps (queue_is l rx nx) maybe_cleanup_udp_state.
Proof using Type. rw /maybe_cleanup_udp_state. keep_walk. Qed.

(** Cutting a datagram only adds datagrams. *)
Lemma requeue_datagrams l rx nx a d max :
  triple (queue_is l rx nx) (requeue_fragments a d max)
    (λ _ w, ∃ ds, queue_is ((WDatagram a <$> ds) ++ l) rx nx w) (λ _, True).
Proof using Type.
  rw /requeue_fragments. destruct (_ ≫= _) as [ps|]; [|by apply triple_ret; intros w Hw; exists []].
  generalize (reverse ps). clear ps. intros ps.
  assert (Hgen : ∀ ds, triple (queue_is ((WDatagram a <$> ds) ++ l) rx nx)
    (for_each (λ fragment, encoded ← lift (encode_packet fragment); push_front (WDatagram a encoded)) ps)
    (λ _ w, ∃ ds, queue_is ((WDatagram a <$> ds) ++ l) rx nx w) (λ _, True)).
  { induction ps as [|p ps IH]; intros ds; simpl; [apply triple_ret; by exists ds|].
    apply (triple_bind _ _ _ (λ _ w, ∃ ds, queue_is ((WDatagram a <$> ds) ++ l) rx nx w));
      [|intros []; by apply triple_ex].
    eapply (triple_bind _ _ _ (λ _, queue_is ((WDatagram a <$> ds) ++ l) rx nx)); [by apply triple_lift|].
    intros enc. apply triple_modify. intros w (H1 & H2 & H3). exists (enc :: ds).
    split_and!; [|done..]. by rw /= H1. }
  exact (Hgen []).
Qed.

(** Nothing of the stream is missing: what it took, then what is queued. *)
Definition settled (T : bytes) (wq : World * Q) : Prop :=
  queue_ok (app wq.1) ∧ accepted wq.2 sid ++ queued sid (pending_writes (app wq.1)) = T.

Lemma queued_cons x l : queued sid (x :: l) = write_data sid x ++ queued sid l.
Proof using Type. done. Qed.
Lemma queued_datagrams a ds l : queued sid ((WDatagram a <$> ds) ++ l) = queued sid l.
Proof using Type. induction ds as [|d ds IH]; [done|]. exact IH. Qed.

(** The queue after a write was put back, or not. *)
Lemma settled_push T w (q : Q) x l rx nx :
  queue_is l rx nx w → Forall write_ok l → Forall write_ok rx → server_uni nx → write_ok x →
  accepted q sid ++ write_data sid x ++ queued sid l = T →
  settled T ((push_front x w).2, q).
Proof using Type.
  intros (<- & <- & <-) Hl Hrx Hnx Hx HT. split; [|exact HT]. split_and!; [by constructor|done..].
Qed.
Lemma settled_done T w (q : Q) l rx nx :
  queue_is l rx nx w → Forall write_ok l → Forall write_ok rx → server_uni nx →
  accepted q sid ++ queued sid l = T → settled T (w, q).
Proof using Type. intros (<- & <- & <-) Hl Hrx Hnx HT. by split. Qed.

(** What a stream took of a write, and what is left of it. *)
Lemma send_data_split id d fin q k q' :
  stream_send id d fin q = (Sent k, q') →
  accepted q' sid ++ write_data sid (WData id (drop k d) fin) =
  accepted q sid ++ write_data sid (WData id d fin).
Proof using Type.
  intros (Hk & Hid & Hne)%stream_send_sent. simpl. destruct (Z.eqb_spec id sid) as [->|Hn].
  - by rw Hid -app_assoc take_drop.
  - rw Hne; [|done]. congruence.
Qed.

Lemma write_data_settles T id d fin w q l rx nx :
  queue_is l rx nx w → Forall write_ok l → Forall write_ok rx → server_uni nx →
  accepted q sid ++ write_data sid (WData id d fin) ++ queued sid l = T →
  match write_one (WData id d fin) (w, q) with (Ok _, wq') => settled T wq' | _ => True end.
Proof using Type.
  intros Hq Hl Hrx Hnx HT. rw /write_one {1}/mbind {1}/SE_bind /on_conn.
  destruct (stream_send id d fin q) as [[k| | |e] q'] eqn:Hsend; [| |done..].
  - pose proof (send_data_split _ _ _ _ _ _ Hsend) as Hsp. rw app_assoc -Hsp -app_assoc in HT.
    destruct (Nat.eqb_spec k (length d)) as [->|_].
    + eapply settled_done; try done. rw -HT /= drop_ge; [done|]. by destruct (_ =? _).
    + by eapply settled_push.
  - assert (Ha : accepted q' sid = accepted q sid) by (by eapply stream_send_refused).
    rw -Ha in HT. destruct fin; [destruct (bool_decide_reflect (d = [])) as [->|]|]; simpl.
    + eapply settled_done; try done. rw -HT /=. by destruct (_ =? _).
    + by eapply settled_push.
    + by eapply settled_push.
Qed.

Lemma write_datagram_settles T a d w q l rx nx :
  queue_is l rx nx w → Forall write_ok l → Forall write_ok rx → server_uni nx →
  accepted q sid ++ queued sid l = T →
  match write_one (WDatagram a d) (w, q) with (Ok _, wq') => settled T wq' | _ => True end.
Proof using Type.
  intros Hq Hl Hrx Hnx HT. rw /write_one {1}/mbind {1}/SE_bind {1}/on_world.
  pose proof (queue_touch l rx nx a w Hq) as Ht. destruct (touch_assoc a w) as [[[]|e] w1]; [|done].
  rw {1}/mbind {1}/SE_bind /on_conn. destruct (dgram_send d q) as [r q'] eqn:Hsend.
  pose proof (dgram_send_streams _ _ _ _ sid Hsend) as Ha. rw -Ha in HT. destruct r as [| | |e].
  - by eapply settled_done.
  - by eapply settled_push.
  - rw {1}/mbind {1}/SE_bind /gets {1}/mbind {1}/SE_bind /on_world. cbn [snd].
    pose proof (requeue_datagrams l rx nx a d (default 0%nat (dgram_max_writable_len q')) w1 Ht) as Hr.
    destruct (requeue_fragments _ _ _ w1) as [[[]|e] w2]; [|done]. destruct Hr as [ds Hds].
    eapply settled_done; [exact Hds| |done..|by rw queued_datagrams].
    apply Forall_app. split; [|done]. by apply Forall_fmap, Forall_true.
  - done.
Qed.

Lemma write_uni_settles T a o d w q l rx nx :
  queue_is l rx nx w → Forall write_ok l → Forall write_ok rx → server_uni nx →
  write_ok (WUniStream a o d) → accepted q sid ++ queued sid l = T →
  match write_one (WUniStream a o d) (w, q) with (Ok _, wq') => settled T wq' | _ => True end.
Proof using Hsid.
  intros Hq Hl Hrx Hnx Ho HT. rw /write_one {1}/mbind {1}/SE_bind {1}/on_world.
  pose proof (queue_touch l rx nx a w Hq) as Ht. destruct (touch_assoc a w) as [[[]|e] w1]; [|done].
  assert (∃ id w2 nx', uni_stream_id o w1 = (Ok id, w2) ∧ queue_is l rx nx' w2 ∧ server_uni id ∧ server_uni nx')
    as (id & w2 & nx' & Hu & Hq2 & Hid & Hnx').
  { destruct o as [id|]; [by exists id, w1, nx|]. destruct Ht as (H1 & H2 & H3).
    exists nx, (MkWorld (set_next_uni_stream_id (nx + 4) (app w1)) (relays w1) (udp_tasks w1) (clock w1) (ticks w1)), (nx + 4).
    split_and!; [rw /uni_stream_id /= -H3; done|done|done|].
    rw /server_uni in Hnx |- *. rw -Z.add_mod_idemp_r; [done|]. by rw Z_mod_same_full Z.add_0_r. }
  rw {1}/mbind {1}/SE_bind {1}/on_world Hu. rw {1}/mbind {1}/SE_bind /on_conn.
  destruct (stream_send id d true q) as [[k| | |e] q'] eqn:Hsend; [| |done..].
  - apply stream_send_sent in Hsend as (_ & _ & Hne). rw -(Hne sid) in HT; [by apply not_eq_sym, not_server_uni|].
    destruct (Nat.eqb _ _); [by eapply settled_done|by eapply settled_push].
  - assert (Ha : accepted q' sid = accepted q sid) by (by eapply stream_send_refused). rw -Ha in HT.
    by eapply settled_push.
Qed.

Lemma write_close_settles T id w q l rx nx :
  queue_is l rx nx w → Forall write_ok l → Forall write_ok rx → server_uni nx →
  accepted q sid ++ queued sid l = T →
  match write_one (WClose id) (w, q) with (Ok _, wq') => settled T wq' | _ => True end.
Proof using Type.
  intros Hq Hl Hrx Hnx HT. rw /write_one {1}/mbind {1}/SE_bind /on_conn.
  destruct (stream_send id [] true q) as [r q'] eqn:Hsend.
  assert (Ha : accepted q' sid = accepted q sid).
  { destruct r as [k| | |e]; try (by eapply stream_send_refused).
    apply stream_send_sent in Hsend as (_ & Hs & Hne). destruct (decide (id = sid)) as [->|Hn]; [|by apply Hne, not_eq_sym].
    by rw Hs take_nil app_nil_r. }
  rw -Ha in HT. simpl. eapply settled_done; [exact Hq|done..].
Qed.

Lemma write_one_settles T x w q l rx nx :
  queue_is l rx nx w → Forall write_ok (x :: l) → Forall write_ok rx → server_uni nx →
  accepted q sid ++ queued sid (x :: l) = T →
  match write_one x (w, q) with (Ok _, wq') => settled T wq' | _ => True end.
Proof using Hsid.
  intros Hq [Hx Hl]%Forall_cons Hrx Hnx HT. destruct x.
  - by eapply write_data_settles.
  - by eapply write_datagram_settles.
  - by eapply write_uni_settles.
  - by eapply write_close_settles.
Qed.

Lemma write_loop_settles T fuel : triple (settled T) (write_loop fuel) (λ _, settled T) (λ _, True).
Proof using Hsid.
  induction fuel as [|fuel IH]; simpl; [by apply triple_throw|].
  intros [w q] [(Hl & Hrx & Hnx) HT]. rw {1}/mbind {1}/SE_bind {1}/on_world /self /gets.
  destruct (pending_writes (app w)) as [|x l] eqn:Hp; [exact (conj (conj Hl (conj Hrx Hnx)) HT)|].
  rw {1}/mbind {1}/SE_bind {1}/on_world {1}/with_app {1}/modify.
  set (w1 := MkWorld (set_pending_writes l (app w)) _ _ _ _).
  assert (Hq1 : queue_is l (outbound_rx (app w)) (next_uni_stream_id (app w)) w1) by done.
  pose proof (write_one_settles T x w1 q l _ _ Hq1) as Hone. simpl in HT. rw Hp in Hl, HT.
  specialize (Hone Hl Hrx Hnx HT). rw {1}/mbind {1}/SE_bind.
  destruct (write_one x (w1, q)) as [[go|e] wq']; [|done]. destruct go; [|exact Hone]. by apply IH.
Qed.
End writing.

Section write_claims.
Context `{!TuicCore, !TuicCoreLaws} {Q : Type} `{!QuicConn Q, !QuicLaws Q}.

Lemma process_writes_order sid w (q : Q) w' q' :
  is_unidirectional sid = false → queue_ok (app w) →
  process_writes (w, q) = (Ok (), (w', q')) →
  queue_ok (app w') ∧
  accepted q' sid ++ queued sid (pending_writes (app w')) =
  accepted q sid ++ queued sid (pending_writes (app w) ++ outbound_rx (app w)).
Proof.
  intros Hsid (Hl & Hrx & Hnx) Hrun.
  assert (Hq : queue_is (pending_writes (app w)) (outbound_rx (app w)) (next_uni_stream_id (app w)) w) by done.
  rw /process_writes in Hrun. apply SE_bind_inv in Hrun as ([] & [w1 q1] & Hr1 & Hrun).
  rw /on_world in Hr1. pose proof (queue_check _ _ _ w Hq) as Hq1.
  destruct (check_authentication_deadline w) as [[[]|] w1']; [|done]. injection Hr1 as <- <-.
  apply SE_bind_inv in Hrun as ([] & [w2 q2] & Hr2 & Hrun).
  rw /on_world in Hr2. pose proof (queue_cleanup _ _ _ _ Hq1) as Hq2.
  destruct (maybe_cleanup_udp_state w1') as [[[]|] w2']; [|done]. injection Hr2 as <- <-.
  apply SE_bind_inv in Hrun as ([] & wq3 & [= <-] & Hrun).
  apply SE_bind_inv in Hrun as (queue & wq4 & [= <- <-] & Hrun).
  destruct Hq2 as (E1 & E2 & E3).
  match type of Hrun with write_loop ?f ?s = _ =>
    pose proof (write_loop_settles sid Hsid
      (accepted q sid ++ queued sid (pending_writes (app w) ++ outbound_rx (app w))) f s) as Hs end.
  rw Hrun in Hs. apply Hs. split; [split_and!|]; simpl.
  - rw E1 E2. by apply Forall_app.
  - constructor.
  - by rw E3.
  - by rw E1 E2.
Qed.

(** The write queue neither loses nor reorders stream data: when emptying
    it ends without an error, what a bidirectional stream has taken followed by
    what is still queued for it is what it had taken before followed by all
    that was queued, whatever the connection accepts, refuses or blocks, and
    however writes for other streams and datagrams are interleaved. *)
Lemma writes_in_order sid w (q : Q) w' q' :
  is_unidirectional sid = false → queue_ok (app w) →
  process_writes (w, q) = (Ok (), (w', q')) →
  queue_ok (app w') ∧
  accepted q' sid ++ queued sid (pending_writes (app w')) =
  accepted q sid ++ queued sid (pending_writes (app w) ++ outbound_rx (app w)).
Proof. apply process_writes_order. Qed.

(** ** Emptying the queue terminates *)
Definition dgram_ok (d : bytes) : Prop := ∃ p, valid_packet p ∧ encode_packet p = Ok d.
Definition good_write (x : QuicWrite) : Prop :=
  match x with WDatagram _ d => dgram_ok d | _ => True end.

(** A whole packet may be cut into 255 fragments; nothing else is cut. *)
Definition write_cost (x : QuicWrite) : nat :=
  match x with
  | WDatagram _ d =>
      match parse_packet d with
      | Ok p => if frag_total p =? 1 then 256%nat else 1%nat
      | Err _ => 1%nat
      end
  | _ => 1%nat
  end.
Definition queue_cost (l : list QuicWrite) : nat := sum_list (write_cost <$> l).

Lemma write_cost_bounds x : (1 ≤ write_cost x ≤ 256)%nat.
Proof. destruct x; simpl; try lia. destruct (parse_packet data) as [p|]; [case_match|]; lia. Qed.

Lemma queue_cost_bound l : (queue_cost l ≤ 256 * length l)%nat.
Proof.
  induction l as [|x l IH]; [done|]. change (queue_cost (x :: l)) with (write_cost x + queue_cost l)%nat.
  change (length (x :: l)) with (S (length l)). pose proof (write_cost_bounds x). lia.
Qed.

Lemma valid_wire_packet p : valid_packet p → valid_packet (wire_packet p).
Proof.
  intros [Ha Hp Ht Hi Hl Hb Hg]. split; try done. simpl. intros t. destruct (target p) as [t'|]; [|done].
  intros [= <-]. destruct (Hg t' eq_refl). split; [by apply wf_wire_target|]. by destruct t' as [[]|].
Qed.

Lemma parse_encoded p d : valid_packet p → encode_packet p = Ok d → parse_packet d = Ok (wire_packet p).
Proof.
  intros Hv Hd. destruct (packet_parses p Hv) as (enc & He & Hp & _).
  rw Hd in He. injection He as ->. rw -{1}(app_nil_r enc). apply Hp.
Qed.

Lemma packet_address_wire p : packet_address (wire_packet p) = wire_address (packet_address p).
Proof. rw /packet_address /=. by destruct (target p) as [[]|]. Qed.

(** The fragments of an oversized packet are small and not cut again. *)
Lemma oversized_split p max ps :
  valid_packet p → fragment_packet p max = Ok ps →
  (max < packet_header_len (packet_address p) + length (payload p))%nat →
  frag_total p = 1 ∧ (length ps ≤ 255)%nat ∧ Forall (λ f, valid_packet f ∧ frag_total f ≠ 1) ps.
Proof.
  intros Hv Hf Hmax. apply fragment_packet_inv in Hf as [[_ Hle]|[cap Hs]]; [lia| |done].
  destruct Hs as [[Ht _] [Hc _] Hlarge Hcount ->]. split_and!; [done| |].
  - rw length_imap. rw /len in Hcount. lia.
  - apply Forall_lookup_2. intros i f Hi. apply list_lookup_imap_Some in Hi as (c & Hc' & ->).
    split; [|cbn [frag_total nth_fragment]; lia]. apply nth_fragment_valid with cap; try done; [lia|].
    pose proof (Forall_lookup_1 _ _ _ _ (chunks_fuel_bound _ cap (payload p)) Hc') as Hb.
    cbv beta in Hb. lia.
Qed.

Lemma oversized_fragments d max p ps :
  dgram_ok d → (max < length d)%nat → parse_packet d = Ok p → fragment_packet p max = Ok ps →
  write_cost (WDatagram None d) = 256%nat ∧ (length ps ≤ 255)%nat ∧
  Forall (λ f, valid_packet f ∧ frag_total f ≠ 1) ps.
Proof.
  intros (p0 & Hv & Hd) Hmax Hparse Hf. pose proof (parse_encoded p0 d Hv Hd) as Hp0.
  rw Hp0 in Hparse. injection Hparse as <-. pose proof (encode_packet_len p0 d Hv Hd) as Hlen.
  destruct (oversized_split (wire_packet p0) max ps (valid_wire_packet p0 Hv) Hf) as (Ht & Hn & Hps).
  { rw packet_address_wire packet_header_len_wire. rw Hlen in Hmax. exact Hmax. }
  split; [|done]. simpl in Ht. by rw /= Hp0 /= Ht.
Qed.

Lemma push_fragments a l ps :
  Forall (λ f, valid_packet f ∧ frag_total f ≠ 1) ps →
  triple (λ w, pending_writes (app w) = l)
    (for_each (λ f, encoded ← lift (encode_packet f); push_front (WDatagram a encoded)) ps)
    (λ _ w, ∃ ds, pending_writes (app w) = (WDatagram a <$> ds) ++ l ∧ length ds = length ps ∧
       Forall (λ d, dgram_ok d ∧ write_cost (WDatagram a d) = 1%nat) ds) (λ _, True).
Proof.
  intros Hps. revert l. induction Hps as [|f ps [Hv Ht] Hps IH]; intros l; simpl.
  { apply triple_ret. intros w Hw. by exists []. }
  destruct (encode_packet f) as [d|] eqn:Hd; [|by intros w _].
  intros w <-. rw {1}/mbind {1}/SE_bind {1}/mbind {1}/SE_bind /lift.
  specialize (IH (WDatagram a d :: pending_writes (app w)) (push_front (WDatagram a d) w).2 eq_refl).
  simpl in IH |- *. destruct (for_each _ ps _) as [[[]|e] w']; [|done].
  destruct IH as (ds & Hw' & Hlen & Hds). exists (ds ++ [d]).
  split_and!; [by rw Hw' fmap_app -app_assoc|rw length_app /=; lia|].
  apply Forall_app. split; [done|]. constructor; [|done]. split; [by exists f|].
  rw /= (parse_encoded f d Hv Hd) /=. by destruct (Z.eqb_spec (frag_total f) 1).
Qed.

Lemma queue_cost_app l k : queue_cost (l ++ k) = (queue_cost l + queue_cost k)%nat.
Proof.
  induction l as [|x l IH]; [done|]. rw -app_comm_cons.
  change (queue_cost (x :: ?m)) with (write_cost x + queue_cost m)%nat. rw IH. lia.
Qed.

Lemma queue_cost_ones a ds :
  Forall (λ d, dgram_ok d ∧ write_cost (WDatagram a d) = 1%nat) ds →
  queue_cost (WDatagram a <$> ds) = length ds ∧ Forall good_write (WDatagram a <$> ds).
Proof.
  induction 1 as [|d ds [Hok Hc] _ [IH1 IH2]]; [done|]. rw fmap_cons.
  change (queue_cost (?x :: ?l)) with (write_cost x + queue_cost l)%nat.
  rw Hc IH1. split; [done|]. by constructor.
Qed.

Lemma touch_pending a w (q : Q) wq :
  on_world (touch_assoc a) (w, q) = (Ok (), wq) → pending_writes (app wq.1) = pending_writes (app w) ∧ wq.2 = q.
Proof.
  rw /on_world. pose proof (queue_touch (pending_writes (app w)) (outbound_rx (app w)) (next_uni_stream_id (app w)) a w) as Hq.
  specialize (Hq (conj eq_refl (conj eq_refl eq_refl))). destruct (touch_assoc a w) as [[[]|] w1]; [|done].
  intros [= <-]. by destruct Hq.
Qed.

(** Queueing the writes [l] again, or the fragments of an oversized datagram in
    front of them. *)
Definition cheaper (x : QuicWrite) (l : list QuicWrite) (w : World) : Prop :=
  Forall good_write (pending_writes (app w)) ∧ (queue_cost (pending_writes (app w)) < write_cost x + queue_cost l)%nat.
Lemma cheaper_same x l w : Forall good_write l → pending_writes (app w) = l → cheaper x l w.
Proof. intros Hl Hw. rw /cheaper Hw. split; [done|]. pose proof (write_cost_bounds x). lia. Qed.
Lemma requeue_cheaper a d max l w w' :
  good_write (WDatagram a d) → Forall good_write l → (max < length d)%nat → pending_writes (app w) = l →
  requeue_fragments a d max w = (Ok (), w') → cheaper (WDatagram a d) l w'.
Proof.
  intros Hx Hl Hsend Hw Hr. rw /requeue_fragments in Hr.
  destruct (parse_packet d) as [p|] eqn:Hp; [|injection Hr as <-; by apply cheaper_same]. cbn [mbind Result_bind] in Hr.
  destruct (fragment_packet p _) as [ps|] eqn:Hf; [|injection Hr as <-; by apply cheaper_same].
  destruct (oversized_fragments d _ p ps Hx Hsend Hp Hf) as (Hcost & Hn & Hps). apply Forall_reverse in Hps.
  pose proof (push_fragments a l (reverse ps) Hps w Hw) as Hpush.
  destruct (for_each _ _ w) as [[[]|] w3]; [|done]. injection Hr as <-.
  destruct Hpush as (ds & Hw3 & Hlen & Hds). rw length_reverse in Hlen.
  destruct (queue_cost_ones a ds Hds) as [Hc1 Hg1]. rw /cheaper Hw3. split; [by apply Forall_app|].
  rw queue_cost_app Hc1. change (write_cost (WDatagram a d)) with (write_cost (WDatagram None d)). lia.
Qed.

(** One turn of the loop that goes on makes the queue cheaper. *)
Lemma write_one_cheaper x w (q : Q) w' q' :
  good_write x → Forall good_write (pending_writes (app w)) →
  write_one x (w, q) = (Ok true, (w', q')) → cheaper x (pending_writes (app w)) w'.
Proof.
  intros Hx Hl Hrun. destruct x as [id d fin|a d|a o d|id]; rw /write_one in Hrun.
  - rw {1}/mbind {1}/SE_bind /on_conn in Hrun.
    destruct (stream_send id d fin q) as [[k| | |e] q1]; [| |done..].
    + destruct (Nat.eqb _ _); [|done]. injection Hrun as <- <-. by apply cheaper_same.
    + destruct (fin && _); [|done]. injection Hrun as <- <-. by apply cheaper_same.
  - apply SE_bind_inv in Hrun as ([] & [w1 q1] & Ht & Hrun). apply touch_pending in Ht as [Hw1 Hq1]. cbn in Hw1, Hq1. subst q1.
    rw {1}/mbind {1}/SE_bind /on_conn in Hrun. destruct (dgram_send d q) as [[[]| | |e] q1] eqn:Hsend; [injection Hrun as <- <-; by apply cheaper_same|done| |done].
    apply dgram_send_too_short in Hsend. apply SE_bind_inv in Hrun as (q2 & wq2 & [= <- <-] & Hrun).
    apply SE_bind_inv in Hrun as ([] & [w3 q3] & Hr & [= <- <-]). rw /on_world in Hr. cbn [snd] in Hr.
    destruct (requeue_fragments _ _ _ _) as [[[]|] w4] eqn:E; [|done]. injection Hr as <- <-.
    by eapply requeue_cheaper.
  - apply SE_bind_inv in Hrun as ([] & [w1 q1] & Ht & Hrun). apply touch_pending in Ht as [Hw1 Hq1]. cbn in Hw1, Hq1. subst q1.
    apply SE_bind_inv in Hrun as (id & [w2 q2] & Hid & Hrun). rw /on_world in Hid.
    assert (Hw2 : pending_writes (app w2) = pending_writes (app w)) by (destruct o as [i|]; injection Hid as _ <- _; exact Hw1).
    rw {1}/mbind {1}/SE_bind /on_conn in Hrun. destruct (stream_send id d true q2) as [[k| | |e] q3]; [|done..].
    destruct (Nat.eqb _ _); [|done]. injection Hrun as <- <-. by apply cheaper_same.
  - rw {1}/mbind {1}/SE_bind /on_conn in Hrun. destruct (stream_send id [] true q) as [r q1].
    injection Hrun as <- <-. by apply cheaper_same.
Qed.

Lemma write_loop_unfold f w (q : Q) :
  write_loop (S f) (w, q) =
  match pending_writes (app w) with
  | [] => (Ok (), (w, q))
  | x :: l =>
      match write_one x (MkWorld (set_pending_writes l (app w)) (relays w) (udp_tasks w) (clock w) (ticks w), q) with
      | (Ok true, wq) => write_loop f wq
      | (Ok false, wq) => (Ok (), wq)
      | (Err e, wq) => (Err e, wq)
      end
  end.
Proof.
  cbn [write_loop]. rw /mbind /SE_bind /= /self /gets. destruct (pending_writes (app w)) as [|x l]; [done|].
  simpl. destruct (write_one x _) as [[[]|e] wq]; done.
Qed.

Lemma write_loop_enough f1 f2 w (q : Q) :
  Forall good_write (pending_writes (app w)) →
  (queue_cost (pending_writes (app w)) < f1)%nat → (queue_cost (pending_writes (app w)) < f2)%nat →
  write_loop f1 (w, q) = write_loop f2 (w, q).
Proof.
  revert f2 w q. induction f1 as [|f1 IH]; intros f2 w q Hl H1 H2; [lia|].
  destruct f2 as [|f2]; [lia|]. rw !write_loop_unfold.
  destruct (pending_writes (app w)) as [|x l] eqn:Hp; [done|].
  apply Forall_cons in Hl as [Hx Hl].
  change (queue_cost (x :: l)) with (write_cost x + queue_cost l)%nat in H1, H2.
  destruct (write_one x _) as [[[]|e] [w2 q2]] eqn:Hone; [|done..].
  apply write_one_cheaper in Hone as [Hl2 Hc]; [|done..]. simpl in Hc. apply IH; [done|lia..].
Qed.

(** C36: Emptying the write queue terminates. When every queued datagram is an
    encoded packet, the bound on the number of turns that the model uses is
    never reached: any greater bound gives the same run. (A datagram is cut
    into fragments at most once, because the connection reports a datagram as
    too large only when it exceeds the size it was cut for.) *)
Theorem writes_terminate fuel w (q : Q) :
  Forall good_write (pending_writes (app w)) →
  (write_fuel (pending_writes (app w)) ≤ fuel)%nat →
  write_loop fuel (w, q) = write_loop (write_fuel (pending_writes (app w))) (w, q).
Proof.
  intros Hl Hf. pose proof (queue_cost_bound (pending_writes (app w))) as Hc. rw /write_fuel in Hf |- *.
  apply write_loop_enough; [done|lia..].
Qed.
End write_claims.

(** ** A connection for the witnesses: a window of stream bytes, datagrams of
    at most 40 bytes. *)
Record DemoConn := MkDemo { taken : Z → bytes; window : nat }.

#[local] Instance demo_conn : QuicConn DemoConn := {|
  stream_send id data fin q :=
    if Nat.eqb (window q) 0 && negb (Nat.eqb (length data) 0) then (Done, q)
    else
      let k := Nat.min (window q) (length data) in
      (Sent k, MkDemo (λ j, if j =? id then taken q j ++ take k data else taken q j) (window q - k));
  dgram_send data q := if Nat.leb (length data) 40 then (Sent (), q) else (BufferTooShort, q);
  dgram_max_writable_len _ := Some 40%nat;
|}.

#[local] Program Instance demo_laws : QuicLaws DemoConn := {| accepted := taken |}.
Next Obligation.
  intros id data fin q k q'. simpl. case_match; [done|]. intros [= <- <-]. simpl. rw Z.eqb_refl.
  split_and!; [lia|done|]. intros j Hj. by destruct (Z.eqb_spec j id).
Qed.
Next Obligation.
  intros id data fin q r q' j. simpl. case_match; intros [= <- <-]; [done|]. naive_solver.
Qed.
Next Obligation. intros data q r q' j. simpl. case_match; by intros [= <- <-]. Qed.
Next Obligation.
  intros data q q'. simpl. destruct (Nat.leb_spec (length data) 40); [done|]. intros [= <-]. simpl. lia.
Qed.

Definition demo_big : bytes :=
  match encode_packet demo_packet with Ok d => d | Err _ => [] end.
Definition demo_writes : list QuicWrite :=
  [WData 4 [1; 2] false; WDatagram (Some 7) demo_big; WData 0 [9] true; WData 4 [3; 4; 5] true; WUniStream None None [7]].
Definition demo_writer : World :=
  MkWorld (set_outbound_rx [WData 4 [6] false]
    (set_pending_writes demo_writes (set_authenticated true (app_new [] [] 0 0)))) [] [] (λ _, 0) 0.

Lemma demo_writer_ok : queue_ok (app demo_writer).
Proof. split_and!; [|repeat constructor|done]. repeat constructor. Qed.

Lemma writes_in_order_witness :
  let q := MkDemo (λ _, []) 4 in
  let end_ := (process_writes (demo_writer, q)).2 in
  queue_ok (app end_.1) ∧
  accepted end_.2 4 ++ queued 4 (pending_writes (app end_.1)) =
  accepted q 4 ++ queued 4 (pending_writes (app demo_writer) ++ outbound_rx (app demo_writer)).
Proof.
  apply (writes_in_order 4 demo_writer (MkDemo (λ _, []) 4) _ _);
    [reflexivity|exact demo_writer_ok|vm_compute; reflexivity].
Defined.

Lemma demo_writer_good : Forall good_write (pending_writes (app demo_writer)).
Proof.
  repeat constructor. exists demo_packet. split; [exact demo_packet_valid|by vm_compute].
Qed.

Lemma writes_terminate_witness :
  write_loop 5000 (demo_writer, MkDemo (λ _, []) 4) =
  write_loop (write_fuel (pending_writes (app demo_writer))) (demo_writer, MkDemo (λ _, []) 4).
Proof.
  apply (writes_terminate 5000 demo_writer (MkDemo (λ _, []) 4)); [exact demo_writer_good|].
  apply Nat.leb_le. vm_compute. reflexivity.
Defined.

(** ** Two behaviours worth knowing *)
Section behaviours.
Context `{!TuicCore}.

(** A full or abandoned relay channel fails the callback, which closes the
    whole connection with all its other streams. *)
Lemma full_channel_fails id w i r d fin :
  authenticated (app w) = true → streams (app w) !! id = Some (MkStreamState i) →
  relays w !! i = Some r → try_send d (rl_rx r) = None → d ≠ [] →
  handle_stream_data id d fin w = (Err (EMsg "tuic inbound stream receive backpressure"), w).
Proof.
  intros Ha Hs Hr Hfull Hd. rw /handle_stream_data {1}/mbind {1}/SE_bind /self /gets Ha. cbn [negb].
  rw {1}/mbind {1}/SE_bind Hs bool_decide_false; [done|]. cbn [negb client_tx].
  by rw {1}/mbind {1}/SE_bind /relay_try_send Hr Hfull.
Qed.

(** Once the task of a UDP session has ended, packets of the association are
    dropped but still renew the session, so that it is never replaced while the
    client keeps sending. *)
Lemma ended_session_renewed w data mode packet asm tgt i task :
  let n1 := clock w (ticks w) in
  let n2 := clock w (S (ticks w)) in
  parse_packet data = Ok packet →
  push packet n1 (packet_assembler (app w)) = (Ok (Some packet), asm) →
  target packet = Some tgt →
  udp_sessions (app w) !! assoc_id packet = Some (MkUdpSession i mode n1) →
  udp_tasks w !! i = Some task → ch_dropped (ut_rx task) = true →
  ∃ w', handle_packet data mode w = (Ok (), w') ∧ udp_tasks w' = udp_tasks w ∧
    udp_sessions (app w') !! assoc_id packet = Some (MkUdpSession i mode n2).
Proof.
  intros n1 n2 Hp Hpush Ht Hs Htask Hdrop. rw /handle_packet {1}/mbind {1}/SE_bind /lift Hp.
  rw {1}/mbind {1}/SE_bind /assemble /mbind /SE_bind /now /self /gets. fold n1. rw Hpush /= Ht /= Hs /=.
  rw bool_decide_true; [done|]. cbn [negb]. rw /udp_try_send /= Htask /try_send Hdrop /=.
  eexists. split; [done|]. split; [done|]. simpl. by rw lookup_insert_eq.
Qed.
End behaviours.
