(* ===== verification/TuicRelay.v ===== *)
(** * The relay tasks of a TUIC connection (src/protocol/tuic/inbound.rs)

    [spawn_relay]: the task that dials the target of a CONNECT stream and copies
    between the channel from the client, the dialed connection and the writes of
    the QUIC connection; [run_udp_session]: the task of a UDP association. The
    outcomes of dialing, reading, writing and queueing are the events. *)
From S2P Require Import Prelude Text Net Config TuicCodec TuicFragment TuicInbound TuicStreams.

(** ** A CONNECT stream *)

(** How [write_all] ends: the connection took everything, or some bytes and
    failed. *)
Inductive Written := WroteAll | WroteErr (n : nat) (e : error).

(** What the [select!] of the loop completes with: the channel from the client
    gives data, which is written, or ends, and the connection is shut down; the
    connection is read and the write is queued or the QUIC connection is gone. *)
Inductive RelayEvent :=
  | ClientData (data : bytes) (outcome : Written)
  | ClientEnd (shutdown : Result ())
  | RemoteRead (read : Result bytes) (queued : bool).

(** The dialed connection, as far as it was written and shut down, and what was
    sent to the QUIC connection. *)
Record RelayTask := MkRelayTask {
  rt_written : bytes;
  rt_shut : bool;
  rt_sent : list QuicWrite;
  client_closed : bool;
  remote_closed : bool;
}.
Definition relay_task_init : RelayTask := MkRelayTask [] false [] false false.

Definition outbound_write (data : bytes) (outcome : Written) : SE RelayTask () :=
  match outcome with
  | WroteAll =>
      modify (λ s, MkRelayTask (rt_written s ++ data) (rt_shut s) (rt_sent s) (client_closed s) (remote_closed s))
  | WroteErr n e =>
      modify (λ s, MkRelayTask (rt_written s ++ take n data) (rt_shut s) (rt_sent s) (client_closed s) (remote_closed s)) ;;
      throw e
  end.
Definition outbound_shutdown (outcome : Result ()) : SE RelayTask () :=
  lift outcome ;;
  modify (λ s, MkRelayTask (rt_written s) true (rt_sent s) (client_closed s) (remote_closed s)).
Definition quic_tx_send (write : QuicWrite) (queued : bool) : SE RelayTask () :=
  lift (ensure queued "tuic connection closed") ;;
  modify (λ s, MkRelayTask (rt_written s) (rt_shut s) (rt_sent s ++ [write]) (client_closed s) (remote_closed s)).
Definition set_client_closed : SE RelayTask () :=
  modify (λ s, MkRelayTask (rt_written s) (rt_shut s) (rt_sent s) true (remote_closed s)).
Definition set_remote_closed : SE RelayTask () :=
  modify (λ s, MkRelayTask (rt_written s) (rt_shut s) (rt_sent s) (client_closed s) true).

(** The branches of the [select!]; a branch whose guard is false is not taken. *)
Definition relay_event (stream_id : Z) (ev : RelayEvent) : SE RelayTask () :=
  match ev with
  | ClientData data outcome =>
      closed ← gets client_closed;
      when (negb closed) (outbound_write data outcome)
  | ClientEnd outcome =>
      closed ← gets client_closed;
      when (negb closed) (outbound_shutdown outcome ;; set_client_closed)
  | RemoteRead read queued =>
      closed ← gets remote_closed;
      when (negb closed)
        (data ← lift read;
         when (bool_decide (data = [])) set_remote_closed ;;
         fin ← gets remote_closed;
         quic_tx_send (WData stream_id data fin) queued)
  end.

(** [while !client_closed || !remote_closed]: [true] when the loop has ended,
    [false] when it waits for the next event. *)
Fixpoint relay_loop (stream_id : Z) (evs : list RelayEvent) : SE RelayTask bool :=
  c ← gets client_closed;
  r ← gets remote_closed;
  if (c && r : bool) then mret true
  else match evs with
       | [] => mret false
       | ev :: evs => relay_event stream_id ev ;; relay_loop stream_id evs
       end.

Definition relay_body (dialed : Result ()) (stream_id : Z) (initial : bytes) (outcome : Written) (evs : list RelayEvent)
  : SE RelayTask bool :=
  lift dialed ;;
  when (negb (bool_decide (initial = []))) (outbound_write initial outcome) ;;
  relay_loop stream_id evs.

(** The task: an error is reported to the connection as a close, if it is still
    there. *)
Definition spawn_relay (dialed : Result ()) (stream_id : Z) (initial : bytes) (outcome : Written) (evs : list RelayEvent)
    (close_queued : bool) : SE RelayTask bool :=
  result ← attempt (relay_body dialed stream_id initial outcome evs);
  match result with
  | Ok ended => mret ended
  | Err e => attempt (quic_tx_send (WClose stream_id) close_queued) ;; throw e
  end.

(** ** A UDP association *)

(** What the task has sent on: the requests to the dialed datagram socket, the
    writes to the QUIC connection. *)
Record UdpTaskState := MkUdpTaskState { ut_requests : list UdpRequest; ut_writes : list QuicWrite; ut_pkt_id : Z }.

Fixpoint udp_session_loop `{!TuicCore} (assoc : Z) (mode : UdpMode) (evs : list udp_event) (s : UdpTaskState)
  : option (Result ()) * UdpTaskState :=
  match evs with
  | [] => (None, s)
  | ev :: evs =>
      let s := match ev with
               | UdpRequested (Some r) (Ok _) => MkUdpTaskState (ut_requests s ++ [r]) (ut_writes s) (ut_pkt_id s)
               | _ => s
               end in
      match udp_session_step assoc mode (ut_pkt_id s) ev with
      | UdpContinue pkt writes => udp_session_loop assoc mode evs (MkUdpTaskState (ut_requests s) (ut_writes s ++ writes) pkt)
      | UdpStop r writes => (Some r, MkUdpTaskState (ut_requests s) (ut_writes s ++ writes) (ut_pkt_id s))
      end
  end.

(** [run_udp_session]: the first request dials and is sent; [dial_udp] and
    [sent] are the outcomes. The result is [None] while the task waits. *)
Definition run_udp_session `{!TuicCore} (inbound_tag : bytes) (dial_udp : Session → Result ()) (assoc : Z) (mode : UdpMode)
    (first : option UdpRequest) (sent : Result ()) (evs : list udp_event) : option (Result ()) * UdpTaskState :=
  let s := MkUdpTaskState [] [] 0 in
  match first with
  | None => (Some (Ok ()), s)
  | Some first =>
      match dial_udp (MkSession inbound_tag UdpAssociate (ur_target first)) with
      | Err e => (Some (Err e), s)
      | Ok _ =>
          match sent with
          | Err e => (Some (Err e), s)
          | Ok _ => udp_session_loop assoc mode evs (MkUdpTaskState [first] [] 0)
          end
      end
  end.

(** ** What a relay carries *)

(** Events the guards allow: nothing from the client after its end, nothing
    from the connection after its end of input. *)
Fixpoint legal (c r : bool) (evs : list RelayEvent) : bool :=
  match evs with
  | [] => true
  | ClientData _ _ :: evs => negb c && legal c r evs
  | ClientEnd _ :: evs => negb c && legal true r evs
  | RemoteRead (Ok []) _ :: evs => negb r && legal c true evs
  | RemoteRead _ _ :: evs => negb r && legal c r evs
  end.
Definition client_sent (evs : list RelayEvent) : bytes :=
  concat ((λ ev, match ev with ClientData d _ => d | _ => [] end) <$> evs).
Definition remote_sent (evs : list RelayEvent) : bytes :=
  concat ((λ ev, match ev with RemoteRead (Ok d) _ => d | _ => [] end) <$> evs).

Lemma queued_app sid l k : queued sid (l ++ k) = queued sid l ++ queued sid k.
Proof. by rw /queued fmap_app concat_app. Qed.
Lemma queued_snoc sid l x : queued sid (l ++ [x]) = queued sid l ++ write_data sid x.
Proof. by rw queued_app {2}/queued /= app_nil_r. Qed.

Section relay.
Variable sid : Z.

(** Only the last write ends the stream, once the connection has ended, and the
    connection is shut down once the client has. *)
Definition open_writes (l : list QuicWrite) : Prop := Forall (λ x, ∃ d, x = WData sid d false) l.
Definition tidy (s : RelayTask) : Prop :=
  rt_shut s = client_closed s ∧
  if remote_closed s then ∃ l, rt_sent s = l ++ [WData sid [] true] ∧ open_writes l else open_writes (rt_sent s).

(** The connection has been given [c] and the client [r], or prefixes of them. *)
Definition carried (c r : bytes) (s : RelayTask) : Prop := rt_written s = c ∧ queued sid (rt_sent s) = r.
Definition carried_part (c r : bytes) (s : RelayTask) : Prop :=
  rt_written s `prefix_of` c ∧ queued sid (rt_sent s) `prefix_of` r.

Lemma event_carries ev evs c r s :
  legal (client_closed s) (remote_closed s) (ev :: evs) = true → tidy s → carried c r s →
  match relay_event sid ev s with
  | (Ok _, s') => legal (client_closed s') (remote_closed s') evs = true ∧ tidy s' ∧
      carried (c ++ client_sent [ev]) (r ++ remote_sent [ev]) s'
  | (Err _, s') => carried_part (c ++ client_sent [ev]) (r ++ remote_sent [ev]) s'
  end.
Proof.
  intros Hl [Hsh Hs] [<- <-]. destruct s as [wr shut sent cc rc]. simpl in *. subst shut.
  rw /relay_event /mbind /SE_bind /gets /client_sent /remote_sent. destruct ev as [data out|out|read qd]; simpl.
  - apply andb_prop in Hl as [->%negb_true_iff Hl]. simpl. rw !app_nil_r. destruct out as [|n e]; simpl; [by split_and!|].
    split; simpl; [|done]. apply prefix_app. exists (drop n data). by rw take_drop.
  - apply andb_prop in Hl as [->%negb_true_iff Hl]. simpl. rw !app_nil_r. destruct out as [[]|e]; simpl; by split_and!.
  - destruct rc; [by destruct read as [[]|]|]. simpl. rw !app_nil_r. destruct read as [[|b d]|e]; simpl; [| |split; simpl; [done|by apply prefix_app_r]].
    + destruct qd; simpl; [|split; simpl; [done|by apply prefix_app_r]]. split; [done|]. split; [split; [done|by exists sent]|]. split; [done|].
      rw /= queued_snoc /= Z.eqb_refl. done.
    + destruct qd; simpl; [|by split; simpl; [|apply prefix_app_r]]. split; [done|]. split; [split; [done|]|split; [done|]].
      * simpl. apply Forall_snoc; [done|]. by eexists.
      * by rw /= queued_snoc /= Z.eqb_refl.
Qed.

Lemma client_sent_cons ev evs : client_sent (ev :: evs) = client_sent [ev] ++ client_sent evs.
Proof. by rw /client_sent /= app_nil_r. Qed.
Lemma remote_sent_cons ev evs : remote_sent (ev :: evs) = remote_sent [ev] ++ remote_sent evs.
Proof. by rw /remote_sent /= app_nil_r. Qed.

Lemma loop_carries evs c r s :
  legal (client_closed s) (remote_closed s) evs = true → tidy s → carried c r s →
  match relay_loop sid evs s with
  | (Ok ended, s') => tidy s' ∧ ended = client_closed s' && remote_closed s' ∧
      carried (c ++ client_sent evs) (r ++ remote_sent evs) s'
  | (Err _, s') => carried_part (c ++ client_sent evs) (r ++ remote_sent evs) s'
  end.
Proof.
  revert c r s. induction evs as [|ev evs IH]; intros c r s Hl Ht Hc.
  - rw /relay_loop /mbind /SE_bind /gets /client_sent /remote_sent /= !app_nil_r.
    by destruct (client_closed s && remote_closed s) eqn:E.
  - cbn [relay_loop]. rw {1 2}/mbind {1 2}/SE_bind /gets. destruct (client_closed s && remote_closed s) eqn:E.
    { apply andb_prop in E as [E1 E2]. rw E1 E2 in Hl. by destruct ev as [| |[[]|]]. }
    pose proof (event_carries ev evs c r s Hl Ht Hc) as He. rw {1}/mbind {1}/SE_bind.
    rw (client_sent_cons ev evs) (remote_sent_cons ev evs) (app_assoc c) (app_assoc r).
    destruct (relay_event sid ev s) as [[[]|e] s']; [destruct He as (Hl' & Ht' & Hc'); by apply IH|].
    destruct He as [H1 H2]. split; by apply prefix_app_r.
Qed.

Lemma init_tidy : tidy relay_task_init.
Proof. split; [done|]. constructor. Qed.

Lemma body_carries initial outcome evs :
  legal false false evs = true →
  match relay_body (Ok ()) sid initial outcome evs relay_task_init with
  | (Ok ended, s') => tidy s' ∧ ended = client_closed s' && remote_closed s' ∧
      carried (initial ++ client_sent evs) (remote_sent evs) s'
  | (Err _, s') => carried_part (initial ++ client_sent evs) (remote_sent evs) s'
  end.
Proof.
  intros Hl. rw /relay_body. rw {1 2}/mbind {1 2}/SE_bind /lift. case_bool_decide as Hi; cbn [negb when].
  { subst initial. by apply (loop_carries evs [] [] relay_task_init Hl init_tidy). }
  destruct outcome as [|n e]; simpl.
  - apply (loop_carries evs initial [] (MkRelayTask initial false [] false false) Hl); [|done]. split; [done|constructor].
  - split; simpl; [|apply prefix_nil]. apply prefix_app_r. exists (drop n initial). by rw take_drop.
Qed.

(** A relay that fails tells the client's side, once and last, and what it
    carried until then are prefixes of what it was given. *)
Theorem relay_failure initial outcome evs s e :
  legal false false evs = true →
  spawn_relay (Ok ()) sid initial outcome evs true relay_task_init = (Err e, s) →
  ∃ sent, rt_sent s = sent ++ [WClose sid] ∧ carried_part (initial ++ client_sent evs) (remote_sent evs) s.
Proof.
  intros Hl. pose proof (body_carries initial outcome evs Hl) as Hb. rw /spawn_relay {1}/mbind {1}/SE_bind /attempt.
  destruct (relay_body _ _ _ _ _ _) as [[ended|e'] s']; [done|]. rw /mbind /SE_bind /lift /quic_tx_send /=.
  intros [= -> <-]. exists (rt_sent s'). split; [done|]. destruct Hb as [H1 H2]. split; [done|]. simpl. by rw queued_snoc app_nil_r.
Qed.
End relay.
