(* ===== verification/TuicOutbound.v ===== *)
(** * TUIC client side (src/protocol/tuic/outbound.rs)

    The two applications over QUIC of the outbound: one CONNECT stream, and a
    UDP session. The QUIC connection, the key exporter and the uuid parser are
    parameters, times are arguments. *)
From S2P Require Import Prelude Text Net Config TuicSettings TuicCodec TuicInbound.

Definition CONNECT_STREAM_ID : Z := 0.
Definition AUTH_STREAM_ID : Z := 2.
Definition HEARTBEAT_INTERVAL : Z := from_secs 10.

(** ** The outbound *)
Record TuicOutbound := MkTuicOutbound { to_cfg : OutboundConfig; to_uuid : bytes; to_password : bytes }.

Definition tuic_outbound_new (parse_uuid : bytes → Result bytes) (cfg : OutboundConfig) : Result TuicOutbound :=
  require_server cfg ;;
  uuid ← context (out_uuid cfg) "tuic outbound requires uuid";
  uuid ← parse_uuid uuid;
  ensure (match out_password cfg with Some p => negb (bool_decide (p = [])) | None => false end)
    "tuic outbound requires password" ;;
  password ← context (out_password cfg) "password checked above";
  Ok (MkTuicOutbound cfg uuid password).

(** What a dial asks of the network and of QUIC: the local address to bind, the
    address to connect to, the name to verify and the settings. *)
Record TuicConnect := MkTuicConnect {
  tc_bind : bytes;
  tc_server_addr : SocketAddr;
  tc_server_name : bytes;
  tc_settings : QuicSettings;
}.

(** The part [dial] and [dial_udp] share. *)
Definition tuic_connect (lookup_host : bytes → Z → Result (list SocketAddr)) (defaults : QuicSettings) (o : TuicOutbound)
  : Result TuicConnect :=
  server ← require_server (to_cfg o);
  let name := default (server_host_string server) (server_name (to_cfg o)) in
  addr ← server_resolve lookup_host server;
  Ok (MkTuicConnect (if is_ipv4 addr then str "0.0.0.0:0" else str "[::]:0") addr name
    (quic_client_settings defaults (to_cfg o))).

(** ** A CONNECT stream *)
Inductive ClientWrite := CWData (data : bytes) | CWHeartbeat | CWClose.

(** What the task that reads the application's side sends to the connection for
    a read: the data, or a close at the end of input or on an error. *)
Definition client_app_read (read : Result bytes) : ClientWrite :=
  match read with
  | Ok (b :: data) => CWData (b :: data)
  | _ => CWClose
  end.

(** [ca_stream] is the channel to the task that writes to the application, to
    which [ca_stream_tx] says a sender is held. *)
Record TuicClientApp := MkClientApp {
  ca_uuid : bytes;
  ca_password : bytes;
  ca_target : TargetAddr;
  ca_outbound_rx : list ClientWrite;
  ca_stream_tx : bool;
  ca_stream : Chan bytes;
  ca_pending_writes : list ClientWrite;
  ca_next_heartbeat : Z;
}.
Definition set_ca_outbound_rx v s :=
  MkClientApp (ca_uuid s) (ca_password s) (ca_target s) v (ca_stream_tx s) (ca_stream s) (ca_pending_writes s) (ca_next_heartbeat s).
Definition set_ca_stream_tx v s :=
  MkClientApp (ca_uuid s) (ca_password s) (ca_target s) (ca_outbound_rx s) v (ca_stream s) (ca_pending_writes s) (ca_next_heartbeat s).
Definition set_ca_stream v s :=
  MkClientApp (ca_uuid s) (ca_password s) (ca_target s) (ca_outbound_rx s) (ca_stream_tx s) v (ca_pending_writes s) (ca_next_heartbeat s).
Definition set_ca_pending_writes v s :=
  MkClientApp (ca_uuid s) (ca_password s) (ca_target s) (ca_outbound_rx s) (ca_stream_tx s) (ca_stream s) v (ca_next_heartbeat s).
Definition set_ca_next_heartbeat v s :=
  MkClientApp (ca_uuid s) (ca_password s) (ca_target s) (ca_outbound_rx s) (ca_stream_tx s) (ca_stream s) (ca_pending_writes s) v.

Definition client_app_new (uuid password : bytes) (target : TargetAddr) (now : Z) : TuicClientApp :=
  MkClientApp uuid password target [] true (MkChan [] CHANNEL_CAPACITY false) [] (now + HEARTBEAT_INTERVAL).

Definition tuic_dial (lookup_host : bytes → Z → Result (list SocketAddr)) (defaults : QuicSettings) (o : TuicOutbound)
    (session : Session) (now : Z) : Result (TuicConnect * TuicClientApp) :=
  ensure (bool_decide (session_command session = Connect)) "tuic outbound only supports CONNECT" ;;
  connect ← tuic_connect lookup_host defaults o;
  Ok (connect, client_app_new (to_uuid o) (to_password o) (session_target session) now).

(** An application and its connection. *)
Definition on_self {S Q A} (m : SE S A) : SE (S * Q) A := λ '(s, q),
  let '(r, s') := m s in (r, (s', q)).
Definition on_quic {S Q A} (m : Q → A * Q) : SE (S * Q) A := λ '(s, q),
  let '(a, q') := m q in (Ok a, (s, q')).

Definition send_error {A} (r : SendResult A) : error :=
  match r with SendFailed e => e | _ => EMsg "quic send failed" end.

(** What [wait_for_data] completes with: a write, a closed channel, the timer. *)
Inductive Woken (W : Type) := WokenWrite (write : W) | WokenClosed | WokenTimer (now : Z).
Arguments WokenWrite {W} write.
Arguments WokenClosed {W}.
Arguments WokenTimer {W} now.

Section client.
Context `{!TuicCore} {Q : Type} `{!QuicConn Q}.
Variable export_keying_material : bytes → bytes → option bytes.

Definition ca_push_front (write : ClientWrite) : SE TuicClientApp () :=
  modify (λ s, set_ca_pending_writes (write :: ca_pending_writes s) s).
Definition ca_push_back (write : ClientWrite) : SE TuicClientApp () :=
  modify (λ s, set_ca_pending_writes (ca_pending_writes s ++ [write]) s).

Definition send_all_or_queue (data : bytes) (fin : bool) : SE (TuicClientApp * Q) () :=
  res ← on_quic (stream_send CONNECT_STREAM_ID data fin);
  match res with
  | Sent sent =>
      if Nat.eqb sent (length data) then mret ()
      else on_self (ca_push_front (CWData (drop sent data)))
  | Done => on_self (ca_push_front (CWData data))
  | res => throw (send_error res)
  end.

(** [codec::token(..)?; encode_authenticate(..)?; stream_send(AUTH_STREAM_ID, .., true)?] *)
Definition send_authentication {S} (uuid password : bytes) : SE (S * Q) () :=
  token ← lift (token export_keying_material uuid password);
  auth ← lift (encode_authenticate uuid token);
  res ← on_quic (stream_send AUTH_STREAM_ID auth true);
  match res with Sent _ => mret () | res => throw (send_error res) end.

Definition client_on_conn_established : SE (TuicClientApp * Q) () :=
  uuid ← gets (λ s, ca_uuid s.1);
  password ← gets (λ s, ca_password s.1);
  send_authentication uuid password ;;
  target ← gets (λ s, ca_target s.1);
  connect ← lift (encode_connect target []);
  send_all_or_queue connect false.

Definition client_wait_for_data (woken : Woken ClientWrite) : SE TuicClientApp () :=
  waiting ← gets ca_pending_writes;
  when (bool_decide (length waiting = 0%nat))
    (match woken with
     | WokenWrite write => ca_push_back write
     | WokenClosed => mret ()
     | WokenTimer now =>
         ca_push_back CWHeartbeat ;;
         modify (set_ca_next_heartbeat (now + HEARTBEAT_INTERVAL))
     end).

(** [tx.try_send(..)] while the sender is held. *)
Definition ca_try_send (data : bytes) : SE TuicClientApp () :=
  open ← gets ca_stream_tx;
  if (open : bool) then
    chan ← gets ca_stream;
    match try_send data chan with
    | Some chan => modify (set_ca_stream chan)
    | None => throw (EMsg "tuic outbound receive queue backpressure")
    end
  else mret ().

Fixpoint client_read_stream (stream_id : Z) (rs : list StreamRead) : SE TuicClientApp () :=
  match rs with
  | [] => mret ()
  | ReadError e :: _ => throw e
  | ReadData data fin :: rs =>
      when ((stream_id =? CONNECT_STREAM_ID) && negb (bool_decide (data = []))) (ca_try_send data) ;;
      if fin then when (stream_id =? CONNECT_STREAM_ID) (modify (set_ca_stream_tx false))
      else client_read_stream stream_id rs
  end.

(** Datagrams are drained and ignored. *)
Definition client_process_reads (readable : list (Z * list StreamRead)) : SE TuicClientApp () :=
  for_each (λ '(stream_id, rs), client_read_stream stream_id rs) readable.

Definition client_write_one (write : ClientWrite) : SE (TuicClientApp * Q) bool :=
  match write with
  | CWData data =>
      res ← on_quic (stream_send CONNECT_STREAM_ID data false);
      match res with
      | Sent sent =>
          if Nat.eqb sent (length data) then mret true
          else on_self (ca_push_front (CWData (drop sent data))) ;; mret false
      | Done => on_self (ca_push_front (CWData data)) ;; mret false
      | res => throw (send_error res)
      end
  | CWHeartbeat =>
      heartbeat ← lift encode_heartbeat;
      res ← on_quic (dgram_send heartbeat);
      match res with
      | Sent _ => mret true
      | Done => on_self (ca_push_front CWHeartbeat) ;; mret false
      | res => throw (send_error res)
      end
  | CWClose => on_quic (stream_send CONNECT_STREAM_ID [] true) ;; mret true
  end.

(** [while let Some(write) = self.pending_writes.pop_front()]: the queue is
    added to only when the loop is left. *)
Fixpoint client_write_loop (queue : list ClientWrite) : SE (TuicClientApp * Q) () :=
  match queue with
  | [] => mret ()
  | write :: rest =>
      on_self (modify (set_ca_pending_writes rest)) ;;
      go_on ← client_write_one write;
      if (go_on : bool) then client_write_loop rest else mret ()
  end.

Definition client_process_writes : SE (TuicClientApp * Q) () :=
  on_self (modify (λ s, set_ca_outbound_rx [] (set_ca_pending_writes (ca_pending_writes s ++ ca_outbound_rx s) s))) ;;
  queue ← gets (λ s, ca_pending_writes s.1);
  client_write_loop queue.
End client.

(** ** A UDP session *)
Inductive TuicUdpWrite := UWPacket (packet : Packet) | UWHeartbeat.

(** The session's end of the channel to the application over QUIC: what was
    sent on it, whether its receiver is gone; and the packet counter. *)
Record TuicUdpSession := MkTuicUdp { tu_sent : list TuicUdpWrite; tu_closed : bool; tu_pkt_id : Z }.
Definition tuic_udp_new : TuicUdpSession := MkTuicUdp [] false 1.

Definition tuic_send_to (target : TargetAddr) (payload : bytes) : SE TuicUdpSession () :=
  lift (ensure (len payload <=? U16_MAX) "tuic UDP packet is too large") ;;
  id ← gets tu_pkt_id;
  modify (λ s, MkTuicUdp (tu_sent s) (tu_closed s) (wrapping_add_u16 id 1)) ;;
  is_closed ← gets tu_closed;
  lift (ensure (negb is_closed) "tuic udp session closed") ;;
  modify (λ s, MkTuicUdp (tu_sent s ++ [UWPacket (MkPacket 1 id 1 0 (Some target) payload)]) (tu_closed s) (tu_pkt_id s)).

(** [recv_from]: the next response, or none while the application over QUIC, which
    holds the sender, is there. *)
Definition tuic_recv_from (app_gone : bool) (responses : Chan (TargetAddr * bytes))
  : option (Result (TargetAddr * bytes)) * Chan (TargetAddr * bytes) :=
  match ch_queue responses with
  | response :: _ => (Some (Ok response), chan_recv responses)
  | [] => (if app_gone then Some (Err (EMsg "tuic udp session closed")) else None, responses)
  end.

Record TuicUdpOutboundApp := MkUdpApp {
  ua_uuid : bytes;
  ua_password : bytes;
  ua_outbound_rx : list TuicUdpWrite;
  ua_responses : Chan (TargetAddr * bytes);
  ua_pending_writes : list TuicUdpWrite;
  ua_assembler : PacketAssembler;
  ua_stream_buffers : gmap Z bytes;
  ua_next_heartbeat : Z;
}.
Definition set_ua_outbound_rx v s :=
  MkUdpApp (ua_uuid s) (ua_password s) v (ua_responses s) (ua_pending_writes s) (ua_assembler s) (ua_stream_buffers s) (ua_next_heartbeat s).
Definition set_ua_responses v s :=
  MkUdpApp (ua_uuid s) (ua_password s) (ua_outbound_rx s) v (ua_pending_writes s) (ua_assembler s) (ua_stream_buffers s) (ua_next_heartbeat s).
Definition set_ua_pending_writes v s :=
  MkUdpApp (ua_uuid s) (ua_password s) (ua_outbound_rx s) (ua_responses s) v (ua_assembler s) (ua_stream_buffers s) (ua_next_heartbeat s).
Definition set_ua_assembler v s :=
  MkUdpApp (ua_uuid s) (ua_password s) (ua_outbound_rx s) (ua_responses s) (ua_pending_writes s) v (ua_stream_buffers s) (ua_next_heartbeat s).
Definition set_ua_stream_buffers v s :=
  MkUdpApp (ua_uuid s) (ua_password s) (ua_outbound_rx s) (ua_responses s) (ua_pending_writes s) (ua_assembler s) v (ua_next_heartbeat s).
Definition set_ua_next_heartbeat v s :=
  MkUdpApp (ua_uuid s) (ua_password s) (ua_outbound_rx s) (ua_responses s) (ua_pending_writes s) (ua_assembler s) (ua_stream_buffers s) v.

Definition udp_app_new (uuid password : bytes) (now : Z) : TuicUdpOutboundApp :=
  MkUdpApp uuid password [] (MkChan [] UDP_CHANNEL_CAPACITY false) [] ∅ ∅ (now + HEARTBEAT_INTERVAL).

Definition tuic_dial_udp (lookup_host : bytes → Z → Result (list SocketAddr)) (defaults : QuicSettings) (o : TuicOutbound)
    (session : Session) (now : Z) : Result (TuicConnect * TuicUdpOutboundApp * TuicUdpSession) :=
  ensure (bool_decide (session_command session = UdpAssociate)) "tuic udp outbound only supports UDP associate" ;;
  connect ← tuic_connect lookup_host defaults o;
  Ok (connect, udp_app_new (to_uuid o) (to_password o) now, tuic_udp_new).

Section udp_client.
Context `{!TuicCore} {Q : Type} `{!QuicConn Q}.
Variable export_keying_material : bytes → bytes → option bytes.

Definition udp_handle_packet (now : Z) (data : bytes) : SE TuicUdpOutboundApp () :=
  packet ← lift (parse_packet data);
  asm ← gets ua_assembler;
  let '(r, asm) := push packet now asm in
  modify (set_ua_assembler asm) ;;
  complete ← lift r;
  match complete with
  | None => mret ()
  | Some packet =>
      match target packet with
      | None => throw (EMsg "tuic udp response missing source")
      | Some source =>
          chan ← gets ua_responses;
          match try_send (source, payload packet) chan with
          | Some chan => modify (set_ua_responses chan)
          | None => mret ()
          end
      end
  end.

Definition udp_on_conn_established : SE (TuicUdpOutboundApp * Q) () :=
  uuid ← gets (λ s, ua_uuid s.1);
  password ← gets (λ s, ua_password s.1);
  send_authentication export_keying_material uuid password.

Definition ua_push_front (write : TuicUdpWrite) : SE TuicUdpOutboundApp () :=
  modify (λ s, set_ua_pending_writes (write :: ua_pending_writes s) s).
Definition ua_push_back (write : TuicUdpWrite) : SE TuicUdpOutboundApp () :=
  modify (λ s, set_ua_pending_writes (ua_pending_writes s ++ [write]) s).

Definition udp_wait_for_data (woken : Woken TuicUdpWrite) : SE TuicUdpOutboundApp () :=
  waiting ← gets ua_pending_writes;
  when (bool_decide (length waiting = 0%nat))
    (match woken with
     | WokenWrite write => ua_push_back write
     | WokenClosed => mret ()
     | WokenTimer now =>
         ua_push_back UWHeartbeat ;;
         modify (set_ua_next_heartbeat (now + HEARTBEAT_INTERVAL))
     end).

(** A datagram received at a time. *)
Definition udp_read_datagram (now : Z) (dgram : bytes) : SE TuicUdpOutboundApp () :=
  when ((2 <=? len dgram) && (dgram !!! 0%nat =? VERSION) && (dgram !!! 1%nat =? CMD_PACKET))
    (udp_handle_packet now dgram).

Fixpoint udp_read_stream (stream_id : Z) (rs : list (Z * StreamRead)) : SE TuicUdpOutboundApp () :=
  match rs with
  | [] => mret ()
  | (_, ReadError e) :: _ => throw e
  | (now, ReadData data fin) :: rs =>
      modify (λ s, set_ua_stream_buffers
        (<[stream_id := default [] (ua_stream_buffers s !! stream_id) ++ data]> (ua_stream_buffers s)) s) ;;
      if fin then
        data ← gets (λ s, ua_stream_buffers s !! stream_id);
        modify (λ s, set_ua_stream_buffers (delete stream_id (ua_stream_buffers s)) s) ;;
        match data with Some data => udp_handle_packet now data | None => mret () end
      else udp_read_stream stream_id rs
  end.

Definition udp_process_reads (dgrams : list (Z * bytes)) (readable : list (Z * list (Z * StreamRead)))
  : SE TuicUdpOutboundApp () :=
  for_each (λ '(now, dgram), udp_read_datagram now dgram) dgrams ;;
  for_each (λ '(stream_id, rs), udp_read_stream stream_id rs) readable.

(** [for fragment in fragments.into_iter().rev() { push_front }], or the packet
    is dropped. *)
Definition ua_requeue_fragments (packet : Packet) (max : nat) : SE TuicUdpOutboundApp () :=
  match fragment_packet packet max with
  | Ok fragments => for_each (λ fragment, ua_push_front (UWPacket fragment)) (reverse fragments)
  | Err _ => mret ()
  end.

Definition udp_write_one (write : TuicUdpWrite) : SE (TuicUdpOutboundApp * Q) bool :=
  match write with
  | UWPacket packet =>
      data ← lift (encode_packet packet);
      res ← on_quic (dgram_send data);
      match res with
      | Sent _ => mret true
      | Done => on_self (ua_push_front (UWPacket packet)) ;; mret false
      | BufferTooShort =>
          q ← gets snd;
          on_self (ua_requeue_fragments packet (default 0%nat (dgram_max_writable_len q))) ;;
          mret true
      | SendFailed e => throw e
      end
  | UWHeartbeat =>
      heartbeat ← lift encode_heartbeat;
      res ← on_quic (dgram_send heartbeat);
      match res with
      | Sent _ => mret true
      | Done => on_self (ua_push_front UWHeartbeat) ;; mret false
      | res => throw (send_error res)
      end
  end.

Fixpoint udp_write_loop (fuel : nat) : SE (TuicUdpOutboundApp * Q) () :=
  match fuel with
  | O => throw (EMsg "out of fuel")
  | S fuel =>
      queue ← gets (λ s, ua_pending_writes s.1);
      match queue with
      | [] => mret ()
      | write :: rest =>
          on_self (modify (set_ua_pending_writes rest)) ;;
          go_on ← udp_write_one write;
          if (go_on : bool) then udp_write_loop fuel else mret ()
      end
  end.

(** A packet is cut into at most 255 fragments, which are not cut again. *)
Definition udp_write_fuel (queue : list TuicUdpWrite) : nat := 1 + 256 * length queue.

Definition udp_process_writes : SE (TuicUdpOutboundApp * Q) () :=
  on_self (modify (λ s, set_ua_outbound_rx [] (set_ua_pending_writes (ua_pending_writes s ++ ua_outbound_rx s) s))) ;;
  queue ← gets (λ s, ua_pending_writes s.1);
  udp_write_loop (udp_write_fuel queue).
End udp_client.
