(* ===== verification/TuicClient.v ===== *)
(** * Data through a TUIC client

    What the application over QUIC of a CONNECT stream writes and reads in the
    course of a connection, and the stream from end to end: the client of
    src/protocol/tuic/outbound.rs against the server of
    src/protocol/tuic/inbound.rs. *)
From S2P Require Import Prelude Text Net Config TuicCodec TuicFragment TuicLayout TuicInbound TuicStreams TuicOutbound.

(** What happens to the application once the connection is established: a task
    reads the application and queues a write; [wait_for_data] receives one, or its timer fires; reads and
    writes; the task that writes to the application receives a chunk. *)
Inductive TuicClientEvent :=
  | CEAppRead (read : Result bytes)
  | CEWaitWrite
  | CEWaitTimer (now : Z)
  | CEReads (readable : list (Z * list StreamRead))
  | CEWrites
  | CETake.

Section client.
Context `{!TuicCore, !TuicCoreLaws} {Q : Type} `{!QuicConn Q, !QuicLaws Q}.
Variable ekm : bytes → bytes → option bytes.

Definition client_event (ev : TuicClientEvent) : SE (TuicClientApp * Q) () :=
  match ev with
  | CEAppRead read => on_self (modify (λ s, set_ca_outbound_rx (ca_outbound_rx s ++ [client_app_read read]) s))
  | CEWaitWrite =>
      waiting ← gets (λ s, ca_pending_writes s.1);
      rx ← gets (λ s, ca_outbound_rx s.1);
      match waiting, rx with
      | [], write :: rest => on_self (modify (set_ca_outbound_rx rest) ;; client_wait_for_data (WokenWrite write))
      | _, _ => mret ()
      end
  | CEWaitTimer now => on_self (client_wait_for_data (WokenTimer now))
  | CEReads readable => on_self (client_process_reads readable)
  | CEWrites => client_process_writes
  | CETake => on_self (modify (λ s, set_ca_stream (chan_recv (ca_stream s)) s))
  end.
Definition client_connection (evs : list TuicClientEvent) : SE (TuicClientApp * Q) () :=
  client_on_conn_established ekm ;; for_each client_event evs.

(** The bytes of the stream in a list of writes. *)
Definition client_data (l : list ClientWrite) : bytes :=
  concat ((λ w, match w with CWData d => d | _ => [] end) <$> l).
Definition event_data (evs : list TuicClientEvent) : bytes :=
  concat ((λ ev, match ev with CEAppRead (Ok d) => d | _ => [] end) <$> evs).
Definition waiting_data (s : TuicClientApp) : bytes := client_data (ca_pending_writes s ++ ca_outbound_rx s).

Lemma client_data_app l k : client_data (l ++ k) = client_data l ++ client_data k.
Proof. by rw /client_data fmap_app concat_app. Qed.
Lemma client_data_cons w l : client_data (w :: l) = client_data [w] ++ client_data l.
Proof. apply (client_data_app [w]). Qed.

Lemma event_data_cons ev evs : event_data (ev :: evs) = event_data [ev] ++ event_data evs.
Proof. by rw /event_data /= app_nil_r. Qed.

(** What is on the stream and behind it. *)
Definition on_stream (T : bytes) (sq : TuicClientApp * Q) : Prop :=
  accepted sq.2 CONNECT_STREAM_ID ++ waiting_data sq.1 = T.

Lemma stream_send_takes data fin (q : Q) k q' :
  stream_send CONNECT_STREAM_ID data fin q = (Sent k, q') →
  accepted q' CONNECT_STREAM_ID ++ drop k data = accepted q CONNECT_STREAM_ID ++ data.
Proof. intros (_ & -> & _)%stream_send_sent. by rw -app_assoc take_drop. Qed.

Lemma write_one_stream T w rest s q :
  ca_pending_writes s = rest →
  accepted q CONNECT_STREAM_ID ++ client_data (w :: rest ++ ca_outbound_rx s) = T →
  match client_write_one w (s, q) with
  | (Ok go, sq) => on_stream T sq ∧ (go = true → ca_pending_writes sq.1 = rest)
  | (Err _, _) => True
  end.
Proof.
  intros Hp HT. rw client_data_cons in HT. destruct w as [d| |]; rw /client_write_one.
  - rw {1}/mbind {1}/SE_bind {1}/on_quic. rw /client_data /= app_nil_r in HT.
    destruct (stream_send CONNECT_STREAM_ID d false q) as [[k| | |e] q'] eqn:Hs; [| |done..].
    + apply stream_send_takes in Hs. rw app_assoc -Hs -app_assoc in HT.
      destruct (Nat.eqb_spec k (length d)) as [->|_].
      * split; [|done]. rw /on_stream /waiting_data /= Hp. rw drop_ge // in HT.
      * split; [|done]. rw /on_stream /waiting_data /= Hp. by rw client_data_cons /client_data /= app_nil_r.
    + assert (Ha : accepted q' CONNECT_STREAM_ID = accepted q CONNECT_STREAM_ID) by (by eapply stream_send_refused).
      split; [|done]. rw /on_stream /waiting_data /= Hp Ha. by rw client_data_cons /client_data /= app_nil_r.
  - destruct encode_heartbeat as [hb|]; [|done]. rw /mbind /SE_bind /lift /on_quic.
    destruct (dgram_send hb q) as [r q'] eqn:Hs. pose proof (dgram_send_streams _ _ _ _ CONNECT_STREAM_ID Hs) as Ha.
    destruct r; try done; (split; [|done]); rw /on_stream /waiting_data /= Hp Ha; done.
  - rw /mbind /SE_bind /on_quic. destruct (stream_send CONNECT_STREAM_ID [] true q) as [r q'] eqn:Hs.
    assert (Ha : accepted q' CONNECT_STREAM_ID = accepted q CONNECT_STREAM_ID).
    { destruct r as [k| | |e]; try (by eapply stream_send_refused).
      apply stream_send_takes in Hs. rw drop_nil !app_nil_r in Hs. done. }
    split; [|done]. rw /on_stream /waiting_data /= Hp Ha. done.
Qed.

Lemma write_loop_stream T queue : 
  triple (λ sq, on_stream T sq ∧ ca_pending_writes sq.1 = queue) (client_write_loop queue) (λ _, on_stream T) (λ _, True).
Proof.
  induction queue as [|w rest IH]; intros [s q] [Hs Hp]; simpl in *; [exact Hs|].
  rw {1}/mbind {1}/SE_bind. cbn [on_self]. rw {1}/modify {1}/mbind {1}/SE_bind.
  rw /on_stream /waiting_data /= Hp in Hs.
  pose proof (write_one_stream T w rest (set_ca_pending_writes rest s) q eq_refl Hs) as H1.
  destruct (client_write_one w (set_ca_pending_writes rest s, q)) as [[[]|e] sq]; [|apply H1|done].
  destruct H1 as [H1 H2]. apply IH. split; [done|by apply H2].
Qed.

(** Reading does not touch what is to be written. *)
Definition writes_are (rx pend : list ClientWrite) (s : TuicClientApp) : Prop :=
  ca_outbound_rx s = rx ∧ ca_pending_writes s = pend.
Lemma reads_writes rx pend readable : keeps (writes_are rx pend) (client_process_reads readable).
Proof.
  apply keeps_for_each. intros [sid rs]. induction rs as [|[data fin|e] rs IH]; cbn [client_read_stream];
    [apply keeps_ret| |apply keeps_throw].
  apply keeps_bind.
  - apply keeps_when. rw /ca_try_send. apply keeps_gets_bind. intros s _. destruct (ca_stream_tx s); [|apply keeps_ret].
    apply keeps_gets_bind. intros s1 _. destruct (try_send _ _); [|apply keeps_throw]. by apply triple_modify.
  - intros []. destruct fin; [|done]. apply keeps_when. by apply triple_modify.
Qed.

Lemma event_stream T ev :
  triple (on_stream T) (client_event ev) (λ _, on_stream (T ++ event_data [ev])) (λ _, True).
Proof.
  intros [s q] HT. rw /on_stream /waiting_data /= in HT. rw /on_stream /waiting_data /event_data.
  destruct ev as [r| |now|readable| |]; cbn [fmap list_fmap concat app]; rw app_nil_r ?(app_nil_r T); rw /client_event.
  - simpl. rw app_assoc client_data_app -HT -app_assoc. f_equal. rw {2}/client_data /= app_nil_r. by destruct r as [[]|].
  - rw /mbind /SE_bind /gets /=. destruct (ca_pending_writes s) as [|w l] eqn:Hp; [|simpl; by rw Hp].
    destruct (ca_outbound_rx s) as [|w rest] eqn:Hr; [simpl; by rw Hp Hr|].
    rw /client_wait_for_data /mbind /SE_bind /gets /modify /=. rw Hp /=. by rw Hp.
  - rw /client_wait_for_data /mbind /SE_bind /gets /=. case_bool_decide as Hl; [|done]. simpl.
    apply nil_length_inv in Hl. rw Hl in HT |- *. rw -HT. done.
  - pose proof (reads_writes (ca_outbound_rx s) (ca_pending_writes s) readable s (conj eq_refl eq_refl)) as Hr. simpl.
    destruct (client_process_reads readable s) as [[[]|e] s']; [|done]. destruct Hr as [Hr Hp]. simpl. by rw Hr Hp.
  - rw /client_process_writes /mbind /SE_bind /=.
    match goal with |- context [client_write_loop ?l ?sq] => pose proof (write_loop_stream T l sq) as Hl;
      destruct (client_write_loop l sq) as [[[]|e] sq'] end; [|done]. apply Hl. split; [|done].
    rw /on_stream /waiting_data /= app_nil_r. done.
  - done.
Qed.

Lemma events_stream T evs :
  triple (on_stream T) (for_each client_event evs) (λ _, on_stream (T ++ event_data evs)) (λ _, True).
Proof.
  revert T. induction evs as [|ev evs IH]; intros T; cbn [for_each].
  { apply triple_ret. intros s. by rw app_nil_r. }
  eapply triple_bind; [apply event_stream|]. intros []. eapply triple_conseq; [|apply IH| |]; [by intros s Hs; exact Hs| |done].
  intros [] s. by rw (event_data_cons ev evs) app_assoc.
Qed.

(** Establishing the connection: the authentication on its stream, then the
    header of the CONNECT. *)
Lemma established_stream s q sq auth tok hd :
  ca_pending_writes s = [] → ca_outbound_rx s = [] →
  token ekm (ca_uuid s) (ca_password s) = Ok tok → encode_authenticate (ca_uuid s) tok = Ok auth →
  encode_connect (ca_target s) [] = Ok hd →
  client_on_conn_established ekm (s, q) = (Ok (), sq) →
  on_stream (accepted q CONNECT_STREAM_ID ++ hd) sq ∧
  ∃ k, accepted sq.2 AUTH_STREAM_ID = accepted q AUTH_STREAM_ID ++ take k auth.
Proof.
  intros Hp Hr Ht Ha Hh. rw /client_on_conn_established /send_authentication /mbind /SE_bind /gets /lift /on_quic.
  cbn [fst snd]. rw Ht. cbv beta iota. rw Ha. cbv beta iota. destruct (stream_send AUTH_STREAM_ID auth true q) as [r1 q1] eqn:H1.
  destruct r1 as [k1| | |e]; [|done..]. apply stream_send_sent in H1 as (_ & A1 & N1).
  cbv beta iota. cbn [fst snd mret SE_ret]. rw Hh. cbv beta iota. rw /send_all_or_queue /mbind /SE_bind /on_quic.
  destruct (stream_send CONNECT_STREAM_ID hd false q1) as [r2 q2] eqn:H2.
  assert (N0 : accepted q1 CONNECT_STREAM_ID = accepted q CONNECT_STREAM_ID) by by apply N1.
  destruct r2 as [k2| | |e]; [| |done..].
  - pose proof (stream_send_takes _ _ _ _ _ H2) as T2. apply stream_send_sent in H2 as (_ & _ & N2).
    assert (A2 : accepted q2 AUTH_STREAM_ID = accepted q AUTH_STREAM_ID ++ take k1 auth) by by rw N2.
    rw N0 in T2. destruct (Nat.eqb_spec k2 (length hd)) as [->|_]; intros [= <-]; (split; [|by exists k1]).
    + rw /on_stream /waiting_data /= Hp Hr /=. rw drop_ge // app_nil_r in T2.
    + rw /on_stream /waiting_data /= Hp Hr /client_data /= !app_nil_r. done.
  - intros [= <-]. assert (∀ j, accepted q2 j = accepted q1 j) as Hj by (intros j; by eapply stream_send_refused).
    split; [|exists k1; by rw /= Hj]. rw /on_stream /waiting_data /= Hp Hr /client_data /= !app_nil_r Hj N0. done.
Qed.

(** Only establishing the connection writes to the authentication stream. *)
Definition auth_is (A : bytes) (sq : TuicClientApp * Q) : Prop := accepted sq.2 AUTH_STREAM_ID = A.
Lemma auth_on_self {B} A (m : SE TuicClientApp B) : keeps (auth_is A) (on_self m).
Proof. intros [s q] HA. rw /on_self. destruct (m s) as [[] s']; exact HA. Qed.
Lemma auth_on_stream A data fin : keeps (auth_is A) (on_quic (stream_send CONNECT_STREAM_ID data fin)).
Proof.
  intros [s q] HA. rw /on_quic. destruct (stream_send CONNECT_STREAM_ID data fin q) as [r q'] eqn:Hs.
  rw /auth_is /= in HA |- *. rw -HA. destruct r as [k| | |e]; try (by eapply stream_send_refused).
  apply stream_send_sent in Hs as (_ & _ & Hn). by apply Hn.
Qed.
Lemma auth_on_dgram A data : keeps (auth_is A) (on_quic (dgram_send data)).
Proof.
  intros [s q] HA. rw /on_quic. destruct (dgram_send data q) as [r q'] eqn:Hs.
  rw /auth_is /= in HA |- *. rw -HA. by eapply dgram_send_streams.
Qed.
Hint Resolve auth_on_self auth_on_stream auth_on_dgram : keeping.

Lemma auth_write_loop A queue : keeps (auth_is A) (client_write_loop queue).
Proof.
  induction queue as [|w rest IH]; cbn [client_write_loop]; [apply keeps_ret|].
  apply keeps_bind; [apply auth_on_self|]. intros []. apply keeps_bind; [rw /client_write_one; keep_walk|].
  intros []; [exact IH|apply keeps_ret].
Qed.
Hint Resolve auth_write_loop : keeping.
Lemma auth_event A ev : keeps (auth_is A) (client_event ev).
Proof. rw /client_event /client_process_writes. keep_walk. Qed.

Lemma client_connection_stream uuid password t now q evs s' q' tok auth hd :
  token ekm uuid password = Ok tok → encode_authenticate uuid tok = Ok auth → encode_connect t [] = Ok hd →
  client_connection evs (client_app_new uuid password t now, q) = (Ok (), (s', q')) →
  accepted q' CONNECT_STREAM_ID ++ waiting_data s' = accepted q CONNECT_STREAM_ID ++ hd ++ event_data evs.
Proof.
  intros Ht Ha Hh Hrun. apply SE_bind_inv in Hrun as ([] & sq & H1 & H2).
  apply (established_stream (client_app_new uuid password t now) q sq auth tok hd) in H1 as [H1 _]; [|done..].
  pose proof (events_stream _ evs sq H1) as H3. rw H2 in H3. rw app_assoc. exact H3.
Qed.

(** The client's stream carries the CONNECT header and then what the
    application wrote, in order and nothing else: at every point of a
    connection, what QUIC has taken for the stream followed by what is still
    queued is the header followed by all data handed over so far, whatever QUIC
    accepts or blocks and however heartbeats, reads and waits interleave. *)
Lemma tuic_client_stream uuid password t now q evs s' q' tok auth hd :
  token ekm uuid password = Ok tok → encode_authenticate uuid tok = Ok auth → encode_connect t [] = Ok hd →
  client_connection evs (client_app_new uuid password t now, q) = (Ok (), (s', q')) →
  accepted q' CONNECT_STREAM_ID ++ waiting_data s' = accepted q CONNECT_STREAM_ID ++ hd ++ event_data evs.
Proof. apply client_connection_stream. Qed.
End client.

(** ** Emptying the queue of a UDP session terminates *)
Section udp_writes.
Context `{!TuicCore, !TuicCoreLaws} {Q : Type} `{!QuicConn Q, !QuicLaws Q}.

Definition udp_good (w : TuicUdpWrite) : Prop := match w with UWPacket p => valid_packet p | UWHeartbeat => True end.
(** A whole packet may be cut into 255 fragments; nothing else is cut. *)
Definition udp_cost (w : TuicUdpWrite) : nat :=
  match w with UWPacket p => if frag_total p =? 1 then 256%nat else 1%nat | UWHeartbeat => 1%nat end.
Definition udp_queue_cost (l : list TuicUdpWrite) : nat := sum_list (udp_cost <$> l).

Lemma udp_queue_cost_bound l : (udp_queue_cost l ≤ 256 * length l)%nat.
Proof.
  induction l as [|x l IH]; [done|]. change (udp_queue_cost (x :: l)) with (udp_cost x + udp_queue_cost l)%nat.
  change (length (x :: l)) with (S (length l)). assert (udp_cost x ≤ 256)%nat; [|lia].
  destruct x as [p|]; simpl; [case_match|]; lia.
Qed.
Lemma udp_cost_pos x : (1 ≤ udp_cost x)%nat.
Proof. destruct x as [p|]; simpl; [case_match|]; lia. Qed.

Lemma requeue_all l (s : TuicUdpOutboundApp) :
  for_each (λ f, ua_push_front (UWPacket f)) l s =
    (Ok (), set_ua_pending_writes ((UWPacket <$> reverse l) ++ ua_pending_writes s) s).
Proof.
  revert s. induction l as [|f l IH]; intros s; [by destruct s|]. cbn [for_each].
  rw (SE_bind_ok _ _ s () (set_ua_pending_writes (UWPacket f :: ua_pending_writes s) s) eq_refl) IH.
  rw reverse_cons fmap_app -app_assoc. done.
Qed.

Lemma fragments_cost ps l :
  Forall (λ f, valid_packet f ∧ frag_total f ≠ 1) ps → Forall udp_good l →
  Forall udp_good ((UWPacket <$> ps) ++ l) ∧ udp_queue_cost ((UWPacket <$> ps) ++ l) = (length ps + udp_queue_cost l)%nat.
Proof.
  intros Hps Hl. induction Hps as [|f ps [Hv Ht] _ [IH1 IH2]]; [done|]. rw fmap_cons. cbn [app]. split; [by constructor|].
  change (udp_cost (UWPacket f) + udp_queue_cost ((UWPacket <$> ps) ++ l) = S (length ps) + udp_queue_cost l)%nat.
  rw IH2 /udp_cost. by rw (proj2 (Z.eqb_neq _ _) Ht).
Qed.

(** One turn of the loop that goes on makes the queue cheaper. *)
Lemma udp_write_cheaper x (s : TuicUdpOutboundApp) (q : Q) s' q' :
  udp_good x → Forall udp_good (ua_pending_writes s) → udp_write_one x (s, q) = (Ok true, (s', q')) →
  Forall udp_good (ua_pending_writes s') ∧
  (udp_queue_cost (ua_pending_writes s') < udp_cost x + udp_queue_cost (ua_pending_writes s))%nat.
Proof.
  intros Hx Hl Hrun. pose proof (udp_cost_pos x) as Hpos.
  assert (Hsame : s' = s → Forall udp_good (ua_pending_writes s') ∧
    (udp_queue_cost (ua_pending_writes s') < udp_cost x + udp_queue_cost (ua_pending_writes s))%nat) by (intros ->; split; [done|lia]).
  destruct x as [p|]; rw /udp_write_one /mbind /SE_bind /lift in Hrun.
  - destruct (encode_packet p) as [d|] eqn:He; [|done]. rw /on_quic in Hrun.
    destruct (dgram_send d q) as [[[]| | |e] q1] eqn:Hsend; [| | |done].
    + injection Hrun as <- <-. by apply Hsame.
    + done.
    + apply dgram_send_too_short in Hsend. rw (encode_packet_len p d Hx He) in Hsend.
      rw /gets /on_self /ua_requeue_fragments /= in Hrun.
      destruct (fragment_packet p _) as [ps|] eqn:Hf; [|injection Hrun as <- <-; by apply Hsame].
      destruct (oversized_split p _ ps Hx Hf Hsend) as (Ht & Hn & Hps).
      rw requeue_all in Hrun. injection Hrun as <- <-. simpl. rw reverse_involutive Ht.
      destruct (fragments_cost ps _ Hps Hl) as [H1 H2]. split; [done|]. rw H2. simpl. lia.
  - destruct encode_heartbeat as [hb|]; [|done]. rw /on_quic in Hrun.
    destruct (dgram_send hb q) as [[[]| | |e] q1]; try done. injection Hrun as <- <-. by apply Hsame.
Qed.

Lemma udp_loop_enough f1 f2 (s : TuicUdpOutboundApp) (q : Q) :
  Forall udp_good (ua_pending_writes s) →
  (udp_queue_cost (ua_pending_writes s) < f1)%nat → (udp_queue_cost (ua_pending_writes s) < f2)%nat →
  udp_write_loop f1 (s, q) = udp_write_loop f2 (s, q).
Proof.
  revert f2 s q. induction f1 as [|f1 IH]; intros f2 s q Hl H1 H2; [lia|]. destruct f2 as [|f2]; [lia|].
  cbn [udp_write_loop]. rw /mbind /SE_bind /gets /=. destruct (ua_pending_writes s) as [|x l] eqn:Hp; [done|].
  apply Forall_cons in Hl as [Hx Hl]. change (udp_queue_cost (x :: l)) with (udp_cost x + udp_queue_cost l)%nat in H1, H2.
  cbn [on_self modify]. destruct (udp_write_one x (set_ua_pending_writes l s, q)) as [[[]|e] [s2 q2]] eqn:Hone; [|done..].
  apply udp_write_cheaper in Hone as [Hl2 Hc]; [|done..]. simpl in Hc. apply IH; [done|lia..].
Qed.

(** Emptying the queue of a UDP session terminates: when every queued packet is
    valid, the bound of the model is never reached. *)
Theorem udp_writes_terminate fuel (s : TuicUdpOutboundApp) (q : Q) :
  Forall udp_good (ua_pending_writes s) → (udp_write_fuel (ua_pending_writes s) ≤ fuel)%nat →
  udp_write_loop fuel (s, q) = udp_write_loop (udp_write_fuel (ua_pending_writes s)) (s, q).
Proof.
  intros Hl Hf. pose proof (udp_queue_cost_bound (ua_pending_writes s)) as Hc. rw /udp_write_fuel in Hf |- *.
  apply udp_loop_enough; [done|lia..].
Qed.
End udp_writes.
