(* ===== verification/TuicEndToEnd.v ===== *)
(** * TUIC from end to end

    The client of src/protocol/tuic/outbound.rs against the server of
    src/protocol/tuic/inbound.rs: authentication, a CONNECT stream, and UDP
    packets with their fragmentation. *)
From S2P Require Import Prelude Text Net Config TuicCodec TuicFragment TuicLayout TuicInbound TuicStreams TuicOutbound TuicClient.

Section server.
Context `{!TuicCore, !TuicCoreLaws}.
Variables (ekm : bytes → bytes → option bytes) (ho : gmap Z PendingStream → list (Z * PendingStream)).
Variables (inb : bytes) (us : list TuicUser).
Hypothesis Hho : ∀ m, ho m ≡ₚ map_to_list m.

(** A connection on which nothing has happened, before its deadline. *)
Record fresh (w : World) : Prop := {
  fr_auth : authenticated (app w) = false;
  fr_deadline n : clock w n < authentication_deadline (app w);
  fr_bytes : pre_auth_bytes (app w) = 0;
  fr_items : pre_auth_items (app w) = 0;
  fr_uni : uni_streams (app w) = ∅;
  fr_commands : pending_uni_commands (app w) = [];
  fr_datagrams : pending_datagrams (app w) = [];
  fr_pending : pending_streams (app w) = ∅;
  fr_streams : streams (app w) = ∅;
  fr_users : tuic_users (app w) = us;
  fr_inbound : inbound (app w) = inb;
  fr_relays : relays w = [];
}.

(** Authenticated, and ready for streams. *)
Definition ready (name : bytes) (w : World) : Prop :=
  authenticated (app w) = true ∧ app_username (app w) = Some name ∧ streams (app w) = ∅ ∧ pending_streams (app w) = ∅ ∧
  inbound (app w) = inb ∧ relays w = [].

Lemma fresh_check w : fresh w → ∃ w', check_authentication_deadline w = (Ok (), w') ∧ fresh w' ∧ app w' = app w.
Proof.
  intros Hf. pose proof (fr_deadline w Hf (ticks w)) as Hd.
  rw /check_authentication_deadline /mbind /SE_bind /self /gets /now (fr_auth w Hf) /=.
  destruct (Z.leb_spec (authentication_deadline (app w)) (clock w (ticks w))); [lia|].
  eexists. split; [done|]. split; [|done]. destruct Hf. by split.
Qed.

Lemma fresh_cleanup w : fresh w → ∃ w', maybe_cleanup_udp_state w = (Ok (), w') ∧ fresh w'.
Proof.
  intros [H1 H2 H3 H4 H5 H6 H7 H8 H9 H10 H11 H12]. rw /maybe_cleanup_udp_state /mbind /SE_bind /self /gets /now /=.
  case_match; (eexists; split; [done|]); by split.
Qed.

Lemma fresh_reserve w b :
  fresh w → 0 ≤ b ≤ MAX_PRE_AUTH_BYTES →
  ∃ w', reserve_pre_auth b 1 w = (Ok (), w') ∧ app w' = set_pre_auth_items 1 (set_pre_auth_bytes b (app w)) ∧
    clock w' = clock w ∧ relays w' = relays w.
Proof.
  intros Hf Hb. destruct (fresh_check w Hf) as (w1 & E & Hf1 & Happ). rw /reserve_pre_auth (SE_bind_ok _ _ _ _ _ E).
  rw /mbind /SE_bind /self /gets /with_app /modify (fr_auth w1 Hf1) (fr_bytes w1 Hf1) (fr_items w1 Hf1).
  change (sub_usize MAX_PRE_AUTH_BYTES 0) with MAX_PRE_AUTH_BYTES. change (sub_usize MAX_PRE_AUTH_ITEMS 0) with MAX_PRE_AUTH_ITEMS.
  rw (proj2 (Z.ltb_ge _ _)); [lia|]. rw (proj2 (Z.ltb_ge _ _)); [done|]. simpl.
  eexists. split; [done|]. simpl. rw (fr_bytes w1 Hf1) (fr_items w1 Hf1) Happ.
  split; [done|]. rw /check_authentication_deadline /mbind /SE_bind /self /gets /now (fr_auth w Hf) /= in E.
  case_match; [done|]. by injection E as <-.
Qed.

Lemma auth_command uuid tok :
  length uuid = 16%nat → wf_bytes uuid → length tok = TOKEN_LEN → wf_bytes tok →
  ∃ auth, encode_authenticate uuid tok = Ok auth ∧ length auth = AUTHENTICATE_LEN ∧
    auth !!! 1%nat = CMD_AUTHENTICATE ∧ parse_authenticate auth = Ok (uuid, tok).
Proof.
  intros Hu Hwu Ht Hwt. destruct (unmarshal_marshal (HAuthenticate uuid tok)) as (auth & Hm & Hun & _); [by split_and!|].
  exists auth. split_and!; [done|by eapply marshal_authenticate_len| |].
  - by destruct (marshal_prefix _ _ Hm) as [body ->].
  - specialize (Hun []). rw app_nil_r in Hun. by rw /parse_authenticate /parse_header Hun.
Qed.

(** The authentication command opens the connection. *)
Lemma auth_data_opens u uuid tok auth handle w :
  parse_authenticate auth = Ok (uuid, tok) → find (λ u, str_eqb (user_uuid u) uuid) us = Some u →
  ekm (user_uuid u) (user_password u) = Some tok →
  authenticated (app w) = false → (∀ n, clock w n < authentication_deadline (app w)) →
  tuic_users (app w) = us → pending_uni_commands (app w) = [] → pending_datagrams (app w) = [] →
  pending_streams (app w) = ∅ → streams (app w) = ∅ → inbound (app w) = inb → relays w = [] →
  ∃ w', handle_auth_data ekm ho handle auth w = (Ok (), w') ∧ ready (user_name u) w'.
Proof.
  intros Hp Hfind Hk Ha Hd Hus Hcmd Hdg Hps Hst Hin Hrl. specialize (Hd (ticks w)).
  assert (Ho : ho ∅ = []) by (apply Permutation_nil_r; by rw (Hho ∅) map_to_list_empty).
  rw /handle_auth_data /check_authentication_deadline /mbind /SE_bind /self /gets /now Ha /=.
  destruct (Z.leb_spec (authentication_deadline (app w)) (clock w (ticks w))); [lia|].
  rw /lift Hp /=. rw Hus Hfind /token /export_keying_material_raw_label Hk /=. rw (proj2 (str_eqb_eq tok tok) eq_refl) /=.
  rw Hcmd /= Hdg /= Hps Ho /=. eexists. split; [done|]. by split_and!.
Qed.

Lemma fresh_authenticates w u uuid tok auth :
  fresh w → length auth = AUTHENTICATE_LEN → auth !!! 1%nat = CMD_AUTHENTICATE →
  parse_authenticate auth = Ok (uuid, tok) → find (λ u, str_eqb (user_uuid u) uuid) us = Some u →
  ekm (user_uuid u) (user_password u) = Some tok →
  ∃ w', handle_unidirectional_stream ekm ho AUTH_STREAM_ID auth true w = (Ok (), w') ∧ ready (user_name u) w'.
Proof.
  intros Hf Hl Hc Hp Hfind Hk. rw /handle_unidirectional_stream. rw {1}/mbind {1}/SE_bind {1}/self {1}/gets.
  rw (fr_uni w Hf) lookup_empty.
  destruct (fresh_reserve w (len auth) Hf) as (w1 & E1 & Happ & Hclk & Hrl); [rw /len Hl; done|].
  rw (SE_bind_ok _ _ _ _ _ E1). cbn [default]. rw app_nil_l Hl Hc Z.eqb_refl. cbn [andb negb].
  rw {1}/mbind {1}/SE_bind {1}/with_app {1}/modify. cbv beta iota zeta.
  change (Nat.leb AUTHENTICATE_LEN AUTHENTICATE_LEN && true && negb (Nat.eqb AUTHENTICATE_LEN AUTHENTICATE_LEN)) with false.
  cbv beta iota. rw {1}/mbind {1}/SE_bind {1}/with_app {1}/modify. cbv beta iota.
  rw {1}/mbind {1}/SE_bind. cbn [when]. rw /mret /SE_ret. cbv beta iota. cbn [handle_unidirectional_command COMMAND_FUEL].
  assert ((len auth <? 2) = false) as ->. { apply Z.ltb_ge. rw /len Hl. done. }
  rw {1}/mbind {1}/SE_bind {1}/self {1}/gets. cbv beta iota. rw Hc Z.eqb_refl.
  apply (auth_data_opens u uuid tok); simpl; rw ?Happ ?Hclk ?Hrl; try done; destruct Hf; done.
Qed.
End server.

(** ** A CONNECT stream *)
Section tcp.
Context `{!TuicCore, !TuicCoreLaws} {Q : Type} `{!QuicConn Q, !QuicLaws Q}.

(** The auth stream holds what establishing put there. *)
Lemma connection_auth ekm uuid password t now (q : Q) evs s' q' tok auth hd :
  token ekm uuid password = Ok tok → encode_authenticate uuid tok = Ok auth → encode_connect t [] = Ok hd →
  client_connection ekm evs (client_app_new uuid password t now, q) = (Ok (), (s', q')) →
  ∃ k, accepted q' AUTH_STREAM_ID = accepted q AUTH_STREAM_ID ++ take k auth.
Proof.
  intros Ht Ha Hh Hrun. apply SE_bind_inv in Hrun as ([] & sq & H1 & H2).
  apply (established_stream ekm (client_app_new uuid password t now) q sq auth tok hd) in H1 as [_ [k Hk]]; [|done..].
  exists k. pose proof (keeps_for_each (auth_is (accepted q AUTH_STREAM_ID ++ take k auth)) client_event evs
    (auth_event _) sq Hk) as H3. rw H2 in H3. exact H3.
Qed.

End tcp.

(** ** UDP packets

    A connection that takes datagrams of up to [max] bytes and does not block. *)
Class SteadyDatagrams (Q : Type) `{!QuicConn Q} (max : nat) := {
  sent_dgrams : Q → list bytes;
  steady_send data q : (length data ≤ max)%nat →
    ∃ q', dgram_send data q = (Sent (), q') ∧ sent_dgrams q' = sent_dgrams q ++ [data];
  steady_refuse data q : (max < length data)%nat →
    ∃ q', dgram_send data q = (BufferTooShort, q') ∧ sent_dgrams q' = sent_dgrams q;
  steady_max q : dgram_max_writable_len q = Some max;
}.

Section udp_client.
Context `{!TuicCore, !TuicCoreLaws} {Q : Type} `{!QuicConn Q} (max : nat) `{!SteadyDatagrams Q max}.
Implicit Types (s : TuicUdpOutboundApp) (q : Q).

Lemma udp_loop_step fuel w rest s q :
  udp_write_loop (S fuel) (set_ua_pending_writes (w :: rest) s, q) =
    (go ← udp_write_one w; if (go : bool) then udp_write_loop fuel else mret ()) (set_ua_pending_writes rest s, q).
Proof. done. Qed.

Lemma udp_loop_sends ps ds fuel s q :
  Forall2 (λ p d, encode_packet p = Ok d ∧ (length d ≤ max)%nat) ps ds → (length ps < fuel)%nat →
  ∃ q', udp_write_loop fuel (set_ua_pending_writes (UWPacket <$> ps) s, q) = (Ok (), (set_ua_pending_writes [] s, q')) ∧
    sent_dgrams q' = sent_dgrams q ++ ds.
Proof.
  intros Hps. revert fuel q. induction Hps as [|p d ps ds [He Hd] _ IH]; intros fuel q Hf; (destruct fuel as [|fuel]; [simpl in Hf; lia|]).
  { exists q. by rw app_nil_r. }
  destruct (steady_send d q Hd) as (q1 & E1 & S1). destruct (IH fuel q1) as (q2 & E2 & S2); [simpl in Hf; lia|].
  exists q2. rw fmap_cons udp_loop_step. split; [|by rw S2 S1 -app_assoc].
  rw /udp_write_one He /mbind /SE_bind /lift /on_quic E1. exact E2.
Qed.

(** A packet leaves as the datagrams of its fragments. *)
Lemma udp_sends_packet p ps s q :
  valid_packet p → fragment_packet p max = Ok ps → ua_pending_writes s = [] → ua_outbound_rx s = [UWPacket p] →
  ∃ s' q' ds, udp_process_writes (s, q) = (Ok (), (s', q')) ∧ sent_dgrams q' = sent_dgrams q ++ ds ∧
    Forall2 (λ f d, encode_packet f = Ok d) ps ds.
Proof.
  intros Hv Hf Hp Hr. destruct (fragment_packet_fits p max Hv) as [Hfit _]. destruct (Hfit ps Hf) as (Hall & _ & Hn).
  assert (∃ ds, Forall2 (λ f d, encode_packet f = Ok d ∧ (length d ≤ max)%nat) ps ds) as [ds Hds].
  { clear -Hall. induction Hall as [|f ps (_ & enc & He & Hl) _ [ds IH]]; [by exists []|].
    exists (enc :: ds). by constructor. }
  pose proof (encode_packet_total p Hv) as Hok. destruct (encode_packet p) as [enc|] eqn:He; [|done].
  set (s1 := set_ua_outbound_rx [] s).
  assert (E0 : udp_process_writes (s, q) = udp_write_loop 257 (set_ua_pending_writes [UWPacket p] s1, q)).
  { rw /udp_process_writes /mbind /SE_bind /=. rw Hp Hr. done. }
  assert (Hds' : Forall2 (λ f d, encode_packet f = Ok d) ps ds) by (eapply Forall2_impl; [exact Hds|]; by intros ? ? [? _]).
  rw E0 udp_loop_step. destruct (decide (length enc ≤ max)%nat) as [Hle|Hgt].
  - assert (ps = [p]) as ->. { rw /fragment_packet He /= decide_True // in Hf. by injection Hf. }
    destruct (udp_loop_sends [p] ds 257 s1 q Hds ltac:(simpl; lia)) as (q' & E & S). rw udp_loop_step in E.
    do 3 eexists. split; [exact E|]. by split.
  - destruct (steady_refuse enc q) as (q1 & E1 & S1); [lia|].
    destruct (udp_loop_sends ps ds 256 s1 q1 Hds ltac:(lia)) as (q' & E & S).
    exists (set_ua_pending_writes [] s1), q', ds. split; [|split; [by rw S S1|done]].
    rw /udp_write_one He /mbind /SE_bind /lift /on_quic E1 /gets /=. rw steady_max /= /ua_requeue_fragments Hf.
    rw requeue_all reverse_involutive. simpl. rw app_nil_r. exact E.
Qed.
End udp_client.

Section udp_server.
Context `{!TuicCore, !TuicCoreLaws} {Q : Type} `{!QuicConn Q}.

(** Packets with the times the server's clock gives them, one reading each. *)
Fixpoint clocked (cl : nat → Z) (n : nat) (fs : list Packet) : list (Packet * Z) :=
  match fs with
  | [] => []
  | f :: fs => (f, cl n) :: clocked cl (S n) fs
  end.
Lemma clocked_fst cl n fs : (clocked cl n fs).*1 = fs.
Proof. revert n. induction fs as [|f fs IH]; intros n; [done|]. simpl. f_equal. apply IH. Qed.
Lemma clocked_times (P : Z → Prop) cl n fs : (∀ n, P (cl n)) → Forall (λ x, P x.2) (clocked cl n fs).
Proof. intros HP. revert n. induction fs as [|f fs IH]; intros n; constructor; [apply HP|apply IH]. Qed.

(** A datagram of a packet reaches the packet handler. *)
Lemma read_packet_datagram f d w (q : Q) :
  valid_packet f → encode_packet f = Ok d → authenticated (app w) = true →
  read_datagram d (w, q) = on_world (handle_packet d Native) (w, q).
Proof.
  intros Hv He Ha. rw encode_packet_ok // in He. apply Result_bind_inv in He as (hd & Hm & [= <-]).
  destruct (marshal_prefix _ _ Hm) as [body ->].
  assert (Hne : CMD_PACKET ≠ CMD_HEARTBEAT).
  { intros E. pose proof commands_distinct as Hnd. rw E in Hnd. do 2 apply NoDup_cons in Hnd as [_ Hnd].
    apply NoDup_cons in Hnd as [Hnd _]. apply Hnd. right. by left. }
  assert (Hl : (len ((VERSION :: type_code (packet_header f) :: body) ++ payload f) <? 2) = false).
  { apply Z.ltb_ge. rw /len /=. lia. }
  assert (Hcheck : check_authentication_deadline w = (Ok (), w))
    by by rw /check_authentication_deadline /mbind /SE_bind /self /gets Ha.
  rw /read_datagram. change ((VERSION :: type_code (packet_header f) :: body) ++ payload f) with
    (VERSION :: CMD_PACKET :: body ++ payload f) in Hl |- *.
  change ((VERSION :: CMD_PACKET :: body ++ payload f) !!! 1%nat) with CMD_PACKET.
  rw (proj2 (Z.eqb_neq _ _) Hne) andb_false_r /on_world /handle_datagram (SE_bind_ok _ _ _ _ _ Hcheck) Hl.
  change ((VERSION :: CMD_PACKET :: body ++ payload f) !!! 1%nat) with CMD_PACKET.
  rw (proj2 (Z.eqb_neq _ _) Hne) Z.eqb_refl. rw {1}/mbind {1}/SE_bind /self /gets Ha. done.
Qed.

Definition assembled_world (asm : PacketAssembler) (w : World) : World :=
  MkWorld (set_packet_assembler asm (app w)) (relays w) (udp_tasks w) (clock w) (S (ticks w)).

Lemma server_waits d f w asm :
  parse_packet d = Ok f → push f (clock w (ticks w)) (packet_assembler (app w)) = (Ok None, asm) →
  handle_packet d Native w = (Ok (), assembled_world asm w).
Proof.
  intros Hp Hpush. rw /handle_packet /assemble /mbind /SE_bind /lift /now /self /gets Hp /=. by rw Hpush.
Qed.

Lemma server_delivers d f w asm p t :
  parse_packet d = Ok f → push f (clock w (ticks w)) (packet_assembler (app w)) = (Ok (Some p), asm) →
  target p = Some t → udp_sessions (app w) !! assoc_id p = None →
  ∃ w', handle_packet d Native w = (Ok (), w') ∧
    udp_tasks w' = udp_tasks w ++ [MkUdpTask (inbound (app w)) (assoc_id p) Native
                                     (MkChan [MkUdpRequest t (payload p)] UDP_CHANNEL_CAPACITY false)].
Proof.
  intros Hp Hpush Ht Hs. rw /handle_packet /assemble /mbind /SE_bind /lift /now /self /gets Hp /=.
  rw Hpush /= Ht /= Hs /=. rw /udp_try_send /= lookup_snoc_last /=.
  eexists. split; [done|]. simpl. by rw insert_snoc_last.
Qed.

(** The datagrams of one packet: nothing until the last, then the request. *)
Lemma server_reassembles fs ds w (q : Q) n p t :
  Forall2 (λ f d, valid_packet f ∧ encode_packet f = Ok d) fs ds →
  (push_run (clocked (clock w) (ticks w) (wire_packet <$> fs)) (packet_assembler (app w))).1.*2 =
    replicate n (Ok None) ++ [Ok (Some p)] →
  authenticated (app w) = true → target p = Some t → udp_sessions (app w) !! assoc_id p = None →
  ∃ w', for_each read_datagram ds (w, q) = (Ok (), (w', q)) ∧
    udp_tasks w' = udp_tasks w ++ [MkUdpTask (inbound (app w)) (assoc_id p) Native
                                     (MkChan [MkUdpRequest t (payload p)] UDP_CHANNEL_CAPACITY false)].
Proof.
  intros Hfs. revert w n. induction Hfs as [|f d fs ds [Hv He] Hds IH]; intros w n Hrun Ha Ht Hs; [by destruct n|].
  pose proof (parse_encoded f d Hv He) as Hp. rw fmap_cons in Hrun. cbn [clocked push_run] in Hrun.
  destruct (push (wire_packet f) (clock w (ticks w)) (packet_assembler (app w))) as [r asm] eqn:Hpush.
  destruct (push_run (clocked (clock w) (S (ticks w)) (wire_packet <$> fs)) asm) as [rs asm'] eqn:Hrest.
  cbn [for_each]. destruct n as [|n].
  - injection Hrun as -> Hnil. apply fmap_nil_inv in Hnil as ->.
    destruct (server_delivers d _ w asm p t Hp Hpush Ht Hs) as (w' & E & Hw').
    assert (fs = []) as ->.
    { apply (f_equal fst) in Hrest. destruct fs as [|g fs]; [done|]. rw fmap_cons in Hrest. cbn [clocked push_run] in Hrest.
      destruct (push _ _ asm) as [r2 asm2]. by destruct (push_run _ asm2). }
    apply Forall2_nil_inv_l in Hds as ->. exists w'. rw (SE_bind_ok (read_datagram d) _ (w, q) () (w', q)); [|done].
    by rw (read_packet_datagram f d w q Hv He Ha) /on_world E.
  - injection Hrun as -> Hrun.
    destruct (IH (assembled_world asm w) n) as (w' & E & Hw'); [by rw Hrest|done..|].
    exists w'. split; [|done].
    rw (SE_bind_ok (read_datagram d) _ (w, q) () (assembled_world asm w, q)); [|done].
    by rw (read_packet_datagram f d w q Hv He Ha) /on_world (server_waits d (wire_packet f) w asm Hp Hpush).
Qed.
End udp_server.

Lemma perm_Forall2 {A B} (R : A → B → Prop) l ds ds' :
  ds ≡ₚ ds' → Forall2 R l ds → ∃ l', l' ≡ₚ l ∧ Forall2 R l' ds'.
Proof.
  intros Hp. revert l. induction Hp as [|d ds ds' _ IH|d1 d2 ds|ds1 ds2 ds3 _ IH1 _ IH2]; intros l Hl.
  - by exists l.
  - apply Forall2_cons_inv_r in Hl as (x & l1 & Hx & H1 & ->). destruct (IH l1 H1) as (l' & Hl' & H2).
    exists (x :: l'). split; [by rw Hl'|by constructor].
  - apply Forall2_cons_inv_r in Hl as (x & l1 & Hx & H1 & ->). apply Forall2_cons_inv_r in H1 as (y & l2 & Hy & H2 & ->).
    exists (y :: x :: l2). split; [constructor|]. constructor; [done|]. by constructor.
  - destruct (IH1 l Hl) as (l1 & Hl1 & H1). destruct (IH2 l1 H1) as (l2 & Hl2 & H2). exists l2. split; [by rw Hl2|done].
Qed.

Section udp.
Context `{!TuicCore, !TuicCoreLaws} {Q : Type} `{!QuicConn Q} (max : nat) `{!SteadyDatagrams Q max}.

(** Fragmentation commutes with what the wire keeps of a target. *)
Lemma fragment_wire p ps :
  valid_packet p → fragment_packet p max = Ok ps → fragment_packet (wire_packet p) max = Ok (wire_packet <$> ps).
Proof.
  intros Hv. pose proof (valid_wire_packet p Hv) as Hvw. pose proof (encode_packet_total p Hv) as Hok.
  pose proof (encode_packet_total _ Hvw) as Hokw. rw /fragment_packet.
  destruct (encode_packet p) as [e|] eqn:He; [|done]. destruct (encode_packet (wire_packet p)) as [e'|] eqn:He'; [|done].
  assert (Hl : length e' = length e).
  { rw (encode_packet_len _ _ Hv He) (encode_packet_len _ _ Hvw He'). by rw packet_address_wire packet_header_len_wire. }
  cbn [mbind Result_bind]. rw Hl. case_decide; [by intros [= <-]|]. cbn [frag_total frag_id payload wire_packet].
  destruct (ensure _ _); [|done]. cbn [mbind Result_bind]. destruct (context _ _); [|done]. cbn [mbind Result_bind].
  destruct (ensure _ _); [|done]. cbn [mbind Result_bind]. intros [= <-]. rw fmap_imap. f_equal.
  apply imap_ext. intros i c _. rw /wire_packet /=. f_equal. by case_decide.
Qed.

Lemma fragment_keys p ps : valid_packet p → fragment_packet p max = Ok ps → Forall (λ f, key_of f = key_of p) ps.
Proof.
  intros Hv [[-> _]|[cap [_ _ _ _ ->]]]%fragment_packet_inv; [by constructor| |done].
  apply Forall_lookup_2. intros i f (c & _ & ->)%list_lookup_imap_Some. done.
Qed.
Lemma of_key_all {A} k (l : list (Packet * A)) : Forall (λ f, key_of f = k) l.*1 → of_key k l = l.
Proof.
  induction l as [|x l IH]; intros Hl; [done|]. apply Forall_cons in Hl as [Hx Hl].
  rw /of_key filter_cons_True; [done|]. f_equal. by apply IH.
Qed.
Lemma push_run_fst l m : (push_run l m).1.*1 = l.*1.
Proof.
  revert m. induction l as [|[f n] l IH]; intros m; [done|]. cbn [push_run]. destruct (push f n m) as [r m'].
  specialize (IH m'). destruct (push_run l m') as [rs m'']. simpl in *. f_equal. exact IH.
Qed.

(** C12: A UDP datagram through TUIC from end to end. The client's session hands
    the datagram to its connection, which sends it as one packet or, when it is
    larger than the connection's datagrams, as fragments; the server gets those
    datagrams in any order within thirty seconds. Then exactly one UDP task is
    started for the association, and its first request is to send exactly that
    payload to exactly that target. *)
Theorem tuic_udp_end_to_end target payload s a (q : Q) w (qs : Q) t0 :
  wf_target target → fits_wire target = true → wf_bytes payload → len payload ≤ U16_MAX →
  tu_closed s = false → is_u16 (tu_pkt_id s) →
  (packet_header_len (target_address target) < max)%nat →
  len payload ≤ 255 * Z.of_nat (max - packet_header_len (target_address target)) →
  ua_pending_writes a = [] →
  authenticated (app w) = true → packet_assembler (app w) = ∅ → udp_sessions (app w) = ∅ →
  (∀ n, t0 ≤ clock w n < t0 + FRAGMENT_IDLE_TIMEOUT) →
  ∃ s' x, tuic_send_to target payload s = (Ok (), s') ∧ tu_sent s' = tu_sent s ++ [x] ∧
  ∃ a' q' ds, udp_process_writes (set_ua_outbound_rx [x] a, q) = (Ok (), (a', q')) ∧
    sent_dgrams q' = sent_dgrams q ++ ds ∧
  ∀ ds', ds ≡ₚ ds' → ∃ w', for_each read_datagram ds' (w, qs) = (Ok (), (w', qs)) ∧
    udp_tasks w' = udp_tasks w ++ [MkUdpTask (inbound (app w)) 1 Native
                     (MkChan [MkUdpRequest (wire_target target) payload] UDP_CHANNEL_CAPACITY false)].
Proof.
  intros Hwf Hfit Hwp Hlp Hc Hid Hhd Hroom Hap Ha Hasm Hus Hclk.
  set (p := MkPacket 1 (tu_pkt_id s) 1 0 (Some target) payload).
  assert (Hv : valid_packet p) by (split; simpl; [done|done|lia|lia|done|done|by intros t [= <-]]).
  destruct (fragment_packet_fits p max Hv) as [_ Hok]. specialize (Hok eq_refl eq_refl Hhd Hroom).
  destruct (fragment_packet p max) as [ps|] eqn:Hf; [|done].
  eexists _, (UWPacket p). split.
  { rw /tuic_send_to /mbind /SE_bind /lift /gets /modify ensure_true; [by apply Z.leb_le|]. by rw Hc. }
  split; [done|].
  destruct (udp_sends_packet max p ps (set_ua_outbound_rx [UWPacket p] a) q Hv Hf Hap eq_refl)
    as (a' & q' & ds & E & Hsent & Henc). exists a', q', ds. split_and!; [done..|]. intros ds' Hperm.
  destruct (fragment_packet_fits p max Hv) as [Hall _]. destruct (Hall ps Hf) as (Hvs & _ & Hn).
  assert (Hboth : Forall2 (λ f d, valid_packet f ∧ encode_packet f = Ok d) ps ds).
  { clear -Hvs Henc. induction Henc as [|f d ps ds He _ IH]; [constructor|].
    apply Forall_cons in Hvs as [[Hf _] Hvs]. constructor; [done|by apply IH]. }
  destruct (perm_Forall2 _ ps ds ds' Hperm Hboth) as (fs & Hfs & Hfds).
  set (arr := clocked (clock w) (ticks w) (wire_packet <$> fs)).
  assert (Hkeys : Forall (λ f, key_of f = key_of (wire_packet p)) arr.*1).
  { rw clocked_fst Forall_fmap Hfs. exact (fragment_keys p ps Hv Hf). }
  destruct (fragments_reassemble (wire_packet p) max (wire_packet <$> ps) (wire_target target) t0 ∅ arr) as [Hrun _];
    [by apply valid_wire_packet|done..|by apply fragment_wire|done|by apply (clocked_times (λ z, t0 ≤ z < t0 + FRAGMENT_IDLE_TIMEOUT))| |].
  { rw of_key_all; [done|]. rw clocked_fst. by rw Hfs. }
  rw of_key_all in Hrun; [by rw push_run_fst|]. rw -Hasm in Hrun.
  destruct (server_reassembles fs ds' w qs _ (wire_packet p) (wire_target target) Hfds Hrun Ha eq_refl) as (w' & Ew & Hw');
    [by rw Hus|]. by exists w'.
Qed.
End udp.

(** ** A connection for the witnesses

    Streams are never blocked, datagrams have at most 40 bytes. *)
Record OpenConn := MkOpen { oc_streams : Z → bytes; oc_dgrams : list bytes; oc_ended : Z → bool }.

#[local] Instance open_conn : QuicConn OpenConn := {|
  stream_send id data fin q :=
    (Sent (length data), MkOpen (λ j, if j =? id then oc_streams q j ++ data else oc_streams q j) (oc_dgrams q)
       (λ j, if j =? id then oc_ended q j || fin else oc_ended q j));
  dgram_send data q :=
    if Nat.leb (length data) 40 then (Sent (), MkOpen (oc_streams q) (oc_dgrams q ++ [data]) (oc_ended q)) else (BufferTooShort, q);
  dgram_max_writable_len _ := Some 40%nat;
|}.
#[local] Program Instance open_laws : QuicLaws OpenConn := {| accepted := oc_streams |}.
Next Obligation.
  intros id data fin q k q'. simpl. intros [= <- <-]. simpl. rw Z.eqb_refl firstn_all.
  split_and!; [lia|done|]. intros j Hj. by destruct (Z.eqb_spec j id).
Qed.
Next Obligation. intros id data fin q r q' j. simpl. intros [= <- <-] Hr. by destruct (Hr (length data)). Qed.
Next Obligation. intros data q r q' j. simpl. case_match; by intros [= <- <-]. Qed.
Next Obligation.
  intros data q q'. simpl. destruct (Nat.leb_spec (length data) 40); [done|]. intros [= <-]. simpl. lia.
Qed.
#[local] Program Instance open_steady : SteadyDatagrams OpenConn 40 := {| sent_dgrams := oc_dgrams |}.
Next Obligation. intros data q Hl. simpl. rw (proj2 (Nat.leb_le _ _) Hl). by eexists. Qed.
Next Obligation. intros data q Hl. simpl. rw (proj2 (Nat.leb_gt _ _) Hl). by eexists. Qed.
Next Obligation. done. Qed.

Definition empty_conn : OpenConn := MkOpen (λ _, []) [] (λ _, false).
Definition demo_uuid : bytes := replicate 16 7.
Definition demo_ekm (uuid password : bytes) : option bytes := Some (take 32 (uuid ++ password ++ replicate 32 0)).
Definition demo_user : TuicUser := MkTuicUser (str "alice") demo_uuid (str "secret").
Definition demo_client_events : list TuicClientEvent :=
  [CEWrites; CEAppRead (Ok [1; 2; 3]); CEWaitWrite; CEAppRead (Ok [4]); CEWrites; CEWaitTimer 10; CEAppRead (Ok []); CEWrites].
Definition demo_client : TuicClientApp * OpenConn :=
  (client_connection demo_ekm demo_client_events
     (client_app_new demo_uuid (str "secret") demo_target 0, empty_conn)).2.
Lemma tuic_client_stream_witness :
  accepted demo_client.2 CONNECT_STREAM_ID ++ waiting_data demo_client.1 =
    accepted empty_conn CONNECT_STREAM_ID ++
      match encode_connect demo_target [] with Ok hd => hd | Err _ => [] end ++ event_data demo_client_events.
Proof.
  apply (tuic_client_stream demo_ekm demo_uuid (str "secret") demo_target 0 empty_conn demo_client_events demo_client.1
    demo_client.2 (take 32 (demo_uuid ++ str "secret" ++ replicate 32 0))
    ([5; 0] ++ demo_uuid ++ take 32 (demo_uuid ++ str "secret" ++ replicate 32 0))).
  - reflexivity.
  - vm_compute. reflexivity.
  - vm_compute. reflexivity.
  - vm_compute. reflexivity.
Defined.

Definition demo_payload : bytes := map Z.of_nat (seq 0 60).
Definition demo_tuic_server : World :=
  MkWorld (set_authenticated true (app_new (str "in") [demo_user] 0 0)) [] [] (λ _, 5) 0.

Lemma tuic_udp_end_to_end_witness :
  ∃ s' x, tuic_send_to demo_target demo_payload tuic_udp_new = (Ok (), s') ∧ tu_sent s' = tu_sent tuic_udp_new ++ [x] ∧
  ∃ a' q' ds, udp_process_writes (set_ua_outbound_rx [x] (udp_app_new demo_uuid (str "secret") 0), empty_conn)
      = (Ok (), (a', q')) ∧ sent_dgrams q' = sent_dgrams empty_conn ++ ds ∧
  ∀ ds', ds ≡ₚ ds' → ∃ w', for_each read_datagram ds' (demo_tuic_server, empty_conn) = (Ok (), (w', empty_conn)) ∧
    udp_tasks w' = [] ++ [MkUdpTask (str "in") 1 Native
                     (MkChan [MkUdpRequest demo_target demo_payload] UDP_CHANNEL_CAPACITY false)].
Proof.
  apply (tuic_udp_end_to_end 40 demo_target demo_payload tuic_udp_new (udp_app_new demo_uuid (str "secret") 0) empty_conn
    demo_tuic_server empty_conn 0); by_decide || reflexivity || idtac.
  intros n. simpl. by_decide.
Defined.
