(* ===== verification/TuicServer.v ===== *)
(** * The server of a TUIC stream (src/protocol/tuic/inbound.rs)

    A connection that a client of src/protocol/tuic/outbound.rs made, with the
    authentication on one stream, a CONNECT on another, and heartbeats, next to
    the relay task of that CONNECT: the callbacks of the connection and the
    turns of the task in any order. What the task has written to the connection
    it dialed, what QUIC has taken, and the ends of both; then the way up from
    the client. *)
From S2P Require Import Prelude Text Net Config TuicCodec TuicFragment TuicLayout TuicInbound TuicStreams TuicRelay TuicOutbound TuicClient TuicEndToEnd.

(** ** What is received on a stream *)

(** The payload of a stream, up to its end or an error, and whether it ended. *)
Fixpoint hear (rs : list StreamRead) : bytes :=
  match rs with
  | ReadData data fin :: rs => data ++ if fin then [] else hear rs
  | _ => []
  end.
Fixpoint heard_end (rs : list StreamRead) : bool :=
  match rs with
  | ReadData _ fin :: rs => fin || heard_end rs
  | _ => false
  end.

(** As QUIC delivers a stream: without an error, and nothing after its end. *)
Fixpoint orderly (rs : list StreamRead) : bool :=
  match rs with
  | [] => true
  | ReadData _ true :: rs => match rs with [] => true | _ => false end
  | ReadData _ false :: rs => orderly rs
  | ReadError _ :: _ => false
  end.

Lemma orderly_app l k :
  orderly (l ++ k) = true →
  orderly l = true ∧ (heard_end l = true → k = []) ∧ hear (l ++ k) = hear l ++ hear k ∧
  heard_end (l ++ k) = heard_end l || heard_end k.
Proof.
  induction l as [|[d [|]|e] l IH]; simpl; [done| |intros Ho|done].
  - destruct l as [|x l]; [|done]. destruct k; [|done]. simpl. by rw !app_nil_r.
  - destruct (IH Ho) as (H1 & H2 & -> & ->). split_and!; [done..|by rw app_assoc|done].
Qed.
Lemma orderly_snoc l d f :
  orderly (l ++ [ReadData d f]) = true →
  heard_end l = false ∧ hear (l ++ [ReadData d f]) = hear l ++ d ∧ heard_end (l ++ [ReadData d f]) = f.
Proof.
  intros (_ & H1 & -> & ->)%orderly_app. destruct (heard_end l); [by discriminate H1|]. simpl.
  split_and!; [done|by destruct f; rw app_nil_r|by rw orb_false_r].
Qed.

Definition reads_on (sid : Z) (readable : list (Z * list StreamRead)) : list StreamRead :=
  concat ((λ x, if x.1 =? sid then x.2 else []) <$> readable).

(** ** The end of a stream

    What is relied on of QUIC for the end of what is sent on a stream: it is
    taken with the last byte offered with it; and when a stream without anything
    left to send takes no end either, QUIC has done with it. *)
Class QuicEnds (Q : Type) `{!QuicConn Q} := {
  (** whether the end of a stream was taken *)
  finished : Q → Z → bool;
  finish_sent id data fin q k q' :
    stream_send id data fin q = (Sent k, q') → finished q' id = finished q id || (fin && Nat.eqb k (length data));
  finish_collected id q q' : stream_send id [] true q = (Done, q') → finished q' id = true;
  finish_refused id data fin q q' :
    stream_send id data fin q = (Done, q') → fin && bool_decide (data = []) = false → finished q' id = finished q id;
  finish_other id data fin q r q' j : stream_send id data fin q = (r, q') → j ≠ id → finished q' j = finished q j;
  finish_dgram data q r q' j : dgram_send data q = (r, q') → finished q' j = finished q j;
}.

(** ** The connection and its relay *)
Record Srv (Q : Type) := MkSrv { sv_world : World; sv_quic : Q; sv_task : option RelayTask }.
Arguments MkSrv {Q} _ _ _.
Arguments sv_world {Q} _.
Arguments sv_quic {Q} _.
Arguments sv_task {Q} _.

(** What happens: a callback of the connection; the relay task has dialed and
    written its initial data; it turns to the client's side, or has read from
    the connection it dialed (nothing: its end). *)
Inductive SrvEvent := SvConn (ev : ConnEvent) | SvStart | SvClient | SvRemote (data : bytes).

Section system.
Context `{!TuicCore} {Q : Type} `{!QuicConn Q}.
Variable ekm : bytes → bytes → option bytes.
Variable ho : gmap Z PendingStream → list (Z * PendingStream).

Definition is_heartbeat (d : bytes) : bool := (2 <=? len d) && (d !!! 0%nat =? VERSION) && (d !!! 1%nat =? CMD_HEARTBEAT).
(** The callbacks, reading what such a client sends. *)
Definition callback (ev : ConnEvent) : bool :=
  match ev with
  | Established | Waited _ | Writes => true
  | Reads readable dgrams =>
      forallb (λ x, (x.1 =? AUTH_STREAM_ID) || (x.1 =? CONNECT_STREAM_ID)) readable && forallb is_heartbeat dgrams
  | _ => false
  end.

Definition srv_conn (ev : ConnEvent) (task : option RelayTask) (s : Srv Q) : option (Srv Q) :=
  match conn_event ekm ho ev (sv_world s, sv_quic s) with
  | (Ok _, (w, q)) => Some (MkSrv w q task)
  | (Err _, _) => None
  end.

(** [None] when the event cannot happen now, or the connection ends with an
    error. A turn of the task to the client's side receives from its channel, or
    learns that the sender, which the connection keeps with the stream, is gone.
    What it read from the dialed connection is queued once there is room. *)
Definition srv_event (ev : SrvEvent) (s : Srv Q) : option (Srv Q) :=
  match ev with
  | SvConn ev => if callback ev then srv_conn ev (sv_task s) s else None
  | SvStart =>
      match sv_task s, relays (sv_world s) !! 0%nat with
      | None, Some r =>
          match relay_body (Ok ()) (rl_stream r) (rl_initial r) WroteAll [] relay_task_init with
          | (Ok _, t) => Some (MkSrv (sv_world s) (sv_quic s) (Some t))
          | (Err _, _) => None
          end
      | _, _ => None
      end
  | SvClient =>
      match sv_task s, relays (sv_world s) !! 0%nat with
      | Some t, Some r =>
          if client_closed t then None
          else match ch_queue (rl_rx r) with
          | data :: _ =>
              match relay_event (rl_stream r) (ClientData data WroteAll) t with
              | (Ok _, t) => srv_conn (RelayReceives 0) (Some t) s
              | (Err _, _) => None
              end
          | [] =>
              match streams (app (sv_world s)) !! rl_stream r with
              | Some _ => None
              | None =>
                  match relay_event (rl_stream r) (ClientEnd (Ok ())) t with
                  | (Ok _, t) => Some (MkSrv (sv_world s) (sv_quic s) (Some t))
                  | (Err _, _) => None
                  end
              end
          end
      | _, _ => None
      end
  | SvRemote data =>
      match sv_task s, relays (sv_world s) !! 0%nat with
      | Some t, Some r =>
          if remote_closed t then None
          else if Nat.ltb (length (outbound_rx (app (sv_world s)))) CHANNEL_CAPACITY then
            match relay_event (rl_stream r) (RemoteRead (Ok data) true) t with
            | (Ok _, t) => write ← last (rt_sent t); srv_conn (TaskQueued write) (Some t) s
            | (Err _, _) => None
            end
          else None
      | _, _ => None
      end
  end.

Fixpoint srv_run (evs : list SrvEvent) (s : Srv Q) : option (Srv Q) :=
  match evs with
  | [] => Some s
  | ev :: evs => s ← srv_event ev s; srv_run evs s
  end.
End system.

(** What was received on a stream in a run, what was read from the dialed
    connection, and whether that ended. *)
Definition srv_reads (sid : Z) (evs : list SrvEvent) : list StreamRead :=
  concat ((λ ev, match ev with SvConn (Reads readable _) => reads_on sid readable | _ => [] end) <$> evs).
Definition srv_remote (evs : list SrvEvent) : bytes :=
  concat ((λ ev, match ev with SvRemote data => data | _ => [] end) <$> evs).
Definition srv_eof (evs : list SrvEvent) : bool :=
  existsb (λ ev, match ev with SvRemote [] => true | _ => false end) evs.

(** ** The way up: from the client's stream to the relay *)

(** What reading, waiting and writing for other purposes leave alone. *)
Definition same_core (w0 w : World) : Prop :=
  authenticated (app w) = authenticated (app w0) ∧ app_username (app w) = app_username (app w0) ∧
  uni_streams (app w) = uni_streams (app w0) ∧ pending_uni_commands (app w) = pending_uni_commands (app w0) ∧
  pending_datagrams (app w) = pending_datagrams (app w0) ∧ pending_streams (app w) = pending_streams (app w0) ∧
  streams (app w) = streams (app w0) ∧ inbound (app w) = inbound (app w0) ∧ tuic_users (app w) = tuic_users (app w0) ∧
  relays w = relays w0.
Lemma srv_same_refl w : same_core w w.
Proof. by split_and!. Qed.
Lemma same_with_app w0 f :
  (∀ w, same_core w (MkWorld (f (app w)) (relays w) (udp_tasks w) (clock w) (ticks w))) → keeps (same_core w0) (with_app f).
Proof.
  intros Hf. apply triple_modify. intros w (H1 & H2 & H3 & H4 & H5 & H6 & H7 & H8 & H9 & H10).
  destruct (Hf w) as (E1 & E2 & E3 & E4 & E5 & E6 & E7 & E8 & E9 & E10). split_and!; congruence.
Qed.
Lemma same_now w0 : keeps (same_core w0) TuicInbound.now.
Proof. intros w Hw. exact Hw. Qed.
Lemma same_self {A} w0 (f : TuicApp → A) : keeps (same_core w0) (self f).
Proof. apply keeps_gets. Qed.
#[local] Hint Resolve same_now same_self : keeping.
#[local] Hint Extern 3 (keeps (same_core _) (with_app _)) => (apply same_with_app; intros ?; by split_and!) : keeping.

Lemma same_check w0 : keeps (same_core w0) check_authentication_deadline.
Proof. rw /check_authentication_deadline. keep_walk. Qed.
Lemma same_cleanup w0 : keeps (same_core w0) maybe_cleanup_udp_state.
Proof. rw /maybe_cleanup_udp_state. keep_walk. Qed.
#[local] Hint Resolve same_check same_cleanup : keeping.
Lemma same_reserve w0 b i : keeps (same_core w0) (reserve_pre_auth b i).
Proof. rw /reserve_pre_auth. keep_walk. Qed.
Lemma same_push_front w0 x : keeps (same_core w0) (push_front x).
Proof. rw /push_front. keep_walk. Qed.
Lemma same_established w0 : keeps (same_core w0) on_conn_established.
Proof. rw /on_conn_established. keep_walk. Qed.
Lemma same_wait w0 r : keeps (same_core w0) (wait_for_data r).
Proof. rw /wait_for_data /receive_write. keep_walk. Qed.
Lemma same_task_queue w0 x : keeps (same_core w0) (task_queue x).
Proof. rw /task_queue. keep_walk. Qed.

(** A call that succeeds leaves the core as it was. *)
Lemma keeps_same {A} (m : SE World A) w a w' :
  (∀ w0, keeps (same_core w0) m) → m w = (Ok a, w') → same_core w w'.
Proof. intros Hm E. specialize (Hm w w (srv_same_refl w)). by rw E in Hm. Qed.

Section up.
Context `{!TuicCore, !TuicCoreLaws}.
Variables (ekm : bytes → bytes → option bytes) (ho : gmap Z PendingStream → list (Z * PendingStream)).
Variables (inb : bytes) (us : list TuicUser) (u : TuicUser) (uuid tok auth : bytes).
Variables (t : TargetAddr) (hd rest : bytes).
Hypothesis Hho : ∀ m, ho m ≡ₚ map_to_list m.
Hypothesis Hauth_len : length auth = AUTHENTICATE_LEN.
Hypothesis Hauth_cmd : auth !!! 1%nat = CMD_AUTHENTICATE.
Hypothesis Hauth : parse_authenticate auth = Ok (uuid, tok).
Hypothesis Hauth_cut : ∀ k, (k < length auth)%nat → ∃ e, parse_authenticate (take k auth) = Err e.
Hypothesis Hfind : find (λ u, str_eqb (user_uuid u) uuid) us = Some u.
Hypothesis Hekm : ekm (user_uuid u) (user_password u) = Some tok.
Hypothesis Hcut : ∀ k, (k < length hd)%nat → try_parse_connect (take k hd) = Ok None.
Hypothesis Hall : ∀ rest, try_parse_connect (hd ++ rest) = Ok (Some (t, length hd)).
Hypothesis Hhd : (0 < length hd)%nat.

Definition up_session : Session := MkSession inb Connect t.

(** The header is not complete: its bytes are held. *)
Definition up_waiting (b : bytes) (w : World) : Prop :=
  (length b < length hd)%nat ∧ relays w = [] ∧ streams (app w) !! CONNECT_STREAM_ID = None ∧
  default default_pending (pending_streams (app w) !! CONNECT_STREAM_ID) = MkPending b false.
(** The relay has the rest: [taken] is the initial data of its task, once that
    runs, and what it received since. *)
Definition Taken : Type := option (bytes * bytes).
Definition received (taken : Taken) : bytes := from_option snd [] taken.
Definition up_relaying (b : bytes) (e : bool) (taken : Taken) (w : World) : Prop :=
  ∃ initial queue, relays w = [MkRelay up_session CONNECT_STREAM_ID initial (MkChan queue CHANNEL_CAPACITY false)] ∧
    hd ++ initial ++ received taken ++ concat queue = b ∧ (is_Some taken → taken = Some (initial, received taken)) ∧
    streams (app w) !! CONNECT_STREAM_ID = if e then None else Some (MkStreamState 0).

(** More of the stream arrives while the header is incomplete. *)
Lemma connect_piece b d f w :
  authenticated (app w) = true → inbound (app w) = inb → up_waiting b w →
  b ++ d `prefix_of` hd ++ rest → (f = true → (length hd ≤ length (b ++ d))%nat) →
  ∃ w', handle_stream_data CONNECT_STREAM_ID d f w = (Ok (), w') ∧
    authenticated (app w') = true ∧ app_username (app w') = app_username (app w) ∧
    uni_streams (app w') = uni_streams (app w) ∧ inbound (app w') = inb ∧
    ((f = false ∧ up_waiting (b ++ d) w') ∨ up_relaying (b ++ d) f None w').
Proof.
  intros Ha Hi (Hb & Hr & Hs & Hp) Hpre Hf.
  rw /handle_stream_data /mbind /SE_bind /self /gets /with_app /modify /lift Ha. cbn [negb]. rw Hs Hp. cbn [ps_data ps_fin orb].
  destruct (decide (length (b ++ d) < length hd)%nat) as [Hlen|Hlen].
  - destruct f; [specialize (Hf eq_refl); lia|].
    assert (b ++ d = take (length (b ++ d)) hd) as E.
    { destruct Hpre as [k Hk]. rw -(take_app_le _ rest); [lia|]. by rw Hk take_app_length. }
    rw E Hcut; [done|]. rw -E. eexists. split; [done|]. split_and!; [done..|]. left. split; [done|].
    split_and!; [done|done|done|]. cbn. by rw lookup_insert_eq.
  - assert (∃ r, b ++ d = hd ++ r) as [r E].
    { destruct Hpre as [k Hk]. exists (drop (length hd) (b ++ d)).
      rw -{1}(take_drop (length hd) (b ++ d)). f_equal.
      rw -(take_app_le (b ++ d) k); [lia|]. by rw -Hk take_app_length. }
    rw E Hall Hi /TuicInbound.spawn_relay Hr drop_app_length. cbn.
    destruct f; (eexists; split; [done|]); (split_and!; [done..|]); right; exists r, [];
      (split_and!; [cbn; by rw ?Hr|by rw /= app_nil_r|by intros []|]); cbn; [done|by rw lookup_insert_eq].
Qed.

(** What was received so far is as QUIC delivers it and the beginning of what a
    client sends: the authentication, and the header followed by its data. *)
Definition fine (ra rc : list StreamRead) : Prop :=
  orderly ra = true ∧ orderly rc = true ∧ hear ra `prefix_of` auth ∧ hear rc `prefix_of` hd ++ rest ∧
  (heard_end rc = true → (length hd ≤ length (hear rc))%nat).
Lemma fine_prefix ra rc ka kc : fine (ra ++ ka) (rc ++ kc) → fine ra rc.
Proof.
  intros ((Ha & Ea & Eha & _)%orderly_app & (Hc & Ec & Ehc & Ehe)%orderly_app & H1 & H2 & H3). rw Eha in H1. rw Ehc in H2 H3.
  split_and!; [done|done|by eapply prefix_app_l|by eapply prefix_app_l|]. intros He. rw (Ec He) in H3 Ehe.
  rw Ehe He app_nil_r in H3. by apply H3.
Qed.

(** Not authenticated: everything is held. *)
Definition up_locked (ra rc : list StreamRead) (w : World) : Prop :=
  authenticated (app w) = false ∧ heard_end ra = false ∧ (length (hear ra) < AUTHENTICATE_LEN)%nat ∧
  default (Receiving []) (uni_streams (app w) !! AUTH_STREAM_ID) = Receiving (hear ra) ∧
  pending_uni_commands (app w) = [] ∧ pending_datagrams (app w) = [] ∧
  (∀ j, j ≠ CONNECT_STREAM_ID → pending_streams (app w) !! j = None) ∧
  default default_pending (pending_streams (app w) !! CONNECT_STREAM_ID) = MkPending (hear rc) (heard_end rc) ∧
  streams (app w) = ∅ ∧ inbound (app w) = inb ∧ tuic_users (app w) = us ∧ relays w = [].
(** Authenticated as the user. *)
Definition up_open (ra : list StreamRead) (w : World) : Prop :=
  authenticated (app w) = true ∧ app_username (app w) = Some (user_name u) ∧ inbound (app w) = inb ∧ hear ra = auth ∧
  (heard_end ra = false → uni_streams (app w) !! AUTH_STREAM_ID = Some UniAuthenticated).
Definition up_served (rc : list StreamRead) (taken : Taken) (w : World) : Prop :=
  (up_waiting (hear rc) w ∧ heard_end rc = false ∧ taken = None) ∨ up_relaying (hear rc) (heard_end rc) taken w.
Definition up_inv (ra rc : list StreamRead) (taken : Taken) (w : World) : Prop :=
  (up_locked ra rc w ∧ taken = None) ∨ (up_open ra w ∧ up_served rc taken w).

Lemma up_same ra rc taken w w' : same_core w w' → up_inv ra rc taken w → up_inv ra rc taken w'.
Proof.
  intros (E1 & E2 & E3 & E4 & E5 & E6 & E7 & E8 & E9 & E10).
  by rw /up_inv /up_locked /up_open /up_served /up_waiting /up_relaying E1 E2 E3 E4 E5 E6 E7 E8 E9 E10.
Qed.

(** The data of the stream is held until the authentication. *)
Lemma locked_connect ra rc d f w w' :
  up_locked ra rc w → orderly (rc ++ [ReadData d f]) = true →
  handle_stream_data CONNECT_STREAM_ID d f w = (Ok (), w') → up_locked ra (rc ++ [ReadData d f]) w'.
Proof.
  intros (Ha & He & Hl & Hu & Hc & Hd & Hj & Hp & Hs & Hi & Hus & Hr) (Hend & Eh & Ee)%orderly_snoc.
  rw /handle_stream_data {1}/mbind {1}/SE_bind {1}/self {1}/gets Ha. cbn [negb].
  intros (known & w1 & [= <- <-] & (x & w2 & H2 & Hw')%SE_bind_inv)%SE_bind_inv.
  apply (keeps_same _ _ _ _ (λ w0, same_reserve w0 _ _)) in H2 as (E1 & E2 & E3 & E4 & E5 & E6 & E7 & E8 & E9 & E10).
  injection Hw' as <-. rw /up_locked /= E1 E3 E4 E5 E6 E7 E8 E9 E10 Hp Eh Ee Hend.
  split_and!; [done..| |by rw lookup_insert_eq|done|done|done|done]. intros j Hne. rw lookup_insert_ne //. by apply Hj.
Qed.

Lemma relay_piece b taken d f w w' :
  authenticated (app w) = true → up_relaying b false taken w →
  handle_stream_data CONNECT_STREAM_ID d f w = (Ok (), w') →
  authenticated (app w') = true ∧ app_username (app w') = app_username (app w) ∧
  uni_streams (app w') = uni_streams (app w) ∧ inbound (app w') = inbound (app w) ∧ up_relaying (b ++ d) f taken w'.
Proof.
  intros Ha (initial & queue & Hr & Hb & Hini & Hs).
  rw /handle_stream_data {1}/mbind {1}/SE_bind {1}/self {1}/gets Ha. cbn [negb].
  rw {1}/mbind {1}/SE_bind {1}/self {1}/gets Hs. cbn [client_tx].
  intros (sent & w1 & H1 & H2)%SE_bind_inv. destruct sent; [|done]. cbn [negb] in H2.
  assert (app w1 = app w ∧ ∃ queue', relays w1 = [MkRelay up_session CONNECT_STREAM_ID initial (MkChan queue' CHANNEL_CAPACITY false)] ∧
    hd ++ initial ++ received taken ++ concat queue' = b ++ d) as (Eapp & queue' & Hr1 & Hb1).
  { destruct (bool_decide_reflect (d = [])) as [->|_]; cbn [negb] in H1.
    - injection H1 as <-. split; [done|]. exists queue. by rw app_nil_r.
    - rw /relay_try_send Hr in H1. cbn [lookup list_lookup rl_rx rl_session rl_stream rl_initial] in H1.
      rw /try_send in H1. cbn [ch_dropped ch_cap ch_queue orb] in H1.
      destruct (Nat.leb CHANNEL_CAPACITY (length queue)); [done|]. injection H1 as <-. split; [done|].
      exists (queue ++ [d]). split; [done|]. by rw concat_app /= app_nil_r -Hb -!app_assoc. }
  destruct f; cbn [when] in H2; injection H2 as <-; cbn; rw Eapp; (split_and!; [done..|]);
    exists initial, queue'; (split_and!; [done..|]); cbn; rw ?Eapp; [by rw lookup_delete_eq|done].
Qed.

Lemma open_connect ra rc taken d f w w' :
  up_open ra w → up_served rc taken w → fine ra (rc ++ [ReadData d f]) →
  handle_stream_data CONNECT_STREAM_ID d f w = (Ok (), w') →
  up_open ra w' ∧ up_served (rc ++ [ReadData d f]) taken w'.
Proof.
  intros (Ha & Hn & Hi & Hra & Hun) Hs (_ & (Hend & Eh & Ee)%orderly_snoc & _ & Hpre & Hlen) Hrun. rw Eh Ee in Hpre Hlen.
  destruct Hs as [(Hw & _ & ->)|Hrel].
  - destruct (connect_piece (hear rc) d f w Ha Hi Hw Hpre Hlen) as (w1 & E & Ha' & Hn' & Hu' & Hi' & Hres).
    rw E in Hrun. injection Hrun as <-. split; [by split_and!; rw ?Hn' ?Hu'|]. rw /up_served Eh Ee.
    destruct Hres as [[-> Hw']|Hrel]; [by left|by right].
  - rw Hend in Hrel. destruct (relay_piece _ _ _ _ _ _ Ha Hrel Hrun) as (Ha' & Hn' & Hu' & Hi' & Hrel').
    split; [by split_and!; rw ?Hn' ?Hu' ?Hi'|]. right. by rw Eh Ee.
Qed.

(** What was held for the stream, once the connection is authenticated. *)
Lemma held_streams (m : gmap Z PendingStream) p :
  (∀ j, j ≠ CONNECT_STREAM_ID → m !! j = None) → default default_pending (m !! CONNECT_STREAM_ID) = p →
  (ho m = [] ∧ p = default_pending) ∨ ho m = [(CONNECT_STREAM_ID, p)].
Proof.
  intros Hj Hp. destruct (m !! CONNECT_STREAM_ID) as [p'|] eqn:Hc; simpl in Hp; subst p.
  - right. assert (m = {[CONNECT_STREAM_ID := p']}) as ->.
    { apply map_eq. intros j. destruct (decide (j = CONNECT_STREAM_ID)) as [->|Hne]; [by rw lookup_singleton_eq|].
      rw lookup_singleton_ne; [congruence|]. by apply Hj. }
    apply Permutation_singleton_r. by rw Hho map_to_list_singleton.
  - left. split; [|done]. assert (m = ∅) as ->.
    { apply map_eq. intros j. rw lookup_empty. destruct (decide (j = CONNECT_STREAM_ID)) as [->|Hne]; [done|by apply Hj]. }
    apply Permutation_nil_r. by rw Hho map_to_list_empty.
Qed.

Lemma auth_flush handle rc w w' :
  orderly rc = true → hear rc `prefix_of` hd ++ rest → (heard_end rc = true → (length hd ≤ length (hear rc))%nat) →
  pending_uni_commands (app w) = [] → pending_datagrams (app w) = [] →
  (∀ j, j ≠ CONNECT_STREAM_ID → pending_streams (app w) !! j = None) →
  default default_pending (pending_streams (app w) !! CONNECT_STREAM_ID) = MkPending (hear rc) (heard_end rc) →
  streams (app w) = ∅ → inbound (app w) = inb → tuic_users (app w) = us → relays w = [] →
  handle_auth_data ekm ho handle auth w = (Ok (), w') →
  authenticated (app w') = true ∧ app_username (app w') = Some (user_name u) ∧ inbound (app w') = inb ∧
  uni_streams (app w') = uni_streams (app w) ∧ up_served rc None w'.
Proof.
  intros Ho Hpre Hend Hc Hd Hj Hp Hs Hi Hus Hr. rw /handle_auth_data.
  intros ([] & w1 & Hcheck & Hrun)%SE_bind_inv.
  apply (keeps_same _ _ _ _ same_check) in Hcheck as (E1 & E2 & E3 & E4 & E5 & E6 & E7 & E8 & E9 & E10). revert Hrun.
  rw /mbind /SE_bind /lift /self /gets /with_app /modify Hauth E9 Hus Hfind /token /export_keying_material_raw_label Hekm.
  cbn [context]. rw (proj2 (str_eqb_eq tok tok) eq_refl). cbn. rw E4 Hc. cbn. rw E5 Hd. cbn. rw E6.
  match goal with |- for_each _ _ ?x = _ → _ => set (w2 := x) end.
  assert (Hw2 : authenticated (app w2) = true ∧ app_username (app w2) = Some (user_name u) ∧ inbound (app w2) = inb ∧
    uni_streams (app w2) = uni_streams (app w)) by (split_and!; [done|done|by rw /= E8|by rw /= E3]).
  destruct Hw2 as (Ha2 & Hn2 & Hi2 & Hu2).
  assert (Hwait : up_waiting [] w2) by (split_and!; [done|by rw /= E10|by rw /= E7 Hs|done]).
  assert (Hnone : hear rc = [] → heard_end rc = false).
  { intros E. destruct (heard_end rc); [|done]. specialize (Hend eq_refl). rw E in Hend. simpl in Hend. lia. }
  destruct (held_streams _ _ Hj Hp) as [[-> Hdef]| -> ].
  { injection Hdef as Hb He. intros [= <-]. split_and!; [done..|]. left. by rw Hb He. }
  cbn [for_each ps_data ps_fin]. destruct (bool_decide_reflect (hear rc = [])) as [Hb|Hb]; cbn [negb when].
  { intros [= <-]. split_and!; [done..|]. left. rw Hb. split_and!; [done|by apply Hnone|done]. }
  destruct (connect_piece [] (hear rc) (heard_end rc) w2 Ha2 Hi2 Hwait Hpre Hend) as (w3 & E & Ha3 & Hn3 & Hu3 & Hi3 & Hres).
  rw {1}/mbind {1}/SE_bind E. intros [= <-]. split_and!; [done|congruence|done|congruence|].
  destruct Hres as [[He Hw]|Hrel]; [by left|by right].
Qed.

(** The authentication arrives, in pieces: a beginning of it is held, or refused
    when the stream ends with it; the whole of it opens the connection. *)
Lemma locked_auth ra rc d f w w' :
  up_locked ra rc w → fine (ra ++ [ReadData d f]) rc →
  handle_unidirectional_stream ekm ho AUTH_STREAM_ID d f w = (Ok (), w') →
  up_inv (ra ++ [ReadData d f]) rc None w'.
Proof.
  intros (Ha & He & Hl & Hu & Hc & Hd & Hj & Hp & Hs & Hi & Hus & Hr) (Hoa & Hoc & Hpa & Hpc & Hend).
  apply orderly_snoc in Hoa as (_ & Eh & Ee). rw Eh in Hpa.
  rw /handle_unidirectional_stream. intros (known & w1 & [= <- <-] & (x & w2 & H2 & Hrun)%SE_bind_inv)%SE_bind_inv.
  apply (keeps_same _ _ _ _ (λ w0, same_reserve w0 _ _)) in H2 as (E1 & E2 & E3 & E4 & E5 & E6 & E7 & E8 & E9 & E10).
  rw Hu in Hrun. set (command := hear ra ++ d) in *. rw {1}/mbind {1}/SE_bind {1}/with_app {1}/modify in Hrun.
  assert (Hcmd : (AUTHENTICATE_LEN ≤ length command)%nat → command = auth).
  { intros Hge. destruct Hpa as [k Hk]. assert (length k = 0%nat) as Hk0.
    { apply (f_equal length) in Hk. rw length_app Hauth_len in Hk. lia. }
    apply nil_length_inv in Hk0 as ->. by rw app_nil_r in Hk. }
  destruct (Nat.leb_spec AUTHENTICATE_LEN (length command)) as [Hge|Hlt]; cbn [andb negb] in Hrun.
  - rw (Hcmd Hge) Hauth_cmd Z.eqb_refl Hauth_len Nat.eqb_refl in Hrun. cbn [andb negb] in Hrun. rw andb_false_r in Hrun.
    rw {1}/mbind {1}/SE_bind {1}/with_app {1}/modify in Hrun. apply SE_bind_inv in Hrun as ([] & w3 & H3 & Hrun).
    assert (∃ m, w3 = MkWorld (set_uni_streams m (app w2)) (relays w2) (udp_tasks w2) (clock w2) (ticks w2) ∧
      (f = false → m !! AUTH_STREAM_ID = Some UniAuthenticated)) as (m & -> & Hm).
    { destruct f; injection H3 as <-; eexists; (split; [done|]); [done|]. intros _. by rw lookup_insert_eq. }
    cbn [handle_unidirectional_command COMMAND_FUEL] in Hrun.
    assert ((len auth <? 2) = false) as Hl2 by (apply Z.ltb_ge; rw /len Hauth_len; done).
    rw Hl2 {1}/mbind {1}/SE_bind {1}/self {1}/gets Hauth_cmd Z.eqb_refl in Hrun.
    apply (auth_flush _ rc) in Hrun as (Ha' & Hn' & Hi' & Hu' & Hserved); cbn; rw ?E4 ?E5 ?E6 ?E7 ?E8 ?E9 ?E10; [|done..].
    right. split; [|done]. split_and!; [done..|by rw Eh; apply Hcmd|]. rw Ee Hu'. exact Hm.
  - destruct f; cbn [andb negb] in Hrun.
    + exfalso. rw {1}/mbind {1}/SE_bind {1}/with_app {1}/modify {1}/mbind {1}/SE_bind in Hrun. cbn [when negb] in Hrun.
      rw /mret /SE_ret in Hrun. cbn [handle_unidirectional_command COMMAND_FUEL] in Hrun.
      destruct (len command <? 2) eqn:Hshort; [done|]. apply Z.ltb_ge in Hshort. rw /len in Hshort.
      destruct Hpa as [k Hk]. assert (command = take (length command) auth) as Etake by by rw Hk take_app_length.
      assert (command !!! 1%nat = CMD_AUTHENTICATE) as Ecmd.
      { rw -Hauth_cmd Hk lookup_total_app_l; [lia|done]. }
      rw {1}/mbind {1}/SE_bind {1}/self {1}/gets Ecmd Z.eqb_refl in Hrun. rw /handle_auth_data in Hrun.
      apply SE_bind_inv in Hrun as (y & w4 & _ & Hrun). destruct (Hauth_cut (length command)) as [e Hce]; [lia|].
      by rw {1}/mbind {1}/SE_bind {1}/lift Etake Hce in Hrun.
    + injection Hrun as <-. left. split; [|done]. rw /up_locked /= E1 E4 E5 E6 E7 E8 E9 E10 Ee Eh lookup_insert_eq. by split_and!.
Qed.

(** After the authentication its stream only ends. *)
Lemma open_auth ra rc taken d f w w' :
  up_open ra w → up_served rc taken w → fine (ra ++ [ReadData d f]) rc →
  handle_unidirectional_stream ekm ho AUTH_STREAM_ID d f w = (Ok (), w') →
  up_open (ra ++ [ReadData d f]) w' ∧ up_served rc taken w'.
Proof.
  intros (Ha & Hn & Hi & Hra & Hu) Hs ((Hend & Eh & Ee)%orderly_snoc & _ & Hpre & _).
  assert (d = []) as ->.
  { rw Eh Hra in Hpre. apply prefix_length in Hpre. rw length_app in Hpre. apply nil_length_inv. lia. }
  rw app_nil_r in Eh. rw /handle_unidirectional_stream. intros (known & w1 & [= <- <-] & (x & w2 & H2 & Hrun)%SE_bind_inv)%SE_bind_inv.
  rw (Hu Hend) in Hrun. cbn [default] in Hrun.
  apply (keeps_same _ _ _ _ (λ w0, same_reserve w0 _ _)) in H2. pose proof H2 as (E1 & E2 & E3 & E4 & E5 & E6 & E7 & E8 & E9 & E10).
  destruct f; injection Hrun as <-; rw /up_open /up_served /up_waiting /up_relaying /= E1 E2 ?E3 E6 E7 E8 E10 Eh Ee; by split_and!; try (intros _; apply Hu).
Qed.

Lemma piece_up ra rc taken sid d f w w' :
  let ka := if sid =? AUTH_STREAM_ID then [ReadData d f] else [] in
  let kc := if sid =? CONNECT_STREAM_ID then [ReadData d f] else [] in
  sid = AUTH_STREAM_ID ∨ sid = CONNECT_STREAM_ID → up_inv ra rc taken w → fine (ra ++ ka) (rc ++ kc) →
  (if is_unidirectional sid then handle_unidirectional_stream ekm ho sid d f else handle_stream_data sid d f) w = (Ok (), w') →
  up_inv (ra ++ ka) (rc ++ kc) taken w'.
Proof.
  intros ka kc [-> | ->]; subst ka kc; cbn; rw app_nil_r; intros [[Hl ->]|[Ho Hs]] Hf Hrun.
  - by eapply locked_auth.
  - right. by eapply open_auth.
  - left. split; [|done]. eapply locked_connect; [done| |done]. apply Hf.
  - right. by eapply open_connect.
Qed.

Lemma stream_up ra rc taken sid rs w w' :
  let ka := if sid =? AUTH_STREAM_ID then rs else [] in
  let kc := if sid =? CONNECT_STREAM_ID then rs else [] in
  sid = AUTH_STREAM_ID ∨ sid = CONNECT_STREAM_ID → up_inv ra rc taken w → fine (ra ++ ka) (rc ++ kc) →
  read_stream ekm ho sid rs w = (Ok (), w') → up_inv (ra ++ ka) (rc ++ kc) taken w'.
Proof.
  revert ra rc w. induction rs as [|[d f|e] rs IH]; intros ra rc w ka kc Hsid Hup Hf; cbn [read_stream]; [| |done].
  { intros [= <-]. assert (ka = [] ∧ kc = []) as [-> ->] by (subst ka kc; by destruct (_ =? _), (_ =? _)). by rw !app_nil_r. }
  intros ([] & w1 & H1 & H2)%SE_bind_inv.
  set (pa := if sid =? AUTH_STREAM_ID then [ReadData d f] else []). set (pc := if sid =? CONNECT_STREAM_ID then [ReadData d f] else []).
  set (qa := if sid =? AUTH_STREAM_ID then rs else []). set (qc := if sid =? CONNECT_STREAM_ID then rs else []).
  assert (ka = pa ++ qa ∧ kc = pc ++ qc) as [Ea Ec] by (subst ka kc pa pc qa qc; by destruct (_ =? _), (_ =? _)).
  rw Ea Ec !app_assoc in Hf |- *. pose proof (fine_prefix _ _ _ _ Hf) as Hf1.
  apply (piece_up ra rc taken sid d f w w1 Hsid Hup Hf1) in H1. destruct f; [|by apply (IH _ _ w1)].
  injection H2 as <-. assert (qa = [] ∧ qc = []) as [-> ->]; [|by rw !app_nil_r].
  destruct Hf as ((_ & H3 & _)%orderly_app & (_ & H4 & _)%orderly_app & _). subst pa pc qa qc.
  destruct Hf1 as (H5 & H6 & _). destruct Hsid as [-> | ->]; simpl in *.
  - apply orderly_snoc in H5 as (_ & _ & E). by rw H3.
  - apply orderly_snoc in H6 as (_ & _ & E). by rw H4.
Qed.

Lemma streams_up ra rc taken readable w w' :
  forallb (λ x, (x.1 =? AUTH_STREAM_ID) || (x.1 =? CONNECT_STREAM_ID)) readable = true → up_inv ra rc taken w →
  fine (ra ++ reads_on AUTH_STREAM_ID readable) (rc ++ reads_on CONNECT_STREAM_ID readable) →
  for_each (λ '(stream_id, rs), read_stream ekm ho stream_id rs) readable w = (Ok (), w') →
  up_inv (ra ++ reads_on AUTH_STREAM_ID readable) (rc ++ reads_on CONNECT_STREAM_ID readable) taken w'.
Proof.
  revert ra rc w. induction readable as [|[sid rs] readable IH]; intros ra rc w Hs Hup Hf; cbn [for_each].
  { intros [= <-]. by rw !app_nil_r. }
  cbn [forallb] in Hs. apply andb_prop in Hs as [Hsid%orb_prop Hs].
  assert (∀ j, reads_on j ((sid, rs) :: readable) = (if sid =? j then rs else []) ++ reads_on j readable) as Er by done.
  rw !Er !app_assoc in Hf |- *. intros ([] & w1 & H1 & H2)%SE_bind_inv. apply (stream_up ra rc taken) in H1; [|naive_solver lia|done|by eapply fine_prefix].
  by apply (IH _ _ w1).
Qed.

(** From a new connection on. *)
Lemma up_new n1 n2 cl tk : up_inv [] [] None (MkWorld (app_new inb us n1 n2) [] [] cl tk).
Proof. left. split; [|done]. split_and!; try done. apply Nat.leb_le. by vm_compute. Qed.

(** What the relay is made of, once there is one. *)
Lemma up_relay ra rc taken w r :
  up_inv ra rc taken w → relays w !! 0%nat = Some r →
  up_open ra w ∧ rl_session r = up_session ∧ rl_stream r = CONNECT_STREAM_ID ∧
  hd ++ rl_initial r ++ received taken ++ concat (ch_queue (rl_rx r)) = hear rc ∧
  (is_Some taken → taken = Some (rl_initial r, received taken)) ∧
  (streams (app w) !! CONNECT_STREAM_ID = None ↔ heard_end rc = true) ∧ relays w = [r].
Proof.
  intros [[Hl _]|[Ho Hs]] Hr.
  { destruct Hl as (_ & _ & _ & _ & _ & _ & _ & _ & _ & _ & _ & Hl). by rw Hl in Hr. }
  destruct Hs as [[Hw _]|(initial & queue & Hrl & Hb & Hini & Hst)].
  { destruct Hw as (_ & Hw & _). by rw Hw in Hr. }
  rw Hrl in Hr. injection Hr as <-. split_and!; [done..| |done]. rw Hst. by destruct (heard_end rc).
Qed.

Lemma up_taken ra rc x w : up_inv ra rc (Some x) w → ∃ r, relays w !! 0%nat = Some r.
Proof.
  intros [[_ ?]|[_ [(_ & _ & ?)|(initial & queue & Hrl & _)]]]; [done..|]. rw Hrl. by eexists.
Qed.

(** The task starts. *)
Lemma up_starts ra rc w r :
  up_inv ra rc None w → relays w !! 0%nat = Some r → up_inv ra rc (Some (rl_initial r, [])) w.
Proof.
  intros Hup Hr. destruct (up_relay _ _ _ _ _ Hup Hr) as (Ho & _). destruct Hup as [[Hl _]|[_ Hs]].
  { destruct Ho as [Ha _], Hl as [Ha' _]. congruence. }
  right. split; [done|]. right. destruct Hs as [[Hw _]|(initial & queue & Hrl & Hb & Hini & Hst)].
  { destruct Hw as (_ & Hw & _). by rw Hw in Hr. }
  rw Hrl in Hr. injection Hr as <-. by exists initial, queue.
Qed.

(** The task receives from its channel. *)
Lemma up_receives ra rc initial taken w r data queue :
  up_inv ra rc (Some (initial, taken)) w → relays w !! 0%nat = Some r → ch_queue (rl_rx r) = data :: queue →
  up_inv ra rc (Some (initial, taken ++ data)) (on_relay 0 chan_recv w).2.
Proof.
  intros [[_ ?]|[Ho Hs]] Hr Hq; [done|]. right. split; [done|]. right.
  destruct Hs as [(_ & _ & ?)|(initial' & queue' & Hrl & Hb & Hini & Hst)]; [done|].
  rw Hrl in Hr. injection Hr as <-. cbn in Hq. subst queue'. assert (initial = initial') as -> by by injection (Hini ltac:(by eexists)).
  exists initial', queue. split_and!; [by rw /= Hrl| |done|done]. by rw -Hb /= -app_assoc.
Qed.
End up.

(** ** The way down: from the relay to QUIC *)

(** The writes waiting, in the connection and in the channel of the tasks. *)
Definition line (l : list QuicWrite) (w : World) : Prop := pending_writes (app w) ++ outbound_rx (app w) = l.
Lemma line_with_app l f :
  (∀ s, pending_writes (f s) = pending_writes s ∧ outbound_rx (f s) = outbound_rx s) → keeps (line l) (with_app f).
Proof. intros Hf. apply triple_modify. intros w Hw. destruct (Hf (app w)) as [E1 E2]. by rw /line /= E1 E2. Qed.
Lemma line_now l : keeps (line l) TuicInbound.now.
Proof. intros w Hw. exact Hw. Qed.
Lemma line_self {A} l (f : TuicApp → A) : keeps (line l) (self f).
Proof. apply keeps_gets. Qed.
Lemma line_spawn_relay l s i b : keeps (line l) (TuicInbound.spawn_relay s i b).
Proof. intros w Hw. exact Hw. Qed.
Lemma line_spawn_udp l a m n : keeps (line l) (spawn_udp_session a m n).
Proof. intros w Hw. exact Hw. Qed.
Lemma line_relay_send l i x : keeps (line l) (relay_try_send i x).
Proof. intros w Hw. rw /relay_try_send. destruct (_ !! _); [destruct (try_send _ _)|]; exact Hw. Qed.
Lemma line_udp_send l i r : keeps (line l) (udp_try_send i r).
Proof. intros w Hw. rw /udp_try_send. destruct (_ !! _); [destruct (try_send _ _)|]; exact Hw. Qed.
#[local] Hint Resolve line_now line_self line_spawn_relay line_spawn_udp line_relay_send line_udp_send : keeping.
#[local] Hint Extern 3 (keeps (line _) (with_app _)) => (by apply line_with_app) : keeping.

Lemma line_check l : keeps (line l) check_authentication_deadline.
Proof. rw /check_authentication_deadline. keep_walk. Qed.
Lemma line_cleanup l : keeps (line l) maybe_cleanup_udp_state.
Proof. rw /maybe_cleanup_udp_state. keep_walk. Qed.
#[local] Hint Resolve line_check line_cleanup : keeping.
Lemma line_receive l : keeps (line l) receive_write.
Proof.
  intros w Hw. rw /receive_write /mbind /SE_bind /self /gets. destruct (outbound_rx (app w)) as [|x rest] eqn:E; [done|].
  rw /line E in Hw. by rw /line /= -app_assoc.
Qed.
#[local] Hint Resolve line_receive : keeping.
Lemma line_wait l r : keeps (line l) (wait_for_data r).
Proof. rw /wait_for_data. keep_walk. Qed.
Lemma line_established l : keeps (line l) on_conn_established.
Proof. rw /on_conn_established. keep_walk. Qed.

Section line_reads.
Context `{!TuicCore}.
Variables (ekm : bytes → bytes → option bytes) (ho : gmap Z PendingStream → list (Z * PendingStream)).
Lemma line_reserve l b i : keeps (line l) (reserve_pre_auth b i).
Proof. rw /reserve_pre_auth. keep_walk. Qed.
Hint Resolve line_reserve : keeping.
Lemma line_packet l x m : keeps (line l) (handle_packet x m).
Proof. rw /handle_packet /assemble. keep_walk. Qed.
Hint Resolve line_packet : keeping.
Lemma line_datagram l x : keeps (line l) (handle_datagram x).
Proof. rw /handle_datagram. keep_walk. Qed.
Lemma line_stream l i x f : keeps (line l) (handle_stream_data i x f).
Proof. rw /handle_stream_data. keep_walk. Qed.
Hint Resolve line_datagram line_stream : keeping.
Lemma line_command l fuel c : keeps (line l) (handle_unidirectional_command ekm ho fuel c).
Proof.
  revert c. induction fuel as [|fuel IH]; intros c; simpl; [apply keeps_throw|]. rw /handle_auth_data. keep_walk.
Qed.
Hint Resolve line_command : keeping.
Lemma line_reads l readable :
  keeps (line l) (for_each (λ '(stream_id, rs), read_stream ekm ho stream_id rs) readable).
Proof.
  apply keeps_for_each. intros [i rs]. induction rs as [|r rs IH]; cbn [read_stream]; [apply keeps_ret|].
  rw /handle_unidirectional_stream. keep_walk.
Qed.
End line_reads.

Section down.
Context `{!TuicCore, !TuicCoreLaws} {Q : Type} `{!QuicConn Q, !QuicLaws Q, !QuicEnds Q}.
Implicit Types (q : Q) (l : list QuicWrite).

(** What the stream has taken followed by what waits is [T]; its end was taken
    after everything, or waits behind everything, or is still to come. *)
Definition end_waits (eof fin : bool) l : Prop :=
  if eof then (fin = true ∧ l = []) ∨ (fin = false ∧ ∃ k d, l = k ++ [WData CONNECT_STREAM_ID d true] ∧ open_writes CONNECT_STREAM_ID k)
  else fin = false ∧ open_writes CONNECT_STREAM_ID l.
Definition flow (T : bytes) (eof : bool) q l : Prop :=
  accepted q CONNECT_STREAM_ID ++ queued CONNECT_STREAM_ID l = T ∧ end_waits eof (finished q CONNECT_STREAM_ID) l.

Lemma end_waits_head eof fin x l :
  end_waits eof fin (x :: l) → ∃ d f, x = WData CONNECT_STREAM_ID d f ∧
    (∀ d', end_waits eof fin (WData CONNECT_STREAM_ID d' f :: l)) ∧ end_waits eof (fin || f) l ∧ (f = true → end_waits eof true l).
Proof.
  destruct eof; cbn.
  - intros [[_ ?]|(-> & k & d & El & Hk)]; [done|]. destruct k as [|y k].
    + injection El as -> ->. exists d, true. split_and!; [done| |by left|by left].
      intros d'. right. split; [done|]. by exists [], d'.
    + injection El as -> ->. apply Forall_cons in Hk as [[d1 ->] Hk]. exists d1, false. split_and!; [done| | |done].
      * intros d'. right. split; [done|]. exists (WData CONNECT_STREAM_ID d' false :: k), d. split; [done|]. constructor; [by eexists|done].
      * right. split; [done|]. by exists k, d.
  - intros [-> [[d ->] Hl]%Forall_cons]. exists d, false. split_and!; [done| |done|done|done].
    intros d'. split; [done|]. constructor; [by eexists|done].
Qed.

(** One write: taken, or what is left of it put back. *)
Lemma write_flows T eof x l w q go w' q' :
  flow T eof q (x :: l) → write_one x (w, q) = (Ok go, (w', q')) →
  w' = w ∧ flow T eof q' l ∧ go = true ∨ ∃ y, w' = (push_front y w).2 ∧ flow T eof q' (y :: l) ∧ go = false.
Proof.
  intros [HT He]. destruct (end_waits_head _ _ _ _ He) as (d & f & -> & Hhead & Htail & Hend).
  rw queued_cons /= in HT. rw /write_one {1}/mbind {1}/SE_bind /on_conn.
  destruct (stream_send CONNECT_STREAM_ID d f q) as [[k| | |e] q1] eqn:Hs; [| |done..].
  - pose proof (finish_sent _ _ _ _ _ _ Hs) as Hfin. apply stream_send_sent in Hs as (Hk & Hacc & _).
    destruct (Nat.eqb_spec k (length d)) as [->|Hne].
    + intros [= <- <- <-]. left. rw andb_true_r in Hfin. split; [done|]. split; [|done]. split; [|by rw Hfin].
      by rw Hacc firstn_all -app_assoc.
    + intros [= <- <- <-]. right. exists (WData CONNECT_STREAM_ID (drop k d) f). split; [done|]. split; [|done].
      split; [|by rw Hfin andb_false_r orb_false_r].
      by rw Hacc queued_cons /= -app_assoc (app_assoc (take k d)) take_drop.
  - assert (Ha : accepted q1 CONNECT_STREAM_ID = accepted q CONNECT_STREAM_ID) by (by eapply stream_send_refused).
    destruct (f && bool_decide (d = [])) eqn:Hcol.
    + apply andb_prop in Hcol as [-> ->%bool_decide_eq_true]. intros [= <- <- <-]. left. split; [done|]. split; [|done].
      split; [by rw Ha|]. rw (finish_collected _ _ _ Hs). by apply Hend.
    + intros [= <- <- <-]. right. exists (WData CONNECT_STREAM_ID d f). split; [done|]. split; [|done].
      split; [by rw Ha queued_cons|]. by rw (finish_refused _ _ _ _ _ Hs Hcol).
Qed.

Definition down_inv (w0 : World) (T : bytes) (eof : bool) (wq : World * Q) : Prop :=
  same_core w0 wq.1 ∧ outbound_rx (app wq.1) = [] ∧ flow T eof wq.2 (pending_writes (app wq.1)).

Lemma loop_flows w0 T eof fuel : triple (down_inv w0 T eof) (write_loop fuel) (λ _, down_inv w0 T eof) (λ _, True).
Proof.
  induction fuel as [|fuel IH]; simpl; [by apply triple_throw|].
  intros [w q] (Hc & Hrx & Hf). rw {1}/mbind {1}/SE_bind {1}/on_world /self /gets.
  cbn [fst snd] in *. destruct (pending_writes (app w)) as [|x l] eqn:Hp; [by rw /= /down_inv /= Hp|].
  rw {1}/mbind {1}/SE_bind {1}/on_world {1}/with_app {1}/modify.
  set (w1 := MkWorld (set_pending_writes l (app w)) _ _ _ _).
  assert (Hc1 : same_core w0 w1) by by destruct Hc as (? & ? & ? & ? & ? & ? & ? & ? & ? & ?).
  rw {1}/mbind {1}/SE_bind. destruct (write_one x (w1, q)) as [[go|e] [w2 q2]] eqn:Hone; [|done].
  destruct (write_flows _ _ _ _ _ _ _ _ _ Hf Hone) as [(-> & Hf2 & ->)|(y & -> & Hf2 & ->)].
  - by apply IH.
  - split_and!; [|done|done]. by destruct Hc1 as (? & ? & ? & ? & ? & ? & ? & ? & ? & ?).
Qed.

Lemma writes_flow T eof l w q w' q' :
  line l w → flow T eof q l → process_writes (w, q) = (Ok (), (w', q')) →
  same_core w w' ∧ ∃ l', line l' w' ∧ flow T eof q' l'.
Proof.
  intros Hl Hf. rw /process_writes. intros ([] & [w1 q1] & H1 & Hrun)%SE_bind_inv. rw /on_world in H1.
  pose proof (line_check l w Hl) as Hl1. pose proof (same_check w w (srv_same_refl w)) as Hc1.
  destruct (check_authentication_deadline w) as [[[]|] w1']; [|done]. injection H1 as -> ->.
  apply SE_bind_inv in Hrun as ([] & [w2 q2] & H2 & Hrun). rw /on_world in H2.
  pose proof (line_cleanup l w1 Hl1) as Hl2. pose proof (same_cleanup w w1 Hc1) as Hc2.
  destruct (maybe_cleanup_udp_state w1) as [[[]|] w2']; [|done]. injection H2 as -> ->.
  apply SE_bind_inv in Hrun as ([] & wq3 & [= <-] & Hrun). apply SE_bind_inv in Hrun as (queue & wq4 & [= <- <-] & Hrun).
  match type of Hrun with write_loop ?f ?s = _ => pose proof (loop_flows w T eof f s) as Hs end.
  rw Hrun in Hs. destruct Hs as (Hc & Hrx & Hflow).
  - split_and!; [by destruct Hc2 as (? & ? & ? & ? & ? & ? & ? & ? & ? & ?)|done|]. cbn. by rw Hl2.
  - split; [done|]. eexists. split; [reflexivity|]. cbn in Hrx, Hflow. by rw Hrx app_nil_r.
Qed.

(** The relay queues what it read. *)
Lemma flow_queue T q l data :
  flow T false q l → flow (T ++ data) (bool_decide (data = [])) q (l ++ [WData CONNECT_STREAM_ID data (bool_decide (data = []))]).
Proof.
  intros [HT [Hfin Hl]]. split.
  - by rw queued_snoc /= app_assoc HT.
  - rw Hfin. case_bool_decide; simpl; [right; split; [done|by exists l, data]|]. split; [done|]. apply Forall_snoc; [done|by eexists].
Qed.
Lemma task_queues l x w w' :
  line l w → (length (outbound_rx (app w)) < CHANNEL_CAPACITY)%nat → task_queue x w = (Ok (), w') → line (l ++ [x]) w'.
Proof.
  intros Hl Hroom. rw /task_queue /mbind /SE_bind /self /gets. apply Nat.ltb_lt in Hroom as ->. intros [= <-].
  by rw /line /= app_assoc Hl.
Qed.

(** Heartbeats are sent back. *)
Lemma heartbeats_flow T eof l dgrams w q w' q' :
  forallb is_heartbeat dgrams = true → flow T eof q l →
  for_each read_datagram dgrams (w, q) = (Ok (), (w', q')) → w' = w ∧ flow T eof q' l.
Proof.
  revert q. induction dgrams as [|d dgrams IH]; intros q Hh Hf; cbn [for_each]; [by intros [= <- <-]|].
  cbn [forallb] in Hh. apply andb_prop in Hh as [Hd Hh]. intros ([] & [w1 q1] & H1 & H2)%SE_bind_inv.
  rw /read_datagram in H1. rw /is_heartbeat in Hd. rw Hd {1}/mbind {1}/SE_bind /on_conn in H1.
  destruct (dgram_send (take 2 d) q) as [r q2] eqn:Hs. injection H1 as <- <-. apply (IH q2); [done| |done].
  by rw /flow (dgram_send_streams _ _ _ _ _ Hs) (finish_dgram _ _ _ _ _ Hs).
Qed.
End down.

(** ** Both ways *)
Section served.
Context `{!TuicCore, !TuicCoreLaws} {Q : Type} `{!QuicConn Q, !QuicLaws Q, !QuicEnds Q}.
Variables (ekm : bytes → bytes → option bytes) (ho : gmap Z PendingStream → list (Z * PendingStream)).
Variables (inb : bytes) (us : list TuicUser) (u : TuicUser) (uuid tok auth : bytes).
Variables (t : TargetAddr) (hd rest : bytes).
Hypothesis Hho : ∀ m, ho m ≡ₚ map_to_list m.
Hypothesis Hauth_len : length auth = AUTHENTICATE_LEN.
Hypothesis Hauth_cmd : auth !!! 1%nat = CMD_AUTHENTICATE.
Hypothesis Hauth : parse_authenticate auth = Ok (uuid, tok).
Hypothesis Hauth_cut : ∀ k, (k < length auth)%nat → ∃ e, parse_authenticate (take k auth) = Err e.
Hypothesis Hfind : find (λ u, str_eqb (user_uuid u) uuid) us = Some u.
Hypothesis Hekm : ekm (user_uuid u) (user_password u) = Some tok.
Hypothesis Hcut : ∀ k, (k < length hd)%nat → try_parse_connect (take k hd) = Ok None.
Hypothesis Hall : ∀ rest, try_parse_connect (hd ++ rest) = Ok (Some (t, length hd)).
Hypothesis Hhd : (0 < length hd)%nat.

(** What the task has done, next to what it received. *)
Definition task_inv (rc : list StreamRead) (rem : bytes) (eof : bool) (task : option RelayTask) (taken : Taken) : Prop :=
  match task, taken with
  | None, None => rem = [] ∧ eof = false
  | Some tk, Some (initial, recvd) =>
      rt_written tk = initial ++ recvd ∧ rt_shut tk = client_closed tk ∧ remote_closed tk = eof ∧
      (client_closed tk = true → heard_end rc = true ∧ hd ++ rt_written tk = hear rc)
  | _, _ => False
  end.
Definition srv_inv (ra rc : list StreamRead) (rem : bytes) (eof : bool) (s : Srv Q) : Prop :=
  ∃ taken l, up_inv inb us u auth t hd ra rc taken (sv_world s) ∧ line l (sv_world s) ∧ flow rem eof (sv_quic s) l ∧
    task_inv rc rem eof (sv_task s) taken.

(** The end of the stream was the last thing on it. *)
Lemma task_inv_grows ra rc kc rem eof task taken :
  fine auth hd rest ra (rc ++ kc) → task_inv rc rem eof task taken → task_inv (rc ++ kc) rem eof task taken.
Proof.
  intros (_ & (_ & Hk & _)%orderly_app & _). rw /task_inv. destruct task as [tk|], taken as [[i x]|]; [|done..].
  intros (H1 & H2 & H3 & H4). split_and!; [done..|]. intros Hc. destruct (H4 Hc) as [He Hh]. rw (Hk He) app_nil_r. done.
Qed.

Lemma reads_inv ra rc taken rem eof l readable dgrams w (q : Q) w' q' :
  callback (Reads readable dgrams) = true → up_inv inb us u auth t hd ra rc taken w → line l w → flow rem eof q l →
  fine auth hd rest (ra ++ reads_on AUTH_STREAM_ID readable) (rc ++ reads_on CONNECT_STREAM_ID readable) →
  process_reads ekm ho readable dgrams (w, q) = (Ok (), (w', q')) →
  up_inv inb us u auth t hd (ra ++ reads_on AUTH_STREAM_ID readable) (rc ++ reads_on CONNECT_STREAM_ID readable) taken w' ∧
  line l w' ∧ flow rem eof q' l.
Proof.
  intros [Hs Hd]%andb_prop Hup Hl Hflow Hf. rw /process_reads. intros ([] & [w1 q1] & H1 & Hrun)%SE_bind_inv. rw /on_world in H1.
  pose proof (line_check l w Hl) as Hl1. pose proof (same_check w w (srv_same_refl w)) as Hc1.
  destruct (check_authentication_deadline w) as [[[]|] w1']; [|done]. injection H1 as -> ->.
  apply SE_bind_inv in Hrun as ([] & [w2 q2] & H2 & Hrun). rw /on_world in H2.
  pose proof (line_cleanup l w1 Hl1) as Hl2. pose proof (same_cleanup w w1 Hc1) as Hc2.
  destruct (maybe_cleanup_udp_state w1) as [[[]|] w2']; [|done]. injection H2 as -> ->.
  apply (up_same _ _ _ _ _ _ _ _ _ _ _ Hc2) in Hup. apply SE_bind_inv in Hrun as ([] & [w3 q3] & H3 & Hrun). rw /on_world in H3.
  pose proof (line_reads ekm ho l readable w2 Hl2) as Hl3.
  destruct (for_each _ readable w2) as [[[]|] w3'] eqn:H4; [|done]. injection H3 as -> ->.
  apply (streams_up ekm ho inb us u uuid tok auth t hd rest Hho Hauth_len Hauth_cmd Hauth Hauth_cut Hfind Hekm Hcut Hall Hhd
    ra rc taken) in H4; [|done..].
  destruct (heartbeats_flow rem eof l dgrams w3 q3 w' q' Hd Hflow Hrun) as [-> Hflow']. done.
Qed.

Definition ev_reads_on (sid : Z) (ev : SrvEvent) : list StreamRead :=
  match ev with SvConn (Reads readable _) => reads_on sid readable | _ => [] end.

(** A call that only concerns the connection. *)
Lemma keeps_ok {A S} (I : S → Prop) (m : SE S A) s a s' : keeps I m → I s → m s = (Ok a, s') → I s'.
Proof. intros Hm Hs E. specialize (Hm s Hs). by rw E in Hm. Qed.
Lemma quiet_inv ra rc rem eof (m : SE World ()) w (q : Q) w' q' task :
  (∀ w0, keeps (same_core w0) m) → (∀ l, keeps (line l) m) → srv_inv ra rc rem eof (MkSrv w q task) →
  on_world m (w, q) = (Ok (), (w', q')) → srv_inv ra rc rem eof (MkSrv w' q' task).
Proof.
  intros Hs Hk (taken & l & Hup & Hl & Hflow & Ht). rw /on_world. destruct (m w) as [r w1] eqn:E. intros [= -> -> ->].
  exists taken, l. split_and!; [|by eapply keeps_ok|done|done]. eapply up_same; [by eapply keeps_same|done].
Qed.

Lemma conn_inv ra rc rem eof ev s s' :
  callback ev = true → srv_inv ra rc rem eof s →
  fine auth hd rest (ra ++ ev_reads_on AUTH_STREAM_ID (SvConn ev)) (rc ++ ev_reads_on CONNECT_STREAM_ID (SvConn ev)) →
  srv_conn ekm ho ev (sv_task s) s = Some s' →
  srv_inv (ra ++ ev_reads_on AUTH_STREAM_ID (SvConn ev)) (rc ++ ev_reads_on CONNECT_STREAM_ID (SvConn ev)) rem eof s'.
Proof.
  intros Hcb Hinv Hf. destruct s as [w q task]. rw /srv_conn. cbn [sv_world sv_quic sv_task].
  destruct (conn_event ekm ho ev (w, q)) as [[[]|e] [w' q']] eqn:E; [|done]. intros [= <-].
  destruct ev as [|r|readable dgrams| |x|i|i|i|i]; try done; cbn [ev_reads_on] in *; rw ?app_nil_r; rw /conn_event in E.
  - eapply quiet_inv; [apply same_established|apply line_established|done..].
  - eapply quiet_inv; [intros w0; apply same_wait|intros l; apply line_wait|done..].
  - destruct Hinv as (taken & l & Hup & Hl & Hflow & Ht). cbn [sv_world sv_quic sv_task] in *.
    destruct (reads_inv ra rc taken rem eof l readable dgrams w q w' q' Hcb Hup Hl Hflow Hf E) as (Hup' & Hl' & Hflow').
    exists taken, l. split_and!; [done..|]. by eapply task_inv_grows.
  - destruct Hinv as (taken & l & Hup & Hl & Hflow & Ht). cbn [sv_world sv_quic sv_task] in *.
    destruct (writes_flow rem eof l w q w' q' Hl Hflow E) as (Hc & l' & Hl' & Hflow').
    exists taken, l'. split_and!; [by eapply up_same|done..].
Qed.

Lemma start_inv ra rc rem eof s s' :
  srv_inv ra rc rem eof s → srv_event ekm ho SvStart s = Some s' → srv_inv ra rc rem eof s'.
Proof.
  destruct s as [w q [tk|]]; [done|]. intros (taken & l & Hup & Hl & Hflow & Ht). cbn in *.
  destruct (relays w !! 0%nat) as [r|] eqn:Hr; [|done]. destruct taken; [done|]. destruct Ht as [-> ->].
  rw /relay_body. rw {1 2}/mbind {1 2}/SE_bind /lift. intros Hrun.
  assert (s' = MkSrv w q (Some (MkRelayTask (rl_initial r) false [] false false))) as ->.
  { revert Hrun. case_bool_decide as Hi; cbn; [rw Hi|]; by intros [= <-]. }
  exists (Some (rl_initial r, [])), l. split_and!; [by apply up_starts|done|done|]. cbn. by rw app_nil_r.
Qed.

Lemma client_inv ra rc rem eof s s' :
  srv_inv ra rc rem eof s → srv_event ekm ho SvClient s = Some s' → srv_inv ra rc rem eof s'.
Proof.
  destruct s as [w q [tk|]]; [|done]. intros (taken & l & Hup & Hl & Hflow & Ht). cbn [sv_world sv_quic sv_task] in *.
  cbn [srv_event sv_world sv_quic sv_task]. destruct (relays w !! 0%nat) as [r|] eqn:Hr; [|done].
  destruct taken as [[initial recvd]|]; [|done]. destruct Ht as (Hwr & Hsh & Heof & Hcl).
  destruct (up_relay _ _ _ _ _ _ _ _ _ _ _ Hup Hr) as (_ & _ & Hsid & Hb & Hini & Hst & _).
  specialize (Hini ltac:(by eexists)). injection Hini as Hini. subst initial.
  destruct tk as [wr shut sent cc rclosed]. cbn [client_closed rt_written rt_shut remote_closed] in *. destruct cc; [done|].
  destruct (ch_queue (rl_rx r)) as [|data queue] eqn:Hq.
  - rw Hsid. destruct (streams (app w) !! CONNECT_STREAM_ID) eqn:Hs; [done|]. intros [= <-].
    exists (Some (rl_initial r, recvd)), l. split_and!; [done..|]. cbn. split_and!; [done..|]. intros _. split; [by apply Hst|].
    rw Hwr -Hb /= app_nil_r. done.
  - intros [= <-]. exists (Some (rl_initial r, recvd ++ data)), l.
    split_and!; [by apply (up_receives _ _ _ _ _ _ ra rc (rl_initial r) recvd w r data queue)|done|done|].
    cbn. split_and!; [by rw Hwr app_assoc|done..].
Qed.

Lemma remote_inv ra rc rem eof data s s' :
  srv_inv ra rc rem eof s → srv_event ekm ho (SvRemote data) s = Some s' →
  srv_inv ra rc (rem ++ data) (eof || bool_decide (data = [])) s'.
Proof.
  destruct s as [w q [tk|]]; [|done]. intros (taken & l & Hup & Hl & Hflow & Ht). cbn [sv_world sv_quic sv_task] in *.
  cbn [srv_event sv_world sv_quic sv_task]. destruct (relays w !! 0%nat) as [r|] eqn:Hr; [|done].
  destruct taken as [[initial recvd]|]; [|done]. destruct Ht as (Hwr & Hsh & Heof & Hcl).
  destruct (up_relay _ _ _ _ _ _ _ _ _ _ _ Hup Hr) as (_ & _ & Hsid & _).
  destruct tk as [wr shut sent cc rclosed]. cbn [client_closed rt_written rt_shut remote_closed] in *. subst rclosed.
  destruct eof; [done|]. destruct (Nat.ltb_spec (length (outbound_rx (app w))) CHANNEL_CAPACITY) as [Hroom|_]; [|done].
  assert (Hev : relay_event (rl_stream r) (RemoteRead (Ok data) true) (MkRelayTask wr shut sent cc false) =
    (Ok (), MkRelayTask wr shut (sent ++ [WData CONNECT_STREAM_ID data (bool_decide (data = []))]) cc (bool_decide (data = [])))).
  { rw Hsid /relay_event /mbind /SE_bind /gets /lift. by destruct data. }
  rw Hev. cbn [rt_sent]. rw last_snoc {1}/mbind {1}/option_bind. rw /srv_conn /conn_event /on_world. cbn [sv_world sv_quic].
  destruct (task_queue _ w) as [[[]|e] w'] eqn:E; [|done]. intros [= <-].
  exists (Some (initial, recvd)), (l ++ [WData CONNECT_STREAM_ID data (bool_decide (data = []))]).
  split_and!; [|by eapply task_queues|by apply flow_queue|done].
  eapply up_same; [by eapply keeps_same; [intros w0; apply same_task_queue|]|done].
Qed.

Lemma event_inv ra rc rem eof ev s s' :
  srv_inv ra rc rem eof s → fine auth hd rest (ra ++ ev_reads_on AUTH_STREAM_ID ev) (rc ++ ev_reads_on CONNECT_STREAM_ID ev) →
  srv_event ekm ho ev s = Some s' →
  srv_inv (ra ++ ev_reads_on AUTH_STREAM_ID ev) (rc ++ ev_reads_on CONNECT_STREAM_ID ev) (rem ++ srv_remote [ev]) (eof || srv_eof [ev]) s'.
Proof.
  intros Hs Hf Hev. rw /srv_remote /srv_eof. destruct ev as [ev| | |data]; cbn [ev_reads_on fmap list_fmap concat existsb] in *;
    rw ?app_nil_r ?orb_false_r.
  - cbn in Hev. destruct (callback ev) eqn:Hcb; [|done]. by apply (conn_inv ra rc rem eof ev s).
  - by eapply start_inv.
  - by eapply client_inv.
  - apply (remote_inv ra rc rem eof data s s' Hs) in Hev. by destruct data.
Qed.

Lemma run_inv ra rc rem eof evs s s' :
  srv_inv ra rc rem eof s → fine auth hd rest (ra ++ srv_reads AUTH_STREAM_ID evs) (rc ++ srv_reads CONNECT_STREAM_ID evs) →
  srv_run ekm ho evs s = Some s' →
  srv_inv (ra ++ srv_reads AUTH_STREAM_ID evs) (rc ++ srv_reads CONNECT_STREAM_ID evs) (rem ++ srv_remote evs) (eof || srv_eof evs) s'.
Proof.
  revert ra rc rem eof s. induction evs as [|ev evs IH]; intros ra rc rem eof s Hs Hf; cbn [srv_run].
  { intros [= <-]. by rw /srv_reads /srv_remote /srv_eof /= !app_nil_r orb_false_r. }
  assert (∀ j, srv_reads j (ev :: evs) = ev_reads_on j ev ++ srv_reads j evs) as Er by by destruct ev as [[]| | |].
  assert (srv_remote (ev :: evs) = srv_remote [ev] ++ srv_remote evs) as -> by by rw /srv_remote /= app_nil_r.
  assert (srv_eof (ev :: evs) = srv_eof [ev] || srv_eof evs) as -> by by rw /srv_eof /= orb_false_r.
  rw !Er (app_assoc ra) (app_assoc rc) in Hf. rw !Er (app_assoc ra) (app_assoc rc) (app_assoc rem) orb_assoc.
  destruct (srv_event ekm ho ev s) as [s1|] eqn:E; [|done]. cbn [mbind option_bind].
  apply (IH _ _ (rem ++ srv_remote [ev]) (eof || srv_eof [ev]) s1); [|done].
  apply (event_inv ra rc rem eof ev s s1); [done|by eapply fine_prefix|done].
Qed.

Lemma new_inv n1 n2 cl tk (q : Q) :
  accepted q CONNECT_STREAM_ID = [] → finished q CONNECT_STREAM_ID = false →
  srv_inv [] [] [] false (MkSrv (MkWorld (app_new inb us n1 n2) [] [] cl tk) q None).
Proof.
  intros Ha Hf. exists None, []. split_and!; [by eapply up_new|done| |done]. split; [by rw /= Ha|]. split; [done|constructor].
Qed.
End served.

(** ** The end of what the client sends *)
Definition app_closes (ev : TuicClientEvent) : bool :=
  match ev with CEAppRead (Ok (_ :: _)) => false | CEAppRead _ => true | _ => false end.
Definition app_reads (ev : TuicClientEvent) : bool := match ev with CEAppRead _ => true | _ => false end.
Definition app_ended (evs : list TuicClientEvent) : bool := existsb app_closes evs.
(** The task that reads the application stops at its end. *)
Fixpoint ends_last (evs : list TuicClientEvent) : bool :=
  match evs with
  | [] => true
  | ev :: evs => (if app_closes ev then negb (existsb app_reads evs) else true) && ends_last evs
  end.

Section client_end.
Context `{!TuicCore, !TuicCoreLaws} {Q : Type} `{!QuicConn Q, !QuicLaws Q, !QuicEnds Q}.
Implicit Types (q : Q) (l : list ClientWrite).

(** The end of the stream is sent after everything else. *)
Definition close_waits (ended fin : bool) l : Prop :=
  if ended then (fin = false ∧ ∃ k, l = k ++ [CWClose] ∧ Forall (λ x, x ≠ CWClose) k) ∨ Forall (λ x, x = CWHeartbeat) l
  else fin = false ∧ Forall (λ x, x ≠ CWClose) l.
Definition client_over (ended : bool) (sq : TuicClientApp * Q) : Prop :=
  close_waits ended (finished sq.2 CONNECT_STREAM_ID) (ca_pending_writes sq.1 ++ ca_outbound_rx sq.1).

Lemma close_head ended fin x l :
  close_waits ended fin (x :: l) → x ≠ CWClose →
  close_waits ended fin l ∧ close_waits ended fin (CWHeartbeat :: l) ∧ (x ≠ CWHeartbeat → fin = false ∧ ∀ d, close_waits ended fin (CWData d :: l)).
Proof.
  intros Hc Hx. destruct ended; cbn in *.
  - destruct Hc as [(-> & k & El & Hk)|[-> Hl]%Forall_cons]; [|split_and!; [by right|right; by constructor|done]].
    destruct k as [|y k]; [by injection El as -> ->|]. injection El as -> ->. apply Forall_cons in Hk as [_ Hk].
    split_and!; [left; split; [done|by exists k]|left; split; [done|]; exists (CWHeartbeat :: k); split; [done|by constructor]|].
    intros _. split; [done|]. intros d. left. split; [done|]. exists (CWData d :: k). split; [done|by constructor].
  - destruct Hc as [-> [_ Hl]%Forall_cons]. split_and!; [done..|by constructor|]. intros _. split; [done|]. intros d. split; [done|]. by constructor.
Qed.
Lemma close_done ended fin fin' l : close_waits ended fin (CWClose :: l) → close_waits ended fin' l.
Proof.
  destruct ended; cbn; [|by intros [_ [? _]%Forall_cons]]. intros [(-> & k & El & Hk)|[? _]%Forall_cons]; [|done].
  destruct k as [|y k]; [injection El as ->; by right|]. injection El as <- _. by apply Forall_cons in Hk as [? _].
Qed.
Lemma close_heartbeat ended fin l : close_waits ended fin l → close_waits ended fin (CWHeartbeat :: l).
Proof.
  destruct ended; cbn.
  - intros [(-> & k & -> & Hk)|Hl]; [left; split; [done|]; exists (CWHeartbeat :: k); split; [done|by constructor]|right; by constructor].
  - intros [-> Hl]. split; [done|]. by constructor.
Qed.

Lemma write_over ended w rest s q :
  ca_pending_writes s = rest → close_waits ended (finished q CONNECT_STREAM_ID) (w :: rest ++ ca_outbound_rx s) →
  match client_write_one w (s, q) with
  | (Ok go, sq) => client_over ended sq ∧ (go = true → ca_pending_writes sq.1 = rest)
  | (Err _, _) => True
  end.
Proof.
  intros Hp Hc. destruct w as [d| |]; rw /client_write_one.
  - destruct (close_head _ _ _ _ Hc) as (Ht & _ & Hd); [done|]. destruct (Hd ltac:(done)) as [Hf Hd'].
    rw {1}/mbind {1}/SE_bind {1}/on_quic. destruct (stream_send CONNECT_STREAM_ID d false q) as [[k| | |e] q'] eqn:Hs; [| |done..].
    + pose proof (finish_sent _ _ _ _ _ _ Hs) as E. rw orb_false_r in E.
      destruct (Nat.eqb k (length d)); (split; [|done]); rw /client_over /= Hp E; [done|apply Hd'].
    + pose proof (finish_refused _ _ _ _ _ Hs eq_refl) as E. split; [|done]. rw /client_over /= Hp E. apply Hd'.
  - destruct (close_head _ _ _ _ Hc) as (Ht & Hh & _); [done|]. destruct encode_heartbeat as [hb|]; [|done].
    rw /mbind /SE_bind /lift /on_quic. destruct (dgram_send hb q) as [r q'] eqn:Hs.
    pose proof (finish_dgram _ _ _ _ CONNECT_STREAM_ID Hs) as E.
    destruct r; try done; (split; [|done]); rw /client_over /= Hp E; done.
  - rw /mbind /SE_bind /on_quic. destruct (stream_send CONNECT_STREAM_ID [] true q) as [r q'].
    split; [|done]. rw /client_over /= Hp. by eapply close_done.
Qed.

Lemma loop_over ended queue :
  triple (λ sq, client_over ended sq ∧ ca_pending_writes sq.1 = queue) (client_write_loop queue) (λ _, client_over ended) (λ _, True).
Proof.
  induction queue as [|w rest IH]; intros [s q] [Hs Hp]; simpl in *; [exact Hs|].
  rw {1}/mbind {1}/SE_bind. cbn [on_self]. rw {1}/modify {1}/mbind {1}/SE_bind. rw /client_over /= Hp in Hs.
  pose proof (write_over ended w rest (set_ca_pending_writes rest s) q eq_refl Hs) as H1.
  destruct (client_write_one w (set_ca_pending_writes rest s, q)) as [[[]|e] sq]; [|apply H1|done].
  destruct H1 as [H1 H2]. apply IH. split; [done|by apply H2].
Qed.

Lemma event_over ended ev :
  (ended = true → app_reads ev = false) →
  triple (client_over ended) (client_event ev) (λ _, client_over (ended || app_closes ev)) (λ _, True).
Proof.
  intros Hlast [s q] Hs. rw /client_over /= in Hs. destruct ev as [r| |now|readable| |]; cbn [app_closes]; rw ?orb_false_r; rw /client_event.
  - destruct ended; [by discriminate (Hlast eq_refl)|]. destruct Hs as [Hf Hl]. cbn. rw /client_over /= app_assoc.
    destruct r as [[|b d]|e]; cbn; [left| |left]; (split; [done|]); [by eexists| |by eexists]. by apply Forall_snoc.
  - rw /mbind /SE_bind /gets /=. destruct (ca_pending_writes s) as [|w l] eqn:Hp; [|by rw /client_over /= Hp].
    destruct (ca_outbound_rx s) as [|w rest] eqn:Hr; [by rw /client_over /= Hp Hr|].
    rw /client_wait_for_data /mbind /SE_bind /gets /modify /=. rw Hp /=. by rw /client_over /= Hp.
  - rw /client_wait_for_data /mbind /SE_bind /gets /=. case_bool_decide as Hl; [|exact Hs]. cbn.
    apply nil_length_inv in Hl. rw Hl in Hs. rw /client_over /= Hl. by apply close_heartbeat.
  - pose proof (reads_writes (ca_outbound_rx s) (ca_pending_writes s) readable s (conj eq_refl eq_refl)) as Hr. simpl.
    destruct (client_process_reads readable s) as [[[]|e] s']; [|done]. destruct Hr as [Hr Hp]. by rw /client_over /= Hr Hp.
  - rw /client_process_writes /mbind /SE_bind /=.
    match goal with |- context [client_write_loop ?l ?sq] => pose proof (loop_over ended l sq) as Hl;
      destruct (client_write_loop l sq) as [[[]|e] sq'] end; [|done]. apply Hl. split; [|done]. by rw /client_over /= app_nil_r.
  - exact Hs.
Qed.

Lemma events_over ended evs :
  ends_last evs = true → (ended = true → existsb app_reads evs = false) →
  triple (client_over ended) (for_each client_event evs) (λ _, client_over (ended || app_ended evs)) (λ _, True).
Proof.
  revert ended. induction evs as [|ev evs IH]; intros ended Hl He; cbn [for_each].
  { apply triple_ret. intros s. by rw /app_ended /= orb_false_r. }
  cbn [ends_last] in Hl. apply andb_prop in Hl as [H1 H2]. cbn [existsb] in He.
  eapply triple_bind; [apply event_over; intros E; by apply orb_false_elim in He as [? _]|]. intros [].
  rw /app_ended. cbn [existsb]. rw orb_assoc. apply IH; [done|]. intros E. destruct ended; [by apply orb_false_elim in He as [_ ?]|].
  cbn in E. rw E in H1. by apply negb_true_iff in H1.
Qed.

(** Once the end of the client's stream was taken, everything was, and the
    application had ended. *)
Lemma client_finished ekm uuid password t now q evs s' q' :
  finished q CONNECT_STREAM_ID = false → ends_last evs = true →
  client_connection ekm evs (client_app_new uuid password t now, q) = (Ok (), (s', q')) →
  finished q' CONNECT_STREAM_ID = true → waiting_data s' = [] ∧ app_ended evs = true.
Proof.
  intros Hq Hl Hrun Hf. apply SE_bind_inv in Hrun as ([] & sq & H1 & H2).
  assert (client_over false sq) as Hs.
  { revert H1. rw /client_on_conn_established /send_authentication /mbind /SE_bind /gets /lift /on_quic. cbn [fst snd].
    destruct (token _ _ _) as [tok|]; [|done]. cbv beta iota. destruct (encode_authenticate _ tok) as [auth|]; [|done].
    cbv beta iota. destruct (stream_send AUTH_STREAM_ID auth true q) as [r1 q1] eqn:E1.
    pose proof (finish_other _ _ _ _ _ _ CONNECT_STREAM_ID E1 ltac:(done)) as F1. rw Hq in F1.
    destruct r1; [|done..]. cbv beta iota. cbn [fst snd mret SE_ret]. destruct (encode_connect _ []) as [hd|]; [|done].
    cbv beta iota. rw /send_all_or_queue /mbind /SE_bind /on_quic.
    destruct (stream_send CONNECT_STREAM_ID hd false q1) as [[k| | |e] q2] eqn:E2; [| |done..].
    - pose proof (finish_sent _ _ _ _ _ _ E2) as F2. rw F1 in F2.
      destruct (Nat.eqb _ _); intros [= <-]; (split; [done|]); cbn; by repeat constructor.
    - pose proof (finish_refused _ _ _ _ _ E2 eq_refl) as F2. rw F1 in F2. intros [= <-]. split; [done|]. cbn. by repeat constructor. }
  pose proof (events_over false evs Hl ltac:(done) sq Hs) as H3. rw H2 in H3. rw /client_over /= Hf in H3.
  destruct (app_ended evs); [|by destruct H3]. split; [|done]. destruct H3 as [[? _]|H3]; [done|].
  rw /waiting_data. clear -H3. induction H3 as [|x l -> _ IH]; [done|]. exact IH.
Qed.
End client_end.

(** ** The claims *)
Section claims.
Context `{!TuicCore, !TuicCoreLaws} {Q : Type} `{!QuicConn Q, !QuicLaws Q, !QuicEnds Q}.
Implicit Types (q : Q) (s : Srv Q).

(** A client with the uuid and password of a user, which the exporter gives a
    token, and a target it can ask for. *)
Record known_client (ekm : bytes → bytes → option bytes) (us : list TuicUser) (u : TuicUser) (tok : bytes) (t : TargetAddr) : Prop := {
  kc_target : wf_target t;
  kc_fits : fits_wire t = true;
  kc_uuid : length (user_uuid u) = 16%nat;
  kc_uuid_bytes : wf_bytes (user_uuid u);
  kc_token : ekm (user_uuid u) (user_password u) = Some tok;
  kc_token_len : length tok = TOKEN_LEN;
  kc_token_bytes : wf_bytes tok;
  kc_user : find (λ v, str_eqb (user_uuid v) (user_uuid u)) us = Some u;
}.
(** A connection just accepted. *)
Definition srv_new (inb : bytes) (us : list TuicUser) (n1 n2 : Z) (cl : nat → Z) (ticks : nat) q : Srv Q :=
  MkSrv (MkWorld (app_new inb us n1 n2) [] [] cl ticks) q None.
(** QUIC delivers a stream: in order, without an error, its end last. *)
Definition delivers (sent : bytes) (ended : bool) (rs : list StreamRead) : Prop :=
  orderly rs = true ∧ hear rs `prefix_of` sent ∧ (heard_end rs = true → ended = true ∧ hear rs = sent).

Lemma client_auth ekm us u tok t :
  known_client ekm us u tok t →
  ∃ auth, encode_authenticate (user_uuid u) tok = Ok auth ∧ length auth = AUTHENTICATE_LEN ∧ auth !!! 1%nat = CMD_AUTHENTICATE ∧
    parse_authenticate auth = Ok (user_uuid u, tok) ∧ ∀ k, (k < length auth)%nat → ∃ e, parse_authenticate (take k auth) = Err e.
Proof.
  intros [_ _ Hu Hwu _ Htl Hwt _]. destruct (auth_command (user_uuid u) tok Hu Hwu Htl Hwt) as (auth & Ha & Hl & Hc & Hp).
  exists auth. split_and!; [done..|]. intros k Hk.
  destruct (unmarshal_marshal (HAuthenticate (user_uuid u) tok)) as (auth' & Hm & _ & Hcut); [by split_and!|].
  assert (auth' = auth) as -> by (change (encode_authenticate (user_uuid u) tok) with (marshal (HAuthenticate (user_uuid u) tok)) in Ha; congruence).
  exists (EUnmarshal (Some UnexpectedEof)). by rw /parse_authenticate /parse_header (Hcut k Hk).
Qed.

(** The invariant of every run. *)
Lemma served_inv ekm ho inb us u tok t auth hd rest n1 n2 cl tk q evs s :
  (∀ m, ho m ≡ₚ map_to_list m) → known_client ekm us u tok t → encode_authenticate (user_uuid u) tok = Ok auth →
  (∀ data, encode_connect t data = Ok (hd ++ data)) →
  accepted q CONNECT_STREAM_ID = [] → finished q CONNECT_STREAM_ID = false →
  fine auth hd rest (srv_reads AUTH_STREAM_ID evs) (srv_reads CONNECT_STREAM_ID evs) →
  srv_run ekm ho evs (srv_new inb us n1 n2 cl tk q) = Some s →
  srv_inv inb us u auth (wire_target t) hd (srv_reads AUTH_STREAM_ID evs) (srv_reads CONNECT_STREAM_ID evs)
    (srv_remote evs) (srv_eof evs) s.
Proof.
  intros Hho Hk Ha Hhd Hacc Hfin Hf Hrun. destruct (client_auth _ _ _ _ _ Hk) as (auth' & Ha' & Hl & Hc & Hp & Hcut).
  rw Ha in Ha'. injection Ha' as <-. destruct Hk as [Hwf Hfit _ _ Htok _ _ Hu].
  destruct (connect_header t Hwf Hfit) as (hd' & H2 & Hhd' & Hcut' & Hall).
  assert (hd' = hd) as ->. { specialize (Hhd []). rw Hhd' !app_nil_r in Hhd. congruence. }
  apply (run_inv ekm ho inb us u (user_uuid u) tok auth (wire_target t) hd rest Hho Hl Hc Hp Hcut Hu Htok Hcut' Hall ltac:(lia)
    [] [] [] false evs (srv_new inb us n1 n2 cl tk q) s); [|done..]. apply new_inv; done.
Qed.

(** A task that runs belongs to a relay of an authenticated connection. *)
Lemma task_relay inb us u auth t hd ra rc rem eof s task :
  srv_inv inb us u auth t hd ra rc rem eof s → sv_task s = Some task →
  ∃ r, relays (sv_world s) = [r] ∧ rl_session r = MkSession inb Connect t ∧ rl_stream r = CONNECT_STREAM_ID ∧
    authenticated (app (sv_world s)) = true ∧ app_username (app (sv_world s)) = Some (user_name u) ∧
    hd ++ rt_written task ++ concat (ch_queue (rl_rx r)) = hear rc ∧
    (streams (app (sv_world s)) !! CONNECT_STREAM_ID = None ↔ heard_end rc = true).
Proof.
  intros (taken & l & Hup & _ & _ & Ht) E. rw E in Ht. destruct taken as [[initial recvd]|]; [|done]. destruct Ht as (Hwr & _).
  destruct (up_taken _ _ _ _ _ _ _ _ _ _ Hup) as [r Hr].
  destruct (up_relay _ _ _ _ _ _ _ _ _ _ _ Hup Hr) as ((Ha & Hn & _) & Hse & Hsid & Hb & Hini & Hst & Hrl).
  exists r. do 5 (split; [done|]). split; [|done]. specialize (Hini ltac:(by eexists)). injection Hini as ->.
  by rw Hwr -app_assoc.
Qed.

(** The task can always turn to what is in its channel, and to the end. *)
Lemma client_turns ekm ho inb us u auth t hd ra rc rem eof s task :
  srv_inv inb us u auth t hd ra rc rem eof s → sv_task s = Some task → client_closed task = false →
  heard_end rc = true ∨ hd ++ rt_written task ≠ hear rc → is_Some (srv_event ekm ho SvClient s).
Proof.
  intros Hs Ht Hc Hor. destruct (task_relay _ _ _ _ _ _ _ _ _ _ _ _ Hs Ht) as (r & Hr & _ & Hsid & _ & _ & Hb & Hst).
  rw /srv_event Ht Hr Hc. cbn [lookup list_lookup].
  destruct (ch_queue (rl_rx r)) as [|data queue] eqn:Hq.
  - rw Hsid (proj2 Hst). { destruct Hor as [?|Hne]; [done|]. by rw /= app_nil_r in Hb. }
    rw /relay_event /mbind /SE_bind /gets Hc. by eexists.
  - rw /relay_event /mbind /SE_bind /gets Hc. by eexists.
Qed.

Lemma served_flow inb us u auth t hd ra rc rem eof s :
  srv_inv inb us u auth t hd ra rc rem eof s →
  ∃ l, line l (sv_world s) ∧ accepted (sv_quic s) CONNECT_STREAM_ID ++ queued CONNECT_STREAM_ID l = rem ∧
    end_waits eof (finished (sv_quic s) CONNECT_STREAM_ID) l.
Proof. intros (taken & l & _ & Hl & [HT He] & _). by exists l. Qed.

(** A stream that takes what it is offered. *)
Definition takes_all : Prop := ∀ d f q, ∃ q', stream_send CONNECT_STREAM_ID d f q = (Sent (length d), q').

Lemma loop_empties T eof fuel l w q :
  takes_all → flow T eof q l → pending_writes (app w) = l → outbound_rx (app w) = [] → (length l < fuel)%nat →
  ∃ w' q', write_loop fuel (w, q) = (Ok (), (w', q')) ∧ line [] w' ∧ flow T eof q' [].
Proof.
  intros Hall. revert fuel w q. induction l as [|x l IH]; intros fuel w q Hf Hp Hrx Hfuel; (destruct fuel as [|fuel]; [simpl in Hfuel; lia|]);
    cbn [write_loop]; rw {1}/mbind {1}/SE_bind {1}/on_world /self /gets Hp.
  { exists w, q. split_and!; [done|by rw /line Hp Hrx|done]. }
  rw {1}/mbind {1}/SE_bind {1}/on_world {1}/with_app {1}/modify. set (w1 := MkWorld (set_pending_writes l (app w)) _ _ _ _).
  destruct (write_one x (w1, q)) as [r [w2 q2]] eqn:Hone. rw {1}/mbind {1}/SE_bind Hone.
  assert (r = Ok true) as ->.
  { destruct Hf as [_ He]. destruct (end_waits_head _ _ _ _ He) as (d & f & -> & _). destruct (Hall d f q) as [q' E].
    rw /write_one {1}/mbind {1}/SE_bind /on_conn E Nat.eqb_refl in Hone. by injection Hone. }
  destruct (write_flows _ _ _ _ _ _ _ _ _ Hf Hone) as [(-> & Hf2 & _)|(y & _ & _ & ?)]; [|done].
  apply IH; [done..|simpl in Hfuel; lia].
Qed.

Lemma check_open w : authenticated (app w) = true → check_authentication_deadline w = (Ok (), w).
Proof. intros Ha. by rw /check_authentication_deadline /mbind /SE_bind /self /gets Ha. Qed.
Lemma srv_cleanup_ok w : ∃ w', maybe_cleanup_udp_state w = (Ok (), w').
Proof. rw /maybe_cleanup_udp_state /mbind /SE_bind /self /gets /now /=. case_match; by eexists. Qed.

Lemma writes_empty T eof l w q :
  takes_all → flow T eof q l → line l w → authenticated (app w) = true →
  ∃ w' q', process_writes (w, q) = (Ok (), (w', q')) ∧ line [] w' ∧ flow T eof q' [].
Proof.
  intros Hall Hf Hl Ha. destruct (srv_cleanup_ok w) as [w1 E1]. pose proof (line_cleanup l w Hl) as Hl1. rw E1 in Hl1.
  rw /process_writes (SE_bind_ok _ _ _ () (w, q)); [by rw /on_world check_open|].
  rw (SE_bind_ok _ _ _ () (w1, q)); [by rw /on_world E1|].
  rw {1}/mbind {1}/SE_bind {1}/on_world {1}/with_app {1}/modify {1}/mbind {1}/SE_bind {1}/on_world {1}/self {1}/gets.
  apply (loop_empties T eof _ l); [done|done|done|done|]. cbn. rw Hl1 /write_fuel. lia.
Qed.

Lemma srv_empties ekm ho inb us u auth t hd ra rc rem eof s :
  takes_all → srv_inv inb us u auth t hd ra rc rem eof s → authenticated (app (sv_world s)) = true →
  ∃ s', srv_event ekm ho (SvConn Writes) s = Some s' ∧
    accepted (sv_quic s') CONNECT_STREAM_ID = rem ∧ finished (sv_quic s') CONNECT_STREAM_ID = eof.
Proof.
  intros Hall (taken & l & _ & Hl & Hf & _) Ha. destruct (writes_empty rem eof l _ _ Hall Hf Hl Ha) as (w' & q' & E & _ & HT & He).
  exists (MkSrv w' q' (sv_task s)). rw /srv_event /srv_conn. cbn [callback conn_event]. rw E. split_and!; [done|by rw app_nil_r in HT|].
  cbn. destruct eof; [|apply He]. destruct He as [[? _]|(_ & k & d & Hk & _)]; [done|]. by destruct k.
Qed.

(** More of the stream is taken when there is room in the channel. *)
Lemma piece_taken ekm ho inb us u tok t auth hd rest ra rc rem eof d s :
  known_client ekm us u tok t → encode_authenticate (user_uuid u) tok = Ok auth → (∀ data, encode_connect t data = Ok (hd ++ data)) →
  srv_inv inb us u auth (wire_target t) hd ra rc rem eof s → authenticated (app (sv_world s)) = true →
  heard_end rc = false → hear rc ++ d `prefix_of` hd ++ rest →
  (∀ r, relays (sv_world s) = [r] → (length (ch_queue (rl_rx r)) < CHANNEL_CAPACITY)%nat) →
  is_Some (srv_event ekm ho (SvConn (Reads [(CONNECT_STREAM_ID, [ReadData d false])] [])) s).
Proof.
  intros Hk Henc Hhd (taken & l & Hup & _) Ha He Hpre Hroom. destruct s as [w q task]. cbn [sv_world] in *.
  destruct (client_auth _ _ _ _ _ Hk) as (auth' & Ha' & Hl & _). rw Henc in Ha'. injection Ha' as <-. destruct Hk as [Hwf Hfit _ _ _ _ _ _].
  destruct (connect_header t Hwf Hfit) as (hd' & H2 & Hhd' & Hcut & Hall).
  assert (hd' = hd) as ->. { specialize (Hhd []). rw Hhd' !app_nil_r in Hhd. congruence. }
  destruct (srv_cleanup_ok w) as [w1 E1]. pose proof (same_cleanup w w (srv_same_refl w)) as Hc1. rw E1 in Hc1.
  apply (up_same _ _ _ _ _ _ _ _ _ _ _ Hc1) in Hup. destruct Hc1 as (Ea & _ & _ & _ & _ & _ & _ & _ & _ & Er). rw Ha in Ea.
  assert (∃ w', handle_stream_data CONNECT_STREAM_ID d false w1 = (Ok (), w')) as [w' E].
  { destruct Hup as [[(Hf & _) _]|[(_ & _ & Hi & _) [(Hw & _)|(initial & queue & Hr & Hb & _ & Hs)]]]; [congruence| |].
    - destruct (connect_piece inb auth (wire_target t) hd rest Hl Hcut Hall ltac:(lia) (hear rc) d false w1 Ea Hi Hw Hpre ltac:(done))
        as (w' & E & _). by exists w'.
    - rw Er in Hr. specialize (Hroom _ Hr). cbn in Hroom. rw -Er in Hr. rw He in Hs.
      destruct (relaying_step CONNECT_STREAM_ID (up_session inb (wire_target t)) [] [] (initial ++ concat queue) (length queue) w1 d)
        as (w' & E & _); [|done|by exists w']. split_and!; [done..|]. by exists initial, queue. }
  rw /srv_event /srv_conn. cbn [callback forallb fst sv_world sv_quic sv_task]. cbn [andb orb Z.eqb]. cbn [conn_event].
  rw /process_reads (SE_bind_ok _ _ _ () (w, q)); [by rw /on_world check_open|].
  rw (SE_bind_ok _ _ _ () (w1, q)); [by rw /on_world E1|]. rw (SE_bind_ok _ _ _ () (w', q)); [|by eexists].
  rw /on_world. cbn [for_each read_stream]. change (is_unidirectional CONNECT_STREAM_ID) with false. cbv iota.
  by rw /mbind /SE_bind E.
Qed.

Lemma end_taken eof fin l : end_waits eof fin l → fin = true → eof = true ∧ l = [].
Proof. destruct eof; intros H' ->; [destruct H' as [[_ ->]|[? _]]; done|by destruct H']. Qed.

(** The invariant, for a stream that is delivered. *)
Lemma served_stream ekm ho inb us u tok t auth data stream n1 n2 cl tk q evs s :
  (∀ m, ho m ≡ₚ map_to_list m) → known_client ekm us u tok t →
  encode_authenticate (user_uuid u) tok = Ok auth → encode_connect t data = Ok stream →
  accepted q CONNECT_STREAM_ID = [] → finished q CONNECT_STREAM_ID = false →
  delivers auth true (srv_reads AUTH_STREAM_ID evs) → delivers stream true (srv_reads CONNECT_STREAM_ID evs) →
  srv_run ekm ho evs (srv_new inb us n1 n2 cl tk q) = Some s →
  ∃ hd, (∀ d, encode_connect t d = Ok (hd ++ d)) ∧ stream = hd ++ data ∧
    srv_inv inb us u auth (wire_target t) hd (srv_reads AUTH_STREAM_ID evs) (srv_reads CONNECT_STREAM_ID evs)
      (srv_remote evs) (srv_eof evs) s.
Proof.
  intros Hho Hk Ha Hst Hacc Hfin (Hoa & Hpa & _) (Hoc & Hpc & Hec) Hrun.
  destruct (connect_header t (kc_target _ _ _ _ _ Hk) (kc_fits _ _ _ _ _ Hk)) as (hd & _ & Hhd & _).
  rw Hhd in Hst. injection Hst as <-. exists hd. split_and!; [done..|].
  apply (served_inv ekm ho inb us u tok t auth hd data n1 n2 cl tk q); [done|done|done|done|done|done| |done].
  split_and!; [done..|]. intros He. destruct (Hec He) as [_ E]. rw E length_app. lia.
Qed.


(** What is given to a relay once everything was received. *)
Lemma all_received inb us u auth t hd rest ra rc rem eof s :
  (0 < length hd)%nat → srv_inv inb us u auth t hd ra rc rem eof s → (AUTHENTICATE_LEN ≤ length (hear ra))%nat → hear rc = hd ++ rest →
  ∃ r, relays (sv_world s) = [r] ∧ from_option rt_written (rl_initial r) (sv_task s) ++ concat (ch_queue (rl_rx r)) = rest.
Proof.
  intros Hhd (taken & l & Hup & _ & _ & Ht) Hla Hrc.
  destruct Hup as [[(_ & _ & ? & _) _]|[_ [((Hlen & _) & _)|(initial & queue & Hr & Hb & Hini & _)]]]; [lia| |].
  { rw Hrc length_app in Hlen. lia. }
  eexists. split; [exact Hr|]. cbn. rw Hrc in Hb. apply app_inv_head in Hb. rw -Hb.
  destruct (sv_task s) as [task|], taken as [[i x]|]; try done. cbn. destruct Ht as (-> & _).
  specialize (Hini ltac:(by eexists)). injection Hini as ->. by rw -app_assoc.
Qed.

Lemma relays_known inb us u auth t hd ra rc rem eof s r :
  srv_inv inb us u auth t hd ra rc rem eof s → r ∈ relays (sv_world s) →
  relays (sv_world s) = [r] ∧ rl_session r = MkSession inb Connect t ∧ app_username (app (sv_world s)) = Some (user_name u).
Proof.
  intros (taken & l & Hup & _) [i Hr]%list_elem_of_lookup.
  destruct (relays (sv_world s)) as [|r0 rs] eqn:E; [done|].
  destruct (up_relay inb us u auth t hd ra rc taken (sv_world s) r0 Hup ltac:(by rw E)) as ((_ & Hn & _) & Hse & _ & _ & _ & _ & Hrl).
  rw E in Hrl. injection Hrl as ->. destruct i; [|done]. by injection Hr as <-.
Qed.

(** A new connection takes the whole authentication at once. *)
Lemma auth_taken ekm ho inb us u tok t auth n1 n2 cl tk q :
  (∀ m, ho m ≡ₚ map_to_list m) → known_client ekm us u tok t → encode_authenticate (user_uuid u) tok = Ok auth →
  (∀ n, cl n < n1 + AUTHENTICATION_TIMEOUT) →
  is_Some (srv_event ekm ho (SvConn (Reads [(AUTH_STREAM_ID, [ReadData auth true])] [])) (srv_new inb us n1 n2 cl tk q)).
Proof.
  intros Hho Hk Ha Hcl. destruct (client_auth _ _ _ _ _ Hk) as (auth' & Ha' & Hl & Hc & Hp & _). rw Ha in Ha'. injection Ha' as <-.
  assert (Hf0 : fresh inb us (MkWorld (app_new inb us n1 n2) [] [] cl tk)) by by split.
  destruct (fresh_check inb us _ Hf0) as (w1 & E1 & Hf1 & _). destruct (fresh_cleanup inb us _ Hf1) as (w2 & E2 & Hf2).
  destruct (fresh_authenticates ekm ho inb us Hho w2 u (user_uuid u) tok auth Hf2 Hl Hc Hp (kc_user _ _ _ _ _ Hk) (kc_token _ _ _ _ _ Hk))
    as (w3 & E3 & _).
  rw /srv_event /srv_conn /srv_new. cbn [callback forallb fst sv_world sv_quic sv_task]. cbn [andb orb Z.eqb]. cbn [conn_event].
  rw /process_reads (SE_bind_ok _ _ _ () (w1, q)); [by rw /on_world E1|].
  rw (SE_bind_ok _ _ _ () (w2, q)); [by rw /on_world E2|]. rw (SE_bind_ok _ _ _ () (w3, q)); [|by eexists].
  rw /on_world. cbn [for_each read_stream]. change (is_unidirectional AUTH_STREAM_ID) with true. cbv iota.
  by rw /mbind /SE_bind E3.
Qed.

End claims.

(** ** An example *)
#[local] Existing Instance open_conn.
#[local] Existing Instance open_laws.
#[local] Program Instance open_ends : QuicEnds OpenConn := {| finished := oc_ended |}.
Next Obligation. intros id data fin q k q'. simpl. intros [= <- <-]. simpl. by rw Z.eqb_refl Nat.eqb_refl andb_true_r. Qed.
Next Obligation. done. Qed.
Next Obligation. done. Qed.
Next Obligation. intros id data fin q r q' j. simpl. intros [= <- <-] Hj. simpl. by destruct (Z.eqb_spec j id). Qed.
Next Obligation. intros data q r q' j. simpl. case_match; by intros [= <- <-]. Qed.

Definition demo_token : bytes := take 32 (demo_uuid ++ str "secret" ++ replicate 32 0).
Lemma demo_known : known_client demo_ekm [demo_user] demo_user demo_token demo_target.
Proof. split; by_decide || reflexivity. Qed.
Lemma open_takes_all : takes_all (Q:=OpenConn).
Proof. intros d f q. by eexists. Qed.

Definition demo_auth : bytes := match encode_authenticate demo_uuid demo_token with Ok a => a | Err _ => [] end.
Definition demo_connect : bytes := match encode_connect demo_target [1; 2; 3; 4] with Ok l => l | Err _ => [] end.
(** The beginning of the header arrives before the authentication, the end of
    the stream after the relay has started. *)
Definition demo_srv_events (auth stream : bytes) : list SrvEvent :=
  [SvConn Established; SvConn (Reads [(CONNECT_STREAM_ID, [ReadData (take 5 stream) false])] [[VERSION; CMD_HEARTBEAT]]);
   SvConn (Reads [(AUTH_STREAM_ID, [ReadData auth true]);
                  (CONNECT_STREAM_ID, [ReadData (drop 5 (take (length stream - 2) stream)) false])] []);
   SvStart; SvRemote [9]; SvConn (Waited true); SvConn Writes;
   SvConn (Reads [(CONNECT_STREAM_ID, [ReadData (drop (length stream - 2) stream) true])] []);
   SvClient; SvRemote [8]; SvClient; SvRemote []; SvConn Writes].
Definition demo_srv_new : Srv OpenConn := srv_new (str "in") [demo_user] 0 0 (λ _, 5) 0 empty_conn.
Definition demo_srv (auth stream : bytes) : Srv OpenConn :=
  match srv_run demo_ekm map_to_list (demo_srv_events auth stream) demo_srv_new with Some s => s | None => demo_srv_new end.

Definition demo_task : RelayTask :=
  MkRelayTask [1; 2; 3; 4] true [WData 0 [9] false; WData 0 [8] false; WData 0 [] true] true true.
Lemma demo_srv_task : sv_task (demo_srv demo_auth demo_connect) = Some demo_task.
Proof. vm_compute. reflexivity. Qed.


Lemma demo_client_task :
  sv_task (demo_srv (accepted demo_client.2 AUTH_STREAM_ID) (accepted demo_client.2 CONNECT_STREAM_ID)) = Some demo_task.
Proof. vm_compute. reflexivity. Qed.

