(* ===== verification/TuicReply.v ===== *)
(** * TUIC replies from end to end

    The way back of a UDP association: what the task of the server received
    leaves the server's connection as one datagram or as fragments, and the
    client of src/protocol/tuic/outbound.rs hands it to its session. *)
From S2P Require Import Prelude Text Net Config TuicCodec TuicFragment TuicLayout TuicInbound TuicStreams TuicRelay TuicOutbound TuicClient TuicEndToEnd.

Section server.
Context `{!TuicCore, !TuicCoreLaws} {Q : Type} `{!QuicConn Q} (max : nat) `{!SteadyDatagrams Q max}.
Implicit Types (w : World) (q : Q).

(** Same queue, whatever the times of the sessions. *)
Lemma touch_ok assoc w : ∃ w1, touch_assoc assoc w = (Ok (), w1) ∧ pending_writes (app w1) = pending_writes (app w).
Proof.
  destruct assoc as [a|]; [|by exists w]. rw /touch_assoc /touch_udp_session /mbind /SE_bind /self /gets.
  destruct (udp_sessions (app w) !! a); by eexists.
Qed.
Lemma cleanup_ok w : ∃ w1, maybe_cleanup_udp_state w = (Ok (), w1) ∧
  pending_writes (app w1) = pending_writes (app w) ∧ outbound_rx (app w1) = outbound_rx (app w).
Proof.
  rw /maybe_cleanup_udp_state /mbind /SE_bind /now /self /gets /=. case_match; by eexists.
Qed.

Definition set_queue (l : list QuicWrite) (w : World) : World :=
  MkWorld (set_pending_writes l (app w)) (relays w) (udp_tasks w) (clock w) (ticks w).

Lemma loop_pops fuel x l w q :
  pending_writes (app w) = x :: l →
  write_loop (S fuel) (w, q) = (go ← write_one x; if (go : bool) then write_loop fuel else mret ()) (set_queue l w, q).
Proof.
  intros Hp. cbn [write_loop]. by rw (SE_bind_ok _ _ _ (x :: l) (w, q)); [rw /on_world /self /gets Hp|].
Qed.

Lemma write_datagram fuel assoc d l w q :
  pending_writes (app w) = WDatagram assoc d :: l → (length d ≤ max)%nat →
  ∃ w1 q1, write_loop (S fuel) (w, q) = write_loop fuel (w1, q1) ∧
    pending_writes (app w1) = l ∧ sent_dgrams q1 = sent_dgrams q ++ [d].
Proof.
  intros Hp Hd. destruct (steady_send d q Hd) as (q1 & E1 & S1).
  destruct (touch_ok assoc (set_queue l w)) as (w1 & Et & Hw1). exists w1, q1. split; [|done].
  rw (loop_pops fuel (WDatagram assoc d) l w q Hp) (SE_bind_ok _ _ _ true (w1, q1)); [|done].
  rw /write_one (SE_bind_ok _ _ _ () (w1, q)); [by rw /on_world Et|]. by rw (SE_bind_ok _ _ _ (Sent ()) (w1, q1)); [rw /on_conn E1|].
Qed.

(** Datagrams that fit leave in order. *)
Lemma write_datagrams assoc ds fuel w q :
  pending_writes (app w) = WDatagram assoc <$> ds → Forall (λ d, (length d ≤ max)%nat) ds → (length ds < fuel)%nat →
  ∃ w' q', write_loop fuel (w, q) = (Ok (), (w', q')) ∧ sent_dgrams q' = sent_dgrams q ++ ds.
Proof.
  revert fuel w q. induction ds as [|d ds IH]; intros fuel w q Hp Hd Hf; (destruct fuel as [|fuel]; [simpl in Hf; lia|]).
  { exists w, q. rw app_nil_r. split; [|done]. cbn [write_loop]. by rw (SE_bind_ok _ _ _ [] (w, q)); [rw /on_world /self /gets Hp|]. }
  apply Forall_cons in Hd as [Hd Hds]. destruct (write_datagram fuel assoc d _ w q Hp Hd) as (w1 & q1 & -> & Hp1 & S1).
  destruct (IH fuel w1 q1 Hp1 Hds) as (w' & q' & E & S); [simpl in Hf; lia|]. exists w', q'. by rw E S S1 -app_assoc.
Qed.

Lemma requeue_run assoc d p ps ds w :
  parse_packet d = Ok p → fragment_packet p max = Ok ps → Forall2 (λ f e, encode_packet f = Ok e) ps ds →
  ∃ w', requeue_fragments assoc d max w = (Ok (), w') ∧
    pending_writes (app w') = (WDatagram assoc <$> ds) ++ pending_writes (app w).
Proof.
  intros Hp Hf Hds. rw /requeue_fragments Hp /= Hf. clear Hp Hf.
  assert (Hgen : ∀ ps ds, Forall2 (λ f e, encode_packet f = Ok e) ps ds → ∀ w, ∃ w',
    for_each (λ fragment, encoded ← lift (encode_packet fragment); push_front (WDatagram assoc encoded)) ps w = (Ok (), w') ∧
    pending_writes (app w') = (WDatagram assoc <$> reverse ds) ++ pending_writes (app w)).
  { clear. induction 1 as [|f e ps ds He _ IH]; intros w; [by exists w|]. cbn [for_each].
    rw (SE_bind_ok _ _ w () (set_queue (WDatagram assoc e :: pending_writes (app w)) w)); [by rw /mbind /SE_bind /lift He|].
    destruct (IH (set_queue (WDatagram assoc e :: pending_writes (app w)) w)) as (w' & E & Hw'). exists w'. split; [done|].
    rw Hw' reverse_cons fmap_app -app_assoc. done. }
  destruct (Hgen (reverse ps) (reverse ds)) with (w := w) as (w' & E & Hw').
  { by apply Forall2_reverse. }
  exists w'. by rw Hw' reverse_involutive.
Qed.

(** What the client can read a fragment from. *)
Definition carries (f : Packet) (d : bytes) : Prop :=
  parse_packet d = Ok f ∧ ∃ rest, d = VERSION :: CMD_PACKET :: rest.

Lemma encoded_carries p d : valid_packet p → encode_packet p = Ok d → carries (wire_packet p) d.
Proof.
  intros Hv He. split; [by apply parse_encoded|]. rw encode_packet_ok // in He.
  apply Result_bind_inv in He as (hd & Hm & [= <-]). destruct (marshal_prefix _ _ Hm) as [rest ->]. by eexists.
Qed.
Lemma wire_packet_idem p : wire_packet (wire_packet p) = wire_packet p.
Proof. destruct p as [a i t f [[[]|]|] pl]; done. Qed.

(** A reply leaves as datagrams that carry the fragments of what the wire keeps
    of it. *)
Lemma reply_leaves assoc p d ps w q :
  valid_packet p → encode_packet p = Ok d → fragment_packet p max = Ok ps →
  authenticated (app w) = true → pending_writes (app w) = [] → outbound_rx (app w) = [WDatagram assoc d] →
  ∃ w' q' ds, process_writes (w, q) = (Ok (), (w', q')) ∧ sent_dgrams q' = sent_dgrams q ++ ds ∧
    Forall2 carries (wire_packet <$> ps) ds.
Proof.
  intros Hv He Hf Ha Hp Hrx. destruct (cleanup_ok w) as (w1 & Ec & Hp1 & Hrx1). rw Hp in Hp1. rw Hrx in Hrx1.
  assert (E0 : process_writes (w, q) = write_loop 257
    (MkWorld (set_outbound_rx [] (set_pending_writes [WDatagram assoc d] (app w1))) (relays w1) (udp_tasks w1) (clock w1) (ticks w1), q)).
  { rw /process_writes. rw (SE_bind_ok _ _ _ () (w, q)); [by rw /on_world /check_authentication_deadline /mbind /SE_bind /self /gets Ha|].
    rw (SE_bind_ok _ _ _ () (w1, q)); [by rw /on_world Ec|]. rw /mbind /SE_bind /on_world /with_app /modify /self /gets Hp1 Hrx1. done. }
  rw E0. clear E0. set (w2 := MkWorld _ _ _ _ _).
  destruct (decide (length d ≤ max)%nat) as [Hle|Hgt].
  - assert (ps = [p]) as ->. { rw /fragment_packet He /= decide_True // in Hf. by injection Hf. }
    destruct (write_datagrams assoc [d] 257 w2 q eq_refl) as (w' & q' & E & S); [by constructor|simpl; lia|].
    exists w', q', [d]. split_and!; [done..|]. constructor; [by apply encoded_carries|constructor].
  - destruct (steady_refuse d q) as (q1 & E1 & S1); [lia|].
    destruct (touch_ok assoc (set_queue [] w2)) as (w3 & Et & Hw3).
    pose proof (valid_wire_packet p Hv) as Hvw. pose proof (fragment_wire max p ps Hv Hf) as Hfw.
    destruct (fragment_packet_fits _ max Hvw) as [Hfit _]. destruct (Hfit _ Hfw) as (Hall & _ & Hn).
    assert (∃ ds, Forall2 (λ f e, valid_packet f ∧ encode_packet f = Ok e ∧ (length e ≤ max)%nat) (wire_packet <$> ps) ds) as [ds Hds].
    { clear -Hall. induction Hall as [|f l (Hvf & enc & Hef & Hl) _ [ds IH]]; [by exists []|]. exists (enc :: ds). by constructor. }
    destruct (requeue_run assoc d (wire_packet p) (wire_packet <$> ps) ds w3) as (w4 & Er & Hw4);
      [by apply parse_encoded|done|eapply Forall2_impl; [exact Hds|]; by intros ? ? (_ & ? & _)|].
    rw (loop_pops 256 (WDatagram assoc d) [] w2 q eq_refl) (SE_bind_ok _ _ _ true (w4, q1)).
    { rw /write_one (SE_bind_ok _ _ _ () (w3, q)); [by rw /on_world Et|].
      rw (SE_bind_ok _ _ _ BufferTooShort (w3, q1)); [by rw /on_conn E1|]. rw (SE_bind_ok _ _ _ q1 (w3, q1)); [done|].
      rw steady_max /=. by rw (SE_bind_ok _ _ _ () (w4, q1)); [rw /on_world Er|]. }
    destruct (write_datagrams assoc ds 256 w4 q1) as (w' & q' & E & S).
    { rw Hw4 Hw3. by rw app_nil_r. }
    { clear -Hds. induction Hds as [|f e l ds (_ & _ & He) _ IH]; by constructor. }
    { rw -(Forall2_length _ _ _ Hds). lia. }
    exists w', q', ds. split; [done|]. split; [by rw S S1|].
    apply Forall2_fmap_l. apply Forall2_fmap_l in Hds. eapply Forall2_impl; [exact Hds|]. intros f e (Hvf & Hef & _).
    rw /compose -(wire_packet_idem f). by apply encoded_carries.
Qed.
End server.

Section client.
Context `{!TuicCore, !TuicCoreLaws}.
Implicit Types (a : TuicUdpOutboundApp).

Definition read_at : Z * bytes → SE TuicUdpOutboundApp () := λ '(now, d), udp_read_datagram now d.

Lemma carried_handled f d now a : carries f d → udp_read_datagram now d a = udp_handle_packet now d a.
Proof.
  intros [_ [rest ->]]. rw /udp_read_datagram.
  assert ((2 <=? len (VERSION :: CMD_PACKET :: rest)) = true) as ->. { apply Z.leb_le. rw !len_cons. pose proof (len_nonneg rest). lia. }
  change ((VERSION :: CMD_PACKET :: rest) !!! 0%nat) with VERSION. change ((VERSION :: CMD_PACKET :: rest) !!! 1%nat) with CMD_PACKET.
  by rw !Z.eqb_refl.
Qed.

(** The datagrams of one packet: nothing until the last, then the response. *)
Lemma client_reassembles fs ds times a n p t :
  Forall2 carries fs ds → length times = length ds →
  (push_run (zip fs times) (ua_assembler a)).1.*2 = replicate n (Ok None) ++ [Ok (Some p)] →
  target p = Some t → ch_dropped (ua_responses a) = false → (length (ch_queue (ua_responses a)) < ch_cap (ua_responses a))%nat →
  ∃ a', for_each read_at (zip times ds) a = (Ok (), a') ∧
    ch_queue (ua_responses a') = ch_queue (ua_responses a) ++ [(t, payload p)].
Proof.
  intros Hfs. revert times a n. induction Hfs as [|f d fs ds Hfd Hds IH]; intros [|now times] a n Hlen Hrun Ht Hd Hcap; try done.
  { by destruct n. }
  cbn [zip zip_with push_run] in Hrun. destruct (push f now (ua_assembler a)) as [r asm] eqn:Hpush.
  change (zip_with pair fs times) with (zip fs times) in Hrun.
  destruct (push_run (zip fs times) asm) as [rs asm'] eqn:Hrest. cbn [zip zip_with for_each].
  change (zip_with pair times ds) with (zip times ds).
  assert (Hread : read_at (now, d) a = udp_handle_packet now d a) by by apply (carried_handled f).
  destruct n as [|n]; injection Hrun as -> Hrun.
  - apply fmap_nil_inv in Hrun as ->. assert (Hz : zip fs times = []).
    { apply (f_equal fst) in Hrest. destruct (zip fs times) as [|[g y] l]; [done|]. cbn [push_run] in Hrest.
      destruct (push g y asm) as [r2 asm2]. by destruct (push_run l asm2). }
    set (a1 := set_ua_responses (MkChan (ch_queue (ua_responses a) ++ [(t, payload p)]) (ch_cap (ua_responses a)) false) (set_ua_assembler asm a)).
    exists a1. rw (SE_bind_ok _ _ _ () a1).
    { rw Hread /udp_handle_packet /mbind /SE_bind /lift (proj1 Hfd) /gets Hpush /= Ht. rw /try_send Hd (proj2 (Nat.leb_gt _ _) Hcap) /=. done. }
    split; [|done]. destruct times as [|y times]; [done|]. destruct fs; [by apply Forall2_nil_inv_l in Hds as ->|done].
  - destruct (IH times (set_ua_assembler asm a) n) as (a' & E & Ha'); [by injection Hlen|by rw /= Hrest|done..|].
    exists a'. split; [|done]. rw (SE_bind_ok _ _ _ () (set_ua_assembler asm a)); [|done].
    by rw Hread /udp_handle_packet /mbind /SE_bind /lift (proj1 Hfd) /gets Hpush.
Qed.
End client.

Section reply.
Context `{!TuicCore, !TuicCoreLaws} {Q : Type} `{!QuicConn Q} (max : nat) `{!SteadyDatagrams Q max}.

(** C13: A reply through TUIC from end to end. What the task of a UDP association
    receives from a source is queued as one packet under the next packet id,
    leaves the server's connection as one datagram or, when that is too large,
    as fragments; when the client reads those datagrams in any order within
    thirty seconds, its session is handed exactly that payload from that
    source. *)
Theorem tuic_udp_reply source payload assoc pkt w (q : Q) a t0 :
  wf_target source → fits_wire source = true → wf_bytes payload → len payload ≤ U16_MAX → is_u16 assoc → is_u16 pkt →
  (packet_header_len (target_address source) < max)%nat →
  len payload ≤ 255 * Z.of_nat (max - packet_header_len (target_address source)) →
  authenticated (app w) = true → pending_writes (app w) = [] →
  ua_assembler a = ∅ → ch_dropped (ua_responses a) = false → (length (ch_queue (ua_responses a)) < ch_cap (ua_responses a))%nat →
  ∃ x, udp_session_step assoc Native pkt (UdpReceived (Ok (source, payload)) true) = UdpContinue (wrapping_add_u16 pkt 1) [x] ∧
  ∃ w' q' ds, process_writes (MkWorld (set_outbound_rx [x] (app w)) (relays w) (udp_tasks w) (clock w) (ticks w), q) = (Ok (), (w', q')) ∧
    sent_dgrams q' = sent_dgrams q ++ ds ∧
  ∀ ds' times, ds ≡ₚ ds' → length times = length ds' → Forall (λ now, t0 ≤ now < t0 + FRAGMENT_IDLE_TIMEOUT) times →
  ∃ a', udp_process_reads (zip times ds') [] a = (Ok (), a') ∧
    ch_queue (ua_responses a') = ch_queue (ua_responses a) ++ [(wire_target source, payload)].
Proof.
  intros Hwf Hfit Hwp Hlp Has Hid Hhd Hroom Ha Hp Hasm Hd Hcap. set (p := MkPacket assoc pkt 1 0 (Some source) payload).
  assert (Hv : valid_packet p) by (split; simpl; [done|done|lia|lia|done|done|by intros t [= <-]]).
  pose proof (encode_packet_total p Hv) as Hok. destruct (encode_packet p) as [d|] eqn:He; [|done].
  destruct (fragment_packet_fits p max Hv) as [_ Hfok]. specialize (Hfok eq_refl eq_refl Hhd Hroom).
  destruct (fragment_packet p max) as [ps|] eqn:Hf; [|done].
  exists (WDatagram (Some assoc) d). split; [by rw /udp_session_step -/p He|].
  set (w1 := MkWorld _ _ _ _ _). destruct (reply_leaves max (Some assoc) p d ps w1 q Hv He Hf Ha Hp eq_refl) as (w' & q' & ds & E & S & Hds).
  exists w', q', ds. split_and!; [done..|]. intros ds' times Hperm Hlen Htimes.
  destruct (perm_Forall2 _ _ ds ds' Hperm Hds) as (fs & Hfs & Hfds).
  assert (Hlf : length fs = length times) by by rw (Forall2_length _ _ _ Hfds).
  assert (Hz : (zip fs times).*1 = fs) by (apply fst_zip; lia).
  assert (Hkeys : Forall (λ f, key_of f = key_of (wire_packet p)) (zip fs times).*1).
  { rw Hz Hfs Forall_fmap. exact (fragment_keys max p ps Hv Hf). }
  destruct (fragments_reassemble (wire_packet p) max (wire_packet <$> ps) (wire_target source) t0 ∅ (zip fs times)) as [Hrun _];
    [by apply valid_wire_packet|done..|by apply fragment_wire|done| |by rw of_key_all // Hz Hfs|].
  { apply Forall_forall. intros [f y] Hin. apply elem_of_zip_r in Hin. rw Forall_forall in Htimes. by apply Htimes. }
  rw of_key_all in Hrun; [by rw push_run_fst|]. rw -Hasm in Hrun.
  destruct (client_reassembles fs ds' times a _ (wire_packet p) (wire_target source) Hfds Hlen Hrun eq_refl Hd Hcap) as (a' & Ea & Hq).
  exists a'. split; [|done]. rw /udp_process_reads. by rw (SE_bind_ok _ _ _ () a').
Qed.
End reply.

#[local] Existing Instance open_conn.
#[local] Existing Instance open_laws.
#[local] Existing Instance open_steady.

(** Sixty bytes over datagrams of at most forty: two fragments. *)
Lemma tuic_udp_reply_witness :
  ∃ x, udp_session_step 1 Native 65535 (UdpReceived (Ok (demo_target, demo_payload)) true) = UdpContinue 0 [x] ∧
  ∃ w' q' ds, process_writes (MkWorld (set_outbound_rx [x] (app demo_tuic_server)) [] [] (λ _, 5) 0, empty_conn) = (Ok (), (w', q')) ∧
    sent_dgrams q' = sent_dgrams empty_conn ++ ds ∧
  ∀ ds' times, ds ≡ₚ ds' → length times = length ds' → Forall (λ now, 0 ≤ now < 0 + FRAGMENT_IDLE_TIMEOUT) times →
  ∃ a', udp_process_reads (zip times ds') [] (udp_app_new demo_uuid (str "secret") 0) = (Ok (), a') ∧
    ch_queue (ua_responses a') = [] ++ [(demo_target, demo_payload)].
Proof.
  apply (tuic_udp_reply 40 demo_target demo_payload 1 65535 demo_tuic_server empty_conn (udp_app_new demo_uuid (str "secret") 0) 0);
    by_decide || reflexivity.
Defined.
