(* ===== verification/TuicDownload.v ===== *)
(** * The way down of a TUIC stream (src/protocol/tuic/outbound.rs)

    The task of [dial] that writes to the application what the connection
    received, next to every event of the connection: what the application is
    given, and the whole way from the connection the server dialed. *)
From S2P Require Import Prelude Io Text Net Config TuicCodec TuicFragment TuicLayout TuicInbound TuicStreams TuicRelay TuicOutbound TuicClient TuicEndToEnd TuicServer.

(** ** The task *)

(** The application over QUIC with its connection, whether it is still driven,
    the application's end of the stream, and how the loop of the task ended. *)
Record Download (Q : Type) := MkDownload {
  dl_app : TuicClientApp * Q;
  dl_open : bool;
  dl_io : Stream;
  dl_task : option (Result ());
}.
Arguments MkDownload {Q} _ _ _ _.
Arguments dl_app {Q} _.
Arguments dl_open {Q} _.
Arguments dl_io {Q} _.
Arguments dl_task {Q} _.

(** What happens: an event of the connection, where [CETake] is a turn of the
    task; or the connection ends, and with it the application over QUIC. *)
Inductive DownEvent := DownConn (ev : TuicClientEvent) | DownEnds.

Section download.
Context `{!TuicCore} {Q : Type} `{!QuicConn Q}.

(** The loop is left: [app_writer.shutdown()], and the receiver is dropped. *)
Definition app_writer_ends (r : Result ()) (s : TuicClientApp) (q : Q) (open : bool) (io : Stream) : Download Q :=
  MkDownload (set_ca_stream (MkChan [] (ch_cap (ca_stream s)) true) s, q) open io (Some r).

(** A turn of [while let Some(data) = stream_rx.recv().await]: [recv] gives the
    next chunk, waits while there is a sender, and else ends the loop. *)
Definition app_writer_turn (d : Download Q) : Download Q :=
  let '(s, q) := dl_app d in
  match dl_task d with
  | Some _ => d
  | None =>
      match ch_queue (ca_stream s) with
      | data :: _ =>
          let s := set_ca_stream (chan_recv (ca_stream s)) s in
          let '(r, io) := write_all data (dl_io d) in
          match r with
          | Ok _ => MkDownload (s, q) (dl_open d) io None
          | Err e => app_writer_ends (Err e) s q (dl_open d) io
          end
      | [] => if ca_stream_tx s then d else app_writer_ends (Ok ()) s q (dl_open d) (dl_io d)
      end
  end.

(** An application that is dropped takes its sender with it. *)
Definition client_dropped (sq : TuicClientApp * Q) : TuicClientApp * Q := (set_ca_stream_tx false sq.1, sq.2).

Definition down_event (ev : DownEvent) (d : Download Q) : Download Q :=
  match ev with
  | DownConn CETake => app_writer_turn d
  | DownConn ev =>
      if dl_open d then
        match client_event ev (dl_app d) with
        | (Ok _, sq) => MkDownload sq true (dl_io d) (dl_task d)
        | (Err _, sq) => MkDownload (client_dropped sq) false (dl_io d) (dl_task d)
        end
      else d
  | DownEnds => MkDownload (client_dropped (dl_app d)) false (dl_io d) (dl_task d)
  end.
Definition down_run (evs : list DownEvent) (d : Download Q) : Download Q := foldl (λ d ev, down_event ev d) d evs.
End download.

(** ** What was received *)

Definition stream_reads (readable : list (Z * list StreamRead)) : list StreamRead :=
  concat ((λ x, if x.1 =? CONNECT_STREAM_ID then x.2 else []) <$> readable).
Definition down_reads (evs : list DownEvent) : list StreamRead :=
  concat ((λ ev, match ev with DownConn (CEReads readable) => stream_reads readable | _ => [] end) <$> evs).

Lemma heard_prefix rs k : hear rs `prefix_of` hear (rs ++ k).
Proof.
  induction rs as [|[data fin|e] rs IH]; simpl; [apply prefix_nil| |done]. apply prefix_app. by destruct fin.
Qed.
Fixpoint clean (rs : list StreamRead) : bool :=
  match rs with
  | [] => true
  | ReadData _ fin :: rs => fin || clean rs
  | ReadError _ :: _ => false
  end.
Lemma hear_app rs k : clean rs = true →
  hear (rs ++ k) = hear rs ++ (if heard_end rs then [] else hear k) ∧
  heard_end (rs ++ k) = heard_end rs || heard_end k ∧ clean (rs ++ k) = heard_end rs || clean k.
Proof.
  induction rs as [|[data [|]|e] rs IH]; simpl; [done| |intros Hc; destruct (IH Hc) as (-> & -> & ->); by rw app_assoc|done].
  by rw !app_nil_r.
Qed.

(** ** What the application is given *)
Section invariant.
Context `{!TuicCore} {Q : Type} `{!QuicConn Q}.

(** While the connection is driven and the task has not failed, what the task
    has written and the channel holds is what was heard, and the sender is held
    until the end was. *)
Definition carrying (given : bytes) (rs : list StreamRead) (s : TuicClientApp) : Prop :=
  given ++ concat (ch_queue (ca_stream s)) = hear rs ∧ ca_stream_tx s = negb (heard_end rs) ∧ clean rs = true.
Definition carrying_part (given : bytes) (rs : list StreamRead) (s : TuicClientApp) : Prop :=
  given ++ concat (ch_queue (ca_stream s)) `prefix_of` hear rs.

Lemma carrying_weaken given rs k s : carrying given rs s → carrying_part given (rs ++ k) s.
Proof. intros (Hg & _). rw /carrying_part Hg. apply heard_prefix. Qed.

Lemma try_send_carries given rs data s :
  match ca_try_send data s with
  | (Ok _, s') => carrying given rs s →
      given ++ concat (ch_queue (ca_stream s')) = hear rs ++ (if heard_end rs then [] else data) ∧ ca_stream_tx s' = ca_stream_tx s
  | (Err _, s') => s' = s
  end.
Proof.
  rw /ca_try_send /mbind /SE_bind /gets /=. destruct (ca_stream_tx s) eqn:Ht.
  - rw /try_send. destruct (_ || _); [done|]. intros (Hg & Hx & _). simpl. rw Ht in Hx.
    destruct (heard_end rs); [done|]. by rw concat_app app_assoc Hg /= app_nil_r.
  - intros (Hg & Hx & _). rw Ht in Hx. destruct (heard_end rs); [|done]. by rw app_nil_r.
Qed.

Lemma read_stream_carries given rs k :
  triple (carrying given rs) (client_read_stream CONNECT_STREAM_ID k) (λ _, carrying given (rs ++ k)) (carrying_part given (rs ++ k)).
Proof.
  revert rs. induction k as [|[data fin|e] k IH]; intros rs s Hs; cbn [client_read_stream].
  - by rw app_nil_r.
  - assert (∃ r s1, when ((CONNECT_STREAM_ID =? CONNECT_STREAM_ID) && negb (bool_decide (data = []))) (ca_try_send data) s = (r, s1) ∧
      match r with Ok _ => carrying given (rs ++ [ReadData data false]) s1 | Err _ => s1 = s end) as (r & s1 & E & Hs1).
    { rw Z.eqb_refl. pose proof Hs as (Hg & Hx & Hc). destruct (hear_app rs [ReadData data false] Hc) as (Eh & Ee & Ec). case_bool_decide as Hd.
      - eexists _, _. split; [reflexivity|]. rw /carrying Eh Ee Ec. subst data. simpl. rw orb_false_r orb_true_r.
        split_and!; [by destruct (heard_end rs); rw app_nil_r|done..].
      - pose proof (try_send_carries given rs data s) as Ht. destruct (ca_try_send data s) as [r s1] eqn:E. eexists _, _. split; [exact E|].
        destruct r; [|done]. destruct (Ht Hs) as [Ht1 Ht2]. rw /carrying Eh Ee Ec. simpl. rw orb_false_r orb_true_r Ht2 app_nil_r. done. }
    rw {1}/mbind {1}/SE_bind E. destruct r as [[]|e]; [|subst s1; by apply carrying_weaken]. destruct fin.
    + rw Z.eqb_refl /=. destruct Hs as (_ & _ & Hc), Hs1 as (Hg & _). destruct (hear_app rs [ReadData data false] Hc) as (Eh & _).
      destruct (hear_app rs (ReadData data true :: k) Hc) as (Eh' & Ee' & Ec'). rw /carrying Eh' Ee' Ec'. simpl.
      rw !orb_true_r. split_and!; [|done..]. by rw Hg Eh.
    + specialize (IH (rs ++ [ReadData data false]) s1 Hs1). by rw -app_assoc in IH.
  - by apply carrying_weaken.
Qed.

Lemma reads_carry given rs readable :
  triple (carrying given rs) (client_process_reads readable) (λ _, carrying given (rs ++ stream_reads readable))
    (carrying_part given (rs ++ stream_reads readable)).
Proof.
  rw /client_process_reads. revert rs. induction readable as [|[sid k] readable IH]; intros rs; cbn [for_each].
  - intros s Hs. by rw app_nil_r.
  - assert (stream_reads ((sid, k) :: readable) = (if sid =? CONNECT_STREAM_ID then k else []) ++ stream_reads readable) as -> by done.
    rw app_assoc. apply (triple_bind _ _ _ (λ _, carrying given (rs ++ if sid =? CONNECT_STREAM_ID then k else []))).
    + destruct (Z.eqb_spec sid CONNECT_STREAM_ID) as [->|Hne].
      * eapply triple_conseq; [|apply (read_stream_carries given rs k)|done|]; [done|]. intros s Hs.
        rw /carrying_part in Hs |- *. etrans; [exact Hs|]. apply heard_prefix.
      * rw app_nil_r. eapply keeps_weaken_err; [|intros s; by apply carrying_weaken].
        apply Z.eqb_neq in Hne. induction k as [|[data [|]|e] k IHk]; cbn [client_read_stream]; rw ?Hne; simpl;
          [apply keeps_ret|apply keeps_bind; [apply keeps_ret|intros; apply keeps_ret]|
           apply keeps_bind; [apply keeps_ret|done]|apply keeps_throw].
    + intros []. apply IH.
Qed.

(** The other events leave the channel alone. *)
Definition down_is (c : Chan bytes) (tx : bool) (sq : TuicClientApp * Q) : Prop := ca_stream sq.1 = c ∧ ca_stream_tx sq.1 = tx.
Lemma down_on_quic {B} c tx (m : Q → B * Q) : keeps (down_is c tx) (on_quic m).
Proof. intros [s q] Hd. rw /on_quic. by destruct (m q). Qed.
Lemma down_push_front c tx w : keeps (down_is c tx) (on_self (ca_push_front w) : SE (TuicClientApp * Q) ()).
Proof. by intros [s q] Hd. Qed.
Lemma down_pending c tx l : keeps (down_is c tx) (on_self (modify (set_ca_pending_writes l)) : SE (TuicClientApp * Q) ()).
Proof. by intros [s q] Hd. Qed.
Hint Resolve down_on_quic down_push_front down_pending : keeping.

Lemma down_write_loop c tx queue : keeps (down_is c tx) (client_write_loop queue).
Proof.
  induction queue as [|w rest IH]; cbn [client_write_loop]; [apply keeps_ret|].
  apply keeps_bind; [apply down_pending|]. intros []. apply keeps_bind; [rw /client_write_one; keep_walk|].
  intros []; [exact IH|apply keeps_ret].
Qed.

Lemma down_other c tx ev :
  match ev with CEReads _ | CETake => True | _ => keeps (down_is c tx) (client_event ev : SE (TuicClientApp * Q) ()) end.
Proof.
  destruct ev as [r| |now|readable| |]; [| | |done| |done]; rw /client_event.
  - by intros [s q] Hd.
  - intros [s q] Hd. rw /mbind /SE_bind /gets /=. destruct (ca_pending_writes s) eqn:Hp; [|done]. destruct (ca_outbound_rx s); [done|].
    rw /client_wait_for_data /mbind /SE_bind /gets /modify /=. by rw Hp.
  - intros [s q] Hd. rw /client_wait_for_data /mbind /SE_bind /gets /=. by case_bool_decide.
  - rw /client_process_writes. apply keeps_bind; [by intros [s q] Hd|]. intros []. apply keeps_gets_bind. intros; apply down_write_loop.
Qed.

(** Once the sender is gone and the channel empty they stay so. *)
Definition drained (s : TuicClientApp) : Prop := ch_queue (ca_stream s) = [] ∧ ca_stream_tx s = false.
Lemma reads_drained readable : keeps drained (client_process_reads readable).
Proof.
  apply keeps_for_each. intros [sid rs]. induction rs as [|[data fin|e] rs IH]; cbn [client_read_stream];
    [apply keeps_ret| |apply keeps_throw].
  apply keeps_bind.
  - apply keeps_when. rw /ca_try_send. apply keeps_gets_bind. intros s [_ ->]. apply keeps_ret.
  - intros []. destruct fin; [|done]. apply keeps_when. apply triple_modify. by intros s [Hs _].
Qed.

Definition healthy (given : bytes) (rs : list StreamRead) (open : bool) (ended : bool) (s : TuicClientApp) : Prop :=
  (if open then carrying given rs s else carrying_part given rs s ∧ ca_stream_tx s = false) ∧ (ended = true → drained s).
Definition failed (given : bytes) (rs : list StreamRead) (total : nat) : Prop :=
  given `prefix_of` hear rs ∧ (total < length (hear rs))%nat.
Definition down_inv (total : nat) (rs : list StreamRead) (d : Download Q) : Prop :=
  (length (tx (dl_io d)) + room (dl_io d) = total)%nat ∧
  match dl_task d with
  | Some (Err _) => failed (tx (dl_io d)) rs total
  | t => healthy (tx (dl_io d)) rs (dl_open d) (is_some t) (dl_app d).1
  end.

Lemma healthy_part given rs open ended s : healthy given rs open ended s → carrying_part given rs s.
Proof. intros [H1 _]. destruct open; [|apply H1]. rw -(app_nil_r rs). by apply carrying_weaken. Qed.
Lemma failed_grows given rs k total : failed given rs total → failed given (rs ++ k) total.
Proof. intros [Hp Hl]. pose proof (heard_prefix rs k) as Hm. split; [by etrans|]. apply prefix_length in Hm. lia. Qed.
Lemma part_grows given rs k s : carrying_part given rs s → carrying_part given (rs ++ k) s.
Proof. rw /carrying_part. intros Hp. etrans; [exact Hp|]. apply heard_prefix. Qed.
Lemma down_inv_part total rs d : down_inv total rs d → tx (dl_io d) `prefix_of` hear rs.
Proof.
  intros (_ & Hd). destruct (dl_task d) as [[[]|e]|]; [|apply Hd|]; apply healthy_part in Hd; rw /carrying_part in Hd; (etrans; [|exact Hd]); by apply prefix_app_r.
Qed.

Lemma turn_inv total rs d : down_inv total rs d → down_inv total rs (app_writer_turn d).
Proof.
  destruct d as [[s q] open io [r|]]; [done|]. rw /down_inv /app_writer_turn. cbn [dl_app dl_task dl_open dl_io fst is_some].
  intros [Ht Hd]. pose proof (healthy_part _ _ _ _ _ Hd) as Hp. rw /carrying_part in Hp. destruct Hd as [Hd _].
  destruct (ch_queue (ca_stream s)) as [|data queue] eqn:Hq.
  - destruct (ca_stream_tx s) eqn:Hs; [split; [done|]; split; [destruct open; [done|by destruct Hd]|done]|]. split; [done|]. split; [|by intros _].
    destruct open; [destruct Hd as (Hg & Hd)|destruct Hd as [Hg Hd]]; rw /carrying_part Hq in Hg; by split.
  - cbn [concat] in Hp. rw /write_all. case_decide as Hroom.
    + cbn. rw length_app. split; [lia|]. split; [|done].
      destruct open; [destruct Hd as (Hg & Hd)|destruct Hd as [Hg Hd]]; rw /carrying_part Hq /= app_assoc in Hg;
        (split; [|done]); by rw /carrying_part /= Hq.
    + cbn. rw length_app length_take. split; [lia|]. split.
      * etrans; [|exact Hp]. apply prefix_app. etrans; [apply prefix_take|]. by apply prefix_app_r.
      * apply prefix_length in Hp. rw !length_app in Hp. lia.
Qed.

(** The events of the connection, by their effect on the channel. *)
Definition ev_reads (ev : TuicClientEvent) : list StreamRead :=
  match ev with CEReads readable => stream_reads readable | _ => [] end.
Lemma conn_event_carries given rs ev (sq : TuicClientApp * Q) :
  ev ≠ CETake → carrying given rs sq.1 →
  match client_event ev sq with
  | (Ok _, sq') => carrying given (rs ++ ev_reads ev) sq'.1
  | (Err _, sq') => carrying_part given (rs ++ ev_reads ev) sq'.1
  end ∧ (drained sq.1 → drained (client_event ev sq).2.1).
Proof.
  intros Hne Hc. pose proof (down_other (ca_stream sq.1) (ca_stream_tx sq.1) ev) as Ho. destruct sq as [s q].
  destruct ev as [r| |now|readable| |]; [| | |clear Ho| |done]; cbn [ev_reads]; rw ?app_nil_r.
  1-3,5: specialize (Ho (s, q) (conj eq_refl eq_refl)); destruct (client_event _ _) as [[[]|e] [s' q']]; destruct Ho as [H1 H2];
    (split; [|rw /drained /= H1 H2; done]); first [by rw /carrying H1 H2|by rw /carrying_part H1; destruct Hc as (-> & _)].
  pose proof (reads_carry given rs readable s Hc) as Hr. pose proof (reads_drained readable s) as Hd.
  cbn. rw /on_self. destruct (client_process_reads readable s) as [[[]|e] s']; by split.
Qed.

Definition event_reads (ev : DownEvent) : list StreamRead := match ev with DownConn ev => ev_reads ev | DownEnds => [] end.
Lemma dropped_healthy given rs k ended s :
  carrying_part given (rs ++ k) s → (ended = true → drained s) → healthy given (rs ++ k) false ended (set_ca_stream_tx false s).
Proof. intros Hp Hd. split; [by split|]. intros He. by destruct (Hd He). Qed.

Lemma conn_event_inv total rs ev d :
  ev ≠ CETake → down_inv total rs d → down_inv total (rs ++ ev_reads ev) (down_event (DownConn ev) d).
Proof.
  intros Hne [Ht Hd]. assert (down_event (DownConn ev) d = if dl_open d then
      match client_event ev (dl_app d) with
      | (Ok _, sq) => MkDownload sq true (dl_io d) (dl_task d)
      | (Err _, sq) => MkDownload (client_dropped sq) false (dl_io d) (dl_task d)
      end else d) as -> by by destruct ev.
  destruct d as [sq open io t]. cbn [dl_app dl_task dl_open dl_io] in *.
  assert (Hh : ∀ ended, healthy (tx io) rs open ended sq.1 →
    let d := if open then match client_event ev sq with
      | (Ok _, sq) => MkDownload sq true io t | (Err _, sq) => MkDownload (client_dropped sq) false io t end
      else MkDownload sq open io t in healthy (tx io) (rs ++ ev_reads ev) (dl_open d) ended (dl_app d).1).
  { intros ended [H1 H2]. destruct open; cycle 1.
    { split; [|done]. destruct H1 as [H1 H3]. split; [by apply part_grows|done]. }
    destruct (conn_event_carries (tx io) rs ev sq Hne H1) as [Hc Hdr]. destruct (client_event ev sq) as [[[]|e] sq'].
    - split; [done|]. intros He. by apply Hdr, H2.
    - apply dropped_healthy; [done|]. intros He. by apply Hdr, H2. }
  destruct open, (client_event ev sq) as [[[]|e] sq']; (split; [exact Ht|]); cbn [dl_app dl_task dl_open dl_io] in *;
    destruct t as [[[]|e']|]; by first [apply Hh|apply failed_grows].
Qed.

Lemma down_event_inv total rs ev d : down_inv total rs d → down_inv total (rs ++ event_reads ev) (down_event ev d).
Proof.
  intros Hd. destruct ev as [ev|].
  - assert (ev = CETake ∨ ev ≠ CETake) as [->|Hne] by (destruct ev; by [left|right]); [|by apply conn_event_inv].
    rw /= app_nil_r. by apply turn_inv.
  - destruct Hd as [Ht Hd]. split; [exact Ht|]. cbn. rw app_nil_r.
    destruct (dl_task d) as [[[]|e]|]; [|done|]; pose proof (healthy_part _ _ _ _ _ Hd) as Hp;
      rw -(app_nil_r rs) in Hp; rw -(app_nil_r rs); apply dropped_healthy; [exact Hp|apply Hd|exact Hp|apply Hd].
Qed.

Lemma down_run_inv total evs rs d : down_inv total rs d → down_inv total (rs ++ down_reads evs) (down_run evs d).
Proof.
  revert rs d. induction evs as [|ev evs IH]; intros rs d Hd; [by rw app_nil_r|].
  assert (down_reads (ev :: evs) = event_reads ev ++ down_reads evs) as -> by by destruct ev as [[]|].
  rw app_assoc. apply IH. by apply down_event_inv.
Qed.

Lemma ended_stays n d r : dl_task d = Some r → down_run (replicate n (DownConn CETake)) d = d.
Proof.
  intros Hr. induction n as [|n IH]; [done|]. cbn. rw /app_writer_turn Hr. by destruct (dl_app d).
Qed.

(** Once the end was heard, the task drains the channel and shuts down. *)
Lemma down_drains n rs d total :
  down_inv total rs d → heard_end rs = true → dl_open d = true → (length (hear rs) ≤ total)%nat →
  (length (ch_queue (ca_stream (dl_app d).1)) < n)%nat →
  let d' := down_run (replicate n (DownConn CETake)) d in tx (dl_io d') = hear rs ∧ dl_task d' = Some (Ok ()).
Proof.
  revert d. induction n as [|n IH]; intros d Hd He Ho Hl Hn; [lia|].
  pose proof (turn_inv total rs d Hd) as Hd'. destruct d as [[s q] open io t]. cbn in Ho, Hn. subst open.
  destruct Hd as [Ht Hd]. cbn [dl_app dl_task dl_open dl_io fst] in *. destruct t as [[[]|e]|]; [|destruct Hd; lia|].
  - rw (ended_stays _ _ (Ok ())); [done|]. destruct Hd as [(Hg & _) Hd]. destruct (Hd eq_refl) as [Hq _]. rw Hq app_nil_r in Hg. by split.
  - destruct Hd as [(Hg & Hs & _) _]. rw He in Hs.
    change (down_run (replicate (S n) (DownConn CETake)) ?x) with (down_run (replicate n (DownConn CETake)) (app_writer_turn x)).
    rw /app_writer_turn in Hd' |- *. cbn [dl_app dl_task dl_open dl_io] in *.
    destruct (ch_queue (ca_stream s)) as [|data queue] eqn:Hq.
    + rw Hs /=. rw (ended_stays n _ (Ok ())); [done|]. cbn. by rw app_nil_r in Hg.
    + destruct (write_all data io) as [[[]|e] io'].
      * apply IH; [done..|]. cbn in Hn |- *. rw Hq. cbn. lia.
      * destruct Hd' as [_ Hd']. cbn in Hd'. destruct Hd'. lia.
Qed.

(** What the application is given is what was heard, in order and without more;
    once the end was heard, all of it, and then the end. *)
Lemma app_given evs s (q : Q) io :
  ca_stream_tx s = true → ch_queue (ca_stream s) = [] → tx io = [] →
  let rs := down_reads evs in
  let d := down_run evs (MkDownload (s, q) true io None) in
  tx (dl_io d) `prefix_of` hear rs ∧
  (heard_end rs = true → dl_open d = true → (length (hear rs) ≤ room io)%nat →
   ∀ n, (length (ch_queue (ca_stream (dl_app d).1)) < n)%nat →
     let d' := down_run (replicate n (DownConn CETake)) d in tx (dl_io d') = hear rs ∧ dl_task d' = Some (Ok ())).
Proof.
  intros Hs Hq Hio rs d. assert (down_inv (room io) rs d) as Hd.
  { apply (down_run_inv _ evs []). split; [by rw /= Hio|]. split; [|done]. by rw /= /carrying Hq Hs Hio. }
  split; [by apply (down_inv_part (room io))|]. intros He Ho Hl n Hn. by apply (down_drains n rs d (room io)).
Qed.
End invariant.

(** ** From the connection the server dialed *)
Section end_to_end.
Context `{!TuicCore, !TuicCoreLaws} {Q : Type} `{!QuicConn Q, !QuicLaws Q, !QuicEnds Q}.
Variable ekm : bytes → bytes → option bytes.

Lemma established_down c tx : keeps (down_is c tx) (client_on_conn_established ekm : SE (TuicClientApp * Q) ()).
Proof.
  rw /client_on_conn_established /send_authentication /send_all_or_queue.
  pose proof (@down_on_quic Q) as H1. pose proof (@down_push_front Q) as H2. keep_walk.
Qed.

End end_to_end.

#[local] Existing Instance open_conn.
#[local] Existing Instance open_laws.
#[local] Existing Instance open_ends.

(** The two bytes arrive one at a time; the task takes the first in between. *)
Definition demo_down_events : list DownEvent :=
  [DownConn (CEReads [(CONNECT_STREAM_ID, [ReadData [9] false])]); DownConn CETake; DownConn CEWrites;
   DownConn (CEReads [(CONNECT_STREAM_ID, [ReadData [8] true])])].
Definition demo_established : TuicClientApp * OpenConn :=
  (client_on_conn_established demo_ekm (client_app_new demo_uuid (str "secret") demo_target 0, empty_conn)).2.
Definition demo_download : Download OpenConn :=
  down_run demo_down_events (MkDownload demo_established true (MkStream [] [] 10) None).

