(* ===== verification/AnytlsCodec.v ===== *)
(** * AnyTLS wire format (src/protocol/anytls/codec.rs)

    Frames, the client hello, UDP-over-TCP, settings and padding. The frame
    and padding types of the anytls crate and the hash functions are a
    parameter (the class [AnytlsCore]). *)
From S2P Require Import Prelude Io Text Net Config Socks5Codec.

(** ** The anytls crate and the hash functions *)
Class AnytlsCore := {
  (** [HEADER_OVERHEAD_SIZE] *)
  FRAME_HEADER_LEN : nat;
  (** [Frame::with_data(cmd, sid, data).to_bytes()] *)
  frame_to_bytes : Z → Z → bytes → bytes;
  (** [Frame::from_bytes] *)
  frame_from_bytes : bytes → option (Z * Z * bytes);
  PaddingFactory : Type;
  factory_new : bytes → option PaddingFactory;
  factory_stop : PaddingFactory → Z;
  factory_md5 : PaddingFactory → bytes;
  (** the sizes are drawn at random: the third argument stands for the draw *)
  generate_record_payload_sizes : PaddingFactory → Z → nat → list Z;
  CHECK_MARK : Z;
  (** SHA-256, and the hexadecimal MD5 *)
  sha256 : bytes → bytes;
  md5_hex : bytes → bytes;
}.

(** The commands of a frame, with the constructors [command_code] takes apart. *)
Inductive CoreCommand :=
  | Waste | Syn | Psh | Fin | Settings | Alert | UpdatePaddingScheme | SynAck | HeartRequest | HeartResponse
  | ServerSettings | Unknown (value : Z).
Definition command_code (command : CoreCommand) : Z :=
  match command with
  | Waste => 0
  | Syn => 1
  | Psh => 2
  | Fin => 3
  | Settings => 4
  | Alert => 5
  | UpdatePaddingScheme => 6
  | SynAck => 7
  | HeartRequest => 8
  | HeartResponse => 9
  | ServerSettings => 10
  | Unknown value => value
  end.

Definition CMD_WASTE : Z := Eval cbv in command_code Waste.
Definition CMD_SYN : Z := Eval cbv in command_code Syn.
Definition CMD_PSH : Z := Eval cbv in command_code Psh.
Definition CMD_FIN : Z := Eval cbv in command_code Fin.
Definition CMD_SETTINGS : Z := Eval cbv in command_code Settings.
Definition CMD_ALERT : Z := Eval cbv in command_code Alert.
Definition CMD_UPDATE_PADDING_SCHEME : Z := Eval cbv in command_code UpdatePaddingScheme.
Definition CMD_SYNACK : Z := Eval cbv in command_code SynAck.
Definition CMD_HEART_REQUEST : Z := Eval cbv in command_code HeartRequest.
Definition CMD_HEART_RESPONSE : Z := Eval cbv in command_code HeartResponse.
Definition CMD_SERVER_SETTINGS : Z := Eval cbv in command_code ServerSettings.
Definition PASSWORD_HASH_LEN : nat := 32.

(** The bytes of a frame, as the protocol document gives them. *)
Definition frame_wire (command sid : Z) (data : bytes) : bytes :=
  [command] ++ be_bytes 4 sid ++ be_bytes 2 (len data) ++ data.

Class AnytlsLaws `{!AnytlsCore} : Prop := {
  frame_header_len : FRAME_HEADER_LEN = 7%nat;
  frame_layout command sid data :
    is_u8 command → is_u32 sid → len data ≤ U16_MAX →
    frame_to_bytes command sid data = frame_wire command sid data ∧
    frame_from_bytes (frame_wire command sid data) = Some (command, sid, data);
  sha256_length l : length (sha256 l) = PASSWORD_HASH_LEN;
}.

Record Frame := MkFrame { frame_command : Z; frame_stream_id : Z; frame_data : bytes }.

Inductive ClientHelloAuth := HelloAuthenticated (username : bytes) | HelloRejected (prefix : bytes).

Inductive GeneratedPaddingStep := StepSize (n : nat) | StepCheck.
Inductive PaddingStep := PSize (min max : Z) | PCheck.
Record PaddingRule := MkPaddingRule { pr_stage : Z; pr_min : Z; pr_max : Z }.

Definition EQUALS : Z := 61.
Definition COMMA : Z := 44.
Definition DASH : Z := 45.

(** ** Settings *)
Fixpoint find_setting (key : bytes) (ls : list bytes) : option bytes :=
  match ls with
  | [] => None
  | line :: ls =>
      match split_once EQUALS line with
      | Some (name, value) => if str_eqb name key then Some value else find_setting key ls
      | None => find_setting key ls
      end
  end.

Definition settings_value (data : bytes) (key : bytes) : option bytes :=
  if utf8_valid data then find_setting key (lines data) else None.

Definition settings_version (data : bytes) : option Z :=
  match settings_value data (str "v") with Some v => parse_u8 v | None => None end.

Definition settings : bytes := str "v=2".

Definition client_settings_with_padding_md5 (padding_md5 : bytes) : bytes :=
  str "v=2" ++ [LF] ++ str "client=rtunnel" ++ [LF] ++ str "padding-md5=" ++ padding_md5.

Definition DEFAULT_PADDING_MD5 : bytes := str "e872e281aa5e28149c0f6b8d36e79199".
Definition client_settings : bytes := client_settings_with_padding_md5 DEFAULT_PADDING_MD5.

(** ** Padding schemes *)
Definition DEFAULT_PADDING_SCHEME : bytes :=
  join [LF] (map str ["stop=8"; "0=30-30"; "1=100-400";
    "2=400-500,c,500-1000,c,500-1000,c,500-1000,c,500-1000";
    "3=9-9,500-1000"; "4=500-1000"; "5=500-1000"; "6=500-1000"; "7=500-1000"]%string).

Definition padding_scheme_text (scheme : list bytes) : bytes :=
  if bool_decide (scheme = []) then DEFAULT_PADDING_SCHEME else join [LF] scheme.
Definition padding_scheme_payload (scheme : list bytes) : bytes := padding_scheme_text scheme.

(** One part of a rule of [parse_padding_scheme]. *)
Definition parse_rule_part (stage : Z) (part : bytes) : Result (list PaddingRule) :=
  if str_eqb part (str "c") then Ok []
  else match split_once DASH part with
  | None => Ok []
  | Some (min, max) =>
      min ← context (parse_u16 min) "invalid digit";
      max ← context (parse_u16 max) "invalid digit";
      Ok [MkPaddingRule stage min max]
  end.

Fixpoint concat_results {A B} (f : A → Result (list B)) (l : list A) : Result (list B) :=
  match l with
  | [] => Ok []
  | x :: l => a ← f x; b ← concat_results f l; Ok (a ++ b)
  end.

Definition parse_padding_scheme (scheme : list bytes) : Result (list PaddingRule) :=
  concat_results (λ line,
    match split_once EQUALS line with
    | None => Ok []
    | Some (stage, spec) =>
        if str_eqb stage (str "stop") then Ok []
        else
          stage ← context (parse_u8 stage) "invalid digit";
          concat_results (parse_rule_part stage) (split COMMA spec)
    end) scheme.

(** The steps of one entry of [parse_padding_plan]. *)
Definition parse_step_part (part : bytes) : option PaddingStep :=
  if str_eqb part (str "c") then Some PCheck
  else match split_once DASH part with
  | None => None
  | Some (min, max) =>
      match parse_u16 min, parse_u16 max with
      | Some min, Some max =>
          if (min =? 0) || (max =? 0) then None
          else Some (if max <? min then PSize max min else PSize min max)
      | _, _ => None
      end
  end.

Definition parse_steps (spec : bytes) : list PaddingStep :=
  omap parse_step_part (filter (λ part, part ≠ []) (map trim (split COMMA spec))).

Fixpoint parse_entries (ls : list bytes) (stop : option Z) (entries : list (Z * list PaddingStep))
  : Result (option Z * list (Z * list PaddingStep)) :=
  match ls with
  | [] => Ok (stop, entries)
  | line :: ls =>
      match split_once EQUALS (trim line) with
      | None => parse_entries ls stop entries
      | Some (key, spec) =>
          if str_eqb key (str "stop") then
            s ← context (parse_u32 spec) "invalid digit"; parse_entries ls (Some s) entries
          else match parse_u32 key with
          | None => parse_entries ls stop entries
          | Some stage => parse_entries ls stop (entries ++ [(stage, parse_steps spec)])
          end
      end
  end.

Section codec.
Context `{!AnytlsCore}.

Record PaddingPlan := MkPlan {
  plan_stop : Z;
  plan_entries : list (Z * list PaddingStep);
  plan_factory : PaddingFactory;
}.

Definition parse_padding_plan (scheme : list bytes) : Result PaddingPlan :=
  let text := padding_scheme_text scheme in
  factory ← context (factory_new text) "invalid anytls padding scheme";
  '(stop, entries) ← parse_entries (lines text) None [];
  stop ← context stop "padding scheme missing stop";
  ensure (stop =? factory_stop factory) "padding scheme stop does not match upstream parser" ;;
  Ok (MkPlan (factory_stop factory) entries factory).

Definition generate_record_payload_steps (plan : PaddingPlan) (packet : Z) (draw : nat)
  : list GeneratedPaddingStep :=
  omap (λ size, if size =? CHECK_MARK then Some StepCheck
                else if 0 <? size then Some (StepSize (Z.to_nat size)) else None)
    (generate_record_payload_sizes (plan_factory plan) packet draw).

Fixpoint first_size (steps : list GeneratedPaddingStep) : option nat :=
  match steps with
  | [] => None
  | StepSize n :: _ => Some n
  | StepCheck :: steps => first_size steps
  end.

(** [PaddingPlan::padding0_len] *)
Definition plan_padding0_len (plan : PaddingPlan) (draw : nat) : Z :=
  match first_size (generate_record_payload_steps plan 0 draw) with
  | Some size => as_u16 (Z.of_nat size)
  | None => 30
  end.

Definition padding0_len (scheme : list bytes) (draw : nat) : Result Z :=
  plan ← parse_padding_plan scheme; Ok (plan_padding0_len plan draw).

Definition steps_for_packet (plan : PaddingPlan) (packet : Z) : option (list PaddingStep) :=
  snd <$> find (λ e, e.1 =? packet) (plan_entries plan).

Definition padding_scheme_md5 (scheme : list bytes) : bytes :=
  if bool_decide (scheme = []) then DEFAULT_PADDING_MD5
  else match factory_new (padding_scheme_text scheme) with
  | Some factory => factory_md5 factory
  | None => md5_hex (padding_scheme_text scheme)
  end.

(** ** Frames *)
Definition encode_frame (command stream_id : Z) (data : bytes) : Result bytes :=
  ensure (len data <=? U16_MAX) "anytls frame is too large" ;;
  Ok (frame_to_bytes command stream_id data).

Definition encode_waste_frame (data_len : nat) : Result bytes :=
  ensure (Z.of_nat data_len <=? U16_MAX) "anytls waste frame is too large" ;;
  encode_frame CMD_WASTE 0 (replicate data_len 0).

Definition write_frame (command stream_id : Z) (data : bytes) : SE Stream () :=
  frame ← lift (encode_frame command stream_id data);
  write_all frame ;;
  mret ().

Section reader.
Context {S : Type} `{!ByteReader S}.

Definition read_frame : SE S Frame :=
  raw ← read_exact FRAME_HEADER_LEN;
  let n := be_val [raw !!! 5%nat; raw !!! 6%nat] in
  raw ← (if 0 <? n then body ← read_exact (Z.to_nat n); mret (raw ++ body) else mret raw);
  '(command, sid, data) ← lift (context (frame_from_bytes raw) "invalid anytls frame");
  mret (MkFrame command sid data).

(** ** The client hello *)
Definition password_hash (password : bytes) : bytes := sha256 password.

Definition read_client_hello_or_fallback (us : list UserConfig) : SE S ClientHelloAuth :=
  presented ← read_exact PASSWORD_HASH_LEN;
  match find (λ u, str_eqb (password_hash (Config.password u)) presented) us with
  | None => mret (HelloRejected presented)
  | Some user =>
      padding_len ← read_u16;
      (if 0 <? padding_len then _padding ← read_exact (Z.to_nat padding_len); mret () else mret ()) ;;
      mret (HelloAuthenticated (Config.username user))
  end.

Definition read_client_hello (us : list UserConfig) : SE S bytes :=
  auth ← read_client_hello_or_fallback us;
  match auth with
  | HelloAuthenticated username => mret username
  | HelloRejected _ => throw (EMsg "anytls authentication failed")
  end.
End reader.

Definition write_client_hello_with_padding (password : bytes) (padding_len : Z) : SE Stream () :=
  write_all (password_hash password ++ be_bytes 2 padding_len ++ replicate (Z.to_nat padding_len) 0) ;;
  mret ().
Definition write_client_hello (password : bytes) : SE Stream () :=
  write_client_hello_with_padding password 30.

(** ** Shaping a packet into records *)
Fixpoint shape_steps (steps : list GeneratedPaddingStep) (payload : bytes) (records : list bytes)
  : Result (list bytes * bytes) :=
  match steps with
  | [] => Ok (records, payload)
  | StepCheck :: steps =>
      if Nat.eqb (length payload) 0 then Ok (records, payload) else shape_steps steps payload records
  | StepSize size :: steps =>
      let remaining := length payload in
      if Nat.ltb size remaining then
        shape_steps steps (drop size payload) (records ++ [take size payload])
      else if Nat.ltb 0 remaining then
        let padding_len := (size - (remaining + FRAME_HEADER_LEN))%nat in
        record ← (if Nat.ltb 0 padding_len
                  then waste ← encode_waste_frame padding_len; Ok (payload ++ waste)
                  else Ok payload);
        shape_steps steps [] (records ++ [record])
      else
        waste ← encode_waste_frame size;
        shape_steps steps payload (records ++ [waste])
  end.

Definition shape_packet_payload (payload : bytes) (packet : Z) (plan : PaddingPlan) (draw : nat)
  : Result (list bytes) :=
  let steps := generate_record_payload_steps plan packet draw in
  if bool_decide (length steps = 0%nat) then Ok [payload]
  else
    '(records, payload) ← shape_steps steps payload [];
    Ok (if negb (Nat.eqb (length payload) 0) then records ++ [payload] else records).

(** ** Addresses and UDP over TCP *)
Definition encode_socksaddr (target : TargetAddr) : Result bytes :=
  match target with
  | Ip addr =>
      if is_ipv4 addr then Ok ([0x01] ++ v4_octets (sa_ip addr) ++ be_bytes 2 (sa_port addr))
      else Ok ([0x04] ++ v6_octets (sa_ip addr) ++ be_bytes 2 (sa_port addr))
  | Domain host port =>
      ensure (len host <=? 255) "domain is too long" ;;
      Ok ([0x03] ++ [as_u8 (len host)] ++ host ++ be_bytes 2 port)
  end.

Definition decode_socksaddr_from : SE Cursor TargetAddr :=
  atyp ← read_u8;
  if atyp =? 0x01 then
    octets ← read_exact 4; port ← read_u16; mret (Ip (socket_addr_new (V4 octets) port))
  else if atyp =? 0x03 then
    n ← read_u8; host ← read_exact (Z.to_nat n); port ← read_u16;
    host ← lift (from_utf8 host); mret (Domain host port)
  else if atyp =? 0x04 then
    octets ← read_exact 16; port ← read_u16; mret (Ip (socket_addr_new (V6 octets) port))
  else throw (EMsg "unknown anytls address family").

Definition decode_socksaddr (data : bytes) : Result (TargetAddr * nat) :=
  run_cursor decode_socksaddr_from data.

Definition encode_uot_addr (target : TargetAddr) : Result bytes := encode_socksaddr target.

Definition encode_uot_packet_addr (target : TargetAddr) : Result bytes :=
  match target with
  | Ip addr =>
      if is_ipv4 addr then Ok ([0x00] ++ v4_octets (sa_ip addr) ++ be_bytes 2 (sa_port addr))
      else Ok ([0x01] ++ v6_octets (sa_ip addr) ++ be_bytes 2 (sa_port addr))
  | Domain host port =>
      ensure (len host <=? 255) "domain is too long" ;;
      Ok ([0x02] ++ [as_u8 (len host)] ++ host ++ be_bytes 2 port)
  end.

Definition encode_uot_payload (payload : bytes) : Result bytes :=
  ensure (len payload <=? U16_MAX) "uot packet is too large" ;;
  Ok (be_bytes 2 (as_u16 (len payload)) ++ payload).

Definition encode_uot_packet (target : TargetAddr) (payload : bytes) : Result bytes :=
  ensure (len payload <=? U16_MAX) "uot packet is too large" ;;
  addr ← encode_uot_packet_addr target;
  Ok (addr ++ be_bytes 2 (as_u16 (len payload)) ++ payload).

Definition write_uot_v2_request (connect : bool) (target : TargetAddr) : SE Stream () :=
  write_all [if connect then 1 else 0] ;;
  addr ← lift (encode_uot_addr target);
  write_all addr ;;
  mret ().

Definition write_uot_payload (payload : bytes) : SE Stream () :=
  p ← lift (encode_uot_payload payload);
  write_all p ;;
  mret ().

Definition read_uot_payload {S} `{!ByteReader S} : SE S bytes :=
  n ← read_u16; read_exact (Z.to_nat n).

Definition UOT_V2_MAGIC_HOST : bytes := str "sp.v2.udp-over-tcp.arpa".
Definition uot_v2_magic_target : TargetAddr := Domain UOT_V2_MAGIC_HOST 0.
Definition is_uot_v2_magic_target (target : TargetAddr) : bool :=
  match target with
  | Domain host port => eq_ignore_ascii_case host UOT_V2_MAGIC_HOST && (port =? 0)
  | Ip _ => false
  end.

Definition write_connect (target : TargetAddr) : SE Stream () :=
  write_frame CMD_SYN 1 [] ;;
  addr ← lift (encode_socksaddr target);
  write_frame CMD_PSH 1 addr ;;
  mret ().
End codec.

(** ** Lemmas *)
Lemma encode_socksaddr_wire t : fits_wire t = true → encode_socksaddr t = Ok (addr_wire t).
Proof.
  destruct t as [[o p|o p f s]|h p]; [done..|]. simpl. intros Hf.
  rw Hf. cbn. rw as_u8_len; [lia|done].
Qed.

Lemma decode_socksaddr_parses t :
  wf_target t → fits_wire t = true → parses decode_socksaddr_from (addr_wire t) (wire_target t).
Proof.
  destruct t as [[o p|o p f s]|h p].
  - intros ((Ho & _) & Hp & _) _. do 2 parse_step. by parse_step.
  - intros ((Ho & _) & Hp & _) _. do 2 parse_step. by parse_step.
  - intros [Hh Hp] Hfit. simpl in Hfit. do 2 parse_step.
    eapply parses_bind; [apply parses_exact; rw /len; lia|]. parse_step.
    rw from_utf8_ok; [done|]. reflexivity.
Qed.

Lemma decode_socksaddr_ok t rest :
  wf_target t → fits_wire t = true →
  decode_socksaddr (addr_wire t ++ rest) = Ok (wire_target t, length (addr_wire t)).
Proof. intros Hwf Hfit. apply run_cursor_ok, decode_socksaddr_parses; done. Qed.

Definition wf_frame (f : Frame) : Prop :=
  is_u8 (frame_command f) ∧ is_u32 (frame_stream_id f) ∧ len (frame_data f) ≤ U16_MAX.
Definition wire (f : Frame) : bytes := frame_wire (frame_command f) (frame_stream_id f) (frame_data f).
Definition waste (n : nat) : Frame := MkFrame CMD_WASTE 0 (replicate n 0).

Lemma frame_wire_header command sid data :
  ∃ hd, length hd = 7%nat ∧ frame_wire command sid data = hd ++ data ∧
    [hd !!! 5%nat; hd !!! 6%nat] = be_bytes 2 (len data).
Proof.
  exists ([command] ++ be_bytes 4 sid ++ be_bytes 2 (len data)). split_and!; [done|by rw /frame_wire -!app_assoc|].
  done.
Qed.

Section codec_lemmas.
Context `{!AnytlsCore, !AnytlsLaws}.

Lemma encode_frame_ok f : wf_frame f → encode_frame (frame_command f) (frame_stream_id f) (frame_data f) = Ok (wire f).
Proof.
  intros (Hc & Hs & Hd). rw /encode_frame ensure_then; [by apply Z.leb_le|].
  by destruct (frame_layout _ _ _ Hc Hs Hd) as [-> _].
Qed.

Lemma read_frame_parses {S} `{!ByteReader S} f : wf_frame f → parses read_frame (wire f) f.
Proof.
  intros (Hc & Hs & Hd). destruct f as [command sid data]. simpl in *.
  destruct (frame_layout _ _ _ Hc Hs Hd) as [_ Hfrom]. rw /wire /=.
  destruct (frame_wire_header command sid data) as (hd & Hl & Hw & Hn). rw Hw in Hfrom. rw Hw.
  assert (Hlen : is_u16 (len data)) by (pose proof (len_nonneg data); rw /U16_MAX in Hd; rw /is_u16; lia).
  rw /read_frame frame_header_len. eapply parses_bind; [by apply parses_exact|]. cbv beta zeta.
  rw Hn be_val_bytes_u16; [done|]. apply (parses_bind_ret _ _ _ (hd ++ data)); [|by rw Hfrom].
  destruct (Z.ltb_spec 0 (len data)) as [Hpos|Hz].
  - eapply parses_bind_ret; [apply parses_exact; rw /len; lia|]. reflexivity.
  - destruct data as [|b data]; [|rw len_cons in Hz; pose proof (len_nonneg data); lia].
    rw app_nil_r. apply parses_ret.
Qed.

Lemma waste_wf n : Z.of_nat n ≤ U16_MAX → wf_frame (waste n).
Proof.
  intros Hn. split_and!; [rw /is_u8 /= /CMD_WASTE; lia|rw /is_u32 /=; lia|].
  rw /waste /len length_replicate. exact Hn.
Qed.

Lemma encode_waste_inv n enc : encode_waste_frame n = Ok enc → Z.of_nat n ≤ U16_MAX ∧ enc = wire (waste n).
Proof.
  intros He. apply Result_bind_inv in He as ([] & Hn%ensure_ok%Z.leb_le & He). split; [done|].
  pose proof (encode_frame_ok (waste n) (waste_wf n Hn)) as E. simpl in E. rw E in He. by injection He as <-.
Qed.
Lemma encode_waste_ok n : Z.of_nat n ≤ U16_MAX → encode_waste_frame n = Ok (wire (waste n)).
Proof.
  intros Hn. rw /encode_waste_frame ensure_then; [by apply Z.leb_le|].
  exact (encode_frame_ok (waste n) (waste_wf n Hn)).
Qed.

(** *** Shaping *)
Definition wastes (ns : list nat) : bytes := concat (wire ∘ waste <$> ns).
Definition waste_size (n : nat) : Prop := (0 < n)%nat ∧ Z.of_nat n ≤ U16_MAX.

(** Shaping moves the payload into the records and only adds waste frames. *)
Lemma shape_steps_concat steps payload records records' payload' :
  Forall (λ s, s ≠ StepSize 0) steps →
  shape_steps steps payload records = Ok (records', payload') →
  ∃ ns, Forall waste_size ns ∧
    concat records' ++ payload' = concat records ++ payload ++ wastes ns.
Proof.
  intros Hpos. revert payload records. induction Hpos as [|step steps Hstep Hpos IH]; intros payload records; simpl.
  - intros [= <- <-]. exists []. split; [done|]. by rw /wastes /= app_nil_r.
  - destruct step as [size|].
    + case_match eqn:H1.
      { intros (ns & Hns & ->)%IH. exists ns. split; [done|].
        by rw concat_app /= app_nil_r -!app_assoc (app_assoc (take _ _)) take_drop. }
      case_match eqn:H2; intros (record & Hr & (ns & Hns & ->)%IH)%Result_bind_inv.
      * rw concat_app /= app_nil_r. case_match eqn:H3.
        -- apply Result_bind_inv in Hr as (w & [Hw ->]%encode_waste_inv & [= <-]).
           exists ((size - (length payload + FRAME_HEADER_LEN))%nat :: ns). split; [|by rw /wastes /= -!app_assoc].
           constructor; [split; [by apply Nat.ltb_lt|done]|done].
        -- injection Hr as <-. exists ns. split; [done|]. by rw -!app_assoc.
      * apply encode_waste_inv in Hr as [Hw ->]. destruct payload; [|done].
        exists (size :: ns). split; [constructor; [split; [|done]|done]|].
        -- destruct size; [done|lia].
        -- by rw concat_app /wastes /= app_nil_r -!app_assoc.
    + case_match; [|by apply IH]. intros [= <- <-]. exists []. split; [done|]. by rw /wastes /= app_nil_r.
Qed.

Lemma generated_steps_pos plan packet draw :
  Forall (λ s, s ≠ StepSize 0) (generate_record_payload_steps plan packet draw).
Proof.
  rw /generate_record_payload_steps. induction (generate_record_payload_sizes _ _ _) as [|z l IH]; [done|].
  simpl. destruct (z =? CHECK_MARK); [by constructor|]. destruct (0 <? z) eqn:Hz; [|done].
  constructor; [|done]. intros [= E]. apply Z.ltb_lt in Hz. lia.
Qed.

(** The records of a shaped packet are the packet, then waste frames. *)
Lemma shape_concat payload packet plan draw records :
  shape_packet_payload payload packet plan draw = Ok records →
  ∃ ns, Forall waste_size ns ∧ concat records = payload ++ wastes ns.
Proof.
  rw /shape_packet_payload. case_bool_decide.
  { intros [= <-]. exists []. by rw /wastes /= !app_nil_r. }
  intros ([rs p] & Hs & [= <-])%Result_bind_inv.
  apply shape_steps_concat in Hs as (ns & Hns & Heq); [|apply generated_steps_pos].
  exists ns. split; [done|]. simpl in Heq. rw -Heq.
  destruct p; simpl; [by rw app_nil_r|]. by rw concat_app /= app_nil_r.
Qed.

(** The sizes of the records, from the length of the payload alone. *)
Definition same_lengths (a b : list bytes) : Prop := map length a = map length b.
Definition similar (a b : Result (list bytes * bytes)) : Prop :=
  match a, b with
  | Ok (rs1, p1), Ok (rs2, p2) => same_lengths rs1 rs2 ∧ length p1 = length p2
  | Err e1, Err e2 => e1 = e2
  | _, _ => False
  end.

Lemma same_lengths_snoc rs1 rs2 r1 r2 :
  same_lengths rs1 rs2 → length r1 = length r2 → same_lengths (rs1 ++ [r1]) (rs2 ++ [r2]).
Proof. rw /same_lengths !map_app /=. by intros -> ->. Qed.

Lemma shape_steps_similar steps p1 p2 rs1 rs2 :
  length p1 = length p2 → same_lengths rs1 rs2 →
  similar (shape_steps steps p1 rs1) (shape_steps steps p2 rs2).
Proof.
  revert p1 p2 rs1 rs2. induction steps as [|[size|] steps IH]; intros p1 p2 rs1 rs2 Hp Hrs; [done| |].
  - cbn [shape_steps]. rw Hp. case_match.
    { apply IH; [by rw !length_drop Hp|]. apply same_lengths_snoc; [done|]. by rw !length_take Hp. }
    case_match.
    + case_match; [|apply IH; [done|by apply same_lengths_snoc]].
      destruct (encode_waste_frame _) as [w|e]; [|done].
      apply IH; [done|]. apply same_lengths_snoc; [done|]. by rw !length_app Hp.
    + destruct (encode_waste_frame _) as [w|e]; [|done].
      apply IH; [done|]. by apply same_lengths_snoc.
  - cbn [shape_steps]. rw Hp. case_match; [done|]. by apply IH.
Qed.

Lemma shape_steps_total steps p rs :
  Forall (λ s, ∀ n, s = StepSize n → Z.of_nat n ≤ U16_MAX) steps →
  ∃ rs' p', shape_steps steps p rs = Ok (rs', p').
Proof.
  intros Hs. revert p rs. induction Hs as [|[size|] steps Hsize Hs IH]; intros p rs; [by eauto| |].
  - cbn [shape_steps]. specialize (Hsize _ eq_refl). case_match; [apply IH|]. case_match.
    + case_match; [|apply IH]. rw encode_waste_ok; [lia|]. apply IH.
    + rw encode_waste_ok; [done|]. apply IH.
  - cbn [shape_steps]. case_match; [by eauto|]. apply IH.
Qed.

(** *** Frames one after another *)
Fixpoint read_frames {S} `{!ByteReader S} (n : nat) : SE S (list Frame) :=
  match n with
  | O => mret []
  | S n => f ← read_frame; fs ← read_frames n; mret (f :: fs)
  end.
Definition write_frames (fs : list Frame) : SE Stream () :=
  for_each (λ f, write_frame (frame_command f) (frame_stream_id f) (frame_data f)) fs.
Definition wires (fs : list Frame) : bytes := concat (wire <$> fs).

Lemma wires_cons f fs : wires (f :: fs) = wire f ++ wires fs.
Proof. done. Qed.
Lemma wires_app fs gs : wires (fs ++ gs) = wires fs ++ wires gs.
Proof. by rw /wires fmap_app concat_app. Qed.
Lemma wastes_wires ns : wastes ns = wires (waste <$> ns).
Proof. by rw /wastes /wires -list_fmap_compose. Qed.
Lemma wastes_wf ns : Forall waste_size ns → Forall wf_frame (waste <$> ns).
Proof. induction 1 as [|n ns [_ Hn] _ IH]; constructor; [by apply waste_wf|done]. Qed.

Lemma read_frames_parse {S} `{!ByteReader S} fs :
  Forall wf_frame fs → parses (read_frames (length fs)) (wires fs) fs.
Proof.
  induction 1 as [|f fs Hf _ IH]; [apply parses_ret|].
  eapply parses_bind; [by apply read_frame_parses|]. by eapply parses_bind_ret.
Qed.

Lemma write_frame_talks f r :
  wf_frame f → talks (write_frame (frame_command f) (frame_stream_id f) (frame_data f)) r (Ok ()) r (wire f).
Proof.
  intros Hf. rw /write_frame encode_frame_ok; [done|]. talk_quiet.
  eapply talks_bind_last; [apply talks_write|apply talks_ret].
Qed.

Lemma write_frames_talks fs r :
  Forall wf_frame fs → talks (write_frames fs) r (Ok ()) r (wires fs).
Proof.
  induction 1 as [|f fs Hf _ IH]; [apply talks_ret|].
  eapply talks_bind; [by apply write_frame_talks|exact IH].
Qed.

(** Frames written one after another by the sender are read back in order
    by the receiver, whatever follows them; when the connection ends anywhere
    inside them, the reader reports an unexpected end of input. *)
Lemma frames_roundtrip fs r t k rest cut :
  Forall wf_frame fs → (length (wires fs) ≤ k)%nat → (cut < length (wires fs))%nat →
  write_frames fs (MkStream r t k) = (Ok (), MkStream r (t ++ wires fs) (k - length (wires fs))) ∧
  run_cursor (read_frames (length fs)) (wires fs ++ rest) = Ok (fs, length (wires fs)) ∧
  run_cursor (read_frames (length fs)) (take cut (wires fs)) = Err (EIo UnexpectedEof).
Proof.
  intros Hfs Hk Hcut. destruct (read_frames_parse (S:=Cursor) fs Hfs) as [Hr Hn].
  split_and!; [by apply write_frames_talks|by apply run_cursor_ok|].
  apply (run_cursor_prefix _ _ (drop cut (wires fs))); [by rw take_drop|].
  intros E%(f_equal length). rw length_drop /= in E. lia.
Qed.

(** C30: Shaping is invisible to the receiver: cut into the records of any
    padding scheme, a packet of frames is read back as the same frames followed
    by waste frames only, with nothing left over. *)
Theorem shaping_transparent fs packet plan draw records :
  Forall wf_frame fs →
  shape_packet_payload (wires fs) packet plan draw = Ok records →
  ∃ ns, run_cursor (read_frames (length fs + length ns)) (concat records)
        = Ok (fs ++ (waste <$> ns), length (concat records)) ∧
    Forall (λ f, frame_command f = CMD_WASTE) (waste <$> ns).
Proof.
  intros Hfs (ns & Hns & ->)%shape_concat. exists ns. split.
  - rw wastes_wires -wires_app -(app_nil_r (wires _)).
    replace (length fs + length ns)%nat with (length (fs ++ (waste <$> ns))) by by rw length_app length_fmap.
    rw app_nil_r -{1}(app_nil_r (wires _)). apply run_cursor_ok, read_frames_parse.
    apply Forall_app. split; [done|by apply wastes_wf].
  - apply Forall_fmap, Forall_forall. done.
Qed.

(** What shaping shows of a packet is its length: two packets of equal
    length are cut into records of the same sizes, and when no size of the
    scheme exceeds a frame the shaping succeeds. *)
Lemma shape_hides_content p1 p2 packet plan draw :
  length p1 = length p2 →
  Forall (λ s, ∀ n, s = StepSize n → Z.of_nat n ≤ U16_MAX) (generate_record_payload_steps plan packet draw) →
  ∃ rs1 rs2, shape_packet_payload p1 packet plan draw = Ok rs1 ∧
    shape_packet_payload p2 packet plan draw = Ok rs2 ∧ map length rs1 = map length rs2.
Proof.
  intros Hp Hsizes. rw /shape_packet_payload. case_bool_decide.
  { do 2 eexists. split_and!; [done..|]. by rw /= Hp. }
  pose proof (shape_steps_similar (generate_record_payload_steps plan packet draw) p1 p2 [] [] Hp eq_refl) as Hsim.
  destruct (shape_steps_total _ p1 [] Hsizes) as (rs1 & q1 & E1).
  destruct (shape_steps_total _ p2 [] Hsizes) as (rs2 & q2 & E2).
  rw E1 E2 /= in Hsim. destruct Hsim as [Hrs Hq]. rw E1 E2 /=. do 2 eexists. split_and!; [done..|].
  rw Hq. case_match; [|done]. by apply same_lengths_snoc.
Qed.

(** *** The client hello *)
Definition hello_wire (password : bytes) (n : nat) : bytes :=
  password_hash password ++ be_bytes 2 (Z.of_nat n) ++ replicate n 0.

Lemma hello_inv us s auth s' :
  wf_bytes (rx s) → read_client_hello_or_fallback us s = (Ok auth, s') →
  match auth with
  | HelloAuthenticated name => ∃ u pad,
      u ∈ us ∧ Config.username u = name ∧ is_u16 (len pad) ∧
      rx s = password_hash (Config.password u) ++ be_bytes 2 (len pad) ++ pad ++ rx s'
  | HelloRejected prefix =>
      length prefix = PASSWORD_HASH_LEN ∧ rx s = prefix ++ rx s' ∧
      ∀ u, u ∈ us → password_hash (Config.password u) ≠ prefix
  end ∧ tx s' = tx s ∧ room s' = room s.
Proof.
  intros Hwf Hrun. assert (Hg : good s) by done. apply SE_bind_inv in Hrun as (pre & s1 & H1 & Hrun).
  apply adv_exact in H1 as (Ha & Hlen & _); [|done].
  destruct (find _ us) as [u|] eqn:Hf.
  - apply find_some in Hf as [Hu%list_elem_of_In Hh%str_eqb_eq]. subst pre.
    invert_field Hrun. destruct (Z.ltb_spec 0 x) as [Hpos|Hneg].
    + apply SE_bind_inv in Hrun as ([] & s3 & (pad & s4 & Hr & [= <-])%SE_bind_inv & [= <- <-]).
      apply adv_exact in Hr as (Ha2 & Hl2 & _); [|eauto with reading].
      destruct (adv_trans _ _ _ _ _ (adv_trans _ _ _ _ _ Ha Hadv) Ha2) as (Hp & _ & [= -> ->]).
      split; [|done]. exists u, pad. split_and!; [done..| |].
      * rw /len Hl2 Z2Nat.id; [lia|done].
      * rw /len Hl2 Z2Nat.id; [lia|]. simpl in Hp. by rw Hp -!app_assoc.
    + invert_bind Hrun. injection Hrun as <- <-. injection Hrun0 as <- <-.
      destruct (adv_trans _ _ _ _ _ Ha Hadv) as (Hp & _ & [= -> ->]). split; [|done].
      assert (x = 0) as -> by (destruct Hx; lia).
      exists u, []. split_and!; [done..|]. simpl in Hp. by rw Hp -!app_assoc.
  - injection Hrun as <- <-. destruct Ha as (Hp & _ & [= -> ->]). split_and!; [done..| |done|done].
    intros u Hu%list_elem_of_In He. eapply find_none in Hf; [|done]. cbv beta in Hf.
    apply not_true_iff_false in Hf. by apply Hf, str_eqb_eq.
Qed.

(** The server admits a client only on the SHA-256 of a user's password,
    after reading exactly the hash, the two length bytes and the padding they
    announce; otherwise it returns the 32 bytes it read, which no user's
    password hashes to, and has consumed nothing else. *)
Lemma hello_gate us s auth s' :
  wf_bytes (rx s) → read_client_hello_or_fallback us s = (Ok auth, s') →
  match auth with
  | HelloAuthenticated name => ∃ u pad,
      u ∈ us ∧ Config.username u = name ∧ is_u16 (len pad) ∧
      rx s = password_hash (Config.password u) ++ be_bytes 2 (len pad) ++ pad ++ rx s'
  | HelloRejected prefix =>
      length prefix = PASSWORD_HASH_LEN ∧ rx s = prefix ++ rx s' ∧
      ∀ u, u ∈ us → password_hash (Config.password u) ≠ prefix
  end ∧ tx s' = tx s ∧ room s' = room s.
Proof. apply hello_inv. Qed.

Lemma hello_parses {S} `{!ByteReader S} us u password n :
  find (λ u, str_eqb (password_hash (Config.password u)) (password_hash password)) us = Some u →
  Z.of_nat n ≤ U16_MAX →
  parses (read_client_hello_or_fallback us) (hello_wire password n) (HelloAuthenticated (Config.username u)).
Proof.
  intros Hu Hn. eapply parses_bind; [apply parses_exact, sha256_length|]. cbv beta. rw Hu.
  assert (is_u16 (Z.of_nat n)) by (rw /is_u16; rw /U16_MAX in Hn; lia).
  eapply parses_bind; [by apply parses_u16|]. cbv beta.
  eapply parses_bind_ret; [|done].
  destruct (Z.ltb_spec 0 (Z.of_nat n)).
  - eapply parses_bind_ret; [apply parses_exact; rw length_replicate; lia|done].
  - destruct n; [|lia]. apply parses_ret.
Qed.

(** The hello a client writes with the password of a user, whatever the
    padding, is admitted under the name of the first user with that password
    hash, and the session starts at the byte that follows it. *)
Lemma hello_interop us u password n r t k rest t' k' :
  find (λ u, str_eqb (password_hash (Config.password u)) (password_hash password)) us = Some u →
  Z.of_nat n ≤ U16_MAX → (34 + n ≤ k)%nat →
  ∃ w, write_client_hello_with_padding password (Z.of_nat n) (MkStream r t k)
         = (Ok (), MkStream r (t ++ w) (k - (34 + n))) ∧
    read_client_hello us (MkStream (w ++ rest) t' k') = (Ok (Config.username u), MkStream rest t' k').
Proof.
  intros Hu Hn Hk. exists (hello_wire password n).
  assert (Hl : length (hello_wire password n) = (34 + n)%nat)
    by (rw !length_app sha256_length length_replicate be_bytes_length /PASSWORD_HASH_LEN; lia).
  split.
  - rw /write_client_hello_with_padding Nat2Z.id.
    rw (SE_bind_ok _ _ _ _ _ (write_all_ok (hello_wire password n) r t k ltac:(lia))). by rw Hl.
  - rw /read_client_hello. destruct (hello_parses (S:=Stream) us u password n Hu Hn) as [Hr _].
    by rw (SE_bind_ok _ _ _ _ _ (stream_parse _ _ rest t' k' _ Hr)).
Qed.
End codec_lemmas.

(** *** Addresses and settings *)

(** The address a client sends at the start of a stream is decoded to that
    address, the first bytes of the payload behind it staying with the stream;
    a truncated address is refused. *)
Lemma socksaddr_roundtrip t payload cut :
  wf_target t → fits_wire t = true →
  ∃ enc, encode_socksaddr t = Ok enc ∧
    decode_socksaddr (enc ++ payload) = Ok (wire_target t, length enc) ∧
    drop (length enc) (enc ++ payload) = payload ∧
    ((cut < length enc)%nat → decode_socksaddr (take cut enc) = Err (EIo UnexpectedEof)).
Proof.
  intros Hwf Hfit. exists (addr_wire t). split_and!; [by apply encode_socksaddr_wire|by apply decode_socksaddr_ok| |].
  { by rw drop_app_length. }
  intros Hc. destruct (decode_socksaddr_parses t Hwf Hfit) as [_ Hn].
  apply (run_cursor_prefix _ _ (drop cut (addr_wire t))); [by rw take_drop|].
  intros E%(f_equal length). rw length_drop /= in E. lia.
Qed.

Lemma socksaddr_roundtrip_witness :
  ∃ enc, encode_socksaddr (Domain (str "example.com") 443) = Ok enc ∧
    decode_socksaddr (enc ++ [1; 2]) = Ok (Domain (str "example.com") 443, length enc) ∧
    drop (length enc) (enc ++ [1; 2]) = [1; 2] ∧
    ((5 < length enc)%nat → decode_socksaddr (take 5 enc) = Err (EIo UnexpectedEof)).
Proof. apply (socksaddr_roundtrip (Domain (str "example.com") 443)); [by_decide|reflexivity]. Defined.

Lemma split_none c l : c ∉ l → split c l = [l].
Proof.
  induction l as [|b l IH]; [done|]. intros [Hb Hl]%not_elem_of_cons. simpl.
  destruct (Z.eqb_spec b c); [done|]. by rw IH.
Qed.

Lemma split_app c p q : c ∉ p → split c (p ++ c :: q) = p :: split c q.
Proof.
  induction p as [|b p IH]; simpl; [by rw Z.eqb_refl|]. intros [Hb Hl]%not_elem_of_cons.
  destruct (Z.eqb_spec b c); [done|]. by rw IH.
Qed.

Lemma client_settings_lines md5 :
  LF ∉ md5 → split LF (client_settings_with_padding_md5 md5) =
    [str "v=2"; str "client=rtunnel"; str "padding-md5=" ++ md5].
Proof.
  intros Hmd5. rw /client_settings_with_padding_md5.
  rw (split_app LF (str "v=2")); [by_decide|]. rw (split_app LF (str "client=rtunnel")); [by_decide|].
  rw split_none; [|done]. apply not_elem_of_app. split; [by_decide|done].
Qed.

(** The settings a client sends announce version 2 and its padding scheme:
    the server reads back the very MD5 the client put in. *)
Lemma settings_roundtrip md5 :
  utf8_valid md5 = true → LF ∉ md5 →
  settings_version (client_settings_with_padding_md5 md5) = Some 2 ∧
  settings_value (client_settings_with_padding_md5 md5) (str "padding-md5") = Some md5.
Proof.
  intros Hu Hmd5. rw /settings_version /settings_value.
  assert (Hv : utf8_valid (client_settings_with_padding_md5 md5) = true) by exact Hu.
  assert (Hl : lines (client_settings_with_padding_md5 md5) =
    [str "v=2"; str "client=rtunnel"; str "padding-md5=" ++ md5]).
  { rw /lines client_settings_lines; [done|reflexivity]. }
  rw Hv Hl. split; reflexivity.
Qed.

Lemma settings_roundtrip_witness :
  settings_version client_settings = Some 2 ∧
  settings_value client_settings (str "padding-md5") = Some DEFAULT_PADDING_MD5.
Proof. apply settings_roundtrip; [reflexivity|by_decide]. Defined.
