(* ===== verification/AnytlsFrames.v ===== *)
(** * Frames read off a connection

    What reading a frame tells of the bytes, and the payload a sequence of
    frames carries for a stream. *)
From S2P Require Import Prelude Io Text Net Config Socks5Codec AnytlsCodec.

Definition frames_of (command sid : Z) (fs : list Frame) : nat :=
  length (filter (λ f, frame_command f = command ∧ frame_stream_id f = sid) fs).
Lemma frames_of_snoc c sid fs f :
  frames_of c sid (fs ++ [f]) =
    (frames_of c sid fs + if decide (frame_command f = c ∧ frame_stream_id f = sid) then 1 else 0)%nat.
Proof. rw /frames_of filter_app length_app. f_equal. by case_decide; rw filter_cons; case_decide. Qed.


(** The payload the frames carry for a stream. *)
Definition psh_data (sid : Z) (fs : list Frame) : bytes :=
  concat ((λ f, if decide (frame_command f = CMD_PSH ∧ frame_stream_id f = sid) then frame_data f else []) <$> fs).
Lemma psh_data_snoc sid fs f :
  psh_data sid (fs ++ [f]) =
    psh_data sid fs ++ if decide (frame_command f = CMD_PSH ∧ frame_stream_id f = sid) then frame_data f else [].
Proof. by rw /psh_data fmap_app concat_app /= app_nil_r. Qed.


Lemma wf_bytes_suffix l k : wf_bytes (l ++ k) → wf_bytes k.
Proof. by intros [_ ?]%wf_bytes_app. Qed.

Ltac wf_list := rw /wf_bytes !Forall_cons Forall_nil; done.

Section frames.
Context `{!AnytlsCore, !AnytlsLaws}.

Lemma wire_length f : (7 ≤ length (wire f))%nat.
Proof. rw /wire /frame_wire !length_app !be_bytes_length /=. lia. Qed.

Lemma wires_cons_length f fs : length (wires (f :: fs)) = (length (wire f) + length (wires fs))%nat.
Proof. by rw wires_cons length_app. Qed.

(** A frame read is a frame of the wire. *)
Lemma read_frame_inv (s : Stream) f s' :
  wf_bytes (rx s) → read_frame s = (Ok f, s') →
  wf_frame f ∧ rx s = wire f ++ rx s' ∧ wf_bytes (rx s') ∧ tx s' = tx s ∧ room s' = room s.
Proof.
  intros Hwf Hrun. assert (Hg : good s) by done. rw /read_frame frame_header_len in Hrun.
  apply SE_bind_inv in Hrun as (hd & s1 & H1 & Hrun). apply adv_exact in H1 as (Ha & Hl & Hw); [|done].
  destruct hd as [|c [|a1 [|a2 [|a3 [|a4 [|l1 [|l2 [|]]]]]]]]; try done. cbv beta zeta in Hrun.
  apply SE_bind_inv in Hrun as (raw & s2 & H2 & Hrun).
  pose proof Hw as Hw'. rw /wf_bytes !Forall_cons in Hw'. destruct Hw' as (Hc & H1' & H2' & H3' & H4' & Hl1 & Hl2 & _).
  assert (Hlen : is_u16 (be_val [l1; l2])) by (apply be_val_u16; [wf_list|done]).
  assert (∃ body, raw = [c; a1; a2; a3; a4; l1; l2] ++ body ∧ len body = be_val [l1; l2] ∧ adv s1 body s2)
    as (body & -> & Hb & Ha2).
  { change (([c; a1; a2; a3; a4; l1; l2] : bytes) !!! 5%nat) with l1 in H2.
    change (([c; a1; a2; a3; a4; l1; l2] : bytes) !!! 6%nat) with l2 in H2. destruct (Z.ltb_spec 0 (be_val [l1; l2])) as [Hpos|Hz].
    - apply SE_bind_inv in H2 as (body & s3 & H2 & [= <- <-]).
      apply adv_exact in H2 as (Ha2 & Hl2' & _); [|eauto with reading]. exists body. split_and!; [done| |done].
      rw /len Hl2' Z2Nat.id; [lia|done].
    - injection H2 as <- <-. exists []. split_and!; [done|rw /len /=; destruct Hlen; lia|].
      split_and!; [done|eauto with reading|done]. }
  set (sid := be_val [a1; a2; a3; a4]).
  assert (Hsid : is_u32 sid).
  { pose proof (be_val_bound [a1; a2; a3; a4]) as Hs. rw /is_u32. unfold sid. change (256 ^ len [a1; a2; a3; a4]) with (2 ^ 32) in Hs.
    apply Hs. wf_list. }
  assert (Hraw : [c; a1; a2; a3; a4; l1; l2] ++ body = frame_wire c sid body).
  { rw /frame_wire Hb (be_bytes_val [l1; l2]); [wf_list|].
    unfold sid. by rw (be_bytes_val [a1; a2; a3; a4]); [wf_list|]. }
  rw Hraw in Hrun. assert (Hmax : len body ≤ U16_MAX) by (rw Hb /U16_MAX; destruct Hlen; lia).
  destruct (frame_layout c sid body Hc Hsid Hmax) as [_ Hfrom]. rw Hfrom in Hrun.
  injection Hrun as <- <-. destruct (adv_trans _ _ _ _ _ Ha Ha2) as (Hp & [_ Hg2] & [= -> ->]).
  split; [done|]. split; [|done]. simpl in Hp. rw Hp /wire. cbn [frame_command frame_stream_id frame_data]. by rw -Hraw.
Qed.

(** Reading only takes bytes off the input. *)
Definition behind (c0 c : Stream) : Prop := (∃ l, rx c0 = l ++ rx c) ∧ tx c = tx c0 ∧ room c = room c0.
Lemma behind_read c0 n : keeps (behind c0) (stream_read_exact n).
Proof.
  intros c [(l & Hl) Hrest]. rw /stream_read_exact. case_decide; (split; [|done]); simpl.
  - exists (l ++ take n (rx c)). by rw -app_assoc take_drop.
  - exists (l ++ rx c). by rw app_nil_r.
Qed.
#[local] Hint Resolve behind_read : keeping.

Lemma read_frame_behind (c c' : Stream) r : read_frame c = (r, c') → behind c c'.
Proof.
  intros E. assert (Hk : keeps (behind c) read_frame) by (rw /read_frame /=; keep_walk).
  specialize (Hk c). rw E in Hk. destruct r; apply Hk; (split; [by exists []|done]).
Qed.
End frames.
