(* ===== verification/AnytlsWriter.v ===== *)
(** * The AnyTLS client's writer (src/protocol/anytls/outbound.rs)

    [ClientWriter]: frames are buffered or written; the first packets of a
    connection are shaped by the padding plan in force. *)
From S2P Require Import Prelude Io Text Net Config Socks5Codec AnytlsCodec.

Record ClientWriter := MkWriter {
  cw_inner : Stream;
  cw_buffer : bytes;
  packet_counter : Z;
  send_padding : bool;
}.

Definition on_inner {A} (m : SE Stream A) : SE ClientWriter A := λ w,
  let '(r, c) := m (cw_inner w) in (r, MkWriter c (cw_buffer w) (packet_counter w) (send_padding w)).

Section writer.
Context `{!AnytlsCore}.

Definition writer_new (inner : Stream) (initial_buffer : bytes) : ClientWriter :=
  MkWriter inner initial_buffer 0 true.

Definition writer_buffer_frame (command stream_id : Z) (data : bytes) : SE ClientWriter () :=
  frame ← lift (encode_frame command stream_id data);
  modify (λ w, MkWriter (cw_inner w) (cw_buffer w ++ frame) (packet_counter w) (send_padding w)).

(** [draw] stands for the random sizes drawn for the packet. *)
Definition write_conn (data : bytes) (padding : PaddingPlan) (draw : nat) : SE ClientWriter () :=
  buffered ← gets cw_buffer;
  modify (λ w, MkWriter (cw_inner w) [] (packet_counter w) (send_padding w)) ;;
  let data := if bool_decide (buffered = []) then data else buffered ++ data in
  pad ← gets send_padding;
  if (pad : bool) then
    modify (λ w, MkWriter (cw_inner w) (cw_buffer w) (wrapping_add_u32 (packet_counter w) 1) (send_padding w)) ;;
    counter ← gets packet_counter;
    if counter <? plan_stop padding then
      records ← lift (shape_packet_payload data counter padding draw);
      for_each (λ record, on_inner (write_all record)) records
    else
      modify (λ w, MkWriter (cw_inner w) (cw_buffer w) (packet_counter w) false) ;;
      on_inner (write_all data)
  else on_inner (write_all data).

Definition writer_write_frame (command stream_id : Z) (data : bytes) (padding : PaddingPlan) (draw : nat)
  : SE ClientWriter () :=
  frame ← lift (encode_frame command stream_id data);
  write_conn frame padding draw.
End writer.

(** ** What the peer reads *)

(** The calls the session makes. *)
Inductive WriterOp `{!AnytlsCore} :=
  | WBuffer (f : Frame)
  | WWrite (f : Frame) (plan : PaddingPlan) (draw : nat).

Section refinement.
Context `{!AnytlsCore, !AnytlsLaws}.

Definition writer_op (op : WriterOp) : SE ClientWriter () :=
  match op with
  | WBuffer f => writer_buffer_frame (frame_command f) (frame_stream_id f) (frame_data f)
  | WWrite f plan draw => writer_write_frame (frame_command f) (frame_stream_id f) (frame_data f) plan draw
  end.
Definition op_frame (op : WriterOp) : Frame := match op with WBuffer f | WWrite f _ _ => f end.

(** The sizes a plan draws fit a frame. *)
Definition plan_ok (plan : PaddingPlan) : Prop :=
  ∀ packet draw, Forall (λ s, ∀ n, s = StepSize n → Z.of_nat n ≤ U16_MAX)
    (generate_record_payload_steps plan packet draw).
Definition op_ok (op : WriterOp) : Prop :=
  wf_frame (op_frame op) ∧ frame_command (op_frame op) ≠ CMD_WASTE ∧
  match op with WBuffer _ => True | WWrite _ plan _ => plan_ok plan end.

Lemma write_records records buf pc sp r t k :
  (length (concat records) ≤ k)%nat →
  for_each (λ record, on_inner (write_all record)) records (MkWriter (MkStream r t k) buf pc sp) =
    (Ok (), MkWriter (MkStream r (t ++ concat records) (k - length (concat records))) buf pc sp).
Proof.
  revert t k. induction records as [|x l IH]; intros t k Hk; simpl in *.
  { by rw app_nil_r Nat.sub_0_r. }
  rw length_app in Hk. rw {1}/mbind {1}/SE_bind {1}/on_inner /=. rw write_all_ok; [lia|]. rw IH; [lia|].
  by rw -app_assoc length_app Nat.sub_add_distr.
Qed.

Lemma shape_ok payload packet plan draw :
  plan_ok plan → ∃ records, shape_packet_payload payload packet plan draw = Ok records.
Proof.
  intros Hp. rw /shape_packet_payload. case_bool_decide; [by eexists|].
  destruct (shape_steps_total _ payload [] (Hp packet draw)) as (rs & q & E). rw E /=. by eexists.
Qed.

(** One call that writes: the buffer, the data and perhaps waste leave. *)
Lemma write_conn_talks data plan draw buf pc sp :
  plan_ok plan →
  ∃ ns pc' sp', Forall waste_size ns ∧ ∀ r t k,
    (length (buf ++ data ++ wastes ns) ≤ k)%nat →
    write_conn data plan draw (MkWriter (MkStream r t k) buf pc sp) =
      (Ok (), MkWriter (MkStream r (t ++ buf ++ data ++ wastes ns) (k - length (buf ++ data ++ wastes ns))) [] pc' sp').
Proof.
  intros Hp. set (all := if bool_decide (buf = []) then data else buf ++ data).
  assert (Hall : all = buf ++ data) by (unfold all; case_bool_decide; by subst).
  assert (Hplain : ∀ pc sp r t k, (length (buf ++ data ++ wastes []) ≤ k)%nat →
    on_inner (write_all all) (MkWriter (MkStream r t k) [] pc sp) =
      (Ok (), MkWriter (MkStream r (t ++ buf ++ data ++ wastes []) (k - length (buf ++ data ++ wastes []))) [] pc sp)).
  { intros pc0 sp0 r t k. rw /wastes /= app_nil_r -Hall. intros Hk. rw /on_inner /=. by rw write_all_ok. }
  destruct sp; [destruct (Z.ltb_spec (wrapping_add_u32 pc 1) (plan_stop plan)) as [Hlt|Hge]|].
  - destruct (shape_ok all (wrapping_add_u32 pc 1) plan draw Hp) as [records Hrec].
    destruct (shape_concat _ _ _ _ _ Hrec) as (ns & Hns & Hcat). exists ns, (wrapping_add_u32 pc 1), true. split; [done|].
    intros r t k Hk. rw /write_conn /mbind /SE_bind /=. rw (proj2 (Z.ltb_lt _ _) Hlt) -/all Hrec /=.
    rw app_assoc -Hall -Hcat in Hk *. by apply write_records.
  - exists [], (wrapping_add_u32 pc 1), false. split; [done|]. intros r t k Hk.
    rw /write_conn /mbind /SE_bind /=. rw (proj2 (Z.ltb_ge _ _) Hge). by apply Hplain.
  - exists [], pc, false. split; [done|]. intros r t k Hk. rw /write_conn /mbind /SE_bind /=. by apply Hplain.
Qed.

(** The frames that carry something. *)
Definition proper_frames (fs : list Frame) : list Frame := filter (λ f, frame_command f ≠ CMD_WASTE) fs.
Definition flushed (ops : list WriterOp) : bool :=
  match last ops with Some (WWrite _ _ _) => true | _ => false end.

Lemma proper_app fs gs : proper_frames (fs ++ gs) = proper_frames fs ++ proper_frames gs.
Proof. apply filter_app. Qed.
Lemma proper_wastes ns : proper_frames (waste <$> ns) = [].
Proof. rw /proper_frames. induction ns as [|n ns IH]; [done|]. rw fmap_cons filter_cons_False; [by intros H'; apply H'|done]. Qed.
Lemma proper_all fs : Forall (λ f, frame_command f ≠ CMD_WASTE) fs → proper_frames fs = fs.
Proof. rw /proper_frames. induction 1 as [|f fs Hf _ IH]; [done|]. by rw filter_cons_True; [done|]; rw IH. Qed.

Definition writes_frames (ops : list WriterOp) (buf : list Frame) (pc : Z) (sp : bool)
    (sent pending : list Frame) (pc' : Z) (sp' : bool) : Prop :=
  ∀ r t k, (length (wires sent) ≤ k)%nat →
    for_each writer_op ops (MkWriter (MkStream r t k) (wires buf) pc sp) =
      (Ok (), MkWriter (MkStream r (t ++ wires sent) (k - length (wires sent))) (wires pending) pc' sp').

Lemma buffer_step f buf pc sp c :
  wf_frame f → writer_op (WBuffer f) (MkWriter c (wires buf) pc sp) = (Ok (), MkWriter c (wires (buf ++ [f])) pc sp).
Proof.
  intros Hf. rw /writer_op /writer_buffer_frame encode_frame_ok; [done|].
  rw /mbind /SE_bind /lift /modify /= wires_app /wires /= app_nil_r. done.
Qed.

Lemma write_step f plan draw buf pc sp :
  wf_frame f → plan_ok plan →
  ∃ ns pc' sp', Forall waste_size ns ∧
    writes_frames [WWrite f plan draw] buf pc sp (buf ++ [f] ++ (waste <$> ns)) [] pc' sp'.
Proof.
  intros Hf Hp. destruct (write_conn_talks (wire f) plan draw (wires buf) pc sp Hp) as (ns & pc' & sp' & Hns & E).
  exists ns, pc', sp'. split; [done|]. intros r t k Hk.
  assert (Heq : wires (buf ++ [f] ++ (waste <$> ns)) = wires buf ++ wire f ++ wastes ns)
    by by rw !wires_app wastes_wires /wires /= app_nil_r.
  rw Heq in Hk *. cbn [for_each writer_op]. rw /writer_write_frame encode_frame_ok; [done|].
  rw {1}/mbind {1}/SE_bind {1}/mbind {1}/SE_bind {1}/lift. by rw E.
Qed.

Lemma writer_run ops buf pc sp :
  Forall op_ok ops → Forall wf_frame buf → Forall (λ f, frame_command f ≠ CMD_WASTE) buf →
  ∃ sent pending pc' sp', writes_frames ops buf pc sp sent pending pc' sp' ∧ Forall wf_frame sent ∧
    proper_frames sent ++ pending = buf ++ (op_frame <$> ops) ∧ (flushed ops = true → pending = []).
Proof.
  intros Hops. revert buf pc sp. induction Hops as [|op ops (Hwf & Hne & Hplan) _ IH]; intros buf pc sp Hb Hbn.
  { exists [], buf, pc, sp. split_and!; [|done| |done].
    - intros r t k _. by rw /= app_nil_r Nat.sub_0_r.
    - by rw /= app_nil_r. }
  destruct op as [f|f plan draw]; simpl in *.
  - destruct (IH (buf ++ [f]) pc sp) as (sent & pending & pc' & sp' & Hw & Hs & Heq & Hf);
      [by apply Forall_snoc|by apply Forall_snoc|].
    exists sent, pending, pc', sp'. split_and!; [|done|by rw Heq -app_assoc|].
    + intros r t k Hk. cbn [for_each]. by rw (SE_bind_ok _ _ _ _ _ (buffer_step f buf pc sp _ Hwf)) Hw.
    + intros Hfl. apply Hf. destruct ops; [done|exact Hfl].
  - destruct (write_step f plan draw buf pc sp Hwf Hplan) as (ns & pc1 & sp1 & Hns & H1).
    destruct (IH [] pc1 sp1) as (sent & pending & pc' & sp' & Hw & Hs & Heq & Hf); [done..|].
    exists ((buf ++ [f] ++ (waste <$> ns)) ++ sent), pending, pc', sp'. split_and!.
    + intros r t k Hk. rw wires_app length_app in Hk.
      rw (for_each_app writer_op [_] ops _ _ (H1 r t k ltac:(lia))) Hw; [lia|].
      by rw (wires_app (buf ++ _) sent) -app_assoc length_app Nat.sub_add_distr.
    + repeat (apply Forall_app; split); [done|by constructor|by apply wastes_wf|done].
    + rw !proper_app proper_wastes (proper_all buf Hbn) (proper_all [f]); [by constructor|].
      by rw app_nil_r -!app_assoc Heq.
    + intros Hfl. destruct ops as [|op ops]; [|by apply Hf].
      by apply app_nil in Heq as [_ ->].
Qed.

(** ** Without knowing what is drawn *)

(** Whatever the plan draws, calls that succeed have written whole frames. *)
Lemma records_written records w w' :
  for_each (λ record, on_inner (write_all record)) records w = (Ok (), w') →
  tx (cw_inner w') = tx (cw_inner w) ++ concat records ∧ cw_buffer w' = cw_buffer w.
Proof.
  revert w. induction records as [|x l IH]; intros w; cbn [for_each].
  { intros [= <-]. by rw app_nil_r. }
  intros ([] & w1 & H1 & H2)%SE_bind_inv. apply IH in H2 as [-> ->]. rw /on_inner /write_all in H1.
  case_decide; [|done]. injection H1 as <-. by rw /= -app_assoc.
Qed.

Lemma conn_written data plan draw w w' :
  write_conn data plan draw w = (Ok (), w') →
  ∃ ns, Forall waste_size ns ∧ tx (cw_inner w') = tx (cw_inner w) ++ cw_buffer w ++ data ++ wastes ns ∧ cw_buffer w' = [].
Proof.
  destruct w as [c buf pc sp]. set (all := if bool_decide (buf = []) then data else buf ++ data).
  assert (Hall : all = buf ++ data) by (unfold all; case_bool_decide; by subst).
  assert (Hplain : ∀ pc sp w', on_inner (write_all all) (MkWriter c [] pc sp) = (Ok (), w') →
    ∃ ns, Forall waste_size ns ∧ tx (cw_inner w') = tx c ++ buf ++ data ++ wastes ns ∧ cw_buffer w' = []).
  { intros pc0 sp0 w1 H1. exists []. rw /wastes /= app_nil_r -Hall. rw /on_inner /write_all /= in H1.
    case_decide; [|done]. by injection H1 as <-. }
  rw /write_conn /mbind /SE_bind /gets /modify /= -/all. destruct sp; [|by apply Hplain].
  destruct (_ <? _); [|by apply Hplain]. rw /lift.
  destruct (shape_packet_payload _ _ _ _) as [records|] eqn:Hrec; [|done]. intros [H1 H2]%records_written. cbn in H1, H2.
  destruct (shape_concat _ _ _ _ _ Hrec) as (ns & Hns & Hcat). exists ns. split; [done|]. split; [|done].
  by rw H1 Hcat Hall -app_assoc.
Qed.

Definition op_frame_ok (op : WriterOp) : Prop := wf_frame (op_frame op) ∧ frame_command (op_frame op) ≠ CMD_WASTE.

Lemma ops_written ops buf w w' :
  Forall op_frame_ok ops → Forall wf_frame buf → Forall (λ f, frame_command f ≠ CMD_WASTE) buf → cw_buffer w = wires buf →
  for_each writer_op ops w = (Ok (), w') →
  ∃ sent pending, Forall wf_frame sent ∧ tx (cw_inner w') = tx (cw_inner w) ++ wires sent ∧ cw_buffer w' = wires pending ∧
    proper_frames sent ++ pending = buf ++ (op_frame <$> ops) ∧ (flushed ops = true → pending = []).
Proof.
  intros Hops. revert buf w. induction Hops as [|op ops (Hwf & Hne) _ IH]; intros buf w Hb Hbn Hbuf; cbn [for_each].
  { intros [= <-]. exists [], buf. by rw /= !app_nil_r. }
  intros ([] & w1 & H1 & H2)%SE_bind_inv. destruct op as [f|f plan draw]; cbn [op_frame] in *.
  - destruct w as [c b pc sp]. cbn in Hbuf. subst b. rw (buffer_step f buf pc sp c Hwf) in H1. injection H1 as <-.
    apply (IH (buf ++ [f])) in H2 as (sent & pending & Hs & Htx & Hp & Heq & Hf); [|by apply Forall_snoc..|done].
    exists sent, pending. split_and!; [done..|by rw Heq -app_assoc|]. intros Hfl. apply Hf. by destruct ops.
  - cbn [writer_op] in H1. rw /writer_write_frame encode_frame_ok in H1; [done|]. rw {1}/mbind {1}/SE_bind {1}/lift in H1.
    apply conn_written in H1 as (ns & Hns & Htx1 & Hb1).
    apply (IH []) in H2 as (sent & pending & Hs & Htx & Hp & Heq & Hf); [|done..].
    exists ((buf ++ [f] ++ (waste <$> ns)) ++ sent), pending. split_and!.
    + repeat (apply Forall_app; split); [done|by constructor|by apply wastes_wf|done].
    + rw Htx Htx1 Hbuf !wires_app wastes_wires /wires /= -!app_assoc /=. done.
    + done.
    + rw !proper_app proper_wastes (proper_all buf Hbn) (proper_all [f]); [by constructor|].
      by rw app_nil_r -!app_assoc Heq.
    + intros Hfl. destruct ops as [|op ops]; [|by apply Hf]. by apply app_nil in Heq as [_ ->].
Qed.

(** C29: The client's writer is a faithful frame sender. Whatever frames are
    buffered or written, under whatever padding plans and draws: when the calls
    succeed, what has left on the connection is a sequence of whole frames that
    without the waste frames is the frames submitted, in order, up to those still
    buffered, and a write leaves nothing in the buffer. And the calls do succeed
    on a connection that takes enough when no size drawn exceeds the sixteen bits
    of a frame's length (a larger one makes the write fail, and what was buffered
    is lost). *)
Theorem writer_sends_frames init ops :
  Forall wf_frame init → Forall (λ f, frame_command f ≠ CMD_WASTE) init → Forall op_frame_ok ops →
  (∀ r t k w, for_each writer_op ops (writer_new (MkStream r t k) (wires init)) = (Ok (), w) →
    ∃ sent pending, Forall wf_frame sent ∧ tx (cw_inner w) = t ++ wires sent ∧ cw_buffer w = wires pending ∧
      proper_frames sent ++ pending = init ++ (op_frame <$> ops) ∧ (flushed ops = true → pending = [])) ∧
  (Forall op_ok ops → ∃ need, ∀ r t k, (need ≤ k)%nat →
    is_ok (for_each writer_op ops (writer_new (MkStream r t k) (wires init))).1 = true).
Proof.
  intros Hi Hn Hops. split.
  - intros r t k w Hrun. by apply (ops_written ops init (writer_new (MkStream r t k) (wires init))).
  - intros Hok. destruct (writer_run ops init 0 true Hok Hi Hn) as (sent & pending & pc & sp & Hw & _).
    exists (length (wires sent)). intros r t k Hk. by rw /writer_new Hw.
Qed.
End refinement.
