(* ===== verification/AnytlsClient.v ===== *)
(** * The AnyTLS client's session (src/protocol/anytls/outbound.rs)

    A [ClientSession]: the streams opened on one connection, the tasks that
    feed and drain them, and the reader that demultiplexes the server's
    frames. Times are arguments, in nanoseconds. *)
From S2P Require Import Prelude Io Text Net Config Socks5Codec AnytlsCodec AnytlsWriter.

(** The channel of a stream: what the reader has sent on it, how much the task
    that writes to the application has received, and whether that task runs. *)
Record ClientChan := MkClientChan { cc_sid : Z; cc_sent : list bytes; cc_taken : nat; cc_open : bool }.
Definition STREAM_CHANNEL_CAPACITY : nat := 32.

(** [dialing] are the identifiers reserved by dials that have not yet inserted
    their stream, [cs_blocked] the send the reader waits in, [reading] whether
    the reader runs. *)
Record ClientSession := MkClientSession {
  cs_id : Z;
  cs_reader : Stream;
  cs_writer : ClientWriter;
  cs_streams : gmap Z nat;
  cs_chans : list ClientChan;
  next_stream_id : Z;
  active_streams : Z;
  last_used : Z;
  closed : bool;
  dialing : list Z;
  cs_blocked : option (Z * nat * bytes);
  reading : bool;
}.
Definition set_cs_reader (v : Stream) (s : ClientSession) : ClientSession :=
  MkClientSession (cs_id s) v (cs_writer s) (cs_streams s) (cs_chans s) (next_stream_id s) (active_streams s) (last_used s) (closed s) (dialing s) (cs_blocked s) (reading s).
Definition set_cs_writer (v : ClientWriter) (s : ClientSession) : ClientSession :=
  MkClientSession (cs_id s) (cs_reader s) v (cs_streams s) (cs_chans s) (next_stream_id s) (active_streams s) (last_used s) (closed s) (dialing s) (cs_blocked s) (reading s).
Definition set_cs_streams (v : gmap Z nat) (s : ClientSession) : ClientSession :=
  MkClientSession (cs_id s) (cs_reader s) (cs_writer s) v (cs_chans s) (next_stream_id s) (active_streams s) (last_used s) (closed s) (dialing s) (cs_blocked s) (reading s).
Definition set_cs_chans (v : list ClientChan) (s : ClientSession) : ClientSession :=
  MkClientSession (cs_id s) (cs_reader s) (cs_writer s) (cs_streams s) v (next_stream_id s) (active_streams s) (last_used s) (closed s) (dialing s) (cs_blocked s) (reading s).
Definition set_next_stream_id (v : Z) (s : ClientSession) : ClientSession :=
  MkClientSession (cs_id s) (cs_reader s) (cs_writer s) (cs_streams s) (cs_chans s) v (active_streams s) (last_used s) (closed s) (dialing s) (cs_blocked s) (reading s).
Definition set_active_streams (v : Z) (s : ClientSession) : ClientSession :=
  MkClientSession (cs_id s) (cs_reader s) (cs_writer s) (cs_streams s) (cs_chans s) (next_stream_id s) v (last_used s) (closed s) (dialing s) (cs_blocked s) (reading s).
Definition set_last_used (v : Z) (s : ClientSession) : ClientSession :=
  MkClientSession (cs_id s) (cs_reader s) (cs_writer s) (cs_streams s) (cs_chans s) (next_stream_id s) (active_streams s) v (closed s) (dialing s) (cs_blocked s) (reading s).
Definition set_closed (v : bool) (s : ClientSession) : ClientSession :=
  MkClientSession (cs_id s) (cs_reader s) (cs_writer s) (cs_streams s) (cs_chans s) (next_stream_id s) (active_streams s) (last_used s) v (dialing s) (cs_blocked s) (reading s).
Definition set_dialing (v : list Z) (s : ClientSession) : ClientSession :=
  MkClientSession (cs_id s) (cs_reader s) (cs_writer s) (cs_streams s) (cs_chans s) (next_stream_id s) (active_streams s) (last_used s) (closed s) v (cs_blocked s) (reading s).
Definition set_cs_blocked (v : option (Z * nat * bytes)) (s : ClientSession) : ClientSession :=
  MkClientSession (cs_id s) (cs_reader s) (cs_writer s) (cs_streams s) (cs_chans s) (next_stream_id s) (active_streams s) (last_used s) (closed s) (dialing s) v (reading s).
Definition set_reading (v : bool) (s : ClientSession) : ClientSession :=
  MkClientSession (cs_id s) (cs_reader s) (cs_writer s) (cs_streams s) (cs_chans s) (next_stream_id s) (active_streams s) (last_used s) (closed s) (dialing s) (cs_blocked s) v.

Section session.
Context `{!AnytlsCore}.

(** [ClientState] *)
Record ClientState := MkClientState {
  padding_md5 : bytes;
  cs_padding0_len : Z;
  padding_plan : PaddingPlan;
}.

Definition state_from_padding_scheme (scheme : list bytes) (draw : nat) : Result ClientState :=
  padding_plan ← parse_padding_plan scheme;
  Ok (MkClientState (factory_md5 (plan_factory padding_plan)) (plan_padding0_len padding_plan draw) padding_plan).
Definition state_new (draw : nat) : Result ClientState := state_from_padding_scheme [] draw.

(** [ClientSession::new] *)
Definition client_session_new (id : Z) (reader : Stream) (writer : Stream) (initial_buffer : bytes) (now : Z) : ClientSession :=
  MkClientSession id reader (writer_new writer initial_buffer) ∅ [] 1 0 now false [] None true.

Definition on_client_writer {A} (m : SE ClientWriter A) : SE ClientSession A := λ s,
  let '(r, w) := m (cs_writer s) in (r, set_cs_writer w s).

Definition touch (now : Z) : SE ClientSession () := modify (set_last_used now).
Definition close : SE ClientSession () := modify (set_closed true).

Definition is_idle_expired (idle_timeout now : Z) (s : ClientSession) : bool :=
  (active_streams s =? 0) && (idle_timeout <? saturating_duration_since now (last_used s)).

Definition reserve_stream (now : Z) : SE ClientSession Z :=
  is_closed ← gets closed;
  lift (ensure (negb is_closed) "anytls session is closed") ;;
  id ← gets next_stream_id;
  modify (set_next_stream_id (wrapping_add_u32 id 1)) ;;
  lift (ensure (negb (id =? 0)) "anytls stream id overflow") ;;
  modify (λ s, set_active_streams (active_streams s + 1) s) ;;
  touch now ;;
  modify (λ s, set_dialing (id :: dialing s) s) ;;
  mret id.

(** The compare-and-exchange loop decrements the counter unless it is zero. *)
Definition release_stream (now : Z) : SE ClientSession () :=
  current ← gets active_streams;
  when (0 <? current) (modify (set_active_streams (current - 1)) ;; touch now).

Definition remove_stream (stream_id now : Z) : SE ClientSession () :=
  entry ← gets (λ s, cs_streams s !! stream_id);
  modify (λ s, set_cs_streams (delete stream_id (cs_streams s)) s) ;;
  match entry with Some _ => release_stream now | None => mret () end.

Definition clear_streams (now : Z) : SE ClientSession () :=
  cleared ← gets (λ s, size (cs_streams s));
  modify (set_cs_streams ∅) ;;
  when (negb (Nat.eqb cleared 0)) (modify (set_active_streams 0) ;; touch now).

(** Shutting the writing side down: nothing more can be written. *)
Definition writer_shutdown : SE ClientWriter () :=
  modify (λ w, MkWriter (MkStream (rx (cw_inner w)) (tx (cw_inner w)) 0) (cw_buffer w) (packet_counter w) (send_padding w)).

Definition session_shutdown (now : Z) : SE ClientSession () :=
  close ;;
  clear_streams now ;;
  on_client_writer writer_shutdown.

(** [plan] is the padding plan in force when the frame is written. *)
Definition session_buffer_frame (command stream_id : Z) (data : bytes) : SE ClientSession () :=
  on_client_writer (writer_buffer_frame command stream_id data).
Definition session_write_frame (command stream_id : Z) (data : bytes) (plan : PaddingPlan) (draw : nat)
  : SE ClientSession () :=
  on_client_writer (writer_write_frame command stream_id data plan draw).

Definition session_write_connect (stream_id : Z) (target : TargetAddr) (plan : PaddingPlan) (draw : nat)
  : SE ClientSession () :=
  session_buffer_frame CMD_SYN stream_id [] ;;
  addr ← lift (encode_socksaddr target);
  session_write_frame CMD_PSH stream_id addr plan draw.

Definition close_stream (stream_id : Z) (plan : PaddingPlan) (draw : nat) (now : Z) : SE ClientSession () :=
  written ← attempt (session_write_frame CMD_FIN stream_id [] plan draw);
  remove_stream stream_id now ;;
  when (negb (is_ok written)) (session_shutdown now).

(** The insertion of [dial]: a new channel for the reserved identifier. *)
Definition insert_client_stream (stream_id : Z) : SE ClientSession () := λ s,
  (Ok (), set_dialing (filter (λ id, id ≠ stream_id) (dialing s))
            (set_cs_streams (<[stream_id := length (cs_chans s)]> (cs_streams s))
              (set_cs_chans (cs_chans s ++ [MkClientChan stream_id [] 0 true]) s))).

(** [tx.send(data).await] on the [i]-th channel: the error when its task is
    gone; the reader waits when it is full. *)
Definition client_chan_send (stream_id : Z) (i : nat) (data : bytes) : SE ClientSession bool := λ s,
  match cs_chans s !! i with
  | Some c =>
      if negb (cc_open c) then (Ok false, s)
      else if Nat.ltb (length (cc_sent c) - cc_taken c) STREAM_CHANNEL_CAPACITY then
        (Ok true, set_cs_chans (<[i := MkClientChan (cc_sid c) (cc_sent c ++ [data]) (cc_taken c) true]> (cs_chans s)) s)
      else (Ok true, set_cs_blocked (Some (stream_id, i, data)) s)
  | None => (Ok false, s)
  end.

Definition deliver (stream_id : Z) (i : nat) (data : bytes) (now : Z) : SE ClientSession () :=
  sent ← client_chan_send stream_id i data;
  when (negb sent) (remove_stream stream_id now).

(** The body of [run_reader] for one frame; [Some] is the new client state.
    [true] ends the loop. *)
Definition reader_frame (frame : Frame) (plan : PaddingPlan) (draw : nat) (now : Z)
  : SE ClientSession (bool * option ClientState) :=
  let command := frame_command frame in
  let stream_id := frame_stream_id frame in
  if command =? CMD_PSH then
    tx ← gets (λ s, cs_streams s !! stream_id);
    match tx with
    | Some i => deliver stream_id i (frame_data frame) now ;; mret (false, None)
    | None => mret (false, None)
    end
  else if command =? CMD_FIN then remove_stream stream_id now ;; mret (false, None)
  else if (command =? CMD_SYNACK) && negb (bool_decide (frame_data frame = [])) then
    remove_stream stream_id now ;; mret (false, None)
  else if command =? CMD_HEART_REQUEST then
    attempt (session_write_frame CMD_HEART_RESPONSE stream_id [] plan draw) ;; mret (false, None)
  else if command =? CMD_UPDATE_PADDING_SCHEME then
    if utf8_valid (frame_data frame) then
      mret (false, ok (state_from_padding_scheme (lines (frame_data frame)) draw))
    else mret (false, None)
  else if command =? CMD_ALERT then mret (true, None)
  else mret (false, None).

(** The end of [run_reader]. *)
Definition reader_stops (now : Z) : SE ClientSession () :=
  close ;; clear_streams now ;; modify (set_reading false).

(** One round of [run_reader]. *)
Definition on_reader {A} (m : SE Stream A) : SE ClientSession A := λ s,
  let '(r, c) := m (cs_reader s) in (r, set_cs_reader c s).
Definition run_reader_round (plan : PaddingPlan) (draw : nat) (now : Z) : SE ClientSession (option ClientState) :=
  running ← gets reading;
  if negb running then mret None
  else
    waiting ← gets cs_blocked;
    match waiting with
    | Some (stream_id, i, data) =>
        modify (set_cs_blocked None) ;; deliver stream_id i data now ;; mret None
    | None =>
        frame ← attempt (on_reader read_frame);
        match frame with
        | Ok frame =>
            '(stop, state) ← reader_frame frame plan draw now;
            when stop (reader_stops now) ;;
            mret state
        | Err _ => reader_stops now ;; mret None
        end
    end.

(** A round of the task that reads the application's side of a stream. *)
Definition app_reader_round (stream_id : Z) (read : Result bytes) (plan : PaddingPlan) (draw : nat) (now : Z)
  : SE ClientSession () :=
  match read with
  | Ok (b :: data) =>
      written ← attempt (session_write_frame CMD_PSH stream_id (b :: data) plan draw);
      when (negb (is_ok written)) (session_shutdown now)
  | _ => close_stream stream_id plan draw now
  end.

(** What can happen next on a session: a dial reserves an identifier, inserts
    its stream, announces its target; a task reads the application's side; the
    reader runs a round; the task that writes to the application receives a
    chunk or ends; the pool shuts the session down. *)
Inductive ClientEvent :=
  | CReserve (now : Z)
  | CInsert (stream_id : Z)
  | CConnect (stream_id : Z) (target : TargetAddr) (plan : PaddingPlan) (draw : nat) (now : Z)
  | CAppRead (stream_id : Z) (read : Result bytes) (plan : PaddingPlan) (draw : nat) (now : Z)
  | CReader (plan : PaddingPlan) (draw : nat) (now : Z)
  | CTake (i : nat)
  | CAppWriterEnds (i : nat) (now : Z)
  | CShutdown (now : Z).

Definition alter_client_chan (f : ClientChan → ClientChan) (i : nat) : SE ClientSession () :=
  modify (λ s, set_cs_chans (alter f i (cs_chans s)) s).

Definition client_event (ev : ClientEvent) : SE ClientSession () :=
  match ev with
  | CReserve now => attempt (reserve_stream now) ;; mret ()
  | CInsert stream_id =>
      ids ← gets dialing;
      when (bool_decide (stream_id ∈ ids)) (insert_client_stream stream_id)
  | CConnect stream_id target plan draw now =>
      written ← attempt (session_write_connect stream_id target plan draw);
      when (negb (is_ok written)) (session_shutdown now)
  | CAppRead stream_id read plan draw now => app_reader_round stream_id read plan draw now
  | CReader plan draw now => run_reader_round plan draw now ;; mret ()
  | CTake i =>
      alter_client_chan (λ c, MkClientChan (cc_sid c) (cc_sent c) (Nat.min (length (cc_sent c)) (S (cc_taken c))) (cc_open c)) i
  | CAppWriterEnds i now =>
      chan ← gets (λ s, cs_chans s !! i);
      alter_client_chan (λ c, MkClientChan (cc_sid c) (cc_sent c) (cc_taken c) false) i ;;
      match chan with Some c => remove_stream (cc_sid c) now | None => mret () end
  | CShutdown now => session_shutdown now
  end.

Definition client_run (s : ClientSession) (evs : list ClientEvent) : ClientSession :=
  fold_left (λ s ev, (client_event ev s).2) evs s.
End session.
