(* ===== verification/AnytlsClientStreams.v ===== *)
(** * The AnyTLS client's session: what every interleaving keeps

    Stream identifiers are never used twice, the count of active streams that
    the pool relies on is exact while the session is open, and what a stream's
    channel has been given is the payload of its frames, in order. *)
From S2P Require Import Prelude Io Text Net Config Socks5Codec AnytlsCodec AnytlsFrames AnytlsWriter AnytlsClient.

Section counts.
Context `{!AnytlsCore, !AnytlsLaws}.

(** After [n] reservations: the identifiers of streams and dials are among
    1..[n], no two the same, and an open session counts them. *)
Record counted (n : nat) (s : ClientSession) : Prop := {
  ct_next : next_stream_id s = Z.of_nat n + 1;
  ct_dialing : Forall (λ id, 1 ≤ id ≤ Z.of_nat n) (dialing s);
  ct_nodup : NoDup (dialing s);
  ct_streams sid i : cs_streams s !! sid = Some i →
    1 ≤ sid ≤ Z.of_nat n ∧ (sid ∉ dialing s) ∧ ∃ c, cs_chans s !! i = Some c ∧ cc_sid c = sid;
  ct_nonneg : 0 ≤ active_streams s;
  ct_active : closed s = false → active_streams s = Z.of_nat (size (cs_streams s) + length (dialing s));
}.

(** Channels keep the stream they were made for. *)
Definition chans_grow (l l' : list ClientChan) : Prop :=
  ∀ i c, l !! i = Some c → ∃ c', l' !! i = Some c' ∧ cc_sid c' = cc_sid c.
Lemma chans_grow_refl l : chans_grow l l.
Proof. intros i c Hi. by exists c. Qed.
Lemma chans_grow_snoc l c : chans_grow l (l ++ [c]).
Proof. intros i d Hi. exists d. rw lookup_app_l; [by eapply lookup_lt_Some|done]. Qed.
Lemma chans_grow_insert l i c d : l !! i = Some c → cc_sid d = cc_sid c → chans_grow l (<[i := d]> l).
Proof.
  intros Hi Hd j e Hj. destruct (decide (i = j)) as [->|Hne].
  - rw Hi in Hj. injection Hj as <-. exists d. rw list_lookup_insert_eq; [by eapply lookup_lt_Some|done].
  - exists e. by rw list_lookup_insert_ne.
Qed.
Lemma chans_grow_alter l f i : (∀ c, cc_sid (f c) = cc_sid c) → chans_grow l (alter f i l).
Proof.
  intros Hf j c Hj. destruct (decide (i = j)) as [->|Hne].
  - exists (f c). by rw list_lookup_alter_eq Hj Hf.
  - exists c. by rw list_lookup_alter_ne.
Qed.

(** An operation that touches neither the identifiers nor the counts. *)
Lemma counted_frame n s s' :
  counted n s → next_stream_id s' = next_stream_id s → dialing s' = dialing s → cs_streams s' = cs_streams s →
  active_streams s' = active_streams s → closed s' = closed s → chans_grow (cs_chans s) (cs_chans s') → counted n s'.
Proof.
  intros [H1 H2 H3 H4 H5 H6] E1 E2 E3 E4 E5 Hg. split; rw ?E1 ?E2 ?E3 ?E4 ?E5; try done.
  intros sid i Hi. destruct (H4 sid i Hi) as (Hr & Hd & c & Hc & Hs). split; [done|split; [done|]].
  destruct (Hg i c Hc) as (c' & Hc' & Hs'). exists c'. by rw Hs'.
Qed.

Lemma counted_remove n sid now : keeps (counted n) (remove_stream sid now).
Proof.
  intros s Hs. pose proof Hs as [H1 H2 H3 H4 H5 H6]. rw /remove_stream /mbind /SE_bind /gets /modify.
  destruct (cs_streams s !! sid) as [i|] eqn:Hi; simpl.
  - assert (Hsize : size (cs_streams s) = S (size (delete sid (cs_streams s)))).
    { rw -{1}(insert_delete_id _ _ _ Hi) map_size_insert_None; [apply lookup_delete_eq|done]. }
    rw /release_stream /when /touch /mbind /SE_bind /gets /modify /=. destruct (Z.ltb_spec 0 (active_streams s)) as [Hpos|Hz].
    + split; simpl; [done..| |lia|intros Hc; rw H6 // Hsize; lia].
      intros k j. rw lookup_delete_Some. intros [_ Hk]. by apply H4.
    + split; simpl; [done..| |done|intros Hc; specialize (H6 Hc); lia].
      intros k j. rw lookup_delete_Some. intros [_ Hk]. by apply H4.
  - rw delete_id; [done|]. by eapply counted_frame; [..|apply chans_grow_refl].
Qed.

Lemma counted_closing n now :
  keeps (λ s, counted n s ∧ closed s = true) (clear_streams now).
Proof.
  intros s [[H1 H2 H3 H4 H5 H6] Hc]. rw /clear_streams /when /touch /mbind /SE_bind /gets /modify /=.
  destruct (negb _); (split; [|done]); split; simpl; try done; congruence.
Qed.
Lemma counted_close n : triple (counted n) close (λ _ s, counted n s ∧ closed s = true) (counted n).
Proof. intros s [H1 H2 H3 H4 H5 H6]. simpl. split; [|done]. by split. Qed.

Lemma counted_writer {A} n (m : SE ClientWriter A) : keeps (counted n) (on_client_writer m).
Proof.
  intros s Hs. rw /on_client_writer. destruct (m (cs_writer s)) as [[a|e] w];
    (eapply counted_frame; [exact Hs|done..|apply chans_grow_refl]).
Qed.

Lemma counted_stop n now (m : SE ClientSession ()) :
  keeps (counted n) m → keeps (counted n) (close ;; clear_streams now ;; m).
Proof.
  intros Hm. eapply triple_bind; [apply counted_close|]. intros [].
  eapply (triple_bind _ _ _ (λ _ s, counted n s)); [|intros []; exact Hm].
  eapply triple_conseq; [|apply counted_closing|by intros ? ? []|by intros ? []]. done.
Qed.
Lemma counted_shutdown n now : keeps (counted n) (session_shutdown now).
Proof. apply counted_stop, counted_writer. Qed.
Lemma counted_reader_stops n now : keeps (counted n) (reader_stops now).
Proof. apply counted_stop. intros s Hs. eapply counted_frame; [exact Hs|done..|apply chans_grow_refl]. Qed.

Lemma counted_deliver n sid i data now : keeps (counted n) (deliver sid i data now).
Proof.
  apply keeps_bind; [|intros b; apply keeps_when, counted_remove]. intros s Hs. rw /client_chan_send.
  destruct (cs_chans s !! i) as [c|] eqn:Hi; [|done]. destruct (negb (cc_open c)); [done|].
  destruct (Nat.ltb _ _); (eapply counted_frame; [exact Hs|done..|]); [by eapply chans_grow_insert|apply chans_grow_refl].
Qed.
Lemma counted_reader {A} n (m : SE Stream A) : keeps (counted n) (on_reader m).
Proof.
  intros s Hs. rw /on_reader. destruct (m (cs_reader s)) as [[a|e] c];
    (eapply counted_frame; [exact Hs|done..|apply chans_grow_refl]).
Qed.
Lemma counted_blocked n v : keeps (counted n) (modify (set_cs_blocked v)).
Proof. intros s Hs. eapply counted_frame; [exact Hs|done..|apply chans_grow_refl]. Qed.
Lemma counted_alter n f i : (∀ c, cc_sid (f c) = cc_sid c) → keeps (counted n) (alter_client_chan f i).
Proof. intros Hf s Hs. eapply counted_frame; [exact Hs|done..|by apply chans_grow_alter]. Qed.
#[local] Hint Resolve counted_remove counted_writer counted_shutdown counted_reader_stops counted_deliver
  counted_reader counted_blocked : keeping.

Lemma counted_reader_round n plan draw now : keeps (counted n) (run_reader_round plan draw now).
Proof. rw /run_reader_round /reader_frame /session_write_frame. keep_walk. Qed.

Lemma counted_insert n sid :
  triple (λ s, counted n s ∧ sid ∈ dialing s) (insert_client_stream sid) (λ _, counted n) (counted n).
Proof.
  intros s [[H1 H2 H3 H4 H5 H6] Hin]. rw /insert_client_stream.
  assert (Hfresh : cs_streams s !! sid = None).
  { destruct (cs_streams s !! sid) as [i|] eqn:E; [|done]. by destruct (H4 _ _ E) as (_ & ? & _). }
  assert (Hlen : length (dialing s) = S (length (filter (λ id, id ≠ sid) (dialing s)))).
  { clear -H3 Hin. induction H3 as [|x l Hx Hl IH]; [by apply not_elem_of_nil in Hin|].
    rw filter_cons. destruct (decide (x ≠ sid)) as [Hne|Heq]; simpl.
    - f_equal. apply IH. apply elem_of_cons in Hin as [->|]; done.
    - f_equal. apply dec_stable in Heq. subst x. clear -Hx. induction l as [|y l IH]; [done|].
      apply not_elem_of_cons in Hx as [Hne Hx]. rw filter_cons_True; [done|]. simpl. f_equal. by apply IH. }
  split; simpl.
  - done.
  - apply Forall_forall. intros x [_ Hx]%list_elem_of_filter. rw Forall_forall in H2. by apply H2.
  - by apply NoDup_filter.
  - intros k i. rw lookup_insert_Some. intros [[<- <-]|[Hne Hk]].
    + split; [by rw Forall_forall in H2; apply H2|split; [by rw list_elem_of_filter; intros [? _]|]].
      exists (MkClientChan sid [] 0 true). by rw lookup_snoc_last.
    + destruct (H4 k i Hk) as (Hr & Hd & c & Hc & Hs). split; [done|split].
      * rw list_elem_of_filter. by intros [_ ?].
      * exists c. rw lookup_app_l; [by eapply lookup_lt_Some|done].
  - done.
  - intros Hc. rw H6 // map_size_insert_None // Hlen. lia.
Qed.

Lemma counted_reserve n now :
  Z.of_nat n + 2 < 2 ^ 32 →
  triple (counted n) (reserve_stream now) (λ id s, counted (S n) s ∧ id = Z.of_nat n + 1) (counted n).
Proof.
  intros Hn s Hs. pose proof Hs as [H1 H2 H3 H4 H5 H6].
  rw /reserve_stream /touch /mbind /SE_bind /gets /modify /lift /ensure.
  destruct (closed s) eqn:Hc; simpl; [done|]. rw H1.
  destruct (Z.eqb_spec (Z.of_nat n + 1) 0); [lia|]. simpl. split; [|done]. split; simpl.
  - rw /wrapping_add_u32 Z.mod_small; lia.
  - constructor; [lia|]. eapply Forall_impl; [exact H2|]. simpl. lia.
  - apply NoDup_cons. split; [|done]. intros Hin. rw Forall_forall in H2. specialize (H2 _ Hin). lia.
  - intros sid i Hi. destruct (H4 sid i Hi) as (Hr & Hd & Hch). split; [lia|split; [|done]].
    apply not_elem_of_cons. split; [lia|done].
  - lia.
  - intros _. rw H6 //. lia.
Qed.

Lemma keeps_snd {S A} (I : S → Prop) (m : SE S A) s : keeps I m → I s → I (m s).2.
Proof. intros Hm Hs. specialize (Hm s Hs). by destruct (m s) as [[a|e] s']. Qed.

Lemma counted_event n ev s :
  Z.of_nat n + 2 < 2 ^ 32 → counted n s →
  ∃ m, (m ≤ S n)%nat ∧ counted m (client_event ev s).2.
Proof.
  intros Hn Hs.
  assert (Hkeep : keeps (counted n) (client_event ev) → ∃ m, (m ≤ S n)%nat ∧ counted m (client_event ev s).2).
  { intros Hk. exists n. split; [lia|]. by apply keeps_snd. }
  destruct ev as [now|sid|sid target plan draw now|sid read plan draw now|plan draw now|i|i now|now]; simpl in *.
  - pose proof (counted_reserve n now Hn s Hs) as Hr. rw /attempt /mbind /SE_bind.
    destruct (reserve_stream now s) as [[id|e] s']; simpl; [exists (S n)|exists n]; (split; [lia|]); [apply Hr|done].
  - exists n. split; [lia|]. rw /when /mbind /SE_bind /gets. case_bool_decide as Hin; [|done].
    exact (counted_insert n sid s (conj Hs Hin)).
  - apply Hkeep. rw /session_write_connect /session_buffer_frame /session_write_frame. keep_walk.
  - apply Hkeep. rw /app_reader_round /close_stream /session_write_frame. keep_walk.
  - apply Hkeep. apply keeps_bind; [apply counted_reader_round|intros; apply keeps_ret].
  - by apply Hkeep, counted_alter.
  - apply Hkeep. apply keeps_bind; [apply keeps_gets|intros c]. apply keeps_bind; [by apply counted_alter|intros]. keep_walk.
  - apply Hkeep, counted_shutdown.
Qed.

Lemma counted_run n evs s :
  Z.of_nat n + Z.of_nat (length evs) + 2 < 2 ^ 32 → counted n s →
  ∃ m, (m ≤ n + length evs)%nat ∧ counted m (client_run s evs).
Proof.
  revert n s. induction evs as [|ev evs IH]; intros n s Hn Hs; simpl in *; [exists n; split; [lia|done]|].
  destruct (counted_event n ev s) as (m & Hm & Hc); [lia|done|].
  destruct (IH m _ ltac:(lia) Hc) as (m' & Hm' & Hc'). exists m'. split; [lia|done].
Qed.

Lemma counted_new id rd wr init now : counted 0 (client_session_new id rd wr init now).
Proof. split; simpl; try done. constructor. Qed.

(** C34: The bookkeeping of an AnyTLS connection is exact under every
    interleaving of dials, tasks and the reader: while the session is open the
    active count is the number of its streams and of the dials in progress, so
    an idle or a full connection is one that really is; and a reservation fails
    only on a closed session and otherwise gives an identifier in no use (for
    fewer than 2^32 events, after which identifiers wrap around). *)
Theorem client_bookkeeping id rd wr init now evs now' :
  Z.of_nat (length evs) + 2 < 2 ^ 32 →
  let s := client_run (client_session_new id rd wr init now) evs in
  (closed s = false → active_streams s = Z.of_nat (size (cs_streams s) + length (dialing s))) ∧
  match reserve_stream now' s with
  | (Ok sid, s') => closed s = false ∧ (sid ∉ dialing s) ∧ cs_streams s !! sid = None ∧
      active_streams s' = active_streams s + 1 ∧ last_used s' = now'
  | (Err _, s') => closed s = true ∧ s' = s
  end.
Proof.
  intros Hn s. destruct (counted_run 0 evs (client_session_new id rd wr init now)) as (m & Hm & Hc);
    [lia|apply counted_new|]. fold s in Hc. pose proof Hc as [H1 H2 H3 H4 H5 H6]. split; [done|].
  rw /reserve_stream /touch /mbind /SE_bind /gets /modify /lift /ensure.
  destruct (closed s) eqn:Hcl; simpl; [done|]. rw H1. destruct (Z.eqb_spec (Z.of_nat m + 1) 0); [lia|]. simpl.
  split_and!; [done| | |done..].
  - intros Hin. rw Forall_forall in H2. specialize (H2 _ Hin). lia.
  - destruct (cs_streams s !! (Z.of_nat m + 1)) as [i|] eqn:E; [|done]. destruct (H4 _ _ E) as (? & _). lia.
Qed.
End counts.

(** ** The server's data reaches its stream in order *)

(** The send the reader waits in belongs to the channel too. *)
Definition held (i : nat) (s : ClientSession) : bytes :=
  match cs_blocked s with Some (_, j, data) => if decide (i = j) then data else [] | None => [] end.

Definition held_ok (s : ClientSession) : Prop :=
  ∀ k j data, cs_blocked s = Some (k, j, data) → (j < length (cs_chans s))%nat.

(** [s'] has no stream [s] has not, and their channels hold the same. *)
Definition shrinks (s s' : ClientSession) : Prop :=
  (∀ sid i, cs_streams s' !! sid = Some i → cs_streams s !! sid = Some i ∧
    ∀ c, cs_chans s !! i = Some c → ∃ c', cs_chans s' !! i = Some c' ∧ cc_sid c' = cc_sid c ∧
      (cc_open c' = true → cc_open c = true ∧ concat (cc_sent c') ++ held i s' = concat (cc_sent c) ++ held i s)) ∧
  (held_ok s → held_ok s') ∧ (length (cs_chans s) ≤ length (cs_chans s'))%nat.

Lemma shrinks_refl s : shrinks s s.
Proof. split; [|by split]. intros sid i Hi. split; [done|]. intros c Hc. by exists c. Qed.
Lemma shrinks_trans s1 s2 s3 : shrinks s1 s2 → shrinks s2 s3 → shrinks s1 s3.
Proof.
  intros (H12 & Hh12 & Hl12) (H23 & Hh23 & Hl23). split; [|split; [by auto|lia]]. intros sid i Hi.
  destruct (H23 sid i Hi) as [Hi2 H23']. destruct (H12 sid i Hi2) as [Hi1 H12']. split; [done|].
  intros c Hc. destruct (H12' c Hc) as (c2 & Hc2 & Hs2 & Ho2). destruct (H23' c2 Hc2) as (c3 & Hc3 & Hs3 & Ho3).
  exists c3. split_and!; [done|congruence|]. intros H3. destruct (Ho3 H3) as [Ho E3]. destruct (Ho2 Ho) as [? E2].
  split; [done|congruence].
Qed.
Lemma shrinks_tables s s' :
  (∀ sid i, cs_streams s' !! sid = Some i → cs_streams s !! sid = Some i) →
  cs_chans s' = cs_chans s → cs_blocked s' = cs_blocked s → shrinks s s'.
Proof.
  intros Hst Hc Hb. split; [|split; [by rw /held_ok Hc Hb|by rw Hc]]. intros sid i Hi. split; [by apply Hst|].
  intros c Hci. exists c. rw Hc /held Hb. done.
Qed.

Section order.
Context `{!AnytlsCore, !AnytlsLaws}.

Lemma shrinks_modify s0 (f : ClientSession → ClientSession) : (∀ s, shrinks s (f s)) → keeps (shrinks s0) (modify f).
Proof. intros Hf s Hs. by eapply shrinks_trans. Qed.
Lemma shrinks_writer {A} s0 (m : SE ClientWriter A) : keeps (shrinks s0) (on_client_writer m).
Proof.
  intros s Hs. rw /on_client_writer. destruct (m (cs_writer s)) as [[a|e] w]; (eapply shrinks_trans; [exact Hs|by apply shrinks_tables]).
Qed.
Lemma delete_sub {V} (m : gmap Z V) k sid i : delete k m !! sid = Some i → m !! sid = Some i.
Proof. by intros [_ ?]%lookup_delete_Some. Qed.
#[local] Hint Resolve shrinks_writer : keeping.
#[local] Hint Extern 2 (keeps (shrinks _) (modify _)) =>
  apply shrinks_modify; intros ?; apply shrinks_tables; [try done; try (intros ? ? ?%delete_sub; done)|done|done] : keeping.

Lemma shrinks_remove s0 sid now : keeps (shrinks s0) (remove_stream sid now).
Proof. rw /remove_stream /release_stream /touch. keep_walk. Qed.
#[local] Hint Resolve shrinks_remove : keeping.
Lemma shrinks_clear s0 now : keeps (shrinks s0) (clear_streams now).
Proof. rw /clear_streams /touch. keep_walk. Qed.
#[local] Hint Resolve shrinks_clear : keeping.
Lemma shrinks_shutdown s0 now : keeps (shrinks s0) (session_shutdown now).
Proof. rw /session_shutdown /close. keep_walk. Qed.
Lemma shrinks_stops s0 now : keeps (shrinks s0) (reader_stops now).
Proof. rw /reader_stops /close. keep_walk. Qed.
#[local] Hint Resolve shrinks_shutdown shrinks_stops : keeping.

(** ** The invariant

    [fin] are the frames the reader has read since the channel followed, if any,
    was made. *)
Variable followed_chan : option nat.
Definition in_order (fin : list Frame) (s : ClientSession) : Prop :=
  (∀ sid i, cs_streams s !! sid = Some i → followed_chan = Some i → ∃ c,
     cs_chans s !! i = Some c ∧ cc_sid c = sid ∧
     (cc_open c = true → concat (cc_sent c) ++ held i s = psh_data sid fin)) ∧ held_ok s ∧
  (∀ i, followed_chan = Some i → (i < length (cs_chans s))%nat) ∧
  ∀ sid i, cs_streams s !! sid = Some i → (i < length (cs_chans s))%nat.

Lemma in_order_shrinks fin s s' : shrinks s s' → in_order fin s → in_order fin s'.
Proof.
  intros (Hsh & Hh & Hlen) (Hin & Hok & Hfol & Hidx). split; [|split; [by apply Hh|split]].
  - intros sid i Hi Hfi. destruct (Hsh sid i Hi) as [Hi0 Hc0].
    destruct (Hin sid i Hi0 Hfi) as (c & Hc & Hs & Hd). destruct (Hc0 c Hc) as (c' & Hc' & Hs' & Ho).
    exists c'. split_and!; [done|congruence|]. intros Hopen. destruct (Ho Hopen) as [Hop ->]. by apply Hd.
  - intros i Hi. specialize (Hfol i Hi). lia.
  - intros sid i Hi. destruct (Hsh sid i Hi) as [Hi0 _]. specialize (Hidx _ _ Hi0). lia.
Qed.

(** A frame that carries nothing for the streams of the table. *)
Lemma in_order_more fin f s :
  (∀ i, frame_command f = CMD_PSH → cs_streams s !! frame_stream_id f = Some i → False) →
  in_order fin s → in_order (fin ++ [f]) s.
Proof.
  intros Hf (Hin & Hok & Hfol). split; [|by split]. intros sid i Hi Hfi. destruct (Hin sid i Hi Hfi) as (c & Hc & Hs & Hd).
  exists c. split_and!; [done..|]. intros Ho.
  rw psh_data_snoc decide_False; [|by rw app_nil_r; apply Hd]. intros [H1 <-]. by eapply Hf.
Qed.

Lemma in_order_insert fin sid s :
  in_order fin s → in_order fin (insert_client_stream sid s).2.
Proof.
  intros (Hin & Hok & Hfol & Hidx). rw /insert_client_stream /=. split_and!.
  - intros k i. simpl. rw lookup_insert_Some. intros [[<- <-]|[Hne Hk]] Hfi; [specialize (Hfol _ Hfi); lia|].
    destruct (Hin k i Hk Hfi) as (c & Hc & Hrest). exists c. split; [|exact Hrest].
    rw lookup_app_l; [by eapply lookup_lt_Some|done].
  - intros k j data Hb. specialize (Hok _ _ _ Hb). simpl. rw length_app. lia.
  - intros i Hi. specialize (Hfol i Hi). simpl. rw length_app. lia.
  - intros k i. simpl. rw lookup_insert_Some length_app /=. intros [[<- <-]|[_ Hk]]; [lia|]. specialize (Hidx _ _ Hk). lia.
Qed.

(** Completing the send the reader waited in. *)
Lemma resume_shrinks k i data now s :
  cs_blocked s = Some (k, i, data) → shrinks s (deliver k i data now (set_cs_blocked None s)).2.
Proof.
  intros Hb. assert (Hother : ∀ j, j ≠ i → held j s = []) by (intros j Hj; by rw /held Hb decide_False).
  rw /deliver /mbind /SE_bind /client_chan_send /=.
  assert (Hgone : ∀ c, cs_chans s !! i = c → (∀ d, c = Some d → cc_open d = false) →
    shrinks s (remove_stream k now (set_cs_blocked None s)).2).
  { intros c Hc Hcl. eapply shrinks_trans; [|apply keeps_snd; [apply shrinks_remove|apply shrinks_refl]].
    split; [|split; [by intros _ ? ? ? ?|done]]. intros sid j Hj. split; [done|]. intros d Hd. exists d. split_and!; [done..|]. intros Ho.
    split; [done|]. rw (Hother j); [|done]. intros ->. simpl in Hd. rw Hd in Hc. by rw (Hcl d) in Ho. }
  destruct (cs_chans s !! i) as [c|] eqn:Hc; simpl; [|by apply (Hgone None)].
  destruct (cc_open c) eqn:Ho; simpl; [|apply (Hgone (Some c)); [done|by intros ? [= <-]]].
  destruct (Nat.ltb _ _); simpl.
  - split; [|split; [by intros _ ? ? ? ?|by rw /= length_insert]]. intros sid j Hj. split; [done|]. intros d Hd. simpl in *.
    destruct (decide (i = j)) as [<-|Hne].
    + rw Hc in Hd. injection Hd as <-. eexists. rw list_lookup_insert_eq; [by eapply lookup_lt_Some|].
      split_and!; [done..|]. intros _. split; [done|]. rw /held /= Hb decide_True; [done|]. by rw concat_app /= !app_nil_r.
    + exists d. rw list_lookup_insert_ne; [done|]. split_and!; [done..|]. intros ?. split; [done|]. by rw (Hother j).
  - apply shrinks_tables; [done..|]. by rw /= Hb.
Qed.

(** A frame for a stream of the table. *)
Lemma deliver_order fin f i now s :
  frame_command f = CMD_PSH → cs_streams s !! frame_stream_id f = Some i → cs_blocked s = None → in_order fin s →
  in_order (fin ++ [f]) (deliver (frame_stream_id f) i (frame_data f) now s).2.
Proof.
  intros Hf Hi Hb (Hin & Hok & Hfol).
  assert (Hheld : ∀ j, held j s = []) by (intros j; by rw /held Hb).
  (* every other stream, in a session whose other channels are the same *)
  assert (Hothers : ∀ s', (∀ j d, j ≠ i → cs_chans s !! j = Some d → cs_chans s' !! j = Some d ∧ held j s' = []) →
    ∀ sid j, sid ≠ frame_stream_id f → cs_streams s !! sid = Some j → followed_chan = Some j → ∃ d,
     cs_chans s' !! j = Some d ∧ cc_sid d = sid ∧
     (cc_open d = true → concat (cc_sent d) ++ held j s' = psh_data sid (fin ++ [f]))).
  { intros s' Hsame sid j Hne Hj Hfj. destruct (Hin _ _ Hj Hfj) as (d & Hd' & Hs' & Hdd).
    assert (Hji : j ≠ i). { intros ->. destruct (Hin _ _ Hi Hfj) as (c & Hc & Hs & _). congruence. }
    destruct (Hsame j d Hji Hd') as [Hlook Hh].
    exists d. rw Hh. split_and!; [done..|]. intros Ho.
    rw psh_data_snoc decide_False; [by intros [_ ?]|]. rw app_nil_r -(Hdd Ho). by rw Hheld !app_nil_r. }
  rw /deliver /mbind /SE_bind /client_chan_send. destruct (cs_chans s !! i) as [c|] eqn:Hc; cycle 1.
  { eapply in_order_shrinks; [apply keeps_snd; [apply shrinks_remove|apply shrinks_refl]|]. split; [|done].
    intros sid j Hj Hfj. destruct (decide (sid = frame_stream_id f)) as [->|Hne]; [|by apply Hothers].
    rw Hi in Hj. injection Hj as <-. destruct (Hin _ _ Hi Hfj) as (c & Hc' & _). congruence. }
  destruct (cc_open c) eqn:Ho; simpl.
  - destruct (Nat.ltb _ _); simpl; split_and!.
    + intros sid j Hj Hfj. simpl in Hj. destruct (decide (sid = frame_stream_id f)) as [->|Hne].
      * rw Hi in Hj. injection Hj as <-. destruct (Hin _ _ Hi Hfj) as (c' & Hc' & Hs & Hd). rw Hc in Hc'. injection Hc' as <-.
        eexists. simpl. rw list_lookup_insert_eq; [by eapply lookup_lt_Some|].
        split_and!; [done|done|]. intros _. rw psh_data_snoc decide_True; [done|].
        rw concat_app /= app_nil_r -(Hd Ho) Hheld app_nil_r. rw /held /= Hb. by rw app_nil_r.
      * apply Hothers; [|done..]. intros j' d Hj' Hd'. simpl. rw list_lookup_insert_ne; [done|]. by rw /held /= Hb.
    + intros ? ? ?. simpl. rw length_insert. apply Hok.
    + simpl. rw length_insert. apply Hfol.
    + simpl. rw length_insert. apply Hfol.
    + intros sid j Hj Hfj. simpl in Hj. destruct (decide (sid = frame_stream_id f)) as [->|Hne].
      * rw Hi in Hj. injection Hj as <-. destruct (Hin _ _ Hi Hfj) as (c' & Hc' & Hs & Hd). rw Hc in Hc'. injection Hc' as <-.
        exists c. split_and!; [done|done|]. intros _. rw psh_data_snoc decide_True; [done|].
        rw -(Hd Ho) Hheld app_nil_r. rw /held /= decide_True; done.
      * apply Hothers; [|done..]. intros j' d Hj' Hd'. simpl. split; [done|]. by rw /held /= decide_False.
    + intros ? ? ? [= <- <- <-]. simpl. by eapply lookup_lt_Some.
    + apply Hfol.
    + apply Hfol.
  - eapply in_order_shrinks; [apply keeps_snd; [apply shrinks_remove|apply shrinks_refl]|]. split; [|done].
    intros sid j Hj Hfj. destruct (decide (sid = frame_stream_id f)) as [->|Hne]; [|by apply Hothers].
    rw Hi in Hj. injection Hj as <-. destruct (Hin _ _ Hi Hfj) as (c' & Hc' & Hs & Hd). rw Hc in Hc'. injection Hc' as <-.
    exists c. split_and!; [done..|congruence].
Qed.

Lemma shrinks_alter s0 f i :
  (∀ c, cc_sid (f c) = cc_sid c ∧ cc_sent (f c) = cc_sent c ∧ (cc_open (f c) = true → cc_open c = true)) →
  keeps (shrinks s0) (alter_client_chan f i).
Proof.
  intros Hf. apply shrinks_modify. intros s. split_and!.
  - intros sid j Hj. split; [done|]. intros c Hc. simpl. destruct (Hf c) as (H1 & H2 & H3).
    destruct (decide (i = j)) as [->|Hne]; [rw list_lookup_alter_eq Hc; exists (f c)|rw list_lookup_alter_ne // Hc; exists c].
    + split_and!; [done..|]. intros Ho. split; [by apply H3|]. by rw H2.
    + done.
  - intros Hok k j data Hb. simpl. rw length_alter. by eapply Hok.
  - by rw /= length_alter.
Qed.

(** Only the reader reads. *)
Definition rested (r : bytes) (b : bool) (s : ClientSession) : Prop := rx (cs_reader s) = r ∧ reading s = b.
Lemma rested_writer {A} r b (m : SE ClientWriter A) : keeps (rested r b) (on_client_writer m).
Proof. intros s Hs. rw /on_client_writer. by destruct (m (cs_writer s)) as [[a|e] w]. Qed.
Lemma rested_modify r b f : (∀ s, cs_reader (f s) = cs_reader s ∧ reading (f s) = reading s) → keeps (rested r b) (modify f).
Proof. intros Hf s [H1 H2]. destruct (Hf s) as [E1 E2]. split; by rw ?E1 ?E2. Qed.
Lemma rested_send r b k i data : keeps (rested r b) (client_chan_send k i data).
Proof.
  intros s Hs. rw /client_chan_send. destruct (cs_chans s !! i) as [c|]; [|done].
  destruct (negb _); [done|]. by destruct (Nat.ltb _ _).
Qed.
Lemma rested_insert r b k : keeps (rested r b) (insert_client_stream k).
Proof. by intros s Hs. Qed.
#[local] Hint Resolve rested_writer rested_send rested_insert : keeping.
#[local] Hint Extern 2 (keeps (rested _ _) (modify _)) => by apply rested_modify : keeping.

Definition reads_none (ev : ClientEvent) : bool := match ev with CReader _ _ _ => false | _ => true end.

Lemma rested_event r b ev : reads_none ev = true → keeps (rested r b) (client_event ev).
Proof.
  destruct ev; try done; intros _; rw /client_event /reserve_stream /session_write_connect /session_buffer_frame
    /session_write_frame /app_reader_round /close_stream /session_write_frame /session_shutdown /clear_streams /close
    /remove_stream /release_stream /touch /alter_client_chan; keep_walk.
Qed.

Lemma order_event fin ev s : reads_none ev = true → in_order fin s → in_order fin (client_event ev s).2.
Proof.
  intros Hr Hin.
  assert (Hk : keeps (shrinks s) (client_event ev) → in_order fin (client_event ev s).2).
  { intros Hk. eapply in_order_shrinks; [apply keeps_snd; [exact Hk|apply shrinks_refl]|done]. }
  destruct ev as [now|sid|sid target plan draw now|sid read plan draw now|plan draw now|i|i now|now]; try done.
  - apply Hk. rw /client_event /reserve_stream /touch. keep_walk.
  - rw /client_event /when /mbind /SE_bind /gets. case_bool_decide; [by apply in_order_insert|done].
  - apply Hk. rw /client_event /session_write_connect /session_buffer_frame /session_write_frame. keep_walk.
  - apply Hk. rw /client_event /app_reader_round /close_stream /session_write_frame. keep_walk.
  - apply Hk, shrinks_alter. by intros c.
  - apply Hk. rw /client_event. apply keeps_bind; [apply keeps_gets|intros c].
    apply keeps_bind; [by apply shrinks_alter|intros []]. keep_walk.
  - apply Hk, shrinks_shutdown.
Qed.

(** ** The reader *)
Definition followed (rx0 : bytes) (s : ClientSession) : Prop :=
  ∃ fin lost, rx0 = wires fin ++ lost ++ rx (cs_reader s) ∧ wf_bytes (rx (cs_reader s)) ∧
    (reading s = true → lost = []) ∧ in_order fin s.

Lemma rested_deliver r b k i data now : keeps (rested r b) (deliver k i data now).
Proof. rw /deliver /remove_stream /release_stream /touch. keep_walk. Qed.
#[local] Hint Resolve rested_deliver : keeping.
Lemma rested_reader_frame r b f plan draw now : keeps (rested r b) (reader_frame f plan draw now).
Proof. rw /reader_frame /session_write_frame /remove_stream /release_stream /touch. keep_walk. Qed.

Lemma reader_frame_order fin f plan draw now s :
  cs_blocked s = None → in_order fin s → in_order (fin ++ [f]) (reader_frame f plan draw now s).2.
Proof.
  intros Hb Hin. rw /reader_frame. destruct (Z.eqb_spec (frame_command f) CMD_PSH) as [Hpsh|Hpsh].
  - rw {1}/mbind {1}/SE_bind {1}/gets. cbv beta iota. destruct (cs_streams s !! frame_stream_id f) as [i|] eqn:Hi.
    + pose proof (deliver_order fin f i now s Hpsh Hi Hb Hin) as Hd. rw /mbind /SE_bind.
      by destruct (deliver _ _ _ _ s) as [[[]|e] s'].
    + apply in_order_more; [|done]. intros i _ Hi'. by rw Hi in Hi'.
  - eapply in_order_shrinks; [|apply in_order_more; [|exact Hin]; done].
    apply keeps_snd; [|apply shrinks_refl]. rw /session_write_frame. keep_walk.
Qed.

Definition read_at (r : bytes) (s : ClientSession) : Prop := rx (cs_reader s) = r.
Lemma read_at_modify r f : (∀ s, cs_reader (f s) = cs_reader s) → keeps (read_at r) (modify f).
Proof. intros Hf s Hs. by rw /read_at /= Hf. Qed.
#[local] Hint Extern 2 (keeps (read_at _) (modify _)) => by apply read_at_modify : keeping.
Lemma read_at_stops r now : keeps (read_at r) (reader_stops now).
Proof. rw /reader_stops /close /clear_streams /touch. keep_walk. Qed.
Lemma stops_reading now s : reading (reader_stops now s).2 = false.
Proof.
  rw /reader_stops /close /clear_streams /touch /when /mbind /SE_bind /gets /modify /=. by destruct (negb _).
Qed.

Lemma followed_stops rx0 fin lost now s :
  rx0 = wires fin ++ lost ++ rx (cs_reader s) → wf_bytes (rx (cs_reader s)) → in_order fin s →
  followed rx0 (reader_stops now s).2.
Proof.
  intros Hrx Hwf Hin. exists fin, lost.
  assert (Hr : rx (cs_reader (reader_stops now s).2) = rx (cs_reader s)).
  { apply (keeps_snd (read_at (rx (cs_reader s)))); [apply read_at_stops|done]. }
  rw Hr. split_and!; [done|done|by rw stops_reading|].
  eapply in_order_shrinks; [apply keeps_snd; [apply shrinks_stops|apply shrinks_refl]|done].
Qed.

Lemma followed_reader rx0 plan draw now s :
  followed rx0 s → followed rx0 (run_reader_round plan draw now s).2.
Proof.
  intros (fin & lost & Hrx & Hwf & Hlost & Hin). rw /run_reader_round {1}/mbind {1}/SE_bind {1}/gets. cbv beta iota.
  destruct (reading s) eqn:Hrd; simpl; [|exists fin, lost; by rw Hrd]. rw (Hlost eq_refl) /= in Hrx. clear lost Hlost.
  rw {1}/mbind {1}/SE_bind {1}/gets. cbv beta iota. destruct (cs_blocked s) as [[[k i] data]|] eqn:Hb.
  - rw /mbind /SE_bind /modify. pose proof (resume_shrinks k i data now s Hb) as Hsh.
    pose proof (rested_deliver (rx (cs_reader s)) true k i data now (set_cs_blocked None s) (conj eq_refl Hrd)) as Hrest.
    destruct (deliver k i data now (set_cs_blocked None s)) as [[[]|e] s']; destruct Hrest as [H1 H2];
      exists fin, []; rw /= H1 H2; (split_and!; [done..|]); by eapply in_order_shrinks.
  - rw {1}/mbind {1}/SE_bind {1}/attempt {1}/on_reader. destruct (read_frame (cs_reader s)) as [[f|e] c] eqn:Hread; cbv beta iota.
    + apply read_frame_inv in Hread as (Hf & Hr & Hwf' & _ & _); [|done].
      pose proof (reader_frame_order fin f plan draw now (set_cs_reader c s) Hb Hin) as Ho.
      pose proof (rested_reader_frame (rx c) true f plan draw now (set_cs_reader c s) (conj eq_refl Hrd)) as Hrest.
      assert (Hrx' : rx0 = wires (fin ++ [f]) ++ [] ++ rx c) by by rw Hrx Hr wires_app -app_assoc /wires /= app_nil_r.
      rw {1}/mbind {1}/SE_bind. destruct (reader_frame _ _ _ _ _) as [[[stop st]|?] s']; destruct Hrest as [H1 H2].
      * rw /mbind /SE_bind /when. destruct stop.
        -- pose proof (followed_stops rx0 (fin ++ [f]) [] now s') as Hst. destruct (reader_stops now s') as [[[]|?] s2];
             apply Hst; simpl in *; by rw ?H1.
        -- exists (fin ++ [f]), []. by rw /= H1 H2.
      * exists (fin ++ [f]), []. by rw /= H1 H2.
    + apply read_frame_behind in Hread as ((l & Hl) & _ & _). rw Hl in Hrx Hwf. rw /mbind /SE_bind.
      pose proof (followed_stops rx0 fin l now (set_cs_reader c s) Hrx (wf_bytes_suffix _ _ Hwf) Hin) as Hst.
      by destruct (reader_stops now (set_cs_reader c s)) as [[[]|?] s2].
Qed.

Lemma followed_event rx0 s ev : followed rx0 s → followed rx0 (client_event ev s).2.
Proof.
  intros Hf. destruct (reads_none ev) eqn:Hr.
  - destruct Hf as (fin & lost & Hrx & Hwf & Hlost & Hin).
    pose proof (order_event fin ev s Hr Hin) as Ho.
    pose proof (rested_event (rx (cs_reader s)) (reading s) ev Hr s (conj eq_refl eq_refl)) as Hrest.
    destruct (client_event ev s) as [[a|e] s']; destruct Hrest as [H1 H2]; exists fin, lost; by rw /= H1 H2.
  - destruct ev as [| | | |plan draw now| | |]; try done. rw /client_event /mbind /SE_bind.
    pose proof (followed_reader rx0 plan draw now s Hf) as Hrd. by destruct (run_reader_round plan draw now s) as [[a|e] s'].
Qed.

Lemma followed_run rx0 s evs : followed rx0 s → followed rx0 (client_run s evs).
Proof. revert s. induction evs as [|ev evs IH]; intros s Hs; [done|]. by apply IH, followed_event. Qed.

End order.

Section claim.
Context `{!AnytlsCore, !AnytlsLaws}.

End claim.
