(* ===== verification/AnytlsPool.v ===== *)
(** * The AnyTLS outbound's connections (src/protocol/anytls/outbound.rs)

    The pool of sessions a dial chooses from, its limits, and the cleaning of
    closed and idle sessions. The sessions are shared: the pool names them by
    their place in [store]. *)
From S2P Require Import Prelude Io Text Net Config Socks5Codec AnytlsCodec AnytlsWriter AnytlsClient.

Record ClientSessionTuning := MkTuning {
  t_max_streams : option Z;
  t_max_connections : option Z;
  t_idle_timeout : Z;
}.
Definition tuning_from_config (cfg : OutboundConfig) : ClientSessionTuning :=
  MkTuning (anytls_max_streams cfg) (max_connections cfg) (anytls_connection_idle_timeout cfg).

Inductive ClientSessionRemovalReason := RClosed | IdleExpired.

(** [Iterator::max_by_key]: the last of the greatest; [min_by]: the first of
    the least. *)
Fixpoint max_from {A} (key : A → Z) (best : A) (l : list A) : A :=
  match l with
  | [] => best
  | x :: l => max_from key (if key best <=? key x then x else best) l
  end.
Definition max_by_key {A} (key : A → Z) (l : list A) : option A :=
  match l with [] => None | x :: l => Some (max_from key x l) end.
Fixpoint min_from {A} (lt : A → A → bool) (best : A) (l : list A) : A :=
  match l with
  | [] => best
  | x :: l => min_from lt (if lt x best then x else best) l
  end.
Definition min_by {A} (lt : A → A → bool) (l : list A) : option A :=
  match l with [] => None | x :: l => Some (min_from lt x l) end.

(** The cleaner runs at half the idle timeout, between 10 ms and 30 s. *)
Definition connection_cleanup_interval (connection_idle_timeout : Z) : Z :=
  let half_timeout := connection_idle_timeout / 2 in
  if half_timeout <? from_millis 10 then from_millis 10
  else if from_secs 30 <? half_timeout then from_secs 30
  else half_timeout.

Section pool.
Context `{!AnytlsCore}.

(** The outbound: its sessions, those in the pool, the state shared by them. *)
Record AnytlsOutbound := MkOutboundState {
  store : list ClientSession;
  pool : list nat;
  ob_state : ClientState;
  next_session_id : Z;
}.
Definition set_store v s := MkOutboundState v (pool s) (ob_state s) (next_session_id s).
Definition set_pool v s := MkOutboundState (store s) v (ob_state s) (next_session_id s).

(** [AnytlsOutbound::new]: the configuration, the tuning, and the state; the
    first padding is drawn. *)
Definition anytls_outbound_new (cfg : OutboundConfig) (draw : nat)
  : Result (OutboundConfig * ClientSessionTuning * AnytlsOutbound) :=
  outbound_validate cfg ;;
  require_server cfg ;;
  let tuning := tuning_from_config cfg in
  state ← state_new draw;
  Ok (cfg, tuning, MkOutboundState [] [] state 1).

Definition session_at (s : AnytlsOutbound) (i : nat) (f : ClientSession → Z) : Z :=
  match store s !! i with Some c => f c | None => 0 end.
Definition active_at (s : AnytlsOutbound) (i : nat) : Z := session_at s i active_streams.
Definition used_at (s : AnytlsOutbound) (i : nat) : Z := session_at s i last_used.
Definition closed_at (s : AnytlsOutbound) (i : nat) : bool :=
  match store s !! i with Some c => closed c | None => true end.

Definition on_session {A} (i : nat) (m : SE ClientSession A) : SE AnytlsOutbound A := λ s,
  match store s !! i with
  | Some c => let '(r, c) := m c in (r, set_store (<[i := c]> (store s)) s)
  | None => (Err (EMsg "no such session"), s)
  end.

(** The closure of [retain]: why the session leaves the pool, if it does. *)
Definition removal (idle_timeout now : Z) (s : AnytlsOutbound) (i : nat) : option ClientSessionRemovalReason :=
  match store s !! i with
  | Some c => if closed c then Some RClosed
              else if is_idle_expired idle_timeout now c then Some IdleExpired else None
  | None => Some RClosed
  end.

Fixpoint retain (idle_timeout now : Z) (l : list nat) : SE AnytlsOutbound (list nat * list nat) :=
  match l with
  | [] => mret ([], [])
  | i :: l =>
      reason ← gets (λ s, removal idle_timeout now s i);
      match reason with
      | Some RClosed => '(kept, removed) ← retain idle_timeout now l; mret (kept, i :: removed)
      | Some IdleExpired =>
          on_session i close ;;
          '(kept, removed) ← retain idle_timeout now l; mret (kept, i :: removed)
      | None => '(kept, removed) ← retain idle_timeout now l; mret (i :: kept, removed)
      end
  end.

Definition remove_closed_and_expired (idle_timeout now : Z) : SE AnytlsOutbound (list nat) :=
  sessions ← gets pool;
  '(kept, removed) ← retain idle_timeout now sessions;
  modify (set_pool kept) ;;
  mret removed.

(** [shutdown_sessions]: the spawned tasks shut the removed sessions down. *)
Definition shutdown_sessions (removed : list nat) (now : Z) : SE AnytlsOutbound () :=
  for_each (λ i, attempt (on_session i (session_shutdown now)) ;; mret ()) removed.

(** A round of the cleaner ([spawn_connection_cleaner]). *)
Definition clean_connections (idle_timeout now : Z) : SE AnytlsOutbound () :=
  expired ← remove_closed_and_expired idle_timeout now;
  shutdown_sessions expired now.

(** ** Choosing a session *)
Definition freshest_idle (s : AnytlsOutbound) : option nat :=
  max_by_key (used_at s) (List.filter (λ i, active_at s i =? 0) (pool s)).
Definition freshest_session (s : AnytlsOutbound) : option nat := max_by_key (used_at s) (pool s).
Definition less_busy (s : AnytlsOutbound) (left right : nat) : bool :=
  (active_at s left <? active_at s right)
  || ((active_at s left =? active_at s right) && (used_at s right <? used_at s left)).
Definition least_busy_active (s : AnytlsOutbound) (max : option Z) : option nat :=
  min_by (less_busy s)
    (List.filter (λ i, (0 <? active_at s i) && match max with Some m => active_at s i <? m | None => true end) (pool s)).

Definition select (tuning : ClientSessionTuning) (s : AnytlsOutbound) : option nat :=
  match freshest_idle s with
  | Some i => Some i
  | None =>
      match t_max_connections tuning with
      | Some max_connections =>
          if Z.of_nat (length (pool s)) <? max_connections then None else least_busy_active s None
      | None =>
          match t_max_streams tuning with
          | Some max_streams => least_busy_active s (Some max_streams)
          | None => freshest_session s
          end
      end
  end.

(** [connect_session]; [connected] is the outcome of connecting and of the TLS
    handshake, which gives the stream. *)
Definition connect_session (cfg : OutboundConfig) (connected : Result Stream) (now : Z) : SE AnytlsOutbound nat :=
  lift (require_server cfg) ;;
  lift (tls_server_name cfg) ;;
  stream ← lift connected;
  password ← lift (context (out_password cfg) "anytls outbound requires password");
  st ← gets ob_state;
  let '(written, stream) := write_client_hello_with_padding password (cs_padding0_len st) stream in
  lift written ;;
  settings_frame ← lift (encode_frame CMD_SETTINGS 0 (client_settings_with_padding_md5 (padding_md5 st)));
  id ← gets next_session_id;
  i ← gets (λ s, length (store s));
  modify (λ s, MkOutboundState
    (store s ++ [client_session_new id stream (MkStream [] (tx stream) (room stream)) settings_frame now])
    (pool s) (ob_state s) (id + 1)) ;;
  mret i.

(** What the other tasks and the clock do during a round of [open_stream]: the
    time of the cleaning, the sessions whose reader closes them before the
    choice, the time of the reservation and of a second cleaning. *)
Record Round := MkRound { rd_clean : Z; rd_closing : list nat; rd_reserve : Z; rd_again : Z }.

Definition close_sessions (l : list nat) : SE AnytlsOutbound () :=
  for_each (λ i, attempt (on_session i close) ;; mret ()) l.

(** The end of [open_stream]: a session on a new connection joins the pool. *)
Definition open_new_session (cfg : OutboundConfig) (connected : Result Stream) (now : Z) (s : AnytlsOutbound)
  : option (Result (nat * Z)) * AnytlsOutbound :=
  match connect_session cfg connected now s with
  | (Err e, s) => (Some (Err e), s)
  | (Ok i, s) =>
      match on_session i (reserve_stream now) s with
      | (Err e, s) => (Some (Err e), s)
      | (Ok stream_id, s) => (Some (Ok (i, stream_id)), set_pool (pool s ++ [i]) s)
      end
  end.

(** [open_stream]: [None] when the rounds are used up. *)
Fixpoint open_stream (cfg : OutboundConfig) (tuning : ClientSessionTuning) (connected : Result Stream)
    (rounds : list Round) (s : AnytlsOutbound) : option (Result (nat * Z)) * AnytlsOutbound :=
  match rounds with
  | [] => (None, s)
  | rd :: rounds =>
      let '(_, s) := clean_connections (t_idle_timeout tuning) (rd_clean rd) s in
      let '(_, s) := close_sessions (rd_closing rd) s in
      match select tuning s with
      | Some i =>
          match on_session i (reserve_stream (rd_reserve rd)) s with
          | (Ok stream_id, s) => (Some (Ok (i, stream_id)), s)
          | (Err e, s) =>
              if closed_at s i then
                let '(_, s) := clean_connections (t_idle_timeout tuning) (rd_again rd) s in
                open_stream cfg tuning connected rounds s
              else (Some (Err e), s)
          end
      | None => open_new_session cfg connected (rd_reserve rd) s
      end
  end.

(** [dial], up to the spawning of the tasks that serve the stream. *)
Definition anytls_dial (cfg : OutboundConfig) (tuning : ClientSessionTuning) (connected : Result Stream)
    (rounds : list Round) (draw : nat) (now : Z) (session : Session) (s : AnytlsOutbound)
  : option (Result (nat * Z)) * AnytlsOutbound :=
  match ensure (bool_decide (session_command session = Connect)) "anytls outbound only supports CONNECT" with
  | Err e => (Some (Err e), s)
  | Ok _ =>
      match open_stream cfg tuning connected rounds s with
      | (Some (Ok (i, stream_id)), s) =>
          let '(_, s) := on_session i (insert_client_stream stream_id) s in
          match on_session i (session_write_connect stream_id (session_target session) (padding_plan (ob_state s)) draw) s with
          | (Ok _, s) => (Some (Ok (i, stream_id)), s)
          | (Err e, s) => let '(_, s) := on_session i (session_shutdown now) s in (Some (Err e), s)
          end
      | other => other
      end
  end.
End pool.

(** ** Lemmas *)
Lemma max_from_spec {A} (key : A → Z) best l :
  (max_from key best l = best ∨ max_from key best l ∈ l) ∧ key best ≤ key (max_from key best l) ∧
  ∀ y, y ∈ l → key y ≤ key (max_from key best l).
Proof.
  revert best. induction l as [|x l IH]; intros best; simpl.
  { split_and!; [by left|done|]. intros y Hy. by apply not_elem_of_nil in Hy. }
  destruct (IH (if key best <=? key x then x else best)) as (Hin & Hb & Hall).
  destruct (Z.leb_spec (key best) (key x)) as [Hle|Hlt].
  - split_and!; [right|lia|].
    + destruct Hin as [->|Hin]; [by left|by right].
    + intros y [->|Hy]%elem_of_cons; [lia|by apply Hall].
  - split_and!; [|lia|].
    + destruct Hin as [->|Hin]; [by left|right; by right].
    + intros y [->|Hy]%elem_of_cons; [lia|by apply Hall].
Qed.

Lemma max_by_key_spec {A} (key : A → Z) l :
  match max_by_key key l with
  | Some x => x ∈ l ∧ ∀ y, y ∈ l → key y ≤ key x
  | None => l = []
  end.
Proof.
  destruct l as [|x l]; [done|]. simpl. destruct (max_from_spec key x l) as (Hin & Hb & Hall). split.
  - destruct Hin as [->|Hin]; [by left|by right].
  - intros y [->|Hy]%elem_of_cons; [done|by apply Hall].
Qed.

Lemma min_from_spec {A} (lt : A → A → bool) best l :
  (∀ x y b, lt y b = false → lt x b = true → lt y x = false) → (∀ x, lt x x = false) →
  (min_from lt best l = best ∨ min_from lt best l ∈ l) ∧ lt best (min_from lt best l) = false ∧
  ∀ y, y ∈ l → lt y (min_from lt best l) = false.
Proof.
  intros Htr Hirr. enough (Hgen : ∀ best seen, (∀ y, y ∈ seen → lt y best = false) →
    (min_from lt best l = best ∨ min_from lt best l ∈ l) ∧
    ∀ y, y ∈ seen ++ best :: l → lt y (min_from lt best l) = false).
  { destruct (Hgen best []) as [Hin Hall]; [by intros y Hy%not_elem_of_nil|]. split_and!; [done| |].
    - apply Hall. by left.
    - intros y Hy. apply Hall. by right. }
  clear best. induction l as [|x l IH]; intros best seen Hseen; simpl.
  { split; [by left|]. intros y [Hy|Hy]%elem_of_app; [by apply Hseen|]. apply elem_of_cons in Hy as [->|Hy]; [done|].
    by apply not_elem_of_nil in Hy. }
  destruct (lt x best) eqn:Hlt.
  - destruct (IH x (seen ++ [best])) as [Hin Hall].
    { intros y [Hy|Hy]%elem_of_app; [eapply Htr; [by apply Hseen|done]|]. apply list_elem_of_singleton in Hy as ->.
      eapply Htr; [apply Hirr|done]. }
    split; [right; destruct Hin as [->|?]; [by left|by right]|]. intros y Hy. apply Hall. set_solver.
  - destruct (IH best (seen ++ [x])) as [Hin Hall].
    { intros y [Hy|Hy]%elem_of_app; [by apply Hseen|]. by apply list_elem_of_singleton in Hy as ->. }
    split; [destruct Hin as [->|?]; [by left|right; by right]|]. intros y Hy. apply Hall. set_solver.
Qed.

Lemma min_by_spec {A} (lt : A → A → bool) l :
  (∀ x y b, lt y b = false → lt x b = true → lt y x = false) → (∀ x, lt x x = false) →
  match min_by lt l with
  | Some x => x ∈ l ∧ ∀ y, y ∈ l → lt y x = false
  | None => l = []
  end.
Proof.
  intros Htr Hirr. destruct l as [|x l]; [done|]. simpl.
  destruct (min_from_spec lt x l Htr Hirr) as (Hin & Hb & Hall). split.
  - destruct Hin as [->|Hin]; [by left|by right].
  - intros y [->|Hy]%elem_of_cons; [done|by apply Hall].
Qed.

Section policy.
Context `{!AnytlsCore}.
Implicit Types s : AnytlsOutbound.

Lemma less_busy_false s i j :
  less_busy s j i = false ↔ active_at s i < active_at s j ∨ active_at s i = active_at s j ∧ used_at s j ≤ used_at s i.
Proof. rw /less_busy. destruct (Z.ltb_spec (active_at s j) (active_at s i)), (Z.eqb_spec (active_at s j) (active_at s i)),
  (Z.ltb_spec (used_at s i) (used_at s j)); simpl; split; intros; try done; lia. Qed.

Lemma least_busy_spec s max :
  match least_busy_active s max with
  | Some i => i ∈ pool s ∧ 0 < active_at s i ∧ (∀ m, max = Some m → active_at s i < m) ∧
      ∀ j, j ∈ pool s → 0 < active_at s j → (∀ m, max = Some m → active_at s j < m) →
        active_at s i < active_at s j ∨ active_at s i = active_at s j ∧ used_at s j ≤ used_at s i
  | None => ∀ j, j ∈ pool s → 0 < active_at s j → ∃ m, max = Some m ∧ m ≤ active_at s j
  end.
Proof.
  rw /least_busy_active.
  pose proof (min_by_spec (less_busy s) (List.filter (λ i, (0 <? active_at s i) && match max with Some m => active_at s i <? m | None => true end) (pool s))) as Hspec.
  assert (Hf : ∀ j, j ∈ List.filter (λ i, (0 <? active_at s i) && match max with Some m => active_at s i <? m | None => true end) (pool s) ↔
    j ∈ pool s ∧ 0 < active_at s j ∧ ∀ m, max = Some m → active_at s j < m).
  { intros j. rw !list_elem_of_In filter_In andb_true_iff Z.ltb_lt. destruct max as [m|].
    - rw Z.ltb_lt. naive_solver.
    - naive_solver. }
  destruct (min_by _ _) as [i|].
  - destruct Hspec as [Hin Hall].
    + intros x y b. rw !less_busy_false /less_busy. intros H1 [H2%Z.ltb_lt|[H2%Z.eqb_eq H3%Z.ltb_lt]%andb_prop]%orb_prop; lia.
    + intros x. apply less_busy_false. lia.
    + apply Hf in Hin as (H1 & H2 & H3). split_and!; [done..|]. intros j Hj Hpos Hm. apply less_busy_false, Hall, Hf. done.
  - intros j Hj Hpos. assert (Hnil : j ∉ List.filter (λ i, (0 <? active_at s i) && match max with Some m => active_at s i <? m | None => true end) (pool s)).
    { rw Hspec; [| |apply not_elem_of_nil].
      - intros x y b. rw !less_busy_false /less_busy. intros H1 [H2%Z.ltb_lt|[H2%Z.eqb_eq H3%Z.ltb_lt]%andb_prop]%orb_prop; lia.
      - intros x. apply less_busy_false. lia. }
    rw Hf in Hnil. destruct max as [m|]; [|naive_solver]. exists m. split; [done|].
    destruct (decide (m ≤ active_at s j)); [done|]. exfalso. apply Hnil. split_and!; [done..|]. intros ? [= <-]. lia.
Qed.

Lemma freshest_idle_spec s :
  match freshest_idle s with
  | Some i => i ∈ pool s ∧ active_at s i = 0 ∧ ∀ j, j ∈ pool s → active_at s j = 0 → used_at s j ≤ used_at s i
  | None => ∀ j, j ∈ pool s → active_at s j ≠ 0
  end.
Proof.
  rw /freshest_idle. pose proof (max_by_key_spec (used_at s) (List.filter (λ i, active_at s i =? 0) (pool s))) as Hspec.
  assert (Hf : ∀ j, j ∈ List.filter (λ i, active_at s i =? 0) (pool s) ↔ j ∈ pool s ∧ active_at s j = 0)
    by (intros j; by rw !list_elem_of_In filter_In Z.eqb_eq).
  destruct (max_by_key _ _) as [i|].
  - destruct Hspec as [[H1 H2]%Hf Hall]. split_and!; [done..|]. intros j Hj H0. by apply Hall, Hf.
  - intros j Hj H0. apply (not_elem_of_nil j). rw -Hspec. by apply Hf.
Qed.

Lemma select_spec tuning s :
  match select tuning s with
  | Some i => i ∈ pool s ∧
      ((∃ j, j ∈ pool s ∧ active_at s j = 0) →
         active_at s i = 0 ∧ ∀ j, j ∈ pool s → active_at s j = 0 → used_at s j ≤ used_at s i) ∧
      ((∀ j, j ∈ pool s → active_at s j ≠ 0) →
         (∀ c, t_max_connections tuning = Some c → c ≤ Z.of_nat (length (pool s))) ∧
         (∀ m, t_max_connections tuning = None → t_max_streams tuning = Some m → active_at s i < m) ∧
         (is_Some (t_max_connections tuning) ∨ is_Some (t_max_streams tuning) →
            ∀ j, j ∈ pool s → 0 < active_at s j →
              active_at s i < active_at s j ∨ active_at s i = active_at s j ∧ used_at s j ≤ used_at s i))
  | None =>
      (∀ j, j ∈ pool s → active_at s j ≠ 0) ∧
      match t_max_connections tuning, t_max_streams tuning with
      | Some c, _ => Z.of_nat (length (pool s)) < c ∨ ∀ j, j ∈ pool s → active_at s j < 0
      | None, Some m => ∀ j, j ∈ pool s → active_at s j < 0 ∨ m ≤ active_at s j
      | None, None => pool s = []
      end
  end.
Proof.
  rw /select. pose proof (freshest_idle_spec s) as Hidle. destruct (freshest_idle s) as [i|].
  { destruct Hidle as (H1 & H2 & H3). split_and!; [done..|]. intros Hno. by destruct (Hno i H1). }
  destruct (t_max_connections tuning) as [c|] eqn:Ec.
  - destruct (Z.ltb_spec (Z.of_nat (length (pool s))) c) as [Hlt|Hge]; [by split; [|left]|].
    pose proof (least_busy_spec s None) as Hl. destruct (least_busy_active s None) as [i|].
    + destruct Hl as (H1 & H2 & _ & H4). split_and!; [done|by intros (j & Hj & ?); destruct (Hidle j Hj)|]. intros _.
      split_and!; [by intros ? [= <-]|done|]. intros _ j Hj Hp. by apply H4.
    + split; [done|]. right. intros j Hj. specialize (Hidle j Hj). destruct (decide (0 < active_at s j)) as [Hp|]; [|lia].
      by destruct (Hl j Hj Hp) as (? & ? & _).
  - destruct (t_max_streams tuning) as [m|] eqn:Em.
    + pose proof (least_busy_spec s (Some m)) as Hl. destruct (least_busy_active s (Some m)) as [i|].
      * destruct Hl as (H1 & H2 & H3 & H4). specialize (H3 m eq_refl).
        split_and!; [done|by intros (j & Hj & ?); destruct (Hidle j Hj)|]. intros _.
        split_and!; [done|by intros ? _ [= <-]|]. intros _ j Hj Hp.
        destruct (decide (active_at s j < m)); [apply H4; [done..|by intros ? [= <-]]|left; lia].
      * split; [done|]. intros j Hj. specialize (Hidle j Hj). destruct (decide (0 < active_at s j)) as [Hp|]; [|left; lia].
        destruct (Hl j Hj Hp) as (? & [= <-] & ?). by right.
    + rw /freshest_session. pose proof (max_by_key_spec (used_at s) (pool s)) as Hf.
      destruct (max_by_key _ _) as [i|]; [|done]. destruct Hf as [H1 H2].
      split_and!; [done|by intros (j & Hj & ?); destruct (Hidle j Hj)|]. intros _. split_and!; [done..|].
      by intros [[? ?]|[? ?]].
Qed.

(** Which connection a new stream shares: the idle one used last when there
    is one; otherwise, with a limit on connections that is reached, or under
    the limit on streams, the one with the fewest streams (of those the one
    used last); and a new connection only when there is none to share. *)
Lemma select_policy tuning s :
  match select tuning s with
  | Some i => i ∈ pool s ∧
      ((∃ j, j ∈ pool s ∧ active_at s j = 0) →
         active_at s i = 0 ∧ ∀ j, j ∈ pool s → active_at s j = 0 → used_at s j ≤ used_at s i) ∧
      ((∀ j, j ∈ pool s → active_at s j ≠ 0) →
         (∀ c, t_max_connections tuning = Some c → c ≤ Z.of_nat (length (pool s))) ∧
         (∀ m, t_max_connections tuning = None → t_max_streams tuning = Some m → active_at s i < m) ∧
         (is_Some (t_max_connections tuning) ∨ is_Some (t_max_streams tuning) →
            ∀ j, j ∈ pool s → 0 < active_at s j →
              active_at s i < active_at s j ∨ active_at s i = active_at s j ∧ used_at s j ≤ used_at s i))
  | None =>
      (∀ j, j ∈ pool s → active_at s j ≠ 0) ∧
      match t_max_connections tuning, t_max_streams tuning with
      | Some c, _ => Z.of_nat (length (pool s)) < c ∨ ∀ j, j ∈ pool s → active_at s j < 0
      | None, Some m => ∀ j, j ∈ pool s → active_at s j < 0 ∨ m ≤ active_at s j
      | None, None => pool s = []
      end
  end.
Proof. apply select_spec. Qed.

(** ** Cleaning *)
Definition stays (idle now : Z) s (i : nat) : bool := match removal idle now s i with None => true | Some _ => false end.

Lemma on_session_other {A} i j (m : SE ClientSession A) s : i ≠ j → store (on_session i m s).2 !! j = store s !! j.
Proof.
  intros Hne. rw /on_session. destruct (store s !! i) as [c|]; [|done]. destruct (m c) as [r c']. simpl.
  by apply list_lookup_insert_ne.
Qed.
Lemma on_session_rest {A} i (m : SE ClientSession A) s :
  pool (on_session i m s).2 = pool s ∧ length (store (on_session i m s).2) = length (store s).
Proof.
  rw /on_session. destruct (store s !! i) as [c|]; [|done]. destruct (m c) as [r c']. simpl. by rw length_insert.
Qed.

Lemma stays_store idle now s s' i : store s' !! i = store s !! i → stays idle now s' i = stays idle now s i.
Proof. rw /stays /removal. by intros ->. Qed.

(** Closing an expired session does not change what stays. *)
Lemma stays_close idle now s i :
  stays idle now s i = false → ∃ s', on_session i close s = (Ok (), s') ∧ pool s' = pool s ∧
    length (store s') = length (store s) ∧ (∀ j, j ≠ i → store s' !! j = store s !! j) ∧
    (∀ j, stays idle now s' j = stays idle now s j) ∨ store s !! i = None.
Proof.
  intros Hst. destruct (store s !! i) as [c|] eqn:Hi; [|by exists s; right].
  exists (set_store (<[i := set_closed true c]> (store s)) s). left.
  assert (Hother : ∀ j, j ≠ i → <[i := set_closed true c]> (store s) !! j = store s !! j) by (intros j Hj; by apply list_lookup_insert_ne).
  split_and!; [by rw /on_session Hi|done|by rw /= length_insert|done|].
  intros j. destruct (decide (j = i)) as [->|Hne]; [|by apply stays_store, Hother].
  rw Hst /stays /removal /= list_lookup_insert_eq; [by eapply lookup_lt_Some|done].
Qed.

Lemma retain_spec idle now l s :
  ∃ removed s', retain idle now l s = (Ok (List.filter (stays idle now s) l, removed), s') ∧ pool s' = pool s ∧
    length (store s') = length (store s) ∧ Forall (λ i, stays idle now s i = false) removed ∧
    ∀ i, stays idle now s i = true → store s' !! i = store s !! i.
Proof.
  revert s. induction l as [|i l IH]; intros s; simpl; [by exists [], s|].
  rw {1}/mbind {1}/SE_bind {1}/gets. cbv beta iota. destruct (removal idle now s i) as [[]|] eqn:Hr.
  all: assert (Hst : stays idle now s i = bool_decide (removal idle now s i = None)) by (rw /stays Hr; by case_bool_decide).
  all: rw Hr in Hst; simpl in Hst.
  - destruct (IH s) as (removed & s' & E & H1 & H2 & H3 & H4). exists (i :: removed), s'.
    rw (SE_bind_ok _ _ _ _ _ E) Hst. split_and!; [done..|by constructor|done].
  - destruct (stays_close idle now s i Hst) as (s1 & [(E1 & P1 & L1 & O1 & S1)|Hnone]).
    2: { rw /removal Hnone in Hr. done. }
    destruct (IH s1) as (removed & s' & E & H1 & H2 & H3 & H4). exists (i :: removed), s'.
    rw (SE_bind_ok _ _ _ _ _ E1) (SE_bind_ok _ _ _ _ _ E) Hst.
    rw (filter_ext _ _ S1). split_and!; [done|congruence|congruence| |].
    + constructor; [done|]. eapply Forall_impl; [exact H3|]. intros j. simpl. by rw S1.
    + intros j Hj. rw H4; [by rw S1|]. apply O1. intros ->. congruence.
  - destruct (IH s) as (removed & s' & E & H1 & H2 & H3 & H4). exists removed, s'.
    rw (SE_bind_ok _ _ _ _ _ E) Hst. done.
Qed.

(** What cleaning leaves. *)
Lemma clean_spec idle now s :
  ∃ s', clean_connections idle now s = (Ok (), s') ∧
    pool s' = List.filter (stays idle now s) (pool s) ∧ length (store s') = length (store s) ∧
    ∀ i, stays idle now s i = true → store s' !! i = store s !! i.
Proof.
  destruct (retain_spec idle now (pool s) s) as (removed & s1 & E & H1 & H2 & H3 & H4).
  set (s2 := set_pool (List.filter (stays idle now s) (pool s)) s1).
  assert (Hclean : clean_connections idle now s = shutdown_sessions removed now s2).
  { rw /clean_connections /remove_closed_and_expired. rw {1}/mbind {1}/SE_bind {1}/mbind {1}/SE_bind {1}/gets.
    cbv beta iota. by rw (SE_bind_ok _ _ _ _ _ E). }
  assert (Hgen : ∀ s2, ∃ s', shutdown_sessions removed now s2 = (Ok (), s') ∧ pool s' = pool s2 ∧
    length (store s') = length (store s2) ∧ ∀ i, stays idle now s i = true → store s' !! i = store s2 !! i).
  { clear -H3. induction H3 as [|i l Hi _ IH]; intros s2; [by exists s2|]. rw /shutdown_sessions. cbn [for_each].
    pose proof (on_session_rest i (session_shutdown now) s2) as [P1 L1].
    pose proof (λ j Hj, on_session_other i j (session_shutdown now) s2 Hj) as O1.
    rw {1}/mbind {1}/SE_bind {1}/mbind {1}/SE_bind {1}/attempt.
    destruct (on_session i (session_shutdown now) s2) as [r s3]. simpl in *.
    destruct (IH s3) as (s' & E & P2 & L2 & O2). exists s'. rw /shutdown_sessions in E. rw E. split_and!; [done|congruence|congruence|].
    intros j Hj. rw O2; [done|]. apply O1. intros ->. congruence. }
  destruct (Hgen s2) as (s' & E2 & P2 & L2 & O2). exists s'. rw Hclean. split_and!; [done|done|by rw L2|].
  intros i Hi. rw O2; [done|]. by apply H4.
Qed.

(** Sessions of the pool exist, and their counts are counts. *)
Definition pool_ok s : Prop := ∀ i, i ∈ pool s → ∃ c, store s !! i = Some c ∧ 0 ≤ active_streams c.

Lemma stays_open idle now s i : stays idle now s i = true → closed_at s i = false.
Proof. rw /stays /removal /closed_at. destruct (store s !! i) as [c|]; [|done]. by destruct (closed c). Qed.

Lemma elem_of_filter_bool {A} (f : A → bool) l x : x ∈ List.filter f l ↔ x ∈ l ∧ f x = true.
Proof. by rw !list_elem_of_In filter_In. Qed.
Lemma filter_shorter {A} (f : A → bool) l : (length (List.filter f l) ≤ length l)%nat.
Proof. induction l as [|x l IH]; simpl; [done|]. destruct (f x); simpl; lia. Qed.
Lemma filter_strictly {A} (f : A → bool) l x : x ∈ l → f x = false → (length (List.filter f l) < length l)%nat.
Proof.
  induction l as [|y l IH]; intros Hin Hx; [by apply not_elem_of_nil in Hin|]. simpl.
  pose proof (filter_shorter f l). apply elem_of_cons in Hin as [->|Hin]; [rw Hx; lia|].
  specialize (IH Hin Hx). destruct (f y); simpl; lia.
Qed.

Lemma clean_ok idle now s s' :
  clean_connections idle now s = (Ok (), s') → pool_ok s → pool_ok s' ∧ (length (pool s') ≤ length (pool s))%nat ∧
    (∀ i, i ∈ pool s' → i ∈ pool s ∧ closed_at s i = false).
Proof.
  destruct (clean_spec idle now s) as (s1 & -> & Hp & _ & Hst). intros [= <-] Hok. split_and!.
  - intros i. rw Hp elem_of_filter_bool. intros [Hi Hs]. rw Hst; [done|]. by apply Hok.
  - rw Hp. apply filter_shorter.
  - intros i. rw Hp elem_of_filter_bool. intros [Hi Hs]. split; [done|]. by eapply stays_open.
Qed.

Lemma close_sessions_ok l s :
  ∃ s', close_sessions l s = (Ok (), s') ∧ pool s' = pool s ∧ (pool_ok s → pool_ok s').
Proof.
  revert s. induction l as [|i l IH]; intros s; [by exists s|]. rw /close_sessions. cbn [for_each].
  rw {1}/mbind {1}/SE_bind {1}/mbind {1}/SE_bind {1}/attempt.
  assert (H1 : pool (on_session i close s).2 = pool s ∧ (pool_ok s → pool_ok (on_session i close s).2)).
  { rw /on_session. destruct (store s !! i) as [c|] eqn:Hi; [|done]. simpl. split; [done|]. intros Hok j Hj.
    destruct (Hok j Hj) as (d & Hd & Hn). simpl. destruct (decide (i = j)) as [<-|Hne].
    - rw Hi in Hd. injection Hd as <-. eexists. rw list_lookup_insert_eq; [by eapply lookup_lt_Some|done].
    - exists d. by rw list_lookup_insert_ne. }
  destruct (on_session i close s) as [r s1]. destruct H1 as [P1 K1]. simpl in *.
  destruct (IH s1) as (s' & E & P & K). exists s'. rw /close_sessions in E. rw E. split_and!; [done|congruence|by auto].
Qed.

(** A reservation on a session of the pool. *)
Lemma reserve_at i now s c :
  store s !! i = Some c →
  match on_session i (reserve_stream now) s with
  | (Ok sid, s') => pool s' = pool s ∧ closed_at s' i = false ∧ active_at s' i = active_streams c + 1 ∧
      (pool_ok s → 0 ≤ active_streams c → pool_ok s')
  | (Err _, s') => pool s' = pool s ∧ (pool_ok s → pool_ok s') ∧ (closed_at s' i = true → closed_at s i = true)
  end.
Proof.
  intros Hi. pose proof (lookup_lt_Some _ _ _ Hi) as Hlt. rw /on_session Hi /closed_at Hi /active_at /session_at.
  assert (Hok : ∀ c', 0 ≤ active_streams c' → pool_ok s → pool_ok (set_store (<[i := c']> (store s)) s)).
  { intros c' Hc' Hok j Hj. simpl. destruct (decide (i = j)) as [<-|Hne].
    - exists c'. by rw list_lookup_insert_eq.
    - rw list_lookup_insert_ne; [done|]. by apply Hok. }
  assert (Hsame : ∀ c', active_streams c' = active_streams c → pool_ok s → pool_ok (set_store (<[i := c']> (store s)) s)).
  { intros c' Hc' Hp j Hj. simpl. destruct (decide (i = j)) as [<-|Hne]; [|rw list_lookup_insert_ne; [done|by apply Hp]].
    destruct (Hp i Hj) as (d & Hd & Hn). rw Hi in Hd. injection Hd as <-. exists c'. rw list_lookup_insert_eq; [done|]. by rw Hc'. }
  rw /reserve_stream /touch /mbind /SE_bind /gets /modify /lift /ensure.
  destruct (closed c) eqn:Hc; simpl; [by auto|].
  destruct (negb (next_stream_id c =? 0)); simpl; rw ?list_lookup_insert_eq //=.
  - split_and!; [done|done|done|]. intros Hp Hn. by apply Hok; [simpl; lia|].
  - split_and!; [done| |by rw Hc]. intros Hp. by apply Hsame.
Qed.

Definition fits (tuning : ClientSessionTuning) (n : nat) : Prop :=
  ∀ c, t_max_connections tuning = Some c → Z.of_nat n ≤ Z.max c 1.

(** A new session starts with no stream. *)
Lemma connect_session_ok cfg connected now s :
  match connect_session cfg connected now s with
  | (Ok i, s') => pool s' = pool s ∧ (pool_ok s → pool_ok s') ∧ ∃ c, store s' !! i = Some c ∧ active_streams c = 0
  | (Err _, s') => s' = s
  end.
Proof.
  rw /connect_session /mbind /SE_bind /lift /gets /modify.
  destruct (require_server cfg); [|done]. destruct (tls_server_name cfg); [|done]. destruct connected as [stream|]; [|done].
  destruct (context _ _); [|done]. destruct (write_client_hello_with_padding _ _ _) as [[[]|e] stream']; [|done].
  destruct (encode_frame _ _ _); [|done]. simpl. split_and!; [done| |].
  - intros Hok j Hj. destruct (Hok j Hj) as (c & Hc & Hn). exists c. simpl. rw lookup_app_l; [by eapply lookup_lt_Some|done].
  - eexists. by rw lookup_snoc_last.
Qed.

Definition within (tuning : ClientSessionTuning) s (i : nat) : Prop :=
  i ∈ pool s ∧ closed_at s i = false ∧ 1 ≤ active_at s i ∧
  (t_max_connections tuning = None → ∀ m, t_max_streams tuning = Some m → active_at s i ≤ Z.max m 1).
Definition opened (tuning : ClientSessionTuning) (n : nat) (r : Result (nat * Z)) s' : Prop :=
  pool_ok s' ∧ (fits tuning n → fits tuning (length (pool s'))) ∧
  match r with Ok (i, _) => within tuning s' i | Err _ => (length (pool s') ≤ n)%nat end.

(** The choice is a session of the pool on which a stream may be opened. *)
Lemma select_within tuning s i now sid s' :
  pool_ok s → select tuning s = Some i → on_session i (reserve_stream now) s = (Ok sid, s') →
  within tuning s' i ∧ pool s' = pool s ∧ pool_ok s'.
Proof.
  intros Hok Hsel Hres. pose proof (select_spec tuning s) as Hp. rw Hsel in Hp. destruct Hp as (Hin & Hidle & Hbusy).
  destruct (Hok i Hin) as (c & Hc & Hn). pose proof (reserve_at i now s c Hc) as Hr. rw Hres in Hr.
  destruct Hr as (Hpool & Hcl & Hact & Hpo). split; [|split; [done|by apply Hpo]].
  split_and!; [by rw Hpool|done|lia|]. intros Hnone m Hm. rw Hact.
  assert (Hai : active_at s i = active_streams c) by by rw /active_at /session_at Hc.
  destruct (decide (Exists (λ j, active_at s j = 0) (pool s))) as [Hex|Hno].
  - apply Exists_exists in Hex as (j & Hj & H0). destruct Hidle as [Hz _]; [by exists j|]. lia.
  - destruct Hbusy as (_ & Hlt & _). { intros j Hj H0. apply Hno, Exists_exists. by exists j. }
    specialize (Hlt m Hnone Hm). lia.
Qed.

(** No session to share: a new connection is within the limit. *)
Lemma select_none_fits tuning s :
  pool_ok s → select tuning s = None → fits tuning (S (length (pool s))).
Proof.
  intros Hok Hsel c Hc. pose proof (select_spec tuning s) as Hp. rw Hsel Hc in Hp. destruct Hp as (_ & [Hlt|Hneg]); [lia|].
  destruct (pool s) as [|i l] eqn:Hl; [simpl; lia|]. destruct (Hok i) as (d & Hd & Hn); [rw Hl; by left|].
  specialize (Hneg i ltac:(by left)). rw /active_at /session_at Hd in Hneg. lia.
Qed.

Lemma fits_le tuning n m : (m ≤ n)%nat → fits tuning n → fits tuning m.
Proof. intros Hle Hf c Hc. specialize (Hf c Hc). lia. Qed.

Lemma opened_le tuning n m r s' : (m ≤ n)%nat → opened tuning m r s' → opened tuning n r s'.
Proof.
  intros Hle (H1 & H2 & H3). split_and!; [done| |].
  - intros Hf. by apply H2, (fits_le _ n).
  - destruct r as [[i sid]|e]; [done|lia].
Qed.

Lemma open_new_ok cfg tuning connected now s :
  pool_ok s → select tuning s = None →
  ∃ r s', open_new_session cfg connected now s = (Some r, s') ∧ opened tuning (length (pool s)) r s'.
Proof.
  intros Hok Hsel. rw /open_new_session. pose proof (connect_session_ok cfg connected now s) as Hconn.
  destruct (connect_session cfg connected now s) as [[i|e] s3].
  - destruct Hconn as (P3 & Hok3 & c & Hc & H0). specialize (Hok3 Hok).
    pose proof (reserve_at i now s3 c Hc) as Hr. destruct (on_session i (reserve_stream now) s3) as [[sid|e] s4].
    + destruct Hr as (P4 & Hcl & Hact & Hok4). do 2 eexists. split; [done|]. split_and!.
      * intros j. simpl. intros [Hj|Hj]%elem_of_app; [by apply Hok4; [|lia|]|].
        apply list_elem_of_singleton in Hj as ->. rw /closed_at in Hcl. rw /active_at /session_at in Hact.
        destruct (store s4 !! i) as [d|]; [|done]. exists d. split; [done|lia].
      * intros _. simpl. rw P4 P3 length_app Nat.add_1_r. by apply select_none_fits.
      * rw /active_at /session_at in Hact. rw /within /active_at /session_at /=. split_and!; [|done|lia|].
        -- apply elem_of_app. right. by left.
        -- intros _ m _. lia.
    + destruct Hr as (P4 & Hok4 & _). do 2 eexists. split; [done|].
      split_and!; [by apply Hok4|apply fits_le; by rw P4 P3|by rw P4 P3].
  - subst s3. do 2 eexists. split; [done|]. by split_and!.
Qed.

(** C35: Opening a stream always comes to an end, and within the limits: with
    more rounds than there are pooled sessions, whatever sessions are closed by
    their readers meanwhile, the loop gives a session of the pool that is open
    and whose streams are within [max_streams], or an error; the pool grows
    past neither [max_connections] nor, on an error, its size. *)
Theorem open_stream_limits cfg tuning connected rounds s :
  pool_ok s → (length (pool s) < length rounds)%nat →
  ∃ r s', open_stream cfg tuning connected rounds s = (Some r, s') ∧ opened tuning (length (pool s)) r s'.
Proof.
  revert s. induction rounds as [|rd rounds IH]; intros s Hok Hlen; simpl in *; [lia|].
  destruct (clean_spec (t_idle_timeout tuning) (rd_clean rd) s) as (s1 & E1 & _). rw E1.
  destruct (clean_ok _ _ _ _ E1 Hok) as (Hok1 & Hlen1 & _).
  destruct (close_sessions_ok (rd_closing rd) s1) as (s2 & E2 & P2 & Hok2). rw E2. specialize (Hok2 Hok1).
  destruct (select tuning s2) as [i|] eqn:Hsel.
  - destruct (on_session i (reserve_stream (rd_reserve rd)) s2) as [[sid|e] s3] eqn:Hres.
    + destruct (select_within _ _ _ _ _ _ Hok2 Hsel Hres) as (Hw & P3 & Hok3). do 2 eexists. split; [done|].
      split_and!; [done| |apply Hw..]. apply fits_le. by rw P3 P2.
    + pose proof (select_spec tuning s2) as Hp. rw Hsel in Hp. destruct Hp as (Hin & _).
      destruct (Hok2 i Hin) as (c & Hc & _). pose proof (reserve_at i (rd_reserve rd) s2 c Hc) as Hr. rw Hres in Hr.
      destruct Hr as (P3 & Hok3 & _). specialize (Hok3 Hok2).
      destruct (closed_at s3 i) eqn:Hcl.
      * destruct (clean_spec (t_idle_timeout tuning) (rd_again rd) s3) as (s4 & E4 & P4 & _). rw E4.
        destruct (clean_ok _ _ _ _ E4 Hok3) as (Hok4 & _).
        assert (Hshrink : (length (pool s4) < length (pool s3))%nat).
        { rw P4. apply (filter_strictly _ _ i); [by rw P3|].
          destruct (stays _ _ s3 i) eqn:Hst; [|done]. apply stays_open in Hst. congruence. }
        destruct (IH s4 Hok4) as (r & s' & Hr & Ho1 & Ho2 & Ho3); [rw P3 P2 in Hshrink; lia|].
        exists r, s'. split; [done|]. eapply opened_le; [|by split_and!]. rw P3 P2 in Hshrink. lia.
      * do 2 eexists. split; [done|]. split_and!; [done|apply fits_le; by rw P3 P2|]. by rw P3 P2.
  - destruct (open_new_ok cfg tuning connected (rd_reserve rd) s2 Hok2 Hsel) as (r & s' & E & Ho). rw P2 in Ho.
    exists r, s'. split; [done|]. by eapply opened_le.
Qed.
End policy.
