(* ===== verification/AnytlsUot.v ===== *)
(** * UDP over TCP inside an AnyTLS stream (src/protocol/anytls/inbound.rs)

    The payloads of a stream's frames arrive as chunks on a channel; the
    [ChunkReader] turns them back into one byte stream, from which the request
    and the packets are parsed while replies are framed the other way. *)
From S2P Require Import Prelude Io Text Net Config Socks5Codec AnytlsCodec AnytlsFrames.

(** ** The chunked reader

    [cr_rx] holds the chunks that are still to arrive before the channel
    closes. *)
Record ChunkReader := MkChunkReader {
  cr_rx : list bytes;
  cr_chunks : list bytes;
  front_offset : nat;
  buffered : nat;
}.

Definition chunk_reader_new (rx : list bytes) : ChunkReader := MkChunkReader rx [] 0 0.

Definition UOT_CLOSED : error := EMsg "uot stream closed".

(** [while self.buffered < len] *)
Fixpoint fill_chunks (len : nat) (rx chunks : list bytes) (off buffered : nat) : Result () * ChunkReader :=
  if Nat.ltb buffered len then
    match rx with
    | [] => (Err UOT_CLOSED, MkChunkReader [] chunks off buffered)
    | chunk :: rx =>
        fill_chunks len rx (if Nat.eqb (length chunk) 0 then chunks else chunks ++ [chunk]) off
          (buffered + length chunk)
    end
  else (Ok (), MkChunkReader rx chunks off buffered).

(** [while remaining > 0]: when the front chunk is not used up, nothing
    remains to be taken and the loop ends. *)
Fixpoint take_chunks (rx chunks : list bytes) (off buffered remaining : nat) (output : bytes)
  : bytes * ChunkReader :=
  if Nat.eqb remaining 0 then (output, MkChunkReader rx chunks off buffered)
  else match chunks with
  | [] => (output, MkChunkReader rx chunks off buffered)
  | front :: rest =>
      let available := (length front - off)%nat in
      let n := Nat.min remaining available in
      let output := output ++ take n (drop off front) in
      if Nat.eqb (off + n) (length front)
      then take_chunks rx rest 0 (buffered - n) (remaining - n) output
      else (output, MkChunkReader rx chunks (off + n) (buffered - n))
  end.

Definition chunk_read_exact (len : nat) : SE ChunkReader bytes := λ c,
  match fill_chunks len (cr_rx c) (cr_chunks c) (front_offset c) (buffered c) with
  | (Err e, c) => (Err e, c)
  | (Ok _, c) =>
      let '(output, c) := take_chunks (cr_rx c) (cr_chunks c) (front_offset c) (buffered c) len [] in
      (Ok output, c)
  end.

(** No stored chunk is empty, the front one has bytes left, and [buffered]
    counts the bytes stored. *)
Definition front_ok (chunks : list bytes) (off : nat) : Prop :=
  match chunks with [] => off = 0%nat | front :: _ => (off < length front)%nat end.
Definition chunks_ok (c : ChunkReader) : Prop :=
  Forall (λ l, l ≠ []) (cr_chunks c) ∧ front_ok (cr_chunks c) (front_offset c) ∧
  (front_offset c + buffered c)%nat = length (concat (cr_chunks c)).

Definition chunks_pending (c : ChunkReader) : bytes :=
  drop (front_offset c) (concat (cr_chunks c)) ++ concat (cr_rx c).

Lemma fill_chunks_enough len rx chunks off buf :
  chunks_ok (MkChunkReader rx chunks off buf) → (len ≤ buf + length (concat rx))%nat →
  ∃ c, fill_chunks len rx chunks off buf = (Ok (), c) ∧ chunks_ok c ∧ (len ≤ buffered c)%nat ∧
    chunks_pending c = chunks_pending (MkChunkReader rx chunks off buf).
Proof.
  revert chunks buf. induction rx as [|chunk rx IH]; intros chunks buf Hok Hlen; simpl in *.
  { destruct (Nat.ltb_spec buf len); [lia|]. by eexists. }
  destruct (Nat.ltb_spec buf len); [|by eexists]. rw length_app in Hlen.
  destruct Hok as (Hne & Hfr & Hbuf); simpl in *.
  destruct chunk as [|b chunk]; simpl.
  - rw Nat.add_0_r. apply IH; [done|]. simpl in Hlen. lia.
  - destruct (IH (chunks ++ [b :: chunk]) (buf + S (length chunk))%nat) as (c & -> & Hok & Hle & Hp).
    + split_and!; simpl.
      * apply Forall_app. split; [done|]. by constructor.
      * destruct chunks; simpl in *; [subst; lia|done].
      * rw concat_app length_app /=. rw app_nil_r /=. lia.
    + simpl in *. lia.
    + exists c. split_and!; [done..|]. rw Hp /chunks_pending /= concat_app /= app_nil_r.
      rw drop_app_le; [lia|]. by rw -app_assoc.
Qed.

Lemma fill_chunks_short len rx chunks off buf :
  (buf + length (concat rx) < len)%nat →
  ∃ c, fill_chunks len rx chunks off buf = (Err UOT_CLOSED, c).
Proof.
  revert chunks buf. induction rx as [|chunk rx IH]; intros chunks buf Hlen; simpl in *.
  all: rw (proj2 (Nat.ltb_lt buf len)); [try rw length_app in Hlen; lia|]. { by eexists. }
  apply IH. rw length_app in Hlen. lia.
Qed.

Lemma take_chunks_spec rx chunks off buf n out :
  chunks_ok (MkChunkReader rx chunks off buf) → (n ≤ buf)%nat →
  ∃ c, take_chunks rx chunks off buf n out = (out ++ take n (drop off (concat chunks)), c) ∧
    chunks_ok c ∧ chunks_pending c = drop n (drop off (concat chunks)) ++ concat rx.
Proof.
  revert off buf n out. induction chunks as [|front rest IH]; intros off buf n out (Hne & Hfr & Hbuf) Hn; simpl in *.
  { destruct (Nat.eqb_spec n 0); [|lia]. subst. eexists. rw take_nil app_nil_r. split_and!; [done| |done].
    by split_and!. }
  rw length_app in Hbuf. apply Forall_cons in Hne as [Hf Hne].
  destruct (Nat.eqb_spec n 0) as [->|Hn0].
  { eexists. rw app_nil_r. split_and!; [done| |done]. split_and!; simpl; [by constructor|done|].
    rw length_app. lia. }
  destruct (Nat.eqb_spec (off + n `min` (length front - off)) (length front)) as [He|He].
  - assert (n `min` (length front - off) = length front - off)%nat as -> by lia.
    destruct (IH 0%nat (buf - (length front - off))%nat (n - (length front - off))%nat
      (out ++ take (length front - off) (drop off front))) as (c & Hc & Hok & Hp).
    { split_and!; simpl; [done| |lia]. destruct rest as [|l rest]; [done|]. simpl.
      apply Forall_cons in Hne as [Hl _]. destruct l; [done|simpl; lia]. }
    { lia. }
    exists c. rw Hc Hp. split_and!; [|done|].
    + rw drop_app_le; [lia|]. rw take_app -!app_assoc length_drop. do 2 f_equal.
      by rw (take_ge _ n); [rw length_drop; lia|]; rw take_ge; [rw length_drop|].
    + simpl. rw drop_app_le; [lia|]. rw drop_app length_drop. rw (drop_ge _ n); [rw length_drop; lia|done].
  - assert (n `min` (length front - off) = n)%nat as -> by lia.
    eexists. split_and!; [| |].
    + do 2 f_equal. rw drop_app_le; [lia|]. by rw take_app_le; [rw length_drop; lia|].
    + split_and!; simpl; [by constructor|lia|]. rw length_app. lia.
    + rw /chunks_pending /= drop_drop. done.
Qed.

#[global] Program Instance ChunkReader_reader : ByteReader ChunkReader := {|
  read_exact := chunk_read_exact;
  pending := chunks_pending;
  reader_ok := chunks_ok;
  frame_of := λ _, ();
  starve_error := UOT_CLOSED;
|}.
Next Obligation.
  intros [rx chunks off buf] l r n Hok Hp Hn. rw /chunk_read_exact /=.
  pose proof Hok as (_ & _ & Hbuf). simpl in Hbuf.
  assert (Hlen : (buf + length (concat rx) = n + length r)%nat).
  { apply (f_equal length) in Hp. rw /chunks_pending /= !length_app length_drop Hn in Hp. lia. }
  destruct (fill_chunks_enough n rx chunks off buf Hok ltac:(lia)) as ([rx' chunks' off' buf'] & -> & Hok' & Hle & Hp').
  simpl in *. destruct (take_chunks_spec rx' chunks' off' buf' n [] Hok' Hle) as (c & -> & Hokc & Hpc).
  pose proof Hok' as (_ & _ & Hbuf'). simpl in Hbuf'.
  rw Hp in Hp'. rw /chunks_pending /= in Hp'.
  assert (Hd : (n ≤ length (drop off' (concat chunks')))%nat) by (rw length_drop; lia).
  exists c. split_and!; [|rw Hpc|done|done].
  - simpl. do 2 f_equal. by rw -(take_app_le _ (concat rx')); [done|]; rw Hp' take_app_length'.
  - by rw -drop_app_le; [done|]; rw Hp' drop_app_length'.
Qed.
Next Obligation.
  intros [rx chunks off buf] n (_ & _ & Hbuf) Hlt. simpl in *. rw /chunk_read_exact /=.
  rw /chunks_pending /= length_app length_drop in Hlt.
  destruct (fill_chunks_short n rx chunks off buf) as (c & ->); [lia|]. by eexists.
Qed.

(** ** Parsing the request and the packets *)
Section parsers.
Context {S : Type} `{!ByteReader S}.

Definition read_len_payload : SE S bytes :=
  n ← read_u16; read_exact (Z.to_nat n).

(** The 4 + 2 and 16 + 2 bytes of an IP address and its port. *)
Definition read_v4_target : SE S TargetAddr :=
  bytes ← read_exact 6;
  mret (Ip (socket_addr_new (V4 (take 4 bytes)) (be_val [bytes !!! 4%nat; bytes !!! 5%nat]))).
Definition read_v6_target : SE S TargetAddr :=
  bytes ← read_exact 18;
  mret (Ip (socket_addr_new (V6 (take 16 bytes)) (be_val [bytes !!! 16%nat; bytes !!! 17%nat]))).
Definition read_domain_target : SE S TargetAddr :=
  n ← read_u8;
  let n := Z.to_nat n in
  bytes ← read_exact (n + 2);
  host ← lift (from_utf8 (take n bytes));
  mret (Domain host (be_val [bytes !!! n; bytes !!! (n + 1)%nat])).

Definition read_socks_target : SE S TargetAddr :=
  atyp ← read_u8;
  if atyp =? 0x01 then read_v4_target
  else if atyp =? 0x02 then read_domain_target
  else if atyp =? 0x03 then read_domain_target
  else if atyp =? 0x04 then read_v6_target
  else throw (EMsg "unsupported uot request address type").

Definition read_uot_packet_target : SE S TargetAddr :=
  atyp ← read_u8;
  if atyp =? 0x00 then read_v4_target
  else if atyp =? 0x01 then read_v6_target
  else if atyp =? 0x02 then read_domain_target
  else throw (EMsg "unsupported uot packet address type").

Definition read_packet : SE S (TargetAddr * bytes) :=
  target ← read_uot_packet_target;
  payload ← read_len_payload;
  mret (target, payload).

(** The port behind [l]. *)
Lemma port_behind (l : bytes) p n :
  length l = n → is_u16 p →
  be_val [(l ++ be_bytes 2 p) !!! n; (l ++ be_bytes 2 p) !!! (n + 1)%nat] = p.
Proof.
  intros <- Hp. rw !lookup_total_app_r; [lia..|].
  replace (length l - length l)%nat with 0%nat by lia. replace (length l + 1 - length l)%nat with 1%nat by lia.
  exact (be_val_bytes_u16 p Hp).
Qed.

Lemma read_v4_parses o p :
  length o = 4%nat → is_u16 p → parses read_v4_target (o ++ be_bytes 2 p) (Ip (SockV4 o p)).
Proof.
  intros Ho Hp. eapply parses_bind_ret; [apply parses_exact; rw length_app be_bytes_length; lia|]. cbv beta.
  rw (port_behind o p 4 Ho Hp). by rw take_app_length'.
Qed.
Lemma read_v6_parses o p f s :
  length o = 16%nat → is_u16 p → parses read_v6_target (o ++ be_bytes 2 p) (wire_target (Ip (SockV6 o p f s))).
Proof.
  intros Ho Hp. eapply parses_bind_ret; [apply parses_exact; rw length_app be_bytes_length; lia|]. cbv beta.
  rw (port_behind o p 16 Ho Hp). by rw take_app_length'.
Qed.
Lemma read_domain_parses h p :
  utf8_valid h = true → len h ≤ 255 → is_u16 p →
  parses read_domain_target ([len h] ++ h ++ be_bytes 2 p) (Domain h p).
Proof.
  intros Hh Hl Hp. eapply parses_bind; [apply parses_u8|]. cbv beta zeta.
  assert (Z.to_nat (len h) = length h) as -> by (rw /len; lia).
  eapply parses_bind_ret; [apply parses_exact; rw length_app be_bytes_length; lia|]. cbv beta.
  rw (port_behind h p _ eq_refl Hp) take_app_length'; [done|]. by rw from_utf8_ok.
Qed.
End parsers.

(** The bytes of [encode_uot_packet_addr]. *)
Definition uot_addr_wire (t : TargetAddr) : bytes :=
  match t with
  | Ip (SockV4 o p) => [0x00] ++ o ++ be_bytes 2 p
  | Ip (SockV6 o p _ _) => [0x01] ++ o ++ be_bytes 2 p
  | Domain h p => [0x02] ++ [len h] ++ h ++ be_bytes 2 p
  end.
Definition uot_payload_wire (payload : bytes) : bytes := be_bytes 2 (len payload) ++ payload.
Definition uot_packet_wire (t : TargetAddr) (payload : bytes) : bytes :=
  uot_addr_wire t ++ uot_payload_wire payload.

Lemma encode_uot_packet_addr_wire t : fits_wire t = true → encode_uot_packet_addr t = Ok (uot_addr_wire t).
Proof.
  destruct t as [[o p|o p f s]|h p]; [done..|]. simpl. intros Hf. rw Hf. cbn. rw as_u8_len; [lia|done].
Qed.
Lemma as_u16_len (l : bytes) : len l ≤ U16_MAX → as_u16 (len l) = len l.
Proof. intros H. apply Z.mod_small. pose proof (len_nonneg l). rw /U16_MAX in H. lia. Qed.
Lemma encode_uot_payload_wire l : len l ≤ U16_MAX → encode_uot_payload l = Ok (uot_payload_wire l).
Proof. intros H. rw /encode_uot_payload ensure_then; [by apply Z.leb_le|]. by rw as_u16_len. Qed.
Lemma encode_uot_packet_wire t l :
  fits_wire t = true → len l ≤ U16_MAX → encode_uot_packet t l = Ok (uot_packet_wire t l).
Proof.
  intros Ht H. rw /encode_uot_packet ensure_then; [by apply Z.leb_le|].
  rw encode_uot_packet_addr_wire //= as_u16_len //.
Qed.

Section parser_lemmas.
Context {S : Type} `{!ByteReader S}.

Lemma read_len_payload_parses l : len l ≤ U16_MAX → parses (S:=S) read_len_payload (uot_payload_wire l) l.
Proof.
  intros H. pose proof (len_nonneg l). rw /U16_MAX in H.
  eapply parses_bind; [apply parses_u16; rw /is_u16; lia|]. apply parses_exact. rw /len. lia.
Qed.

Lemma read_socks_target_parses t :
  wf_target t → fits_wire t = true → parses (S:=S) read_socks_target (addr_wire t) (wire_target t).
Proof.
  destruct t as [[o p|o p f s]|h p].
  - intros ((Ho & _) & Hp & _) _. eapply parses_bind; [apply parses_u8|]. by apply read_v4_parses.
  - intros ((Ho & _) & Hp & _) _. eapply parses_bind; [apply parses_u8|]. by apply read_v6_parses.
  - intros [Hh Hp] Hfit%Z.leb_le. eapply parses_bind; [apply parses_u8|]. by apply read_domain_parses.
Qed.

Lemma read_uot_packet_target_parses t :
  wf_target t → fits_wire t = true → parses (S:=S) read_uot_packet_target (uot_addr_wire t) (wire_target t).
Proof.
  destruct t as [[o p|o p f s]|h p].
  - intros ((Ho & _) & Hp & _) _. eapply parses_bind; [apply parses_u8|]. by apply read_v4_parses.
  - intros ((Ho & _) & Hp & _) _. eapply parses_bind; [apply parses_u8|]. by apply read_v6_parses.
  - intros [Hh Hp] Hfit%Z.leb_le. eapply parses_bind; [apply parses_u8|]. by apply read_domain_parses.
Qed.

Lemma read_packet_parses t l :
  wf_target t → fits_wire t = true → len l ≤ U16_MAX →
  parses (S:=S) read_packet (uot_packet_wire t l) (wire_target t, l).
Proof.
  intros Hwf Hfit Hl. eapply parses_bind; [by apply read_uot_packet_target_parses|].
  by eapply parses_bind_ret; [apply read_len_payload_parses|].
Qed.
End parser_lemmas.

(** ** The stream

    [u_input] is what the client sends on the stream, [u_sent] the datagrams
    handed to the outbound, [u_conn] the connection the replies go to. *)
Record Uot := MkUot {
  u_input : ChunkReader;
  u_sent : list (TargetAddr * bytes);
  u_conn : Stream;
}.

Definition on_input {A} (m : SE ChunkReader A) : SE Uot A := λ u,
  let '(r, c) := m (u_input u) in (r, MkUot c (u_sent u) (u_conn u)).
Definition on_writer {A} (m : SE Stream A) : SE Uot A := λ u,
  let '(r, c) := m (u_conn u) in (r, MkUot (u_input u) (u_sent u) c).
(** [outbound.send_to(target, payload)], whose outcome is the outbound's. *)
Definition send_to (outcome : Result ()) (target : TargetAddr) (payload : bytes) : SE Uot () := λ u,
  (outcome, MkUot (u_input u) (u_sent u ++ [(target, payload)]) (u_conn u)).

(** The two branches of the [select!]: the framing read completes, or a reply
    arrives. The read is kept across replies, so only the order in which the
    branches complete matters. *)
Inductive UotEvent :=
  | UotNext (outcome : Result ())
  | UotReply (received : Result (TargetAddr * bytes)).

Section uot.
Context `{!AnytlsCore}.

Definition uot_connect_event (stream_id : Z) (target : TargetAddr) (ev : UotEvent) : SE Uot () :=
  match ev with
  | UotNext outcome =>
      payload ← on_input read_len_payload;
      send_to outcome target payload
  | UotReply received =>
      '(_source, payload) ← lift received;
      frame ← lift (encode_uot_payload payload);
      on_writer (write_frame CMD_PSH stream_id frame)
  end.

Definition uot_packet_event (stream_id : Z) (ev : UotEvent) : SE Uot () :=
  match ev with
  | UotNext outcome =>
      '(target, payload) ← on_input read_packet;
      send_to outcome target payload
  | UotReply received =>
      '(source, payload) ← lift received;
      frame ← lift (encode_uot_packet source payload);
      on_writer (write_frame CMD_PSH stream_id frame)
  end.

(** The loops end by an error only: [Ok] is a loop that is still running. *)
Definition run_uot_connect_stream (stream_id : Z) (target : TargetAddr) (evs : list UotEvent) : SE Uot () :=
  for_each (uot_connect_event stream_id target) evs.
Definition run_uot_packet_stream (stream_id : Z) (evs : list UotEvent) : SE Uot () :=
  for_each (uot_packet_event stream_id) evs.

Definition run_uot_stream {D} (dial_udp : Session → Result D)
    (stream_id : Z) (inbound : bytes) (evs : list UotEvent) : SE Uot () :=
  mode ← on_input read_u8;
  let connect := mode =? 1 in
  request_target ← on_input read_socks_target;
  lift (dial_udp (MkSession inbound UdpAssociate request_target)) ;;
  if connect then run_uot_connect_stream stream_id request_target evs
  else run_uot_packet_stream stream_id evs.

(** The task of [spawn_uot_reader]: however the stream ends, a FIN is written. *)
Definition uot_task {D} (dial_udp : Session → Result D)
    (stream_id : Z) (inbound : bytes) (evs : list UotEvent) : SE Uot () := λ u,
  match run_uot_stream dial_udp stream_id inbound evs u with
  | (Ok _, u) => (Ok (), u)
  | (Err _, u) =>
      let '(_, u) := on_writer (write_frame CMD_FIN stream_id []) u in (Ok (), u)
  end.
End uot.

(** ** The life of a stream *)
Section uot_lemmas.
Context `{!AnytlsCore, !AnytlsLaws}.

Lemma on_input_run {A} (m : SE ChunkReader A) l a c r :
  reads m l a → chunks_ok c → chunks_pending c = l ++ r →
  ∃ c', chunks_ok c' ∧ chunks_pending c' = r ∧
    ∀ sent conn, on_input m (MkUot c sent conn) = (Ok a, MkUot c' sent conn).
Proof.
  intros Hm Hok Hp. destruct (Hm c r Hok Hp) as (c' & Hc & Hp' & Hok' & _). exists c'. split_and!; [done..|].
  intros sent conn. by rw /on_input /= Hc.
Qed.

Lemma on_input_reads {A B} (m : SE ChunkReader A) (f : A → SE Uot B) l a c r sent conn :
  reads m l a → chunks_ok c → chunks_pending c = l ++ r →
  ∃ c', chunks_ok c' ∧ chunks_pending c' = r ∧
    (on_input m ≫= f) (MkUot c sent conn) = f a (MkUot c' sent conn).
Proof.
  intros Hm Hok Hp. destruct (on_input_run _ _ _ _ _ Hm Hok Hp) as (c' & Hok' & Hp' & Hc).
  exists c'. split_and!; [done..|]. by apply SE_bind_ok.
Qed.

Lemma on_input_starves {A B} (m : SE ChunkReader A) (f : A → SE Uot B) l c sent conn :
  needs_all m l → l ≠ [] → chunks_ok c → chunks_pending c = [] →
  ∃ c', (on_input m ≫= f) (MkUot c sent conn) = (Err UOT_CLOSED, MkUot c' sent conn).
Proof.
  intros Hm Hl Hok Hp. destruct (Hm c l Hok) as (c' & Hc); [by rw /= Hp|done|]. exists c'.
  apply SE_bind_err. by rw /on_input /= Hc.
Qed.

Lemma on_writer_frame f input sent r t k :
  wf_frame f → (length (wire f) ≤ k)%nat →
  on_writer (write_frame (frame_command f) (frame_stream_id f) (frame_data f)) (MkUot input sent (MkStream r t k)) =
    (Ok (), MkUot input sent (MkStream r (t ++ wire f) (k - length (wire f)))).
Proof. intros Hf Hk. rw /on_writer /=. by rw write_frame_talks. Qed.

(** A packet as the client encodes it and as the outbound is asked to send it;
    a reply as the client gets it. *)
Definition client_packet (connect : bool) (p : TargetAddr * bytes) : Result bytes :=
  if connect then encode_uot_payload p.2 else encode_uot_packet p.1 p.2.
Definition delivered (connect : bool) (target : TargetAddr) (p : TargetAddr * bytes) : TargetAddr * bytes :=
  (wire_target (if connect then target else p.1), p.2).
Definition reply_frame (connect : bool) (sid : Z) (p : TargetAddr * bytes) : Frame :=
  MkFrame CMD_PSH sid (if connect then uot_payload_wire p.2 else uot_packet_wire p.1 p.2).

Definition uot_event (connect : bool) (sid : Z) (target : TargetAddr) : UotEvent → SE Uot () :=
  if connect then uot_connect_event sid target else uot_packet_event sid.

Definition wf_packet (p : TargetAddr * bytes) : Prop :=
  wf_target p.1 ∧ fits_wire p.1 = true ∧ len p.2 ≤ U16_MAX.

Definition uot_wire (connect : bool) (p : TargetAddr * bytes) : bytes :=
  if connect then uot_payload_wire p.2 else uot_packet_wire p.1 p.2.
Lemma client_packet_wire connect p : wf_packet p → client_packet connect p = Ok (uot_wire connect p).
Proof.
  intros (Hwf & Hfit & Hl). rw /client_packet /uot_wire.
  destruct connect; [by apply encode_uot_payload_wire|by apply encode_uot_packet_wire].
Qed.

Lemma uot_next connect sid target p c r sent conn :
  wf_packet p → chunks_ok c → chunks_pending c = uot_wire connect p ++ r →
  ∃ c', chunks_ok c' ∧ chunks_pending c' = r ∧
    uot_event connect sid (wire_target target) (UotNext (Ok ())) (MkUot c sent conn) =
      (Ok (), MkUot c' (sent ++ [delivered connect target p]) conn).
Proof.
  intros (Hwf & Hfit & Hl) Hok Hp. destruct connect.
  - destruct (read_len_payload_parses (S:=ChunkReader) p.2 Hl) as [Hr _].
    destruct (on_input_reads _ (send_to (Ok ()) (wire_target target)) _ _ _ r sent conn Hr Hok Hp) as (c' & ? & ? & E). by exists c'.
  - destruct (read_packet_parses (S:=ChunkReader) p.1 p.2 Hwf Hfit Hl) as [Hr _].
    destruct (on_input_reads _ (λ x, let '(t, l) := x in send_to (Ok ()) t l) _ _ _ r sent conn Hr Hok Hp) as (c' & ? & ? & E). by exists c'.
Qed.

Lemma uot_next_closed connect sid target o c sent conn :
  chunks_ok c → chunks_pending c = [] →
  ∃ c', uot_event connect sid target (UotNext o) (MkUot c sent conn) = (Err UOT_CLOSED, MkUot c' sent conn).
Proof.
  intros Hok Hp. destruct connect.
  - destruct (read_len_payload_parses (S:=ChunkReader) [] ltac:(done)) as [_ Hn]. by eapply on_input_starves.
  - destruct (read_packet_parses (S:=ChunkReader) (Domain [] 0) [] ltac:(by_decide) eq_refl ltac:(done)) as [_ Hn].
    by eapply on_input_starves.
Qed.

Lemma uot_reply connect sid target p input sent r t k :
  fits_wire p.1 = true → len p.2 ≤ U16_MAX → wf_frame (reply_frame connect sid p) →
  (length (wire (reply_frame connect sid p)) ≤ k)%nat →
  uot_event connect sid target (UotReply (Ok p)) (MkUot input sent (MkStream r t k)) =
    (Ok (), MkUot input sent (MkStream r (t ++ wire (reply_frame connect sid p))
                                (k - length (wire (reply_frame connect sid p))))).
Proof.
  intros Hfit Hl Hf Hk. rw -(on_writer_frame _ input sent r t k Hf Hk). destruct p as [src l], connect.
  - rw /uot_event /uot_connect_event {1}/mbind {1}/SE_bind {1}/lift. cbv beta iota.
    rw encode_uot_payload_wire; [done|]. reflexivity.
  - rw /uot_event /uot_packet_event {1}/mbind {1}/SE_bind {1}/lift. cbv beta iota.
    rw encode_uot_packet_wire; [done..|]. reflexivity.
Qed.

(** The interleavings of the two branches: [ps] packets come in, [rs] replies
    go out. *)
Inductive uot_schedule : list UotEvent → nat → list (TargetAddr * bytes) → Prop :=
  | sched_nil : uot_schedule [] 0 []
  | sched_next evs n rs : uot_schedule evs n rs → uot_schedule (UotNext (Ok ()) :: evs) (S n) rs
  | sched_reply evs n p rs : uot_schedule evs n rs → uot_schedule (UotReply (Ok p) :: evs) n (p :: rs).

Definition wf_reply (connect : bool) (sid : Z) (p : TargetAddr * bytes) : Prop :=
  fits_wire p.1 = true ∧ len p.2 ≤ U16_MAX ∧ wf_frame (reply_frame connect sid p).

Lemma uot_loop connect sid target evs n rs ps c sent r t k :
  uot_schedule evs n rs → length ps = n → Forall wf_packet ps → Forall (wf_reply connect sid) rs →
  chunks_ok c → chunks_pending c = concat (uot_wire connect <$> ps) →
  (length (wires (reply_frame connect sid <$> rs)) ≤ k)%nat →
  ∃ c', chunks_ok c' ∧ chunks_pending c' = [] ∧
    for_each (uot_event connect sid (wire_target target)) evs (MkUot c sent (MkStream r t k)) =
      (Ok (), MkUot c' (sent ++ (delivered connect target <$> ps))
                (MkStream r (t ++ wires (reply_frame connect sid <$> rs))
                   (k - length (wires (reply_frame connect sid <$> rs))))).
Proof.
  intros Hs. revert ps c sent t k. induction Hs as [|evs n rs Hs IH|evs n p rs Hs IH]; intros ps c sent t k Hn Hps Hrs Hok Hp Hk.
  - destruct ps; [|done]. exists c. split_and!; [done..|]. rw /= !app_nil_r. by rw Nat.sub_0_r.
  - destruct ps as [|p ps]; [done|]. injection Hn as Hn. apply Forall_cons in Hps as [Hwp Hps].
    destruct (uot_next connect sid target p c _ sent (MkStream r t k) Hwp Hok Hp) as (c1 & Hok1 & Hp1 & E1).
    destruct (IH ps c1 (sent ++ [delivered connect target p]) t k) as (c2 & Hok2 & Hp2 & E2); [done..|].
    exists c2. split_and!; [done..|]. cbn [for_each]. rw (SE_bind_ok _ _ _ _ _ E1) E2. by rw -app_assoc.
  - apply Forall_cons in Hrs as [(Hf & Hl & Hw) Hrs]. rw fmap_cons wires_cons length_app in Hk.
    destruct (IH ps c sent (t ++ wire (reply_frame connect sid p)) (k - length (wire (reply_frame connect sid p)))%nat)
      as (c2 & Hok2 & Hp2 & E2); [done..|lia|].
    exists c2. split_and!; [done..|]. cbn [for_each].
    rw (SE_bind_ok _ _ _ _ _ (uot_reply connect sid _ p c sent r t k Hf Hl Hw ltac:(lia))) E2.
    by rw -app_assoc fmap_cons wires_cons length_app Nat.sub_add_distr.
Qed.

Definition request_wire (connect : bool) (target : TargetAddr) : bytes :=
  [if connect then 1 else 0] ++ addr_wire target.
Lemma uot_request_talks connect target r :
  fits_wire target = true → talks (write_uot_v2_request connect target) r (Ok ()) r (request_wire connect target).
Proof.
  intros Hfit. rw /write_uot_v2_request /encode_uot_addr encode_socksaddr_wire; [done|].
  eapply talks_bind; [apply talks_write|]. talk_quiet. eapply talks_bind_last; [apply talks_write|apply talks_ret].
Qed.

Lemma run_uot_stream_request {D} (dial_udp : Session → Result D) d sid inbound connect target evs c r sent conn :
  wf_target target → fits_wire target = true →
  chunks_ok c → chunks_pending c = request_wire connect target ++ r →
  dial_udp (MkSession inbound UdpAssociate (wire_target target)) = Ok d →
  ∃ c', chunks_ok c' ∧ chunks_pending c' = r ∧
    run_uot_stream dial_udp sid inbound evs (MkUot c sent conn) =
      for_each (uot_event connect sid (wire_target target)) evs (MkUot c' sent conn).
Proof.
  intros Hwf Hfit Hok Hp Hd. rw /run_uot_stream.
  edestruct (on_input_run read_u8) as (c1 & Hok1 & Hp1 & E1); [apply parses_u8|exact Hok|exact Hp|].
  edestruct (on_input_run read_socks_target) as (c2 & Hok2 & Hp2 & E2);
    [by apply read_socks_target_parses|exact Hok1|exact Hp1|].
  rw (SE_bind_ok _ _ _ _ _ (E1 _ _)). cbv beta zeta. rw (SE_bind_ok _ _ _ _ _ (E2 _ _)).
  exists c2. split_and!; [done..|]. rw Hd {1}/mbind {1}/SE_bind {1}/lift. cbv beta iota. by destruct connect.
Qed.

Lemma client_packets_wire connect ps encs :
  Forall wf_packet ps → Forall2 (λ p e, client_packet connect p = Ok e) ps encs →
  encs = uot_wire connect <$> ps.
Proof.
  intros Hps Hencs. induction Hencs as [|p e ps encs He _ IH]; [done|].
  apply Forall_cons in Hps as [Hp Hps]. rw client_packet_wire // in He. injection He as <-.
  by rw IH.
Qed.

Lemma uot_stream_life {D} (dial_udp : Session → Result D) d connect target ps chunks evs rs sid inbound o r t k :
  wf_target target → fits_wire target = true → is_u32 sid →
  Forall wf_packet ps →
  concat chunks = request_wire connect target ++ concat (uot_wire connect <$> ps) →
  dial_udp (MkSession inbound UdpAssociate (wire_target target)) = Ok d →
  uot_schedule evs (length ps) rs → Forall (wf_reply connect sid) rs →
  (length (wires ((reply_frame connect sid <$> rs) ++ [MkFrame CMD_FIN sid []])) ≤ k)%nat →
  ∃ c' k', uot_task dial_udp sid inbound (evs ++ [UotNext o]) (MkUot (chunk_reader_new chunks) [] (MkStream r t k)) =
    (Ok (), MkUot c' (delivered connect target <$> ps)
              (MkStream r (t ++ wires ((reply_frame connect sid <$> rs) ++ [MkFrame CMD_FIN sid []])) k')).
Proof.
  intros Hwf Hfit Hsid Hps Hchunks Hd Hs Hrs Hk.
  rw wires_app length_app in Hk.
  destruct (run_uot_stream_request dial_udp d sid inbound connect target (evs ++ [UotNext o])
    (chunk_reader_new chunks) (concat (uot_wire connect <$> ps)) [] (MkStream r t k)) as (c1 & Hok1 & Hp1 & E1);
    [done..|].
  destruct (uot_loop connect sid target evs (length ps) rs ps c1 [] r t k) as (c2 & Hok2 & Hp2 & E2); [done..|lia|].
  rw (for_each_app _ _ _ _ _ E2) in E1. cbn [for_each] in E1.
  destruct (uot_next_closed connect sid (wire_target target) o c2 (delivered connect target <$> ps)
    (MkStream r (t ++ wires (reply_frame connect sid <$> rs)) (k - length (wires (reply_frame connect sid <$> rs))))
    Hok2 Hp2) as (c3 & E3).
  rw (SE_bind_err _ _ _ _ _ E3) in E1. rw /uot_task E1.
  assert (Hf : wf_frame (MkFrame CMD_FIN sid [])) by (split_and!; [rw /is_u8 /= /CMD_FIN; lia|exact Hsid|done]).
  pose proof (on_writer_frame _ c3 (delivered connect target <$> ps) r (t ++ wires (reply_frame connect sid <$> rs))
    (k - length (wires (reply_frame connect sid <$> rs))) Hf) as E4.
  rw E4; [simpl in *; lia|]. do 2 eexists. by rw wires_app -app_assoc.
Qed.

(** C32: A UDP-over-TCP stream relays exactly what the two sides send, however
    the client's bytes are cut into frames and however packets and replies
    interleave: the request is parsed back, every packet the client encoded is
    handed to the outbound once, in order, with its target, every reply becomes
    one PSH frame in order, and when the client closes the stream after its
    last packet the task ends with a FIN. *)
Theorem uot_end_to_end {D} (dial_udp : Session → Result D) d connect target req ps encs chunks evs rs sid inbound o r t k :
  wf_target target → fits_wire target = true → is_u32 sid →
  talks (write_uot_v2_request connect target) [] (Ok ()) [] req →
  Forall wf_packet ps → Forall2 (λ p e, client_packet connect p = Ok e) ps encs →
  concat chunks = req ++ concat encs →
  dial_udp (MkSession inbound UdpAssociate (wire_target target)) = Ok d →
  uot_schedule evs (length ps) rs → Forall (wf_reply connect sid) rs →
  (length (wires ((reply_frame connect sid <$> rs) ++ [MkFrame CMD_FIN sid []])) ≤ k)%nat →
  ∃ c' k', uot_task dial_udp sid inbound (evs ++ [UotNext o]) (MkUot (chunk_reader_new chunks) [] (MkStream r t k)) =
    (Ok (), MkUot c' (delivered connect target <$> ps)
              (MkStream r (t ++ wires ((reply_frame connect sid <$> rs) ++ [MkFrame CMD_FIN sid []])) k')).
Proof.
  intros Hwf Hfit Hsid Hreq Hps Hencs Hchunks. apply uot_stream_life; [done..|].
  rw -(talks_det _ _ _ _ _ _ _ _ Hreq (uot_request_talks connect target [] Hfit)).
  by rw -(client_packets_wire _ _ _ Hps Hencs).
Qed.
End uot_lemmas.
