(* ===== verification/AnytlsClientUdp.v ===== *)
(** * UDP through the AnyTLS outbound (src/protocol/anytls/outbound.rs)

    [AnytlsUdpSession]: one UDP-over-TCP stream per target, made on demand,
    dropped when idle and replaced when its task has ended; and the task that
    relays one stream. *)
From S2P Require Import Prelude Io Text Net Config Socks5Codec AnytlsCodec AnytlsFrames AnytlsUot.

Definition UDP_STREAM_IDLE_TIMEOUT : Z := from_secs (5 * 60).

(** The task of a stream: its target, what was sent on its channel, the time of
    its last use (shared with the table), whether it still runs. *)
Record UotStreamTask := MkUotTask { ut_target : TargetAddr; ut_sent : list bytes; ut_last_used : Z; ut_open : bool }.

(** The table of streams and the tasks spawned. *)
Record AnytlsUdpSession := MkUdpSession { us_streams : gmap TargetAddr nat; us_tasks : list UotStreamTask }.
Definition set_us_streams v s := MkUdpSession v (us_tasks s).
Definition set_us_tasks v s := MkUdpSession (us_streams s) v.

(** [dial_udp]: a session without streams. *)
Definition anytls_dial_udp (session : Session) : Result AnytlsUdpSession :=
  ensure (bool_decide (session_command session = UdpAssociate)) "anytls udp outbound only supports UDP associate" ;;
  Ok (MkUdpSession ∅ []).

Definition udp_last_used (s : AnytlsUdpSession) (i : nat) (fallback : Z) : Z :=
  match us_tasks s !! i with Some t => ut_last_used t | None => fallback end.

Definition evict_idle_udp_streams (now : Z) : SE AnytlsUdpSession nat :=
  before ← gets (λ s, size (us_streams s));
  modify (λ s, set_us_streams
    (filter (λ e, saturating_duration_since now (udp_last_used s e.2 now) < UDP_STREAM_IDLE_TIMEOUT) (us_streams s)) s) ;;
  gets (λ s, before - size (us_streams s))%nat.

(** A tick of [spawn_udp_stream_cleaner]: [false] ends the loop, when only the
    cleaner still holds the table. *)
Definition udp_cleaner_tick (strong_count : nat) (now : Z) : SE AnytlsUdpSession bool :=
  if Nat.eqb strong_count 1 then mret false
  else
    _ ← evict_idle_udp_streams now;
    mret true.

Definition touch_udp_activity (i : nat) (now : Z) : SE AnytlsUdpSession () :=
  modify (λ s, set_us_tasks (alter (λ t, MkUotTask (ut_target t) (ut_sent t) now (ut_open t)) i (us_tasks s)) s).

(** [spawn_uot_stream] with its channel. *)
Definition spawn_uot_stream (target : TargetAddr) (now : Z) : SE AnytlsUdpSession nat := λ s,
  (Ok (length (us_tasks s)), set_us_tasks (us_tasks s ++ [MkUotTask target [] now true]) s).

Definition sender_for (target : TargetAddr) (now : Z) : SE AnytlsUdpSession nat :=
  _ ← evict_idle_udp_streams now;
  stream ← gets (λ s, us_streams s !! target);
  match stream with
  | Some i => touch_udp_activity i now ;; mret i
  | None =>
      i ← spawn_uot_stream target now;
      modify (λ s, set_us_streams (<[target := i]> (us_streams s)) s) ;;
      mret i
  end.

(** [recv_from]: the next response; the session holds a sender of the channel
    itself, so that an empty channel is waited on. *)
Definition anytls_recv_from (responses : list (TargetAddr * bytes))
  : option (Result (TargetAddr * bytes)) * list (TargetAddr * bytes) :=
  match responses with
  | response :: rest => (Some (Ok response), rest)
  | [] => (None, [])
  end.

Definition remove_udp_stream (target : TargetAddr) : SE AnytlsUdpSession () :=
  modify (λ s, set_us_streams (delete target (us_streams s)) s).

(** [tx.send(data).await]: [false] gives the data back. *)
Definition udp_chan_send (i : nat) (data : bytes) : SE AnytlsUdpSession bool := λ s,
  match us_tasks s !! i with
  | Some t =>
      if ut_open t
      then (Ok true, set_us_tasks (<[i := MkUotTask (ut_target t) (ut_sent t ++ [data]) (ut_last_used t) true]> (us_tasks s)) s)
      else (Ok false, s)
  | None => (Ok false, s)
  end.

(** The [retry]-th pass of [send_to]; [ending] are the tasks that end between
    the lookup and the send. *)
Definition end_tasks (l : list nat) : SE AnytlsUdpSession () :=
  modify (λ s, set_us_tasks
    (foldr (λ i ts, alter (λ t, MkUotTask (ut_target t) (ut_sent t) (ut_last_used t) false) i ts) (us_tasks s) l) s).

Fixpoint udp_send_to (retries : nat) (target : TargetAddr) (payload : bytes) (rounds : list (Z * list nat))
  : SE AnytlsUdpSession () :=
  match retries, rounds with
  | S retries, (now, ending) :: rounds =>
      i ← sender_for target now;
      end_tasks ending ;;
      sent ← udp_chan_send i payload;
      if (sent : bool) then mret ()
      else match retries with
      | O => throw (EMsg "anytls udp stream is closed after retry")
      | _ => remove_udp_stream target ;; udp_send_to retries target payload rounds
      end
  | _, _ => throw (EMsg "retry loop always returns")
  end.
Definition anytls_send_to (target : TargetAddr) (payload : bytes) (rounds : list (Z * list nat)) : SE AnytlsUdpSession () :=
  udp_send_to 2 target payload rounds.

(** ** The task of a stream *)

(** [ur_stream] is the AnyTLS stream, [ur_responses] what was handed back. *)
Record UotRelay := MkRelayState { ur_stream : Stream; ur_responses : list (TargetAddr * bytes); ur_last_used : Z }.

(** The branches of the [select!]: a payload is received or the channel is
    closed; a response is read, and its hand-over succeeds or not. *)
Inductive UotRelayEvent :=
  | RelayPayload (payload : bytes) (now : Z)
  | RelayChannelClosed
  | RelayResponse (handed_over : bool) (now : Z).

Section relay.

Definition on_ur_stream {A} (m : SE Stream A) : SE UotRelay A := λ s,
  let '(r, c) := m (ur_stream s) in (r, MkRelayState c (ur_responses s) (ur_last_used s)).
Definition ur_touch (now : Z) : SE UotRelay () := modify (λ s, MkRelayState (ur_stream s) (ur_responses s) now).

(** [true] is a loop that goes on. *)
Definition uot_relay_event (target : TargetAddr) (ev : UotRelayEvent) : SE UotRelay bool :=
  match ev with
  | RelayPayload payload now =>
      ur_touch now ;;
      on_ur_stream (write_uot_payload payload) ;;
      mret true
  | RelayChannelClosed => mret false
  | RelayResponse handed_over now =>
      payload ← on_ur_stream read_uot_payload;
      ur_touch now ;;
      when handed_over (modify (λ s, MkRelayState (ur_stream s) (ur_responses s ++ [(target, payload)]) (ur_last_used s))) ;;
      mret handed_over
  end.

Fixpoint uot_relay_loop (target : TargetAddr) (evs : list UotRelayEvent) : SE UotRelay () :=
  match evs with
  | [] => mret ()
  | ev :: evs => go ← uot_relay_event target ev; if (go : bool) then uot_relay_loop target evs else mret ()
  end.

Definition relay_uot_stream (target : TargetAddr) (evs : list UotRelayEvent) : SE UotRelay () :=
  on_ur_stream (write_uot_v2_request true target) ;;
  uot_relay_loop target evs.
End relay.

(** ** Sending through the table

    What the tasks are for and what was sent to each; every stream of the table
    is the one of its target. *)
Definition udp_view (s : AnytlsUdpSession) : list (TargetAddr * list bytes) :=
  (λ t, (ut_target t, ut_sent t)) <$> us_tasks s.
Definition udp_inv (s : AnytlsUdpSession) : Prop :=
  ∀ target i, us_streams s !! target = Some i → fst <$> udp_view s !! i = Some target.
Definition push_sent (data : bytes) (e : TargetAddr * list bytes) : TargetAddr * list bytes := (e.1, e.2 ++ [data]).

Lemma fmap_alter_same {A B} (f : A → B) (g : A → A) (i : nat) (l : list A) : (∀ x, f (g x) = f x) → f <$> alter g i l = f <$> l.
Proof.
  intros Hfg. apply list_eq. intros j. rw !list_lookup_fmap. destruct (decide (i = j)) as [<-|Hj].
  - rw list_lookup_alter_eq. destruct (l !! i); [|done]. by rw /= Hfg.
  - by rw list_lookup_alter_ne.
Qed.
Lemma end_tasks_view l s : udp_view (end_tasks l s).2 = udp_view s ∧ us_streams (end_tasks l s).2 = us_streams s.
Proof.
  split; [|done]. rw /udp_view /=. induction l as [|i l IH]; [done|]. cbn [foldr].
  rw fmap_alter_same; [done|]. exact IH.
Qed.
Lemma end_tasks_open l s i :
  i ∉ l → us_tasks (end_tasks l s).2 !! i = us_tasks s !! i.
Proof.
  intros Hi. simpl. induction l as [|j l IH]; [done|]. apply not_elem_of_cons in Hi as [Hj Hi]. cbn [foldr].
  rw list_lookup_alter_ne; [done|]. by apply IH.
Qed.

Lemma udp_inv_same s s' : udp_view s' = udp_view s → us_streams s' ⊆ us_streams s → udp_inv s → udp_inv s'.
Proof. intros Hv Hs Hi target i Ht. rw Hv. apply Hi. by eapply lookup_weaken. Qed.

(** The cleaner forgets exactly the streams that have been idle too long: it
    keeps the table and what was sent, and a session in use. *)
Lemma cleaner_spec n now s :
  udp_inv s → n ≠ 1%nat → ∃ s', udp_cleaner_tick n now s = (Ok true, s') ∧ udp_inv s' ∧ us_tasks s' = us_tasks s ∧
    ∀ target i, us_streams s' !! target = Some i ↔
      us_streams s !! target = Some i ∧ saturating_duration_since now (udp_last_used s i now) < UDP_STREAM_IDLE_TIMEOUT.
Proof.
  intros Hinv Hn. rw /udp_cleaner_tick (proj2 (Nat.eqb_neq _ _) Hn). eexists. split; [reflexivity|]. split_and!; [|done|].
  - eapply (udp_inv_same s); [|apply map_filter_subseteq|done]. done.
  - intros target i. cbn. by rw map_lookup_filter_Some.
Qed.

(** The sender is the one of the stream of the table, or of a new one. *)
Lemma sender_for_spec target now s :
  udp_inv s → ∃ i s', sender_for target now s = (Ok i, s') ∧ udp_inv s' ∧ us_streams s' !! target = Some i ∧
    ((udp_view s' = udp_view s ∧ us_streams s !! target = Some i) ∨
     (udp_view s' = udp_view s ++ [(target, [])] ∧ i = length (us_tasks s) ∧
      us_tasks s' !! i = Some (MkUotTask target [] now true))).
Proof.
  intros Hinv. rw /sender_for /mbind /SE_bind /=.
  set (live := filter _ _). assert (Hsub : live ⊆ us_streams s) by apply map_filter_subseteq.
  assert (Hi : udp_inv (set_us_streams live s)) by exact (udp_inv_same s (set_us_streams live s) eq_refl Hsub Hinv).
  destruct (live !! target) as [i|] eqn:E; simpl; do 2 eexists; (split; [done|]).
  - assert (Hv : udp_view (set_us_tasks (alter (λ t, MkUotTask (ut_target t) (ut_sent t) now (ut_open t)) i
      (us_tasks s)) (set_us_streams live s)) = udp_view s) by by apply fmap_alter_same.
    split_and!; [by refine (udp_inv_same s _ Hv Hsub Hinv)|done|]. left. split; [done|]. by eapply lookup_weaken.
  - assert (Hv : udp_view (set_us_tasks (us_tasks s ++ [MkUotTask target [] now true]) s) = udp_view s ++ [(target, [])])
      by by rw /udp_view /= fmap_app.
    split_and!; [|by rw lookup_insert_eq|right; split_and!; [done..|by apply lookup_snoc_last]].
    intros t j. simpl. rw /udp_view /= fmap_app. destruct (decide (target = t)) as [<-|Ht]; simpl_map.
    + intros [= <-]. by rw lookup_app_r length_fmap; [|rw Nat.sub_diag].
    + intros Hj%Hi. rw lookup_app_l; [|done]. rw /udp_view in Hj. apply fmap_Some in Hj as (e & Hj & _). by eapply lookup_lt_Some.
Qed.

Lemma udp_chan_send_spec i data s :
  udp_inv s → ∃ b s', udp_chan_send i data s = (Ok b, s') ∧ udp_inv s' ∧ us_streams s' = us_streams s ∧
    udp_view s' = (if (b : bool) then alter (push_sent data) i (udp_view s) else udp_view s) ∧
    (b = true ↔ ∃ t, us_tasks s !! i = Some t ∧ ut_open t = true).
Proof.
  intros Hinv. rw /udp_chan_send. destruct (us_tasks s !! i) as [t|] eqn:E; [destruct (ut_open t) eqn:Ho|].
  2,3: eexists _, _; (split_and!; [done..|]); naive_solver.
  assert (Hv : udp_view (set_us_tasks (<[i := MkUotTask (ut_target t) (ut_sent t ++ [data]) (ut_last_used t) true]>
    (us_tasks s)) s) = alter (push_sent data) i (udp_view s)).
  { rw /udp_view /= list_fmap_insert. apply list_eq. intros j.
    destruct (decide (i = j)) as [<-|Hj]; [|by rw list_lookup_insert_ne // list_lookup_alter_ne].
    rw list_lookup_alter_eq list_lookup_insert_eq; [rw length_fmap; by eapply lookup_lt_Some|]. by rw list_lookup_fmap E. }
  eexists _, _. split_and!; [done| |done|done|]; [|naive_solver].
  intros target j Hj%Hinv. rw Hv. destruct (decide (i = j)) as [<-|Hne]; [|by rw list_lookup_alter_ne].
  rw list_lookup_alter_eq. by destruct (udp_view s !! i).
Qed.

(** One pass of the loop of [send_to], up to the outcome of the send. *)
Lemma udp_pass target payload now ending s :
  udp_inv s → ∃ i b s' n,
    (∀ k : bool → SE AnytlsUdpSession (),
       (i ← sender_for target now; end_tasks ending ;; sent ← udp_chan_send i payload; k sent) s = k b s') ∧
    udp_inv s' ∧ us_streams s' !! target = Some i ∧
    udp_view s' = (if b then alter (push_sent payload) i (udp_view s ++ replicate n (target, []))
                   else udp_view s ++ replicate n (target, [])) ∧
    (us_streams s !! target = None → length (us_tasks s) ∉ ending → b = true).
Proof.
  intros Hinv. destruct (sender_for_spec target now s Hinv) as (i & s1 & E1 & Hi1 & Ht1 & Hcase).
  set (s2 := (end_tasks ending s1).2). destruct (end_tasks_view ending s1) as [Hv2 Hs2].
  assert (Hi2 : udp_inv s2) by (eapply (udp_inv_same s1); [exact Hv2|by rw Hs2|done]).
  destruct (udp_chan_send_spec i payload s2 Hi2) as (b & s3 & E3 & Hi3 & Hs3 & Hv3 & Hb).
  exists i, b, s3, (if decide (udp_view s1 = udp_view s) then 0 else 1)%nat. split_and!.
  - intros k. rw (SE_bind_ok _ _ _ _ _ E1). cbv beta.
    rw (SE_bind_ok (end_tasks ending) _ s1 () s2 eq_refl). by rw (SE_bind_ok _ _ _ _ _ E3).
  - done.
  - by rw Hs3 Hs2.
  - rw Hv3 Hv2. case_decide as Hd; [by rw /= app_nil_r Hd|].
    destruct Hcase as [[Hv _]|(Hv & _)]; [done|]. by rw Hv.
  - intros Hnone Hne. destruct Hcase as [[_ Ht]|(_ & -> & Hnew)]; [by rw Hnone in Ht|].
    apply Hb. eexists. by rw /s2 end_tasks_open.
Qed.

(** C33: Sending a datagram through the AnyTLS outbound ends, whatever streams end
    in between, in one of two ways. It succeeds, and then the payload was put,
    once and behind what was sent before, on the channel of one stream, which is
    a stream of this target and the one in the table; or it fails with the
    error of the retry, and then the payload was put on no channel. It cannot
    fail when the stream made for the retry has not ended by then: a stream
    that ended is replaced. What was sent to every other stream is untouched,
    and the table stays one of streams of their targets. *)
Theorem udp_send_retries target payload now1 ending1 now2 ending2 s :
  udp_inv s →
  ∃ r s' n, anytls_send_to target payload [(now1, ending1); (now2, ending2)] s = (r, s') ∧
    udp_inv s' ∧
    let before := udp_view s ++ replicate n (target, []) in
    (r = Ok () ∧ (∃ i, us_streams s' !! target = Some i ∧ (∃ sent, before !! i = Some (target, sent)) ∧
                   udp_view s' = alter (push_sent payload) i before) ∨
     r = Err (EMsg "anytls udp stream is closed after retry") ∧ udp_view s' = before) ∧
    ((∀ i, i ∈ ending2 → (i < length (us_tasks s))%nat) → r = Ok ()).
Proof.
  intros Hinv. rw /anytls_send_to /=.
  assert (Hput : ∀ s1 i l, udp_inv s1 → us_streams s1 !! target = Some i →
    udp_view s1 = alter (push_sent payload) i l → ∃ sent, l !! i = Some (target, sent)).
  { intros s1 i l Hi Ht Hv. specialize (Hi _ _ Ht). rw Hv list_lookup_alter_eq in Hi.
    destruct (l !! i) as [[t sent]|]; [|done]. injection Hi as ->. by exists sent. }
  destruct (udp_pass target payload now1 ending1 s Hinv) as (i1 & b1 & s1 & n1 & E1 & Hi1 & Ht1 & Hv1 & _).
  rw E1. destruct b1. { exists (Ok ()), s1, n1. split_and!; [done..| |done]. left. eauto 6. }
  set (s2 := (remove_udp_stream target s1).2).
  rw (SE_bind_ok (remove_udp_stream target) _ s1 () s2 eq_refl).
  assert (Hi2 : udp_inv s2).
  { eapply (udp_inv_same s1); [done|apply delete_subseteq|done]. }
  destruct (udp_pass target payload now2 ending2 s2 Hi2) as (i2 & b2 & s3 & n2 & E2 & Hi3 & Ht3 & Hv3 & Hfresh).
  change (udp_view s2) with (udp_view s1) in Hv3. rw Hv1 -app_assoc -replicate_add in Hv3. rw E2.
  exists (if b2 then Ok () else Err (EMsg "anytls udp stream is closed after retry")), s3, (n1 + n2)%nat.
  split_and!; [by destruct b2|done|destruct b2; [left; eauto 6|by right]|].
  intros Hend. rw Hfresh; [apply lookup_delete_eq| |done]. intros Hin%Hend.
  apply (f_equal length) in Hv1. rw length_app !length_fmap length_replicate in Hv1.
  change (us_tasks s2) with (us_tasks s1) in Hin. lia.
Qed.

(** ** The two ends of a UDP-over-TCP stream *)
Section relay_lemmas.
Context `{!AnytlsCore, !AnytlsLaws}.

(** The interleavings of the client's [select!]: the payloads [ps] go out, [n]
    responses come in and are handed over. *)
Inductive relay_schedule : list UotRelayEvent → list bytes → nat → Prop :=
  | relay_nil : relay_schedule [] [] 0
  | relay_payload evs ps n p now : relay_schedule evs ps n → relay_schedule (RelayPayload p now :: evs) (p :: ps) n
  | relay_response evs ps n now : relay_schedule evs ps n → relay_schedule (RelayResponse true now :: evs) ps (S n).

Definition uot_fits (p : bytes) : Prop := len p ≤ U16_MAX.

Lemma write_uot_payload_talks p r : uot_fits p → talks (write_uot_payload p) r (Ok ()) r (uot_payload_wire p).
Proof.
  intros Hp. rw /write_uot_payload encode_uot_payload_wire; [done|]. talk_quiet.
  eapply talks_bind_last; [apply talks_write|apply talks_ret].
Qed.
Lemma read_uot_payload_reads p : uot_fits p → reads (S:=Stream) read_uot_payload (uot_payload_wire p) p.
Proof.
  intros Hp. rw /uot_fits /U16_MAX in Hp. pose proof (len_nonneg p). apply (parses_bind _ _ (be_bytes 2 (len p)) p (len p)).
  - apply parses_u16. rw /is_u16. lia.
  - apply parses_exact. rw /len. lia.
Qed.

Lemma relay_loop target evs ps n rs r t k resp now :
  relay_schedule evs ps n → length rs = n → Forall uot_fits ps → Forall uot_fits rs →
  (length (concat (uot_payload_wire <$> ps)) ≤ k)%nat →
  ∃ k' now', uot_relay_loop target evs (MkRelayState (MkStream (concat (uot_payload_wire <$> rs) ++ r) t k) resp now) =
    (Ok (), MkRelayState (MkStream r (t ++ concat (uot_payload_wire <$> ps)) k') (resp ++ (pair target <$> rs)) now').
Proof.
  intros Hs. revert rs t k resp now. induction Hs as [|evs ps n p now1 Hs IH|evs ps n now1 Hs IH]; intros rs t k resp now Hn Hps Hrs Hk.
  - destruct rs; [|done]. simpl. rw !app_nil_r. eauto.
  - apply Forall_cons in Hps as [Hp Hps]. rw fmap_cons concat_cons length_app in Hk.
    destruct (IH rs (t ++ uot_payload_wire p) (k - length (uot_payload_wire p))%nat resp now1) as (k' & now' & E);
      [done..|lia|]. exists k', now'. rw -app_assoc in E. rw -E. cbn [uot_relay_loop uot_relay_event].
    rw /mbind /SE_bind /= /on_ur_stream /=. by rw (write_uot_payload_talks p _ Hp); [lia|].
  - destruct rs as [|p rs]; [done|]. apply Forall_cons in Hrs as [Hp Hrs]. injection Hn as Hn.
    destruct (IH rs t k (resp ++ [(target, p)]) now1) as (k' & now' & E); [done..|].
    exists k', now'. rw -app_assoc in E. rw fmap_cons -E. cbn [uot_relay_loop uot_relay_event].
    rw /mbind /SE_bind /= /on_ur_stream /= -app_assoc.
    by rw (stream_parse _ (uot_payload_wire p) _ _ _ p); [by apply read_uot_payload_reads|].
Qed.

Lemma psh_data_replies connect sid rs : psh_data sid (reply_frame connect sid <$> rs) = concat (frame_data ∘ reply_frame connect sid <$> rs).
Proof.
  rw /psh_data -list_fmap_compose. f_equal. apply list_fmap_ext. intros i p _. by rw /= decide_True.
Qed.

(** C14: The two ends of a UDP-over-TCP stream understand each other. The client's
    task for a target, sending the payloads and reading what the server's frames
    carry for the stream, hands every reply's payload back once and in order;
    and the server's task, reading the bytes the client wrote however they are
    cut into frames, asks the outbound to send exactly those payloads, in order,
    to the target, whatever the interleavings on the two sides. *)
Theorem uot_client_server {D} (dial_udp : Session → Result D) d target ps rs cevs sevs sid inbound o k t0 ks r t :
  wf_target target → fits_wire target = true → is_u32 sid →
  Forall uot_fits ps → Forall (wf_reply true sid) rs →
  relay_schedule cevs ps (length rs) → uot_schedule sevs (length ps) rs →
  dial_udp (MkSession inbound UdpAssociate (wire_target target)) = Ok d →
  (length (request_wire true target ++ concat (uot_payload_wire <$> ps)) ≤ k)%nat →
  (length (wires ((reply_frame true sid <$> rs) ++ [MkFrame CMD_FIN sid []])) ≤ ks)%nat →
  ∃ client,
    relay_uot_stream target cevs (MkRelayState (MkStream (psh_data sid (reply_frame true sid <$> rs)) [] k) [] t0)
      = (Ok (), client) ∧
    ur_responses client = (λ p, (target, p.2)) <$> rs ∧
    ∀ chunks, concat chunks = tx (ur_stream client) → ∃ c' ks',
      uot_task dial_udp sid inbound (sevs ++ [UotNext o]) (MkUot (chunk_reader_new chunks) [] (MkStream r t ks)) =
        (Ok (), MkUot c' ((λ p, (wire_target target, p)) <$> ps)
                  (MkStream r (t ++ wires ((reply_frame true sid <$> rs) ++ [MkFrame CMD_FIN sid []])) ks')).
Proof.
  intros Hwf Hfit Hsid Hps Hrs Hc Hs Hd Hk Hks. rw length_app in Hk.
  assert (Hr2 : Forall uot_fits (snd <$> rs)).
  { apply Forall_fmap. eapply Forall_impl; [exact Hrs|]. by intros p (_ & ? & _). }
  destruct (relay_loop target cevs ps (length rs) (snd <$> rs) [] ([] ++ request_wire true target)
    (k - length (request_wire true target)) [] t0) as (k' & now' & E); [done|by rw length_fmap|done..|lia|].
  eexists. split_and!.
  - rw psh_data_replies /relay_uot_stream /mbind /SE_bind /on_ur_stream /=.
    rw (uot_request_talks true target _ Hfit); [lia|]. rw app_nil_r -list_fmap_compose in E. exact E.
  - by rw /= -list_fmap_compose.
  - intros chunks Hch. simpl in Hch.
    destruct (uot_stream_life dial_udp d true target (pair target <$> ps) chunks sevs rs sid inbound o r t ks)
      as (c' & ks' & Es); [done..| | | |by rw length_fmap|done|done|].
    + apply Forall_fmap. eapply Forall_impl; [exact Hps|]. by intros p Hp.
    + by rw Hch -list_fmap_compose.
    + done.
    + exists c', ks'. rw Es. by rw -list_fmap_compose.
Qed.
End relay_lemmas.
