(* ===== verification/AnytlsInbound.v ===== *)
(** * The AnyTLS inbound (src/protocol/anytls/inbound.rs)

    A connection after its TLS handshake: the hello, the fallback for clients
    that fail it, and the session: the frame loop and the tasks it spawns,
    which share the writer. UDP-over-TCP streams are in AnytlsUot. *)
From S2P Require Import Prelude Io Text Net Config Socks5Codec AnytlsCodec AnytlsFrames AnytlsUot.

(** ** The fallback *)

(** One read of at most [n] bytes when [S arrived] more have arrived, or fewer
    are left: at least one byte unless the peer has closed. *)
Definition stream_read (arrived n : nat) (s : Stream) : bytes * Stream :=
  let k := Nat.min n (S arrived) in
  (take k (rx s), MkStream (drop k (rx s)) (tx s) (room s)).

Record PrefixedIo := MkPrefixedIo { pio_prefix : Cursor; pio_inner : Stream }.

Definition prefixed_new (prefix : bytes) (inner : Stream) : PrefixedIo :=
  MkPrefixedIo (cursor_new prefix) inner.

(** [PrefixedIo::poll_read] with [n] bytes left in the buffer. *)
Definition prefixed_read (arrived n : nat) (io : PrefixedIo) : bytes * PrefixedIo :=
  let position := cpos (pio_prefix io) in
  let prefix := cdata (pio_prefix io) in
  if Nat.ltb position (length prefix) then
    let k := Nat.min n (length prefix - position) in
    (take k (drop position prefix), MkPrefixedIo (MkCursor prefix (position + k)) (pio_inner io))
  else
    let '(data, inner) := stream_read arrived n (pio_inner io) in
    (data, MkPrefixedIo (pio_prefix io) inner).

(** Where a rejected client ends up: relayed to the fallback server, or before
    the static page, which the HTTP crate serves on the [PrefixedIo]. *)
Inductive FallbackEnd := Proxied (client upstream : Stream) | StaticPage (io : PrefixedIo).

(** [serve_fallback]; [upstream] is [fallback.connect_tcp()] when a fallback is
    configured, [copy] is tokio's [copy_bidirectional]. *)
Definition serve_fallback (upstream : option (Result Stream)) (prefix : bytes) (copy : Copier)
    (client : Stream) : Result FallbackEnd :=
  match upstream with
  | Some connected =>
      upstream ← connected;
      match write_all prefix upstream with
      | (Err e, _) => Err e
      | (Ok _, upstream) =>
          match copy (client, upstream) with
          | (Err e, _) => Err e
          | (Ok _, (client, upstream)) => Ok (Proxied client upstream)
          end
      end
  | None => Ok (StaticPage (prefixed_new prefix client))
  end.

(** ** The session

    A stream is the write half of the [i]-th connection dialed or the sender of
    the [i]-th channel created. *)
Inductive InboundStream := Tcp (i : nat) | Udp (i : nat).

(** A dialed connection: its writing side, and whether its reader task runs. *)
Record OutConn := MkOut { oc_sid : Z; oc_session : Session; oc_io : Stream; oc_reading : bool }.
(** A UDP-over-TCP channel: what was sent on it, how much of it its task has
    received, and whether the task is still there. *)
Record UotChan := MkUotChan { uc_sid : Z; uc_sent : list bytes; uc_taken : nat; uc_open : bool }.

Definition UOT_CHANNEL_CAPACITY : nat := 128.

(** [blocked] is the send the frame loop is waiting in, [ended] the error that
    ended the loop. *)
Record Sess := MkSess {
  conn : Stream;
  streams : gmap Z InboundStream;
  synacked_streams : gset Z;
  settings_seen : bool;
  client_v2 : bool;
  outs : list OutConn;
  chans : list UotChan;
  blocked : option (nat * bytes);
  ended : option error;
}.

Definition set_conn (v : Stream) (s : Sess) : Sess :=
  MkSess v (streams s) (synacked_streams s) (settings_seen s) (client_v2 s) (outs s) (chans s) (blocked s) (ended s).
Definition set_streams (v : gmap Z InboundStream) (s : Sess) : Sess :=
  MkSess (conn s) v (synacked_streams s) (settings_seen s) (client_v2 s) (outs s) (chans s) (blocked s) (ended s).
Definition set_synacked_streams (v : gset Z) (s : Sess) : Sess :=
  MkSess (conn s) (streams s) v (settings_seen s) (client_v2 s) (outs s) (chans s) (blocked s) (ended s).
Definition set_settings_seen (v : bool) (s : Sess) : Sess :=
  MkSess (conn s) (streams s) (synacked_streams s) v (client_v2 s) (outs s) (chans s) (blocked s) (ended s).
Definition set_client_v2 (v : bool) (s : Sess) : Sess :=
  MkSess (conn s) (streams s) (synacked_streams s) (settings_seen s) v (outs s) (chans s) (blocked s) (ended s).
Definition set_outs (v : list OutConn) (s : Sess) : Sess :=
  MkSess (conn s) (streams s) (synacked_streams s) (settings_seen s) (client_v2 s) v (chans s) (blocked s) (ended s).
Definition set_chans (v : list UotChan) (s : Sess) : Sess :=
  MkSess (conn s) (streams s) (synacked_streams s) (settings_seen s) (client_v2 s) (outs s) v (blocked s) (ended s).
Definition set_blocked (v : option (nat * bytes)) (s : Sess) : Sess :=
  MkSess (conn s) (streams s) (synacked_streams s) (settings_seen s) (client_v2 s) (outs s) (chans s) v (ended s).
Definition set_ended (v : option error) (s : Sess) : Sess :=
  MkSess (conn s) (streams s) (synacked_streams s) (settings_seen s) (client_v2 s) (outs s) (chans s) (blocked s) v.

Definition sess_new (conn : Stream) : Sess := MkSess conn ∅ ∅ false false [] [] None None.

Definition on_conn {A} (m : SE Stream A) : SE Sess A := λ s,
  let '(r, c) := m (conn s) in (r, set_conn c s).

(** [stream.write_all(data)] on the [i]-th connection; the error is a value. *)
Definition out_write (i : nat) (data : bytes) : SE Sess (Result ()) := λ s,
  match outs s !! i with
  | Some o =>
      let '(r, io) := write_all data (oc_io o) in
      (Ok r, set_outs (<[i := MkOut (oc_sid o) (oc_session o) io (oc_reading o)]> (outs s)) s)
  | None => (Ok (Err (EIo BrokenPipe)), s)
  end.

(** [let _ = tx.send(data).await] *)
Definition chan_send (i : nat) (data : bytes) : SE Sess () := λ s,
  match chans s !! i with
  | Some c =>
      if negb (uc_open c) then (Ok (), s)
      else if Nat.ltb (length (uc_sent c) - uc_taken c) UOT_CHANNEL_CAPACITY then
        (Ok (), set_chans (<[i := MkUotChan (uc_sid c) (uc_sent c ++ [data]) (uc_taken c) true]> (chans s)) s)
      else (Ok (), set_blocked (Some (i, data)) s)
  | None => (Ok (), s)
  end.

(** A connection the router dialed, which takes [room] bytes before it fails. *)
Definition new_connection (stream_id : Z) (session : Session) (room : nat) : SE Sess nat := λ s,
  (Ok (length (outs s)), set_outs (outs s ++ [MkOut stream_id session (MkStream [] [] room) false]) s).
(** [spawn_outbound_reader], and the end of its task. *)
Definition set_reading (i : nat) (reading : bool) : SE Sess () :=
  modify (λ s, set_outs (alter (λ o, MkOut (oc_sid o) (oc_session o) (oc_io o) reading) i (outs s)) s).
(** [mpsc::channel], and the task that receives from it. *)
Definition new_channel (stream_id : Z) : SE Sess nat := λ s,
  (Ok (length (chans s)), set_chans (chans s ++ [MkUotChan stream_id [] 0 true]) s).

Definition table_insert (stream_id : Z) (st : InboundStream) : SE Sess () :=
  modify (λ s, set_streams (<[stream_id := st]> (streams s)) s).
Definition table_remove (stream_id : Z) : SE Sess () :=
  modify (λ s, set_streams (delete stream_id (streams s)) s).

Section session.
Context `{!AnytlsCore}.
(** The [cfg.tag], [server_padding_md5] and [server_padding_scheme] of [serve]. *)
Variable tag : bytes.
Variables (server_padding_md5 server_padding_scheme : bytes).

(** [write_frame] under the writer's mutex. *)
Definition locked_write_frame (command stream_id : Z) (data : bytes) : SE Sess () :=
  on_conn (write_frame command stream_id data).

Definition write_alert (message : bytes) : SE Sess () := locked_write_frame CMD_ALERT 0 message.

(** [if client_v2 && synacked_streams.insert(id) { write_frame(SYNACK) }] *)
Definition synack (stream_id : Z) : SE Sess () :=
  v2 ← gets client_v2;
  seen ← gets synacked_streams;
  if (v2 : bool) && negb (bool_decide (stream_id ∈ seen)) then
    modify (set_synacked_streams ({[stream_id]} ∪ seen)) ;;
    locked_write_frame CMD_SYNACK stream_id []
  else mret ().

Definition handle_settings (data : bytes) : SE Sess () :=
  modify (set_settings_seen true) ;;
  let v2 := match settings_version data with Some v => 2 <=? v | None => false end in
  modify (set_client_v2 v2) ;;
  when v2 (locked_write_frame CMD_SERVER_SETTINGS 0 settings) ;;
  when (negb (bool_decide (settings_value data (str "padding-md5") = Some server_padding_md5)))
    (locked_write_frame CMD_UPDATE_PADDING_SCHEME 0 server_padding_scheme).

Definition handle_syn (stream_id : Z) : SE Sess () :=
  seen ← gets settings_seen;
  if negb seen then
    write_alert (str "cmdSettings is required before cmdSYN") ;;
    throw (EMsg "anytls stream opened before settings")
  else synack stream_id.

(** A new UDP-over-TCP stream; [initial] is what follows the address. *)
Definition open_uot (stream_id : Z) (initial : bytes) : SE Sess () :=
  i ← new_channel stream_id;
  when (negb (bool_decide (initial = []))) (chan_send i initial) ;;
  table_insert stream_id (Udp i) ;;
  synack stream_id.

(** A new TCP stream; [dial] is [router.dial], which gives the room of the
    connection it dials. *)
Definition open_tcp (dial : Session → Result nat) (stream_id : Z) (target : TargetAddr) (initial : bytes)
  : SE Sess () :=
  let session := MkSession tag Connect target in
  match dial session with
  | Err _ => locked_write_frame CMD_FIN stream_id []
  | Ok room =>
      i ← new_connection stream_id session room;
      written ← (if negb (bool_decide (initial = [])) then out_write i initial else mret (Ok ()));
      match written with
      | Err _ => locked_write_frame CMD_FIN stream_id []
      | Ok _ =>
          table_insert stream_id (Tcp i) ;;
          synack stream_id ;;
          set_reading i true
      end
  end.

Definition handle_psh (dial : Session → Result nat) (stream_id : Z) (data : bytes) : SE Sess () :=
  seen ← gets settings_seen;
  if negb seen then
    write_alert (str "cmdSettings is required before cmdPSH") ;;
    throw (EMsg "anytls data sent before settings")
  else
    entry ← gets (λ s, streams s !! stream_id);
    match entry with
    | Some (Tcp i) =>
        written ← out_write i data;
        match written with
        | Ok _ => mret ()
        | Err _ => table_remove stream_id ;; locked_write_frame CMD_FIN stream_id []
        end
    | Some (Udp i) => chan_send i data
    | None =>
        match decode_socksaddr data with
        | Err _ => locked_write_frame CMD_FIN stream_id []
        | Ok (target, consumed) =>
            if is_uot_v2_magic_target target then open_uot stream_id (drop consumed data)
            else open_tcp dial stream_id target (drop consumed data)
        end
    end.

Definition handle_fin (stream_id : Z) : SE Sess () :=
  table_remove stream_id ;;
  modify (λ s, set_synacked_streams (synacked_streams s ∖ {[stream_id]}) s).

(** The body of the frame loop. *)
Definition handle_frame (dial : Session → Result nat) (frame : Frame) : SE Sess () :=
  let command := frame_command frame in
  let stream_id := frame_stream_id frame in
  if command =? CMD_SETTINGS then handle_settings (frame_data frame)
  else if command =? CMD_SYN then handle_syn stream_id
  else if command =? CMD_PSH then handle_psh dial stream_id (frame_data frame)
  else if command =? CMD_FIN then handle_fin stream_id
  else if command =? CMD_WASTE then mret ()
  else if command =? CMD_HEART_REQUEST then locked_write_frame CMD_HEART_RESPONSE stream_id []
  else mret ().

Definition next_frame (dial : Session → Result nat) : SE Sess () :=
  frame ← on_conn read_frame; handle_frame dial frame.

(** A round of a reader task ([spawn_outbound_reader]) with what it read. *)
Definition reader_round (i : nat) (read : Result bytes) : SE Sess () :=
  o ← gets (λ s, outs s !! i);
  match o with
  | Some o =>
      if negb (oc_reading o) then mret ()
      else match read with
      | Ok (b :: data) =>
          written ← attempt (locked_write_frame CMD_PSH (oc_sid o) (b :: data));
          when (negb (is_ok written)) (set_reading i false)
      | _ =>
          attempt (locked_write_frame CMD_FIN (oc_sid o) []) ;;
          set_reading i false
      end
  | None => mret ()
  end.

(** What can happen next: the frame loop handles a frame, or completes the send
    it waits in; a reader task runs a round; the task of a UDP-over-TCP channel
    receives a chunk, frames a reply, or ends. *)
Inductive SessEvent :=
  | FrameLoop (dial : Session → Result nat)
  | ReaderRound (i : nat) (read : Result bytes)
  | UotReceives (i : nat)
  | UotFrames (i : nat) (data : bytes)
  | UotEnds (i : nat).

Definition frame_loop (dial : Session → Result nat) (s : Sess) : Sess :=
  match ended s with
  | Some _ => s
  | None =>
      match blocked s with
      | Some (i, data) => (chan_send i data (set_blocked None s)).2
      | None =>
          match next_frame dial s with
          | (Ok _, s) => s
          | (Err e, s) => set_ended (Some e) s
          end
      end
  end.

(** A frame of the task of a channel, while it runs. *)
Definition uot_write (i : nat) (command : Z) (data : bytes) : SE Sess () :=
  c ← gets (λ s, chans s !! i);
  match c with
  | Some c => when (uc_open c) (attempt (locked_write_frame command (uc_sid c) data) ;; mret ())
  | None => mret ()
  end.
Definition alter_chan (f : UotChan → UotChan) (i : nat) : SE Sess () :=
  modify (λ s, set_chans (alter f i (chans s)) s).

(** What the tasks beside the frame loop do. *)
Definition task_event (ev : SessEvent) : SE Sess () :=
  match ev with
  | FrameLoop _ => mret ()
  | ReaderRound i read => reader_round i read
  | UotReceives i =>
      alter_chan (λ c, MkUotChan (uc_sid c) (uc_sent c) (Nat.min (length (uc_sent c)) (S (uc_taken c))) (uc_open c)) i
  | UotFrames i data => uot_write i CMD_PSH data
  | UotEnds i =>
      uot_write i CMD_FIN [] ;;
      alter_chan (λ c, MkUotChan (uc_sid c) (uc_sent c) (uc_taken c) false) i
  end.

Definition sess_event (s : Sess) (ev : SessEvent) : Sess :=
  match ev with FrameLoop dial => frame_loop dial s | _ => (task_event ev s).2 end.

Definition sess_run (s : Sess) (evs : list SessEvent) : Sess := fold_left sess_event evs s.

(** ** The connection: the hello decides *)
Inductive Served := InSession (username : bytes) (s : Sess) | InFallback (fallback : Result FallbackEnd).

Definition serve_connection (us : list UserConfig) (upstream : option (Result Stream))
    (copy : Copier) (evs : list SessEvent) (client : Stream) : Result Served :=
  match read_client_hello_or_fallback us client with
  | (Err e, _) => Err e
  | (Ok (HelloAuthenticated username), client) => Ok (InSession username (sess_run (sess_new client) evs))
  | (Ok (HelloRejected prefix), client) => Ok (InFallback (serve_fallback upstream prefix copy client))
  end.
End session.

(** ** The fallback sees the client's whole stream *)
Fixpoint prefixed_reads (reqs : list (nat * nat)) (io : PrefixedIo) : list bytes * PrefixedIo :=
  match reqs with
  | [] => ([], io)
  | (arrived, n) :: reqs =>
      let '(data, io) := prefixed_read arrived n io in
      let '(rest, io) := prefixed_reads reqs io in (data :: rest, io)
  end.
Definition prefixed_pending (io : PrefixedIo) : bytes := pending (pio_prefix io) ++ rx (pio_inner io).

Lemma prefixed_read_spec arrived n io data io' :
  prefixed_read arrived n io = (data, io') →
  prefixed_pending io = data ++ prefixed_pending io' ∧
  (data = [] → n = 0%nat ∨ prefixed_pending io = []).
Proof.
  destruct io as [[prefix pos] inner]. rw /prefixed_read /prefixed_pending /=.
  destruct (Nat.ltb_spec pos (length prefix)) as [Hlt|Hge].
  - intros [= <- <-]. simpl. rw -drop_drop app_assoc take_drop. split; [done|].
    intros E%(f_equal length). rw length_take length_drop /= in E. left. lia.
  - rw /stream_read. intros [= <- <-]. simpl. rw (drop_ge prefix pos); [done|]. simpl. rw take_drop. split; [done|].
    intros E%(f_equal length). rw length_take /= in E. destruct n; [by left|].
    right. apply nil_length_inv. lia.
Qed.

Lemma prefixed_reads_spec reqs io datas io' :
  prefixed_reads reqs io = (datas, io') → prefixed_pending io = concat datas ++ prefixed_pending io'.
Proof.
  revert io datas. induction reqs as [|[arrived n] reqs IH]; intros io datas; simpl; [by intros [= <- <-]|].
  destruct (prefixed_read arrived n io) as [data io1] eqn:E1.
  destruct (prefixed_reads reqs io1) as [rest io2] eqn:E2. intros [= <- <-].
  apply prefixed_read_spec in E1 as [-> _]. by rw (IH _ _ E2) /= -app_assoc.
Qed.

Section fallback.
Context `{!AnytlsCore}.

Lemma hello_rejected us prefix rest t k :
  length prefix = PASSWORD_HASH_LEN →
  (∀ u, u ∈ us → password_hash (Config.password u) ≠ prefix) →
  read_client_hello_or_fallback us (MkStream (prefix ++ rest) t k) = (Ok (HelloRejected prefix), MkStream rest t k).
Proof.
  intros Hl Hno. rw /read_client_hello_or_fallback.
  rw (SE_bind_ok _ _ _ _ _ (stream_parse _ prefix rest t k _ (proj1 (parses_exact prefix _ Hl)))).
  destruct (find _ us) as [u|] eqn:Hf; [|done].
  apply find_some in Hf as [Hu%list_elem_of_In Hh%str_eqb_eq]. by destruct (Hno u Hu).
Qed.

(** C31: A client whose first thirty-two bytes are no user's password hash is
    handed to the fallback server as if it had connected to it directly, and no
    session is started: when both sides take what they are given, the relay
    comes to its end, the fallback server then has got all the client sent,
    those thirty-two bytes first, and the client all the fallback server sent,
    in order, nothing added or lost. (A client that sends fewer bytes is not
    relayed: reading the hello fails.) *)
Theorem fallback_transparent tag md5 scheme us prefix rest t k urx uroom copy evs :
  CopyLaws copy → length prefix = PASSWORD_HASH_LEN →
  (∀ u, u ∈ us → password_hash (Config.password u) ≠ prefix) →
  (length (prefix ++ rest) ≤ uroom)%nat → (length urx ≤ k)%nat →
  ∃ client upstream,
    serve_connection tag md5 scheme us (Some (Ok (MkStream urx [] uroom))) copy evs
      (MkStream (prefix ++ rest) t k) = Ok (InFallback (Ok (Proxied client upstream))) ∧
    tx upstream = prefix ++ rest ∧ tx client = t ++ urx.
Proof.
  intros Hcopy Hl Hno Hroom Hk. rw /serve_connection hello_rejected; [done..|]. rw length_app in Hroom.
  rw /serve_fallback /=. rw write_all_ok; [lia|].
  destruct (copy_finishes copy (MkStream rest t k) (MkStream urx prefix (uroom - length prefix)))
    as (c & u & E & Hu & Hc); [split; simpl; lia|].
  rw /= E. by exists c, u.
Qed.

(** Without a fallback server, the HTTP server that answers a rejected
    client reads the client's stream from its first byte on, whatever the sizes
    of its reads, and an empty read means the end of that stream. *)
Lemma static_page_transparent tag md5 scheme us prefix rest t k copy evs reqs :
  length prefix = PASSWORD_HASH_LEN →
  (∀ u, u ∈ us → password_hash (Config.password u) ≠ prefix) →
  ∃ io datas io', serve_connection tag md5 scheme us None copy evs (MkStream (prefix ++ rest) t k)
      = Ok (InFallback (Ok (StaticPage io))) ∧
    prefixed_reads reqs io = (datas, io') ∧
    prefix ++ rest = concat datas ++ prefixed_pending io' ∧
    ∀ arrived n, (prefixed_read arrived (S n) io').1 = [] → concat datas = prefix ++ rest.
Proof.
  intros Hl Hno. rw /serve_connection hello_rejected; [done..|]. simpl.
  set (io := prefixed_new prefix (MkStream rest t k)).
  destruct (prefixed_reads reqs io) as [datas io'] eqn:E. exists io, datas, io'.
  pose proof (prefixed_reads_spec _ _ _ _ E) as Hp. rw {1}/prefixed_pending /= in Hp.
  split_and!; [done..|]. intros arrived n Hempty.
  destruct (prefixed_read arrived (S n) io') as [data io2] eqn:E2. simpl in Hempty. subst data.
  apply prefixed_read_spec in E2 as [_ [?|H0]]; [done..|]. by rw Hp H0 app_nil_r.
Qed.
End fallback.
