(* ===== verification/AnytlsSession.v ===== *)
(** * The AnyTLS session: what every interleaving keeps

    The frame loop and the tasks it spawns share the connection's writer and
    the session's tables. The invariants here hold after any sequence of their
    steps: the bytes written are whole frames, nothing is served before the
    client's settings, a stream is acknowledged once, and what an outbound
    connection has been given is the payload of its own stream, in order. *)
From S2P Require Import Prelude Io Text Net Config Socks5Codec AnytlsCodec AnytlsFrames AnytlsUot AnytlsInbound.

(** ** What is written is whole frames *)

(** [fs] was written, then perhaps the beginning of a frame on which the
    connection broke. *)
Definition framed (c : Stream) (fs : list Frame) : Prop :=
  ∃ part, tx c = wires fs ++ part ∧ (part = [] ∨ room c = 0%nat).

Section session_invariants.
Context `{!AnytlsCore, !AnytlsLaws}.
Variable tag : bytes.
Variables (server_padding_md5 server_padding_scheme : bytes).

(** A write is one whole frame, or it breaks the connection. *)
Lemma write_frame_framed command sid data c r c' fs :
  is_u8 command → is_u32 sid → framed c fs → write_frame command sid data c = (r, c') →
  rx c' = rx c ∧
  match r with
  | Ok _ => framed c' (fs ++ [MkFrame command sid data]) ∧ wf_frame (MkFrame command sid data)
  | Err _ => framed c' fs
  end.
Proof.
  intros Hc Hs (part & Htx & Hpart) Hw. destruct (Z.leb_spec (len data) U16_MAX) as [Hd|Hd].
  - assert (Hf : wf_frame (MkFrame command sid data)) by done.
    pose proof (encode_frame_ok _ Hf) as E. simpl in E. rw /write_frame E {1}/mbind {1}/SE_bind {1}/lift in Hw.
    pose proof (wire_length (MkFrame command sid data)) as Hlen.
    rw /mbind /SE_bind /write_all in Hw. case_decide as Hroom; injection Hw as <- <-; (split; [done|]).
    + split; [|done]. destruct Hpart as [->|Hz]; [|lia]. exists []. simpl.
      rw Htx !app_nil_r wires_app /wires /= app_nil_r. by split; [|left].
    + destruct Hpart as [->|Hz].
      * eexists. simpl. rw Htx app_nil_r. by split; [|right].
      * exists part. simpl. rw Hz take_0 app_nil_r. by split; [|right].
  - rw /write_frame /encode_frame in Hw.
    assert (Hfalse : (len data <=? U16_MAX) = false) by (apply Z.leb_gt; lia). rw Hfalse in Hw.
    injection Hw as <- <-. split; [done|]. by exists part.
Qed.

(** ** The invariant of the session

    [fin] are the frames received so far. *)
Definition acked (fin fout : list Frame) (seen : gset Z) : Prop :=
  ∀ sid, (frames_of CMD_SYNACK sid fout + (if decide (sid ∈ seen) then 0 else 1) ≤ 1 + frames_of CMD_FIN sid fin)%nat.

Definition quiet (f : Frame) : Prop := frame_command f = CMD_ALERT ∨ frame_command f = CMD_HEART_RESPONSE.

Definition gate (fin fout : list Frame) (s : Sess) : Prop :=
  if settings_seen s then ∃ f, f ∈ fin ∧ frame_command f = CMD_SETTINGS
  else streams s = ∅ ∧ outs s = [] ∧ chans s = [] ∧ blocked s = None ∧ Forall quiet fout.

Definition ids (s : Sess) : Prop :=
  Forall (λ o, is_u32 (oc_sid o)) (outs s) ∧ Forall (λ c, is_u32 (uc_sid c)) (chans s).

Definition sess_inv (fin : list Frame) (s : Sess) : Prop :=
  ∃ fout, framed (conn s) fout ∧ Forall wf_frame fout ∧ acked fin fout (synacked_streams s) ∧
    gate fin fout s ∧ ids s.

(** After the client's settings. *)
Definition live (fin : list Frame) (s : Sess) : Prop := sess_inv fin s ∧ settings_seen s = true.

Lemma acked_write fin fout seen f :
  acked fin fout seen → frame_command f ≠ CMD_SYNACK → acked fin (fout ++ [f]) seen.
Proof.
  intros Ha Hf sid. specialize (Ha sid). rw frames_of_snoc.
  rw (decide_False (P := frame_command f = CMD_SYNACK ∧ _)); [naive_solver|]. lia.
Qed.

(** An operation that leaves the connection and the acknowledgements alone. *)
Lemma live_frame fin s s' :
  live fin s → conn s' = conn s → synacked_streams s' = synacked_streams s →
  settings_seen s' = settings_seen s → ids s' → live fin s'.
Proof.
  intros [(fout & Hfr & Hwf & Ha & Hg & _) Hseen] Hc Hk Hs Hi. split; [|congruence].
  exists fout. rw Hc Hk. split_and!; [done..| |done]. rw /gate Hs. rw /gate in Hg.
  by rw Hseen in Hg *.
Qed.

Lemma write_keeps (Q : bool → Prop) fin command sid data :
  is_u8 command → is_u32 sid → command ≠ CMD_SYNACK →
  (Q false → command = CMD_ALERT ∨ command = CMD_HEART_RESPONSE) →
  keeps (λ s, sess_inv fin s ∧ Q (settings_seen s)) (locked_write_frame command sid data).
Proof.
  intros Hc Hs Hne HQ s [(fout & Hfr & Hwf & Ha & Hg & Hi) Hq]. rw /locked_write_frame /on_conn.
  destruct (write_frame command sid data (conn s)) as [r c'] eqn:Hw.
  apply (write_frame_framed _ _ _ _ _ _ fout) in Hw as [Hrx Hr]; [|done..].
  destruct r as [[]|e]; (split; [|done]).
  - destruct Hr as [Hfr' Hf]. exists (fout ++ [MkFrame command sid data]).
    split_and!; [done|by apply Forall_snoc|by apply acked_write| |done].
    rw /gate /=. rw /gate in Hg. destruct (settings_seen s); [done|].
    destruct Hg as (? & ? & ? & ? & ?). split_and!; [done..|]. apply Forall_snoc; [done|].
    by apply HQ.
  - exists fout. by split_and!.
Qed.

Lemma live_write fin command sid data :
  is_u8 command → is_u32 sid → command ≠ CMD_SYNACK → keeps (live fin) (locked_write_frame command sid data).
Proof. intros Hc Hs Hne. by apply (write_keeps (λ b, b = true)). Qed.

Lemma inv_write fin command sid data :
  is_u32 sid → command = CMD_ALERT ∨ command = CMD_HEART_RESPONSE →
  keeps (sess_inv fin) (locked_write_frame command sid data).
Proof.
  intros Hs Hc. eapply triple_conseq; [|apply (write_keeps (λ _, True) fin command sid data)| |].
  - done.
  - by destruct Hc as [-> | ->].
  - done.
  - by destruct Hc as [-> | ->].
  - done.
  - by intros ? ? [].
  - by intros ? [].
Qed.

Lemma live_synack fin sid : is_u32 sid → keeps (live fin) (synack sid).
Proof.
  intros Hs s [(fout & Hfr & Hwf & Ha & Hg & Hi) Hseen]. rw /synack /=.
  destruct (client_v2 s && negb (bool_decide (sid ∈ synacked_streams s))) eqn:E;
    rw /mbind /SE_bind /gets /= E; [|split; [by exists fout|done]].
  apply andb_prop in E as [_ Hnew%negb_true_iff%bool_decide_eq_false]. rw /locked_write_frame /on_conn /=.
  destruct (write_frame CMD_SYNACK sid [] (conn s)) as [r c'] eqn:Hw.
  apply (write_frame_framed _ _ _ _ _ _ fout) in Hw as [_ Hr]; [|done..].
  destruct r as [[]|e]; (split; [|done]); rw /sess_inv /gate /= Hseen; rw /gate Hseen in Hg.
  - destruct Hr as [Hfr' Hf]. eexists. split_and!; [done|by apply Forall_snoc| |done..].
    intros k. specialize (Ha k). rw frames_of_snoc /=. destruct (decide (CMD_SYNACK = CMD_SYNACK ∧ sid = k)) as [[_ <-]|Hne].
    + rw decide_False in Ha; [done|]. rw decide_True; [set_solver|]. lia.
    + destruct (decide (k ∈ synacked_streams s)); [rw decide_True; [set_solver|lia]|].
      rw decide_False; [|lia]. set_solver.
  - exists fout. split_and!; [done..| |done|done]. intros k. specialize (Ha k).
    destruct (decide (k ∈ synacked_streams s)); [rw decide_True; [set_solver|lia]|].
    destruct (decide (k ∈ _)); lia.
Qed.

Lemma live_out_write fin i data : keeps (live fin) (out_write i data).
Proof.
  intros s Hl. pose proof Hl as [(? & _ & _ & _ & _ & Ho & Hc) _]. rw /out_write.
  destruct (outs s !! i) as [o|] eqn:E; [|done]. destruct (write_all data (oc_io o)) as [r io].
  eapply live_frame; [done..|]. split; [|done]. simpl. apply Forall_insert; [done|].
  exact (Forall_lookup_1 _ _ _ _ Ho E).
Qed.
Lemma live_chan_send fin i data : keeps (live fin) (chan_send i data).
Proof.
  intros s Hl. pose proof Hl as [(? & _ & _ & _ & _ & Ho & Hc) _]. rw /chan_send.
  destruct (chans s !! i) as [c|] eqn:E; [|done]. destruct (negb (uc_open c)); [done|].
  destruct (Nat.ltb _ _); (eapply live_frame; [done..|]); [|by split]. split; [done|]. simpl. apply Forall_insert; [done|].
  exact (Forall_lookup_1 _ _ _ _ Hc E).
Qed.
Lemma live_new_connection fin sid session n : is_u32 sid → keeps (live fin) (new_connection sid session n).
Proof.
  intros Hs s Hl. pose proof Hl as [(? & _ & _ & _ & _ & Ho & Hc) _].
  eapply live_frame; [done..|]. split; [|done]. by apply Forall_snoc.
Qed.
Lemma live_new_channel fin sid : is_u32 sid → keeps (live fin) (new_channel sid).
Proof.
  intros Hs s Hl. pose proof Hl as [(? & _ & _ & _ & _ & Ho & Hc) _].
  eapply live_frame; [done..|]. split; [done|]. by apply Forall_snoc.
Qed.
Lemma Forall_alter_same {A} (P : A → Prop) f l i : (∀ x, P x → P (f x)) → Forall P l → Forall P (alter f i l).
Proof. intros Hf Hl. apply Forall_alter; auto. Qed.
Lemma live_set_reading fin i b : keeps (live fin) (set_reading i b).
Proof.
  intros s Hl. pose proof Hl as [(? & _ & _ & _ & _ & Ho & Hc) _].
  eapply live_frame; [done..|]. split; [|done]. by apply Forall_alter_same.
Qed.
Lemma live_alter_chan fin f i : (∀ c, uc_sid (f c) = uc_sid c) → keeps (live fin) (alter_chan f i).
Proof.
  intros Hf s Hl. pose proof Hl as [(? & _ & _ & _ & _ & Ho & Hc) _].
  eapply live_frame; [done..|]. split; [done|]. apply Forall_alter_same; [|done]. intros c. by rw Hf.
Qed.
Lemma live_table_insert fin sid st : keeps (live fin) (table_insert sid st).
Proof. intros s Hl. pose proof Hl as [(? & _ & _ & _ & _ & Hi) _]. by eapply live_frame. Qed.
Lemma live_table_remove fin sid : keeps (live fin) (table_remove sid).
Proof. intros s Hl. pose proof Hl as [(? & _ & _ & _ & _ & Hi) _]. by eapply live_frame. Qed.

Lemma is_u8_small c : 0 ≤ c ≤ 10 → is_u8 c.
Proof. rw /is_u8. lia. Qed.
#[local] Hint Resolve live_synack live_out_write live_chan_send live_new_connection live_new_channel
  live_set_reading live_table_insert live_table_remove : keeping.
#[local] Hint Extern 2 (keeps (live _) (locked_write_frame _ _ _)) =>
  apply live_write; [by apply is_u8_small|assumption|done] : keeping.

Lemma live_open_uot fin sid initial : is_u32 sid → keeps (live fin) (open_uot sid initial).
Proof. intros Hs. rw /open_uot. keep_walk. Qed.
Lemma live_open_tcp fin dial sid target initial : is_u32 sid → keeps (live fin) (open_tcp tag dial sid target initial).
Proof. intros Hs. rw /open_tcp. keep_walk. Qed.
#[local] Hint Resolve live_open_uot live_open_tcp : keeping.

(** A computation that first looks whether the settings have arrived. *)
Lemma seen_cases {A} fin (refuse serve : SE Sess A) :
  keeps (sess_inv fin) refuse → keeps (live fin) serve →
  keeps (sess_inv fin) (seen ← gets settings_seen; if negb seen then refuse else serve).
Proof.
  intros Hr Hs s Hi. rw /mbind /SE_bind /gets. destruct (settings_seen s) eqn:E; simpl.
  - specialize (Hs s (conj Hi E)). destruct (serve s) as [[a|e] s']; apply Hs.
  - by apply Hr.
Qed.

Lemma inv_refuse {A} fin msg e : keeps (sess_inv fin) (write_alert msg ;; throw e : SE Sess A).
Proof. apply keeps_bind; [|intros; apply keeps_throw]. apply inv_write; [done|by left]. Qed.

Lemma inv_handle_syn fin sid : is_u32 sid → keeps (sess_inv fin) (handle_syn sid).
Proof. intros Hs. apply seen_cases; [apply inv_refuse|by apply live_synack]. Qed.

Lemma inv_handle_psh fin dial sid data : is_u32 sid → keeps (sess_inv fin) (handle_psh tag dial sid data).
Proof. intros Hs. apply seen_cases; [apply inv_refuse|]. keep_walk. Qed.

Lemma frames_of_mono c sid fs f : (frames_of c sid fs ≤ frames_of c sid (fs ++ [f]))%nat.
Proof. rw frames_of_snoc. lia. Qed.

Lemma inv_more fin f s : sess_inv fin s → sess_inv (fin ++ [f]) s.
Proof.
  intros (fout & Hfr & Hwf & Ha & Hg & Hi). exists fout. split_and!; [done..| | |done].
  - intros sid. specialize (Ha sid). pose proof (frames_of_mono CMD_FIN sid fin f). lia.
  - rw /gate. rw /gate in Hg. destruct (settings_seen s); [|done]. destruct Hg as (g & Hin & Hg).
    exists g. split; [|done]. apply elem_of_app. by left.
Qed.

Lemma inv_handle_fin fin f :
  frame_command f = CMD_FIN → triple (sess_inv fin) (handle_fin (frame_stream_id f)) (λ _, sess_inv (fin ++ [f])) (λ _, False).
Proof.
  intros Hf s (fout & Hfr & Hwf & Ha & Hg & Hi). rw /handle_fin /=.
  exists fout. split_and!; [done..| | |done].
  - intros sid. specialize (Ha sid). rw frames_of_snoc Hf /=. destruct (decide (frame_stream_id f = sid)) as [<-|Hne].
    + rw (decide_True (P := CMD_FIN = CMD_FIN ∧ _)); [done|]. rw decide_False; [set_solver|].
      destruct (decide (_ ∈ _)); lia.
    + rw (decide_False (P := CMD_FIN = CMD_FIN ∧ _)); [naive_solver|].
      destruct (decide (sid ∈ synacked_streams s)); [rw decide_True; [set_solver|lia]|].
      destruct (decide (_ ∈ _)); lia.
  - rw /gate /=. rw /gate in Hg. destruct (settings_seen s).
    + destruct Hg as (g & Hin & Hg). exists g. split; [|done]. apply elem_of_app. by left.
    + destruct Hg as (-> & ? & ? & ? & ?). split_and!; [|done..]. by rw delete_empty.
Qed.

Lemma inv_settings fin f v s :
  frame_command f = CMD_SETTINGS → f ∈ fin → sess_inv fin s →
  live fin (set_client_v2 v (set_settings_seen true s)).
Proof.
  intros Hf Hin (fout & Hfr & Hwf & Ha & Hg & Hi). split; [|done]. exists fout. split_and!; [done..| |done].
  rw /gate /=. eauto.
Qed.

Lemma inv_handle_settings fin f :
  frame_command f = CMD_SETTINGS → f ∈ fin →
  keeps (sess_inv fin) (handle_settings server_padding_md5 server_padding_scheme (frame_data f)).
Proof.
  intros Hf Hin s Hs. rw /handle_settings {1}/mbind {1}/SE_bind {1}/modify. cbv beta iota.
  rw {1}/mbind {1}/SE_bind {1}/modify. cbv beta iota zeta.
  generalize (inv_settings fin f (match settings_version (frame_data f) with Some v => 2 <=? v | None => false end) s Hf Hin Hs).
  generalize (set_client_v2 (match settings_version (frame_data f) with Some v => 2 <=? v | None => false end) (set_settings_seen true s)).
  intros s1 Hl. match goal with |- match ?m s1 with _ => _ end => assert (Hk : keeps (live fin) m) end.
  { assert (is_u32 0) by done. keep_walk. }
  specialize (Hk s1 Hl). by case_match; case_match; destruct Hk.
Qed.

Lemma inv_handle_frame fin dial f :
  wf_frame f →
  triple (sess_inv fin) (handle_frame tag server_padding_md5 server_padding_scheme dial f)
    (λ _, sess_inv (fin ++ [f])) (sess_inv (fin ++ [f])).
Proof.
  intros (Hc & Hs & Hd). rw /handle_frame.
  assert (Hin : f ∈ fin ++ [f]) by (apply elem_of_app; right; by left).
  assert (Hstay : ∀ m : SE Sess (), keeps (sess_inv (fin ++ [f])) m → triple (sess_inv fin) m (λ _, sess_inv (fin ++ [f])) (sess_inv (fin ++ [f]))).
  { intros m Hm. by eapply triple_conseq; [intros s; apply inv_more|exact Hm|..]. }
  case_match eqn:E1; [apply Hstay, inv_handle_settings; [by apply Z.eqb_eq|done]|].
  case_match eqn:E2; [by apply Hstay, inv_handle_syn|].
  case_match eqn:E3; [by apply Hstay, inv_handle_psh|].
  case_match eqn:E4; [eapply triple_conseq; [done|apply inv_handle_fin; by apply Z.eqb_eq|done|done]|].
  case_match; [apply Hstay, keeps_ret|].
  case_match; [apply Hstay, inv_write; [done|by right]|apply Hstay, keeps_ret].
Qed.

(** ** Only the frame loop reads, and only it ends the session *)
Definition rests (r : bytes) (e : option error) (s : Sess) : Prop := rx (conn s) = r ∧ ended s = e.

Lemma rests_write r e command sid data : keeps (rests r e) (locked_write_frame command sid data).
Proof.
  intros s [Hr He]. rw /locked_write_frame /on_conn /write_frame /=.
  destruct (encode_frame _ _ _) as [w|]; [|done]. rw /mbind /SE_bind /lift /write_all /=. by case_decide.
Qed.
Lemma rests_out_write r e i data : keeps (rests r e) (out_write i data).
Proof. intros s Hs. rw /out_write. destruct (outs s !! i) as [o|]; [|done]. by destruct (write_all _ _). Qed.
Lemma rests_chan_send r e i data : keeps (rests r e) (chan_send i data).
Proof.
  intros s Hs. rw /chan_send. destruct (chans s !! i) as [c|]; [|done].
  destruct (negb _); [done|]. by destruct (Nat.ltb _ _).
Qed.
Lemma rests_modify r e f : (∀ s, conn (f s) = conn s ∧ ended (f s) = ended s) → keeps (rests r e) (modify f).
Proof. intros Hf s [Hr He]. destruct (Hf s) as [E1 E2]. split; by rw ?E1 ?E2. Qed.
Lemma rests_new_connection r e sid session n : keeps (rests r e) (new_connection sid session n).
Proof. by intros s Hs. Qed.
Lemma rests_new_channel r e sid : keeps (rests r e) (new_channel sid).
Proof. by intros s Hs. Qed.
#[local] Hint Resolve rests_write rests_out_write rests_chan_send rests_new_connection rests_new_channel : keeping.
#[local] Hint Extern 2 (keeps (rests _ _) (modify _)) => by apply rests_modify : keeping.

Lemma rests_handle_frame r e dial f :
  keeps (rests r e) (handle_frame tag server_padding_md5 server_padding_scheme dial f).
Proof.
  rw /handle_frame /handle_settings /handle_syn /handle_psh /handle_fin /open_uot /open_tcp
    /synack /write_alert /table_insert /table_remove /set_reading.
  keep_walk.
Qed.

(** A task's round. *)
Lemma rests_task r e ev : keeps (rests r e) (task_event ev).
Proof.
  destruct ev; rw /task_event /reader_round /uot_write /alter_chan /set_reading; keep_walk.
Qed.

#[local] Hint Extern 2 (keeps (live _) (alter_chan _ _)) => by apply live_alter_chan : keeping.

Lemma live_uot_write fin i command data :
  is_u8 command → command ≠ CMD_SYNACK → keeps (live fin) (uot_write i command data).
Proof.
  intros Hc Hne. apply keeps_gets_bind. intros s [(fout & _ & _ & _ & _ & _ & Hids) _].
  destruct (chans s !! i) as [c|] eqn:E; [|apply keeps_ret].
  assert (is_u32 (uc_sid c)) by exact (Forall_lookup_1 _ _ _ _ Hids E).
  apply keeps_when, keeps_bind; [by apply keeps_attempt, live_write|intros; apply keeps_ret].
Qed.

Lemma live_reader_round fin i read : keeps (live fin) (reader_round i read).
Proof.
  apply keeps_gets_bind. intros s [(fout & _ & _ & _ & _ & Hids & _) _].
  destruct (outs s !! i) as [o|] eqn:E; [|apply keeps_ret].
  assert (is_u32 (oc_sid o)) by exact (Forall_lookup_1 _ _ _ _ Hids E). keep_walk.
Qed.

Lemma live_task fin ev : keeps (live fin) (task_event ev).
Proof.
  destruct ev as [dial|i read|i|i data|i]; simpl.
  - apply keeps_ret.
  - apply live_reader_round.
  - keep_walk.
  - by apply live_uot_write.
  - apply keeps_bind; [by apply live_uot_write|]. keep_walk.
Qed.

(** Before the settings there is no task. *)
Lemma idle_task fin ev s :
  sess_inv fin s → settings_seen s = false → ∃ s', task_event ev s = (Ok (), s') ∧ sess_inv fin s'.
Proof.
  intros (fout & Hfr & Hwf & Ha & Hg & Hi) Hseen. pose proof Hg as Hg'. rw /gate Hseen in Hg'.
  destruct Hg' as (Hst & Houts & Hchans & Hb & Hq).
  assert (Hs : sess_inv fin (set_chans [] s)).
  { exists fout. split_and!; [done..| |split; [apply Hi|constructor]]. by rw /gate /= Hseen. }
  destruct ev; rw /= /reader_round /uot_write /alter_chan /mbind /SE_bind /gets /modify ?Houts ?Hchans /=;
    eexists; (split; [done|]); rw ?Hchans; [by exists fout..|exact Hs|by exists fout|exact Hs].
Qed.

Lemma inv_task fin ev : keeps (sess_inv fin) (task_event ev).
Proof.
  intros s Hs. destruct (settings_seen s) eqn:Hseen.
  - pose proof (live_task fin ev s (conj Hs Hseen)) as Hk. destruct (task_event ev s) as [[a|e] s']; apply Hk.
  - by destruct (idle_task fin ev s Hs Hseen) as (s' & -> & ?).
Qed.
End session_invariants.
