(* ===== verification/AnytlsStreams.v ===== *)
(** * AnyTLS: what an outbound connection is given

    The frames of a connection carry many streams. Whatever the interleaving,
    the connection dialed for a stream has been given the payload of that
    stream, in order and nothing else, and the channel of a UDP-over-TCP stream
    its chunks. *)
From S2P Require Import Prelude Io Text Net Config Socks5Codec AnytlsCodec AnytlsFrames AnytlsUot AnytlsInbound AnytlsSession.

(** The send the frame loop waits in belongs to the channel too. *)
Definition waiting (i : nat) (s : Sess) : bytes :=
  match blocked s with Some (j, data) => if decide (i = j) then data else [] | None => [] end.

Definition serves (tag : bytes) (s : Sess) (sid : Z) (st : InboundStream) (target : TargetAddr) (data : bytes) : Prop :=
  match st with
  | Tcp i => ∃ o, outs s !! i = Some o ∧ oc_sid o = sid ∧ oc_session o = MkSession tag Connect target ∧
      tx (oc_io o) = data
  | Udp i => ∃ c, chans s !! i = Some c ∧ uc_sid c = sid ∧ is_uot_v2_magic_target target = true ∧
      (uc_open c = true → concat (uc_sent c) ++ waiting i s = data)
  end.

(** A stream in the table was opened by a frame with its target, was not
    finished since, and has been given what its frames carried since. *)
Definition at_stream (tag : bytes) (fin : list Frame) (s : Sess) (sid : Z) : Prop :=
  ∀ st, streams s !! sid = Some st → ∃ pre enc target consumed post,
    fin = pre ++ MkFrame CMD_PSH sid enc :: post ∧ decode_socksaddr enc = Ok (target, consumed) ∧
    frames_of CMD_FIN sid post = 0%nat ∧ serves tag s sid st target (drop consumed enc ++ psh_data sid post).
Definition attached (tag : bytes) (fin : list Frame) (s : Sess) : Prop := ∀ sid, at_stream tag fin s sid.

(** The tables of two sessions agree on a stream. *)
Definition same_stream (k : Z) (s s' : Sess) : Prop :=
  streams s' !! k = streams s !! k ∧
  (∀ i o, outs s !! i = Some o → oc_sid o = k →
     ∃ o', outs s' !! i = Some o' ∧ oc_sid o' = k ∧ oc_session o' = oc_session o ∧ tx (oc_io o') = tx (oc_io o)) ∧
  (∀ i c, chans s !! i = Some c → uc_sid c = k →
     ∃ c', chans s' !! i = Some c' ∧ uc_sid c' = k ∧
       (uc_open c' = true → uc_open c = true ∧ concat (uc_sent c') ++ waiting i s' = concat (uc_sent c) ++ waiting i s)).

Section streams.
Context `{!AnytlsCore, !AnytlsLaws}.
Variable tag : bytes.
Variables (server_padding_md5 server_padding_scheme : bytes).

Lemma serves_same s s' k st target data :
  same_stream k s s' → serves tag s k st target data → serves tag s' k st target data.
Proof.
  intros (_ & Ho & Hc). destruct st as [i|i].
  - intros (o & Hi & Hk & Hs & <-). destruct (Ho i o Hi Hk) as (o' & Hi' & Hk' & Hs' & Ht).
    exists o'. split_and!; [done..|by rw Hs'|done].
  - intros (c & Hi & Hk & Hm & Hd). destruct (Hc i c Hi Hk) as (c' & Hi' & Hk' & Hd').
    exists c'. split_and!; [done..|]. intros Hopen. destruct (Hd' Hopen) as [Hopen0 ->]. by apply Hd.
Qed.

Lemma at_same fin s s' k : same_stream k s s' → at_stream tag fin s k → at_stream tag fin s' k.
Proof.
  intros Hsame Hat st Hst. pose proof Hsame as (Hk & _). rw Hk in Hst.
  destruct (Hat st Hst) as (pre & enc & target & consumed & post & Hf & Hd & Hfin & Hs).
  exists pre, enc, target, consumed, post. split_and!; [done..|]. by eapply serves_same.
Qed.

(** A frame that is not of the stream. *)
Lemma at_other fin s k f :
  (frame_command f ≠ CMD_PSH ∧ frame_command f ≠ CMD_FIN) ∨ frame_stream_id f ≠ k →
  at_stream tag fin s k → at_stream tag (fin ++ [f]) s k.
Proof.
  intros Hf Hat st Hst. destruct (Hat st Hst) as (pre & enc & target & consumed & post & -> & Hd & Hfin & Hs).
  exists pre, enc, target, consumed, (post ++ [f]). split_and!.
  - by rw -app_assoc.
  - done.
  - rw frames_of_snoc Hfin decide_False; [naive_solver|done].
  - rw psh_data_snoc decide_False; [naive_solver|]. by rw app_nil_r.
Qed.

Lemma same_refl k s s' :
  streams s' = streams s → outs s' = outs s → chans s' = chans s → blocked s' = blocked s → same_stream k s s'.
Proof.
  intros Hs Ho Hc Hb. rw /same_stream /waiting Hs Ho Hc Hb. split_and!; [done| |]; eauto 10.
Qed.

(** ** Writing frames leaves the tables alone *)
Definition tabled (s0 s : Sess) : Prop :=
  streams s = streams s0 ∧ outs s = outs s0 ∧ chans s = chans s0 ∧ blocked s = blocked s0.

Lemma tabled_write s0 command sid data : keeps (tabled s0) (locked_write_frame command sid data).
Proof. intros s Hs. rw /locked_write_frame /on_conn. by destruct (write_frame _ _ _ _) as [[[]|e] c]. Qed.
Lemma tabled_modify s0 f : (∀ s, tabled s (f s)) → keeps (tabled s0) (modify f).
Proof. intros Hf s Hs. destruct (Hf s) as (E1 & E2 & E3 & E4). rw /tabled /= E1 E2 E3 E4. exact Hs. Qed.
#[local] Hint Resolve tabled_write : keeping.
#[local] Hint Extern 2 (keeps (tabled _) (modify _)) => by apply tabled_modify : keeping.
Lemma tabled_synack s0 sid : keeps (tabled s0) (synack sid).
Proof. rw /synack. keep_walk. Qed.
#[local] Hint Resolve tabled_synack : keeping.
Lemma synack_tabled sid s r s' : synack sid s = (r, s') → tabled s s'.
Proof.
  intros E. pose proof (tabled_synack s sid s (conj eq_refl (conj eq_refl (conj eq_refl eq_refl)))) as Ht.
  rw E in Ht. by destruct r.
Qed.
Lemma tabled_syn s0 sid : keeps (tabled s0) (handle_syn sid).
Proof. rw /handle_syn /write_alert. keep_walk. Qed.
Lemma tabled_settings s0 data : keeps (tabled s0) (handle_settings server_padding_md5 server_padding_scheme data).
Proof. rw /handle_settings. keep_walk. Qed.

Lemma tabled_attached fin s s' : tabled s s' → attached tag fin s → attached tag fin s'.
Proof. intros (E1 & E2 & E3 & E4) Hat k. eapply at_same, Hat. by apply same_refl. Qed.

(** A computation that keeps the tables, after which a stream is served. *)
Definition gives (Q : Sess → Prop) (m : SE Sess ()) (s : Sess) : Prop := ∀ s', m s = (Ok (), s') → Q s'.

Lemma gives_tabled fin m s : keeps (tabled s) m → attached tag fin s → gives (attached tag fin) m s.
Proof.
  intros Hk Hat s' E. specialize (Hk s). rw E in Hk. eapply tabled_attached; [by apply Hk|done].
Qed.

(** An opened stream: the other streams are as before. *)
Lemma attached_open fin s s' f st target consumed :
  frame_command f = CMD_PSH → attached tag fin s → streams s !! frame_stream_id f = None →
  decode_socksaddr (frame_data f) = Ok (target, consumed) →
  (∀ k, k ≠ frame_stream_id f → same_stream k s s') →
  streams s' !! frame_stream_id f = st →
  (∀ x, st = Some x → serves tag s' (frame_stream_id f) x target (drop consumed (frame_data f))) →
  attached tag (fin ++ [f]) s'.
Proof.
  intros Hf Hat Hnone Hd Hothers Hst Hserves k. destruct (decide (k = frame_stream_id f)) as [->|Hk].
  - intros x Hx. rw Hst in Hx. exists fin, (frame_data f), target, consumed, []. split_and!; [|done..|].
    + by destruct f; simpl in *; subst.
    + rw /psh_data /= app_nil_r. by apply Hserves.
  - eapply at_other; [by right|]. eapply at_same; [by apply Hothers|apply Hat].
Qed.

(** Nothing changed, and the stream is not in the table. *)
Lemma attached_skip fin s f :
  attached tag fin s → streams s !! frame_stream_id f = None → attached tag (fin ++ [f]) s.
Proof.
  intros Hat Hnone k. destruct (decide (k = frame_stream_id f)) as [->|Hk].
  - intros st Hst. congruence.
  - by eapply at_other; [right|apply Hat].
Qed.

Lemma same_grow k s io sid session b (st : gmap Z InboundStream) :
  k ≠ sid → st !! k = streams s !! k →
  same_stream k s (set_streams st (set_outs (outs s ++ [MkOut sid session io b]) s)).
Proof.
  intros Hk Hst. split_and!; [done| |].
  - intros i o Hi Ho. exists o. simpl. rw lookup_app_l; [by eapply lookup_lt_Some|done].
  - intros i c Hi Hc. by exists c.
Qed.

(** Starting or stopping a reader. *)
Lemma same_reading k s i b :
  same_stream k s (set_outs (alter (λ o, MkOut (oc_sid o) (oc_session o) (oc_io o) b) i (outs s)) s).
Proof.
  split_and!; [done| |by eauto]. intros j o Hj Ho. simpl.
  destruct (decide (i = j)) as [->|Hne]; [rw list_lookup_alter_eq Hj|rw list_lookup_alter_ne // Hj]; by eexists.
Qed.

(** The initial write of a connection just dialed. *)
Lemma initial_write sid session n initial s w s' :
  (if negb (bool_decide (initial = [])) then out_write (length (outs s)) initial else mret (Ok ()))
    (set_outs (outs s ++ [MkOut sid session (MkStream [] [] n) false]) s) = (Ok w, s') →
  ∃ io, s' = set_outs (outs s ++ [MkOut sid session io false]) s ∧ (is_ok w = true → tx io = initial).
Proof.
  case_bool_decide as Hi; simpl.
  - intros [= <- <-]. by exists (MkStream [] [] n).
  - rw /out_write /= lookup_snoc_last /=. destruct (write_all initial (MkStream [] [] n)) as [r io] eqn:E.
    intros [= <- <-]. exists io. rw insert_snoc_last. split; [done|].
    rw /write_all in E. case_decide; injection E as <- <-; [done|]. by rw /=.
Qed.

Lemma open_tcp_attached fin f dial s target consumed :
  frame_command f = CMD_PSH → attached tag fin s → streams s !! frame_stream_id f = None →
  decode_socksaddr (frame_data f) = Ok (target, consumed) →
  gives (attached tag (fin ++ [f])) (open_tcp tag dial (frame_stream_id f) target (drop consumed (frame_data f))) s.
Proof.
  intros Hf Hat Hnone Hd. rw /open_tcp. set (session := MkSession tag Connect target).
  destruct (dial session) as [n|e]; [|by apply gives_tabled; [apply tabled_write|apply attached_skip]].
  intros s' E. apply SE_bind_inv in E as (i & s1 & [= <- <-] & E).
  apply SE_bind_inv in E as (w & s2 & (io & -> & Hio)%initial_write & E).
  destruct w as [[]|e]; [specialize (Hio eq_refl)|].
  - apply SE_bind_inv in E as ([] & s3 & [= <-] & E). apply SE_bind_inv in E as ([] & s4 & Hack & [= <-]).
    apply synack_tabled in Hack as Ht. assert (Hat4 : attached tag (fin ++ [f]) s4); [eapply tabled_attached; [exact Ht|]|].
    2: { intros k. eapply at_same; [apply same_reading|apply Hat4]. }
    eapply attached_open; [done..| |apply lookup_insert_eq|].
    + intros k Hk. apply same_grow; [done|]. by apply lookup_insert_ne.
    + intros x [= <-]. eexists. by rw /= lookup_snoc_last.
  - eapply (gives_tabled _ _ _ (tabled_write _ _ _ _)); [|exact E].
    eapply attached_open; [done..| |done|].
    + intros k Hk. by apply (same_grow k s io _ session false (streams s)).
    + simpl. intros x Hx. congruence.
Qed.

Lemma same_grow_chan k s c (st : gmap Z InboundStream) :
  k ≠ uc_sid c → st !! k = streams s !! k → same_stream k s (set_streams st (set_chans (chans s ++ [c]) s)).
Proof.
  intros Hk Hst. split_and!; [done|by eauto|].
  intros i c' Hi Hc. exists c'. simpl. rw lookup_app_l; [by eapply lookup_lt_Some|done].
Qed.

Lemma initial_send sid initial s u s' :
  when (negb (bool_decide (initial = []))) (chan_send (length (chans s)) initial)
    (set_chans (chans s ++ [MkUotChan sid [] 0 true]) s) = (Ok u, s') →
  ∃ sent, s' = set_chans (chans s ++ [MkUotChan sid sent 0 true]) s ∧ concat sent = initial.
Proof.
  case_bool_decide as Hi; simpl.
  - intros [= <- <-]. by exists [].
  - rw /chan_send /= lookup_snoc_last /=. intros [= <- <-]. exists [initial]. rw insert_snoc_last /= app_nil_r. done.
Qed.

Lemma open_uot_attached fin f s target consumed :
  frame_command f = CMD_PSH → attached tag fin s → streams s !! frame_stream_id f = None → blocked s = None →
  decode_socksaddr (frame_data f) = Ok (target, consumed) → is_uot_v2_magic_target target = true →
  gives (attached tag (fin ++ [f])) (open_uot (frame_stream_id f) (drop consumed (frame_data f))) s.
Proof.
  intros Hf Hat Hnone Hb Hd Hm s' E. apply SE_bind_inv in E as (i & s1 & [= <- <-] & E).
  apply SE_bind_inv in E as (u & s2 & (sent & -> & Hsent)%initial_send & E).
  apply SE_bind_inv in E as ([] & s3 & [= <-] & Hack). apply synack_tabled in Hack as Ht.
  eapply tabled_attached; [exact Ht|]. eapply attached_open; [done..| |apply lookup_insert_eq|].
  - intros k Hk. apply same_grow_chan; [done|]. by apply lookup_insert_ne.
  - intros x [= <-]. eexists. rw /= lookup_snoc_last. split_and!; [done..|]. intros _. by rw /waiting /= Hb app_nil_r.
Qed.

(** A frame of a stream that is served. *)
Lemma at_next fin s s' f st st' :
  frame_command f = CMD_PSH → at_stream tag fin s (frame_stream_id f) →
  streams s !! frame_stream_id f = Some st → streams s' !! frame_stream_id f = Some st' →
  (∀ target data, serves tag s (frame_stream_id f) st target data →
     serves tag s' (frame_stream_id f) st' target (data ++ frame_data f)) →
  at_stream tag (fin ++ [f]) s' (frame_stream_id f).
Proof.
  intros Hf Hat Hst Hst' Hs x Hx. rw Hst' in Hx. injection Hx as <-.
  destruct (Hat st Hst) as (pre & enc & target & consumed & post & -> & Hd & Hfin & Hserves).
  exists pre, enc, target, consumed, (post ++ [f]). split_and!.
  - by rw -app_assoc.
  - done.
  - rw frames_of_snoc Hfin decide_False; [rw Hf; by intros [? _]|done].
  - rw psh_data_snoc decide_True; [done|]. rw app_assoc. by apply Hs.
Qed.

Lemma tcp_attached fin f s i :
  frame_command f = CMD_PSH → attached tag fin s → streams s !! frame_stream_id f = Some (Tcp i) →
  gives (attached tag (fin ++ [f]))
    (written ← out_write i (frame_data f);
     match written with
     | Ok _ => mret ()
     | Err _ => table_remove (frame_stream_id f) ;; locked_write_frame CMD_FIN (frame_stream_id f) []
     end) s.
Proof.
  intros Hf Hat Hst s' E. apply SE_bind_inv in E as (w & s1 & Hw & E).
  destruct (Hat _ _ Hst) as (_ & _ & target & _ & _ & _ & _ & _ & (o & Hi & Hsid & _)).
  rw /out_write Hi in Hw. destruct (write_all (frame_data f) (oc_io o)) as [r io] eqn:Hr. injection Hw as <- <-.
  set (o' := MkOut (oc_sid o) (oc_session o) io (oc_reading o)).
  assert (Hother : ∀ k st, k ≠ frame_stream_id f → st !! k = streams s !! k →
    same_stream k s (set_streams st (set_outs (<[i := o']> (outs s)) s))).
  { intros k st Hk Hstk. split_and!; [done| |by eauto]. intros j p Hj Hp. exists p. simpl.
    rw list_lookup_insert_ne; [|done]. intros ->. congruence. }
  destruct r as [[]|e].
  - injection E as <-. intros k. destruct (decide (k = frame_stream_id f)) as [->|Hk].
    + eapply at_next; [done|apply Hat|done|done|]. intros t data (p & Hp & Hps & Hss & <-). rw Hi in Hp. injection Hp as <-.
      exists o'. simpl. rw list_lookup_insert_eq; [by eapply lookup_lt_Some|]. split_and!; [done..|].
      rw /write_all in Hr. by case_decide; simplify_eq/=.
    + apply at_other; [by right|]. eapply at_same; [by apply (Hother k (streams s))|apply Hat].
  - apply SE_bind_inv in E as ([] & s2 & [= <-] & E).
    eapply (gives_tabled _ _ _ (tabled_write _ _ _ _)); [|exact E].
    intros k. destruct (decide (k = frame_stream_id f)) as [->|Hk].
    + intros x. simpl. by rw lookup_delete_eq.
    + apply at_other; [by right|]. eapply at_same; [|apply Hat]. apply Hother; [done|]. by apply lookup_delete_ne.
Qed.

Lemma udp_attached fin f s i :
  frame_command f = CMD_PSH → attached tag fin s → streams s !! frame_stream_id f = Some (Udp i) → blocked s = None →
  gives (attached tag (fin ++ [f])) (chan_send i (frame_data f)) s.
Proof.
  intros Hf Hat Hst Hb s' E.
  destruct (Hat _ _ Hst) as (_ & _ & target & _ & _ & _ & _ & _ & (c & Hi & Hsid & _)).
  rw /chan_send Hi in E. intros k. destruct (decide (k = frame_stream_id f)) as [->|Hk].
  - eapply at_next; [done|apply Hat|done| |].
    { destruct (negb _); [injection E as <-|destruct (Nat.ltb _ _); injection E as <-]; done. }
    intros t data (c' & Hc & Hcs & Hm & Hd). rw Hi in Hc. injection Hc as <-.
    destruct (uc_open c) eqn:Hopen; simpl in E.
    + specialize (Hd eq_refl). rw /waiting Hb app_nil_r in Hd. destruct (Nat.ltb _ _); injection E as <-.
      * eexists. rw /= list_lookup_insert_eq; [by eapply lookup_lt_Some|]. split_and!; [done..|]. intros _.
        by rw /waiting /= Hb concat_app /= !app_nil_r Hd.
      * exists c. split_and!; [done..|]. intros _. rw /waiting /= decide_True; [done|]. by rw Hd.
    + injection E as <-. exists c. split_and!; [done..|]. congruence.
  - apply at_other; [by right|]. eapply at_same, Hat.
    destruct (negb _); [injection E as <-; by apply same_refl|].
    destruct (Nat.ltb _ _); injection E as <-; (split_and!; [done|by eauto|]); intros j c' Hj Hc'; exists c'; simpl.
    + rw list_lookup_insert_ne; [intros ->; congruence|]. done.
    + split_and!; [done..|]. intros Ho. rw /waiting /= Hb decide_False; [|done]. intros ->. congruence.
Qed.

Lemma psh_attached fin f dial s :
  frame_command f = CMD_PSH → attached tag fin s → blocked s = None →
  gives (attached tag (fin ++ [f])) (handle_psh tag dial (frame_stream_id f) (frame_data f)) s.
Proof.
  intros Hf Hat Hb s' E. apply SE_bind_inv in E as (seen & s1 & [= <- <-] & E).
  destruct (settings_seen s); [|by apply SE_bind_inv in E as (? & ? & _ & ?)].
  apply SE_bind_inv in E as (entry & s1 & [= <- <-] & E).
  destruct (streams s !! frame_stream_id f) as [[i|i]|] eqn:Hst.
  - by eapply tcp_attached.
  - by eapply udp_attached.
  - destruct (decode_socksaddr (frame_data f)) as [[target consumed]|e] eqn:Hd.
    + destruct (is_uot_v2_magic_target target) eqn:Hm; [by eapply open_uot_attached|by eapply open_tcp_attached].
    + eapply (gives_tabled _ _ _ (tabled_write _ _ _ _)); [|exact E]. by apply attached_skip.
Qed.

Lemma fin_attached fin f s :
  attached tag fin s → gives (attached tag (fin ++ [f])) (handle_fin (frame_stream_id f)) s.
Proof.
  intros Hat s' [= <-] k. destruct (decide (k = frame_stream_id f)) as [->|Hk].
  - intros x. simpl. by rw lookup_delete_eq.
  - apply at_other; [by right|]. eapply at_same; [|apply Hat]. split_and!; [|by eauto..].
    simpl. by apply lookup_delete_ne.
Qed.

Lemma other_attached fin f s :
  frame_command f ≠ CMD_PSH → frame_command f ≠ CMD_FIN → attached tag fin s → attached tag (fin ++ [f]) s.
Proof. intros H1 H2 Hat k. by apply at_other; [left|apply Hat]. Qed.

Lemma frame_attached fin f dial s :
  attached tag fin s → blocked s = None →
  gives (attached tag (fin ++ [f])) (handle_frame tag server_padding_md5 server_padding_scheme dial f) s.
Proof.
  intros Hat Hb. rw /handle_frame.
  destruct (Z.eqb_spec (frame_command f) CMD_SETTINGS) as [E1|N1].
  { apply gives_tabled; [apply tabled_settings|]. by apply other_attached; [rw E1..|]. }
  destruct (Z.eqb_spec (frame_command f) CMD_SYN) as [E2|N2].
  { apply gives_tabled; [apply tabled_syn|]. by apply other_attached; [rw E2..|]. }
  destruct (Z.eqb_spec (frame_command f) CMD_PSH) as [E3|N3]; [by apply psh_attached|].
  destruct (Z.eqb_spec (frame_command f) CMD_FIN) as [E4|N4]; [by apply fin_attached|].
  assert (Hskip : attached tag (fin ++ [f]) s) by by apply other_attached.
  case_match; [by intros s' [= <-]|]. case_match; [by apply gives_tabled; [apply tabled_write|]|by intros s' [= <-]].
Qed.

(** ** The tasks and the waiting send *)
Lemma tabled_uot_write s0 i command data : keeps (tabled s0) (uot_write i command data).
Proof. rw /uot_write. keep_walk. Qed.

Lemma same_alter_chan k s f i :
  (∀ c, uc_sid (f c) = uc_sid c ∧ (uc_open (f c) = true → uc_open c = true ∧ uc_sent (f c) = uc_sent c)) →
  same_stream k s (set_chans (alter f i (chans s)) s).
Proof.
  intros Hf. split_and!; [done|by eauto|]. intros j c Hj Hc. simpl.
  destruct (decide (i = j)) as [->|Hne]; [rw list_lookup_alter_eq Hj|rw list_lookup_alter_ne // Hj]; [|by exists c].
  exists (f c). destruct (Hf c) as [Hsid Ho]. split_and!; [done|by rw Hsid|]. intros [H1 H2]%Ho. by rw H2.
Qed.

Lemma tabled_refl s : tabled s s.
Proof. done. Qed.
Lemma same_trans k s1 s2 s3 : tabled s1 s2 → same_stream k s2 s3 → same_stream k s1 s3.
Proof.
  intros (E1 & E2 & E3 & E4) (Hs & Ho & Hc). rw /same_stream /waiting -E1 -E2 -E3 -E4. done.
Qed.

Lemma task_same k ev s : same_stream k s (task_event ev s).2.
Proof.
  assert (Hsnd : ∀ (m : SE Sess ()), keeps (tabled s) m → same_stream k s (m s).2).
  { intros m Hm. specialize (Hm s (tabled_refl s)).
    destruct (m s) as [[[]|e] s']; destruct Hm as (E1 & E2 & E3 & E4); by apply same_refl. }
  destruct ev as [dial|i read|i|i data|i]; simpl.
  - by apply same_refl.
  - rw /reader_round /mbind /SE_bind /gets. destruct (outs s !! i) as [o|]; [|by apply same_refl].
    destruct (negb (oc_reading o)); [by apply same_refl|].
    assert (Hw : ∀ c d r s', locked_write_frame c (oc_sid o) d s = (r, s') → tabled s s').
    { intros c d r s' E. pose proof (tabled_write s c (oc_sid o) d s (tabled_refl s)) as Hk. rw E in Hk. by destruct r. }
    destruct read as [[|b data]|e]; rw /attempt.
    all: destruct (locked_write_frame _ _ _ s) as [r s'] eqn:E; apply Hw in E; simpl.
    + eapply same_trans; [exact E|apply same_reading].
    + destruct r; simpl; [destruct E as (?&?&?&?); by apply same_refl|]. eapply same_trans; [exact E|apply same_reading].
    + eapply same_trans; [exact E|apply same_reading].
  - by apply same_alter_chan.
  - apply Hsnd, tabled_uot_write.
  - rw /mbind /SE_bind. pose proof (tabled_uot_write s i CMD_FIN [] s (tabled_refl s)) as Hk.
    destruct (uot_write i CMD_FIN [] s) as [[[]|e] s'].
    + eapply same_trans; [exact Hk|]. by apply same_alter_chan.
    + destruct Hk as (?&?&?&?). by apply same_refl.
Qed.

Lemma resume_same k s i data :
  blocked s = Some (i, data) → same_stream k s (chan_send i data (set_blocked None s)).2.
Proof.
  intros Hb. rw /chan_send /=. destruct (chans s !! i) as [c|] eqn:Hi.
  - destruct (uc_open c) eqn:Ho; simpl; [destruct (Nat.ltb _ _); simpl|]; (split_and!; [done|by eauto|]); intros j d Hj Hd.
    + destruct (decide (i = j)) as [->|Hne].
      * rw Hi in Hj. injection Hj as <-. eexists. rw /= list_lookup_insert_eq; [by eapply lookup_lt_Some|].
        split_and!; [done..|]. intros _. split; [done|]. rw /waiting /= Hb decide_True; [done|]. by rw concat_app /= !app_nil_r.
      * exists d. rw /= list_lookup_insert_ne; [done|]. split_and!; [done..|]. intros ?. split; [done|].
        rw /waiting /= Hb decide_False; [congruence|done].
    + exists d. split_and!; [done..|]. intros ?. split; [done|]. by rw /waiting /= Hb.
    + exists d. split_and!; [done..|]. intros Hopen. split; [done|]. rw /waiting /= Hb decide_False; [|done]. congruence.
  - simpl. split_and!; [done|by eauto|]. intros j d Hj Hd. exists d. split_and!; [done..|]. intros ?. split; [done|].
    rw /waiting /= Hb decide_False; [congruence|done].
Qed.

(** ** Runs

    [lost] is the beginning of a frame the connection ended in. *)
Definition traced (rx0 : bytes) (s : Sess) : Prop :=
  ∃ fin lost, rx0 = wires fin ++ lost ++ rx (conn s) ∧ Forall wf_frame fin ∧ wf_bytes (rx (conn s)) ∧
    (ended s = None → lost = [] ∧ attached tag fin s) ∧ sess_inv fin s.

Lemma sess_inv_conn fin s c :
  sess_inv fin s → tx c = tx (conn s) → room c = room (conn s) → sess_inv fin (set_conn c s).
Proof.
  intros (fout & (part & Htx & Hp) & Hr) Ht Hm. exists fout. split; [|exact Hr].
  exists part. rw /= Ht Hm. done.
Qed.
Lemma sess_inv_ended fin s e : sess_inv fin s → sess_inv fin (set_ended e s).
Proof. done. Qed.

(** A round of the frame loop that reads a frame. *)
Lemma frame_round rx0 dial s :
  traced rx0 s → ended s = None → blocked s = None →
  traced rx0 (match next_frame tag server_padding_md5 server_padding_scheme dial s with
              | (Ok _, s) => s | (Err e, s) => set_ended (Some e) s end).
Proof.
  intros (fin & lost & Hrx & Hfin & Hwf & Hlost & Hi) He Hb. destruct (Hlost He) as [-> Hat]. clear Hlost.
  rw /next_frame /mbind /SE_bind /on_conn. destruct (read_frame (conn s)) as [[f|e] c] eqn:Hread.
  - apply read_frame_inv in Hread as (Hf & Hr & Hwf' & Ht & Hm); [|done].
    pose proof (inv_handle_frame tag server_padding_md5 server_padding_scheme fin dial f Hf _ (sess_inv_conn _ _ _ Hi Ht Hm)) as Hinv.
    pose proof (rests_handle_frame tag server_padding_md5 server_padding_scheme (rx c) None dial f (set_conn c s) (conj eq_refl He)) as Hrest.
    pose proof (frame_attached fin f dial (set_conn c s) Hat Hb) as Hgives.
    destruct (handle_frame _ _ _ dial f (set_conn c s)) as [[[]|e] s'] eqn:E; destruct Hrest as [Hrx' He'].
    all: exists (fin ++ [f]), []; split_and!; [|by apply Forall_snoc|by rw /= Hrx'|by eauto|done].
    all: by rw /= Hrx' wires_app Hrx Hr /wires /= app_nil_r -app_assoc.
  - apply read_frame_behind in Hread as ((l & Hl) & Ht & Hm). exists fin, l. simpl.
    rw Hl in Hwf Hrx. split_and!; [done|done|by eapply wf_bytes_suffix|done|]. by apply sess_inv_ended, sess_inv_conn.
Qed.

Lemma traced_task rx0 s ev : traced rx0 s → traced rx0 (task_event ev s).2.
Proof.
  intros (fin & lost & Hrx & Hfin & Hwf & Hlost & Hi). pose proof (inv_task fin ev s Hi) as Hinv.
  pose proof (rests_task (rx (conn s)) (ended s) ev s (conj eq_refl eq_refl)) as Hrest.
  assert (Hsame : ∀ k, same_stream k s (task_event ev s).2) by (intros k; apply task_same).
  destruct (task_event ev s) as [[a|e] s']; destruct Hrest as [Hr He]; exists fin, lost; rw /= Hr He;
    (split_and!; [done..| |done]); intros Hn; destruct (Hlost Hn) as [-> Hat]; (split; [done|]);
    intros k; (eapply at_same; [apply Hsame|apply Hat]).
Qed.

Lemma traced_resume rx0 s i data :
  traced rx0 s → ended s = None → blocked s = Some (i, data) →
  traced rx0 (chan_send i data (set_blocked None s)).2.
Proof.
  intros (fin & lost & Hrx & Hfin & Hwf & Hlost & Hi) He Hb.
  assert (Hlive : live fin (set_blocked None s)).
  { destruct (settings_seen s) eqn:Hseen.
    - eapply live_frame; [by split|done..|]. destruct Hi as (? & _ & _ & _ & _ & Hids). exact Hids.
    - destruct Hi as (fout & _ & _ & _ & Hg & _). rw /gate Hseen in Hg. destruct Hg as (_ & _ & _ & Hb' & _). congruence. }
  pose proof (live_chan_send fin i data _ Hlive) as Hinv.
  pose proof (rests_chan_send (rx (conn s)) None i data (set_blocked None s) (conj eq_refl He)) as Hrest.
  assert (Hsame : ∀ k, same_stream k s (chan_send i data (set_blocked None s)).2) by (intros k; by apply resume_same).
  destruct (chan_send i data (set_blocked None s)) as [[a|e] s']; destruct Hrest as [Hr He'], Hinv as [Hinv _];
    exists fin, lost; rw /= Hr He'; (split_and!; [done..| |done]); intros _; destruct (Hlost He) as [-> Hat];
    (split; [done|]); intros k; (eapply at_same; [apply Hsame|apply Hat]).
Qed.

Lemma traced_event rx0 s ev :
  traced rx0 s → traced rx0 (sess_event tag server_padding_md5 server_padding_scheme s ev).
Proof.
  intros Htr. destruct ev as [dial|i read|i|i data|i]; [|by apply traced_task..]. rw /sess_event /frame_loop.
  destruct (ended s) as [e|] eqn:He; [done|].
  destruct (blocked s) as [[i data]|] eqn:Hb; [by apply traced_resume|by apply frame_round].
Qed.

Lemma traced_run rx0 s evs :
  traced rx0 s → traced rx0 (sess_run tag server_padding_md5 server_padding_scheme s evs).
Proof. revert s. induction evs as [|ev evs IH]; intros s Hs; [done|]. by apply IH, traced_event. Qed.

Lemma traced_new c : wf_bytes (rx c) → tx c = [] → traced (rx c) (sess_new c).
Proof.
  intros Hwf Ht. exists [], []. split_and!; [done..| |].
  { intros _. split; [done|]. intros k st. simpl. by rw lookup_empty. }
  exists []. split_and!; [|done| |done|by split].
  - exists []. by split; [|left].
  - intros sid. destruct (decide (sid ∈ _)); simpl; lia.
Qed.

(** ** Properties *)

(** C3: Nothing is served before the hello and the settings. When a connection
    is in a session, its first bytes were the hello of the named user; and as
    long as no settings frame has been received, no target has been dialed, no
    stream or UDP channel exists, and the frames written, whatever the order in
    which tasks ran, are alerts and heartbeat answers only. *)
Theorem service_gate us upstream copy evs client name s :
  wf_bytes (rx client) → tx client = [] →
  serve_connection tag server_padding_md5 server_padding_scheme us upstream copy evs client = Ok (InSession name s) →
  ∃ u pad rest fin lost,
    u ∈ us ∧ Config.username u = name ∧
    rx client = password_hash (Config.password u) ++ be_bytes 2 (len pad) ++ pad ++ rest ∧
    rest = wires fin ++ lost ++ rx (conn s) ∧
    (Forall (λ f, frame_command f ≠ CMD_SETTINGS) fin →
       outs s = [] ∧ chans s = [] ∧ streams s = ∅ ∧ ∃ fout, framed (conn s) fout ∧ Forall quiet fout).
Proof.
  intros Hwf Ht. rw /serve_connection. destruct (read_client_hello_or_fallback us client) as [[auth|e] c] eqn:Hh; [|done].
  apply hello_inv in Hh as (Hauth & Htx & _); [|done]. destruct auth as [name'|prefix]; [|done]. intros [= -> <-].
  destruct Hauth as (u & pad & Hu & Hname & _ & Hrx).
  assert (Hwc : wf_bytes (rx c)) by (rw Hrx in Hwf; by do 3 apply wf_bytes_suffix in Hwf).
  destruct (traced_run (rx c) (sess_new c) evs) as (fin & lost & Hc & _ & _ & _ & fout & Hfr & _ & _ & Hg & _).
  { apply traced_new; [done|]. by rw Htx. }
  exists u, pad, (rx c), fin, lost. split_and!; [done..|]. intros Hno. rw /gate in Hg.
  destruct (settings_seen _).
  - destruct Hg as (f & Hin & Hf). rw Forall_forall in Hno. by destruct (Hno f Hin).
  - destruct Hg as (H1 & H2 & H3 & _ & H4). split_and!; [done..|]. by exists fout.
Qed.

(** C21: Whatever the interleaving of the frame loop with the reader and UDP
    tasks, the bytes written to the client are whole frames one after another
    (only a broken connection cuts the last one), and a stream is acknowledged
    at most once, plus once for every time the client has finished it. *)
Theorem acked_once rx0 k evs sid :
  wf_bytes rx0 →
  let s := sess_run tag server_padding_md5 server_padding_scheme (sess_new (MkStream rx0 [] k)) evs in
  ∃ fin fout part lost,
    rx0 = wires fin ++ lost ++ rx (conn s) ∧
    tx (conn s) = wires fout ++ part ∧ (part = [] ∨ room (conn s) = 0%nat) ∧ Forall wf_frame fout ∧
    (frames_of CMD_SYNACK sid fout ≤ 1 + frames_of CMD_FIN sid fin)%nat.
Proof.
  intros Hwf s. destruct (traced_run rx0 (sess_new (MkStream rx0 [] k)) evs)
    as (fin & lost & Hrx & _ & _ & _ & fout & (part & Htx & Hp) & Hwfo & Ha & _); [by apply (traced_new (MkStream rx0 [] k))|].
  exists fin, fout, part, lost. split_and!; [done..|]. specialize (Ha sid). lia.
Qed.

End streams.
