(* ===== verification/AnytlsEndToEnd.v ===== *)
(** * An AnyTLS stream from end to end

    The client of src/protocol/anytls/outbound.rs against the server of
    src/protocol/anytls/inbound.rs: what an application writes to a dialed
    stream is what the server's outbound connection gets. *)
From S2P Require Import Prelude Io Text Net Config Socks5Codec AnytlsCodec AnytlsFrames AnytlsWriter AnytlsClient AnytlsPool AnytlsInbound.

(** ** The client: events as calls of the writer *)
Section client.
Context `{!AnytlsCore, !AnytlsLaws}.

(** What the application writes: the bytes of a read, the plan and the draw of
    the padding, the time. *)
Record AppWrite := MkAppWrite { aw_data : bytes; aw_plan : PaddingPlan; aw_draw : nat; aw_now : Z }.
Definition app_event (sid : Z) (w : AppWrite) : ClientEvent := CAppRead sid (Ok (aw_data w)) (aw_plan w) (aw_draw w) (aw_now w).
Definition app_op (sid : Z) (w : AppWrite) : WriterOp := WWrite (MkFrame CMD_PSH sid (aw_data w)) (aw_plan w) (aw_draw w).
Definition app_ok (w : AppWrite) : Prop := aw_data w ≠ [] ∧ len (aw_data w) ≤ U16_MAX ∧ plan_ok (aw_plan w).

(** The calls that open a stream. *)
Definition connect_ops (sid : Z) (target : TargetAddr) (plan : PaddingPlan) (draw : nat) : list WriterOp :=
  [WBuffer (MkFrame CMD_SYN sid []); WWrite (MkFrame CMD_PSH sid (addr_wire target)) plan draw].

Lemma write_connect_ops sid target plan draw s w :
  fits_wire target = true →
  for_each writer_op (connect_ops sid target plan draw) (cs_writer s) = (Ok (), w) →
  session_write_connect sid target plan draw s = (Ok (), set_cs_writer w s).
Proof.
  intros Hfit E. cbn [connect_ops for_each writer_op frame_command frame_stream_id frame_data] in E.
  apply SE_bind_inv in E as ([] & w1 & E1 & E). apply SE_bind_inv in E as ([] & w2 & E2 & [= <-]).
  rw /session_write_connect /session_buffer_frame /session_write_frame encode_socksaddr_wire; [done|].
  rw /mbind /SE_bind {1}/on_client_writer E1. cbn [lift]. rw /lift /on_client_writer. cbn [cs_writer set_cs_writer]. by rw E2.
Qed.

Lemma app_events_ops sid ws s w :
  Forall app_ok ws → for_each writer_op (app_op sid <$> ws) (cs_writer s) = (Ok (), w) →
  client_run s (app_event sid <$> ws) = set_cs_writer w s.
Proof.
  revert s. induction ws as [|x ws IH]; intros s Hok E.
  { injection E as <-. by destruct s. }
  apply Forall_cons in Hok as [(Hne & _) Hok]. rw fmap_cons in E. cbn [for_each] in E.
  apply SE_bind_inv in E as ([] & w1 & E1 & E). cbn [app_op writer_op frame_command frame_stream_id frame_data] in E1.
  rw fmap_cons /client_run. cbn [fold_left].
  assert (Hstep : (client_event (app_event sid x) s).2 = set_cs_writer w1 s).
  { rw /app_event /client_event /app_reader_round. destruct (aw_data x) as [|b data]; [done|].
    rw /mbind /SE_bind /attempt /session_write_frame /on_client_writer E1. done. }
  rw Hstep. exact (IH (set_cs_writer w1 s) Hok E).
Qed.
End client.

(** ** The server: one frame at a time *)
Section server.
Context `{!AnytlsCore, !AnytlsLaws}.
Variables (tag md5 scheme : bytes) (dial : Session → Result nat).

Definition running (s : Sess) : Prop := ended s = None ∧ blocked s = None.
Definition set_rx (r : bytes) (s : Sess) : Sess := set_conn (MkStream r (tx (conn s)) (room (conn s))) s.
Local Abbreviation loop := (frame_loop tag md5 scheme dial).
Local Abbreviation run n s := (sess_run tag md5 scheme s (replicate n (FrameLoop dial))).

Lemma loop_frame f r s s' :
  wf_frame f → running s → rx (conn s) = wire f ++ r →
  handle_frame tag md5 scheme dial f (set_rx r s) = (Ok (), s') → loop s = s'.
Proof.
  intros Hf [He Hb] Hr Hh. rw /frame_loop He Hb /next_frame.
  assert (E : on_conn read_frame s = (Ok f, set_rx r s)).
  { rw /on_conn. destruct s as [[crx ctx croom] ? ? ? ? ? ? ? ?]. simpl in *. subst crx.
    destruct (read_frame_parses (S:=Stream) f Hf) as [Hp _]. by rw (stream_parse _ _ _ _ _ _ Hp). }
  by rw (SE_bind_ok _ _ _ _ _ E) Hh.
Qed.

(** The waste frames before the next proper frame are skipped. *)
Lemma run_proper fs f todo :
  Forall wf_frame fs → proper_frames fs = f :: todo →
  ∃ n fs', Forall wf_frame fs' ∧ proper_frames fs' = todo ∧ wf_frame f ∧ ∀ s s' r,
    running s → rx (conn s) = wires fs ++ r →
    handle_frame tag md5 scheme dial f (set_rx (wires fs' ++ r) s) = (Ok (), s') → run n s = s'.
Proof.
  induction fs as [|g fs IH]; intros Hwf Hp; [done|]. apply Forall_cons in Hwf as [Hg Hwf].
  rw /proper_frames in Hp. destruct (decide (frame_command g ≠ CMD_WASTE)) as [Hne|Hw].
  - rw filter_cons_True in Hp; [done|]. injection Hp as -> Hp. exists 1%nat, fs. split_and!; [done..|].
    intros s s' r Hs Hr Hh. simpl. eapply loop_frame; [done..| |exact Hh]. by rw Hr wires_cons -app_assoc.
  - rw filter_cons_False in Hp; [done|]. apply dec_stable in Hw.
    destruct (IH Hwf Hp) as (n & fs' & H1 & H2 & H3 & H4). exists (S n), fs'. split_and!; [done..|].
    intros s s' r Hs Hr Hh. cbn [replicate]. rw /sess_run. cbn [fold_left sess_event].
    rw (loop_frame g (wires fs ++ r) s (set_rx (wires fs ++ r) s)); [done|done|by rw Hr wires_cons -app_assoc| |].
    { rw /handle_frame Hw. by destruct s as [[] ? ? ? ? ? ? ? ?]. }
    eapply H4; [|done|exact Hh]. by destruct s.
Qed.

Lemma run_app n m s : run (n + m) s = run m (run n s).
Proof. by rw replicate_add /sess_run fold_left_app. Qed.

Lemma write_frame_on f s :
  wf_frame f → (length (wire f) ≤ room (conn s))%nat →
  locked_write_frame (frame_command f) (frame_stream_id f) (frame_data f) s =
    (Ok (), set_conn (MkStream (rx (conn s)) (tx (conn s) ++ wire f) (room (conn s) - length (wire f))) s).
Proof.
  intros Hf Hk. rw /locked_write_frame /on_conn. destruct s as [[r t k] ? ? ? ? ? ? ? ?]. simpl in *.
  by rw write_frame_talks.
Qed.

(** The session once the settings were seen, with the streams acknowledged,
    those in the table and the connections dialed. *)
Definition at_work (c : Stream) (table : gmap Z InboundStream) (acked : gset Z) (os : list OutConn) : Sess :=
  MkSess c table acked true true os [] None None.
Definition settings_reply : list Frame :=
  [MkFrame CMD_SERVER_SETTINGS 0 settings; MkFrame CMD_UPDATE_PADDING_SCHEME 0 scheme].

Lemma settings_step data r t k :
  settings_version data = Some 2 → len scheme ≤ U16_MAX → (length (wires settings_reply) ≤ k)%nat →
  ∃ t' k', handle_settings md5 scheme data (sess_new (MkStream r t k)) = (Ok (), at_work (MkStream r t' k') ∅ ∅ []) ∧
    (k ≤ k' + length (wires settings_reply))%nat.
Proof.
  intros Hv Hs Hk. rw /settings_reply !wires_cons_length in Hk *.
  assert (H1 : wf_frame (MkFrame CMD_SERVER_SETTINGS 0 settings)) by (split_and!; by_decide).
  assert (H2 : wf_frame (MkFrame CMD_UPDATE_PADDING_SCHEME 0 scheme)) by (split_and!; [by_decide|by_decide|done]).
  rw /handle_settings Hv. change (2 <=? 2) with true.
  pose proof (write_frame_on _ (at_work (MkStream r t k) ∅ ∅ []) H1 ltac:(cbn [room conn at_work]; lia)) as E1.
  pose proof (λ t', write_frame_on _ (at_work (MkStream r t' (k - length (wire (MkFrame CMD_SERVER_SETTINGS 0 settings)))) ∅ ∅ [])
    H2 ltac:(cbn [room conn at_work]; lia)) as E2.
  cbn [frame_command frame_stream_id frame_data] in E1, E2.
  remember (length (wire (MkFrame CMD_SERVER_SETTINGS 0 settings))) as a eqn:Ha.
  remember (length (wire (MkFrame CMD_UPDATE_PADDING_SCHEME 0 scheme))) as b eqn:Hb. clear Ha Hb.
  rw /mbind /SE_bind /modify. cbn [when].
  change (set_client_v2 true (set_settings_seen true (sess_new (MkStream r t k)))) with (at_work (MkStream r t k) ∅ ∅ []).
  rw E1. case_bool_decide; cbn [negb when].
  - do 2 eexists. split; [done|]. cbn [room conn at_work]. lia.
  - change (set_conn (MkStream ?x ?y ?z) (at_work _ ?m ?n ?o)) with (at_work (MkStream x y z) m n o).
    cbn [room conn at_work rx tx]. rw E2. do 2 eexists. split; [done|]. cbn [room conn at_work]. lia.
Qed.

Lemma syn_step sid r t k :
  is_u32 sid → (7 ≤ k)%nat →
  ∃ t', handle_syn sid (at_work (MkStream r t k) ∅ ∅ []) = (Ok (), at_work (MkStream r t' (k - 7)) ∅ {[sid]} []).
Proof.
  intros Hsid Hk. assert (Hf : wf_frame (MkFrame CMD_SYNACK sid [])) by (split_and!; [by_decide|done|by_decide]).
  rw /handle_syn /synack /mbind /SE_bind /gets /modify. cbn [settings_seen at_work negb client_v2 synacked_streams].
  rw bool_decide_false; [set_solver|]. cbn [andb negb].
  pose proof (write_frame_on _ (at_work (MkStream r t k) ∅ {[sid]} []) Hf ltac:(done)) as E.
  cbn [frame_command frame_stream_id frame_data] in E.
  change (set_synacked_streams ({[sid]} ∪ ∅) (at_work (MkStream r t k) ∅ ∅ [])) with
    (at_work (MkStream r t k) ∅ ({[sid]} ∪ ∅) []). rw union_empty_r_L E. by eexists.
Qed.

Lemma synack_seen sid s : sid ∈ synacked_streams s → synack sid s = (Ok (), s).
Proof.
  intros Hin. rw /synack /mbind /SE_bind /gets. rw bool_decide_true; [done|]. by rw andb_false_r.
Qed.

Lemma open_step sid target oroom c :
  wf_target target → fits_wire target = true → is_uot_v2_magic_target (wire_target target) = false →
  dial (MkSession tag Connect (wire_target target)) = Ok oroom →
  handle_psh tag dial sid (addr_wire target) (at_work c ∅ {[sid]} []) =
    (Ok (), at_work c {[sid := Tcp 0]} {[sid]}
       [MkOut sid (MkSession tag Connect (wire_target target)) (MkStream [] [] oroom) true]).
Proof.
  intros Hwf Hfit Hmagic Hdial. rw /handle_psh /mbind /SE_bind /gets. cbn [settings_seen at_work negb streams].
  rw lookup_empty. pose proof (decode_socksaddr_ok target [] Hwf Hfit) as Hdec. rw app_nil_r in Hdec. rw Hdec Hmagic.
  rw drop_ge; [done|]. rw /open_tcp Hdial /mbind /SE_bind /=. rw synack_seen; [simpl; set_solver|done].
Qed.

Lemma data_step sid sess data sent oroom c :
  (length data ≤ oroom)%nat →
  handle_psh tag dial sid data (at_work c {[sid := Tcp 0]} {[sid]} [MkOut sid sess (MkStream [] sent oroom) true]) =
    (Ok (), at_work c {[sid := Tcp 0]} {[sid]} [MkOut sid sess (MkStream [] (sent ++ data) (oroom - length data)) true]).
Proof.
  intros Hk. rw /handle_psh /mbind /SE_bind /gets. cbn [settings_seen at_work negb streams].
  rw lookup_singleton_eq /out_write /=. by rw write_all_ok.
Qed.

(** The payload frames of a stream that is open. *)
Lemma run_data sid sess datas fs sent oroom r t k :
  Forall wf_frame fs → proper_frames fs = MkFrame CMD_PSH sid <$> datas → (length (concat datas) ≤ oroom)%nat →
  ∃ n r' oroom', run n (at_work (MkStream (wires fs ++ r) t k) {[sid := Tcp 0]} {[sid]} [MkOut sid sess (MkStream [] sent oroom) true]) =
    at_work (MkStream r' t k) {[sid := Tcp 0]} {[sid]} [MkOut sid sess (MkStream [] (sent ++ concat datas) oroom') true].
Proof.
  revert fs sent oroom. induction datas as [|data datas IH]; intros fs sent oroom Hwf Hp Hk.
  { exists 0%nat. do 2 eexists. by rw app_nil_r. }
  rw fmap_cons in Hp. simpl in Hk. rw length_app in Hk.
  destruct (run_proper fs _ _ Hwf Hp) as (n & fs' & H1 & H2 & _ & H4).
  destruct (IH fs' (sent ++ data) (oroom - length data)%nat H1 H2 ltac:(lia)) as (m & r' & oroom' & E).
  exists (n + m)%nat, r', oroom'. rw run_app. rw (H4 _ (at_work (MkStream (wires fs' ++ r) t k) {[sid := Tcp 0]} {[sid]}
    [MkOut sid sess (MkStream [] (sent ++ data) (oroom - length data)) true]) r); [done|done| |].
  - apply data_step. lia.
  - by rw E -app_assoc.
Qed.

(** A whole stream. *)
Lemma run_stream sid target oroom datas sdata fs r t k :
  Forall wf_frame fs →
  proper_frames fs = MkFrame CMD_SETTINGS 0 sdata :: MkFrame CMD_SYN sid [] :: MkFrame CMD_PSH sid (addr_wire target)
                       :: (MkFrame CMD_PSH sid <$> datas) →
  settings_version sdata = Some 2 → len scheme ≤ U16_MAX → (length (wires settings_reply) + 7 ≤ k)%nat →
  wf_target target → fits_wire target = true → is_uot_v2_magic_target (wire_target target) = false →
  dial (MkSession tag Connect (wire_target target)) = Ok oroom → (length (concat datas) ≤ oroom)%nat →
  ∃ n c oroom', run n (sess_new (MkStream (wires fs ++ r) t k)) =
    at_work c {[sid := Tcp 0]} {[sid]}
      [MkOut sid (MkSession tag Connect (wire_target target)) (MkStream [] (concat datas) oroom') true].
Proof.
  intros Hwf Hp Hv Hs Hk Hwt Hfit Hmagic Hdial Hroom.
  destruct (run_proper fs _ _ Hwf Hp) as (n1 & fs1 & W1 & P1 & _ & R1).
  destruct (settings_step sdata (wires fs1 ++ r) t k Hv Hs ltac:(lia)) as (t1 & k1 & E1 & K1).
  destruct (run_proper fs1 _ _ W1 P1) as (n2 & fs2 & W2 & P2 & (_ & Hsid & _) & R2).
  destruct (syn_step sid (wires fs2 ++ r) t1 k1 Hsid ltac:(lia)) as (t2 & E2).
  destruct (run_proper fs2 _ _ W2 P2) as (n3 & fs3 & W3 & P3 & _ & R3).
  destruct (run_data sid (MkSession tag Connect (wire_target target)) datas fs3 [] oroom r t2 (k1 - 7) W3 P3 Hroom)
    as (n4 & r' & oroom' & E4).
  exists (n1 + (n2 + (n3 + n4)))%nat. do 2 eexists. rw !run_app.
  rw (R1 (sess_new (MkStream (wires fs ++ r) t k)) _ r ltac:(done) eq_refl E1).
  rw (R2 (at_work (MkStream (wires fs1 ++ r) t1 k1) ∅ ∅ []) _ r ltac:(done) eq_refl E2).
  rw (R3 (at_work (MkStream (wires fs2 ++ r) t2 (k1 - 7)) ∅ {[sid]} []) _ r ltac:(done) eq_refl
    (open_step sid target oroom _ Hwt Hfit Hmagic Hdial)).
  exact E4.
Qed.
End server.

(** ** The two together *)
Section together.
Context `{!AnytlsCore, !AnytlsLaws}.

Definition settings_frame (st : ClientState) : Frame :=
  MkFrame CMD_SETTINGS 0 (client_settings_with_padding_md5 (padding_md5 st)).

(** The client's state is one a padding scheme gives. *)
Definition state_ok (st : ClientState) (n0 : nat) : Prop :=
  cs_padding0_len st = Z.of_nat n0 ∧ Z.of_nat n0 ≤ U16_MAX ∧ plan_ok (padding_plan st) ∧
  utf8_valid (padding_md5 st) = true ∧ (LF ∉ padding_md5 st) ∧
  len (client_settings_with_padding_md5 (padding_md5 st)) ≤ U16_MAX.
Definition cfg_ok (cfg : OutboundConfig) (password : bytes) : Prop :=
  is_Some (server cfg) ∧ is_ok (tls_server_name cfg) = true ∧ out_password cfg = Some password.

Lemma clean_none idle now s : pool s = [] → clean_connections idle now s = (Ok (), s).
Proof. destruct s as [st p o n]. simpl. by intros ->. Qed.
Lemma select_none tuning s : pool s = [] → select tuning s = None.
Proof.
  intros Hp. rw /select /freshest_idle /least_busy_active /freshest_session Hp /=.
  destruct (t_max_connections tuning); [by case_match|]. by destruct (t_max_streams tuning).
Qed.

Lemma hello_written password n r t k :
  (34 + n ≤ k)%nat →
  write_client_hello_with_padding password (Z.of_nat n) (MkStream r t k) =
    (Ok (), MkStream r (t ++ hello_wire password n) (k - (34 + n))).
Proof.
  intros Hk. rw /write_client_hello_with_padding Nat2Z.id.
  assert (Hl : length (hello_wire password n) = (34 + n)%nat)
    by (rw !length_app sha256_length length_replicate be_bytes_length /PASSWORD_HASH_LEN; lia).
  rw (SE_bind_ok _ _ _ _ _ (write_all_ok (hello_wire password n) r t k ltac:(lia))). by rw Hl.
Qed.

Lemma on_session_last {A} (m : SE ClientSession A) l c p o n :
  on_session (length l) m (MkOutboundState (l ++ [c]) p o n) =
    let '(r, c') := m c in (r, MkOutboundState (l ++ [c']) p o n).
Proof. rw /on_session. cbn [store]. rw lookup_snoc_last. destruct (m c) as [r c']. by rw insert_snoc_last. Qed.

(** The first stream of a session. *)
Lemma reserve_new id rd wr init now now' :
  ∃ c, reserve_stream now' (client_session_new id rd wr init now) = (Ok 1, c) ∧ cs_writer c = writer_new wr init.
Proof. by eexists. Qed.

(** Dialing without a session to share. *)
Lemma dial_fresh cfg tuning password n0 inbound target clean reserve again draw now crx k s w :
  cfg_ok cfg password → state_ok (ob_state s) n0 → pool s = [] → fits_wire target = true → (34 + n0 ≤ k)%nat →
  for_each writer_op (connect_ops 1 target (padding_plan (ob_state s)) draw)
    (writer_new (MkStream [] (hello_wire password n0) (k - (34 + n0))) (wire (settings_frame (ob_state s)))) = (Ok (), w) →
  ∃ s' c, anytls_dial cfg tuning (Ok (MkStream crx [] k)) [MkRound clean [] reserve again] draw now
            (MkSession inbound Connect target) s = (Some (Ok (length (store s), 1)), s') ∧
    store s' !! length (store s) = Some c ∧ cs_writer c = w.
Proof.
  intros ([sv Hsv] & Hname & Hpw) (Hn0 & Hn & _ & _ & _ & Hlen) Hpool Hfit Hk Hw. rw /anytls_dial /=.
  rw clean_none; [done|]. cbn [close_sessions for_each rd_closing]. rw select_none; [done|]. rw /open_new_session.
  assert (Hc : connect_session cfg (Ok (MkStream crx [] k)) reserve s =
    (Ok (length (store s)), MkOutboundState (store s ++ [client_session_new (next_session_id s)
       (MkStream crx (hello_wire password n0) (k - (34 + n0))) (MkStream [] (hello_wire password n0) (k - (34 + n0)))
       (wire (settings_frame (ob_state s))) reserve]) (pool s) (ob_state s) (next_session_id s + 1))).
  { rw /connect_session /require_server Hsv Hpw. destruct (tls_server_name cfg); [|done].
    cbv beta iota zeta delta [mbind SE_bind lift gets modify context]. rw Hn0 hello_written; [done|].
    pose proof (encode_frame_ok (settings_frame (ob_state s))) as Ef. cbn [settings_frame frame_command frame_stream_id frame_data] in Ef.
    rw Ef; [split_and!; [by_decide|by_decide|done]|]. reflexivity. }
  cbn [rd_reserve rd_clean]. rw Hc on_session_last. 
  match goal with |- context [client_session_new ?id ?rd ?wr ?init ?now] =>
    destruct (reserve_new id rd wr init now reserve) as (c1 & E1 & W1) end. rw E1.
  cbv beta iota. cbn [set_pool store pool ob_state next_session_id]. rw on_session_last.
  cbn [insert_client_stream ob_state]. rw on_session_last.
  match goal with |- context [session_write_connect 1 target _ draw ?c] =>
    rw (write_connect_ops 1 target _ draw c w Hfit); [rw -Hw -W1; by destruct c1|] end.
  do 2 eexists. split; [done|]. cbn [store]. by rw lookup_snoc_last.
Qed.

Lemma addr_wire_fits t : wf_target t → fits_wire t = true → len (addr_wire t) ≤ U16_MAX.
Proof.
  rw /U16_MAX. destruct t as [[o p|o p f sc]|h p].
  - intros ((Ho & _) & _) _. rw /addr_wire /len !length_app be_bytes_length Ho. simpl. lia.
  - intros ((Ho & _) & _) _. rw /addr_wire /len !length_app be_bytes_length Ho. simpl. lia.
  - intros _ Hf%Z.leb_le. rw /len in Hf. rw /addr_wire {1}/len !length_app be_bytes_length. simpl. lia.
Qed.

Lemma stream_flushed sid target plan draw ws : flushed (connect_ops sid target plan draw ++ (app_op sid <$> ws)) = true.
Proof.
  rw /flushed. destruct ws as [|w ws] using rev_ind; [done|]. by rw fmap_app app_assoc last_snoc.
Qed.

Lemma anytls_stream cfg tuning password n0 inbound target clean reserve again draw now crx s ws
    us u tag md5 scheme upstream copy dial oroom ks :
  cfg_ok cfg password → state_ok (ob_state s) n0 → pool s = [] →
  wf_target target → fits_wire target = true → is_uot_v2_magic_target (wire_target target) = false →
  Forall app_ok ws →
  find (λ u, str_eqb (password_hash (Config.password u)) (password_hash password)) us = Some u →
  len scheme ≤ U16_MAX → (length (wires (settings_reply scheme)) + 7 ≤ ks)%nat →
  dial (MkSession tag Connect (wire_target target)) = Ok oroom → (length (concat (aw_data <$> ws)) ≤ oroom)%nat →
  ∃ need, ∀ k, (need ≤ k)%nat →
  ∃ s' i sid c, anytls_dial cfg tuning (Ok (MkStream crx [] k)) [MkRound clean [] reserve again] draw now
                  (MkSession inbound Connect target) s = (Some (Ok (i, sid)), s') ∧ store s' !! i = Some c ∧
    let written := tx (cw_inner (cs_writer (client_run c (app_event sid <$> ws)))) in
    ∃ n ss o, serve_connection tag md5 scheme us upstream copy (replicate n (FrameLoop dial)) (MkStream written [] ks) =
      Ok (InSession (Config.username u) ss) ∧
    outs ss = [o] ∧ oc_session o = MkSession tag Connect (wire_target target) ∧
    tx (oc_io o) = concat (aw_data <$> ws) ∧ streams ss !! sid = Some (Tcp 0).
Proof.
  intros Hcfg Hst Hpool Hwt Hfit Hmagic Hws Hu Hscheme Hks Hdial Hroom.
  pose proof Hst as (Hn0 & Hn & Hplan & Hutf & Hlf & Hlen).
  assert (Hsf : wf_frame (settings_frame (ob_state s))) by (split_and!; [by_decide|by_decide|done]).
  set (ops := connect_ops 1 target (padding_plan (ob_state s)) draw ++ (app_op 1 <$> ws)).
  assert (Hops : Forall op_ok ops).
  { apply Forall_app. split; [|apply Forall_fmap; eapply Forall_impl; [exact Hws|]].
    - apply Forall_cons. split; [split_and!; [by_decide|done|done]|]. apply Forall_cons. split; [|done].
      split_and!; [split_and!; [by_decide|by_decide|by apply addr_wire_fits]|done|done].
    - intros w (_ & Hl & Hp). split_and!; [split_and!; [by_decide|by_decide|done]|done|done]. }
  destruct (writer_run ops [settings_frame (ob_state s)] 0 true Hops) as (sent & pending & pc & sp & Hrun & Hwf & Hfr & Hfl);
    [by constructor|by constructor|].
  exists (34 + n0 + length (wires sent))%nat. intros k Hk.
  pose proof (Hrun [] (hello_wire password n0) (k - (34 + n0))%nat ltac:(lia)) as E.
  apply for_each_app_inv in E as (w1 & E1 & E2). rw /wires /= app_nil_r in E1.
  destruct (dial_fresh cfg tuning password n0 inbound target clean reserve again draw now crx k s w1)
    as (s' & c & Hd & Hc & Hw); [done..|lia|exact E1|]. rw -Hw in E2.
  exists s', (length (store s)), 1, c. split_and!; [done..|]. cbv zeta. rw (app_events_ops 1 ws c _ Hws E2).
  cbn [cs_writer set_cs_writer cw_inner tx].
  rw Hfl in Hfr; [by apply stream_flushed|]. rw app_nil_r in Hfr.
  destruct (run_stream tag md5 scheme dial 1 target oroom (aw_data <$> ws) (frame_data (settings_frame (ob_state s)))
    sent [] [] ks) as (n & cc & oroom' & Er); [done| |by apply settings_roundtrip|done..|].
  { rw Hfr fmap_app -!list_fmap_compose. done. }
  rw app_nil_r in Er. exists n. do 2 eexists. rw /serve_connection.
  destruct (hello_parses (S:=Stream) us u password n0 Hu Hn) as [Hr _]. rw (stream_parse _ _ _ _ _ _ Hr) Er.
  split_and!; [done|done|done|done|by apply lookup_singleton_eq].
Qed.

(** C10: A stream from end to end. An application dials a target through an AnyTLS
    outbound whose pool is empty, so that the stream is the first of a new
    session, and writes to the stream; the server gets the bytes the client
    wrote. Then the client is admitted as the user with that password, and once
    the frames are read the session has dialed exactly one connection, for a
    CONNECT to that target, which got exactly the bytes the application wrote,
    in order, and the stream is still open: whatever the padding of the hello
    and of the packets, and whether or not the server asks for another padding
    scheme, so long as no size a padding plan draws exceeds the sixteen bits of
    a frame's length ([plan_ok], for the plan of the session and of each write;
    the code refuses to write a larger waste frame and closes the session). *)
Theorem anytls_tcp_end_to_end cfg tuning password n0 inbound target clean reserve again draw now crx s ws
    us u tag md5 scheme upstream copy dial oroom ks :
  cfg_ok cfg password → state_ok (ob_state s) n0 → pool s = [] →
  wf_target target → fits_wire target = true → is_uot_v2_magic_target (wire_target target) = false →
  Forall app_ok ws →
  find (λ u, str_eqb (password_hash (Config.password u)) (password_hash password)) us = Some u →
  len scheme ≤ U16_MAX → (length (wires (settings_reply scheme)) + 7 ≤ ks)%nat →
  dial (MkSession tag Connect (wire_target target)) = Ok oroom → (length (concat (aw_data <$> ws)) ≤ oroom)%nat →
  ∃ need, ∀ k, (need ≤ k)%nat →
  ∃ s' i sid c, anytls_dial cfg tuning (Ok (MkStream crx [] k)) [MkRound clean [] reserve again] draw now
                  (MkSession inbound Connect target) s = (Some (Ok (i, sid)), s') ∧ store s' !! i = Some c ∧
    let written := tx (cw_inner (cs_writer (client_run c (app_event sid <$> ws)))) in
    ∃ n ss o, serve_connection tag md5 scheme us upstream copy (replicate n (FrameLoop dial)) (MkStream written [] ks) =
      Ok (InSession (Config.username u) ss) ∧
    outs ss = [o] ∧ oc_session o = MkSession tag Connect (wire_target target) ∧
    tx (oc_io o) = concat (aw_data <$> ws) ∧ streams ss !! sid = Some (Tcp 0).
Proof. apply anytls_stream. Qed.
End together.
