(* ===== verification/AnytlsLayout.v ===== *)
(** * A concrete AnyTLS core

    An instance of [AnytlsCore] that satisfies [AnytlsLaws]: the frame layout of
    the protocol, a padding factory that draws fixed sizes, and a stand-in of
    the right length for the hash. The theorems of the AnyTLS files are applied
    to it at concrete inputs. *)
From S2P Require Import Prelude Io Text Net Config Socks5Codec AnytlsCodec AnytlsFrames AnytlsUot AnytlsInbound AnytlsSession AnytlsStreams.

Definition layout_from_bytes (raw : bytes) : option (Z * Z * bytes) :=
  match raw with
  | c :: a1 :: a2 :: a3 :: a4 :: l1 :: l2 :: data =>
      if len data =? be_val [l1; l2] then Some (c, be_val [a1; a2; a3; a4], data) else None
  | _ => None
  end.

#[global] Instance anytls_layout : AnytlsCore := {|
  FRAME_HEADER_LEN := 7;
  frame_to_bytes := frame_wire;
  frame_from_bytes := layout_from_bytes;
  PaddingFactory := bytes;
  factory_new := Some;
  factory_stop := λ _, 8;
  factory_md5 := λ _, DEFAULT_PADDING_MD5;
  generate_record_payload_sizes := λ _ packet _, if packet =? 2 then [20; -1; 30; -1; 40] else [];
  CHECK_MARK := -1;
  sha256 := λ l, take 32 (l ++ replicate 32 0);
  md5_hex := λ _, DEFAULT_PADDING_MD5;
|}.

#[global] Instance anytls_layout_laws : AnytlsLaws.
Proof.
  split; [done| |].
  - intros c sid data Hc Hs Hd. split; [done|].
    assert (is_u16 (len data)) by (rw /is_u16; rw /U16_MAX in Hd; pose proof (len_nonneg data); lia).
    cbn [frame_from_bytes anytls_layout]. rw /layout_from_bytes /frame_wire.
    change ([c] ++ be_bytes 4 sid ++ be_bytes 2 (len data) ++ data) with
      (c :: (be_bytes 4 sid ++ be_bytes 2 (len data)) ++ data).
    pose proof (be_val_bytes_u32 sid Hs) as E4. pose proof (be_val_bytes_u16 (len data) ltac:(done)) as E2.
    destruct (be_bytes 4 sid) as [|a1 [|a2 [|a3 [|a4 []]]]] eqn:H4; try done.
    destruct (be_bytes 2 (len data)) as [|l1 [|l2 []]] eqn:H2; try done. cbn [app].
    by rw E2 Z.eqb_refl E4.
  - intros l. change (length (take 32 (l ++ replicate 32 0)) = 32%nat). rw length_take length_app length_replicate. lia.
Qed.

Definition example_target : TargetAddr := Domain (str "example.com") 443.
Definition example_frames : list Frame :=
  [MkFrame CMD_SETTINGS 0 client_settings; MkFrame CMD_SYN 1 [];
   MkFrame CMD_PSH 1 (addr_wire example_target ++ [1; 2]); MkFrame CMD_HEART_REQUEST 5 []; MkFrame CMD_PSH 1 [3]].
Definition example_user : UserConfig := MkUser (str "alice") None (str "secret").
Definition example_plan : PaddingPlan := MkPlan 8 [] [].

Ltac by_wf_frames := repeat (apply Forall_cons; split; [split_and!; by_decide|]); apply Forall_nil; done.

Lemma frames_roundtrip_witness :
  write_frames example_frames (MkStream [] [] 500) =
    (Ok (), MkStream [] (wires example_frames) (500 - length (wires example_frames))) ∧
  run_cursor (read_frames (length example_frames)) (wires example_frames ++ [9]) =
    Ok (example_frames, length (wires example_frames)) ∧
  run_cursor (read_frames (length example_frames)) (take 20 (wires example_frames)) = Err (EIo UnexpectedEof).
Proof.
  apply (frames_roundtrip example_frames [] [] 500 [9] 20); [by_wf_frames|by_decide|by_decide].
Defined.

Definition example_records : list bytes :=
  match shape_packet_payload (wires example_frames) 2 example_plan 0 with Ok rs => rs | Err _ => [] end.

Lemma shaping_transparent_witness :
  ∃ ns, run_cursor (read_frames (length example_frames + length ns)) (concat example_records)
        = Ok (example_frames ++ (waste <$> ns), length (concat example_records)) ∧
    Forall (λ f, frame_command f = CMD_WASTE) (waste <$> ns).
Proof.
  apply (shaping_transparent example_frames 2 example_plan 0); [by_wf_frames|vm_compute; reflexivity].
Defined.

Lemma shape_hides_content_witness :
  ∃ rs1 rs2, shape_packet_payload [1; 2; 3] 2 example_plan 0 = Ok rs1 ∧
    shape_packet_payload [7; 8; 9] 2 example_plan 0 = Ok rs2 ∧ map length rs1 = map length rs2.
Proof.
  apply (shape_hides_content [1; 2; 3] [7; 8; 9] 2 example_plan 0); [reflexivity|].
  repeat (apply Forall_cons; split; [intros n [= <-]; rw /U16_MAX; lia|]). by apply Forall_nil.
Defined.

Definition example_hello (n : nat) : bytes := hello_wire (str "secret") n.

Lemma hello_gate_witness :
  (∃ u pad, u ∈ [example_user] ∧ Config.username u = str "alice" ∧ is_u16 (len pad) ∧
     example_hello 3 ++ [7] = password_hash (Config.password u) ++ be_bytes 2 (len pad) ++ pad ++ [7]) ∧
  @nil Z = [] ∧ 0%nat = 0%nat.
Proof.
  apply (hello_gate [example_user] (MkStream (example_hello 3 ++ [7]) [] 0) (HelloAuthenticated (str "alice"))
    (MkStream [7] [] 0)); [by_decide|vm_compute; reflexivity].
Defined.

Lemma hello_interop_witness :
  ∃ w, write_client_hello_with_padding (str "secret") 3 (MkStream [] [] 100)
         = (Ok (), MkStream [] ([] ++ w) (100 - 37)) ∧
    read_client_hello [example_user] (MkStream (w ++ [7]) [] 0) = (Ok (str "alice"), MkStream [7] [] 0).
Proof.
  apply (hello_interop [example_user] example_user (str "secret") 3 [] [] 100 [7] [] 0);
    [vm_compute; reflexivity|by_decide|lia].
Defined.

Definition example_packets : list (TargetAddr * bytes) :=
  [(Ip (SockV4 [8; 8; 8; 8] 53), [1; 2; 3]); (example_target, [4])].
Definition example_reply : TargetAddr * bytes := (Ip (SockV4 [8; 8; 8; 8] 53), [5; 6]).
Definition example_uot_events : list UotEvent := [UotNext (Ok ()); UotReply (Ok example_reply); UotNext (Ok ())].
Definition example_chunks : list bytes :=
  let l := request_wire false example_target ++ concat (uot_wire false <$> example_packets) in
  [take 5 l; []; take 20 (drop 5 l); drop 25 l].

Lemma uot_end_to_end_witness :
  ∃ c' k', uot_task (λ _, Ok ()) 7 (str "in") (example_uot_events ++ [UotNext (Ok ())])
      (MkUot (chunk_reader_new example_chunks) [] (MkStream [] [] 100)) =
    (Ok (), MkUot c' (delivered false example_target <$> example_packets)
              (MkStream [] ([] ++ wires ((reply_frame false 7 <$> [example_reply]) ++ [MkFrame CMD_FIN 7 []])) k')).
Proof.
  apply (uot_end_to_end (λ _, Ok ()) () false example_target (request_wire false example_target) example_packets
    (uot_wire false <$> example_packets)).
  - by_decide.
  - reflexivity.
  - by_decide.
  - by apply uot_request_talks.
  - repeat (apply Forall_cons; split; [split_and!; by_decide|]). by apply Forall_nil.
  - repeat constructor.
  - reflexivity.
  - reflexivity.
  - repeat constructor.
  - apply Forall_cons. split; [|by apply Forall_nil]. split_and!; by_decide.
  - by_decide.
Defined.

Lemma stranger_rejected l u : u ∈ [example_user] → l = replicate 32 7 → password_hash (Config.password u) ≠ l.
Proof. intros [->|Hu]%elem_of_cons ->; [done|]. by apply not_elem_of_nil in Hu. Qed.

Lemma fallback_transparent_witness :
  ∃ client upstream,
    serve_connection (str "in") DEFAULT_PADDING_MD5 [] [example_user] (Some (Ok (MkStream [5; 6] [] 100)))
      copy_streams [] (MkStream (replicate 32 7 ++ [1; 2; 3]) [] 100)
      = Ok (InFallback (Ok (Proxied client upstream))) ∧
    tx upstream = replicate 32 7 ++ [1; 2; 3] ∧ tx client = [5; 6].
Proof.
  apply (fallback_transparent (str "in") DEFAULT_PADDING_MD5 [] [example_user] (replicate 32 7) [1; 2; 3]);
    [apply _|reflexivity|intros u Hu; by apply stranger_rejected|by_decide|by_decide].
Defined.

Lemma static_page_transparent_witness :
  ∃ io datas io', serve_connection (str "in") DEFAULT_PADDING_MD5 [] [example_user] None copy_streams []
      (MkStream (replicate 32 7 ++ [1; 2; 3]) [] 100) = Ok (InFallback (Ok (StaticPage io))) ∧
    prefixed_reads [(0, 20); (0, 20); (5, 2)]%nat io = (datas, io') ∧
    replicate 32 7 ++ [1; 2; 3] = concat datas ++ prefixed_pending io' ∧
    ∀ arrived n, (prefixed_read arrived (S n) io').1 = [] → concat datas = replicate 32 7 ++ [1; 2; 3].
Proof.
  apply (static_page_transparent (str "in") DEFAULT_PADDING_MD5 [] [example_user] (replicate 32 7) [1; 2; 3]);
    [reflexivity|intros u Hu; by apply stranger_rejected].
Defined.

(** A session in which a client opens a stream and sends on it. *)
Definition example_loop : SessEvent := FrameLoop (λ _, Ok 100%nat).
Definition example_events : list SessEvent :=
  [example_loop; example_loop; example_loop; ReaderRound 0 (Ok [4; 5]); example_loop; example_loop].
Definition example_session : Sess :=
  sess_run (str "in") DEFAULT_PADDING_MD5 [] (sess_new (MkStream (wires example_frames) [] 1000)) example_events.


Lemma acked_once_witness :
  ∃ fin fout part lost,
    wires example_frames = wires fin ++ lost ++ rx (conn example_session) ∧
    tx (conn example_session) = wires fout ++ part ∧ (part = [] ∨ room (conn example_session) = 0%nat) ∧
    Forall wf_frame fout ∧ (frames_of CMD_SYNACK 1 fout ≤ 1 + frames_of CMD_FIN 1 fin)%nat.
Proof.
  apply (acked_once (str "in") DEFAULT_PADDING_MD5 [] (wires example_frames) 1000 example_events 1). by_decide.
Defined.

Definition example_client : Stream :=
  MkStream (example_hello 3 ++ wires [MkFrame CMD_HEART_REQUEST 5 []; MkFrame CMD_SYN 1 []]) [] 1000.
Definition refused_session : Sess :=
  sess_run (str "in") DEFAULT_PADDING_MD5 []
    (sess_new (MkStream (wires [MkFrame CMD_HEART_REQUEST 5 []; MkFrame CMD_SYN 1 []]) [] 1000)) example_events.

Lemma service_gate_witness :
  ∃ u pad rest fin lost,
    u ∈ [example_user] ∧ Config.username u = str "alice" ∧
    rx example_client = password_hash (Config.password u) ++ be_bytes 2 (len pad) ++ pad ++ rest ∧
    rest = wires fin ++ lost ++ rx (conn refused_session) ∧
    (Forall (λ f, frame_command f ≠ CMD_SETTINGS) fin →
       outs refused_session = [] ∧ chans refused_session = [] ∧ streams refused_session = ∅ ∧
       ∃ fout, framed (conn refused_session) fout ∧ Forall quiet fout).
Proof.
  apply (service_gate (str "in") DEFAULT_PADDING_MD5 [] [example_user] None copy_streams example_events example_client (str "alice"));
    [by_decide|reflexivity|vm_compute; reflexivity].
Defined.
