(* ===== verification/AnytlsClientLayout.v ===== *)
(** * The AnyTLS client on the concrete core

    The theorems on the outbound side applied to concrete inputs, over the
    instance of AnytlsLayout. *)
From S2P Require Import Prelude Io Text Net AddrParse Config Socks5Codec AnytlsCodec AnytlsFrames AnytlsWriter AnytlsClient AnytlsClientStreams AnytlsPool AnytlsUot AnytlsClientUdp AnytlsInbound AnytlsEndToEnd AnytlsLayout.

Lemma example_plan_ok : plan_ok example_plan.
Proof.
  intros packet draw. rw /generate_record_payload_steps. cbn [generate_record_payload_sizes anytls_layout].
  destruct (packet =? 2); [|by apply Forall_nil].
  repeat (apply Forall_cons; split; [intros n [= <-]; rw /U16_MAX; lia|]). by apply Forall_nil.
Qed.

(** ** The writer *)
Definition example_init : list Frame := [MkFrame CMD_SETTINGS 0 client_settings].
Definition example_ops : list WriterOp := connect_ops 1 example_target example_plan 0 ++ [WBuffer (MkFrame CMD_FIN 1 [])].

Lemma writer_sends_frames_witness :
  (∀ r t k w, for_each writer_op example_ops (writer_new (MkStream r t k) (wires example_init)) = (Ok (), w) →
    ∃ sent pending, Forall wf_frame sent ∧ tx (cw_inner w) = t ++ wires sent ∧ cw_buffer w = wires pending ∧
      proper_frames sent ++ pending = example_init ++ (op_frame <$> example_ops) ∧ (flushed example_ops = true → pending = [])) ∧
  ∃ need, ∀ r t k, (need ≤ k)%nat →
    is_ok (for_each writer_op example_ops (writer_new (MkStream r t k) (wires example_init))).1 = true.
Proof.
  destruct (writer_sends_frames example_init example_ops) as [H1 H2]; [by_wf_frames|by_decide| |].
  { repeat (apply Forall_cons; split; [split; [split_and!; by_decide|by_decide]|]). by apply Forall_nil. }
  split; [exact H1|]. apply H2.
  apply Forall_cons. split; [split_and!; [split_and!; by_decide|by_decide|exact I]|].
  apply Forall_cons. split; [split_and!; [split_and!; by_decide|by_decide|exact example_plan_ok]|].
  apply Forall_cons. split; [split_and!; [split_and!; by_decide|by_decide|exact I]|]. by apply Forall_nil.
Defined.

(** ** A session *)
Definition example_server_frames : list Frame :=
  [MkFrame CMD_SERVER_SETTINGS 0 settings; MkFrame CMD_SYNACK 1 []; MkFrame CMD_PSH 1 [7; 8]; MkFrame CMD_PSH 9 [1];
   MkFrame CMD_PSH 1 [9]].
Definition example_client_events : list ClientEvent :=
  [CReserve 5; CInsert 1; CConnect 1 example_target example_plan 0 6; CReader example_plan 0 7; CReader example_plan 0 8;
   CReader example_plan 0 9; CTake 0; CReserve 9; CReader example_plan 0 10; CReader example_plan 0 11].
Definition example_client_session : ClientSession :=
  client_run (client_session_new 3 (MkStream (wires example_server_frames) [] 0) (MkStream [] [] 1000) (wires example_init) 1)
    example_client_events.

Lemma client_bookkeeping_witness :
  (closed example_client_session = false →
     active_streams example_client_session =
       Z.of_nat (size (cs_streams example_client_session) + length (dialing example_client_session))) ∧
  match reserve_stream 20 example_client_session with
  | (Ok sid, s') => closed example_client_session = false ∧ (sid ∉ dialing example_client_session) ∧
      cs_streams example_client_session !! sid = None ∧
      active_streams s' = active_streams example_client_session + 1 ∧ last_used s' = 20
  | (Err _, s') => closed example_client_session = true ∧ s' = example_client_session
  end.
Proof.
  apply (client_bookkeeping 3 (MkStream (wires example_server_frames) [] 0) (MkStream [] [] 1000) (wires example_init) 1
    example_client_events 20). by_decide.
Defined.

(** The stream is inserted after the first frame was read. *)
Definition example_before : list ClientEvent := [CReserve 5; CReader example_plan 0 6].
Definition example_after : list ClientEvent :=
  [CConnect 1 example_target example_plan 0 6; CReader example_plan 0 8; CReader example_plan 0 9; CTake 0; CReserve 9;
   CReader example_plan 0 10; CReader example_plan 0 11].
Definition example_opened : ClientSession :=
  client_run (client_session_new 3 (MkStream (wires example_server_frames) [] 0) (MkStream [] [] 1000) (wires example_init) 1) example_before.


(** ** The pool *)
Definition example_server : ServerAddr := MkServerAddr (HostIp (V4 [192; 0; 2; 1])) 443.
Definition example_cfg : OutboundConfig :=
  MkOutbound (str "out") Anytls (Some example_server) (Some (str "example.com")) false None None (Some (str "secret")) None
    (Some 4) None None.
Definition example_state : ClientState := MkClientState DEFAULT_PADDING_MD5 3 example_plan.
Definition example_outbound : AnytlsOutbound :=
  MkOutboundState [example_client_session; set_closed true example_client_session] [0; 1]%nat example_state 5.
Definition example_round : Round := MkRound 21 [] 22 23.
Definition closing_round : Round := MkRound 21 [0%nat] 22 23.
Definition example_rounds : list Round := [closing_round; example_round; example_round].
Lemma open_stream_limits_witness :
  ∃ r s', open_stream example_cfg (tuning_from_config example_cfg) (Ok (MkStream [] [] 1000)) example_rounds example_outbound
    = (Some r, s') ∧ opened (tuning_from_config example_cfg) (length (pool example_outbound)) r s'.
Proof.
  apply (open_stream_limits example_cfg (tuning_from_config example_cfg) (Ok (MkStream [] [] 1000)) example_rounds
    example_outbound); [|by_decide].
  intros i [->|[->|Hi]%elem_of_cons]%elem_of_cons; [eexists; split; [reflexivity|by_decide]..|].
  by apply not_elem_of_nil in Hi.
Defined.

(** ** UDP *)
Definition example_udp : AnytlsUdpSession :=
  MkUdpSession {[example_target := 0%nat]} [MkUotTask example_target [[1]] 100 true].

Lemma udp_send_retries_witness :
  ∃ r s' n, anytls_send_to example_target [2; 3] [(200, [0%nat]); (300, [])] example_udp = (r, s') ∧
    udp_inv s' ∧
    let before := udp_view example_udp ++ replicate n (example_target, []) in
    (r = Ok () ∧ (∃ i, us_streams s' !! example_target = Some i ∧ (∃ sent, before !! i = Some (example_target, sent)) ∧
                   udp_view s' = alter (push_sent [2; 3]) i before) ∨
     r = Err (EMsg "anytls udp stream is closed after retry") ∧ udp_view s' = before) ∧
    ((∀ i, i ∈ @nil nat → (i < length (us_tasks example_udp))%nat) → r = Ok ()).
Proof.
  apply (udp_send_retries example_target [2; 3] 200 [0%nat] 300 [] example_udp).
  intros t i. cbn [us_streams example_udp]. by intros [<- <-]%lookup_singleton_Some.
Defined.

Lemma uot_client_server_witness :
  ∃ client,
    relay_uot_stream example_target [RelayPayload [1; 2] 5; RelayResponse true 6; RelayPayload [3] 7]
      (MkRelayState (MkStream (psh_data 7 (reply_frame true 7 <$> [example_reply])) [] 100) [] 0) = (Ok (), client) ∧
    ur_responses client = (λ p, (example_target, p.2)) <$> [example_reply] ∧
    ∀ chunks, concat chunks = tx (ur_stream client) → ∃ c' ks',
      uot_task (λ _, Ok ()) 7 (str "in") (example_uot_events ++ [UotNext (Ok ())])
        (MkUot (chunk_reader_new chunks) [] (MkStream [] [] 100)) =
        (Ok (), MkUot c' ((λ p, (wire_target example_target, p)) <$> [[1; 2]; [3]])
                  (MkStream [] ([] ++ wires ((reply_frame true 7 <$> [example_reply]) ++ [MkFrame CMD_FIN 7 []])) ks')).
Proof.
  apply (uot_client_server (λ _, Ok ()) () example_target [[1; 2]; [3]] [example_reply]).
  - by_decide.
  - reflexivity.
  - by_decide.
  - by_decide.
  - apply Forall_cons. split; [|by apply Forall_nil]. split_and!; by_decide.
  - repeat constructor.
  - repeat constructor.
  - reflexivity.
  - by_decide.
  - by_decide.
Defined.

(** ** A stream from end to end *)
Definition fresh_outbound : AnytlsOutbound := MkOutboundState [] [] example_state 1.
Definition example_writes : list AppWrite := [MkAppWrite [1; 2; 3] example_plan 0 5; MkAppWrite [4] example_plan 0 6].

Lemma anytls_tcp_end_to_end_witness :
  ∃ need, ∀ k, (need ≤ k)%nat →
  ∃ s' i sid c, anytls_dial example_cfg (tuning_from_config example_cfg) (Ok (MkStream [] [] k)) [MkRound 1 [] 2 3] 0 4
                  (MkSession (str "socks") Connect example_target) fresh_outbound = (Some (Ok (i, sid)), s') ∧
    store s' !! i = Some c ∧
    let written := tx (cw_inner (cs_writer (client_run c (app_event sid <$> example_writes)))) in
    ∃ n ss o, serve_connection (str "in") DEFAULT_PADDING_MD5 [] [example_user] None copy_streams (replicate n example_loop)
                (MkStream written [] 1000) = Ok (InSession (str "alice") ss) ∧
    outs ss = [o] ∧ oc_session o = MkSession (str "in") Connect example_target ∧
    tx (oc_io o) = [1; 2; 3; 4] ∧ streams ss !! sid = Some (Tcp 0).
Proof.
  apply (anytls_tcp_end_to_end example_cfg (tuning_from_config example_cfg) (str "secret") 3 (str "socks") example_target
    1 2 3 0 4 [] fresh_outbound example_writes [example_user] example_user (str "in") DEFAULT_PADDING_MD5 [] None copy_streams
    (λ _, Ok 100%nat) 100 1000).
  - split_and!; [by eexists|reflexivity|reflexivity].
  - split_and!; [reflexivity|by_decide|exact example_plan_ok|reflexivity|by_decide|by_decide].
  - reflexivity.
  - by_decide.
  - reflexivity.
  - reflexivity.
  - repeat (apply Forall_cons; split; [split_and!; [done|by_decide|exact example_plan_ok]|]). by apply Forall_nil.
  - vm_compute. reflexivity.
  - by_decide.
  - by_decide.
  - reflexivity.
  - by_decide.
Defined.
