(* ===== verification/Startup.v ===== *)
(** * Startup (src/main.rs)

    From the configuration file to serving inbounds: loading and validating,
    preparing ACME, building the router, and the set-up every inbound does
    before it accepts connections (src/protocol/anytls/inbound.rs and
    src/protocol/tuic/inbound.rs, [run] and [serve]). Parsing TOML, binding
    sockets are parameters; the accept loops are left out. *)
From S2P Require Import Prelude Text Net Config AcmePaths AcmeIssue AcmeSafety AcmeOrder Tls Socks5Outbound Router TuicSettings TuicCodec TuicInbound TuicOutbound AnytlsCodec AnytlsClient AnytlsPool AnytlsLayout.

(** [Config::load] *)
Definition config_load (parse_toml : bytes → Result Config) (raw : Result bytes) : Result Config :=
  raw ← raw;
  raw ← from_utf8 raw;
  cfg ← parse_toml raw;
  config_validate cfg ;;
  Ok cfg.

Section setup.
Context `{!Pki, !TlsLib, !AnytlsCore}.
Variable parse_uuid : bytes → Result bytes.
(** Binding the socket of an inbound, and QUIC listening on it with a certificate. *)
Variable bind : SocketAddr → Result ().
Variable quic_listen : QuicSettings → bytes → bytes → Result ().
Variable quic_defaults : QuicSettings.

(** What an inbound serves with once it is set up. *)
Inductive Serving :=
  | ServingSocks5
  | ServingAnytls (acceptor : Acceptor) (padding_rules : list PaddingRule) (padding_md5 padding_scheme : bytes)
  | ServingTuic (tuic_users : list TuicUser) (cert_path key_path : bytes) (hook : option (bytes * bytes)).

(** [anytls::inbound::serve] up to its accept loop. *)
Definition anytls_setup (cfg : InboundConfig) : SE Disk Serving :=
  tls_cfg ← lift (context (in_tls cfg) "anytls inbound requires tls config");
  padding_rules ← lift (parse_padding_scheme (padding_scheme cfg));
  let server_padding_md5 := padding_scheme_md5 (padding_scheme cfg) in
  let server_padding_scheme := padding_scheme_payload (padding_scheme cfg) in
  acceptor ← server_acceptor tls_cfg;
  mret (ServingAnytls acceptor padding_rules server_padding_md5 server_padding_scheme).

(** [tuic::inbound::serve] up to its accept loop. *)
Definition tuic_setup (cfg : InboundConfig) : SE Disk Serving :=
  tls_cfg ← lift (context (in_tls cfg) "tuic inbound requires tls config");
  users ← lift (parse_users parse_uuid (default [] (users cfg)));
  cert ← lift (certificate_path tls_cfg);
  key ← lift (private_key_path tls_cfg);
  hook ← lift (quic_hooks tls_cfg);
  lift (quic_listen (quic_server_settings quic_defaults) cert key) ;;
  mret (ServingTuic users cert key hook).

(** [run_inbound]; every [run] binds first. *)
Definition inbound_setup (cfg : InboundConfig) : SE Disk Serving :=
  impl ← lift (run_inbound cfg);
  lift (bind (listen cfg)) ;;
  match impl with
  | RunSocks5 => mret ServingSocks5
  | RunAnytls => anytls_setup cfg
  | RunTuic => tuic_setup cfg
  end.

Fixpoint setup_all (cfgs : list InboundConfig) : SE Disk (list Serving) :=
  match cfgs with
  | [] => mret []
  | c :: cfgs =>
      serving ← inbound_setup c;
      rest ← setup_all cfgs;
      mret (serving :: rest)
  end.

Context `{!AcmeCa}.
(** The draw of the first padding of the AnyTLS outbounds. *)
Variable draw : nat.
Variable sha256 : bytes → bytes.
Variables staging_url production_url : bytes.
Variable hash_values : gmap (list bytes) AcmeTarget → list AcmeTarget.

(** The outbounds of a router, as their constructors make them. *)
Inductive OutboundImpl :=
  | OutDirect
  | OutSocks5 (cfg : OutboundConfig)
  | OutAnytls (cfg : OutboundConfig) (tuning : ClientSessionTuning) (outbound : AnytlsOutbound)
  | OutTuic (outbound : TuicOutbound).
Definition build_router (cfg : Config) : Result (@Router OutboundImpl) :=
  router_new OutDirect
    (λ c, o ← socks5_outbound_new c; Ok (OutSocks5 o))
    (λ c, o ← anytls_outbound_new c draw; Ok (OutAnytls o.1.1 o.1.2 o.2))
    (λ c, o ← tuic_outbound_new parse_uuid c; Ok (OutTuic o))
    cfg.

(** [main] after the configuration is loaded, until every inbound accepts. The
    inbounds are set up by tasks of their own, and the failure of any ends the
    program; the set-ups only read the disk. *)
Definition start (cfg : Config) : SE AcmeWorld (option AcmeManager * @Router OutboundImpl * list Serving) :=
  prepared ← acme_prepare sha256 staging_url production_url hash_values cfg;
  router ← lift (build_router prepared.2);
  servings ← on_disk (setup_all (inbounds prepared.2));
  mret (prepared.1, router, servings).

(** The task of an inbound, given how [run_inbound] ended. *)
Definition inbound_task (result : Result ()) : Result () :=
  result ;;
  Err (EMsg "exited unexpectedly").

(** What ends the program: the set of tasks is empty, a task panicked or ended,
    or the signal came. *)
Inductive Ending := NoTask | TaskPanicked (e : error) | TaskEnded (result : Result ()) | CtrlC (result : Result ()).

Definition main_wait (ending : Ending) : Result () :=
  match ending with
  | NoTask => Err (EMsg "no inbounds configured")
  | TaskPanicked _ => Err (EMsg "inbound task failed")
  | TaskEnded result => inbound_task result
  | CtrlC result => result
  end.

(** [main], once the arguments are read. An inbound that cannot be set up is a
    task that ended. *)
Definition main (parse_toml : bytes → Result Config) (raw : Result bytes) (ending : Ending) : SE AcmeWorld () :=
  cfg ← lift (config_load parse_toml raw);
  start cfg ;;
  lift (main_wait ending).
End setup.

(** ** A valid configuration starts *)
Lemma load_valid parse_toml raw config : config_load parse_toml raw = Ok config → valid_config config.
Proof.
  rw /config_load. intros (b & _ & (u & _ & (c & _ & ([] & Hv & Hc)%Result_bind_inv)%Result_bind_inv)%Result_bind_inv)%Result_bind_inv.
  injection Hc as <-. by apply validate_iff.
Qed.

Section serves.
Context `{!Pki, !TlsLib, !AnytlsCore, !AcmeCa}.
Hypothesis chain_ok : ∀ c, add_extra_chain_cert c = Ok () ∧ ssl_add_chain_cert c = Ok ().
Hypothesis ssl_takes : ∀ c k, context_takes c k → ssl_set_certificate c = Ok () ∧ ssl_set_private_key c k = Ok ().
Hypothesis acceptor_ok : acceptor_made.
Variable parse_uuid : bytes → Result bytes.
Variable bind : SocketAddr → Result ().
Variable quic_listen : QuicSettings → bytes → bytes → Result ().
Variable quic_defaults : QuicSettings.
Implicit Types (w : AcmeWorld) (i : InboundConfig).

(** What an inbound needs besides ACME: an address that can be bound, a padding
    scheme or users that parse, and, when its certificate is not from ACME, a
    usable pair on the disk. *)
Definition static_pair w (tls : TlsServerConfig) : Prop :=
  ∃ cp kp c k, certificate tls = Some cp ∧ private_key tls = Some kp ∧
    on_file w cp = Some c ∧ on_file w kp = Some k ∧ validate_certificate_pair_bytes c k = Ok ().
Definition startable w i : Prop :=
  bind (listen i) = Ok () ∧
  match in_protocol i with
  | Socks5 => True
  | Direct => False
  | Anytls => is_ok (parse_padding_scheme (padding_scheme i)) = true ∧
      ∃ tls, in_tls i = Some tls ∧ (is_Some (tls_acme tls) ∨ static_pair w tls)
  | Tuic => is_ok (parse_users parse_uuid (default [] (users i))) = true ∧ (∀ cert key, quic_listen (quic_server_settings quic_defaults) cert key = Ok ()) ∧
      is_Some (in_tls i)
  end.
(** The implementation that serves an inbound; a certificate from ACME is
    reloaded from the configured paths. *)
Definition serves (i' : InboundConfig) (s : Serving) : Prop :=
  match in_protocol i', s with
  | Socks5, ServingSocks5 => True
  | Anytls, ServingAnytls acc _ _ _ => ∃ tls, in_tls i' = Some tls ∧
      acc_reload acc = if is_some (tls_acme tls) then p ← certificate tls; k ← private_key tls; Some (p, k) else None
  | Tuic, ServingTuic _ cp kp hook => ∃ tls, in_tls i' = Some tls ∧ certificate tls = Some cp ∧ private_key tls = Some kp ∧
      hook = if is_some (tls_acme tls) then Some (cp, kp) else None
  | _, _ => False
  end.

Lemma prepare_healthy sha256 su pu hv config w x w' :
  healthy w → acme_prepare sha256 su pu hv config w = (Ok x, w') → healthy w'.
Proof.
  intros Hw. rw /acme_prepare. intros ([ts c1] & w1 & [= Hc <-] & Hrun)%SE_bind_inv.
  destruct ts as [|t ts]; [by injection Hrun as _ <-|]. simpl in Hrun.
  apply SE_bind_inv in Hrun as (a & w2 & Ha & ([] & w3 & Hp & Hret)%SE_bind_inv). injection Hret as _ <-.
  apply load_account_healthy in Ha; [|done].
  pose proof (prepare_certificates_healthy (MkManager (acme_config config) a (t :: ts)) w2 Ha) as Hk. by rw Hp in Hk.
Qed.

Lemma prepare_outbounds sha256 su pu hv config w x w' :
  acme_prepare sha256 su pu hv config w = (Ok x, w') → outbounds x.2 = outbounds config.
Proof.
  rw /acme_prepare. intros ([ts c1] & w1 & [= Hc <-] & Hrun)%SE_bind_inv.
  assert (outbounds c1 = outbounds config) as <-.
  { rw /configure_targets in Hc. apply Result_bind_inv in Hc as (y & _ & Hc). by injection Hc as _ <-. }
  destruct ts as [|t ts]; [by injection Hrun as <- _|]. simpl in Hrun.
  apply SE_bind_inv in Hrun as (a & w2 & _ & ([] & w3 & _ & Hret)%SE_bind_inv). by injection Hret as <- _.
Qed.

(** The configuration of an inbound after ACME was prepared. *)
Definition prepared w i i' : Prop :=
  match acme_of i with
  | None => i' = i
  | Some a => ∃ cert key ds c k, i' = set_in_tls (MkTls (Some cert) (Some key) (Some ds)) i ∧
      on_file w cert = Some c ∧ on_file w key = Some k ∧ validate_certificate_pair_bytes c k = Ok ()
  end.

Lemma acceptor_starts w cp kp acme c k :
  healthy w → on_file w cp = Some c → on_file w kp = Some k → validate_certificate_pair_bytes c k = Ok () →
  ∃ l, server_acceptor (MkTls (Some cp) (Some kp) acme) (disk w) =
    (Ok (MkAcceptor l (if is_some acme then Some (cp, kp) else None)), disk w).
Proof.
  intros Hw Hc Hk Hv. destruct (load_context_healthy chain_ok ssl_takes cp kp (disk w) c k Hw Hc Hk Hv) as (l & _ & E & _).
  exists l. rw /server_acceptor /= /mbind /SE_bind /lift /=.
  destruct acceptor_ok as (-> & Hmin & Hmax). rw /configure /= Hmin /= Hmax /=. by rw E.
Qed.

(** Every inbound is set up, reading the disk only. *)
Lemma inbound_starts w i i' :
  healthy w → (∀ t, in_tls i = Some t → valid_tls t) → startable w i → prepared w i i' →
  ∃ s, inbound_setup parse_uuid bind quic_listen quic_defaults i' (disk w) = (Ok s, disk w) ∧ serves i' s.
Proof.
  intros Hw Hval Hst Hp.
  assert (Hsame : in_protocol i' = in_protocol i ∧ listen i' = listen i ∧ padding_scheme i' = padding_scheme i ∧ users i' = users i).
  { rw /prepared in Hp. destruct (acme_of i); [|by subst]. by destruct Hp as (? & ? & ? & ? & ? & -> & _). }
  destruct Hsame as (Hproto & Hlisten & Hpad & Hus).
  (* the certificate paths *)
  assert (Htls : ∀ t, in_tls i = Some t → ∃ cp kp acme, in_tls i' = Some (MkTls (Some cp) (Some kp) acme) ∧
    (is_Some (tls_acme t) ∨ static_pair w t → ∃ c k, on_file w cp = Some c ∧ on_file w kp = Some k ∧ validate_certificate_pair_bytes c k = Ok ())).
  { intros t Ht. pose proof (Hval t Ht) as Hv. rw /prepared /acme_of Ht /= in Hp. destruct Hv as [cp kp|ds _ _]; simpl in Hp.
    - subst i'. exists cp, kp, None. split; [done|]. intros [[x Hx]|(cp' & kp' & c & k & [= <-] & [= <-] & Hrest)]; [discriminate Hx|]. by exists c, k.
    - destruct Hp as (cp & kp & ds' & c & k & -> & Hrest). exists cp, kp, (Some ds'). split; [done|]. intros _. by exists c, k. }
  destruct Hst as [Hb Hst]. rw -Hlisten in Hb. rw /inbound_setup /run_inbound Hproto /serves. rw Hproto.
  destruct (in_protocol i); rw /mbind /SE_bind /lift /= ?Hb; [done|..].
  - exists ServingSocks5. done.
  - destruct Hst as (Hpp & t & Ht & Hcert). destruct (Htls t Ht) as (cp & kp & acme & Ht' & Hfiles).
    destruct (Hfiles Hcert) as (c & k & Hc & Hk & Hv). destruct (acceptor_starts w cp kp acme c k Hw Hc Hk Hv) as (l & E).
    rw -Hpad in Hpp. destruct (parse_padding_scheme (padding_scheme i')) as [rules|] eqn:Er; [|done].
    eexists. rw /anytls_setup /mbind /SE_bind /lift /= Ht' Er /=. rw E. split; [done|]. simpl. eexists. split; [done|]. by destruct acme.
  - destruct Hst as (Hpu & Hlis & t & Ht). destruct (Htls t Ht) as (cp & kp & acme & Ht' & _).
    rw -Hus in Hpu. destruct (parse_users parse_uuid (default [] (users i'))) as [us|] eqn:Eu; [|done].
    exists (ServingTuic us cp kp (if is_some acme then Some (cp, kp) else None)).
    rw /tuic_setup /mbind /SE_bind /lift /= Ht' Eu /=. rw /quic_hooks.
    split; [by destruct acme; rw /= Hlis|by eexists].
Qed.

Lemma all_start w l l' :
  healthy w → (∀ i t, i ∈ l → in_tls i = Some t → valid_tls t) → (∀ i, i ∈ l → startable w i) → Forall2 (prepared w) l l' →
  ∃ ss, setup_all parse_uuid bind quic_listen quic_defaults l' (disk w) = (Ok ss, disk w) ∧ Forall2 serves l' ss.
Proof.
  intros Hw Hval Hst Hl. induction Hl as [|i i' l l' Hi Hl IH]; [by exists []|].
  destruct (inbound_starts w i i' Hw) as (s & E & Hs); [intros t; apply Hval; by left|apply Hst; by left|done|].
  destruct IH as (ss & Es & Hss); [intros j t Hj; apply Hval; by right|intros j Hj; apply Hst; by right|].
  exists (s :: ss). split; [|by constructor]. cbn [setup_all]. rw (SE_bind_ok _ _ _ _ _ E) (SE_bind_ok _ _ _ _ _ Es). done.
Qed.

(** Nothing is set up without its address. *)
Lemma setup_all_bound l d ss d' :
  setup_all parse_uuid bind quic_listen quic_defaults l d = (Ok ss, d') → Forall (λ i, bind (listen i) = Ok ()) l.
Proof.
  revert d ss d'. induction l as [|i l IH]; intros d ss d'; [done|]. cbn [setup_all].
  intros (s & d1 & Hi & (rest & d2 & Hl & _)%SE_bind_inv)%SE_bind_inv. constructor; [|by eapply IH].
  rw /inbound_setup in Hi. apply SE_bind_inv in Hi as (impl & d3 & _ & Hi). apply SE_bind_inv in Hi as ([] & d4 & Hb & _).
  by injection Hb.
Qed.

Lemma prepared_listen w l l' : Forall2 (prepared w) l l' → Forall (λ i, bind (listen i) = Ok ()) l' → ∀ i, i ∈ l → bind (listen i) = Ok ().
Proof.
  intros Hl Hb i [n Hn]%list_elem_of_lookup. destruct (Forall2_lookup_l _ _ _ _ _ Hl Hn) as (i' & Hi' & Hp).
  pose proof (proj1 (Forall_lookup _ _) Hb n i' Hi') as Hbi. cbn beta in Hbi. rw /prepared in Hp. destruct (acme_of i); [|by subst]. by destruct Hp as (? & ? & ? & ? & ? & -> & _).
Qed.

Lemma main_wait_ok ending : main_wait ending = Ok () ↔ ending = CtrlC (Ok ()).
Proof.
  split; [|by intros ->]. destruct ending as [|e|res|res]; simpl; [done|done| |by intros ->].
  by destruct res.
Qed.

(** What an outbound needs: a server, and for TUIC a uuid and a password. *)
Definition buildable (o : OutboundConfig) : Prop :=
  match out_protocol o with
  | Direct => True
  | Socks5 | Anytls => is_Some (server o)
  | Tuic => is_Some (server o) ∧ (∃ u v, out_uuid o = Some u ∧ parse_uuid u = Ok v) ∧ ∃ p, out_password o = Some p ∧ p ≠ []
  end.

Section start.
Variable draw : nat.
(** The scheme the padding library comes with is valid. *)
Hypothesis default_scheme : is_ok (state_new draw) = true.

Lemma router_builds c :
  (∀ o, o ∈ outbounds c → outbound_validate o = Ok ()) → (∀ o, o ∈ outbounds c → buildable o) →
  ∃ r, build_router parse_uuid draw c = Ok r ∧ router_cfg r = c.
Proof.
  intros Hv Hb. rw /build_router /router_new. generalize (∅ : gmap bytes OutboundImpl) as m.
  assert (Hall : Forall (λ o, outbound_validate o = Ok () ∧ buildable o) (outbounds c)).
  { apply Forall_forall. intros o Ho. split; [by apply Hv|by apply Hb]. }
  clear Hv Hb. induction Hall as [|o l [Hv Hb] _ IH]; intros m; [by eexists|]. cbn [insert_outbounds].
  match goal with |- context [build_outbound ?d ?a ?b ?t o] => assert (∃ x, build_outbound d a b t o = Ok x) as [x ->] end; [|by apply IH].
  rw /build_outbound /buildable in Hb |- *. destruct (out_protocol o) eqn:Hp; simpl.
  - by eexists.
  - destruct Hb as [sv Hs]. rw /socks5_outbound_new /require_server Hs /=. by eexists.
  - destruct Hb as [sv Hs]. rw /anytls_outbound_new Hv /require_server Hs /=. destruct (state_new draw); [|done]. by eexists.
  - destruct Hb as ([sv Hs] & (u & v & Hu & Hpu) & (p & Hpw & Hne)).
    rw /tuic_outbound_new /require_server Hs /= Hu /= Hpu /= Hpw bool_decide_false //=. by eexists.
Qed.

Variable sha256 : bytes → bytes.
Variables staging_url production_url : bytes.
Variable hash_values : gmap (list bytes) AcmeTarget → list AcmeTarget.
Hypothesis hash_values_ok : ∀ x, hash_values x ≡ₚ (map_to_list x).*2.

Lemma main_bound parse_toml raw config w mgr c' w' ending w2 :
  config_load parse_toml raw = Ok config →
  acme_prepare sha256 staging_url production_url hash_values config w = (Ok (mgr, c'), w') →
  Forall2 (prepared w') (inbounds config) (inbounds c') →
  main parse_uuid bind quic_listen quic_defaults draw sha256 staging_url production_url hash_values parse_toml raw ending w = (Ok (), w2) →
  ending = CtrlC (Ok ()) ∧ ∀ i, i ∈ inbounds config → bind (listen i) = Ok ().
Proof.
  intros Hload Hp Hl. rw /main (SE_bind_ok _ _ _ config w); [by rw /lift Hload|].
  intros (x & w3 & Hs & Hwait)%SE_bind_inv. split; [apply main_wait_ok; by injection Hwait|].
  rw /start (SE_bind_ok _ _ _ _ _ Hp) in Hs. apply SE_bind_inv in Hs as (r & w4 & Hr & Hs). injection Hr as _ <-.
  apply SE_bind_inv in Hs as (ss & w5 & Hss & _). rw on_disk_run in Hss.
  destruct (setup_all _ _ _ _ _ _) as [res d] eqn:E in Hss. injection Hss as -> _.
  apply setup_all_bound in E. by eapply prepared_listen.
Qed.

End start.
End serves.

(** ** The example configuration starts *)
#[local] Existing Instance demo_pki.
#[local] Existing Instance demo_ca.
#[local] Existing Instance demo_tls.

Definition start_server : option ServerAddr := Some (MkServerAddr (HostDomain (str "proxy.example.com")) 443).
Definition start_config : Config :=
  MkConfig None (acme prepare_config) (inbounds acme_example)
    [MkOutbound (str "out") Direct None None false None None None None None None None;
     MkOutbound (str "tls") Anytls start_server None false None None (Some (str "secret")) None None None None;
     MkOutbound (str "quic") Tuic start_server None false None None (Some (str "secret")) (Some (str "id")) None None None]
    (MkRouting None []).
Definition start_world : @AcmeWorld demo_ca := MkAcmeWorld (MkDisk ∅ []) 3%nat.
Definition start_prepared : Result (option AcmeManager * Config) * AcmeWorld :=
  acme_prepare (λ _, repeat 171 32) (str "https://s") (str "https://p") (λ x, (map_to_list x).*2) start_config
    start_world.
Definition start_result : option AcmeManager * Config :=
  match start_prepared.1 with Ok x => x | Err _ => (None, start_config) end.
Lemma start_prepared_is_ok : is_ok start_prepared.1 = true.
Proof. by vm_compute. Qed.
Lemma start_prepared_ok :
  acme_prepare (λ _, repeat 171 32) (str "https://s") (str "https://p") (λ x, (map_to_list x).*2) start_config
    start_world = (Ok (start_result.1, start_result.2), start_prepared.2).
Proof.
  fold start_prepared. rw /start_result. pose proof start_prepared_is_ok as Hok. by destruct start_prepared as [[[]|] w].
Qed.

Lemma start_config_loads : config_load (λ _, Ok start_config) (Ok []) = Ok start_config.
Proof. by vm_compute. Qed.

Definition start_quic : QuicSettings := MkQuicSettings [] false [] [] 3 25 true false false.
