(* ===== verification/Policy.v ===== *)
(** * Every inbound is wired to one outbound

    The three inbounds (src/protocol/socks5/inbound.rs, anytls/inbound.rs and
    tuic/inbound.rs) dial through the router (src/router.rs) with sessions they
    make. Whatever a client sends, the inbound behaves as if it were connected
    to the one outbound the configuration gives to its tag: a client cannot
    choose another. *)
From S2P Require Import Prelude Io Text Net Config Socks5Codec Socks5Inbound Router TuicCodec TuicInbound TuicRelay AnytlsCodec AnytlsUot AnytlsInbound AnytlsLayout TuicLayout.

(** An outbound seen by a caller that only learns whether dialing succeeds. *)
Definition forget {A} (r : Result A) : Result () := r ≫= λ _, Ok ().

(** ** The router's choice depends on the inbound only *)
Section wiring.
Context {O Conn Dgram : Type} `{!Outbound O Conn Dgram}.
Implicit Types (r : @Router O) (o : O) (s : Session).

(** The outbound of the sessions of an inbound. *)
Definition wired r (inb : bytes) o : Prop :=
  ∃ tag, (∀ s, session_inbound s = inb → pick_outbound r s = Ok tag) ∧ router_outbounds r !! tag = Some o.

Lemma first_rule_inbound s s' rs : session_inbound s = session_inbound s' → first_rule s rs = first_rule s' rs.
Proof. intros H. induction rs as [|ru rs IH]; [done|]. cbn [first_rule]. by rw /rule_matches H IH. Qed.
Lemma pick_inbound r s s' : session_inbound s = session_inbound s' → pick_outbound r s = pick_outbound r s'.
Proof. intros H. by rw /pick_outbound (first_rule_inbound s s' _ H). Qed.

Lemma wired_dial r inb o s :
  wired r inb o → session_inbound s = inb → router_dial r s = dial o s ∧ router_dial_udp r s = dial_udp o s.
Proof. intros (tag & Hp & Ho) Hs. by rw /router_dial /router_dial_udp (Hp s Hs) /= Ho. Qed.

(** A router whose choice for one session of the inbound is known. *)
Lemma wired_pick r s tag o : pick_outbound r s = Ok tag → router_outbounds r !! tag = Some o → wired r (session_inbound s) o.
Proof. intros Hp Ho. exists tag. split; [|done]. intros s' Hs. by rw (pick_inbound r s' s Hs). Qed.
End wiring.

(** ** SOCKS5 *)
Lemma handle_agrees dial dial' udp udp' cfg st :
  (∀ s, session_inbound s = in_tag cfg → dial s = dial' s ∧ udp s = udp' s) →
  handle dial udp cfg st = handle dial' udp' cfg st.
Proof.
  intros H. rw /handle /mbind /SE_bind. destruct (handshake cfg st) as [[[]|] st1]; [|done].
  destruct (read_request st1) as [[[t|t]|] st2]; [| |done].
  - by rw (proj1 (H (MkSession (in_tag cfg) Connect t) eq_refl)).
  - by rw (proj2 (H (MkSession (in_tag cfg) UdpAssociate t) eq_refl)).
Qed.

(** ** AnyTLS *)
Section anytls.
Context `{!AnytlsCore}.
Variables (tag md5 scheme : bytes).

(** The events of a session whose frame loop dials with [d]. *)
Definition redial (d : Session → Result nat) (ev : SessEvent) : SessEvent :=
  match ev with FrameLoop _ => FrameLoop d | ev => ev end.

Lemma open_tcp_agrees d d' sid t initial s :
  (∀ x, session_inbound x = tag → d x = d' x) → open_tcp tag d sid t initial s = open_tcp tag d' sid t initial s.
Proof. intros Hd. by rw /open_tcp (Hd (MkSession tag Connect t) eq_refl). Qed.

Lemma psh_agrees d d' sid data s :
  (∀ x, session_inbound x = tag → d x = d' x) → handle_psh tag d sid data s = handle_psh tag d' sid data s.
Proof.
  intros Hd. rw /handle_psh /mbind /SE_bind /gets. destruct (negb (settings_seen s)); [done|].
  destruct (streams s !! sid) as [[i|i]|]; [done..|]. destruct (decode_socksaddr data) as [[t n]|]; [|done].
  destruct (is_uot_v2_magic_target t); [done|]. by apply open_tcp_agrees.
Qed.

Lemma frame_loop_agrees d d' s :
  (∀ x, session_inbound x = tag → d x = d' x) → frame_loop tag md5 scheme d s = frame_loop tag md5 scheme d' s.
Proof.
  intros Hd. rw /frame_loop. case_match; [done|]. case_match; [done|].
  assert (next_frame tag md5 scheme d s = next_frame tag md5 scheme d' s) as ->; [|done].
  rw /next_frame /mbind /SE_bind. destruct (on_conn read_frame s) as [[f|e] s1]; [|done].
  rw /handle_frame. repeat case_match; try done. by apply psh_agrees.
Qed.

Lemma sess_run_agrees d d' evs s :
  (∀ x, session_inbound x = tag → d x = d' x) →
  sess_run tag md5 scheme s (redial d <$> evs) = sess_run tag md5 scheme s (redial d' <$> evs).
Proof.
  intros Hd. revert s. induction evs as [|ev evs IH]; intros s; [done|]. rw /sess_run. cbn [fmap list_fmap fold_left].
  fold (sess_run tag md5 scheme). assert (sess_event tag md5 scheme s (redial d ev) = sess_event tag md5 scheme s (redial d' ev)) as ->; [|apply IH].
  destruct ev; [|done..]. by apply frame_loop_agrees.
Qed.

Lemma uot_task_agrees {D D'} (d : Session → Result D) (d' : Session → Result D') sid evs u :
  (∀ x, session_inbound x = tag → forget (d x) = forget (d' x)) →
  uot_task d sid tag evs u = uot_task d' sid tag evs u.
Proof.
  intros Hd. rw /uot_task. assert (run_uot_stream d sid tag evs u = run_uot_stream d' sid tag evs u) as ->; [|done].
  rw /run_uot_stream /mbind /SE_bind. destruct (on_input read_u8 u) as [[m|e] u1]; [|done].
  destruct (on_input read_socks_target u1) as [[t|e] u2]; [|done].
  specialize (Hd (MkSession tag UdpAssociate t) eq_refl). rw /lift.
  destruct (d _), (d' _); simpl in Hd; try discriminate Hd; [done|]. by injection Hd as ->.
Qed.
End anytls.

(** ** TUIC *)

(** Everything a connection has started is of its inbound. *)
Record tagged (inb : bytes) (w : World) : Prop := {
  tagged_app : inbound (app w) = inb;
  tagged_relays : Forall (λ rl, session_inbound (rl_session rl) = inb) (relays w);
  tagged_tasks : Forall (λ t, ut_inbound t = inb) (udp_tasks w);
}.

Section tuic.
Context `{!TuicCore} {Q : Type} `{!QuicConn Q}.
Variable export_keying_material : bytes → bytes → option bytes.
Variable hash_order : gmap Z PendingStream → list (Z * PendingStream).
Variable inb : bytes.

Lemma tagged_with_app f : (∀ s, inbound (f s) = inbound s) → keeps (tagged inb) (with_app f).
Proof. intros Hf. apply triple_modify. intros w [Ha Hr Ht]. split; [by rw /= Hf|done..]. Qed.
Lemma tagged_now : keeps (tagged inb) TuicInbound.now.
Proof. intros w [Ha Hr Ht]. by split. Qed.
Lemma tagged_self {A} (f : TuicApp → A) : keeps (tagged inb) (self f).
Proof. apply keeps_gets. Qed.
Lemma tagged_relay c t sid d : keeps (tagged inb) (TuicInbound.spawn_relay (MkSession inb c t) sid d).
Proof. intros w [Ha Hr Ht]. split; [done| |done]. apply Forall_app. split; [done|]. by apply Forall_cons. Qed.
Lemma tagged_udp a m n : keeps (tagged inb) (spawn_udp_session a m n).
Proof. intros w [Ha Hr Ht]. split; [done|done|]. apply Forall_app. split; [done|]. by apply Forall_cons. Qed.
Lemma tagged_on_relay i f : keeps (tagged inb) (on_relay i f).
Proof. apply triple_modify. intros w [Ha Hr Ht]. split; [done| |done]. by apply Forall_alter. Qed.
Lemma tagged_on_udp i f : keeps (tagged inb) (on_udp_task i f).
Proof. apply triple_modify. intros w [Ha Hr Ht]. split; [done|done|]. by apply Forall_alter. Qed.
Lemma tagged_relay_send i d : keeps (tagged inb) (relay_try_send i d).
Proof.
  intros w Hw. rw /relay_try_send. destruct (relays w !! i) as [rl|] eqn:E; [|done]. destruct (try_send d (rl_rx rl)); [|done].
  destruct Hw as [Ha Hr Ht]. split; [done| |done]. apply Forall_insert; [done|]. by apply (Forall_lookup_1 _ _ i rl Hr).
Qed.
Lemma tagged_udp_send i rq : keeps (tagged inb) (udp_try_send i rq).
Proof.
  intros w Hw. rw /udp_try_send. destruct (udp_tasks w !! i) as [t|] eqn:E; [|done]. destruct (try_send rq (ut_rx t)); [|done].
  destruct Hw as [Ha Hr Ht]. split; [done|done|]. apply Forall_insert; [done|]. by apply (Forall_lookup_1 _ _ i t Ht).
Qed.
(** The tag a session is made with is the connection's. *)
Lemma tagged_inbound {B} (k : bytes → SE World B) :
  keeps (tagged inb) (k inb) → keeps (tagged inb) (x ← self inbound; k x).
Proof. intros Hk w Hw. rw /mbind /SE_bind /self /gets (tagged_app _ _ Hw). by apply Hk. Qed.

Hint Resolve tagged_now tagged_self tagged_relay tagged_udp tagged_on_relay tagged_on_udp tagged_relay_send tagged_udp_send : keeping.
Hint Extern 3 (keeps (tagged _) (with_app _)) => (apply tagged_with_app; by intros []) : keeping.
Hint Extern 3 (keeps (tagged _) (self inbound ≫= _)) => (apply tagged_inbound) : keeping.
Ltac tag_walk := repeat first [progress intros | apply tagged_inbound | solve [eauto with keeping nocore]
  | apply keeps_bind | apply keeps_when | apply keeps_attempt | apply keeps_for_each | case_match].

Lemma tagged_check : keeps (tagged inb) check_authentication_deadline.
Proof. rw /check_authentication_deadline. tag_walk. Qed.
Hint Resolve tagged_check : keeping.
Lemma tagged_packet d m : keeps (tagged inb) (handle_packet d m).
Proof. rw /handle_packet /assemble. tag_walk. Qed.
Hint Resolve tagged_packet : keeping.
Lemma tagged_reserve b i : keeps (tagged inb) (reserve_pre_auth b i).
Proof. rw /reserve_pre_auth. tag_walk. Qed.
Hint Resolve tagged_reserve : keeping.
Lemma tagged_datagram d : keeps (tagged inb) (handle_datagram d).
Proof. rw /handle_datagram. tag_walk. Qed.
Lemma tagged_stream i d f : keeps (tagged inb) (handle_stream_data i d f).
Proof. rw /handle_stream_data. tag_walk. Qed.
Hint Resolve tagged_datagram tagged_stream : keeping.
Lemma tagged_auth hc d : (∀ c, keeps (tagged inb) (hc c)) → keeps (tagged inb) (handle_auth_data export_keying_material hash_order hc d).
Proof. intros Hc. rw /handle_auth_data. tag_walk. Qed.
Hint Resolve tagged_auth : keeping.
Lemma tagged_command fuel d : keeps (tagged inb) (handle_unidirectional_command export_keying_material hash_order fuel d).
Proof. revert d. induction fuel as [|fuel IH]; intros d; simpl; tag_walk. Qed.
Hint Resolve tagged_command : keeping.
Lemma tagged_uni i d f : keeps (tagged inb) (handle_unidirectional_stream export_keying_material hash_order i d f).
Proof. rw /handle_unidirectional_stream. tag_walk. Qed.
Lemma tagged_cleanup : keeps (tagged inb) maybe_cleanup_udp_state.
Proof. rw /maybe_cleanup_udp_state. tag_walk. Qed.
Hint Resolve tagged_uni tagged_cleanup : keeping.

(** The same of a connection with its QUIC side. *)
Definition tagged_conn (wq : World * Q) : Prop := tagged inb wq.1.
Lemma tagged_on_world {A} (m : SE World A) : keeps (tagged inb) m → keeps tagged_conn (on_world m).
Proof. intros Hm [w q] Hw. specialize (Hm w Hw). rw /on_world. destruct (m w) as [[a|e] w']; exact Hm. Qed.
Lemma tagged_on_conn {A} (m : Q → A * Q) : keeps tagged_conn (TuicInbound.on_conn m).
Proof. intros [w q] Hw. rw /TuicInbound.on_conn. destruct (m q). exact Hw. Qed.
Hint Resolve tagged_on_conn : keeping.
Hint Extern 2 (keeps tagged_conn (on_world _)) => (apply tagged_on_world) : keeping.

Lemma tagged_read_stream i rs : keeps (tagged inb) (read_stream export_keying_material hash_order i rs).
Proof. induction rs as [|[d f|e] rs IH]; simpl; tag_walk. Qed.
Lemma tagged_requeue a d max : keeps (tagged inb) (requeue_fragments a d max).
Proof. rw /requeue_fragments /push_front. tag_walk. Qed.
Lemma tagged_touch a : keeps (tagged inb) (touch_assoc a).
Proof. rw /touch_assoc /touch_udp_session. tag_walk. Qed.
Lemma tagged_uni_id o : keeps (tagged inb) (uni_stream_id o).
Proof. rw /uni_stream_id. tag_walk. Qed.
Lemma tagged_push_front x : keeps (tagged inb) (push_front x).
Proof. rw /push_front. tag_walk. Qed.
Lemma tagged_established : keeps (tagged inb) on_conn_established.
Proof. rw /on_conn_established. tag_walk. Qed.
Lemma tagged_wait x : keeps (tagged inb) (wait_for_data x).
Proof. rw /wait_for_data /receive_write. tag_walk. Qed.
Lemma tagged_task_queue x : keeps (tagged inb) (task_queue x).
Proof. rw /task_queue. tag_walk. Qed.
Hint Resolve tagged_read_stream tagged_requeue tagged_touch tagged_uni_id tagged_push_front tagged_established tagged_wait tagged_task_queue : keeping.

Lemma tagged_reads readable dgrams : keeps tagged_conn (process_reads export_keying_material hash_order readable dgrams).
Proof.
  rw /process_reads. repeat (apply keeps_bind; [|intros []]); [keep_walk..| |].
  - apply tagged_on_world, keeps_for_each. intros [i rs]. keep_walk.
  - apply keeps_for_each. intros d. rw /read_datagram. keep_walk.
Qed.
Lemma tagged_write_one x : keeps tagged_conn (write_one x).
Proof. rw /write_one. keep_walk. Qed.
Hint Resolve tagged_write_one : keeping.
Lemma tagged_write_loop fuel : keeps tagged_conn (write_loop fuel).
Proof. induction fuel as [|fuel IH]; simpl; keep_walk. Qed.
Hint Resolve tagged_reads tagged_write_loop : keeping.
Lemma tagged_writes : keeps tagged_conn process_writes.
Proof. rw /process_writes. keep_walk. Qed.
Hint Resolve tagged_writes : keeping.
Lemma tagged_event ev : keeps tagged_conn (conn_event export_keying_material hash_order ev).
Proof. destruct ev; rw /conn_event; keep_walk. Qed.

(** Every run of a connection of the inbound, ended by an error or not. *)
Lemma tagged_run evs us n1 n2 cl t (q : Q) :
  tagged inb (conn_run export_keying_material hash_order evs (MkWorld (app_new inb us n1 n2) [] [] cl t, q)).2.1.
Proof.
  pose proof (keeps_for_each tagged_conn (conn_event export_keying_material hash_order) evs tagged_event
    (MkWorld (app_new inb us n1 n2) [] [] cl t, q)) as Hk. rw /conn_run. destruct (for_each _ _ _) as [[[]|e] wq]; by apply Hk.
Qed.
End tuic.

(** The task of a UDP association dials with a session of its inbound. *)
Lemma run_udp_agrees `{!TuicCore} inb d d' assoc mode first sent evs :
  (∀ x, session_inbound x = inb → d x = d' x) →
  run_udp_session inb d assoc mode first sent evs = run_udp_session inb d' assoc mode first sent evs.
Proof. intros Hd. rw /run_udp_session. destruct first as [rq|]; [|done]. by rw (Hd (MkSession inb UdpAssociate (ur_target rq)) eq_refl). Qed.

(** ** The three inbounds *)
Section policy.
Context {O Conn Dgram : Type} `{!Outbound O Conn Dgram, !AnytlsCore, !TuicCore} {Q : Type} `{!QuicConn Q}.
Variable new_direct : O.
Variables (new_socks5 new_anytls new_tuic : OutboundConfig → Result O).
(** What a connection takes before it fails. *)
Variable room_of : Conn → nat.

Definition with_room (d : Session → Result Conn) : Session → Result nat := λ s, c ← d s; Ok (room_of c).
Definition only_whether {A} (d : Session → Result A) : Session → Result () := λ s, forget (d s).

(** C7: An inbound is wired to the outbound the configuration gives to its tag.
    Whatever a client sends: a SOCKS5 connection, an AnyTLS session under any
    interleaving of its tasks, its UDP-over-TCP streams, and the relays and UDP
    tasks that any run of a TUIC connection starts, all behave with the router
    exactly as they would with that one outbound in its place. *)
Theorem wired_inbound cfg r s0 tag :
  router_new new_direct new_socks5 new_anytls new_tuic cfg = Ok r →
  routed cfg s0 tag → (∃ c, c ∈ outbounds cfg ∧ out_tag c = tag) →
  let inb := session_inbound s0 in
  ∃ o, named_outbound new_direct new_socks5 new_anytls new_tuic cfg tag o ∧
  (∀ icfg st, in_tag icfg = inb →
     handle (only_whether (router_dial r)) (only_whether (router_dial_udp r)) icfg st =
     handle (only_whether (dial o)) (only_whether (dial_udp o)) icfg st) ∧
  (∀ md5 scheme evs s,
     sess_run inb md5 scheme s (redial (with_room (router_dial r)) <$> evs) =
     sess_run inb md5 scheme s (redial (with_room (dial o)) <$> evs)) ∧
  (∀ sid evs u, uot_task (router_dial_udp r) sid inb evs u = uot_task (dial_udp o) sid inb evs u) ∧
  (∀ ekm ho evs us n1 n2 cl t (q : Q),
     let w := (conn_run ekm ho evs (MkWorld (app_new inb us n1 n2) [] [] cl t, q)).2.1 in
     (∀ rl, rl ∈ relays w → router_dial r (rl_session rl) = dial o (rl_session rl)) ∧
     ∀ tk first sent uevs, tk ∈ udp_tasks w →
       run_udp_session (ut_inbound tk) (only_whether (router_dial_udp r)) (ut_assoc tk) (ut_mode tk) first sent uevs =
       run_udp_session (ut_inbound tk) (only_whether (dial_udp o)) (ut_assoc tk) (ut_mode tk) first sent uevs).
Proof.
  intros Hnew Hr (c & Hc & Ht) inb. assert (router_cfg r = cfg) as Hcfg by by apply Result_bind_inv in Hnew as (m & _ & [= <-]).
  pose proof (router_outbounds_named _ _ _ _ cfg r tag Hnew) as Hn. destruct (router_outbounds r !! tag) as [o|] eqn:Ho; [|by destruct (Hn c Hc)].
  rw -Hcfg in Hr. apply (pick_outbound_routed new_socks5 new_anytls new_tuic) in Hr. pose proof (wired_pick r s0 tag o Hr Ho) as Hw.
  assert (Hd : ∀ s, session_inbound s = inb → router_dial r s = dial o s ∧ router_dial_udp r s = dial_udp o s)
    by (intros s; by apply wired_dial).
  exists o. split; [done|]. split_and!.
  - intros icfg st Hi. apply handle_agrees. intros s Hs. rw Hi in Hs. rw /only_whether. by destruct (Hd s Hs) as [-> ->].
  - intros md5 scheme evs s. apply sess_run_agrees. intros x Hx. rw /with_room. by destruct (Hd x Hx) as [-> _].
  - intros sid evs u. apply uot_task_agrees. intros x Hx. by destruct (Hd x Hx) as [_ ->].
  - intros ekm ho evs us n1 n2 cl t q w. destruct (tagged_run ekm ho inb evs us n1 n2 cl t q) as [_ Hrl Htk]. split.
    + intros rl Hin. apply Hd. exact (proj1 (Forall_forall _ _) Hrl rl Hin).
    + intros tk first sent uevs Hin. apply run_udp_agrees. intros x Hx.
      rw (proj1 (Forall_forall _ _) Htk tk Hin) in Hx. rw /only_whether. by destruct (Hd x Hx) as [_ ->].
Qed.
End policy.

(** ** An example: of two outbounds, the rule of the inbound names the second *)
#[local] Instance tagged_outbound : Outbound bytes nat bytes :=
  {| dial := λ o _, Ok (length o); dial_udp := λ o _, Ok o |}.
#[local] Instance quiet_conn : QuicConn () := {|
  stream_send _ _ _ q := (Done, q);
  dgram_send _ q := (Done, q);
  dgram_max_writable_len _ := None;
|}.
Definition policy_config : Config :=
  MkConfig None None [] 
    [MkOutbound (str "a") Socks5 (Some (MkServerAddr (HostDomain (str "h")) 1)) None false None None None None None None None;
     MkOutbound (str "bb") Socks5 (Some (MkServerAddr (HostDomain (str "h")) 1)) None false None None None None None None None]
    (MkRouting (Some (str "a")) [MkRule (Some (str "in")) (str "bb")]).
Definition policy_new (c : OutboundConfig) : Result bytes := Ok (out_tag c).
Definition policy_router : @Router bytes := MkRouter policy_config (<[str "bb" := str "bb"]> (<[str "a" := str "a"]> ∅)).

Lemma wired_inbound_witness :
  ∃ o, named_outbound [] policy_new policy_new policy_new policy_config (str "bb") o ∧
  ∀ icfg st, in_tag icfg = str "in" →
    handle (only_whether (router_dial policy_router)) (only_whether (router_dial_udp policy_router)) icfg st =
    handle (only_whether (dial o)) (only_whether (dial_udp o)) icfg st.
Proof.
  destruct (@wired_inbound bytes nat bytes tagged_outbound anytls_layout tuic_layout () quiet_conn [] policy_new policy_new policy_new
    (λ n, n) policy_config policy_router (MkSession (str "in") Connect (Domain (str "h") 1)) (str "bb")) as (o & Hn & Hh & _).
  - reflexivity.
  - left. exists [], (MkRule (Some (str "in")) (str "bb")), []. repeat split; constructor.
  - eexists. split; [right; left|reflexivity].
  - exists o. split; [exact Hn|exact Hh].
Defined.
