(* ===== verification/Chain.v ===== *)
(** * A chain of two programs

    An application speaks SOCKS5 to the near program, whose router sends the
    session to an AnyTLS outbound; the far program serves it with its AnyTLS
    inbound and its own router. The parts proved separately (Socks5Inbound,
    Router, Startup, AnytlsPool, AnytlsInbound) put together. *)
From S2P Require Import Prelude Io Text Net AddrParse Config Socks5Codec Socks5Inbound Socks5Outbound Router AnytlsCodec AnytlsFrames AnytlsWriter AnytlsClient AnytlsPool AnytlsInbound AnytlsEndToEnd AnytlsLayout AnytlsClientLayout Startup Policy.

Section chain.
Context `{!AnytlsCore, !AnytlsLaws}.
Variable parse_uuid : bytes → Result bytes.

(** [Router::dial] of the near program for the outbounds it is built with: the
    outcome of connecting, the rounds of [open_stream] and the clock are given;
    the other outbounds are not dialed here. *)
Definition near_dial (near : @Router OutboundImpl) (connected : Result Stream) (rounds : list Round) (draw : nat) (now : Z)
    (session : Session) : Result () :=
  tag ← pick_outbound near session;
  outbound ← context (router_outbounds near !! tag) "unknown outbound";
  match outbound with
  | OutAnytls cfg tuning state =>
      match (anytls_dial cfg tuning connected rounds draw now session state).1 with
      | Some result => forget result
      | None => Err (EMsg "out of rounds")
      end
  | _ => Err (EMsg "another outbound")
  end.

Context {O Conn Dgram : Type} `{!Outbound O Conn Dgram}.
Variable new_direct : O.
Variables (new_socks5 new_anytls new_tuic : OutboundConfig → Result O).
Variable room_of : Conn → nat.

Lemma wire_twice t : wire_target (wire_target t) = wire_target t.
Proof. by destruct t as [[]|]. Qed.
Lemma wire_wf t : wf_target t → wf_target (wire_target t).
Proof. destruct t as [[o p|o p f sc]|h p]; [done| |done]. intros (Hip & Hp & _). by split_and!. Qed.
Lemma wire_fits t : fits_wire t = true → fits_wire (wire_target t) = true.
Proof. by destruct t as [[]|]. Qed.
Lemma wire_magic t : is_uot_v2_magic_target (wire_target t) = is_uot_v2_magic_target t.
Proof. by destruct t as [[]|]. Qed.

(** An AnyTLS outbound of a router is as its constructor made it. *)
Lemma built_anytls draw cfg r tag ocfg tuning ob :
  build_router parse_uuid draw cfg = Ok r → router_outbounds r !! tag = Some (OutAnytls ocfg tuning ob) →
  pool ob = [] ∧ tuning = tuning_from_config ocfg ∧ state_new draw = Ok (ob_state ob) ∧ ocfg ∈ outbounds cfg.
Proof.
  intros Hb Hl. pose proof (router_outbounds_named _ _ _ _ cfg r tag Hb) as Hn. rw Hl in Hn.
  destruct Hn as (pre & c & post & Hout & _ & Hbuild & _).
  rw /build_outbound in Hbuild. apply Result_bind_inv in Hbuild as (o & Ho & Hbuild).
  assert (o = OutAnytls ocfg tuning ob) as ->. { by destruct (_ && _); [|injection Hbuild]. }
  destruct (out_protocol c); [done|apply Result_bind_inv in Ho as (x & _ & [=])| |apply Result_bind_inv in Ho as (x & _ & [=])].
  apply Result_bind_inv in Ho as (x & Hx & [= <- <- <-]). rw /anytls_outbound_new in Hx.
  apply Result_bind_inv in Hx as ([] & _ & (sv & _ & (st & Hst & [= <-])%Result_bind_inv)%Result_bind_inv).
  split_and!; [done..|]. rw Hout. apply elem_of_app. right. by left.
Qed.

(** The near side of a connection: the negotiation, then the relay between the
    application and the dialed stream, to its end. *)
Lemma near_relays copy dial dial_udp scfg session r s d down droom k :
  CopyLaws copy → talks (handle dial dial_udp scfg) (r ++ d) (Ok (Relaying session)) d s →
  (length d ≤ droom)%nat → (length (s ++ down) ≤ k)%nat →
  ∃ app out, handle_connect copy dial dial_udp scfg (MkStream down [] droom) (MkStream (r ++ d) [] k) =
      (Ok (Some (session, out)), app) ∧ tx app = s ++ down ∧ tx out = d.
Proof.
  intros Hcopy Ht Hd Hk. rw length_app in Hk. rw /handle_connect (SE_bind_ok _ _ _ _ _ (Ht [] k ltac:(lia))).
  destruct (copy_finishes copy (MkStream d s (k - length s)) (MkStream down [] droom)) as (a & o & E & Ho & Ha);
    [split; simpl; lia|].
  exists a, o. rw {1}/mbind {1}/SE_bind /relay_both /= E. done.
Qed.

(** C6: A chain of two programs carries a connection. An application asks the
    near program for a target over SOCKS5 and sends [d]; the near router has an
    AnyTLS outbound for that inbound, as it is built (its pool is empty: the
    stream is the first of a new session), whose password is a user's of the
    far program; the far router has an outbound that can be dialed. Then the
    SOCKS5 negotiation completes on both sides, the relay of the near program
    takes all of [d] to the stream it dialed and all that this stream delivers
    to the application, after the negotiation; and when the task that reads the
    other end of that stream, in any pieces, has read what the relay wrote, and
    the far program what the session wrote, the far program has dialed exactly
    one connection, to the requested target, through the outbound its own
    configuration names for its inbound, and that connection was given exactly
    [d]. The connections take what is written to them, and no size a padding
    plan draws exceeds the sixteen bits of a frame's length ([plan_ok], in
    [state_ok] and [app_ok]). *)
Theorem chain_end_to_end copy connect_tcp dial_udp scfg acfg srv app_inb t d d' down droom
    ncfg near draw ntag ocfg tuning ob password n0 clean reserve again pdraw now crx ws
    fcfg far finb ftag o conn us u md5 scheme upstream copy' ks :
  (* the application and the near inbound *)
  CopyLaws copy → server acfg = Some srv → connect_tcp srv = Ok () → credentials_agree scfg acfg →
  wf_target t → fits_wire t = true → is_uot_v2_magic_target t = false →
  (length d ≤ droom)%nat → Forall app_ok ws →
  (* the near router *)
  build_router parse_uuid draw ncfg = Ok near → routed ncfg (MkSession (in_tag scfg) Connect t) ntag →
  router_outbounds near !! ntag = Some (OutAnytls ocfg tuning ob) →
  state_ok (ob_state ob) n0 → cfg_ok ocfg password →
  (* the far program *)
  find (λ u, str_eqb (password_hash (Config.password u)) (password_hash password)) us = Some u →
  len scheme ≤ U16_MAX → (length (wires (settings_reply scheme)) + 7 ≤ ks)%nat →
  router_new new_direct new_socks5 new_anytls new_tuic fcfg = Ok far → routed fcfg (MkSession finb Connect t) ftag →
  router_outbounds far !! ftag = Some o → dial o (MkSession finb Connect (wire_target t)) = Ok conn →
  (length (concat (aw_data <$> ws)) ≤ room_of conn)%nat →
  ∃ need, ∀ k, (need ≤ k)%nat →
    let sn := MkSession (in_tag scfg) Connect (wire_target t) in
    let client := socks5_dial connect_tcp acfg (MkSession app_inb Connect t) in
    let ndial := near_dial near (Ok (MkStream crx [] k)) [MkRound clean [] reserve again] pdraw now in
    let s := exchange client (handle ndial dial_udp scfg) 3 in
    let c := wrote client s in
    talks client (s ++ d') (Ok ()) d' c ∧
    ∀ ak, (length (s ++ down) ≤ ak)%nat →
    ∃ app out, handle_connect copy ndial dial_udp scfg (MkStream down [] droom) (MkStream (c ++ d) [] ak) =
        (Ok (Some (sn, out)), app) ∧ tx app = s ++ down ∧
    (concat (aw_data <$> ws) = tx out →
     ∃ ob' i sid cs, anytls_dial ocfg tuning (Ok (MkStream crx [] k)) [MkRound clean [] reserve again] pdraw now sn ob =
        (Some (Ok (i, sid)), ob') ∧ store ob' !! i = Some cs ∧
      let written := tx (cw_inner (cs_writer (client_run cs (app_event sid <$> ws)))) in
      ∃ n ss oc, serve_connection finb md5 scheme us upstream copy'
          (replicate n (FrameLoop (with_room room_of (router_dial far)))) (MkStream written [] ks) =
          Ok (InSession (Config.username u) ss) ∧
        outs ss = [oc] ∧ oc_session oc = MkSession finb Connect (wire_target t) ∧
        router_dial far (oc_session oc) = dial o (oc_session oc) ∧
        tx (oc_io oc) = d).
Proof.
  intros Hcopy Hsrv Hconn Hcred Hwf Hfit Hmagic Hd Hws Hnear Hnr Hnl Hst Hcfg Hu Hscheme Hks Hfar Hfr Hfl Hdial Hroom.
  destruct (built_anytls draw ncfg near ntag ocfg tuning ob Hnear Hnl) as (Hpool & _).
  assert (Hnp : pick_outbound near (MkSession (in_tag scfg) Connect (wire_target t)) = Ok ntag).
  { assert (router_cfg near = ncfg) as Hc by by apply Result_bind_inv in Hnear as (m & _ & [= <-]).
    rw (pick_inbound near (MkSession (in_tag scfg) Connect (wire_target t)) (MkSession (in_tag scfg) Connect t)); [done|].
    apply (pick_outbound_routed (λ _, Ok OutDirect) (λ _, Ok OutDirect) (λ _, Ok OutDirect)). by rw Hc. }
  assert (Hfd : router_dial far (MkSession finb Connect (wire_target t)) = dial o (MkSession finb Connect (wire_target t))).
  { assert (router_cfg far = fcfg) as Hc by by apply Result_bind_inv in Hfar as (m & _ & [= <-]).
    rw -Hc in Hfr. apply (pick_outbound_routed new_socks5 new_anytls new_tuic) in Hfr.
    pose proof (wired_pick far _ ftag o Hfr Hfl) as Hw. by apply (wired_dial far finb o). }
  destruct (anytls_stream ocfg tuning password n0 (in_tag scfg) (wire_target t) clean reserve again pdraw now crx ob ws
    us u finb md5 scheme upstream copy' (with_room room_of (router_dial far)) (room_of conn) ks) as [need Hneed];
    [done|done|done|by apply wire_wf|by apply wire_fits|by rw !wire_magic|done|done|done|done|by rw wire_twice /with_room Hfd Hdial|done|].
  exists need. intros k Hk. destruct (Hneed k Hk) as (ob' & i & sid & cs & Hdl & Hs & n & ss & oc & Hserve & Houts & Hsess & Htx & _).
  rw wire_twice in Hsess. cbv zeta.
  destruct (connect_completes connect_tcp (near_dial near (Ok (MkStream crx [] k)) [MkRound clean [] reserve again] pdraw now)
    dial_udp scfg acfg srv app_inb t d d') as [Hserver Hclient]; [done..|by rw /near_dial Hnp /= Hnl /= Hdl|].
  split; [exact Hclient|]. intros ak Hak.
  destruct (near_relays copy _ _ _ _ _ _ d down droom ak Hcopy Hserver Hd Hak) as (app & out & Hh & Happ & Hout).
  exists app, out. split_and!; [exact Hh|exact Happ|]. intros Hpieces. exists ob', i, sid, cs. split_and!; [done..|].
  exists n, ss, oc. split_and!; [done..|by rw Hsess|]. by rw Htx Hpieces.
Qed.
End chain.

(** ** An example *)
#[local] Instance steady_outbound : Outbound () nat () := {| dial := λ _ _, Ok 100%nat; dial_udp := λ _ _, Ok () |}.
Definition chain_state : ClientState := match state_new 0 with Ok st => st | Err _ => example_state end.
Definition chain_outbound : AnytlsOutbound := MkOutboundState [] [] chain_state 1.
Definition chain_near : Config := MkConfig None None [] [example_cfg] (MkRouting None []).
Definition chain_router : @Router OutboundImpl :=
  MkRouter chain_near (<[str "out" := OutAnytls example_cfg (tuning_from_config example_cfg) chain_outbound]> ∅).

Lemma chain_state_new : state_new 0 = Ok chain_state.
Proof. assert (is_ok (state_new 0) = true) as E by (vm_compute; reflexivity). rw /chain_state. by destruct (state_new 0). Qed.

Lemma chain_state_ok : state_ok chain_state 30.
Proof.
  split_and!; [by_decide|by_decide| |by_decide..].
  intros packet draw. rw /generate_record_payload_steps. cbn [generate_record_payload_sizes anytls_layout].
  destruct (packet =? 2); [|by apply Forall_nil].
  repeat (apply Forall_cons; split; [intros n [= <-]; rw /U16_MAX; lia|]). by apply Forall_nil.
Qed.

Lemma chain_built : build_router (λ u, Ok u) 0 chain_near = Ok chain_router.
Proof.
  assert (anytls_outbound_new example_cfg 0 = Ok (example_cfg, tuning_from_config example_cfg, chain_outbound)) as E
    by by rw /anytls_outbound_new chain_state_new.
  rw /build_router /router_new /chain_near. cbn [outbounds insert_outbounds]. rw /build_outbound. cbn [out_protocol example_cfg].
  by rw E.
Qed.

Definition chain_far : Config :=
  MkConfig None None []
    [MkOutbound (str "direct") Direct None None false None None None None None None None] (MkRouting None []).
Definition chain_exit : @Router () := MkRouter chain_far (<[str "direct" := ()]> ∅).
Definition chain_new (c : OutboundConfig) : Result () := Ok ().

Lemma chain_end_to_end_witness :
  ∃ need, ∀ k, (need ≤ k)%nat →
    let ndial := near_dial chain_router (Ok (MkStream [] [] k)) [MkRound 1 [] 2 3] 0 4 in
    let client := socks5_dial (λ _, Ok ()) demo_outbound (MkSession [] Connect example_target) in
    let s := exchange client (handle ndial (λ _, Ok ()) demo_inbound) 3 in
    ∀ ak, (length (s ++ [9%Z]) ≤ ak)%nat →
    ∃ app out, handle_connect copy_streams ndial (λ _, Ok ()) demo_inbound (MkStream [9] [] 10)
        (MkStream (wrote client s ++ [1; 2; 3; 4]) [] ak) = (Ok (Some (MkSession (in_tag demo_inbound) Connect example_target, out)), app) ∧
      tx app = s ++ [9] ∧
    (concat (aw_data <$> example_writes) = tx out →
     ∃ ob' i sid cs, store ob' !! i = Some cs ∧
      let written := tx (cw_inner (cs_writer (client_run cs (app_event sid <$> example_writes)))) in
      ∃ n ss oc, serve_connection (str "in") DEFAULT_PADDING_MD5 [] [example_user] None copy_streams
          (replicate n (FrameLoop (with_room (λ n, n) (router_dial chain_exit)))) (MkStream written [] 1000) =
          Ok (InSession (str "alice") ss) ∧
        outs ss = [oc] ∧ oc_session oc = MkSession (str "in") Connect example_target ∧ tx (oc_io oc) = [1; 2; 3; 4]).
Proof.
  destruct (chain_end_to_end (λ u, Ok u) () chain_new chain_new chain_new (λ n, n) copy_streams (λ _, Ok ()) (λ _, Ok ())
    demo_inbound demo_outbound demo_server [] example_target [1; 2; 3; 4] [8] [9] 10 chain_near chain_router 0 (str "out")
    example_cfg (tuning_from_config example_cfg) chain_outbound (str "secret") 30 1 2 3 0 4 [] example_writes
    chain_far chain_exit (str "in") (str "direct") () 100%nat [example_user] example_user DEFAULT_PADDING_MD5 [] None copy_streams 1000)
    as [need Hneed].
  - apply _.
  - reflexivity.
  - reflexivity.
  - exact demo_credentials.
  - by_decide.
  - reflexivity.
  - reflexivity.
  - by_decide.
  - repeat (apply Forall_cons; split; [split_and!; [done|by_decide|exact example_plan_ok]|]). by apply Forall_nil.
  - exact chain_built.
  - right. split; [by apply Forall_nil|]. right. split; [reflexivity|]. by eexists _, _.
  - by rw /chain_router lookup_insert_eq.
  - exact chain_state_ok.
  - split_and!; [by eexists|reflexivity|reflexivity].
  - vm_compute. reflexivity.
  - by_decide.
  - by_decide.
  - reflexivity.
  - right. split; [by apply Forall_nil|]. right. split; [reflexivity|]. by eexists _, _.
  - by rw /chain_exit lookup_insert_eq.
  - reflexivity.
  - by_decide.
  - exists need. intros k Hk. destruct (Hneed k Hk) as [_ H]. intros ndial client s ak Hak.
    destruct (H ak Hak) as (app & out & Hh & Happ & Hfar). exists app, out. split_and!; [exact Hh|exact Happ|].
    intros Hp. destruct (Hfar Hp) as (ob' & i & sid & cs & _ & Hs & n & ss & oc & Hserve & Houts & Hsess & _ & Htx).
    exists ob', i, sid, cs. split; [exact Hs|]. exists n, ss, oc. split_and!; [exact Hserve|exact Houts|exact Hsess|exact Htx].
Defined.
